(* ===== verification/_CoqProject ===== *)
-Q . S2P
Prelude.v
BTree.v
EngineError.v
Checksum.v
WalFormat.v
WalRecovery.v
MemTable.v
ManifestLog.v
SsFormat.v
Bloom.v
Versions.v
SsTable.v
Compaction.v
LsmTrack.v
LsmEngine.v
LsmReads.v
LsmScan.v
LsmRecover.v
LsmRaces.v
RelKey.v
IndexKey.v
RowCodec.v
CatalogRows.v
KvStore.v
CatalogService.v
CatalogRep.v
CatalogSpec.v
CatalogRefine.v
CatalogInv.v
CatalogRuns.v
LsmStore.v
CatalogLsm.v
