(* ===== verification/Prelude.v ===== *)
(** * RubixDB: a verification of the storage engine, the relational encodings and the catalog

    RubixDB is a database server in Rust.  Its core crate ([src/src/]) is a log-structured merge engine with a relational
    layer on top; SQL, HTTP API, command line and web console are separate crates.  This library models the engine, the
    physical encodings of the relational layer and the catalog service, and proves what makes them correct.

    ** The program

    - The write-ahead log ([src/src/wal/]) stores each operation as a frame [length || crc32c || body] in segment files.
    - An acknowledged operation is applied to the active memtable ([src/src/memtable/]).  A full memtable is frozen and queued.
    - The flush thread ([src/src/lsm/mod.rs], [spawn_flush_thread]) writes the oldest frozen memtable to an SSTable
      ([src/src/sstable/]: data blocks, sparse index, bloom filter, footer), installs it, and records it and the new
      checkpoint in the manifest ([src/src/manifest/]), a second framed log.
    - The compaction worker ([compact_once_impl], [src/src/compaction/]) merges all live tables into one and drops versions
      that no live snapshot can see.
    - A read at a snapshot asks the active memtable, the frozen ones and the tables, newest first and one lock after the
      other, and takes the first answer; a range scan merges all of them.  [LsmEngine::open] rebuilds the engine from
      manifest, log and table directory.
    - The relational layer ([src/src/relational/]) maps rows and index entries to engine keys whose byte order is the
      columns' order.  The catalog ([src/src/catalog/]) keeps its eight system tables as such rows and changes them with one
      [write_batch] per request.

    ** The library

    - [Prelude] (this file): results and the [let?] notation for [?], machine integers, bytes, endianness, [Ord] as a class
      with its laws, shared lemmas and tactics.
    - [BTree]: [BTreeMap] as its in-order association list, with [range] and the calls on which it panics.
    - [EngineError]: [src/src/error.rs].  [Checksum]: the third-party hashes CRC-32C and XXH64, as classes [Crc32c] and
      [Xxh64] that hold the function and the width of its result; the general theorems hold for all of them, and the concrete
      instances serve examples and witnesses only.
    - [WalFormat]: [wal/format.rs], [wal/ops.rs] (segment header, frame, operation bodies).  [WalRecovery]: [wal/recovery.rs]
      ([walk_segment] with its torn-tail, zero-tail and lost-sector rules).
    - [MemTable] (module [Mem]): [memtable/mod.rs].
    - [ManifestLog] (module [Manifest]): [manifest/{format,state,recovery,mod}.rs] ([ManifestEdit], [apply], [replay],
      [append_sync] with its rollback and poisoning).
    - [SsFormat] (module [Fmt]), [Bloom], [SsTable] (module [Sst]): [sstable/{format,bloom,writer,reader}.rs].
    - [Versions]: the abstract multi-version store; [newest items key as_of] is the specification of every read.
    - [Compaction] (module [Compact]): [compaction/mod.rs].
    - [LsmTrack] (module [Track]): the apply tracker, the snapshot registry and the compaction health of [lsm/mod.rs].
    - [LsmEngine] (module [Lsm]): the engine's shared state as one record and each operation in a state monad whose outcomes
      are a value, an [EngineError] or a panic.  A function that takes several locks in turn has one definition per lock
      scope: [read_active], [read_immutables], [read_sstables] for a point read; [snapshot_seq], [snapshot_register] for a
      snapshot; [flush_recv], [flush_publish], [flush_install], [flush_marker], [flush_checkpoint], [flush_drop] for the
      flush thread; [compact_capture], [compact_choose], [compact_write], [compact_manifest], [compact_splice],
      [compact_delete] for a compaction.  [get_as_of], [snapshot], [flush_attempt] and [compact_once_impl] compose them as
      the source does.
    - [LsmReads] (module [Reads]): the interleavings of these scopes.  [step] is every step the code can take, [disciplined]
      the conditions the read theorems need and the code does not enforce, [orderly] a run that keeps them; the invariant
      of the sources' order and the read theorem follow.  [LsmScan] (module [Scan]): [range_scan] and [RangeScanIter], with
      the three scopes of [capture_read_view] apart.  [LsmRecover] (module [Recover]): [LsmEngine::open] with the
      table-directory sweep and the log replay.  [LsmRaces] (module [Races]): what happens without the conditions.
    - [RelKey] (module [Rel]): [relational/key.rs] with the value and error types of [relational/{value,error}.rs].
      [IndexKey] (module [Idx]): [relational/index_key.rs].  [RowCodec] (module [Row]): the row envelope and the two field
      codecs of [catalog/encoding.rs] and [relational/value.rs].  [CatalogRows] (module [Rows]): the eight system tables'
      rows of [catalog/schema.rs].
    - [KvStore] (module [Kv]): the interface between catalog and engine, as the classes [KvStore] and [KvStoreLaws].
      [CatalogService]: [catalog/service.rs] against that interface.  [CatalogRep], [CatalogSpec]: the catalog as records,
      and its abstract transition function [spec].  [CatalogRefine]: each request refines [spec].  [CatalogInv]: every
      accepted request keeps [wf].  [CatalogRuns]: whole runs.  [LsmStore]: the LSM engine discharges the interface;
      [CatalogLsm]: the catalog running on it.

    ** What the theorems show

    - Crash behaviour of the logs: a segment cut at any byte behind its header, and a manifest cut at any byte, recover
      exactly the frames before the cut; a segment cut inside its header is reported as corruption ([walk_segment_cut],
      [replay_cut]).  Zero tails are torn tails ([walk_segment_zero_tail]), recovery of arbitrary bytes terminates and
      returns only frames that are there ([walk_segment_total], [replay_total]), truncating and recovering again changes
      nothing ([walk_segment_truncate_clean]), and an acknowledged manifest edit survives reopening whatever writes and
      rollbacks fail, as long as syncs work ([append_sync_durable]).
    - Formats: decoders accept exactly the encoders' output ([decode_wal_body_canonical], [decode_block_iff],
      [decode_index_block_iff], [bloom_and_footer_iff]) and size limits are exact ([encode_wal_frame_spec], [bloom_cap_exact]).
    - Data structures against the abstract store: memtable ([replay_refines], [range_spec]), table writer and reader
      ([write_open_get], [cursor_scan], [flush_refines], [no_false_negatives]), merge and compaction ([merge_preserves_reads],
      [merge_fails_closed], [compact_tables]), manifest state ([apply_all_spec]).
    - The engine, over orderly runs: a point read whose three lock scopes are interleaved with other threads returns what the
      log of applied versions said at one moment between its first and its last scope ([reads_refine]); a range scan says
      that of each key, the moments of different keys possibly differing ([range_scan_refines]).  Both hold at or above the
      compaction floor, below which versions are gone; every registered snapshot and the durable watermark are at or above
      it.  [write_batch] on every branch, the batch that is logged but not confirmed included ([write_batch_atomic]).
      Checkpoint tracking, snapshot floor and health are exact ([tracker_exact], [oldest_exact], [health_exact]).
      Opening restores what manifest, log and directory say ([open_spec], [parse_filename_exact]); its clause on reads asks
      that the tables' ids follow their recency, which a flush overtaken by a compaction can break.
    - Relational keys and rows: byte order is logical order in every position of a composite key, floats by the standard
      library's IEEE 754 comparison ([composite_key_order]), keys decode ([composite_key_roundtrip],
      [indexed_columns_roundtrip]), index ranges hold exactly what their bounds ask for, for every index id but [u32::MAX]
      ([index_scan_exact]), and so do table ranges ([table_row_range_exact]); rows round-trip and decode to typed fields
      ([rel_row_roundtrip], [row_decode_typed], [catalog_rows_roundtrip]).
    - The catalog: each request but [create_constraint] with kind CHECK, from coherent caches, returns and leaves what [spec]
      says ([service_refines_catalog]); over orderly runs (a new service after an engine error, no foreign key put on an
      index between the two halves of [mark_index_dropping]) the catalog stays well formed and no request panics
      ([catalog_always_wf]), also on the LSM engine with flushes, compactions and snapshots between the requests
      ([catalog_on_lsm]).
    - Where the code falls short of a promise, a theorem says in which states: [failed_sync_loses_next_edit],
      [long_key_never_flushes], [splice_hides_newer_table], [late_apply_hides_newer], [flush_retry_stuck],
      [late_drop_mark_breaks_key], the last clause of [index_scan_exact]; and an example exhibits a run: [append_sync_failed_sync_loses_edit], [zero_bit_filter_panics],
      [compaction_hides_concurrent_flush], [late_apply_reads_older_version], [snapshot_read_not_repeatable],
      [late_snapshot_loses_version], [scan_sees_part_of_batch], [failed_put_returns_after_restart],
      [restart_reads_older_version], [stale_cache_drops_referenced_table], [create_constraint_stale_checks],
      [set_default_guard_lost].  The conditions of the theorems above are the ones these runs violate.

    ** Bounds and fuel

    Integers are [Z] with their width stated where it matters: overflow is wrapping, checked or saturating as in the source,
    and a release build's wrap-around is written out.  A loop that is not structural carries fuel; running out is a value of its
    own ([None]) or cannot happen: the frame walks take one unit per byte of the file, of which every iteration consumes at
    least one ([walk_segment_total], [replay_total]); member, record and index-entry counts come from the input and each entry
    consumes bytes; the tracker's [advance] removes one element per step, with fuel above their number; a merge consumes a
    version per step, and its theorems hold for every fuel above the number of versions; a scan's fuel is computed from the
    engine ([scan_fuel_at]); [unescape_loop] is given more than the bytes of the key ([unescape_fuel]).

    ** Not modelled

    File-system effects (temporary files, fsync, rename, directory sync, file locks): a call's answer is an argument of the
    model, so every error path is a value.  Thread scheduling is the step relations of [LsmReads] and [CatalogRuns]; a mutex
    makes the scope that holds it atomic.  The log's file handle (rotation, purge, several segments), the group commit thread
    and the execution layer are not modelled: the engine takes the log's answer to each write as an argument (acknowledged,
    refused, or appended without confirmation), and [wal_log] lists what was appended, durable or not.  In the catalog's runs
    the engine's background steps come between requests, not inside one; a new service is [CatalogService::new] on the
    running engine, while restarting the engine itself is [open_spec]'s subject.  Not modelled either: relational storage,
    transactions and index maintenance, backup and checks ([ops]), SQL, API, command line, instance management and web
    console, and error texts beyond their fixed part. *)

From stdpp Require Import base list option.
From Stdlib Require Import ZArith Lia.
From Stdlib Require Import Strings.Byte.

#[global] Open Scope Z_scope.

(** ** Results: Rust's [Result<A, E>] and the [?] operator *)

Inductive result (E A : Type) : Type :=
| Ok (a : A)
| Err (e : E).
Arguments Ok {E A} a.
Arguments Err {E A} e.

Definition is_ok {E A} (r : result E A) : bool :=
  match r with Ok _ => true | Err _ => false end.

Definition map_err {E E' A} (f : E -> E') (r : result E A) : result E' A :=
  match r with Ok a => Ok a | Err e => Err (f e) end.

Definition ok_or {E A} (e : E) (o : option A) : result E A :=
  match o with Some a => Ok a | None => Err e end.

Declare Scope rust_scope.
Delimit Scope rust_scope with rust.
#[global] Open Scope rust_scope.

Notation "'let?' x := c 'in' k" :=
  (match c with Ok x => k | Err e => Err e end)
  (at level 10, x name, c at level 100, k at level 200) : rust_scope.
Notation "'let?' ' p := c 'in' k" :=
  (match c with Ok p => k | Err e => Err e end)
  (at level 10, p strict pattern, c at level 100, k at level 200) : rust_scope.

(** The same for a call that may also panic ([None]). *)
Notation "'let!' x := c 'in' k" :=
  (match c with Some (Ok x) => k | Some (Err e) => Some (Err e) | None => None end)
  (at level 10, x name, c at level 100, k at level 200) : rust_scope.
Notation "'let!' ' p := c 'in' k" :=
  (match c with Some (Ok p) => k | Some (Err e) => Some (Err e) | None => None end)
  (at level 10, p strict pattern, c at level 100, k at level 200) : rust_scope.

(** ** Automation *)

Create HintDb rubix.

Ltac bool_to_prop :=
  repeat match goal with
  | H : (_ && _)%bool = true |- _ => apply andb_prop in H as [? ?]
  | H : (_ || _)%bool = false |- _ => apply orb_false_elim in H as [? ?]
  | H : (_ =? _) = true |- _ => apply Z.eqb_eq in H
  | H : (_ =? _) = false |- _ => apply Z.eqb_neq in H
  | H : (_ <? _) = true |- _ => apply Z.ltb_lt in H
  | H : (_ <? _) = false |- _ => apply Z.ltb_ge in H
  | H : (_ <=? _) = true |- _ => apply Z.leb_le in H
  | H : (_ <=? _) = false |- _ => apply Z.leb_gt in H
  end.

(** Split on the scrutinee of the first [if]/[match] on a comparison in the goal. *)
Ltac case_cmp :=
  match goal with
  | |- context [?a =? ?b] => destruct (Z.eqb_spec a b)
  | |- context [?a <? ?b] => destruct (Z.ltb_spec a b)
  | |- context [?a <=? ?b] => destruct (Z.leb_spec a b)
  end.

(** Decide a comparison in the goal when [lia] knows its outcome. *)
Ltac cmp_lia :=
  repeat match goal with
  | |- context [?a =? ?b] =>
      first [ rewrite (proj2 (Z.eqb_eq a b)) by lia | rewrite (proj2 (Z.eqb_neq a b)) by lia ]
  | |- context [?a <? ?b] =>
      first [ rewrite (proj2 (Z.ltb_lt a b)) by lia | rewrite (proj2 (Z.ltb_ge a b)) by lia ]
  | |- context [?a <=? ?b] =>
      first [ rewrite (proj2 (Z.leb_le a b)) by lia | rewrite (proj2 (Z.leb_gt a b)) by lia ]
  end.

(** Close a decidable goal on concrete data by evaluation. *)
Ltac by_eval :=
  repeat match goal with |- _ /\ _ => split | |- Forall _ _ => constructor end;
  try (vm_compute; first [reflexivity | discriminate | (repeat split; first [reflexivity | discriminate])]).

(** ** Machine integers *)

Definition u8_max : Z := 255.
Definition u32_max : Z := 4294967295.
Definition u64_max : Z := 18446744073709551615.

Definition is_u8 (z : Z) : Prop := 0 <= z <= u8_max.
Definition is_u32 (z : Z) : Prop := 0 <= z <= u32_max.
Definition is_u64 (z : Z) : Prop := 0 <= z <= u64_max.

(** [u64] (and 64-bit [usize]) arithmetic: wrapping, checked and saturating. *)
Definition wrapping_add64 (a b : Z) : Z := (a + b) mod 2 ^ 64.
Definition wrapping_mul64 (a b : Z) : Z := (a * b) mod 2 ^ 64.
Definition checked_add64 (a b : Z) : option Z :=
  if a + b <=? u64_max then Some (a + b) else None.
Definition checked_add32 (a b : Z) : option Z :=
  if a + b <=? u32_max then Some (a + b) else None.
Definition saturating_sub (a b : Z) : Z := if b <=? a then a - b else 0.
Definition saturating_add64 (a b : Z) : Z := Z.min (a + b) u64_max.
Definition saturating_mul64 (a b : Z) : Z := Z.min (a * b) u64_max.
Definition div_ceil (a b : Z) : Z := (a + b - 1) / b.

Ltac unfold_ints := unfold is_u8, is_u32, is_u64, u8_max, u32_max, u64_max in *.

(** ** Bytes *)

Abbreviation byte := Byte.byte.
Abbreviation bytes := (list Byte.byte).

#[global] Instance byte_eq_dec : EqDecision byte := Byte.byte_eq_dec.

Definition b2z (b : byte) : Z := Z.of_N (Byte.to_N b).
Definition z2b (z : Z) : byte :=
  match Byte.of_N (Z.to_N (z mod 256)) with Some b => b | None => x00 end.

Lemma b2z_range b : 0 <= b2z b < 256.
Proof. unfold b2z. pose proof (Byte.to_N_bounded b). lia. Qed.

Lemma b2z_inj a b : b2z a = b2z b -> a = b.
Proof.
  unfold b2z. intros H%N2Z.inj.
  pose proof (Byte.of_to_N a) as Ha. rewrite H, Byte.of_to_N in Ha. congruence.
Qed.

Lemma b2z_z2b z : b2z (z2b z) = z mod 256.
Proof.
  unfold b2z, z2b. pose proof (Z.mod_pos_bound z 256 eq_refl) as Hm.
  destruct (Byte.of_N (Z.to_N (z mod 256))) as [b|] eqn:E.
  - apply Byte.to_of_N in E. rewrite E. lia.
  - apply Byte.of_N_None_iff in E. lia.
Qed.

Lemma b2z_z2b_small z : 0 <= z < 256 -> b2z (z2b z) = z.
Proof. intros. rewrite b2z_z2b. by apply Z.mod_small. Qed.

Lemma z2b_b2z b : z2b (b2z b) = b.
Proof. apply b2z_inj. rewrite b2z_z2b. apply Z.mod_small, b2z_range. Qed.

(** A byte slice's length, as the 64-bit [usize] the code uses. *)
Abbreviation zlen l := (Z.of_nat (length l)).

Lemma zlen_app {A} (l k : list A) : zlen (l ++ k) = zlen l + zlen k.
Proof. rewrite length_app. lia. Qed.

Lemma zlen_cons {A} (x : A) (l : list A) : zlen (x :: l) = 1 + zlen l.
Proof. simpl length. lia. Qed.

Lemma zlen_nonneg {A} (l : list A) : 0 <= zlen l.
Proof. lia. Qed.

(** [&buf[a..]] and [&buf[..n]], for in-range arguments. *)
Definition zdrop {A} (n : Z) (l : list A) : list A := drop (Z.to_nat n) l.
Definition ztake {A} (n : Z) (l : list A) : list A := take (Z.to_nat n) l.

(** [buf.get(a..b)]. *)
Definition get_range {A} (l : list A) (a b : Z) : option (list A) :=
  if (a <=? b) && (b <=? zlen l) then Some (ztake (b - a) (zdrop a l)) else None.

(** [buf.get(i)]. *)
Definition get_at {A} (l : list A) (i : Z) : option A := l !! (Z.to_nat i).

Lemma zdrop_app {A} (l k : list A) : zdrop (zlen l) (l ++ k) = k.
Proof. unfold zdrop. rewrite Nat2Z.id. apply drop_app_length. Qed.

Lemma ztake_app {A} (l k : list A) : ztake (zlen l) (l ++ k) = l.
Proof. unfold ztake. rewrite Nat2Z.id. apply take_app_length. Qed.

Lemma zdrop_app' {A} n (l k : list A) : n = zlen l -> zdrop n (l ++ k) = k.
Proof. intros ->. apply zdrop_app. Qed.

Lemma ztake_app' {A} n (l k : list A) : n = zlen l -> ztake n (l ++ k) = l.
Proof. intros ->. apply ztake_app. Qed.

Lemma ztake_all {A} (l : list A) : ztake (zlen l) l = l.
Proof. unfold ztake. rewrite Nat2Z.id. by apply take_ge. Qed.

Lemma ztake_all' {A} n (l : list A) : n = zlen l -> ztake n l = l.
Proof. intros ->. apply ztake_all. Qed.

Lemma zlen_ztake {A} n (l : list A) : 0 <= n <= zlen l -> zlen (ztake n l) = n.
Proof. intros. unfold ztake. rewrite length_take. lia. Qed.

Lemma zlen_zdrop {A} n (l : list A) : 0 <= n <= zlen l -> zlen (zdrop n l) = zlen l - n.
Proof. intros. unfold zdrop. rewrite length_drop. lia. Qed.

Lemma ztake_zdrop {A} n (l : list A) : ztake n l ++ zdrop n l = l.
Proof. apply take_drop. Qed.

Lemma zdrop_zdrop {A} a b (l : list A) : 0 <= a -> 0 <= b -> zdrop b (zdrop a l) = zdrop (a + b) l.
Proof. intros. unfold zdrop. rewrite drop_drop. f_equal. lia. Qed.

Lemma ztake_split {A} a n (l : list A) : 0 <= a <= n -> ztake n l = ztake a l ++ ztake (n - a) (zdrop a l).
Proof.
  intros. unfold ztake, zdrop. rewrite <- (take_drop (Z.to_nat a) (take (Z.to_nat n) l)).
  f_equal; [rewrite take_take; f_equal; lia|]. rewrite skipn_firstn_comm. f_equal. lia.
Qed.

Lemma zdrop_0 {A} (l : list A) : zdrop 0 l = l.
Proof. done. Qed.

Lemma zdrop_all' {A} n (l : list A) : zlen l <= n -> zdrop n l = [].
Proof. intros. unfold zdrop. apply drop_ge. lia. Qed.

Lemma get_range_app {A} (pre mid post : list A) a b :
  a = zlen pre -> b = zlen pre + zlen mid ->
  get_range (pre ++ mid ++ post) a b = Some mid.
Proof.
  intros -> ->. unfold get_range. rewrite !zlen_app. cmp_lia. simpl. f_equal.
  rewrite zdrop_app. apply ztake_app'. lia.
Qed.

Lemma get_range_Some {A} (l : list A) a b r :
  0 <= a -> get_range l a b = Some r ->
  a <= b /\ b <= zlen l /\ zlen r = b - a /\ l = ztake a l ++ r ++ zdrop b l.
Proof.
  unfold get_range. intros Ha H. destruct ((a <=? b) && (b <=? zlen l)) eqn:E; [|done].
  simplify_eq. bool_to_prop. split_and!; try lia.
  - rewrite zlen_ztake; [lia|]. rewrite zlen_zdrop; lia.
  - unfold ztake, zdrop. rewrite <- (take_drop (Z.to_nat a) l) at 1. f_equal.
    rewrite <- (take_drop (Z.to_nat (b - a)) (drop (Z.to_nat a) l)) at 1. f_equal.
    rewrite drop_drop. f_equal. lia.
Qed.

Lemma get_at_app {A} (pre post : list A) x i :
  i = zlen pre -> get_at (pre ++ x :: post) i = Some x.
Proof. intros ->. unfold get_at. rewrite Nat2Z.id. by apply list_lookup_middle. Qed.

(** Cutting a concatenation of non-empty chunks at any offset leaves whole chunks and at most one proper chunk
    prefix. *)
Lemma cut_concat {A} (cs : list (list A)) n :
  Forall (fun c => 0 < zlen c) cs -> 0 <= n <= zlen (concat cs) ->
  exists k t, (k <= length cs)%nat /\ ztake n (concat cs) = concat (take k cs) ++ t /\
    (t = [] \/ exists c j, cs !! k = Some c /\ t = ztake j c /\ 0 < j < zlen c) /\
    n = zlen (concat (take k cs)) + zlen t /\
    (k = length cs \/ n < zlen (concat (take (S k) cs))).
Proof.
  intros Hcs. revert n. induction Hcs as [|c cs Hc Hcs IH]; intros n Hn.
  { exists 0%nat, []. simpl in *. replace n with 0 by lia. split_and!; auto. }
  simpl concat in *. rewrite zlen_app in Hn.
  destruct (Z.lt_ge_cases n (zlen c)) as [Hlt|Hge].
  - exists 0%nat, (ztake n c). simpl. rewrite app_nil_r. split_and!; [lia| |..].
    + unfold ztake. rewrite take_app_le by lia. done.
    + destruct (decide (n = 0)) as [->|]; [by left|]. right. exists c, n. split_and!; [done|done|lia..].
    + rewrite zlen_ztake; lia.
    + right. lia.
  - destruct (IH (n - zlen c)) as (k & t & Hk & Hcut & Ht & Hz & Hlast); [lia|].
    exists (S k), t.
    assert (forall i, concat (take (S i) (c :: cs)) = c ++ concat (take i cs)) as Hs by done.
    rewrite !Hs, !zlen_app.
    split_and!; [simpl; lia| |done|lia|destruct Hlast; [left|right]; simpl length; lia].
    unfold ztake at 1. rewrite take_app_ge by lia. rewrite <- app_assoc, <- Hcut. f_equal.
    unfold ztake. f_equal. lia.
Qed.

(** ** Little- and big-endian integers ([to_le_bytes], [from_le_bytes], ...) *)

Fixpoint le_bytes (n : nat) (z : Z) : bytes :=
  match n with
  | O => []
  | S n => z2b z :: le_bytes n (z / 256)
  end.

Fixpoint le_val (l : bytes) : Z :=
  match l with
  | [] => 0
  | b :: l => b2z b + 256 * le_val l
  end.

Definition be_bytes (n : nat) (z : Z) : bytes := reverse (le_bytes n z).
Definition be_val (l : bytes) : Z := le_val (reverse l).

Lemma length_le_bytes n z : length (le_bytes n z) = n.
Proof. revert z; induction n; simpl; auto. Qed.

Lemma length_be_bytes n z : length (be_bytes n z) = n.
Proof. unfold be_bytes. by rewrite length_reverse, length_le_bytes. Qed.

Lemma le_val_bound l : 0 <= le_val l < 256 ^ zlen l.
Proof.
  induction l as [|b l IH]; simpl le_val; [done|].
  pose proof (b2z_range b). simpl length. rewrite Nat2Z.inj_succ, Z.pow_succ_r by lia. lia.
Qed.

Lemma le_val_bytes n z : le_val (le_bytes n z) = z mod 256 ^ Z.of_nat n.
Proof.
  revert z; induction n as [|n IH]; intros z; simpl le_bytes; simpl le_val.
  - by rewrite Z.mod_1_r.
  - rewrite IH, b2z_z2b, Nat2Z.inj_succ, Z.pow_succ_r by lia.
    pose proof (Z.pow_pos_nonneg 256 (Z.of_nat n)).
    rewrite Z.rem_mul_r by lia. lia.
Qed.

Lemma le_val_bytes_small n z : 0 <= z < 256 ^ Z.of_nat n -> le_val (le_bytes n z) = z.
Proof. intros. rewrite le_val_bytes. by apply Z.mod_small. Qed.

Lemma le_bytes_val l : le_bytes (length l) (le_val l) = l.
Proof.
  induction l as [|b l IH]; simpl; [done|]. pose proof (b2z_range b). f_equal.
  - apply b2z_inj. rewrite b2z_z2b, (Z.mul_comm 256), Z.mod_add by lia.
    by apply Z.mod_small.
  - rewrite (Z.mul_comm 256), Z.div_add, Z.div_small by lia. apply IH.
Qed.

Lemma be_val_bytes_small n z : 0 <= z < 256 ^ Z.of_nat n -> be_val (be_bytes n z) = z.
Proof. intros. unfold be_val, be_bytes. rewrite reverse_involutive. by apply le_val_bytes_small. Qed.

Lemma be_bytes_val n l : length l = n -> be_bytes n (be_val l) = l.
Proof.
  intros <-. unfold be_bytes, be_val.
  rewrite <- (length_reverse l), le_bytes_val. apply reverse_involutive.
Qed.

Lemma be_bytes_S n z : be_bytes (S n) z = be_bytes n (z / 256) ++ [z2b z].
Proof. unfold be_bytes. simpl. by rewrite reverse_cons. Qed.

Lemma le_bytes_S n z : le_bytes (S n) z = z2b z :: le_bytes n (z / 256).
Proof. done. Qed.

Lemma reverse_be_bytes n z : reverse (be_bytes n z) = le_bytes n z.
Proof. unfold be_bytes. apply reverse_involutive. Qed.

Lemma be_bytes_0 z : be_bytes 0 z = [].
Proof. done. Qed.

Lemma be_val_bound l : 0 <= be_val l < 256 ^ zlen l.
Proof. unfold be_val. rewrite <- (length_reverse l). apply le_val_bound. Qed.

#[global] Arguments Z.of_nat : simpl never.

(** The widths used by the formats. *)
Abbreviation le32 z := (le_bytes 4 z).
Abbreviation le64 z := (le_bytes 8 z).
Abbreviation be32 z := (be_bytes 4 z).
Abbreviation be64 z := (be_bytes 8 z).

Lemma le_val_32 z : is_u32 z -> le_val (le32 z) = z.
Proof. unfold_ints. intros. apply le_val_bytes_small. simpl. lia. Qed.

Lemma le_val_64 z : is_u64 z -> le_val (le64 z) = z.
Proof. unfold_ints. intros. apply le_val_bytes_small. simpl. lia. Qed.

Lemma le_val_u32 l : zlen l = 4 -> is_u32 (le_val l).
Proof. intros H. pose proof (le_val_bound l). rewrite H in *. unfold_ints. simpl in *. lia. Qed.

Lemma le_val_u64 l : zlen l = 8 -> is_u64 (le_val l).
Proof. intros H. pose proof (le_val_bound l). rewrite H in *. unfold_ints. simpl in *. lia. Qed.

Lemma le_bytes_inj n a b :
  0 <= a < 256 ^ Z.of_nat n -> 0 <= b < 256 ^ Z.of_nat n -> le_bytes n a = le_bytes n b -> a = b.
Proof. intros Ha Hb H. by rewrite <- (le_val_bytes_small n a), H, le_val_bytes_small. Qed.

#[global] Opaque le_bytes le_val be_bytes be_val.

Create Rewrite HintDb zlen.
#[export] Hint Rewrite @zlen_app @zlen_cons @length_le_bytes @length_be_bytes : zlen.
Ltac zlen := autorewrite with zlen; simpl length; try lia.

(** ** Sequential little-endian reads over a slice and a cursor.
    The parsers thread [pos : &mut usize]; every read moves past what it consumed. *)

Lemma get_range_le {A} (pre mid post : list A) n :
  length mid = n ->
  get_range (pre ++ mid ++ post) (zlen pre) (zlen pre + Z.of_nat n) = Some mid.
Proof. intros <-. by apply get_range_app. Qed.

(** ** Rust's [Ord]: total orders as three-way comparisons *)

Class Ord (A : Type) := cmp : A -> A -> comparison.

Class OrdLaws (A : Type) `{Ord A} : Prop := {
  cmp_eq (x y : A) : cmp x y = Eq <-> x = y;
  cmp_opp (x y : A) : cmp y x = CompOpp (cmp x y);
  cmp_lt_trans (x y z : A) : cmp x y = Lt -> cmp y z = Lt -> cmp x z = Lt
}.

Definition ltb `{Ord A} (x y : A) : bool := match cmp x y with Lt => true | _ => false end.
Definition leb `{Ord A} (x y : A) : bool := match cmp x y with Gt => false | _ => true end.
Definition eqb `{Ord A} (x y : A) : bool := match cmp x y with Eq => true | _ => false end.

Section OrdFacts.
Context `{OrdLaws A}.
Implicit Types x y z : A.

Lemma cmp_refl x : cmp x x = Eq.
Proof. by apply cmp_eq. Qed.

Lemma cmp_gt_lt x y : cmp x y = Gt <-> cmp y x = Lt.
Proof. rewrite (cmp_opp x y). destruct (cmp x y); simpl; naive_solver. Qed.

Lemma cmp_lt_irrefl x : cmp x x <> Lt.
Proof. by rewrite cmp_refl. Qed.

Lemma cmp_lt_asym x y : cmp x y = Lt -> cmp y x = Lt -> False.
Proof. rewrite (cmp_opp x y). intros ->. done. Qed.

Lemma eqb_eq x y : eqb x y = true <-> x = y.
Proof. rewrite <- cmp_eq. unfold eqb. destruct (cmp x y); naive_solver. Qed.

Lemma ltb_lt x y : ltb x y = true <-> cmp x y = Lt.
Proof. unfold ltb. destruct (cmp x y); naive_solver. Qed.

Lemma leb_le x y : leb x y = true <-> cmp x y <> Gt.
Proof. unfold leb. destruct (cmp x y); naive_solver. Qed.

Lemma leb_negb_ltb x y : leb x y = negb (ltb y x).
Proof. unfold leb, ltb. rewrite (cmp_opp x y). by destruct (cmp x y). Qed.

Lemma cmp_le_trans x y z : cmp x y <> Gt -> cmp y z <> Gt -> cmp x z <> Gt.
Proof.
  intros Hxy Hyz. destruct (cmp x y) eqn:E1; [|clear Hxy|done].
  - by apply cmp_eq in E1 as ->.
  - destruct (cmp y z) eqn:E2; [|clear Hyz|done].
    + apply cmp_eq in E2 as ->. by rewrite E1.
    + by rewrite (cmp_lt_trans _ _ _ E1 E2).
Qed.

Lemma cmp_le_lt_trans x y z : cmp x y <> Gt -> cmp y z = Lt -> cmp x z = Lt.
Proof.
  intros Hxy Hyz. destruct (cmp x y) eqn:E1; [|clear Hxy|done].
  - by apply cmp_eq in E1 as ->.
  - by apply (cmp_lt_trans x y z).
Qed.

Lemma cmp_lt_le_trans x y z : cmp x y = Lt -> cmp y z <> Gt -> cmp x z = Lt.
Proof.
  intros Hxy Hyz. destruct (cmp y z) eqn:E1; [|clear Hyz|done].
  - by apply cmp_eq in E1 as <-.
  - by apply (cmp_lt_trans x y z).
Qed.

#[global] Instance ord_eq_dec : EqDecision A.
Proof.
  intros x y. destruct (cmp x y) eqn:E.
  - left. by apply cmp_eq.
  - right. intros ->. by rewrite cmp_refl in E.
  - right. intros ->. by rewrite cmp_refl in E.
Defined.
End OrdFacts.

#[global] Instance Z_ord : Ord Z := Z.compare.
#[global] Instance Z_ord_laws : OrdLaws Z.
Proof.
  split; unfold cmp, Z_ord.
  - apply Z.compare_eq_iff.
  - intros. by rewrite Z.compare_antisym.
  - intros x y z. rewrite !Z.compare_lt_iff. lia.
Qed.

Lemma cmp_Z_lt (a b : Z) : cmp a b = Lt <-> a < b.
Proof. apply Z.compare_lt_iff. Qed.

Lemma cmp_Z_le (a b : Z) : cmp a b <> Gt <-> a <= b.
Proof. apply Z.compare_le_iff. Qed.

#[global] Instance byte_ord : Ord byte := fun a b => Z.compare (b2z a) (b2z b).
#[global] Instance byte_ord_laws : OrdLaws byte.
Proof.
  split; unfold cmp, byte_ord.
  - intros. rewrite Z.compare_eq_iff. split; [apply b2z_inj | by intros ->].
  - intros. by rewrite Z.compare_antisym.
  - intros x y z. rewrite !Z.compare_lt_iff. lia.
Qed.

(** Slices and vectors compare lexicographically. *)
Fixpoint list_cmp {A} (f : A -> A -> comparison) (l k : list A) : comparison :=
  match l, k with
  | [], [] => Eq
  | [], _ :: _ => Lt
  | _ :: _, [] => Gt
  | x :: l, y :: k => match f x y with Eq => list_cmp f l k | c => c end
  end.

#[global] Instance list_ord `{Ord A} : Ord (list A) := list_cmp cmp.
#[global] Instance list_ord_laws `{OrdLaws A} : OrdLaws (list A).
Proof.
  split; unfold cmp, list_ord.
  - intros x; induction x as [|a x IH]; intros [|b y]; simpl; [done..|].
    specialize (IH y). destruct (cmp a b) eqn:E.
    + apply cmp_eq in E as ->. naive_solver.
    + split; [done|]. intros [= -> ->]. by rewrite cmp_refl in E.
    + split; [done|]. intros [= -> ->]. by rewrite cmp_refl in E.
  - intros x; induction x as [|a x IH]; intros [|b y]; simpl; try done.
    rewrite (cmp_opp a b). destruct (cmp a b); simpl; auto.
  - intros x; induction x as [|a x IH]; intros [|b y] [|c z]; simpl; try discriminate; [done|].
    destruct (cmp a b) eqn:E1; try done.
    + apply cmp_eq in E1 as ->. destruct (cmp b c); try done. apply IH.
    + intros _. destruct (cmp b c) eqn:E2; try done.
      * apply cmp_eq in E2 as ->. by rewrite E1.
      * by rewrite (cmp_lt_trans _ _ _ E1 E2).
Qed.

#[global] Instance pair_ord `{Ord A, Ord B} : Ord (A * B) := fun p q =>
  match cmp p.1 q.1 with Eq => cmp p.2 q.2 | c => c end.
Lemma cmp_pair `{Ord A, Ord B} (a c : A) (b d : B) :
  cmp (a, b) (c, d) = match cmp a c with Eq => cmp b d | r => r end.
Proof. done. Qed.

#[global] Instance pair_ord_laws `{OrdLaws A, OrdLaws B} : OrdLaws (A * B).
Proof.
  split.
  - intros [a b] [c d]; rewrite cmp_pair. destruct (cmp a c) eqn:E.
    + apply cmp_eq in E as ->. rewrite cmp_eq. naive_solver.
    + split; [done|]. intros [= -> ->]. by rewrite cmp_refl in E.
    + split; [done|]. intros [= -> ->]. by rewrite cmp_refl in E.
  - intros [a b] [c d]; rewrite !cmp_pair, (cmp_opp a c).
    destruct (cmp a c); simpl; auto. apply cmp_opp.
  - intros [a b] [c d] [e f]; rewrite !cmp_pair.
    destruct (cmp a c) eqn:E1; try done.
    + apply cmp_eq in E1 as ->. destruct (cmp c e); try done. apply cmp_lt_trans.
    + intros _. destruct (cmp c e) eqn:E2; try done.
      * apply cmp_eq in E2 as ->. by rewrite E1.
      * by rewrite (cmp_lt_trans _ _ _ E1 E2).
Qed.

(** [Ordering::then]. *)
Definition cmp_then (c d : comparison) : comparison := match c with Eq => d | _ => c end.

Lemma cmp_then_assoc a b c : cmp_then (cmp_then a b) c = cmp_then a (cmp_then b c).
Proof. by destruct a. Qed.

Lemma cmp_cons `{Ord A} (a b : A) (l k : list A) : cmp (a :: l) (b :: k) = cmp_then (cmp a b) (cmp l k).
Proof. unfold cmp at 1, list_ord. simpl. by destruct (cmp a b). Qed.

(** Big-endian numbers of one width compare as the numbers, whatever follows them. *)
Lemma cmp_be_bytes n u v x y :
  0 <= u < 256 ^ Z.of_nat n -> 0 <= v < 256 ^ Z.of_nat n ->
  cmp (be_bytes n u ++ x) (be_bytes n v ++ y) = cmp_then (u ?= v) (cmp x y).
Proof.
  revert u v x y. induction n as [|n IH]; intros u v x y Hu Hv.
  - change (256 ^ Z.of_nat 0) with 1 in *. rewrite !be_bytes_0. by replace u with v by lia; rewrite Z.compare_refl.
  - rewrite Nat2Z.inj_succ, Z.pow_succ_r in Hu, Hv by lia. rewrite !be_bytes_S, <- !app_assoc.
    pose proof (Z.div_mod u 256). pose proof (Z.div_mod v 256).
    pose proof (Z.mod_pos_bound u 256). pose proof (Z.mod_pos_bound v 256).
    rewrite IH by lia. simpl. rewrite cmp_cons. unfold cmp at 1, byte_ord. rewrite !b2z_z2b.
    destruct (Z.compare_spec u v), (Z.compare_spec (u / 256) (v / 256)), (Z.compare_spec (u mod 256) (v mod 256));
      simpl; first [done | lia].
Qed.
