(* ===== verification/BTree.v ===== *)
(** * Ordered maps: the part of Rust's [BTreeMap] and [std::ops::Bound] the engine uses

    A [BTreeMap<K, V>] is modelled by its in-order traversal, an association list whose keys are strictly
    increasing for the key's [Ord]; [insert], [get], [range] and [next_back] are the operations the engine
    calls.  [range] panics on a decreasing range, as the standard library documents. *)

From stdpp Require Import base list option sorting.
From Stdlib Require Import ZArith Lia.
From S2P Require Import Prelude.

Inductive Bound (A : Type) : Type :=
| Included (a : A)
| Excluded (a : A)
| Unbounded.
Arguments Included {A} a.
Arguments Excluded {A} a.
Arguments Unbounded {A}.

Section BTreeMap.
Context `{OrdLaws K} {V : Type}.
Implicit Types (k : K) (v : V) (m : list (K * V)).

(** Membership of a key in the half-lines a start or an end bound describes. *)
Definition above (lo : Bound K) (k : K) : bool :=
  match lo with
  | Included a => leb a k
  | Excluded a => ltb a k
  | Unbounded => true
  end.

Definition below (hi : Bound K) (k : K) : bool :=
  match hi with
  | Included b => leb k b
  | Excluded b => ltb k b
  | Unbounded => true
  end.

(** [BTreeMap::range] panics when the start is after the end, or when both are the same excluded key. *)
Definition range_panics (lo hi : Bound K) : bool :=
  match lo, hi with
  | Excluded a, Excluded b => leb b a
  | Included a, (Included b | Excluded b) => ltb b a
  | Excluded a, Included b => ltb b a
  | _, _ => false
  end.

Definition lt_key (p q : K * V) : Prop := cmp p.1 q.1 = Lt.

Definition bt_sorted (m : list (K * V)) : Prop := StronglySorted lt_key m.

Fixpoint bt_insert (k : K) (v : V) (m : list (K * V)) : list (K * V) :=
  match m with
  | [] => [(k, v)]
  | (k', v') :: m' =>
      match cmp k k' with
      | Lt => (k, v) :: m
      | Eq => (k, v) :: m'
      | Gt => (k', v') :: bt_insert k v m'
      end
  end.

Fixpoint bt_get (k : K) (m : list (K * V)) : option V :=
  match m with
  | [] => None
  | (k', v') :: m' => match cmp k k' with Eq => Some v' | _ => bt_get k m' end
  end.

Fixpoint bt_remove (k : K) (m : list (K * V)) : list (K * V) :=
  match m with
  | [] => []
  | (k', v') :: m' => match cmp k k' with Eq => m' | _ => (k', v') :: bt_remove k m' end
  end.

(** [self.map.entry(k).or_insert(v)]. *)
Definition bt_or_insert (k : K) (v : V) (m : list (K * V)) : list (K * V) :=
  match bt_get k m with Some _ => m | None => bt_insert k v m end.

Definition bt_range (lo hi : Bound K) (m : list (K * V)) : option (list (K * V)) :=
  if range_panics lo hi then None
  else Some (List.filter (fun p => above lo p.1 && below hi p.1) m).

Lemma bt_insert_Forall k v m (P : K * V -> Prop) :
  P (k, v) -> Forall P m -> Forall P (bt_insert k v m).
Proof.
  intros Hk. induction 1 as [|[k' v'] m Hp Hm IH]; simpl; [by constructor|].
  destruct (cmp k k'); repeat constructor; auto.
Qed.

Lemma bt_insert_sorted k v m : bt_sorted m -> bt_sorted (bt_insert k v m).
Proof.
  unfold bt_sorted. induction 1 as [|[k' v'] m Hm IH Hall]; simpl; [repeat constructor|].
  destruct (cmp k k') eqn:E.
  - apply cmp_eq in E as ->. by constructor.
  - constructor; [by constructor|]. constructor; [done|].
    eapply Forall_impl; [exact Hall|]. unfold lt_key; simpl. intros [k2 v2]; simpl.
    by apply cmp_lt_trans.
  - constructor; [done|]. apply bt_insert_Forall; [|done]. by apply cmp_gt_lt.
Qed.

Lemma bt_get_insert k v m k' :
  bt_get k' (bt_insert k v m) = if eqb k' k then Some v else bt_get k' m.
Proof.
  induction m as [|[k1 v1] m IH]; simpl.
  - unfold eqb. by destruct (cmp k' k).
  - destruct (cmp k k1) eqn:E; simpl.
    + apply cmp_eq in E as ->. unfold eqb. by destruct (cmp k' k1).
    + unfold eqb. by destruct (cmp k' k).
    + rewrite IH. destruct (cmp k' k1) eqn:E1; try done.
      apply cmp_eq in E1 as ->. unfold eqb.
      destruct (cmp k1 k) eqn:E2; try done. apply cmp_eq in E2 as ->.
      by rewrite cmp_refl in E.
Qed.

Lemma bt_get_Some_In k v m : bt_get k m = Some v -> In (k, v) m.
Proof.
  induction m as [|[k1 v1] m IH]; simpl; [done|].
  destruct (cmp k k1) eqn:E; auto. apply cmp_eq in E as ->. intros [= ->]. by left.
Qed.

Lemma bt_In_get k v m : bt_sorted m -> In (k, v) m -> bt_get k m = Some v.
Proof.
  induction 1 as [|[k1 v1] m Hm IH Hall]; simpl; [done|].
  intros [[= -> ->]|Hin]; [by rewrite cmp_refl|].
  rewrite List.Forall_forall in Hall. specialize (Hall _ Hin). unfold lt_key in Hall; simpl in Hall.
  rewrite (cmp_opp k1 k), Hall. simpl. auto.
Qed.

Lemma bt_In_insert k v m p :
  bt_sorted m -> In p (bt_insert k v m) <-> p = (k, v) \/ (p.1 <> k /\ In p m).
Proof.
  intros Hs. destruct p as [k' v']. split.
  - intros Hin%bt_In_get; [|by apply bt_insert_sorted]. rewrite bt_get_insert in Hin.
    destruct (eqb k' k) eqn:E.
    + apply eqb_eq in E as ->. left. congruence.
    + right. split; [|by apply bt_get_Some_In]. simpl. intros Hk. subst k'.
      pose proof (proj2 (eqb_eq k k) eq_refl). congruence.
  - intros Hp. apply bt_get_Some_In. rewrite bt_get_insert.
    destruct Hp as [[= -> ->]|[Hne Hin]].
    + by rewrite (proj2 (eqb_eq k k) eq_refl).
    + destruct (eqb k' k) eqn:E; [by apply eqb_eq in E|]. by apply bt_In_get.
Qed.

Lemma bt_remove_In k m p : In p (bt_remove k m) -> In p m.
Proof.
  induction m as [|[k1 v1] m IH]; simpl; [done|]. destruct (cmp k k1); simpl; naive_solver.
Qed.

Lemma bt_remove_sorted k m : bt_sorted m -> bt_sorted (bt_remove k m).
Proof.
  unfold bt_sorted. induction 1 as [|[k1 v1] m Hm IH Hall]; simpl; [constructor|].
  assert (Forall (lt_key (k1, v1)) (bt_remove k m)).
  { rewrite List.Forall_forall in *. intros p Hp. by apply Hall, (bt_remove_In k). }
  destruct (cmp k k1); [done|by constructor..].
Qed.

Lemma bt_get_remove k m k' :
  bt_sorted m -> bt_get k' (bt_remove k m) = if eqb k' k then None else bt_get k' m.
Proof.
  unfold bt_sorted. induction 1 as [|[k1 v1] m Hm IH Hall]; simpl; [by destruct (eqb k' k)|].
  destruct (cmp k k1) eqn:E; simpl.
  - apply cmp_eq in E as ->. unfold eqb. destruct (cmp k' k1) eqn:E'; try done.
    apply cmp_eq in E' as ->. destruct (bt_get k1 m) as [v|] eqn:Eg; [|done].
    apply bt_get_Some_In in Eg. rewrite List.Forall_forall in Hall. specialize (Hall _ Eg).
    unfold lt_key in Hall. simpl in Hall. by rewrite cmp_refl in Hall.
  - rewrite IH. unfold eqb. destruct (cmp k' k1) eqn:E'; try done.
    apply cmp_eq in E' as ->. by rewrite (cmp_opp k k1), E.
  - rewrite IH. unfold eqb. destruct (cmp k' k1) eqn:E'; try done.
    apply cmp_eq in E' as ->. by rewrite (cmp_opp k k1), E.
Qed.

Lemma bt_or_insert_sorted k v m : bt_sorted m -> bt_sorted (bt_or_insert k v m).
Proof. unfold bt_or_insert. destruct (bt_get k m); [done|apply bt_insert_sorted]. Qed.

Lemma StronglySorted_filter (f : K * V -> bool) m : bt_sorted m -> bt_sorted (List.filter f m).
Proof.
  unfold bt_sorted. induction 1 as [|p m Hm IH Hall]; simpl; [constructor|].
  destruct (f p); [|done]. constructor; [done|].
  rewrite List.Forall_forall in *. intros q [Hq _]%filter_In. auto.
Qed.

Lemma bt_range_In lo hi m r p :
  bt_range lo hi m = Some r -> In p r <-> In p m /\ above lo p.1 = true /\ below hi p.1 = true.
Proof.
  unfold bt_range. destruct (range_panics lo hi); [done|]. intros [= <-].
  rewrite filter_In, andb_true_iff. done.
Qed.

(** The last entry of a sorted traversal bounds every other entry from above. *)
Lemma bt_last_max m p q : bt_sorted m -> last m = Some p -> In q m -> q = p \/ cmp q.1 p.1 = Lt.
Proof.
  unfold bt_sorted. revert p. induction m as [|x m IH]; intros p Hs Hl Hin; [done|].
  inversion_clear Hs as [|? ? Hs' Hall]. destruct m as [|y m].
  - simpl in *. naive_solver.
  - assert (last (y :: m) = Some p) as Hl' by done. destruct Hin as [<-|Hin].
    + right. rewrite List.Forall_forall in Hall. apply Hall.
      apply list_elem_of_In, last_Some_elem_of. done.
    + by apply IH.
Qed.

Lemma bt_last_In m p : last m = Some p -> In p m.
Proof. intros. by apply list_elem_of_In, last_Some_elem_of. Qed.

Lemma bt_sorted_key_inj m p q : bt_sorted m -> In p m -> In q m -> p.1 = q.1 -> p = q.
Proof.
  intros Hs Hp Hq Hk. destruct p as [k v], q as [k' v']; simpl in Hk; subst k'.
  apply (bt_In_get _ _ _ Hs) in Hp, Hq. congruence.
Qed.
End BTreeMap.

Arguments bt_sorted {K _ V} m.
Arguments bt_range {K _ V} lo hi m.
