(* ===== verification/EngineError.v ===== *)
(** * The shared error taxonomy ([src/src/error.rs])

    [EngineError] has the source's variants.  An [io::Error] is its [kind] and optional raw OS code, which is
    all the engine inspects.  [detail]/[operation] messages keep the fixed text of the source's format string;
    the numbers it interpolates are dropped, since no code path branches on them. *)

From stdpp Require Import base strings.
From Stdlib Require Import ZArith Lia.
From S2P Require Import Prelude.

Inductive ErrorKind : Type :=
| KStorageFull
| KNotFound
| KUnexpectedEof
| KInvalidData
| KOther.

Record io_error : Type := IoError { kind : ErrorKind; raw_os_error : option Z }.

Inductive EngineError : Type :=
| NotFound
| Corruption (detail : string)
| Io (e : io_error)
| WalUnavailable (detail : string)
| Unsupported (operation : string)
| CapacityExceeded (requested max : Z)
| Aborted (detail : string)
| InvalidPath (detail : string)
| Timeout (detail : string)
| StorageExhausted (detail : string)
| InvalidArgument (detail : string).

#[global] Instance error_kind_eq_dec : EqDecision ErrorKind.
Proof. solve_decision. Defined.

Definition is_enospc (e : io_error) : bool :=
  bool_decide (kind e = KStorageFull) ||
  match raw_os_error e with
  | Some c => (c =? 112) || (c =? 28)
  | None => false
  end.

Definition is_storage_exhausted (e : EngineError) : bool :=
  match e with
  | Io e => is_enospc e
  | _ => false
  end.

Definition unexpected_eof : io_error := IoError KUnexpectedEof None.
