(* ===== verification/Checksum.v ===== *)
(** * Hashes from third-party crates

    The engine calls [crc32c::crc32c] (crate [crc32c]) and [xxhash_rust::xxh64::xxh64].  Both are parameters of the
    development: a class holds the function and the only fact the code relies on, the width of its result.  The
    instances at the end are concrete functions for evaluating the formats on concrete inputs, in examples and
    witnesses: the general theorems quantify over the class and hold for the real hashes too.  [xxh_ref] is not XXH64. *)

From stdpp Require Import base list.
From Stdlib Require Import ZArith Lia.
From Stdlib Require Import Strings.Byte.
From S2P Require Import Prelude.

Class Crc32c := {
  crc32c : bytes -> Z;
  crc32c_u32 : forall b, is_u32 (crc32c b)
}.

Class Xxh64 := {
  xxh64 : bytes -> Z -> Z;
  xxh64_u64 : forall b seed, is_u64 (xxh64 b seed)
}.

(** ** Concrete instances *)

(** The bit-by-bit reflected CRC-32C (polynomial [0x1EDC6F41], reflected [0x82F63B78]). *)
Definition crc_bit (c : Z) : Z :=
  if Z.odd c then Z.lxor (Z.shiftr c 1) 0x82F63B78 else Z.shiftr c 1.

Definition crc_byte (c : Z) (b : byte) : Z := Nat.iter 8 crc_bit (Z.lxor c (b2z b)).

Definition crc32c_bitwise (b : bytes) : Z :=
  Z.land (Z.lxor (fold_left crc_byte b u32_max) u32_max) (Z.ones 32).

#[export, refine] Instance crc_ref : Crc32c := { crc32c := crc32c_bitwise }.
Proof.
  intros b. unfold crc32c_bitwise. rewrite Z.land_ones by lia.
  pose proof (Z.mod_pos_bound (Z.lxor (fold_left crc_byte b u32_max) u32_max) (2 ^ 32) eq_refl).
  unfold_ints. lia.
Defined.

(** The standard check value: CRC-32C of the ASCII digits ["123456789"]. *)
Example crc_check_value :
  crc32c_bitwise [x31; x32; x33; x34; x35; x36; x37; x38; x39] = 0xE3069283.
Proof. vm_compute. reflexivity. Qed.

(** A seeded multiplicative hash, standing for xxh64. *)
Definition hash_bytes (b : bytes) (seed : Z) : Z :=
  Z.land (fold_left (fun h x => Z.land ((Z.lxor h (b2z x)) * 1099511628211) (Z.ones 64)) b
            (14695981039346656037 + seed * 7919)) (Z.ones 64).

#[export, refine] Instance xxh_ref : Xxh64 := { xxh64 := hash_bytes }.
Proof.
  intros b seed. unfold hash_bytes. rewrite Z.land_ones by lia.
  match goal with |- is_u64 (?x mod _) => pose proof (Z.mod_pos_bound x (2 ^ 64) eq_refl) end.
  unfold_ints. lia.
Defined.
