(* ===== verification/WalFormat.v ===== *)
(** * WAL byte format ([src/src/wal/format.rs], [src/src/wal/ops.rs])

    Segment header, length-prefixed fields, the [length || crc32c || body] frame, and the WAL operations it
    carries.  CRC-32C is the parameter [crc32c] of class [Crc32c] ([Checksum]). *)

From stdpp Require Import base list strings.
From Stdlib Require Import ZArith Lia.
From Stdlib Require Import Strings.Byte.
From S2P Require Import Prelude Checksum EngineError.

Abbreviation res := (result EngineError).

(** ** Constants *)

(** ["RBXWALv1"]. *)
Definition SEGMENT_MAGIC : bytes := [x52; x42; x58; x57; x41; x4c; x76; x31].
Definition SEGMENT_HEADER_LEN : Z := 24.
Definition FORMAT_VERSION : Z := 1.
Definition FRAME_HEADER_LEN : Z := 8.

Definition OP_PUT : byte := x01.
Definition OP_DELETE : byte := x02.
Definition OP_CHECKPOINT_MARKER : byte := x03.
Definition OP_ENGINE_SWITCH : byte := x04.
Definition OP_GROUP : byte := x05.

Definition DEFAULT_MAX_RECORD_LEN : Z := 64 * 1024 * 1024.
Definition DEFAULT_MAX_SEGMENT_SIZE : Z := 64 * 1024 * 1024.

(** ** Fixed-width reads *)

Definition read_u32_le (b : bytes) : res Z :=
  let? bs := ok_or (Corruption "expected at least 4 bytes to decode a u32") (get_range b 0 4) in
  Ok (le_val bs).

Definition read_u64_le (b : bytes) : res Z :=
  let? bs := ok_or (Corruption "expected at least 8 bytes to decode a u64") (get_range b 0 8) in
  Ok (le_val bs).

(** ** Segment header *)

Record SegmentHeader : Type := {
  sh_format_version : Z;
  sh_segment_id : Z;
  sh_flags : Z
}.

Definition encode_segment_header (segment_id : Z) : bytes :=
  SEGMENT_MAGIC ++ le32 FORMAT_VERSION ++ le64 segment_id ++ le32 0.

Definition decode_segment_header (buf : bytes) (expected_segment_id : Z) : res SegmentHeader :=
  if zlen buf <? SEGMENT_HEADER_LEN then Err (Corruption "segment header truncated")
  else if negb (bool_decide (ztake 8 buf = SEGMENT_MAGIC)) then
    Err (Corruption "segment header magic mismatch")
  else
    let? format_version := read_u32_le (ztake 4 (zdrop 8 buf)) in
    let? segment_id := read_u64_le (ztake 8 (zdrop 12 buf)) in
    let? flags := read_u32_le (ztake 4 (zdrop 20 buf)) in
    if negb (format_version =? FORMAT_VERSION) then Err (Corruption "unsupported format_version")
    else if negb (flags =? 0) then Err (Corruption "non-zero reserved flags")
    else if negb (segment_id =? expected_segment_id) then
      Err (Corruption "segment header id does not match filename-derived id")
    else Ok {| sh_format_version := format_version; sh_segment_id := segment_id; sh_flags := flags |}.

(** ** Length-prefixed fields *)

Definition checked_u32_len (n max_record_len : Z) : res Z :=
  if n <=? u32_max then Ok n else Err (CapacityExceeded n max_record_len).

Definition write_len_prefixed (out b : bytes) (max_record_len : Z) : res bytes :=
  let? len := checked_u32_len (zlen b) max_record_len in
  Ok (out ++ le32 len ++ b).

Definition read_len_prefixed (buf : bytes) : res (bytes * bytes) :=
  if zlen buf <? 4 then Err (Corruption "truncated length-prefixed field: fewer than 4 bytes remain")
  else
    let? len := read_u32_le (ztake 4 buf) in
    let rest := zdrop 4 buf in
    if zlen rest <? len then Err (Corruption "length-prefixed field declares more bytes than remain")
    else Ok (ztake len rest, zdrop len rest).

(** ** Frames *)

Section Frame.
Context `{Crc32c}.

(** [frame_of body] is the frame [encode_frame] emits around a body that passed its checks. *)
Definition frame_of (body : bytes) : bytes :=
  le32 (zlen body) ++ le32 (crc32c body) ++ body.

Definition encode_frame (seq max_record_len : Z)
    (encode_op_body : bytes -> res (bytes * byte)) : res bytes :=
  let? '(op_body, op_tag) := encode_op_body [] in
  let? body_len :=
    ok_or (CapacityExceeded u64_max max_record_len)
      (n ← checked_add64 8 1; checked_add64 n (zlen op_body)) in
  let effective_max := Z.min max_record_len u32_max in
  if effective_max <? body_len then Err (CapacityExceeded body_len effective_max)
  else
    let body := le64 seq ++ [op_tag] ++ op_body in
    let crc := crc32c body in
    Ok (le32 body_len ++ le32 crc ++ body).
End Frame.

(** ** Operations *)

Inductive GroupMember : Type :=
| GPut (key value : bytes)
| GDelete (key : bytes).

Inductive GroupMemberOwned : Type :=
| GOPut (key value : bytes)
| GODelete (key : bytes).

Inductive WalOp : Type :=
| Put (key value : bytes)
| Delete (key : bytes)
| CheckpointMarker (flushed_through_seq : Z)
| Group (members : list GroupMember).

Inductive WalOpOwned : Type :=
| OPut (key value : bytes)
| ODelete (key : bytes)
| OCheckpointMarker (flushed_through_seq : Z)
| OGroup (members : list GroupMemberOwned).

Definition as_group_member (m : GroupMemberOwned) : GroupMember :=
  match m with
  | GOPut key value => GPut key value
  | GODelete key => GDelete key
  end.

Definition to_owned_op (op : WalOp) : WalOpOwned :=
  match op with
  | Put key value => OPut key value
  | Delete key => ODelete key
  | CheckpointMarker s => OCheckpointMarker s
  | Group members =>
      OGroup (map (fun m => match m with
                            | GPut key value => GOPut key value
                            | GDelete key => GODelete key
                            end) members)
  end.

Definition as_wal_op (op : WalOpOwned) : WalOp :=
  match op with
  | OPut key value => Put key value
  | ODelete key => Delete key
  | OCheckpointMarker s => CheckpointMarker s
  | OGroup members => Group (map as_group_member members)
  end.

(** The loop over a group's members in [encode_wal_frame]. *)
Fixpoint encode_members (out : bytes) (members : list GroupMember) (max_record_len : Z) : res bytes :=
  match members with
  | [] => Ok out
  | GPut key value :: ms =>
      let? out := write_len_prefixed (out ++ [OP_PUT]) key max_record_len in
      let? out := write_len_prefixed out value max_record_len in
      encode_members out ms max_record_len
  | GDelete key :: ms =>
      let? out := write_len_prefixed (out ++ [OP_DELETE]) key max_record_len in
      encode_members out ms max_record_len
  end.

(** The closure [encode_wal_frame] passes to [encode_frame]. *)
Definition encode_op_body (op : WalOp) (max_record_len : Z) (out : bytes) : res (bytes * byte) :=
  match op with
  | Put key value =>
      let? out := write_len_prefixed out key max_record_len in
      let? out := write_len_prefixed out value max_record_len in
      Ok (out, OP_PUT)
  | Delete key =>
      let? out := write_len_prefixed out key max_record_len in
      Ok (out, OP_DELETE)
  | CheckpointMarker flushed_through_seq => Ok (out ++ le64 flushed_through_seq, OP_CHECKPOINT_MARKER)
  | Group members =>
      let? member_count :=
        (if zlen members <=? u32_max then Ok (zlen members)
         else Err (CapacityExceeded (zlen members) u32_max)) in
      let? out := encode_members (out ++ le32 member_count) members max_record_len in
      Ok (out, OP_GROUP)
  end.

Definition encode_wal_frame `{Crc32c} (seq : Z) (op : WalOp) (max_record_len : Z) : res bytes :=
  encode_frame seq max_record_len (encode_op_body op max_record_len).

(** The member loop of [decode_wal_body]: [count] iterations remain.  Every iteration consumes at least the tag
    byte, so [length rest] iterations of [fuel] cover every [count]; a loop that runs out of bytes fails in the
    code's own check before it runs out of fuel. *)
Fixpoint decode_members (fuel : nat) (count : Z) (rest : bytes) : res (list GroupMemberOwned * bytes) :=
  if count <=? 0 then Ok ([], rest)
  else
    match rest, fuel with
    | [], _ => Err (Corruption "GROUP frame declares more members than its bytes hold")
    | _ :: _, O => Err (Aborted "fuel")
    | member_tag :: rest, S fuel =>
        let? '(member, rest) :=
          if eqb member_tag OP_PUT then
            let? '(key, r1) := read_len_prefixed rest in
            let? '(value, r2) := read_len_prefixed r1 in
            Ok (GOPut key value, r2)
          else if eqb member_tag OP_DELETE then
            let? '(key, r1) := read_len_prefixed rest in
            Ok (GODelete key, r1)
          else Err (Corruption "GROUP member has unsupported tag byte") in
        let? '(members, rest) := decode_members fuel (count - 1) rest in
        Ok (member :: members, rest)
    end.

Definition decode_wal_body (body : bytes) : res (Z * WalOpOwned) :=
  if zlen body <? 9 then Err (Corruption "frame body too short for seq+op")
  else
    let? seq := read_u64_le (ztake 8 body) in
    match zdrop 8 body with
    | [] => Err (Corruption "frame body too short for seq+op")
    | op_tag :: op_body =>
        let? op :=
          if eqb op_tag OP_PUT then
            let? '(key, rest) := read_len_prefixed op_body in
            let? '(value, rest) := read_len_prefixed rest in
            match rest with
            | [] => Ok (OPut key value)
            | _ :: _ => Err (Corruption "trailing byte(s) after PUT op_body")
            end
          else if eqb op_tag OP_DELETE then
            let? '(key, rest) := read_len_prefixed op_body in
            match rest with
            | [] => Ok (ODelete key)
            | _ :: _ => Err (Corruption "trailing byte(s) after DELETE op_body")
            end
          else if eqb op_tag OP_CHECKPOINT_MARKER then
            if negb (zlen op_body =? 8) then Err (Corruption "CHECKPOINT_MARKER op_body must be 8 bytes")
            else
              let? s := read_u64_le op_body in
              Ok (OCheckpointMarker s)
          else if eqb op_tag OP_GROUP then
            let? member_count := read_u32_le op_body in
            let rest := zdrop 4 op_body in
            let? '(members, rest) := decode_members (length rest) member_count rest in
            match rest with
            | [] => Ok (OGroup members)
            | _ :: _ => Err (Corruption "trailing byte(s) after GROUP op_body")
            end
          else if eqb op_tag OP_ENGINE_SWITCH then
            Err (Corruption "ENGINE_SWITCH op encountered before Phase 5 support exists")
          else Err (Corruption "unknown WAL op byte") in
        Ok (seq, op)
    end.

(** ** Reading back what was written *)

Lemma get_range_prefix (l post : bytes) n :
  zlen l = n -> get_range (l ++ post) 0 n = Some l.
Proof. intros <-. apply (get_range_app [] l post); simpl; lia. Qed.

Lemma read_u32_le_app z post : is_u32 z -> read_u32_le (le32 z ++ post) = Ok z.
Proof.
  intros. unfold read_u32_le. rewrite get_range_prefix by zlen. cbn [ok_or]. by rewrite le_val_32.
Qed.

Lemma read_u64_le_app z post : is_u64 z -> read_u64_le (le64 z ++ post) = Ok z.
Proof.
  intros. unfold read_u64_le. rewrite get_range_prefix by zlen. cbn [ok_or]. by rewrite le_val_64.
Qed.

Lemma read_u32_le_exact z : is_u32 z -> read_u32_le (le32 z) = Ok z.
Proof. intros. rewrite <- (app_nil_r (le32 z)). by apply read_u32_le_app. Qed.

Lemma read_u64_le_exact z : is_u64 z -> read_u64_le (le64 z) = Ok z.
Proof. intros. rewrite <- (app_nil_r (le64 z)). by apply read_u64_le_app. Qed.

Lemma read_u32_le_inv b z :
  read_u32_le b = Ok z -> is_u32 z /\ b = le32 z ++ zdrop 4 b.
Proof.
  unfold read_u32_le. destruct (get_range b 0 4) as [r|] eqn:E; [|done]. simpl. intros [= <-].
  apply get_range_Some in E as (_ & Hl & Hr & Hb); [|lia]. split; [by apply le_val_u32|].
  rewrite Hb at 1. change (ztake 0 b) with (@nil byte). simpl. f_equal.
  rewrite <- (le_bytes_val r) at 1. f_equal. lia.
Qed.

Lemma read_u64_le_inv b z :
  read_u64_le b = Ok z -> is_u64 z /\ b = le64 z ++ zdrop 8 b.
Proof.
  unfold read_u64_le. destruct (get_range b 0 8) as [r|] eqn:E; [|done]. simpl. intros [= <-].
  apply get_range_Some in E as (_ & Hl & Hr & Hb); [|lia]. split; [by apply le_val_u64|].
  rewrite Hb at 1. change (ztake 0 b) with (@nil byte). simpl. f_equal.
  rewrite <- (le_bytes_val r) at 1. f_equal. lia.
Qed.

(** [len || bytes], as [write_len_prefixed] lays a field out. *)
Definition len_prefixed (b : bytes) : bytes := le32 (zlen b) ++ b.

Lemma zlen_len_prefixed b : zlen (len_prefixed b) = 4 + zlen b.
Proof. unfold len_prefixed. zlen. Qed.

Lemma write_len_prefixed_eq out b m :
  write_len_prefixed out b m =
    if zlen b <=? u32_max then Ok (out ++ len_prefixed b) else Err (CapacityExceeded (zlen b) m).
Proof. unfold write_len_prefixed, checked_u32_len, len_prefixed. by case_cmp. Qed.

Lemma read_len_prefixed_app b rest :
  zlen b <= u32_max -> read_len_prefixed (len_prefixed b ++ rest) = Ok (b, rest).
Proof.
  intros Hb. unfold read_len_prefixed, len_prefixed. rewrite <- app_assoc.
  rewrite !zlen_app, length_le_bytes. cmp_lia.
  rewrite (ztake_app' 4), (zdrop_app' 4) by zlen. rewrite read_u32_le_exact by (unfold_ints; lia).
  rewrite zlen_app. cmp_lia. by rewrite ztake_app, zdrop_app.
Qed.

Lemma read_len_prefixed_inv buf b rest :
  read_len_prefixed buf = Ok (b, rest) -> zlen b <= u32_max /\ buf = len_prefixed b ++ rest.
Proof.
  unfold read_len_prefixed. destruct (zlen buf <? 4) eqn:E; [done|]. bool_to_prop.
  destruct (read_u32_le (ztake 4 buf)) as [len|] eqn:E2; [|done].
  destruct (zlen (zdrop 4 buf) <? len) eqn:E3; [done|]. bool_to_prop. intros [= <- <-].
  apply read_u32_le_inv in E2 as [Hu Ht].
  assert (zlen (ztake len (zdrop 4 buf)) = len) as Hl by (apply zlen_ztake; unfold_ints; lia).
  split; [unfold_ints; lia|]. unfold len_prefixed. rewrite Hl, <- app_assoc, ztake_zdrop.
  rewrite <- (ztake_zdrop 4 buf) at 1. f_equal. rewrite Ht.
  assert (zdrop 4 (ztake 4 buf) = []) as ->; [|apply app_nil_r].
  unfold zdrop, ztake. apply drop_ge. rewrite length_take. lia.
Qed.

(** ** Segment header round trip *)

Lemma decode_encode_segment_header segment_id expected :
  is_u64 segment_id ->
  decode_segment_header (encode_segment_header segment_id) expected =
    if segment_id =? expected
    then Ok {| sh_format_version := FORMAT_VERSION; sh_segment_id := segment_id; sh_flags := 0 |}
    else Err (Corruption "segment header id does not match filename-derived id").
Proof.
  intros Hid. unfold decode_segment_header, encode_segment_header.
  assert (zlen SEGMENT_MAGIC = 8) as HM by done.
  rewrite !zlen_app, !length_le_bytes, HM. unfold SEGMENT_HEADER_LEN. cmp_lia.
  rewrite (ztake_app' 8) by done. rewrite bool_decide_eq_true_2 by done. cbn [negb].
  replace 12 with (8 + 4) by lia. replace 20 with (8 + (4 + 8)) by lia.
  rewrite <- (zdrop_zdrop 8 4), <- (zdrop_zdrop 8 (4 + 8)), <- (zdrop_zdrop 4 8), !(zdrop_app' 8 SEGMENT_MAGIC) by (done || lia).
  rewrite !(zdrop_app' 4), (zdrop_app' 8), (ztake_app' 4), (ztake_app' 8) by zlen.
  rewrite read_u32_le_exact by (unfold_ints; unfold FORMAT_VERSION; lia).
  rewrite read_u64_le_exact by done.
  rewrite (ztake_all' 4 (le32 0)) by zlen.
  rewrite read_u32_le_exact by (unfold_ints; lia). rewrite !Z.eqb_refl. cbn [negb].
  by destruct (segment_id =? expected).
Qed.

(** An encoded segment header decodes back to its own id, and to no other: the decoder accepts the 24
    bytes exactly when the expected id is the one written. *)
Theorem segment_header_roundtrip segment_id expected :
  is_u64 segment_id ->
  decode_segment_header (encode_segment_header segment_id) expected =
    if segment_id =? expected
    then Ok {| sh_format_version := FORMAT_VERSION; sh_segment_id := segment_id; sh_flags := 0 |}
    else Err (Corruption "segment header id does not match filename-derived id").
Proof. apply decode_encode_segment_header. Qed.

Lemma decode_segment_header_inv buf id h :
  zlen buf = SEGMENT_HEADER_LEN -> decode_segment_header buf id = Ok h ->
  buf = encode_segment_header id /\ is_u64 id.
Proof.
  unfold SEGMENT_HEADER_LEN. intros Hl. unfold decode_segment_header. rewrite Hl. simpl.
  case_bool_decide as Hm; [|done]. cbn [negb].
  destruct (read_u32_le (ztake 4 (zdrop 8 buf))) as [fv|] eqn:E1; [|done].
  destruct (read_u64_le (ztake 8 (zdrop 12 buf))) as [sid|] eqn:E2; [|done].
  destruct (read_u32_le (ztake 4 (zdrop 20 buf))) as [fl|] eqn:E3; [|done].
  destruct (Z.eqb_spec fv FORMAT_VERSION) as [->|]; [cbn [negb]|done].
  destruct (Z.eqb_spec fl 0) as [->|]; [cbn [negb]|done].
  destruct (Z.eqb_spec sid id) as [->|]; [intros _|done].
  apply read_u32_le_inv in E1 as [_ H1], E3 as [_ H3]. apply read_u64_le_inv in E2 as [Hid H2].
  assert (forall n (l : bytes), zdrop n (ztake n l) = []) as Hz.
  { intros. unfold zdrop, ztake. apply drop_ge. rewrite length_take. lia. }
  rewrite Hz, app_nil_r in H1, H2, H3. split; [|done]. unfold encode_segment_header.
  rewrite <- (ztake_zdrop 8 buf), Hm at 1. f_equal.
  rewrite <- (ztake_zdrop 4 (zdrop 8 buf)), H1, zdrop_zdrop at 1 by lia. f_equal. change (8 + 4) with 12.
  rewrite <- (ztake_zdrop 8 (zdrop 12 buf)), H2, zdrop_zdrop at 1 by lia. f_equal. change (12 + 8) with 20.
  rewrite <- (ztake_zdrop 4 (zdrop 20 buf)), H3, zdrop_zdrop at 1 by lia.
  by rewrite (zdrop_all' (20 + 4)), app_nil_r by lia.
Qed.

(** ** The byte layout of operations *)

Definition member_bytes (m : GroupMember) : bytes :=
  match m with
  | GPut key value => OP_PUT :: len_prefixed key ++ len_prefixed value
  | GDelete key => OP_DELETE :: len_prefixed key
  end.

Definition op_tag (op : WalOp) : byte :=
  match op with
  | Put _ _ => OP_PUT
  | Delete _ => OP_DELETE
  | CheckpointMarker _ => OP_CHECKPOINT_MARKER
  | Group _ => OP_GROUP
  end.

Definition op_payload (op : WalOp) : bytes :=
  match op with
  | Put key value => len_prefixed key ++ len_prefixed value
  | Delete key => len_prefixed key
  | CheckpointMarker s => le64 s
  | Group members => le32 (zlen members) ++ concat (map member_bytes members)
  end.

(** The body of the frame of operation [op] at sequence number [seq]. *)
Definition wal_body (seq : Z) (op : WalOp) : bytes := le64 seq ++ [op_tag op] ++ op_payload op.

Definition member_fits (m : GroupMember) : Prop :=
  match m with
  | GPut key value => zlen key <= u32_max /\ zlen value <= u32_max
  | GDelete key => zlen key <= u32_max
  end.

Definition op_fits (op : WalOp) : Prop :=
  match op with
  | Put key value => zlen key <= u32_max /\ zlen value <= u32_max
  | Delete key => zlen key <= u32_max
  | CheckpointMarker s => True
  | Group members => zlen members <= u32_max /\ Forall member_fits members
  end.

(** Sequence numbers carried by an operation are 64-bit. *)
Definition op_u64 (op : WalOp) : Prop :=
  match op with CheckpointMarker s => is_u64 s | _ => True end.

Ltac wlp := repeat (rewrite write_len_prefixed_eq; cmp_lia; cbv beta iota).
Ltac wlp_case :=
  rewrite write_len_prefixed_eq;
  match goal with |- context [?a <=? ?b] => destruct (Z.leb_spec a b) end; cbv beta iota.

Lemma encode_members_ok out ms m :
  Forall member_fits ms -> encode_members out ms m = Ok (out ++ concat (map member_bytes ms)).
Proof.
  revert out. induction ms as [|g ms IH]; intros out Hf; simpl; [by rewrite app_nil_r|].
  inversion_clear Hf as [|? ? Hg Hms]. destruct g as [k v|k]; simpl in Hg.
  - destruct Hg. wlp. rewrite IH by done. f_equal. simpl. by rewrite <- !app_assoc.
  - wlp. rewrite IH by done. f_equal. simpl. by rewrite <- !app_assoc.
Qed.

Lemma encode_members_err out ms m e :
  encode_members out ms m = Err e -> ~ Forall member_fits ms /\ exists r k, e = CapacityExceeded r k.
Proof.
  revert out. induction ms as [|g ms IH]; intros out; simpl; [done|]. rewrite Forall_cons.
  destruct g as [k v|k]; simpl.
  - do 2 (wlp_case; [|intros [= <-]; split; [intros [[] _]; lia|by eauto]]).
    intros Hi%IH. naive_solver.
  - wlp_case; [|intros [= <-]; split; [intros []; lia|by eauto]].
    intros Hi%IH. naive_solver.
Qed.

Lemma encode_op_body_ok op m :
  op_fits op -> encode_op_body op m [] = Ok (op_payload op, op_tag op).
Proof.
  destruct op as [k v|k|s|ms]; simpl; intros Hf; try done.
  - destruct Hf. by wlp.
  - by wlp.
  - destruct Hf as [Hl Hms]. cmp_lia. cbv beta iota. by rewrite encode_members_ok.
Qed.

Lemma encode_op_body_err op m e :
  encode_op_body op m [] = Err e -> ~ op_fits op /\ exists r k, e = CapacityExceeded r k.
Proof.
  destruct op as [k v|k|s|ms]; simpl; try done.
  - do 2 (wlp_case; [|intros [= <-]; split; [intros []; lia|by eauto]]). done.
  - wlp_case; [done|]. intros [= <-]; split; [lia|by eauto].
  - case_cmp; cbv beta iota; [|intros [= <-]; split; [intros []; lia|by eauto]].
    destruct (encode_members _ ms m) eqn:E2; [done|]. intros [= <-].
    apply encode_members_err in E2 as [? ?]. split; [naive_solver|done].
Qed.

Lemma encode_members_fits out ms m r : encode_members out ms m = Ok r -> Forall member_fits ms.
Proof.
  revert out. induction ms as [|g ms IH]; intros out; simpl; [by constructor|].
  destruct g as [k v|k].
  - do 2 (wlp_case; [|done]). intros Hi%IH. by constructor.
  - wlp_case; [|done]. intros Hi%IH. by constructor.
Qed.

Lemma encode_op_body_fits op m r : encode_op_body op m [] = Ok r -> op_fits op.
Proof.
  destruct op as [k v|k|s|ms]; simpl; try done.
  - by do 2 (wlp_case; [|done]).
  - by wlp_case.
  - case_cmp; cbv beta iota; [|done].
    destruct (encode_members _ ms m) eqn:E2; [|done]. eauto using encode_members_fits.
Qed.

Lemma zlen_members ms : zlen ms <= zlen (concat (map member_bytes ms)).
Proof.
  induction ms as [|g ms IH]; simpl; [lia|]. rewrite zlen_app.
  destruct g; simpl; lia.
Qed.

Lemma op_fits_of_len op : zlen (op_payload op) <= u32_max -> op_fits op.
Proof.
  destruct op as [k v|k|s|ms]; simpl; rewrite ?zlen_app, ?zlen_len_prefixed; try lia.
  rewrite length_le_bytes. intros Hl. pose proof (zlen_members ms). split; [lia|].
  assert (zlen (concat (map member_bytes ms)) <= u32_max) as Hc by lia. clear Hl H.
  induction ms as [|g ms IH]; constructor; simpl in Hc; rewrite zlen_app in Hc.
  - destruct g; simpl in *; rewrite ?length_app, ?Nat2Z.inj_succ in Hc;
      pose proof (zlen_len_prefixed key); try pose proof (zlen_len_prefixed value); lia.
  - apply IH. lia.
Qed.

Section FrameSpec.
Context `{Crc32c}.

Lemma encode_wal_frame_cases seq op max_record_len :
  max_record_len <= u64_max ->
  if zlen (wal_body seq op) <=? Z.min max_record_len u32_max
  then encode_wal_frame seq op max_record_len = Ok (frame_of (wal_body seq op))
  else exists requested max, encode_wal_frame seq op max_record_len = Err (CapacityExceeded requested max).
Proof.
  intros Hmax. unfold encode_wal_frame, encode_frame.
  assert (zlen (wal_body seq op) = 9 + zlen (op_payload op)) as Hl.
  { unfold wal_body. zlen. }
  destruct (encode_op_body op max_record_len []) as [[p t]|e] eqn:E.
  - pose proof (encode_op_body_fits _ _ _ E) as Hf.
    rewrite encode_op_body_ok in E by done. injection E as <- <-.
    replace (checked_add64 8 1) with (Some 9) by done. cbn [mbind option_bind].
    unfold checked_add64. destruct (Z.leb_spec (zlen (wal_body seq op)) (Z.min max_record_len u32_max)).
    + assert (u32_max <= u64_max) by done. cmp_lia. cbn [ok_or]. cmp_lia.
      unfold frame_of. by rewrite Hl.
    + case_cmp; cbn [ok_or]; [|by eauto]. case_cmp; [by eauto|lia].
  - apply encode_op_body_err in E as (Hn & r & k & ->).
    destruct (Z.leb_spec (zlen (wal_body seq op)) (Z.min max_record_len u32_max)); [|by eauto].
    exfalso. apply Hn, op_fits_of_len. lia.
Qed.

(** C23: [encode_wal_frame] produces the frame of the operation's body exactly when the body is no longer than
    [max_record_len] and [u32::MAX]; otherwise it fails with [CapacityExceeded] and produces no bytes. *)
Theorem encode_wal_frame_spec seq op max_record_len :
  max_record_len <= u64_max ->
  if zlen (wal_body seq op) <=? Z.min max_record_len u32_max
  then encode_wal_frame seq op max_record_len = Ok (frame_of (wal_body seq op))
  else exists requested max, encode_wal_frame seq op max_record_len = Err (CapacityExceeded requested max).
Proof. apply encode_wal_frame_cases. Qed.
End FrameSpec.

(** ** Decoding *)

Definition to_owned_member (m : GroupMember) : GroupMemberOwned :=
  match m with
  | GPut key value => GOPut key value
  | GDelete key => GODelete key
  end.

Lemma decode_members_app fuel ms rest :
  Forall member_fits ms -> (length (concat (map member_bytes ms)) <= fuel)%nat ->
  decode_members fuel (zlen ms) (concat (map member_bytes ms) ++ rest) =
    Ok (map to_owned_member ms, rest).
Proof.
  revert fuel. induction ms as [|g ms IH]; intros fuel Hf Hl.
  { destruct fuel; done. }
  inversion_clear Hf as [|? ? Hg Hms]. cbn [map concat] in *. rewrite length_app in Hl.
  assert (exists fuel', fuel = S fuel' /\ (length (concat (map member_bytes ms)) <= fuel')%nat)
    as (fuel' & -> & Hl').
  { destruct g; simpl in Hl; (destruct fuel; [lia|]); exists fuel; (split; [done|lia]). }
  specialize (IH fuel' Hms Hl').
  replace (zlen (g :: ms)) with (zlen ms + 1) by (simpl length; lia).
  destruct g as [k v|k]; simpl in Hg; [destruct Hg|]; simpl app; cbn [decode_members].
  - cmp_lia. unfold eqb at 1; cbn [cmp]. rewrite cmp_refl.
    rewrite <- !app_assoc. do 2 (rewrite read_len_prefixed_app by done; cbv beta iota).
    replace (zlen ms + 1 - 1) with (zlen ms) by lia. by rewrite IH.
  - cmp_lia. replace (eqb OP_DELETE OP_PUT) with false by done.
    replace (eqb OP_DELETE OP_DELETE) with true by done. rewrite <- !app_assoc.
    rewrite read_len_prefixed_app by done. cbv beta iota.
    replace (zlen ms + 1 - 1) with (zlen ms) by lia. by rewrite IH.
Qed.

Lemma decode_members_inv fuel count buf ms rest :
  0 <= count -> decode_members fuel count buf = Ok (ms, rest) ->
  zlen ms = count /\ Forall member_fits (map as_group_member ms) /\
  buf = concat (map member_bytes (map as_group_member ms)) ++ rest.
Proof.
  revert count buf ms rest. induction fuel as [|fuel IH]; intros count buf ms rest Hc.
  - simpl. case_cmp; [|by destruct buf]. intros [= <- <-]. simpl. split_and!; [lia|done|done].
  - simpl. case_cmp; [intros [= <- <-]; split_and!; simpl; [lia|done|done]|].
    destruct buf as [|t buf]; [done|].
    destruct (eqb t OP_PUT) eqn:Et.
    + apply eqb_eq in Et as ->.
      destruct (read_len_prefixed buf) as [[k r1]|] eqn:E1; [|done].
      destruct (read_len_prefixed r1) as [[v r2]|] eqn:E2; [|done].
      destruct (decode_members fuel (count - 1) r2) as [[ms' rest']|] eqn:E3; [|done].
      intros [= <- <-]. apply IH in E3 as (Hl & Hf & ->); [|lia].
      apply read_len_prefixed_inv in E1 as [? ->], E2 as [? ->].
      simpl. split_and!; [lia|by constructor|by rewrite <- !app_assoc].
    + destruct (eqb t OP_DELETE) eqn:Et2; [|done]. apply eqb_eq in Et2 as ->.
      destruct (read_len_prefixed buf) as [[k r1]|] eqn:E1; [|done].
      destruct (decode_members fuel (count - 1) r1) as [[ms' rest']|] eqn:E3; [|done].
      intros [= <- <-]. apply IH in E3 as (Hl & Hf & ->); [|lia].
      apply read_len_prefixed_inv in E1 as [? ->].
      simpl. split_and!; [lia|by constructor|by rewrite <- !app_assoc].
Qed.

(** The member loop never stops for lack of fuel. *)
Lemma decode_members_fuel fuel count buf :
  (length buf <= fuel)%nat -> decode_members fuel count buf <> Err (Aborted "fuel").
Proof.
  assert (Hrlp : forall b k r, read_len_prefixed b = Ok (k, r) -> (length r <= length b)%nat).
  { intros b k r [_ ->]%read_len_prefixed_inv. rewrite length_app. lia. }
  assert (Hne : forall b, read_len_prefixed b <> Err (Aborted "fuel")).
  { intros b. unfold read_len_prefixed, read_u32_le. case_match; [done|].
    destruct (get_range _ _ _); simpl; [|done]. by case_match. }
  revert count buf. induction fuel as [|fuel IH]; intros count buf Hl.
  - destruct buf; [|simpl in Hl; lia]. simpl. by case_match.
  - simpl. case_match; [done|]. destruct buf as [|t buf]; [done|]. simpl in Hl.
    destruct (eqb t OP_PUT); [|destruct (eqb t OP_DELETE); [|done]].
    + destruct (read_len_prefixed buf) as [[k r1]|] eqn:E1; [|specialize (Hne buf); congruence].
      destruct (read_len_prefixed r1) as [[v r2]|] eqn:E2; [|specialize (Hne r1); congruence].
      apply Hrlp in E1, E2. specialize (IH (count - 1) r2).
      destruct (decode_members fuel (count - 1) r2) as [[? ?]|]; [done|].
      intros [= ->]. apply IH; [lia|done].
    + destruct (read_len_prefixed buf) as [[k r1]|] eqn:E1; [|specialize (Hne buf); congruence].
      apply Hrlp in E1. specialize (IH (count - 1) r1).
      destruct (decode_members fuel (count - 1) r1) as [[? ?]|]; [done|].
      intros [= ->]. apply IH; [lia|done].
Qed.

Lemma decode_wal_body_encoded seq op :
  is_u64 seq -> op_u64 op -> op_fits op ->
  decode_wal_body (wal_body seq op) = Ok (seq, to_owned_op op).
Proof.
  intros Hs Hu Hf. unfold decode_wal_body, wal_body.
  rewrite !zlen_app, length_le_bytes. simpl length. cmp_lia.
  rewrite (ztake_app' 8), (zdrop_app' 8) by zlen. rewrite read_u64_le_exact by done. simpl app.
  destruct op as [k v|k|s|ms]; cbn [op_tag op_payload].
  - replace (eqb OP_PUT OP_PUT) with true by done. destruct Hf.
    rewrite read_len_prefixed_app by done. cbv beta iota.
    rewrite <- (app_nil_r (len_prefixed v)). by rewrite read_len_prefixed_app.
  - replace (eqb OP_DELETE OP_PUT) with false by done. replace (eqb OP_DELETE OP_DELETE) with true by done.
    rewrite <- (app_nil_r (len_prefixed k)). by rewrite read_len_prefixed_app.
  - change (eqb OP_CHECKPOINT_MARKER OP_PUT) with false. change (eqb OP_CHECKPOINT_MARKER OP_DELETE) with false.
    change (eqb OP_CHECKPOINT_MARKER OP_CHECKPOINT_MARKER) with true. cbv iota.
    rewrite length_le_bytes. cmp_lia. cbn [negb]. by rewrite read_u64_le_exact.
  - change (eqb OP_GROUP OP_PUT) with false. change (eqb OP_GROUP OP_DELETE) with false.
    change (eqb OP_GROUP OP_CHECKPOINT_MARKER) with false. change (eqb OP_GROUP OP_GROUP) with true.
    destruct Hf as [Hc Hms]. cbv iota.
    rewrite read_u32_le_app by (unfold_ints; lia). cbv beta iota zeta.
    rewrite (zdrop_app' 4) by zlen.
    rewrite <- (app_nil_r (concat (map member_bytes ms))) at 2. by rewrite decode_members_app.
Qed.

Lemma decode_wal_body_inv body seq op :
  decode_wal_body body = Ok (seq, op) ->
  body = wal_body seq (as_wal_op op) /\ is_u64 seq /\ op_u64 (as_wal_op op) /\ op_fits (as_wal_op op).
Proof.
  unfold decode_wal_body, wal_body. case_match; [done|].
  destruct (read_u64_le (ztake 8 body)) as [s|] eqn:Es; [|done].
  apply read_u64_le_inv in Es as [Hs Ht].
  assert (zdrop 8 (ztake 8 body) = []) as Hz.
  { unfold zdrop, ztake. apply drop_ge. rewrite length_take. lia. }
  rewrite Hz, app_nil_r in Ht.
  rewrite <- (ztake_zdrop 8 body) at 2. rewrite Ht. destruct (zdrop 8 body) as [|t p]; [done|].
  destruct (eqb t OP_PUT) eqn:E1; [apply eqb_eq in E1 as ->|
    destruct (eqb t OP_DELETE) eqn:E2; [apply eqb_eq in E2 as ->|
      destruct (eqb t OP_CHECKPOINT_MARKER) eqn:E3; [apply eqb_eq in E3 as ->|
        destruct (eqb t OP_GROUP) eqn:E4; [apply eqb_eq in E4 as ->|by destruct (eqb t OP_ENGINE_SWITCH)]]]].
  - destruct (read_len_prefixed p) as [[k r]|] eqn:Ek; [|done].
    destruct (read_len_prefixed r) as [[v r']|] eqn:Ev; [|done]. destruct r'; [|done].
    intros [= <- <-]. apply read_len_prefixed_inv in Ek as [? ->], Ev as [? ->].
    simpl. by rewrite app_nil_r.
  - destruct (read_len_prefixed p) as [[k r]|] eqn:Ek; [|done]. destruct r; [|done].
    intros [= <- <-]. apply read_len_prefixed_inv in Ek as [? ->]. simpl. by rewrite app_nil_r.
  - destruct (zlen p =? 8) eqn:E8; [|done]. bool_to_prop. cbn [negb].
    destruct (read_u64_le p) as [x|] eqn:Ex; [|done]. intros [= <- <-].
    apply read_u64_le_inv in Ex as [Hx Hp]. simpl. split_and!; try done. rewrite Hp at 1.
    unfold zdrop. by rewrite drop_ge, app_nil_r by lia.
  - destruct (read_u32_le p) as [c|] eqn:Ec; [|done]. apply read_u32_le_inv in Ec as [Hc Hp].
    destruct (decode_members _ c (zdrop 4 p)) as [[ms r]|] eqn:Em; [|done]. destruct r; [|done].
    intros [= <- <-]. apply decode_members_inv in Em as (Hl & Hf & Hms); [|unfold_ints; lia].
    cbn [as_wal_op op_tag op_payload op_fits op_u64]. rewrite length_map, Hl. split_and!; try done.
    + rewrite Hp, Hms, app_nil_r. done.
    + unfold_ints; lia.
Qed.

(** C24: whatever [decode_wal_body] accepts is the canonical encoding of the operation it returns: re-encoding
    the decoded operation gives back exactly the bytes decoded, so two different bodies never decode to the
    same record. *)
Theorem decode_wal_body_canonical body seq op :
  decode_wal_body body = Ok (seq, op) ->
  body = wal_body seq (as_wal_op op) /\ is_u64 seq /\ op_u64 (as_wal_op op) /\ op_fits (as_wal_op op).
Proof. apply decode_wal_body_inv. Qed.

(** ** Witnesses *)

Definition demo_op : WalOp := Group [GPut [x6b; x31] [x76]; GDelete [x6b; x32]].

Lemma encode_wal_frame_spec_witness :
  zlen (wal_body 7 demo_op) = 32 /\ 64 <= u64_max /\
  (if zlen (wal_body 7 demo_op) <=? Z.min 64 u32_max
   then encode_wal_frame 7 demo_op 64 = Ok (frame_of (wal_body 7 demo_op))
   else exists requested max, encode_wal_frame 7 demo_op 64 = Err (CapacityExceeded requested max)).
Proof. split; [by_eval|]. split; [by_eval|]. apply (encode_wal_frame_spec 7 demo_op 64). by_eval. Defined.

Lemma decode_wal_body_canonical_witness :
  decode_wal_body (wal_body 7 demo_op) = Ok (7, to_owned_op demo_op) /\
  wal_body 7 demo_op = wal_body 7 (as_wal_op (to_owned_op demo_op)).
Proof.
  split; [by_eval|].
  apply (decode_wal_body_canonical (wal_body 7 demo_op) 7 (to_owned_op demo_op)). by_eval.
Defined.

Lemma segment_header_roundtrip_witness :
  is_u64 42 /\
  decode_segment_header (encode_segment_header 42) 43 =
    if 42 =? 43
    then Ok {| sh_format_version := FORMAT_VERSION; sh_segment_id := 42; sh_flags := 0 |}
    else Err (Corruption "segment header id does not match filename-derived id").
Proof. split; [by_eval|]. apply (segment_header_roundtrip 42 43). by_eval. Defined.
