(* ===== verification/WalRecovery.v ===== *)
(** * WAL segment recovery ([src/src/wal/recovery.rs])

    [walk_segment] reads the frames of one segment and classifies how the walk ends: clean, torn tail
    ([truncated]) or [corrupted].  The reader [R: Read + Seek] is the segment's bytes with a read position;
    [read_exact] past the end is the [io::Error] the trait documents.  The three loops of the source carry fuel;
    [None] is "out of fuel" and [walk_segment_total] shows it never happens on a real segment. *)

From stdpp Require Import base list strings.
From Stdlib Require Import ZArith Lia.
From Stdlib Require Import Strings.Byte.
From S2P Require Import Prelude Checksum EngineError WalFormat.

Definition io (A : Type) : Type := option (result io_error A).

Notation "'let!' x := c 'in' k" :=
  (match c with Some (Ok x) => k | Some (Err e) => Some (Err e) | None => None end)
  (at level 10, x name, c at level 100, k at level 200) : rust_scope.

(** [reader.seek(SeekFrom::Start(pos))] then [reader.read_exact(&mut buf[..n])]. *)
Definition read_exact (file : bytes) (pos n : Z) : io bytes :=
  if (n =? 0) || (pos + n <=? zlen file) then Some (Ok (ztake n (zdrop pos file)))
  else Some (Err unexpected_eof).

Record WalkOutcome : Type := {
  records : list (Z * WalOpOwned);
  valid_end_offset : Z;
  truncated : bool;
  corrupted : bool;
  corruption_offset : option Z;
  corruption_detail : option string
}.

(** The outcome when the loop [break]s at [offset] without a corruption. *)
Definition walk_end (recs : list (Z * WalOpOwned)) (offset : Z) (torn : bool) : WalkOutcome :=
  {| records := recs; valid_end_offset := offset; truncated := torn; corrupted := false;
     corruption_offset := None; corruption_detail := None |}.

Definition walk_corrupt (recs : list (Z * WalOpOwned)) (offset : Z) (detail : string) : WalkOutcome :=
  {| records := recs; valid_end_offset := offset; truncated := false; corrupted := true;
     corruption_offset := Some offset; corruption_detail := Some detail |}.

Definition classify_failure (recs : list (Z * WalOpOwned)) (offset : Z) (is_tail_frame : bool)
    (detail : string) : WalkOutcome :=
  if is_tail_frame then walk_end recs offset true else walk_corrupt recs offset detail.

Definition is_zero (b : byte) : bool := eqb b x00.
Definition LOST_SECTOR_GRANULE : Z := 512.
Definition LOST_SECTOR_CRC_BUDGET : Z := 64 * 1024 * 1024.

(** The [while left > 0 && zero] loop over 4096-byte chunks. *)
Fixpoint zero_chunks (fuel : nat) (file : bytes) (pos left : Z) : io bool :=
  if left <=? 0 then Some (Ok true)
  else
    match fuel with
    | O => None
    | S fuel =>
        let want := Z.min left 4096 in
        let! chunk := read_exact file pos want in
        if forallb is_zero chunk then zero_chunks fuel file (pos + want) (left - want)
        else Some (Ok false)
    end.

Section Recovery.
Context `{Crc32c}.

(** The [while p + FRAME_HEADER_LEN < tail.len()] scan; [t] is [&tail[p..]]. *)
Fixpoint scan_behind_hole (max_record_len budget : Z) (t : bytes) : bool :=
  match t with
  | [] => true
  | _ :: t' =>
      if FRAME_HEADER_LEN <? zlen t then
        let length := le_val (ztake 4 t) in
        if (0 <? length) && (length <=? max_record_len) && (FRAME_HEADER_LEN + length <=? zlen t) then
          let stored := le_val (ztake 4 (zdrop 4 t)) in
          let body := ztake length (zdrop FRAME_HEADER_LEN t) in
          if budget <? length then false
          else if (crc32c body =? stored) && is_ok (decode_wal_body body) then false
          else scan_behind_hole max_record_len (budget - length) t'
        else scan_behind_hole max_record_len budget t'
      else true
  end.

(** [FRAME_HEADER_LEN + max_record_len] is a [usize] sum in the source; it is exact for every limit that can be configured
    short of [usize::MAX] itself. *)
Definition lost_first_sector_tail (file : bytes) (offset segment_len max_record_len : Z) : io bool :=
  let tail_len := saturating_sub segment_len offset in
  if FRAME_HEADER_LEN + max_record_len <? tail_len then Some (Ok false)
  else
    let zero_end := (offset / LOST_SECTOR_GRANULE + 1) * LOST_SECTOR_GRANULE in
    if segment_len <=? zero_end then Some (Ok false)
    else
      let! tail := read_exact file offset tail_len in
      let hole := zero_end - offset in
      if negb (forallb is_zero (ztake hole tail)) then Some (Ok false)
      else Some (Ok (scan_behind_hole max_record_len LOST_SECTOR_CRC_BUDGET (zdrop hole tail))).

Definition classify_failure_or_lost_sector (file : bytes) (recs : list (Z * WalOpOwned)) (offset : Z)
    (is_tail_frame : bool) (segment_len max_record_len : Z) (detail : string) : io WalkOutcome :=
  if is_tail_frame then Some (Ok (classify_failure recs offset is_tail_frame detail))
  else
    let! lost := lost_first_sector_tail file offset segment_len max_record_len in
    Some (Ok (if lost then walk_end recs offset true
              else classify_failure recs offset is_tail_frame detail)).

Fixpoint walk_loop (fuel : nat) (file : bytes) (segment_len max_record_len offset : Z)
    (recs : list (Z * WalOpOwned)) : io WalkOutcome :=
  match fuel with
  | O => None
  | S fuel =>
      let remaining := saturating_sub segment_len offset in
      if remaining =? 0 then Some (Ok (walk_end recs offset false))
      else if remaining <? FRAME_HEADER_LEN then Some (Ok (walk_end recs offset true))
      else
        let! header_buf := read_exact file offset FRAME_HEADER_LEN in
        let! zero :=
          (if bool_decide (header_buf = replicate 8 x00)
           then zero_chunks (S (Z.to_nat remaining)) file (offset + FRAME_HEADER_LEN)
                  (remaining - FRAME_HEADER_LEN)
           else Some (Ok false)) in
        if zero then Some (Ok (walk_end recs offset true))
        else
          let length := le_val (ztake 4 header_buf) in
          let stored_crc := le_val (ztake 4 (zdrop 4 header_buf)) in
          if (max_record_len <? length) || (u32_max <? length) then
            let header_is_tail := segment_len =? saturating_add64 offset FRAME_HEADER_LEN in
            classify_failure_or_lost_sector file recs offset header_is_tail segment_len max_record_len
              "declared length exceeds MAX_RECORD_LEN"
          else
            let claimed_end := v ← checked_add64 offset FRAME_HEADER_LEN; checked_add64 v length in
            let is_tail_frame := bool_decide (claimed_end = Some segment_len) in
            let remaining_after_header := saturating_sub segment_len (offset + FRAME_HEADER_LEN) in
            if remaining_after_header <? length then Some (Ok (walk_end recs offset true))
            else
              let! body := read_exact file (offset + FRAME_HEADER_LEN) length in
              if negb (crc32c body =? stored_crc) then
                classify_failure_or_lost_sector file recs offset is_tail_frame segment_len max_record_len
                  "CRC mismatch"
              else
                match decode_wal_body body with
                | Ok (seq, op) =>
                    match claimed_end with
                    | Some next_offset =>
                        walk_loop fuel file segment_len max_record_len next_offset (recs ++ [(seq, op)])
                    | None => Some (Ok (walk_corrupt recs offset "frame extent overflow"))
                    end
                | Err _ =>
                    classify_failure_or_lost_sector file recs offset is_tail_frame segment_len max_record_len
                      "frame passed length/CRC but failed to decode"
                end
  end.

Definition walk_segment (file : bytes) (segment_len max_record_len : Z) : io WalkOutcome :=
  walk_loop (S (Z.to_nat segment_len)) file segment_len max_record_len SEGMENT_HEADER_LEN [].

Definition walk_full_segment (file : bytes) (segment_len expected_segment_id max_record_len : Z) :
    io (res WalkOutcome) :=
  if segment_len <? SEGMENT_HEADER_LEN then
    Some (Ok (Err (Corruption "segment is shorter than the header")))
  else
    let! header_buf := read_exact file 0 SEGMENT_HEADER_LEN in
    match decode_segment_header header_buf expected_segment_id with
    | Err e => Some (Ok (Err e))
    | Ok _ =>
        let! out := walk_segment file segment_len max_record_len in
        Some (Ok (Ok out))
    end.
End Recovery.

(** ** Reading *)

Lemma read_exact_ok file pos n :
  0 <= pos -> 0 <= n -> pos + n <= zlen file ->
  read_exact file pos n = Some (Ok (ztake n (zdrop pos file))).
Proof. intros. unfold read_exact. cmp_lia. by rewrite orb_true_r. Qed.

Lemma zlen_slice (file : bytes) pos n :
  0 <= pos -> 0 <= n -> pos + n <= zlen file -> zlen (ztake n (zdrop pos file)) = n.
Proof. intros. rewrite zlen_ztake; [done|]. rewrite zlen_zdrop; lia. Qed.

Lemma zero_chunks_spec fuel file pos left :
  0 <= pos -> 0 <= left -> pos + left <= zlen file -> (Z.to_nat left <= fuel)%nat ->
  zero_chunks fuel file pos left = Some (Ok (forallb is_zero (ztake left (zdrop pos file)))).
Proof.
  revert pos left. induction fuel as [|fuel IH]; intros pos left Hp Hl Hle Hf; simpl.
  - replace left with 0 by lia. done.
  - destruct (Z.leb_spec left 0); [by replace left with 0 by lia|].
    rewrite read_exact_ok by lia.
    assert (ztake left (zdrop pos file) =
      ztake (Z.min left 4096) (zdrop pos file) ++
      ztake (left - Z.min left 4096) (zdrop (pos + Z.min left 4096) file)) as Hsp.
    { rewrite <- zdrop_zdrop by lia. apply ztake_split. lia. }
    rewrite Hsp, forallb_app.
    destruct (forallb is_zero (ztake (Z.min left 4096) (zdrop pos file))); simpl; [|done].
    rewrite IH by lia. done.
Qed.

Section RecoverySpec.
Context `{Crc32c}.

Lemma lost_first_sector_tail_total file offset m :
  0 <= offset <= zlen file ->
  exists b, lost_first_sector_tail file offset (zlen file) m = Some (Ok b).
Proof.
  intros. unfold lost_first_sector_tail, saturating_sub. cmp_lia.
  case_match; [by eauto|]. case_match; [by eauto|].
  rewrite read_exact_ok by lia. case_match; eauto.
Qed.

(** Every failure stops the walk at the frame boundary reached so far, as torn or as corrupted. *)
Lemma classify_stops file recs offset t m d :
  0 <= offset <= zlen file ->
  classify_failure_or_lost_sector file recs offset t (zlen file) m d = Some (Ok (walk_end recs offset true)) \/
  classify_failure_or_lost_sector file recs offset t (zlen file) m d = Some (Ok (walk_corrupt recs offset d)).
Proof.
  intros. unfold classify_failure_or_lost_sector. destruct t; [by left|].
  destruct (lost_first_sector_tail_total file offset m) as [[] ->]; [done|by left|by right].
Qed.

(** The frame of a record, and the bytes of a run of records. *)
Definition rec_frame (r : Z * WalOpOwned) : bytes := frame_of (wal_body r.1 (as_wal_op r.2)).
Definition frames_of (recs : list (Z * WalOpOwned)) : bytes := concat (map rec_frame recs).

(** A record whose frame a writer with this [max_record_len] accepts. *)
Definition rec_ok (max_record_len : Z) (r : Z * WalOpOwned) : Prop :=
  is_u64 r.1 /\ op_u64 (as_wal_op r.2) /\ zlen (wal_body r.1 (as_wal_op r.2)) <= Z.min max_record_len u32_max.

Lemma zlen_frame_of body : zlen (frame_of body) = 8 + zlen body.
Proof. unfold frame_of. zlen. Qed.

Lemma frame_at file offset len :
  0 <= offset -> 0 <= len -> offset + 8 + len <= zlen file ->
  let header := ztake 8 (zdrop offset file) in
  let body := ztake len (zdrop (offset + 8) file) in
  le_val (ztake 4 header) = len -> le_val (ztake 4 (zdrop 4 header)) = crc32c body ->
  zdrop offset file = frame_of body ++ zdrop (offset + 8 + len) file.
Proof.
  intros Ho Hl Hle header body H1 H2.
  assert (zlen header = 8) as Hh by (apply zlen_slice; lia).
  assert (zlen body = len) as Hb by (apply zlen_slice; lia).
  rewrite <- (ztake_zdrop 8 (zdrop offset file)). fold header.
  rewrite zdrop_zdrop by lia. rewrite <- (ztake_zdrop len (zdrop (offset + 8) file)). fold body.
  rewrite zdrop_zdrop by lia. rewrite app_assoc. f_equal.
  unfold frame_of. rewrite Hb, <- H1, <- H2, app_assoc. f_equal.
  rewrite <- (ztake_zdrop 4 header) at 1. f_equal.
  - rewrite <- (le_bytes_val (ztake 4 header)) at 1. f_equal.
    assert (zlen (ztake 4 header) = 4) by (apply zlen_ztake; lia). lia.
  - rewrite (ztake_all' 4) by (rewrite zlen_zdrop; lia).
    rewrite <- (le_bytes_val (zdrop 4 header)) at 1. f_equal.
    assert (zlen (zdrop 4 header) = 4) by (rewrite zlen_zdrop; lia). lia.
Qed.

(** What a finished walk from [offset] says: the records found are exactly the frames between [offset] and the
    reported end, and the walk is clean only at the end of the file. *)
Definition walk_result (file : bytes) (max_record_len offset : Z) (recs : list (Z * WalOpOwned))
    (out : WalkOutcome) : Prop :=
  exists new,
    records out = recs ++ new /\ Forall (rec_ok max_record_len) new /\
    valid_end_offset out = offset + zlen (frames_of new) /\
    valid_end_offset out <= zlen file /\
    zdrop offset file = frames_of new ++ zdrop (valid_end_offset out) file /\
    (truncated out && corrupted out)%bool = false /\
    (truncated out = false -> corrupted out = false -> valid_end_offset out = zlen file).

Lemma walk_result_stop file m offset recs out :
  0 <= offset <= zlen file ->
  (out = walk_end recs offset true \/ exists d, out = walk_corrupt recs offset d) ->
  walk_result file m offset recs out.
Proof.
  intros Ho Hout. exists []. unfold frames_of; simpl.
  destruct Hout as [->|[d ->]]; simpl; rewrite app_nil_r, Z.add_0_r; split_and!; try done; lia.
Qed.

(** A decoded frame in front of a finished walk. *)
Lemma walk_result_cons file m offset recs seq op body out :
  0 <= offset -> offset + 8 + zlen body <= zlen file -> zlen body <= Z.min m u32_max ->
  decode_wal_body body = Ok (seq, op) ->
  zdrop offset file = frame_of body ++ zdrop (offset + 8 + zlen body) file ->
  walk_result file m (offset + 8 + zlen body) (recs ++ [(seq, op)]) out ->
  walk_result file m offset recs out.
Proof.
  intros Ho Hle Hm Hd Hfr (new & Hr & Hok & Hv & Hvl & Hz & Ht & Hc).
  destruct (decode_wal_body_inv _ _ _ Hd) as (Hbody & Hseq & Hu & _).
  exists ((seq, op) :: new).
  assert (frames_of ((seq, op) :: new) = frame_of body ++ frames_of new) as ->.
  { unfold frames_of; simpl. unfold rec_frame at 1; simpl. by rewrite <- Hbody. }
  rewrite zlen_app, zlen_frame_of. split_and!; try done.
  - by rewrite Hr, <- app_assoc.
  - constructor; [|done]. unfold rec_ok; simpl. rewrite <- Hbody. done.
  - lia.
  - rewrite Hfr, Hz. by rewrite app_assoc.
Qed.

Lemma walk_loop_sound fuel file m offset recs :
  zlen file <= u64_max -> 0 <= offset <= zlen file -> zlen file - offset < Z.of_nat fuel ->
  exists out, walk_loop fuel file (zlen file) m offset recs = Some (Ok out) /\
    walk_result file m offset recs out.
Proof.
  intros Hfile. revert offset recs.
  induction fuel as [|fuel IH]; intros offset recs Ho Hfuel; [lia|].
  pose proof (fun out => walk_result_stop file m offset recs out Ho) as Hstop.
  assert (forall t d, exists out,
    classify_failure_or_lost_sector file recs offset t (zlen file) m d = Some (Ok out) /\
    walk_result file m offset recs out) as Hcl.
  { intros t d. destruct (classify_stops file recs offset t m d Ho) as [E|E];
      (eexists; split; [exact E|apply Hstop; eauto]). }
  assert (exists out, @Some (result io_error _) (Ok (walk_end recs offset true)) = Some (Ok out) /\
    walk_result file m offset recs out) as Hend by (eexists; split; [done|apply Hstop; by left]).
  cbn [walk_loop]. unfold saturating_sub at 1 2 3 4. cmp_lia.
  destruct (Z.eqb_spec (zlen file - offset) 0).
  { eexists; split; [done|]. exists []. unfold frames_of; simpl.
    rewrite app_nil_r, Z.add_0_r. split_and!; try done; lia. }
  unfold FRAME_HEADER_LEN.
  destruct (Z.ltb_spec (zlen file - offset) 8); [eauto|].
  rewrite read_exact_ok by lia. set (header := ztake 8 (zdrop offset file)).
  match goal with |- context [if bool_decide ?P then ?z else ?f] =>
    assert (exists b, (if bool_decide P then z else f) = Some (Ok b)) as [zr ->] end.
  { destruct (bool_decide _); [rewrite zero_chunks_spec by lia|]; eauto. }
  destruct zr; [eauto|]. set (len := le_val (ztake 4 header)).
  assert (zlen header = 8) as Hh by (apply zlen_slice; lia).
  assert (is_u32 len) as Hlen by (apply le_val_u32; rewrite zlen_ztake; lia).
  destruct ((m <? len) || (u32_max <? len))%bool eqn:Em; [eauto|]. bool_to_prop.
  assert (0 <= len) by (unfold_ints; lia). unfold saturating_sub.
  destruct (Z.leb_spec (offset + 8) (zlen file)); [|lia].
  destruct (Z.ltb_spec (zlen file - (offset + 8)) len); [eauto|].
  rewrite read_exact_ok by lia. set (body := ztake len (zdrop (offset + 8) file)).
  destruct (Z.eqb_spec (crc32c body) (le_val (ztake 4 (zdrop 4 header)))) as [Hcrc|];
    cbn [negb]; [|by eauto].
  destruct (decode_wal_body body) as [[seq op]|] eqn:Ed; [|by eauto].
  unfold checked_add64. rewrite (proj2 (Z.leb_le (offset + 8) u64_max)) by lia.
  cbn [mbind option_bind]. rewrite (proj2 (Z.leb_le (offset + 8 + len) u64_max)) by lia.
  assert (zlen body = len) as Hbl by (apply zlen_slice; lia).
  pose proof (frame_at file offset len ltac:(lia) ltac:(lia) ltac:(lia) eq_refl (eq_sym Hcrc)) as Hfr.
  destruct (IH (offset + 8 + len) (recs ++ [(seq, op)])) as (out & Hw & Hres); [lia|lia|].
  exists out. split; [done|]. fold len body in Hfr. clearbody body header.
  apply (walk_result_cons _ _ _ _ seq op body); rewrite ?Hbl; first [done | lia].
Qed.

(** ** Walking bytes a writer produced *)

Lemma rec_ok_decode m r : rec_ok m r -> decode_wal_body (wal_body r.1 (as_wal_op r.2)) = Ok r.
Proof.
  destruct r as [seq op]. unfold rec_ok; simpl. intros (Hs & Hu & Hl).
  rewrite decode_wal_body_encoded; [|done..|].
  - f_equal. f_equal. destruct op as [| | |ms]; simpl; try done. f_equal. rewrite map_map.
    rewrite <- (map_id ms) at 2. apply map_ext. by intros [].
  - apply op_fits_of_len. unfold wal_body in Hl. rewrite !zlen_app, length_le_bytes in Hl.
    simpl length in Hl. lia.
Qed.

Lemma zlen_wal_body seq op : 9 <= zlen (wal_body seq op).
Proof. unfold wal_body. rewrite !zlen_app, length_le_bytes. simpl length. lia. Qed.

Definition frame_header (body : bytes) : bytes := le32 (zlen body) ++ le32 (crc32c body).

Lemma frame_header_not_zero body : 0 < zlen body <= u32_max -> frame_header body <> replicate 8 x00.
Proof.
  intros Hb Heq. apply (f_equal (ztake 4)) in Heq. unfold frame_header in Heq.
  rewrite ztake_app' in Heq by zlen. apply (f_equal le_val) in Heq.
  rewrite le_val_32 in Heq by (unfold_ints; lia). assert (zlen body = 0) by (rewrite Heq; vm_compute; done). lia.
Qed.

Lemma frame_header_fields body :
  zlen body <= u32_max ->
  le_val (ztake 4 (frame_header body)) = zlen body /\
  le_val (ztake 4 (zdrop 4 (frame_header body))) = crc32c body.
Proof.
  intros. unfold frame_header. rewrite ztake_app', zdrop_app', (ztake_all' 4) by zlen.
  rewrite !le_val_32; [done|apply crc32c_u32|unfold_ints; lia].
Qed.

Lemma read_exact_app pre mid post pos n :
  pos = zlen pre -> n = zlen mid -> read_exact (pre ++ mid ++ post) pos n = Some (Ok mid).
Proof.
  intros -> ->. rewrite read_exact_ok by zlen. by rewrite zdrop_app, ztake_app.
Qed.

(** One intact frame at the read position is consumed. *)
Lemma walk_loop_step fuel pre r post m recs :
  let file := pre ++ rec_frame r ++ post in
  zlen file <= u64_max -> rec_ok m r ->
  walk_loop (S fuel) file (zlen file) m (zlen pre) recs =
    walk_loop fuel file (zlen file) m (zlen pre + zlen (rec_frame r)) (recs ++ [r]).
Proof.
  intros file Hfile Hok. set (body := wal_body r.1 (as_wal_op r.2)).
  assert (9 <= zlen body) as Hb by apply zlen_wal_body.
  destruct Hok as (Hs & Hu & Hlm) eqn:Eok. fold body in Hlm.
  assert (rec_frame r = frame_header body ++ body) as Hfr.
  { unfold rec_frame, frame_of, frame_header. fold body. by rewrite <- app_assoc. }
  assert (file = pre ++ frame_header body ++ (body ++ post)) as Hf1.
  { unfold file. by rewrite Hfr, <- app_assoc. }
  assert (file = (pre ++ frame_header body) ++ body ++ post) as Hf2.
  { by rewrite <- app_assoc. }
  assert (zlen (frame_header body) = 8) as Hh by (unfold frame_header; zlen).
  assert (zlen file = zlen pre + 8 + zlen body + zlen post) as Hlen.
  { rewrite Hf2, !zlen_app. lia. }
  destruct (frame_header_fields body) as [Hfl Hfc]; [lia|].
  cbn [walk_loop]. unfold saturating_sub, FRAME_HEADER_LEN. cmp_lia.
  rewrite Hf1 at 1. rewrite read_exact_app by done.
  rewrite bool_decide_eq_false_2 by (apply frame_header_not_zero; lia).
  rewrite Hfl, Hfc. cmp_lia. cbn [orb].
  rewrite Hf2 at 1. rewrite read_exact_app by (rewrite ?zlen_app; lia). rewrite Z.eqb_refl. cbn [negb].
  unfold body at 1. rewrite (rec_ok_decode m r Hok). destruct r as [seq op].
  unfold checked_add64. rewrite (proj2 (Z.leb_le (zlen pre + 8) u64_max)) by lia.
  cbn [mbind option_bind]. rewrite (proj2 (Z.leb_le (zlen pre + 8 + zlen body) u64_max)) by lia.
  f_equal. rewrite Hfr, zlen_app. lia.
Qed.

Lemma walk_loop_frames fuel pre new post m recs :
  let file := pre ++ frames_of new ++ post in
  zlen file <= u64_max -> Forall (rec_ok m) new ->
  walk_loop (length new + fuel) file (zlen file) m (zlen pre) recs =
    walk_loop fuel file (zlen file) m (zlen pre + zlen (frames_of new)) (recs ++ new).
Proof.
  revert pre recs. induction new as [|r new IH]; intros pre recs file Hfile Hok.
  - unfold frames_of; simpl. by rewrite app_nil_r, Z.add_0_r.
  - inversion_clear Hok as [|? ? Hr Hnew].
    assert (frames_of (r :: new) = rec_frame r ++ frames_of new) as Hfr by done.
    assert (file = pre ++ rec_frame r ++ (frames_of new ++ post)) as Hf1.
    { unfold file. by rewrite Hfr, <- app_assoc. }
    assert (file = (pre ++ rec_frame r) ++ frames_of new ++ post) as Hf2.
    { by rewrite <- app_assoc. }
    cbn [length Nat.add]. rewrite Hf1 in Hfile |- *. rewrite walk_loop_step by done.
    rewrite <- zlen_app, <- Hf1, Hf2. rewrite IH by (done || by rewrite <- Hf2, Hf1).
    rewrite Hfr, !zlen_app. f_equal; [lia|by rewrite <- app_assoc].
Qed.

(** A proper, non-empty prefix of a frame at the end of the file is a torn tail. *)
Lemma walk_loop_torn fuel pre r m recs k :
  let file := pre ++ ztake k (rec_frame r) in
  zlen file <= u64_max -> rec_ok m r -> 0 < k < zlen (rec_frame r) ->
  walk_loop (S fuel) file (zlen file) m (zlen pre) recs = Some (Ok (walk_end recs (zlen pre) true)).
Proof.
  intros file Hfile (Hs & Hu & Hlm) Hk. set (body := wal_body r.1 (as_wal_op r.2)) in *.
  assert (9 <= zlen body) as Hb by apply zlen_wal_body.
  assert (rec_frame r = frame_header body ++ body) as Hfr.
  { unfold rec_frame, frame_of, frame_header. fold body. by rewrite <- app_assoc. }
  assert (zlen (frame_header body) = 8) as Hh by (unfold frame_header; zlen).
  assert (zlen file = zlen pre + k) as Hlen by (unfold file; rewrite zlen_app, zlen_ztake; lia).
  cbn [walk_loop]. unfold saturating_sub, FRAME_HEADER_LEN. cmp_lia.
  destruct (Z.ltb_spec (zlen file - zlen pre) 8); [done|].
  assert (file = pre ++ frame_header body ++ ztake (k - 8) body) as Hf1.
  { unfold file. f_equal. rewrite Hfr. unfold ztake. rewrite take_app_ge by lia. f_equal. f_equal. lia. }
  destruct (frame_header_fields body) as [Hfl Hfc]; [lia|].
  rewrite Hf1 at 1. rewrite read_exact_app by done.
  rewrite bool_decide_eq_false_2 by (apply frame_header_not_zero; lia).
  rewrite Hfl. rewrite Hfr, zlen_app in Hk. cmp_lia. done.
Qed.

Lemma zlen_rec_frame r : 17 <= zlen (rec_frame r).
Proof. unfold rec_frame. rewrite zlen_frame_of. pose proof (zlen_wal_body r.1 (as_wal_op r.2)). lia. Qed.

Lemma zlen_frames_of recs : zlen recs <= zlen (frames_of recs).
Proof.
  induction recs as [|r recs IH]; [done|]. change (frames_of (r :: recs)) with (rec_frame r ++ frames_of recs).
  rewrite zlen_app. pose proof (zlen_rec_frame r). simpl length. lia.
Qed.

(** Cutting a run of frames at any byte leaves whole frames and at most one proper frame prefix. *)
Lemma cut_frames recs n :
  0 <= n <= zlen (frames_of recs) ->
  exists k t, (k <= length recs)%nat /\ ztake n (frames_of recs) = frames_of (take k recs) ++ t /\
    (t = [] \/ exists r j, recs !! k = Some r /\ t = ztake j (rec_frame r) /\ 0 < j < zlen (rec_frame r)) /\
    n = zlen (frames_of (take k recs)) + zlen t /\
    (k = length recs \/ n < zlen (frames_of (take (S k) recs))).
Proof.
  intros Hn. destruct (cut_concat (map rec_frame recs) n) as (k & t & Hk & Hcut & Ht & Hz & Hlast); [|done|].
  { apply Forall_fmap, Forall_forall. intros r _. simpl. pose proof (zlen_rec_frame r). lia. }
  exists k, t. unfold frames_of. rewrite length_map in *. rewrite !firstn_map in *.
  split_and!; try done. destruct Ht as [->|(c & j & Hc & -> & Hj)]; [by left|right].
  apply list_lookup_fmap_Some in Hc as (r & -> & Hr). eauto.
Qed.

Lemma zlen_segment_header id : zlen (encode_segment_header id) = 24.
Proof. unfold encode_segment_header. rewrite !zlen_app, !length_le_bytes. done. Qed.

Lemma walk_full_segment_header id rest m :
  is_u64 id -> 
  walk_full_segment (encode_segment_header id ++ rest) (zlen (encode_segment_header id ++ rest)) id m =
    match walk_segment (encode_segment_header id ++ rest) (zlen (encode_segment_header id ++ rest)) m with
    | Some (Ok out) => Some (Ok (Ok out)) | Some (Err e) => Some (Err e) | None => None end.
Proof.
  intros Hid. unfold walk_full_segment.
  rewrite (proj2 (Z.ltb_ge _ _)) by (rewrite zlen_app, zlen_segment_header; unfold SEGMENT_HEADER_LEN; lia).
  rewrite (read_exact_app [] (encode_segment_header id) rest) by (done || by rewrite zlen_segment_header).
  rewrite decode_encode_segment_header, Z.eqb_refl by done. done.
Qed.

(** Zero bytes up to the end of the file are a torn tail. *)
Lemma walk_loop_zero fuel pre k m recs :
  let file := pre ++ replicate k x00 in
  (0 < k)%nat ->
  walk_loop (S fuel) file (zlen file) m (zlen pre) recs = Some (Ok (walk_end recs (zlen pre) true)).
Proof.
  intros file Hk. assert (zlen file = zlen pre + Z.of_nat k) as Hlen.
  { unfold file. rewrite zlen_app, length_replicate. lia. }
  cbn [walk_loop]. unfold saturating_sub, FRAME_HEADER_LEN. cmp_lia.
  destruct (Z.ltb_spec (zlen file - zlen pre) 8); [done|].
  assert (file = pre ++ replicate 8 x00 ++ replicate (k - 8) x00) as Hf1.
  { unfold file. f_equal. rewrite <- replicate_add. f_equal. lia. }
  rewrite Hf1 at 1. rewrite read_exact_app by done. rewrite bool_decide_eq_true_2 by done.
  rewrite zero_chunks_spec by lia. cbv beta iota.
  replace (forallb is_zero _) with true; [done|].
  unfold file. rewrite <- zdrop_zdrop, zdrop_app by lia. symmetry. unfold ztake, zdrop.
  rewrite drop_replicate, take_replicate.
  match goal with |- context [replicate ?n x00] => generalize n end.
  intros n. induction n as [|n IHn]; [done|exact IHn].
Qed.

(** A header, whole frames, and at most one proper frame prefix. *)
Lemma walk_full_segment_frames id new t m :
  let file := encode_segment_header id ++ frames_of new ++ t in
  is_u64 id -> zlen file <= u64_max -> Forall (rec_ok m) new ->
  (t = [] \/ (exists k, (0 < k)%nat /\ t = replicate k x00) \/
   exists r j, rec_ok m r /\ t = ztake j (rec_frame r) /\ 0 < j < zlen (rec_frame r)) ->
  walk_full_segment file (zlen file) id m =
    Some (Ok (Ok (walk_end new (24 + zlen (frames_of new)) (0 <? zlen t)))).
Proof.
  intros file Hid Hfile Hok Ht. unfold file at 1 2. rewrite walk_full_segment_header by done. fold file.
  unfold walk_segment, SEGMENT_HEADER_LEN.
  assert (zlen file = 24 + zlen (frames_of new) + zlen t) as Hlen.
  { unfold file. rewrite !zlen_app, zlen_segment_header. lia. }
  pose proof (zlen_frames_of new) as Hcnt.
  assert (exists f, S (Z.to_nat (zlen file)) = (length new + S f)%nat) as [f ->].
  { exists (Z.to_nat (zlen file) - length new)%nat. lia. }
  assert (24 = zlen (encode_segment_header id)) as H24 by (by rewrite zlen_segment_header).
  assert (file = (encode_segment_header id ++ frames_of new) ++ t) as Hf by (unfold file; by rewrite <- app_assoc).
  rewrite H24 at 1. unfold file. rewrite walk_loop_frames by done. fold file. simpl app at 1.
  destruct Ht as [->|[(k & Hk & Hts)|(r & j & Hr & Hts & Hj)]].
  - change (zlen (@nil byte)) with 0 in *. cbn [walk_loop]. unfold saturating_sub. rewrite <- H24.
    replace (24 + zlen (frames_of new)) with (zlen file) by lia. rewrite Z.leb_refl, Z.sub_diag. done.
  - rewrite Hf, Hts. rewrite <- zlen_app, walk_loop_zero by done.
    rewrite zlen_app, <- H24, length_replicate. by cmp_lia.
  - rewrite Hf, Hts in Hfile |- *. rewrite <- zlen_app, walk_loop_torn by done.
    rewrite zlen_app, <- H24, zlen_ztake by lia. by cmp_lia.
Qed.
End RecoverySpec.

(** ** Theorems *)

Section RecoveryTheorems.
Context `{Crc32c}.

Lemma walk_cut_frames segment_id recs max_record_len n :
  let file := encode_segment_header segment_id ++ frames_of recs in
  is_u64 segment_id -> Forall (rec_ok max_record_len) recs -> zlen file <= u64_max ->
  SEGMENT_HEADER_LEN <= n <= zlen file ->
  exists k, let e := SEGMENT_HEADER_LEN + zlen (frames_of (take k recs)) in
    walk_full_segment (ztake n file) n segment_id max_record_len =
      Some (Ok (Ok (walk_end (take k recs) e (e <? n)))) /\
    (k <= length recs)%nat /\ e <= n /\
    (k = length recs \/ n < SEGMENT_HEADER_LEN + zlen (frames_of (take (S k) recs))).
Proof.
  intros file Hid Hok Hfile Hn. unfold SEGMENT_HEADER_LEN in *. unfold file in Hfile, Hn.
  rewrite zlen_app, zlen_segment_header in Hfile, Hn.
  destruct (cut_frames recs (n - 24)) as (k & t & Hk & Hcut & Ht & Hz & Hlast); [lia|].
  exists k. cbv zeta. split_and!; [|done|lia|destruct Hlast; [left|right]; lia].
  assert (ztake n file = encode_segment_header segment_id ++ frames_of (take k recs) ++ t) as Hf.
  { unfold file, ztake. rewrite take_app_ge by (pose proof (zlen_segment_header segment_id); lia).
    f_equal. rewrite <- Hcut. unfold ztake. f_equal. pose proof (zlen_segment_header segment_id). lia. }
  assert (n = zlen (ztake n file)) as Hn'.
  { rewrite Hf, !zlen_app, zlen_segment_header. lia. }
  rewrite Hn' at 2. rewrite Hf, walk_full_segment_frames.
  - assert ((0 <? zlen t) = (24 + zlen (frames_of (take k recs)) <? n)) as ->; [|done].
    destruct (Z.ltb_spec 0 (zlen t)); by cmp_lia.
  - done.
  - rewrite <- Hf, <- Hn'. lia.
  - by apply Forall_take.
  - destruct Ht as [->|(r & j & Hr & -> & Hj)]; [by left|right; right]. exists r, j. split_and!; try done; try lia.
    rewrite Forall_forall in Hok. apply Hok, list_elem_of_lookup. eauto.
Qed.

(** C3: a crash that cuts a segment file at any byte.  If the cut falls inside the 24-byte header, recovery reports
    [Corruption] (a short header is never taken for a torn tail).  At any byte from the end of the header on, only the
    frames it cut into are lost: recovery of the cut file reports no corruption, returns exactly the records whose frames
    lie wholly before the cut, ends at the last frame boundary, and flags a torn tail exactly when bytes of a partial frame
    remain. *)
Theorem walk_segment_cut segment_id recs max_record_len n :
  let file := encode_segment_header segment_id ++ frames_of recs in
  is_u64 segment_id -> Forall (rec_ok max_record_len) recs -> zlen file <= u64_max -> 0 <= n <= zlen file ->
  (n < SEGMENT_HEADER_LEN ->
     exists detail, walk_full_segment (ztake n file) n segment_id max_record_len = Some (Ok (Err (Corruption detail)))) /\
  (SEGMENT_HEADER_LEN <= n ->
     exists k, let e := SEGMENT_HEADER_LEN + zlen (frames_of (take k recs)) in
       walk_full_segment (ztake n file) n segment_id max_record_len =
         Some (Ok (Ok (walk_end (take k recs) e (e <? n)))) /\
       (k <= length recs)%nat /\ e <= n /\
       (k = length recs \/ n < SEGMENT_HEADER_LEN + zlen (frames_of (take (S k) recs)))).
Proof.
  intros file Hid Hok Hfile Hn. split; intros Hlt.
  - unfold walk_full_segment. rewrite (proj2 (Z.ltb_lt _ _) Hlt). by eexists.
  - apply walk_cut_frames; [done..|]. unfold file in *. split; [done|apply Hn].
Qed.

Lemma walk_segment_sound file max_record_len :
  SEGMENT_HEADER_LEN <= zlen file <= u64_max ->
  exists out, walk_segment file (zlen file) max_record_len = Some (Ok out) /\
    SEGMENT_HEADER_LEN <= valid_end_offset out <= zlen file /\
    Forall (rec_ok max_record_len) (records out) /\
    ztake (valid_end_offset out) file = ztake SEGMENT_HEADER_LEN file ++ frames_of (records out) /\
    (truncated out && corrupted out)%bool = false /\
    (truncated out = false -> corrupted out = false -> valid_end_offset out = zlen file).
Proof.
  intros Hl. unfold walk_segment, SEGMENT_HEADER_LEN in *.
  destruct (walk_loop_sound (S (Z.to_nat (zlen file))) file max_record_len 24 [])
    as (out & Hw & new & Hr & Hok & Hv & Hvl & Hz & Hx & Hc); [lia..|].
  exists out. simpl in Hr. rewrite Hr. split_and!; try done; try lia.
  assert (file = ztake 24 file ++ frames_of new ++ zdrop (valid_end_offset out) file) as Hf.
  { by rewrite <- Hz, ztake_zdrop. }
  rewrite app_assoc in Hf. rewrite Hf at 1. apply ztake_app'.
  rewrite zlen_app, zlen_ztake by lia. lia.
Qed.

(** C18: on an arbitrary segment file recovery terminates with an outcome and reads no byte outside the file.
    The records it returns are exactly the frames stored between the header and the end it reports; a file is
    never classified both torn and corrupted, and is classified clean only when every byte was accounted for. *)
Theorem walk_segment_total file max_record_len :
  SEGMENT_HEADER_LEN <= zlen file <= u64_max ->
  exists out, walk_segment file (zlen file) max_record_len = Some (Ok out) /\
    SEGMENT_HEADER_LEN <= valid_end_offset out <= zlen file /\
    Forall (rec_ok max_record_len) (records out) /\
    ztake (valid_end_offset out) file = ztake SEGMENT_HEADER_LEN file ++ frames_of (records out) /\
    (truncated out && corrupted out)%bool = false /\
    (truncated out = false -> corrupted out = false -> valid_end_offset out = zlen file).
Proof. apply walk_segment_sound. Qed.

(** C22: a segment whose tail is zero-filled (length extended, data never written) recovers every record in
    front of it; the tail is torn, never corruption, whatever its length. *)
Theorem walk_segment_zero_tail segment_id recs max_record_len k :
  let file := encode_segment_header segment_id ++ frames_of recs ++ replicate k x00 in
  is_u64 segment_id -> Forall (rec_ok max_record_len) recs -> zlen file <= u64_max -> (0 < k)%nat ->
  walk_full_segment file (zlen file) segment_id max_record_len =
    Some (Ok (Ok (walk_end recs (SEGMENT_HEADER_LEN + zlen (frames_of recs)) true))).
Proof.
  intros file Hid Hok Hfile Hk. unfold file. rewrite walk_full_segment_frames by eauto.
  rewrite length_replicate. by cmp_lia.
Qed.

(** C21: truncating a recovered segment at the reported end loses nothing and leaves a clean segment:
    recovering the truncated file again returns the same records, with no torn tail and no corruption. *)
Theorem walk_segment_truncate_clean file segment_id max_record_len out :
  zlen file <= u64_max ->
  walk_full_segment file (zlen file) segment_id max_record_len = Some (Ok (Ok out)) ->
  walk_full_segment (ztake (valid_end_offset out) file) (valid_end_offset out) segment_id max_record_len =
    Some (Ok (Ok (walk_end (records out) (valid_end_offset out) false))).
Proof.
  intros Hfile. unfold walk_full_segment at 1.
  destruct (zlen file <? SEGMENT_HEADER_LEN) eqn:Elen; [done|]. bool_to_prop.
  assert (zlen (ztake 24 file) = 24) as H24 by (unfold SEGMENT_HEADER_LEN in *; apply zlen_ztake; lia).
  rewrite read_exact_ok by (unfold SEGMENT_HEADER_LEN in *; lia). rewrite zdrop_0.
  destruct (decode_segment_header _ _) eqn:Eh; [|done].
  apply decode_segment_header_inv in Eh as [Hh Hid]; [|done].
  destruct (walk_segment_sound file max_record_len) as (o & Ho & Hv & Hok & Hcut & _); [lia|].
  rewrite Ho. intros [= <-]. rewrite Hcut, Hh.
  assert (valid_end_offset o = zlen (encode_segment_header segment_id ++ frames_of (records o))) as Hve.
  { rewrite <- Hh, <- Hcut. rewrite zlen_ztake; [done|]. unfold SEGMENT_HEADER_LEN in *; lia. }
  rewrite Hve. rewrite <- (app_nil_r (frames_of (records o))).
  rewrite walk_full_segment_frames; [|done| |done|by left].
  - rewrite app_nil_r, zlen_app, zlen_segment_header. done.
  - rewrite app_nil_r, <- Hve. unfold SEGMENT_HEADER_LEN in *; lia.
Qed.
End RecoveryTheorems.

(** ** Witnesses *)

Definition demo_recs : list (Z * WalOpOwned) :=
  [(1, OPut [x61] [x31]); (2, OGroup [GOPut [x62] [x32]; GODelete [x61]]); (3, ODelete [x62])].

Lemma walk_segment_cut_witness :
  let file := encode_segment_header 1 ++ frames_of demo_recs in
  zlen file = 111 /\
  exists k, let e := SEGMENT_HEADER_LEN + zlen (frames_of (take k demo_recs)) in
    walk_full_segment (ztake 100 file) 100 1 1024 = Some (Ok (Ok (walk_end (take k demo_recs) e (e <? 100)))) /\
    (k <= length demo_recs)%nat /\ e <= 100 /\
    (k = length demo_recs \/ 100 < SEGMENT_HEADER_LEN + zlen (frames_of (take (S k) demo_recs))).
Proof.
  intros file. split; [by_eval|].
  apply (walk_segment_cut 1 demo_recs 1024 100); by_eval.
Defined.

Lemma walk_segment_total_witness :
  let file := encode_segment_header 1 ++ frames_of demo_recs ++ [x09; x00] in
  exists out, walk_segment file (zlen file) 1024 = Some (Ok out) /\
    SEGMENT_HEADER_LEN <= valid_end_offset out <= zlen file.
Proof.
  intros file. destruct (walk_segment_total file 1024) as (out & Hw & Hv & _); [by_eval|].
  exists out. split; assumption.
Defined.

Lemma walk_segment_zero_tail_witness :
  let file := encode_segment_header 1 ++ frames_of demo_recs ++ replicate 5000 x00 in
  walk_full_segment file (zlen file) 1 1024 =
    Some (Ok (Ok (walk_end demo_recs (SEGMENT_HEADER_LEN + zlen (frames_of demo_recs)) true))).
Proof. apply (walk_segment_zero_tail 1 demo_recs 1024 5000); [by_eval..|lia]. Defined.

Lemma walk_segment_truncate_clean_witness :
  let file := encode_segment_header 1 ++ frames_of demo_recs ++ [x09; x00; x00; x00] in
  let out := walk_end demo_recs 111 true in
  walk_full_segment (ztake (valid_end_offset out) file) (valid_end_offset out) 1 1024 =
    Some (Ok (Ok (walk_end (records out) (valid_end_offset out) false))).
Proof.
  intros file out. apply (walk_segment_truncate_clean file 1 1024 out); by_eval.
Defined.
