(* ===== verification/MemTable.v ===== *)
(** * The memtable ([src/src/memtable/mod.rs])

    An in-memory map from [(user_key, seq)] to a value or a tombstone, with the size and sequence-range accounting
    the flush trigger reads.  [MemTable] is the source's struct; its [BTreeMap] is the ordered association list of
    [BTree].  [freeze] moves the table behind an [Arc] and changes nothing in it. *)

From stdpp Require Import base list option sorting.
From Stdlib Require Import ZArith Lia.
From Stdlib Require Import Strings.Byte.
From S2P Require Import Prelude BTree.

Module Mem.

Inductive MemtableValue : Type :=
| MPut (v : bytes)
| MTombstone.

Definition payload_len (v : MemtableValue) : Z :=
  match v with
  | MPut v => zlen v
  | MTombstone => 0
  end.

Definition ENTRY_OVERHEAD : Z := 32.
Definition DEFAULT_MAX_SIZE_BYTES : Z := 4 * 1024 * 1024.

Definition entry_size (key : bytes) (value : MemtableValue) : Z :=
  zlen key + payload_len value + ENTRY_OVERHEAD.

Record MemTable : Type := {
  map : list ((bytes * Z) * MemtableValue);
  size_bytes : Z;
  max_size_bytes : Z;
  min_seq : option Z;
  max_seq : option Z
}.

Definition new (max_size_bytes : Z) : MemTable :=
  {| map := []; size_bytes := 0; max_size_bytes := max_size_bytes; min_seq := None; max_seq := None |}.

(** [size_bytes] is a [usize] in the source; it counts bytes held in memory, so that the sum stays far below [2 ^ 64]. *)
Definition insert (m : MemTable) (key : bytes) (seq : Z) (value : MemtableValue) : MemTable :=
  {| map := bt_insert (key, seq) value (map m);
     size_bytes := size_bytes m + entry_size key value;
     max_size_bytes := max_size_bytes m;
     min_seq := Some (match min_seq m with None => seq | Some x => Z.min x seq end);
     max_seq := Some (match max_seq m with None => seq | Some x => Z.max x seq end) |}.

Definition put (m : MemTable) (key : bytes) (seq : Z) (value : bytes) : MemTable :=
  insert m key seq (MPut value).

Definition delete (m : MemTable) (key : bytes) (seq : Z) : MemTable :=
  insert m key seq MTombstone.

(** [self.map.range((key,0)..=(key,as_of_seq)).next_back()].  The range is never decreasing, so the call never
    panics ([get_as_of_no_panic]). *)
Definition get_as_of (m : MemTable) (key : bytes) (as_of_seq : Z) : option (Z * MemtableValue) :=
  r ← bt_range (Included (key, 0)) (Included (key, as_of_seq)) (map m);
  e ← last r;
  Some (e.1.2, e.2).

Definition get (m : MemTable) (key : bytes) : option (Z * MemtableValue) :=
  get_as_of m key u64_max.

Definition get_value (m : MemTable) (key : bytes) (as_of_seq : Z) : option bytes :=
  match get_as_of m key as_of_seq with
  | Some (_, MPut v) => Some v
  | Some (_, MTombstone) => None
  | None => None
  end.

Definition bound_to_tuple_start (b : Bound bytes) : Bound (bytes * Z) :=
  match b with
  | Included k => Included (k, 0)
  | Excluded k => Excluded (k, u64_max)
  | Unbounded => Unbounded
  end.

Definition bound_to_tuple_end (b : Bound bytes) : Bound (bytes * Z) :=
  match b with
  | Included k => Included (k, u64_max)
  | Excluded k => Excluded (k, 0)
  | Unbounded => Unbounded
  end.

(** [None] is the panic of [BTreeMap::range] on a decreasing range. *)
Definition range (m : MemTable) (lo hi : Bound bytes) : option (list ((bytes * Z) * MemtableValue)) :=
  bt_range (bound_to_tuple_start lo) (bound_to_tuple_end hi) (map m).

Definition remaining_capacity (m : MemTable) : Z := saturating_sub (max_size_bytes m) (size_bytes m).
Definition entry_count (m : MemTable) : Z := zlen (map m).
Definition is_full (m : MemTable) : bool := max_size_bytes m <=? size_bytes m.

Definition seq_range (m : MemTable) : option (Z * Z) :=
  match min_seq m, max_seq m with
  | Some a, Some b => Some (a, b)
  | _, _ => None
  end.

Definition freeze (m : MemTable) : MemTable := m.

(** ** Invariant *)

(** The entries are strictly ordered, every sequence number is a [u64], and [min_seq]/[max_seq] are exactly the
    extreme sequence numbers present. *)
Record wf (m : MemTable) : Prop := {
  wf_sorted : bt_sorted (map m);
  wf_u64 : forall k s v, In ((k, s), v) (map m) -> is_u64 s;
  wf_min : match min_seq m with
           | None => map m = []
           | Some a => (exists k v, In ((k, a), v) (map m)) /\ forall k s v, In ((k, s), v) (map m) -> a <= s
           end;
  wf_max : match max_seq m with
           | None => map m = []
           | Some b => (exists k v, In ((k, b), v) (map m)) /\ forall k s v, In ((k, s), v) (map m) -> s <= b
           end
}.

Lemma new_wf n : wf (new n).
Proof. split; simpl; try done. constructor. Qed.

Lemma In_insert m key seq value k s v :
  wf m ->
  In ((k, s), v) (map (insert m key seq value)) <->
    (k = key /\ s = seq /\ v = value) \/ ((k, s) <> (key, seq) /\ In ((k, s), v) (map m)).
Proof.
  intros Hm. simpl. rewrite bt_In_insert by apply Hm. simpl. naive_solver.
Qed.

Lemma insert_wf m key seq value : wf m -> is_u64 seq -> wf (insert m key seq value).
Proof.
  intros Hm Hs. pose proof (In_insert m key seq value) as HI.
  assert (exists v', In ((key, seq), v') (map (insert m key seq value))) as [v' Hnew].
  { exists value. apply HI; auto. }
  split.
  - apply bt_insert_sorted, Hm.
  - intros k s v Hin. apply HI in Hin as [(-> & -> & ->)|[_ Hin]]; [done| |done]. by eapply wf_u64.
  - cbn [insert min_seq]. pose proof (wf_min m Hm) as Hmin. destruct (min_seq m) as [a|].
    + destruct Hmin as [(k0 & v0 & Ha) Hle]. split.
      * destruct (Z.min_spec a seq) as [[? ->]|[? ->]]; [|by eauto].
        exists k0, v0. apply HI; [done|]. right. split; [|done]. intros [= -> ->]. lia.
      * intros k s v Hin. apply HI in Hin as [(-> & -> & ->)|[_ Hin]]; [lia| |done]. specialize (Hle _ _ _ Hin). lia.
    + split; [by eauto|]. intros k s v Hin. apply HI in Hin as [(-> & -> & ->)|[_ Hin]]; [lia| |done].
      by rewrite Hmin in Hin.
  - cbn [insert max_seq]. pose proof (wf_max m Hm) as Hmax. destruct (max_seq m) as [b|].
    + destruct Hmax as [(k0 & v0 & Hb) Hle]. split.
      * destruct (Z.max_spec b seq) as [[? ->]|[? ->]]; [by eauto|].
        destruct (decide ((k0, b) = (key, seq))) as [[= -> ->]|Hne]; [by eauto|].
        exists k0, v0. apply HI; [done|]. by right.
      * intros k s v Hin. apply HI in Hin as [(-> & -> & ->)|[_ Hin]]; [lia| |done]. specialize (Hle _ _ _ Hin). lia.
    + split; [by eauto|]. intros k s v Hin. apply HI in Hin as [(-> & -> & ->)|[_ Hin]]; [lia| |done].
      by rewrite Hmax in Hin.
Qed.

(** ** Lookup *)

Lemma get_as_of_no_panic (key : bytes) as_of :
  0 <= as_of -> range_panics (Included (key, 0)) (Included (key, as_of)) = false.
Proof.
  intros. unfold range_panics, ltb. rewrite cmp_pair, cmp_refl. unfold cmp, Z_ord.
  destruct (Z.compare_spec as_of 0); [done|lia|done].
Qed.

Lemma key_interval (key k : bytes) (s as_of : Z) :
  0 <= s ->
  (above (Included (key, 0)) (k, s) && below (Included (key, as_of)) (k, s))%bool = true <->
  k = key /\ s <= as_of.
Proof.
  intros Hs. simpl. rewrite andb_true_iff, !leb_le, !cmp_pair, (cmp_opp key k).
  destruct (cmp key k) eqn:E; simpl; try (split; [intros []; done|intros [-> _]; by rewrite cmp_refl in E]).
  apply cmp_eq in E as ->. change (cmp 0 s) with (0 ?= s). change (cmp s as_of) with (s ?= as_of).
  destruct (Z.compare_spec 0 s), (Z.compare_spec s as_of); simpl; naive_solver lia.
Qed.

Lemma get_as_of_Some m key as_of seq value :
  wf m -> 0 <= as_of ->
  get_as_of m key as_of = Some (seq, value) <->
    In ((key, seq), value) (map m) /\ seq <= as_of /\
    (forall s v, In ((key, s), v) (map m) -> s <= as_of -> s <= seq).
Proof.
  intros Hm Ha. unfold get_as_of, bt_range. rewrite get_as_of_no_panic by done. simpl mbind.
  set (r := List.filter _ (map m)).
  assert (forall k s v, In ((k, s), v) r <-> In ((k, s), v) (map m) /\ k = key /\ s <= as_of) as Hr.
  { intros k s v. unfold r. rewrite filter_In. simpl fst. split.
    - intros [Hin Hb]. split; [done|]. apply key_interval in Hb; [done|]. apply (wf_u64 m Hm _ _ _ Hin).
    - intros [Hin Hb]. split; [done|]. apply key_interval; [|done]. apply (wf_u64 m Hm _ _ _ Hin). }
  assert (bt_sorted r) as Hsr by (apply StronglySorted_filter, Hm).
  destruct (last r) as [[[k0 s0] v0]|] eqn:El; simpl.
  - pose proof (bt_last_In _ _ El) as Hl. apply Hr in Hl as (Hl & -> & Hle).
    assert (forall s v, In ((key, s), v) (map m) -> s <= as_of -> s <= s0) as Hmax.
    { intros s v Hin Hs. destruct (bt_last_max r ((key, s0), v0) ((key, s), v)) as [[= -> ->]|Hlt]; [done..| |lia|].
      - by apply Hr.
      - simpl fst in Hlt. rewrite cmp_pair, cmp_refl, cmp_Z_lt in Hlt. lia. }
    split.
    + intros [= <- <-]. auto.
    + intros (Hin & Hs & Hmx). assert (seq = s0) as -> by (apply Z.le_antisymm; eauto).
      pose proof (bt_sorted_key_inj (map m) ((key, s0), value) ((key, s0), v0) (wf_sorted m Hm) Hin Hl eq_refl).
      naive_solver.
  - split; [done|]. intros (Hin & Hs & _). assert (In ((key, seq), value) r) as Hin' by (by apply Hr).
    apply last_None in El. by rewrite El in Hin'.
Qed.

Lemma get_as_of_None m key as_of :
  wf m -> 0 <= as_of ->
  get_as_of m key as_of = None <-> forall s v, In ((key, s), v) (map m) -> as_of < s.
Proof.
  intros Hm Ha. unfold get_as_of, bt_range. rewrite get_as_of_no_panic by done. simpl mbind.
  match goal with |- context [List.filter ?f (map m)] => set (r := List.filter f (map m)) end.
  destruct (last r) as [[[k0 s0] v0]|] eqn:El; simpl; split; try done.
  - intros Hall. exfalso. pose proof (bt_last_In _ _ El) as Hl. unfold r in Hl. apply filter_In in Hl as [Hin Hb].
    simpl fst in Hb. apply key_interval in Hb as [-> ?]; [|apply (wf_u64 m Hm _ _ _ Hin)].
    specialize (Hall _ _ Hin). lia.
  - intros _ s v Hin. apply last_None in El. destruct (Z.lt_ge_cases as_of s) as [|Hge]; [done|]. exfalso.
    assert (In ((key, s), v) r) as Hr; [|by rewrite El in Hr].
    unfold r. apply filter_In. split; [done|]. apply key_interval; [|done]. apply (wf_u64 m Hm _ _ _ Hin).
Qed.

(** ** Theorems *)

Lemma get_as_of_after_insert m key seq value k as_of :
  wf m -> is_u64 seq -> 0 <= as_of ->
  get_as_of (insert m key seq value) k as_of =
    if eqb k key && (seq <=? as_of) &&
       match get_as_of m key as_of with Some (s, _) => s <=? seq | None => true end
    then Some (seq, value)
    else get_as_of m k as_of.
Proof.
  intros Hm Hs Ha. pose proof (insert_wf m key seq value Hm Hs) as Hm'.
  pose proof (fun k s v => In_insert m key seq value k s v Hm) as HI.
  destruct (eqb k key && (seq <=? as_of) && _)%bool eqn:E.
  - bool_to_prop. match goal with H : eqb k key = true |- _ => apply eqb_eq in H as -> end.
    apply get_as_of_Some; [done..|]. split_and!; [apply HI; auto|done|].
    intros s v [(_ & -> & _)|[_ Hin]]%HI Hle; [lia|].
    destruct (get_as_of m key as_of) as [[s0 v0]|] eqn:Eg.
    + apply get_as_of_Some in Eg as (_ & _ & Hmax); [|done..]. bool_to_prop. specialize (Hmax _ _ Hin Hle). lia.
    + pose proof (proj1 (get_as_of_None m key as_of Hm Ha) Eg _ _ Hin). lia.
  - destruct (get_as_of m k as_of) as [[s v]|] eqn:Eg.
    + pose proof Eg as Eg'. apply get_as_of_Some in Eg as (Hin & Hle & Hmax); [|done..].
      apply get_as_of_Some; [done..|]. split_and!; [|done|].
      * apply HI. right. split; [|done]. intros [= -> ->].
        rewrite (proj2 (eqb_eq key key) eq_refl), Eg' in E. simpl in E. rewrite Z.leb_refl, andb_true_r in E.
        bool_to_prop. lia.
      * intros s' v' [(-> & -> & _)|[_ Hin']]%HI Hle'; [|by eauto].
        rewrite (proj2 (eqb_eq key key) eq_refl), Eg' in E. simpl in E.
        rewrite (proj2 (Z.leb_le seq as_of)) in E by done. simpl in E. bool_to_prop. lia.
    + pose proof Eg as Eg'. rewrite get_as_of_None in Eg |- * by done.
      intros s' v' [(-> & -> & _)|[_ Hin']]%HI; [|by eauto].
      rewrite (proj2 (eqb_eq key key) eq_refl), Eg' in E. simpl in E. rewrite andb_true_r in E. bool_to_prop. lia.
Qed.

(** The multi-version read after one insert, on every branch: the inserted version answers a read of its key
    exactly when it is visible at [as_of_seq] and no newer visible version exists; every other read is unchanged. *)
Theorem get_as_of_insert m key seq value k as_of :
  wf m -> is_u64 seq -> 0 <= as_of ->
  get_as_of (insert m key seq value) k as_of =
    if eqb k key && (seq <=? as_of) &&
       match get_as_of m key as_of with Some (s, _) => s <=? seq | None => true end
    then Some (seq, value)
    else get_as_of m k as_of.
Proof. apply get_as_of_after_insert. Qed.

(** [insert] keeps the memtable well formed, so [min_seq] and [max_seq] stay exact; and [size_bytes] grows by
    exactly the entry's accounted size. *)
Theorem insert_preserves m key seq value :
  wf m -> is_u64 seq ->
  wf (insert m key seq value) /\
  size_bytes (insert m key seq value) = size_bytes m + (zlen key + payload_len value + 32) /\
  match seq_range (insert m key seq value) with
  | Some (a, b) => a <= seq <= b /\ forall k s v, In ((k, s), v) (map (insert m key seq value)) -> a <= s <= b
  | None => False
  end.
Proof.
  intros Hm Hs. pose proof (insert_wf m key seq value Hm Hs) as Hw. split; [done|]. split; [done|].
  pose proof (wf_min _ Hw) as [_ Hmin]. pose proof (wf_max _ Hw) as [_ Hmax].
  assert (In ((key, seq), value) (map (insert m key seq value))) as Hin.
  { apply In_insert; auto. }
  unfold seq_range. cbn [insert min_seq max_seq] in *. split.
  - split; [eapply Hmin, Hin|eapply Hmax, Hin].
  - intros k s v Hi. split; [eapply Hmin, Hi|eapply Hmax, Hi].
Qed.

Lemma range_panics_tuple lo hi :
  range_panics (bound_to_tuple_start lo) (bound_to_tuple_end hi) = range_panics lo hi.
Proof.
  destruct lo as [a|a|], hi as [b|b|]; try done; unfold bound_to_tuple_start, bound_to_tuple_end, range_panics, ltb, leb;
    rewrite cmp_pair; by destruct (cmp b a).
Qed.

Lemma above_tuple lo k s : is_u64 s -> above (bound_to_tuple_start lo) (k, s) = above lo k.
Proof.
  intros Hs. destruct lo as [a|a|]; try done; simpl; unfold leb, ltb; rewrite cmp_pair; destruct (cmp a k); try done.
  - unfold cmp, Z_ord. destruct (Z.compare_spec 0 s); unfold_ints; [done..|lia].
  - unfold cmp, Z_ord. destruct (Z.compare_spec u64_max s); unfold_ints; [done|lia|done].
Qed.

Lemma below_tuple hi k s : is_u64 s -> below (bound_to_tuple_end hi) (k, s) = below hi k.
Proof.
  intros Hs. destruct hi as [b|b|]; try done; simpl; unfold leb, ltb; rewrite cmp_pair; destruct (cmp k b); try done.
  - unfold cmp, Z_ord. destruct (Z.compare_spec s u64_max); unfold_ints; [done..|lia].
  - unfold cmp, Z_ord. destruct (Z.compare_spec s 0); unfold_ints; [done|lia|done].
Qed.

(** A key range selects exactly the versions of the keys inside the bounds, all of them: an excluded boundary
    key contributes no version at all, an included one every version; the call panics exactly on a decreasing key
    range, as [BTreeMap::range] does. *)
Theorem range_spec m lo hi :
  wf m ->
  range m lo hi =
    if range_panics lo hi then None
    else Some (List.filter (fun e => above lo e.1.1 && below hi e.1.1) (map m)).
Proof.
  intros Hm. unfold range, bt_range. rewrite range_panics_tuple. destruct (range_panics lo hi); [done|]. f_equal.
  apply filter_ext_in. intros [[k s] v] Hin. pose proof (wf_u64 m Hm _ _ _ Hin). simpl fst.
  by rewrite above_tuple, below_tuple.
Qed.

(** ** Replaying a log *)

(** One logged version: key, sequence number, value or tombstone. *)
Definition version : Type := bytes * Z * MemtableValue.

Definition apply_version (m : MemTable) (e : version) : MemTable := insert m e.1.1 e.1.2 e.2.

Definition replay (m : MemTable) (log : list version) : MemTable := fold_left apply_version log m.

(** The abstract answer: the last version of [key] in log order that [as_of] may see. *)
Definition visible (log : list version) (key : bytes) (as_of : Z) : option (Z * MemtableValue) :=
  e ← last (List.filter (fun e => eqb e.1.1 key && (e.1.2 <=? as_of)) log);
  Some (e.1.2, e.2).

(** Logged sequence numbers are [u64]s and never decrease (members of one group share theirs). *)
Definition log_ordered (log : list version) : Prop :=
  Forall (fun e => is_u64 e.1.2) log /\ StronglySorted (fun a b => a.1.2 <= b.1.2) log.

(** The accounted size of a log. *)
Definition log_size (log : list version) : Z := fold_right (fun e n => entry_size e.1.1 e.2 + n) 0 log.

Lemma log_size_snoc log e : log_size (log ++ [e]) = log_size log + entry_size e.1.1 e.2.
Proof. unfold log_size. induction log as [|x log IH]; simpl; lia. Qed.

Lemma log_ordered_snoc log e :
  log_ordered (log ++ [e]) ->
  log_ordered log /\ is_u64 e.1.2 /\ forall e', In e' log -> e'.1.2 <= e.1.2.
Proof.
  intros [Hu Hs]. rewrite Forall_app, Forall_singleton in Hu. destruct Hu as [Hu He].
  split_and!; [split; [done|]|done|].
  - clear -Hs. induction log as [|a log IH]; [constructor|].
    apply StronglySorted_inv in Hs as [Hs Hall]. constructor; [by apply IH|].
    by apply Forall_app in Hall as [? _].
  - clear -Hs. induction log as [|a log IH]; [done|].
    apply StronglySorted_inv in Hs as [Hs Hall]. intros e' [<-|Hin]; [|by apply IH].
    apply Forall_app in Hall as [_ Hall]. by rewrite Forall_singleton in Hall.
Qed.

Lemma visible_snoc log e key as_of :
  visible (log ++ [e]) key as_of =
    if eqb e.1.1 key && (e.1.2 <=? as_of) then Some (e.1.2, e.2) else visible log key as_of.
Proof.
  unfold visible. rewrite List.filter_app. simpl. destruct (eqb e.1.1 key && (e.1.2 <=? as_of))%bool.
  - by rewrite last_snoc.
  - by rewrite app_nil_r.
Qed.

Lemma visible_In log key as_of s v :
  visible log key as_of = Some (s, v) -> In (key, s, v) log /\ s <= as_of.
Proof.
  unfold visible. destruct (last _) as [[[k0 s0] v0]|] eqn:El; simpl; [|done]. intros [= <- <-].
  apply bt_last_In, filter_In in El as [Hin Hb]. simpl in Hb. bool_to_prop.
  match goal with H : eqb k0 key = true |- _ => apply eqb_eq in H as -> end. done.
Qed.

(** C17: replaying a log of writes into an empty memtable implements the abstract multi-version store: at every key
    and every snapshot the memtable answers with the last visible write of the log, and the table is well formed
    with a size equal to the sum of the entry sizes. *)
Theorem replay_refines max_size log key as_of :
  log_ordered log -> 0 <= as_of ->
  let m := replay (new max_size) log in
  wf m /\ get_as_of m key as_of = visible log key as_of /\
  size_bytes m = log_size log.
Proof.
  intros Hlog Ha m. revert Hlog. unfold m, replay. induction log as [|e log IH] using rev_ind; intros Hlog.
  - split_and!; [apply new_wf| |done]. change (visible [] key as_of) with (@None (Z * MemtableValue)).
    apply get_as_of_None; [apply new_wf|done|]. by intros s v [].
  - apply log_ordered_snoc in Hlog as (Hlog & Hu & Hle). destruct (IH Hlog) as (Hm & Hg & Hsz).
    rewrite fold_left_app. simpl. unfold apply_version at 1 2 3.
    set (m0 := fold_left apply_version log (new max_size)) in *.
    split_and!.
    + by apply insert_wf.
    + rewrite get_as_of_after_insert by done. rewrite visible_snoc. destruct (eqb e.1.1 key) eqn:Ek.
      * apply eqb_eq in Ek. subst key. rewrite Hg, (proj2 (eqb_eq e.1.1 e.1.1) eq_refl).
        destruct (Z.leb_spec e.1.2 as_of); simpl; [|done].
        destruct (visible log e.1.1 as_of) as [[s v]|] eqn:Ev; [|done].
        apply visible_In in Ev as [Hin _]. specialize (Hle _ Hin). simpl in Hle. by cmp_lia.
      * destruct (eqb key e.1.1) eqn:Ek2; [|done]. apply eqb_eq in Ek2 as ->.
        by rewrite (proj2 (eqb_eq e.1.1 e.1.1) eq_refl) in Ek.
    + cbn [insert size_bytes]. by rewrite log_size_snoc, Hsz.
Qed.

(** ** Witnesses *)

Definition demo_log : list version :=
  [([x61], 1, MPut [x31]); ([x62], 2, MPut [x32]); ([x61], 2, MTombstone); ([x61], 5, MPut [x33])].

Definition demo_table : MemTable := replay (new 1024) demo_log.

Lemma demo_wf : wf demo_table.
Proof. unfold demo_table, replay. simpl. repeat apply insert_wf; first [apply new_wf | by_eval]. Qed.

Lemma get_as_of_insert_witness :
  get_as_of (insert demo_table [x61] 3 MTombstone) [x61] 4 =
    if eqb [x61] [x61] && (3 <=? 4) &&
       match get_as_of demo_table [x61] 4 with Some (s, _) => s <=? 3 | None => true end
    then Some (3, MTombstone) else get_as_of demo_table [x61] 4.
Proof. apply (get_as_of_insert demo_table [x61] 3 MTombstone [x61] 4); [apply demo_wf|by_eval..]. Defined.

Lemma insert_preserves_witness :
  wf (insert demo_table [x63] 9 (MPut [x34])) /\
  size_bytes (insert demo_table [x63] 9 (MPut [x34])) = size_bytes demo_table + 34.
Proof.
  destruct (insert_preserves demo_table [x63] 9 (MPut [x34])) as (Hw & Hs & _); [apply demo_wf|by_eval|].
  split; assumption.
Defined.

Lemma range_spec_witness :
  range demo_table (Excluded [x61]) Unbounded =
    if range_panics (Excluded [x61]) Unbounded then None
    else Some (List.filter (fun e => above (Excluded [x61]) e.1.1 && below Unbounded e.1.1) (map demo_table)).
Proof. apply (range_spec demo_table (Excluded [x61]) Unbounded). apply demo_wf. Defined.

Lemma replay_refines_witness :
  log_ordered demo_log /\ get_as_of demo_table [x61] 4 = visible demo_log [x61] 4.
Proof.
  assert (log_ordered demo_log) as Hl.
  { split; repeat constructor; simpl; try by_eval; lia. }
  split; [exact Hl|]. apply (replay_refines 1024 demo_log [x61] 4); [exact Hl|by_eval].
Defined.

End Mem.
