(* ===== verification/ManifestLog.v ===== *)
(** * The manifest ([src/src/manifest/])

    [format.rs]: the three edits and their frames.  [state.rs]: the state an edit sequence builds.  [recovery.rs]:
    [replay], the frame walk with its torn-tail and lost-sector rules.  [mod.rs]: the open [Manifest] with
    [append_sync] and its rollback.  A file is its bytes and a cursor; what the operating system answers to each
    call of an append is an [IoAnswers] record, so every failure the code handles is a value of the model. *)

From stdpp Require Import base list option strings sorting.
From Stdlib Require Import ZArith Lia.
From Stdlib Require Import Strings.Byte.
From S2P Require Import Prelude BTree EngineError Checksum WalFormat WalRecovery.

Module Manifest.

(** ** [format.rs] *)

Definition EDIT_ADD_SSTABLE : byte := x01.
Definition EDIT_REMOVE_SSTABLE : byte := x02.
Definition EDIT_SET_CHECKPOINT : byte := x03.

Inductive ManifestEdit : Type :=
| AddSstable (id min_seq max_seq file_size : Z)
| RemoveSstable (id : Z)
| SetCheckpoint (flushed_through_seq wal_segment_id wal_offset : Z).

Definition encode_body (edit : ManifestEdit) : bytes :=
  match edit with
  | AddSstable id min_seq max_seq file_size =>
      [EDIT_ADD_SSTABLE] ++ le64 id ++ le64 min_seq ++ le64 max_seq ++ le64 file_size
  | RemoveSstable id => [EDIT_REMOVE_SSTABLE] ++ le64 id
  | SetCheckpoint flushed_through_seq wal_segment_id wal_offset =>
      [EDIT_SET_CHECKPOINT] ++ le64 flushed_through_seq ++ le64 wal_segment_id ++ le64 wal_offset
  end.

Definition manifest_frame `{Crc32c} (edit : ManifestEdit) : bytes :=
  let body := encode_body edit in
  le32 (zlen body) ++ le32 (crc32c body) ++ body.

(** [buf[pos..pos + 8]], in range at every call. *)
Definition read_u64 (buf : bytes) (pos : Z) : Z := le_val (ztake 8 (zdrop pos buf)).

Definition decode_body (body : bytes) : res ManifestEdit :=
  match body with
  | [] => Err (Corruption "manifest edit: empty body (missing edit_type)")
  | edit_type :: _ =>
      if eqb edit_type EDIT_ADD_SSTABLE then
        if negb (zlen body =? 33) then Err (Corruption "manifest edit: ADD_SSTABLE body must be 33 bytes")
        else
          let id := read_u64 body 1 in
          let min_seq := read_u64 body 9 in
          let max_seq := read_u64 body 17 in
          let file_size := read_u64 body 25 in
          if max_seq <? min_seq then Err (Corruption "manifest edit: ADD_SSTABLE has min_seq > max_seq")
          else Ok (AddSstable id min_seq max_seq file_size)
      else if eqb edit_type EDIT_REMOVE_SSTABLE then
        if negb (zlen body =? 9) then Err (Corruption "manifest edit: REMOVE_SSTABLE body must be 9 bytes")
        else Ok (RemoveSstable (read_u64 body 1))
      else if eqb edit_type EDIT_SET_CHECKPOINT then
        if negb (zlen body =? 25) then Err (Corruption "manifest edit: SET_CHECKPOINT body must be 25 bytes")
        else Ok (SetCheckpoint (read_u64 body 1) (read_u64 body 9) (read_u64 body 17))
      else Err (Corruption "manifest edit: unknown edit_type byte")
  end.

(** ** [state.rs] *)

Record SstableManifestEntry : Type := {
  e_min_seq : Z;
  e_max_seq : Z;
  e_file_size : Z
}.

Record CheckpointState : Type := {
  flushed_through_seq : Z;
  wal_segment_id : Z;
  wal_offset : Z
}.

Record ManifestState : Type := {
  live_sstables : list (Z * SstableManifestEntry);
  ever_added : list (Z * unit);
  checkpoint : option CheckpointState
}.

Definition state_new : ManifestState :=
  {| live_sstables := []; ever_added := []; checkpoint := None |}.

Definition checkpoint_seq (st : ManifestState) : Z :=
  match checkpoint st with None => 0 | Some c => flushed_through_seq c end.

(** The [HashSet<u64>] is only ever asked for membership: an ordered map to [unit]. *)
Definition apply (st : ManifestState) (edit : ManifestEdit) : res ManifestState :=
  match edit with
  | AddSstable id min_seq max_seq file_size =>
      Ok {| live_sstables :=
              bt_or_insert id {| e_min_seq := min_seq; e_max_seq := max_seq; e_file_size := file_size |}
                (live_sstables st);
            ever_added := bt_insert id tt (ever_added st);
            checkpoint := checkpoint st |}
  | RemoveSstable id =>
      match bt_get id (ever_added st) with
      | None => Err (Corruption "manifest: REMOVE_SSTABLE for id that was never ADD_SSTABLE'd")
      | Some _ =>
          Ok {| live_sstables := bt_remove id (live_sstables st);
                ever_added := ever_added st;
                checkpoint := checkpoint st |}
      end
  | SetCheckpoint f seg off =>
      let next :=
        {| live_sstables := live_sstables st;
           ever_added := ever_added st;
           checkpoint := Some {| flushed_through_seq := f; wal_segment_id := seg; wal_offset := off |} |} in
      match checkpoint st with
      | Some current =>
          if f <? flushed_through_seq current then Err (Corruption "manifest: SET_CHECKPOINT regression")
          else Ok next
      | None => Ok next
      end
  end.

(** ** [recovery.rs] *)

Definition MAX_EDIT_BODY_LEN : Z := 64.

Record ManifestReplayResult : Type := {
  state : ManifestState;
  valid_length : Z;
  truncated : bool;
  edit_count : Z;
  last_edit : option ManifestEdit
}.

(** [try_read_exact] on a reader positioned at [pos]: [None] is [ReadOutcome::Short]. *)
Definition try_read_exact (file : bytes) (pos n : Z) : option bytes :=
  if pos + n <=? zlen file then Some (ztake n (zdrop pos file)) else None.

(** [rest_is_zero]: 4096 bytes at a time; a short read answers [false].  [None] is "out of fuel". *)
Fixpoint rest_is_zero (fuel : nat) (file : bytes) (pos left : Z) : option bool :=
  if left <=? 0 then Some true
  else
    match fuel with
    | O => None
    | S fuel =>
        let want := Z.min left 4096 in
        match try_read_exact file pos want with
        | None => Some false
        | Some buf =>
            if forallb is_zero buf then rest_is_zero fuel file (pos + want) (left - want) else Some false
        end
    end.

Section Replay.
Context `{Crc32c}.

(** The [while p + FRAME_HEADER_LEN < tail.len()] scan; [t] is [&tail[p..]]. *)
Fixpoint scan_edits_behind_hole (t : bytes) : bool :=
  match t with
  | [] => true
  | _ :: t' =>
      if FRAME_HEADER_LEN <? zlen t then
        let length := le_val (ztake 4 t) in
        if (0 <? length) && (length <=? MAX_EDIT_BODY_LEN) && (FRAME_HEADER_LEN + length <=? zlen t) then
          let stored := le_val (ztake 4 (zdrop 4 t)) in
          let body := ztake length (zdrop FRAME_HEADER_LEN t) in
          if (crc32c body =? stored) && is_ok (decode_body body) then false else scan_edits_behind_hole t'
        else scan_edits_behind_hole t'
      else true
  end.

Definition lost_first_sector_edit (file : bytes) (pos file_len : Z) : bool :=
  let tail_len := saturating_sub file_len pos in
  if FRAME_HEADER_LEN + MAX_EDIT_BODY_LEN <? tail_len then false
  else
    let zero_end := (pos / LOST_SECTOR_GRANULE + 1) * LOST_SECTOR_GRANULE in
    if file_len <=? zero_end then false
    else
      let tail := ztake tail_len (zdrop pos file) in
      let hole := zero_end - pos in
      if negb (forallb is_zero (ztake hole tail)) then false
      else scan_edits_behind_hole (zdrop hole tail).

Definition replay_end (st : ManifestState) (pos count : Z) (last : option ManifestEdit) (torn : bool) :
    ManifestReplayResult :=
  {| state := st; valid_length := pos; truncated := torn; edit_count := count; last_edit := last |}.

Fixpoint replay_loop (fuel : nat) (file : bytes) (pos : Z) (st : ManifestState) (count : Z)
    (last : option ManifestEdit) : option (res ManifestReplayResult) :=
  match fuel with
  | O => None
  | S fuel =>
      let file_len := zlen file in
      let torn := Some (Ok (replay_end st pos count last true)) in
      if file_len <=? pos then Some (Ok (replay_end st pos count last false))
      else
        match try_read_exact file pos FRAME_HEADER_LEN with
        | None => torn
        | Some header =>
            match
              (if bool_decide (header = replicate 8 x00)
               then rest_is_zero (S (length file)) file (pos + FRAME_HEADER_LEN)
                      (file_len - pos - FRAME_HEADER_LEN)
               else Some false)
            with
            | None => None
            | Some true => torn
            | Some false =>
                let length := le_val (ztake 4 header) in
                let stored_crc := le_val (ztake 4 (zdrop 4 header)) in
                if MAX_EDIT_BODY_LEN <? length then
                  if lost_first_sector_edit file pos file_len then torn
                  else Some (Err (Corruption "manifest: frame declares an implausible body length"))
                else
                  match try_read_exact file (pos + FRAME_HEADER_LEN) length with
                  | None => torn
                  | Some body =>
                      let frame_end := pos + FRAME_HEADER_LEN + length in
                      if negb (crc32c body =? stored_crc) then
                        if frame_end =? file_len then torn
                        else if lost_first_sector_edit file pos file_len then torn
                        else Some (Err (Corruption "manifest: checksum mismatch (not the trailing frame)"))
                      else
                        match decode_body body with
                        | Err e =>
                            if lost_first_sector_edit file pos file_len then torn else Some (Err e)
                        | Ok edit =>
                            match apply st edit with
                            | Err e => Some (Err e)
                            | Ok st' => replay_loop fuel file frame_end st' (count + 1) (Some edit)
                            end
                        end
                  end
            end
        end
  end.

Definition replay (file : bytes) : option (res ManifestReplayResult) :=
  replay_loop (S (length file)) file 0 state_new 0 None.

(** ** [mod.rs] *)

Record OpenManifest : Type := {
  content : bytes;
  cursor : Z;
  len : Z;
  poisoned : bool;
  record_count : Z;
  m_last_edit : option ManifestEdit
}.

(** What the operating system answers during one [append_sync]: how many bytes of a failing [write_all] reached the
    file ([None]: all of them, successfully), and whether each later call succeeds. *)
Record IoAnswers : Type := {
  write_fails_after : option Z;
  set_len_ok : bool;
  seek_ok : bool;
  rollback_sync_ok : bool;
  sync_ok : bool
}.

Definition all_ok : IoAnswers :=
  {| write_fails_after := None; set_len_ok := true; seek_ok := true; rollback_sync_ok := true; sync_ok := true |}.

(** [write_all] at the cursor overwrites and extends. *)
Definition write_at (file : bytes) (pos : Z) (data : bytes) : bytes :=
  ztake pos file ++ data ++ zdrop (pos + zlen data) file.

Definition io_other : EngineError := Io (IoError KOther None).

(** [Manifest::append_sync].  The rollback is [set_len], then [seek], then [sync_all], each only if the one before
    succeeded. *)
Definition append_sync (m : OpenManifest) (edit : ManifestEdit) (io : IoAnswers) : OpenManifest * res unit :=
  if poisoned m then (m, Err io_other)
  else
    let frame := manifest_frame edit in
    match write_fails_after io with
    | Some n =>
        let written := write_at (content m) (cursor m) (ztake n frame) in
        let cursor' := cursor m + zlen (ztake n frame) in
        let content' := if set_len_ok io then ztake (len m) written else written in
        let cursor'' := if set_len_ok io && seek_ok io then len m else cursor' in
        let rolled_back := set_len_ok io && seek_ok io && rollback_sync_ok io in
        ({| content := content'; cursor := cursor''; len := len m; poisoned := negb rolled_back;
            record_count := record_count m; m_last_edit := m_last_edit m |}, Err io_other)
    | None =>
        let content' := write_at (content m) (cursor m) frame in
        let cursor' := cursor m + zlen frame in
        if negb (sync_ok io) then
          ({| content := content'; cursor := cursor'; len := len m; poisoned := false;
              record_count := record_count m; m_last_edit := m_last_edit m |}, Err io_other)
        else
          ({| content := content'; cursor := cursor'; len := len m + zlen frame; poisoned := false;
              record_count := record_count m + 1; m_last_edit := Some edit |}, Ok tt)
    end.

(** [Manifest::open_after_exclusive_lock] on a file that could be opened. *)
Definition open_after_exclusive_lock (file : bytes) : option (res (OpenManifest * ManifestReplayResult)) :=
  match replay file with
  | None => None
  | Some (Err e) => Some (Err e)
  | Some (Ok r) =>
      let file' := if truncated r then ztake (valid_length r) file else file in
      Some (Ok ({| content := file'; cursor := valid_length r; len := valid_length r; poisoned := false;
                   record_count := edit_count r; m_last_edit := last_edit r |}, r))
  end.
End Replay.

(** ** Edits and bytes *)

Definition valid_edit (e : ManifestEdit) : Prop :=
  match e with
  | AddSstable id min_seq max_seq file_size =>
      is_u64 id /\ is_u64 min_seq /\ is_u64 max_seq /\ is_u64 file_size /\ min_seq <= max_seq
  | RemoveSstable id => is_u64 id
  | SetCheckpoint f seg off => is_u64 f /\ is_u64 seg /\ is_u64 off
  end.

Lemma read_u64_app pre z post pos :
  pos = zlen pre -> is_u64 z -> read_u64 (pre ++ le64 z ++ post) pos = z.
Proof.
  intros -> Hz. unfold read_u64. rewrite zdrop_app, ztake_app' by zlen. by apply le_val_64.
Qed.

Lemma read_u64_split (l : bytes) pos nxt :
  0 <= pos -> nxt = pos + 8 -> nxt <= zlen l ->
  is_u64 (read_u64 l pos) /\ zdrop pos l = le64 (read_u64 l pos) ++ zdrop nxt l.
Proof.
  intros Hp -> Hl. unfold read_u64. assert (zlen (ztake 8 (zdrop pos l)) = 8) as H8.
  { rewrite zlen_ztake; [done|]. rewrite zlen_zdrop; lia. }
  split; [by apply le_val_u64|].
  rewrite <- zdrop_zdrop by lia. rewrite <- (ztake_zdrop 8 (zdrop pos l)) at 1. f_equal.
  rewrite <- (le_bytes_val (ztake 8 (zdrop pos l))) at 1. f_equal. lia.
Qed.

Lemma decode_encode_body e : valid_edit e -> decode_body (encode_body e) = Ok e.
Proof.
  destruct e as [id a b f|id|f seg off]; intros Hv.
  - destruct Hv as (H1 & H2 & H3 & H4 & Hle). unfold decode_body, encode_body.
    change (eqb EDIT_ADD_SSTABLE EDIT_ADD_SSTABLE) with true. cbn [app].
    set (body := EDIT_ADD_SSTABLE :: _).
    assert (zlen body = 33) as -> by (unfold body; zlen).
    cbn [negb Z.eqb Pos.eqb].
    assert (read_u64 body 1 = id) as -> by (by apply (read_u64_app [EDIT_ADD_SSTABLE])).
    assert (read_u64 body 9 = a) as ->.
    { apply (read_u64_app ([EDIT_ADD_SSTABLE] ++ le64 id)); [zlen|done]. }
    assert (read_u64 body 17 = b) as ->.
    { unfold body. rewrite !app_comm_cons, !app_assoc, <- (app_assoc _ (le64 b)). apply read_u64_app; [zlen|done]. }
    assert (read_u64 body 25 = f) as ->.
    { unfold body. rewrite !app_comm_cons, !app_assoc, <- (app_nil_r (_ ++ le64 f)), <- app_assoc.
      apply read_u64_app; [zlen|done]. }
    by cmp_lia.
  - simpl in Hv. unfold decode_body, encode_body.
    change (eqb EDIT_REMOVE_SSTABLE EDIT_ADD_SSTABLE) with false.
    change (eqb EDIT_REMOVE_SSTABLE EDIT_REMOVE_SSTABLE) with true. cbn [app].
    replace (zlen (EDIT_REMOVE_SSTABLE :: le64 id)) with 9 by zlen. cbn [negb Z.eqb Pos.eqb].
    do 2 f_equal. rewrite <- (app_nil_r (le64 id)). by apply (read_u64_app [EDIT_REMOVE_SSTABLE]).
  - destruct Hv as (H1 & H2 & H3). unfold decode_body, encode_body.
    change (eqb EDIT_SET_CHECKPOINT EDIT_ADD_SSTABLE) with false.
    change (eqb EDIT_SET_CHECKPOINT EDIT_REMOVE_SSTABLE) with false.
    change (eqb EDIT_SET_CHECKPOINT EDIT_SET_CHECKPOINT) with true. cbn [app].
    set (body := EDIT_SET_CHECKPOINT :: _).
    assert (zlen body = 25) as -> by (unfold body; zlen). cbn [negb Z.eqb Pos.eqb].
    assert (read_u64 body 1 = f) as -> by (by apply (read_u64_app [EDIT_SET_CHECKPOINT])).
    assert (read_u64 body 9 = seg) as ->.
    { apply (read_u64_app ([EDIT_SET_CHECKPOINT] ++ le64 f)); [zlen|done]. }
    assert (read_u64 body 17 = off) as ->; [|done].
    unfold body. rewrite !app_comm_cons, !app_assoc, <- (app_nil_r (_ ++ le64 off)), <- app_assoc.
    apply read_u64_app; [zlen|done].
Qed.

Lemma decode_body_inv body e : decode_body body = Ok e -> body = encode_body e /\ valid_edit e.
Proof.
  assert (forall (l : bytes) n, zlen l = n -> zdrop n l = []) as Hnil.
  { intros l n <-. apply zdrop_all'. lia. }
  unfold decode_body. destruct body as [|t rest] eqn:Eb; [done|]. rewrite <- Eb.
  assert (body = [t] ++ zdrop 1 body) as Hb by (by rewrite Eb).
  destruct (eqb t EDIT_ADD_SSTABLE) eqn:E1; [apply eqb_eq in E1 as ->|
    destruct (eqb t EDIT_REMOVE_SSTABLE) eqn:E2; [apply eqb_eq in E2 as ->|
      destruct (eqb t EDIT_SET_CHECKPOINT) eqn:E3; [apply eqb_eq in E3 as ->|done]]].
  - destruct (Z.eqb_spec (zlen body) 33) as [Hl|]; [cbn [negb]|done].
    destruct (read_u64_split body 1 9) as [? Hd1]; [lia..|]. destruct (read_u64_split body 9 17) as [? Hd2]; [lia..|].
    destruct (read_u64_split body 17 25) as [? Hd3]; [lia..|]. destruct (read_u64_split body 25 33) as [? Hd4]; [lia..|].
    case_cmp; [done|]. intros [= <-]. split; [|simpl; split_and!; done || lia].
    rewrite Hb at 1. rewrite Hd1, Hd2, Hd3, Hd4. by rewrite (Hnil body 33), app_nil_r.
  - destruct (Z.eqb_spec (zlen body) 9) as [Hl|]; [cbn [negb]|done].
    destruct (read_u64_split body 1 9) as [? Hd1]; [lia..|]. intros [= <-]. split; [|done].
    rewrite Hb at 1. rewrite Hd1. by rewrite (Hnil body 9), app_nil_r.
  - destruct (Z.eqb_spec (zlen body) 25) as [Hl|]; [cbn [negb]|done].
    destruct (read_u64_split body 1 9) as [? Hd1]; [lia..|]. destruct (read_u64_split body 9 17) as [? Hd2]; [lia..|].
    destruct (read_u64_split body 17 25) as [? Hd3]; [lia..|]. intros [= <-]. split; [|done].
    rewrite Hb at 1. rewrite Hd1, Hd2, Hd3. by rewrite (Hnil body 25), app_nil_r.
Qed.

(** ** Replay *)

Fixpoint apply_all (st : ManifestState) (es : list ManifestEdit) : res ManifestState :=
  match es with
  | [] => Ok st
  | e :: es => let? st' := apply st e in apply_all st' es
  end.

Lemma apply_all_app st es es' :
  apply_all st (es ++ es') = let? st' := apply_all st es in apply_all st' es'.
Proof.
  revert st. induction es as [|e es IH]; intros st; simpl; [done|]. destruct (apply st e); [apply IH|done].
Qed.

Lemma apply_all_take st es st' k :
  apply_all st es = Ok st' -> exists st'', apply_all st (take k es) = Ok st''.
Proof.
  rewrite <- (take_drop k es) at 1. rewrite apply_all_app. destruct (apply_all st (take k es)); [eauto|done].
Qed.

Lemma rest_is_zero_spec fuel file pos left :
  0 <= pos -> 0 <= left -> pos + left <= zlen file -> (Z.to_nat left <= fuel)%nat ->
  rest_is_zero fuel file pos left = Some (forallb is_zero (ztake left (zdrop pos file))).
Proof.
  revert pos left. induction fuel as [|fuel IH]; intros pos left Hp Hl Hle Hf; simpl.
  - replace left with 0 by lia. done.
  - destruct (Z.leb_spec left 0); [by replace left with 0 by lia|].
    unfold try_read_exact. rewrite (proj2 (Z.leb_le _ _)) by lia.
    assert (ztake left (zdrop pos file) =
      ztake (Z.min left 4096) (zdrop pos file) ++
      ztake (left - Z.min left 4096) (zdrop (pos + Z.min left 4096) file)) as ->.
    { rewrite <- zdrop_zdrop by lia. apply ztake_split. lia. }
    rewrite forallb_app.
    destruct (forallb is_zero (ztake (Z.min left 4096) (zdrop pos file))); simpl; [|done].
    by rewrite IH by lia.
Qed.

Lemma zlen_encode_body e : 9 <= zlen (encode_body e) <= 33.
Proof. destruct e; unfold encode_body; zlen. Qed.

Section ReplaySpec.
Context `{Crc32c}.

Definition edit_frames (es : list ManifestEdit) : bytes := concat (map manifest_frame es).

Lemma edit_frames_cons e es : edit_frames (e :: es) = manifest_frame e ++ edit_frames es.
Proof. done. Qed.

Lemma zlen_manifest_frame e : zlen (manifest_frame e) = 8 + zlen (encode_body e).
Proof. apply zlen_frame_of. Qed.

Lemma zlen_edit_frames es : zlen es <= zlen (edit_frames es).
Proof.
  induction es as [|e es IH]; [done|]. rewrite edit_frames_cons, zlen_app, zlen_manifest_frame.
  pose proof (zlen_encode_body e). simpl length. lia.
Qed.

Lemma try_read_exact_app pre mid post pos n :
  pos = zlen pre -> n = zlen mid -> try_read_exact (pre ++ mid ++ post) pos n = Some mid.
Proof.
  intros -> ->. unfold try_read_exact. rewrite !zlen_app. cmp_lia. by rewrite zdrop_app, ztake_app.
Qed.

(** One intact frame at the read position is decoded and applied. *)
Lemma replay_loop_step fuel pre e post st count last :
  let file := pre ++ manifest_frame e ++ post in
  valid_edit e ->
  replay_loop (S fuel) file (zlen pre) st count last =
    match apply st e with
    | Err err => Some (Err err)
    | Ok st' => replay_loop fuel file (zlen (pre ++ manifest_frame e)) st' (count + 1) (Some e)
    end.
Proof.
  intros file Hv. pose proof (zlen_encode_body e) as Hb. set (body := encode_body e) in *.
  assert (manifest_frame e = frame_header body ++ body) as Hfr.
  { unfold manifest_frame, frame_header. fold body. by rewrite <- app_assoc. }
  assert (file = pre ++ frame_header body ++ (body ++ post)) as Hf1 by (unfold file; by rewrite Hfr, <- app_assoc).
  assert (file = (pre ++ frame_header body) ++ body ++ post) as Hf2 by (by rewrite <- app_assoc).
  assert (zlen (frame_header body) = 8) as Hh by (unfold frame_header; zlen).
  assert (zlen file = zlen pre + 8 + zlen body + zlen post) as Hlen by (rewrite Hf2, !zlen_app; lia).
  destruct (frame_header_fields body) as [Hfl Hfc]; [unfold u32_max; lia|].
  cbn [replay_loop]. unfold FRAME_HEADER_LEN, MAX_EDIT_BODY_LEN.
  rewrite (proj2 (Z.leb_gt (zlen file) (zlen pre))) by lia.
  rewrite Hf1 at 1. rewrite try_read_exact_app by done.
  rewrite bool_decide_eq_false_2 by (apply frame_header_not_zero; unfold u32_max; lia).
  rewrite Hfl, Hfc. rewrite (proj2 (Z.ltb_ge 64 (zlen body))) by lia.
  rewrite Hf2 at 1. rewrite try_read_exact_app by (rewrite ?zlen_app; lia). rewrite Z.eqb_refl. cbn [negb].
  unfold body at 1. rewrite (decode_encode_body e Hv). destruct (apply st e); [|done].
  f_equal. rewrite zlen_app, Hfr, zlen_app. lia.
Qed.

Lemma replay_loop_frames fuel pre es post st st' count last :
  let file := pre ++ edit_frames es ++ post in
  Forall valid_edit es -> apply_all st es = Ok st' ->
  replay_loop (length es + fuel) file (zlen pre) st count last =
    replay_loop fuel file (zlen (pre ++ edit_frames es)) st' (count + zlen es)
      (match list.last es with Some e => Some e | None => last end).
Proof.
  revert pre st count last. induction es as [|e es IH]; intros pre st count last file Hv Hst.
  - unfold edit_frames; simpl in *. simplify_eq. by rewrite app_nil_r, Z.add_0_r.
  - inversion_clear Hv as [|? ? He Hes]. simpl in Hst. destruct (apply st e) as [st1|] eqn:E; [|done].
    unfold file. rewrite edit_frames_cons, <- app_assoc. cbn [length Nat.add].
    rewrite replay_loop_step, E by done. rewrite (app_assoc pre).
    rewrite (IH (pre ++ manifest_frame e) st1 _ (Some e) Hes Hst).
    rewrite <- (app_assoc pre), last_cons. f_equal; [by rewrite app_assoc|simpl length; lia|]. by destruct (list.last es).
Qed.

(** A proper, non-empty prefix of a frame at the end of the file is a torn tail. *)
Lemma replay_loop_torn fuel pre e k st count last :
  let file := pre ++ ztake k (manifest_frame e) in
  valid_edit e -> 0 < k < zlen (manifest_frame e) ->
  replay_loop (S fuel) file (zlen pre) st count last = Some (Ok (replay_end st (zlen pre) count last true)).
Proof.
  intros file Hv Hk. pose proof (zlen_encode_body e) as Hb. set (body := encode_body e) in *.
  assert (manifest_frame e = frame_header body ++ body) as Hfr.
  { unfold manifest_frame, frame_header. fold body. by rewrite <- app_assoc. }
  assert (zlen (frame_header body) = 8) as Hh by (unfold frame_header; zlen).
  assert (zlen file = zlen pre + k) as Hlen by (unfold file; rewrite zlen_app, zlen_ztake; lia).
  destruct (frame_header_fields body) as [Hfl Hfc]; [unfold u32_max; lia|].
  cbn [replay_loop]. unfold FRAME_HEADER_LEN, MAX_EDIT_BODY_LEN.
  rewrite (proj2 (Z.leb_gt (zlen file) (zlen pre))) by lia.
  destruct (Z.lt_ge_cases k 8).
  { unfold try_read_exact at 1. rewrite (proj2 (Z.leb_gt _ _)) by lia. done. }
  assert (file = pre ++ frame_header body ++ ztake (k - 8) body) as Hf1.
  { unfold file. f_equal. rewrite Hfr. unfold ztake. rewrite take_app_ge by lia. f_equal. f_equal. lia. }
  rewrite Hf1 at 1. rewrite try_read_exact_app by done.
  rewrite bool_decide_eq_false_2 by (apply frame_header_not_zero; unfold u32_max; lia).
  rewrite Hfl. rewrite Hfr, zlen_app in Hk. rewrite (proj2 (Z.ltb_ge 64 (zlen body))) by lia.
  unfold try_read_exact. rewrite (proj2 (Z.leb_gt _ _)) by lia. done.
Qed.

(** What a finished replay from [pos] says. *)
Definition replay_result (file : bytes) (pos : Z) (st : ManifestState) (count : Z) (last : option ManifestEdit)
    (r : res ManifestReplayResult) : Prop :=
  match r with
  | Err e => exists msg, e = Corruption msg
  | Ok r =>
      exists es, Forall valid_edit es /\ apply_all st es = Ok (state r) /\
        valid_length r = pos + zlen (edit_frames es) /\ valid_length r <= zlen file /\
        zdrop pos file = edit_frames es ++ zdrop (valid_length r) file /\
        edit_count r = count + zlen es /\
        last_edit r = match list.last es with Some e => Some e | None => last end /\
        (truncated r = false <-> valid_length r = zlen file)
  end.

Lemma replay_result_stop file pos st count last torn :
  0 <= pos <= zlen file -> (torn = false <-> pos = zlen file) ->
  replay_result file pos st count last (Ok (replay_end st pos count last torn)).
Proof.
  intros Hp Ht. exists []. unfold edit_frames; simpl. rewrite !Z.add_0_r. split_and!; try done; lia.
Qed.

Lemma decode_body_err body e : decode_body body = Err e -> exists msg, e = Corruption msg.
Proof. unfold decode_body. repeat (case_match; try done); naive_solver. Qed.

Lemma apply_err st edit e : apply st edit = Err e -> exists msg, e = Corruption msg.
Proof. destruct edit; simpl; [done|..]; repeat (case_match; try done); naive_solver. Qed.

Lemma replay_loop_sound fuel file pos st count last :
  0 <= pos <= zlen file -> zlen file - pos < Z.of_nat fuel ->
  exists r, replay_loop fuel file pos st count last = Some r /\ replay_result file pos st count last r.
Proof.
  revert pos st count last. induction fuel as [|fuel IH]; intros pos st count last Hp Hfuel; [lia|].
  cbn [replay_loop]. unfold FRAME_HEADER_LEN, MAX_EDIT_BODY_LEN.
  destruct (Z.leb_spec (zlen file) pos).
  { eexists; split; [done|]. apply replay_result_stop; [done|]. split; [lia|done]. }
  assert (exists r, Some (Ok (replay_end st pos count last true)) = Some r /\
    replay_result file pos st count last r) as Htorn.
  { eexists; split; [done|]. apply replay_result_stop; [done|]. split; [done|lia]. }
  assert (forall e, (exists msg, e = Corruption msg) -> exists r, @Some (res ManifestReplayResult) (Err e) = Some r /\
    replay_result file pos st count last r) as Hcorr by (intros e He; by exists (Err e)).
  assert (forall msg, exists r,
    (if lost_first_sector_edit file pos (zlen file) then Some (Ok (replay_end st pos count last true))
     else Some (Err (Corruption msg))) = Some r /\ replay_result file pos st count last r) as Hlost
    by (intros msg; destruct (lost_first_sector_edit _ _ _); eauto).
  unfold try_read_exact. destruct (Z.leb_spec (pos + 8) (zlen file)) as [H8|]; [|done].
  set (header := ztake 8 (zdrop pos file)).
  match goal with |- context [if bool_decide ?P then ?z else ?f] =>
    assert (exists b, (if bool_decide P then z else f) = Some b) as [zr ->] end.
  { destruct (bool_decide _); [|by eauto]. rewrite rest_is_zero_spec by lia. eauto. }
  destruct zr; [done|]. set (len := le_val (ztake 4 header)).
  assert (zlen header = 8) as Hh by (apply zlen_slice; lia).
  assert (is_u32 len) as Hlen by (apply le_val_u32; rewrite zlen_ztake; lia).
  assert (0 <= len) by (unfold_ints; lia).
  destruct (Z.ltb_spec 64 len); [by apply Hlost|].
  destruct (Z.leb_spec (pos + 8 + len) (zlen file)) as [Hfl|]; [|done].
  set (body := ztake len (zdrop (pos + 8) file)).
  destruct (Z.eqb_spec (crc32c body) (le_val (ztake 4 (zdrop 4 header)))) as [Hcrc|]; cbn [negb].
  2: { destruct (_ =? _); [done|apply Hlost]. }
  destruct (decode_body body) as [edit|e] eqn:Ed.
  2: { case_match; [done|]. eauto using decode_body_err. }
  destruct (apply st edit) as [st'|e] eqn:Ea; [|eauto using apply_err].
  assert (zlen body = len) as Hbl by (apply zlen_slice; lia).
  pose proof (frame_at file pos len ltac:(lia) ltac:(lia) ltac:(lia) eq_refl (eq_sym Hcrc)) as Hfr.
  destruct (IH (pos + 8 + len) st' (count + 1) (Some edit)) as (r & Hw & Hres); [lia|lia|].
  exists r. split; [done|]. destruct r as [r|]; [|done].
  destruct Hres as (es & Hes & Hst & Hv & Hvl & Hz & Hc & Hla & Ht).
  destruct (decode_body_inv _ _ Ed) as [Hbody Hve].
  assert (manifest_frame edit = frame_of body) as Hmf by (unfold manifest_frame; by rewrite <- Hbody).
  exists (edit :: es). rewrite edit_frames_cons, zlen_app, Hmf, zlen_frame_of.
  split_and!; [by constructor| |lia|done| |simpl length; lia| |done].
  - simpl. by rewrite Ea.
  - rewrite <- app_assoc, <- Hz. exact Hfr.
  - rewrite Hla, last_cons. by destruct (list.last es).
Qed.
End ReplaySpec.

(** ** Appends *)

(** One answer set is consistent with [write_all]: a failing write stops short of the frame's end. *)
Definition io_plausible `{Crc32c} (e : ManifestEdit) (io : IoAnswers) : Prop :=
  match write_fails_after io with Some n => 0 <= n < zlen (manifest_frame e) | None => True end.

(** A run of appends, and the edits it acknowledged. *)
Fixpoint run_appends `{Crc32c} (m : OpenManifest) (ops : list (ManifestEdit * IoAnswers)) :
    OpenManifest * list ManifestEdit :=
  match ops with
  | [] => (m, [])
  | (e, io) :: ops =>
      let '(m', r) := append_sync m e io in
      let '(m'', acked) := run_appends m' ops in
      (m'', match r with Ok _ => e :: acked | Err _ => acked end)
  end.

Section Appends.
Context `{Crc32c}.

(** The open manifest holds the frames of the acknowledged edits and, once poisoned, at most one partial frame
    behind them. *)
Definition holds (acked : list ManifestEdit) (m : OpenManifest) : Prop :=
  exists t, content m = edit_frames acked ++ t /\ len m = zlen (edit_frames acked) /\
    record_count m = zlen acked /\ m_last_edit m = list.last acked /\
    (t = [] \/ exists e k, valid_edit e /\ t = ztake k (manifest_frame e) /\ 0 < k < zlen (manifest_frame e)) /\
    (poisoned m = false -> t = [] /\ cursor m = len m).

Lemma write_at_end (file data : bytes) : write_at file (zlen file) data = file ++ data.
Proof. unfold write_at. rewrite ztake_all, zdrop_all' by lia. by rewrite app_nil_r. Qed.

Lemma edit_frames_snoc es e : edit_frames (es ++ [e]) = edit_frames es ++ manifest_frame e.
Proof. unfold edit_frames. rewrite map_app, concat_app. simpl. by rewrite app_nil_r. Qed.

Lemma append_sync_holds acked m e io :
  holds acked m -> valid_edit e -> io_plausible e io -> (write_fails_after io = None -> sync_ok io = true) ->
  let '(m', r) := append_sync m e io in
  holds (match r with Ok _ => acked ++ [e] | Err _ => acked end) m'.
Proof.
  intros (t & Hc & Hl & Hr & Hla & Ht & Hp) Hv Hio Hs. unfold append_sync.
  destruct (poisoned m) eqn:Epo; [exists t; by rewrite Epo|].
  destruct (Hp eq_refl) as [-> Hcur]. rewrite app_nil_r in Hc. cbv zeta. rewrite Hcur, Hl, Hc.
  unfold io_plausible in Hio. destruct (write_fails_after io) as [n|].
  - rewrite write_at_end. destruct (set_len_ok io); cbn [andb]; rewrite ?ztake_app.
    + exists []. rewrite app_nil_r. cbn. split_and!; try done. intros Hrb. split; [done|].
      by destruct (seek_ok io).
    + exists (ztake n (manifest_frame e)). cbn. split_and!; try done.
      destruct (decide (n = 0)) as [->|]; [by left|right]. exists e, n. split_and!; [done|done|lia..].
  - rewrite Hs, write_at_end by done. cbn [negb]. exists []. cbn. rewrite edit_frames_snoc, zlen_app, app_nil_r, last_snoc, Hr.
    split_and!; try done. rewrite length_app; simpl; lia.
Qed.

Lemma run_appends_holds ops acked m :
  holds acked m ->
  Forall (fun '(e, io) => valid_edit e /\ io_plausible e io /\
                          (write_fails_after io = None -> sync_ok io = true)) ops ->
  holds (acked ++ (run_appends m ops).2) (run_appends m ops).1.
Proof.
  intros Hm Hops. revert acked m Hm. induction Hops as [|[e io] ops (Hv & Hio & Hs) Hops IH]; intros acked m Hm.
  { by rewrite app_nil_r. }
  simpl. pose proof (append_sync_holds acked m e io Hm Hv Hio Hs) as Hstep.
  destruct (append_sync m e io) as [m' r]. specialize (IH _ _ Hstep).
  destruct (run_appends m' ops) as [m'' acked'], r; simpl in *; [by rewrite <- app_assoc in IH|done].
Qed.

(** Whole frames of edits that apply, and at most one proper frame prefix behind them. *)
Lemma replay_frames es t st :
  Forall valid_edit es -> apply_all state_new es = Ok st ->
  (t = [] \/ exists e k, valid_edit e /\ t = ztake k (manifest_frame e) /\ 0 < k < zlen (manifest_frame e)) ->
  replay (edit_frames es ++ t) =
    Some (Ok (replay_end st (zlen (edit_frames es)) (zlen es) (list.last es) (0 <? zlen t))).
Proof.
  intros Hes Hst Ht. unfold replay.
  assert (exists f, S (length (edit_frames es ++ t)) = (length es + S f)%nat) as [f ->].
  { exists (length (edit_frames es ++ t) - length es)%nat. pose proof (zlen_edit_frames es).
    rewrite length_app. lia. }
  pose proof (replay_loop_frames (S f) [] es t state_new st 0 None Hes Hst) as Hl. simpl app in Hl.
  change (zlen (@nil byte)) with 0 in Hl. rewrite Hl, Z.add_0_l. clear Hl.
  assert ((match list.last es with Some e => Some e | None => None end) = list.last es) as -> by (by destruct (list.last es)).
  destruct Ht as [->|(e & k & Hv & -> & Hk)].
  - rewrite app_nil_r. cbn [replay_loop]. by rewrite Z.leb_refl.
  - rewrite (replay_loop_torn f (edit_frames es) e k _ _ _ Hv Hk).
    rewrite zlen_ztake by lia. by rewrite (proj2 (Z.ltb_lt 0 k)) by lia.
Qed.
End Appends.

(** ** What an edit sequence means *)

(** The table an id denotes after a sequence: the first [AddSstable] since the last [RemoveSstable]. *)
Fixpoint live_info (id : Z) (acc : option SstableManifestEntry) (es : list ManifestEdit) :
    option SstableManifestEntry :=
  match es with
  | [] => acc
  | AddSstable id' a b f :: es =>
      live_info id (if id =? id' then
                      match acc with
                      | Some _ => acc
                      | None => Some {| e_min_seq := a; e_max_seq := b; e_file_size := f |}
                      end
                    else acc) es
  | RemoveSstable id' :: es => live_info id (if id =? id' then None else acc) es
  | SetCheckpoint _ _ _ :: es => live_info id acc es
  end.

Definition is_add (id : Z) (e : ManifestEdit) : bool :=
  match e with AddSstable id' _ _ _ => id =? id' | _ => false end.
Definition as_checkpoint (e : ManifestEdit) : option CheckpointState :=
  match e with SetCheckpoint f seg off => Some {| flushed_through_seq := f; wal_segment_id := seg; wal_offset := off |}
  | _ => None end.
Definition checkpoints (es : list ManifestEdit) : list CheckpointState := omap as_checkpoint es.

(** A sequence the code accepts: only tables added before are removed, and checkpoints never regress. *)
Definition admissible (es : list ManifestEdit) : Prop :=
  (forall es1 id es2, es = es1 ++ RemoveSstable id :: es2 -> existsb (is_add id) es1 = true) /\
  StronglySorted (fun c c' => flushed_through_seq c <= flushed_through_seq c') (checkpoints es).

Definition denotes (st : ManifestState) (es : list ManifestEdit) : Prop :=
  bt_sorted (live_sstables st) /\
  (forall id, bt_get id (live_sstables st) = live_info id None es) /\
  (forall id, bt_get id (ever_added st) = if existsb (is_add id) es then Some tt else None) /\
  checkpoint st = list.last (checkpoints es).

Lemma live_info_app id acc es es' : live_info id acc (es ++ es') = live_info id (live_info id acc es) es'.
Proof. revert acc. induction es as [|[] es IH]; intros acc; simpl; auto. Qed.

Lemma eqb_Z (a b : Z) : eqb a b = (a =? b).
Proof. unfold eqb. rewrite Z.eqb_compare. done. Qed.

Lemma bt_get_or_insert `{OrdLaws K} {V} (k : K) (v : V) m k' :
  bt_get k' (bt_or_insert k v m) =
    if eqb k' k then match bt_get k' m with Some x => Some x | None => Some v end else bt_get k' m.
Proof.
  unfold bt_or_insert. destruct (bt_get k m) eqn:E.
  - destruct (eqb k' k) eqn:Ek; [|done]. apply eqb_eq in Ek as ->. by rewrite E.
  - rewrite bt_get_insert. destruct (eqb k' k) eqn:Ek; [|done]. apply eqb_eq in Ek as ->. by rewrite E.
Qed.

Lemma StronglySorted_snoc {A} (R : A -> A -> Prop) l x :
  (forall a b c, R a b -> R b c -> R a c) ->
  StronglySorted R (l ++ [x]) <-> StronglySorted R l /\ (forall y, list.last l = Some y -> R y x).
Proof.
  intros HR. induction l as [|a l IH]; simpl app.
  - split; [|repeat constructor]. intros _. split; [constructor|done].
  - rewrite !StronglySorted_cons, IH, Forall_app, Forall_singleton, last_cons. split.
    + intros [[Ha Hax] [Hs Hl]]. split; [done|]. intros y. destruct (list.last l) eqn:E; [naive_solver|congruence].
    + intros [[Ha Hs] Hl]. destruct (list.last l) as [y|] eqn:E.
      * split_and!; [done| |done|naive_solver]. apply (HR a y); [|naive_solver].
        rewrite Forall_forall in Ha. apply Ha. apply last_Some in E as [l' ->]. apply list_elem_of_In, in_or_app; right; by left.
      * apply last_None in E as ->. naive_solver.
Qed.

Lemma admissible_snoc es e :
  admissible (es ++ [e]) <-> admissible es /\
    match e with
    | AddSstable _ _ _ _ => True
    | RemoveSstable id => existsb (is_add id) es = true
    | SetCheckpoint f _ _ => forall c, list.last (checkpoints es) = Some c -> flushed_through_seq c <= f
    end.
Proof.
  unfold admissible, checkpoints. rewrite omap_app.
  assert ((forall es1 id es2, es ++ [e] = es1 ++ RemoveSstable id :: es2 -> existsb (is_add id) es1 = true) <->
    (forall es1 id es2, es = es1 ++ RemoveSstable id :: es2 -> existsb (is_add id) es1 = true) /\
    (forall id, e = RemoveSstable id -> existsb (is_add id) es = true)) as Hrm.
  { split.
    - intros Hr. split; [intros es1 id es2 ->; apply (Hr es1 id (es2 ++ [e])); by rewrite <- app_assoc|].
      intros id ->. by apply (Hr es id []).
    - intros [Hr He] es1 id es2. destruct es2 as [|e2 es2 _] using rev_ind.
      + intros [-> [= ->]]%app_inj_tail. by apply He.
      + rewrite app_comm_cons, app_assoc. intros [-> ->]%app_inj_tail. by apply (Hr es1 id es2). }
  rewrite Hrm. destruct e; simpl; rewrite ?app_nil_r, ?StronglySorted_snoc by (intros; lia); naive_solver.
Qed.

Lemma apply_denotes st es e :
  denotes st es -> admissible es ->
  match apply st e with
  | Ok st' => denotes st' (es ++ [e]) /\ admissible (es ++ [e])
  | Err _ => ~ admissible (es ++ [e])
  end.
Proof.
  intros (Hs & Hl & He & Hc) Ha. pose proof (admissible_snoc es e) as Hsn.
  assert (forall id, existsb (is_add id) (es ++ [e]) = existsb (is_add id) es || is_add id e) as Hex.
  { intros id. rewrite existsb_app. simpl. by rewrite orb_false_r. }
  assert (forall id, live_info id None (es ++ [e]) = live_info id (live_info id None es) [e]) as Hlv.
  { intros id. apply live_info_app. }
  unfold denotes, checkpoints in *. rewrite omap_app.
  destruct e as [id a b f|id|f seg off]; simpl; simpl in Hex, Hlv, Hsn; rewrite ?app_nil_r.
  - rewrite Hsn. split; [|done]. simpl. split_and!; [by apply bt_or_insert_sorted| | |done]; intros id'.
    + rewrite bt_get_or_insert, eqb_Z, Hlv, Hl. by destruct (id' =? id), (live_info id' None es).
    + rewrite bt_get_insert, eqb_Z, Hex, He. by destruct (id' =? id), (existsb (is_add id') es).
  - rewrite He. destruct (existsb (is_add id) es) eqn:Eid; rewrite Hsn; [|naive_solver]. split; [|done]. simpl.
    split_and!; [by apply bt_remove_sorted| | |done]; intros id'.
    + by rewrite bt_get_remove, eqb_Z, Hlv, Hl.
    + by rewrite Hex, orb_false_r, He.
  - rewrite Hc. destruct (list.last (omap as_checkpoint es)) as [c|] eqn:El.
    + destruct (Z.ltb_spec f (flushed_through_seq c)); rewrite Hsn; [intros [_ Hcc]; specialize (Hcc _ eq_refl); lia|].
      split; [|split; [done|]; intros ? [= <-]; lia]. simpl. rewrite last_snoc.
      split_and!; try done; intros id'; [by rewrite Hlv|by rewrite Hex, orb_false_r].
    + rewrite Hsn. split; [|done]. simpl. rewrite last_snoc.
      split_and!; try done; intros id'; [by rewrite Hlv|by rewrite Hex, orb_false_r].
Qed.

Lemma apply_all_denotes es :
  match apply_all state_new es with
  | Ok st => denotes st es /\ admissible es
  | Err _ => ~ admissible es
  end.
Proof.
  induction es as [|e es IH] using rev_ind.
  - split; [by repeat split; try constructor|]. split; [by intros []|constructor].
  - rewrite apply_all_app. destruct (apply_all state_new es) as [st|].
    + simpl. pose proof (apply_denotes st es e (proj1 IH) (proj2 IH)). by destruct (apply st e).
    + rewrite admissible_snoc. tauto.
Qed.

(** ** Theorems *)

Section ManifestTheorems.
Context `{Crc32c}.

(** C9: a crash that cuts the manifest file at any byte loses only the edits it cut into: replay of the cut file is
    never corruption, its state is the state of the edits whose frames lie wholly before the cut, it ends at the last
    frame boundary with the exact edit count and last edit, and it flags a torn tail exactly when bytes remain. *)
Theorem replay_cut es st n :
  Forall valid_edit es -> apply_all state_new es = Ok st -> 0 <= n <= zlen (edit_frames es) ->
  exists k st', let e := zlen (edit_frames (take k es)) in
    apply_all state_new (take k es) = Ok st' /\
    replay (ztake n (edit_frames es)) =
      Some (Ok (replay_end st' e (zlen (take k es)) (list.last (take k es)) (e <? n))) /\
    (k <= length es)%nat /\ e <= n /\
    (k = length es \/ n < zlen (edit_frames (take (S k) es))).
Proof.
  intros Hes Hst Hn.
  destruct (cut_concat (map manifest_frame es) n) as (k & t & Hk & Hcut & Ht & Hz & Hlast); [|done|].
  { apply Forall_fmap, Forall_forall. intros e _. simpl. rewrite zlen_manifest_frame.
    pose proof (zlen_encode_body e). lia. }
  rewrite length_map, !firstn_map in *. fold (edit_frames es) (edit_frames (take k es)) in Hcut.
  fold (edit_frames (take k es)) in Hz. fold (edit_frames (take (S k) es)) in Hlast.
  destruct (apply_all_take state_new es st k Hst) as [st' Hst'].
  exists k, st'. cbv zeta. rewrite Hcut. split_and!; [done| |done|lia|done].
  rewrite (replay_frames (take k es) t st'); [|by apply Forall_take|done|].
  - do 2 f_equal. unfold replay_end. f_equal. destruct (Z.ltb_spec 0 (zlen t)); by cmp_lia.
  - destruct Ht as [->|(c & j & Hc & -> & Hj)]; [by left|right].
    apply list_lookup_fmap_Some in Hc as (e & -> & He). exists e, j. split_and!; try done; try lia.
    rewrite Forall_forall in Hes. apply Hes, list_elem_of_lookup. eauto.
Qed.

(** C25: on an arbitrary file replay terminates; it either reports corruption, or its state is exactly the state of the
    valid edits whose frames fill the file up to the reported length, with the count and the last edit of that sequence,
    and it reports a torn tail if and only if bytes are left over. *)
Theorem replay_total file :
  exists r, replay file = Some r /\
    match r with
    | Err e => exists msg, e = Corruption msg
    | Ok r =>
        exists es, Forall valid_edit es /\ apply_all state_new es = Ok (state r) /\
          ztake (valid_length r) file = edit_frames es /\ 0 <= valid_length r <= zlen file /\
          edit_count r = zlen es /\ last_edit r = list.last es /\
          (truncated r = false <-> valid_length r = zlen file)
    end.
Proof.
  destruct (replay_loop_sound (S (length file)) file 0 state_new 0 None) as (r & Hr & Hres); [lia|lia|].
  exists r. split; [done|]. destruct r as [r|e]; [|done].
  destruct Hres as (es & Hes & Hst & Hv & Hvl & Hz & Hc & Hla & Ht). rewrite Z.add_0_l in *.
  exists es. split_and!; try done; try lia.
  - change (zdrop 0 file) with file in Hz. rewrite Hz at 1. by apply ztake_app'.
  - by destruct (list.last es).
Qed.

(** C26: an edit sequence is accepted exactly when it never removes a table that was not added before and its checkpoints
    never regress; the state then lists, for every id, the table its adds and removes denote, in id order, and the
    checkpoint is the last one set. *)
Theorem apply_all_spec es :
  (is_ok (apply_all state_new es) = true <-> admissible es) /\
  (forall st, apply_all state_new es = Ok st ->
    bt_sorted (live_sstables st) /\
    (forall id, bt_get id (live_sstables st) = live_info id None es) /\
    checkpoint st = list.last (checkpoints es)).
Proof.
  pose proof (apply_all_denotes es) as Hd. destruct (apply_all state_new es) as [st|e]; simpl.
  - destruct Hd as [(Hs & Hl & _ & Hc) Ha]. split; [done|]. intros ? [= <-]. done.
  - split; [|done]. split; [done|]. by intros ?%Hd.
Qed.

(** C10: from a freshly created manifest, whatever prefix of each failed write reached the file and however its rollback
    ended, as long as every sync that is reached succeeds: reopening the file recovers exactly the acknowledged edits,
    with at most a torn tail behind them, and the in-memory counters agree with the file. *)
Theorem append_sync_durable ops m acked st :
  Forall (fun '(e, io) => valid_edit e /\ io_plausible e io /\
                          (write_fails_after io = None -> sync_ok io = true)) ops ->
  run_appends {| content := []; cursor := 0; len := 0; poisoned := false; record_count := 0; m_last_edit := None |} ops
    = (m, acked) ->
  apply_all state_new acked = Ok st ->
  replay (content m) =
    Some (Ok (replay_end st (len m) (record_count m) (m_last_edit m) (len m <? zlen (content m)))) /\
  len m = zlen (edit_frames acked) /\ record_count m = zlen acked /\ m_last_edit m = list.last acked.
Proof.
  intros Hops Hrun Hst. set (m0 := Build_OpenManifest _ _ _ _ _ _) in Hrun.
  assert (holds [] m0) as H0. { exists []. simpl. split_and!; try done. by left. }
  assert (Forall valid_edit acked) as Hv.
  { clear -Hops Hrun. clearbody m0. revert m0 acked Hrun.
    induction Hops as [|[e io] ops (Hv & _) Hops IH]; intros m0 acked Hrun; simpl in Hrun; [by simplify_eq|].
    destruct (append_sync m0 e io) as [m1 r], (run_appends m1 ops) as [m2 a] eqn:E.
    injection Hrun as -> <-. specialize (IH _ _ E). destruct r; auto. }
  pose proof (run_appends_holds ops [] m0 H0 Hops) as (t & Hc & Hl & Hr & Hla & Ht & Hp).
  rewrite Hrun in *; simpl in *. split_and!; try done.
  rewrite Hc, (replay_frames acked t st Hv Hst Ht). rewrite Hl, Hr, Hla, zlen_app.
  do 2 f_equal. unfold replay_end. f_equal. destruct (Z.ltb_spec 0 (zlen t)); by cmp_lia.
Qed.
End ManifestTheorems.

(** ** A failed sync *)

Definition answers (write_fail : option Z) (sync : bool) : IoAnswers :=
  {| write_fails_after := write_fail; set_len_ok := true; seek_ok := true; rollback_sync_ok := true; sync_ok := sync |}.

Definition fresh_manifest : OpenManifest :=
  {| content := []; cursor := 0; len := 0; poisoned := false; record_count := 0; m_last_edit := None |}.

(** A write that reaches the file whole, with a sync that answers [sync]; and a write that fails and is rolled back. *)
Definition write_synced (sync : bool) (io : IoAnswers) : Prop := write_fails_after io = None /\ sync_ok io = sync.

Definition undone (e : ManifestEdit) (io : IoAnswers) `{Crc32c} : Prop :=
  (exists n, write_fails_after io = Some n /\ 0 <= n < zlen (manifest_frame e)) /\
  set_len_ok io && seek_ok io && rollback_sync_ok io = true.

Section FailedSync.
Context `{Crc32c}.

(** The file after the three appends: as long as the acknowledged frame, but with the unacknowledged one in front. *)
Lemma stale_len_content acked m e1 e2 e3 io1 io2 io3 :
  holds acked m -> poisoned m = false -> write_synced false io1 -> write_synced true io2 -> undone e3 io3 ->
  run_appends m [(e1, io1); (e2, io2); (e3, io3)] =
    ({| content := edit_frames acked ++ ztake (zlen (manifest_frame e2)) (manifest_frame e1 ++ manifest_frame e2);
        cursor := zlen (edit_frames acked) + zlen (manifest_frame e2); len := zlen (edit_frames acked) + zlen (manifest_frame e2);
        poisoned := false; record_count := zlen acked + 1; m_last_edit := Some e2 |}, [e2]).
Proof.
  intros (t & Hc & Hl & Hr & Hla & _ & Hp) Hpo [Hw1 Hs1] [Hw2 Hs2] [(n & Hw3 & Hn) Hrb].
  destruct (Hp Hpo) as [-> Hcur]. rewrite app_nil_r in Hc. unfold run_appends, append_sync.
  rewrite Hpo, Hw1, Hs1, Hcur, Hl, Hc, write_at_end. cbn [negb poisoned content cursor len record_count m_last_edit].
  rewrite Hw2, Hs2, <- zlen_app, write_at_end. cbn [negb poisoned content cursor len record_count m_last_edit].
  rewrite Hw3, <- !zlen_app, write_at_end. apply andb_prop in Hrb as [[-> ->]%andb_prop ->]. cbn [negb andb]. do 2 f_equal; [|by rewrite Hr].
  rewrite <- !app_assoc, (ztake_split (zlen (edit_frames acked))) by (rewrite zlen_app; lia).
  rewrite ztake_app, zdrop_app, zlen_app. f_equal.
  replace (_ - _) with (zlen (manifest_frame e2)) by lia.
  rewrite app_assoc. unfold ztake. by rewrite take_app_le by (rewrite length_app; lia).
Qed.

(** C27: a failed [sync_all] neither rolls the frame back nor poisons the handle, so that [len] falls behind the cursor.
    Take any open manifest whose file holds the acknowledged edits, any edit [e1] whose frame is written and whose sync
    fails, any edit [e2] that is then acknowledged as durable, and any edit whose write fails and is rolled back without
    error.  The handle counts [e2] as its last edit and stays usable, but reopening the file recovers, with no corruption,
    the edits acknowledged before, with or without [e1], which was reported as failed: [e2] is lost. *)
Theorem failed_sync_loses_next_edit acked m e1 e2 e3 io1 io2 io3 st1 :
  holds acked m -> poisoned m = false -> Forall valid_edit (acked ++ [e1; e2]) ->
  apply_all state_new (acked ++ [e1]) = Ok st1 -> write_synced false io1 -> write_synced true io2 -> undone e3 io3 ->
  let '(m', acks) := run_appends m [(e1, io1); (e2, io2); (e3, io3)] in
  acks = [e2] /\ poisoned m' = false /\ record_count m' = zlen acked + 1 /\ m_last_edit m' = Some e2 /\
  exists es st torn, (es = acked \/ es = acked ++ [e1]) /\ apply_all state_new es = Ok st /\
    replay (content m') = Some (Ok (replay_end st (zlen (edit_frames es)) (zlen es) (list.last es) torn)).
Proof.
  intros Hm Hpo Hv Hst H1 H2 H3. rewrite (stale_len_content acked m e1 e2 e3 io1 io2 io3) by done. cbn [content poisoned record_count m_last_edit].
  split_and!; try done. apply Forall_app in Hv as [Hva Hv]. rewrite !Forall_cons in Hv. destruct Hv as (Hv1 & Hv2 & _).
  pose proof (zlen_manifest_frame e1) as Hz1. pose proof (zlen_manifest_frame e2) as Hz2.
  pose proof (zlen_encode_body e1). pose proof (zlen_encode_body e2).
  destruct (Z.lt_ge_cases (zlen (manifest_frame e2)) (zlen (manifest_frame e1))) as [Hlt|Hge].
  - destruct (apply_all_take _ _ _ (length acked) Hst) as [st Hst0]. rewrite take_app_length in Hst0.
    exists acked, st, true. split_and!; [by left|done|]. unfold ztake at 1. rewrite take_app_le by lia.
    fold (ztake (zlen (manifest_frame e2)) (manifest_frame e1)).
    rewrite (replay_frames acked _ st) by (done || right; exists e1, (zlen (manifest_frame e2)); split_and!; (done || lia)).
    rewrite zlen_ztake by lia. by cmp_lia.
  - eexists (acked ++ [e1]), st1, _. split_and!; [by right|done|].
    rewrite (ztake_split (zlen (manifest_frame e1))), ztake_app, zdrop_app, app_assoc, <- edit_frames_snoc by lia.
    rewrite (replay_frames (acked ++ [e1]) _ st1); [done| |done|].
    + by apply Forall_app; split; [|repeat constructor].
    + destruct (decide (zlen (manifest_frame e1) = zlen (manifest_frame e2))) as [->|]; [left; by rewrite Z.sub_diag|right].
      eexists e2, _. split_and!; [done|done|lia..].
Qed.
End FailedSync.

Definition sync_failure_run : list (ManifestEdit * IoAnswers) :=
  [(SetCheckpoint 5 1 24, answers None false);
   (AddSstable 7 1 5 100, answers None true);
   (RemoveSstable 9, answers (Some 0) true)].

(** For instance, [AddSstable 7] was acknowledged and the reopened manifest does not list table 7. *)
Example append_sync_failed_sync_loses_edit :
  let '(m, acked) := run_appends fresh_manifest sync_failure_run in
  acked = [AddSstable 7 1 5 100] /\ poisoned m = false /\ record_count m = 1 /\
  match replay (content m) with
  | Some (Ok r) => bt_get 7 (live_sstables (state r)) = None
  | _ => False
  end.
Proof. vm_compute. repeat split. Qed.

(** ** Witnesses *)

Definition demo_edits : list ManifestEdit :=
  [AddSstable 1 1 9 200; SetCheckpoint 9 1 24; AddSstable 2 10 20 300; RemoveSstable 1; SetCheckpoint 20 2 24].

Definition ok_state (r : res ManifestState) : ManifestState := match r with Ok s => s | Err _ => state_new end.

Lemma replay_cut_witness :
  Forall valid_edit demo_edits /\
  exists k st', let e := zlen (edit_frames (take k demo_edits)) in
    apply_all state_new (take k demo_edits) = Ok st' /\
    replay (ztake 100 (edit_frames demo_edits)) =
      Some (Ok (replay_end st' e (zlen (take k demo_edits)) (list.last (take k demo_edits)) (e <? 100))) /\
    (k <= length demo_edits)%nat /\ e <= 100 /\
    (k = length demo_edits \/ 100 < zlen (edit_frames (take (S k) demo_edits))).
Proof.
  split; [by_eval|].
  apply (replay_cut demo_edits (ok_state (apply_all state_new demo_edits)) 100); by_eval.
Defined.

Lemma apply_all_spec_witness :
  apply_all state_new demo_edits = Ok (ok_state (apply_all state_new demo_edits)) /\
  bt_get 2 (live_sstables (ok_state (apply_all state_new demo_edits))) = live_info 2 None demo_edits.
Proof.
  split; [by_eval|]. apply (proj2 (apply_all_spec demo_edits)). by_eval.
Defined.

Lemma append_sync_durable_witness :
  let ops := [(AddSstable 1 1 9 200, all_ok); (SetCheckpoint 9 1 24, answers (Some 11) true);
              (SetCheckpoint 8 1 24, all_ok)] in
  let '(m, acked) := run_appends fresh_manifest ops in
  len m = zlen (edit_frames acked) /\ acked = [AddSstable 1 1 9 200; SetCheckpoint 8 1 24].
Proof.
  intros ops. pose proof (append_sync_durable ops (run_appends fresh_manifest ops).1 (run_appends fresh_manifest ops).2
    (ok_state (apply_all state_new (run_appends fresh_manifest ops).2))) as Hd.
  destruct (run_appends fresh_manifest ops) as [m acked] eqn:E.
  assert (acked = [AddSstable 1 1 9 200; SetCheckpoint 8 1 24]) as Hacked.
  { revert E. vm_compute. by intros [= _ <-]. }
  split; [|exact Hacked]. apply Hd; [|exact E|rewrite Hacked; by_eval].
  clear Hd E. by_eval.
Defined.

Lemma failed_sync_loses_next_edit_witness :
  exists es st torn, (es = [AddSstable 1 1 9 200] \/ es = [AddSstable 1 1 9 200; SetCheckpoint 9 1 24]) /\
    apply_all state_new es = Ok st /\
    replay (content (run_appends fresh_manifest ((AddSstable 1 1 9 200, all_ok) ::
      [(SetCheckpoint 9 1 24, answers None false); (AddSstable 7 10 15 100, all_ok); (RemoveSstable 1, answers (Some 4) true)])).1) =
      Some (Ok (replay_end st (zlen (edit_frames es)) (zlen es) (list.last es) torn)).
Proof.
  pose (m := (append_sync fresh_manifest (AddSstable 1 1 9 200) all_ok).1).
  destruct (failed_sync_loses_next_edit [AddSstable 1 1 9 200] m (SetCheckpoint 9 1 24) (AddSstable 7 10 15 100) (RemoveSstable 1)
    (answers None false) all_ok (answers (Some 4) true) (ok_state (apply_all state_new [AddSstable 1 1 9 200; SetCheckpoint 9 1 24])))
    as (_ & _ & _ & _ & es & st & torn & Hes & Hst & Hr).
  - exists []. split_and!; try (by left); try done; vm_compute; reflexivity.
  - vm_compute. reflexivity.
  - by_eval.
  - vm_compute. reflexivity.
  - by split.
  - by split.
  - split; [exists 4; by_eval|reflexivity].
  - exists es, st, torn. split; [exact Hes|]. split; [exact Hst|]. exact Hr.
Defined.

End Manifest.
