(* ===== verification/SsFormat.v ===== *)
(** * SSTable byte format ([src/src/sstable/format.rs])

    Data records and blocks, the index block, the bloom block and the 72-byte footer, with their decoders.  A decoder
    reads at [pos : &mut usize]; here it returns the value with the advanced position. *)

From stdpp Require Import base list option strings.
From Stdlib Require Import ZArith Lia.
From Stdlib Require Import Strings.Byte.
From S2P Require Import Prelude EngineError Checksum WalFormat.

Module Fmt.

Definition MAGIC : bytes := [x52; x42; x58; x53; x53; x54; x30; x31].
Definition SST_FORMAT_VERSION : Z := 1.
Definition FOOTER_SIZE : Z := 72.
Definition DEFAULT_TARGET_BLOCK_SIZE : Z := 4096.
Definition DEFAULT_BLOOM_BITS_PER_KEY : Z := 10.
Definition MAX_KEY_SIZE : Z := 64 * 1024.
Definition MAX_VALUE_SIZE : Z := DEFAULT_MAX_RECORD_LEN.
Definition REC_PUT : byte := x01.
Definition REC_DELETE : byte := x02.
(** The literal of [decode_bloom_block]. *)
Definition BLOOM_CAP : Z := 256 * 1024 * 1024.

Record DecodedRecord : Type := {
  key : bytes;
  seq : Z;
  op : byte;
  value : bytes
}.

Definition checked_len (len max : Z) : res Z :=
  if max <? len then Err (CapacityExceeded len max) else Ok len.

Definition read_bytes (buf : bytes) (pos len : Z) : res (bytes * Z) :=
  let? e := ok_or (Corruption "offset overflow") (checked_add64 pos len) in
  let? slice := ok_or (Corruption "truncated") (get_range buf pos e) in
  Ok (slice, e).

Definition read_u32 (buf : bytes) (pos : Z) : res (Z * Z) :=
  let? '(slice, e) := read_bytes buf pos 4 in Ok (le_val slice, e).

Definition read_u64 (buf : bytes) (pos : Z) : res (Z * Z) :=
  let? '(slice, e) := read_bytes buf pos 8 in Ok (le_val slice, e).

Definition read_u8 (buf : bytes) (pos : Z) : res (byte * Z) :=
  let? b := ok_or (Corruption "truncated (need 1 byte)") (get_at buf pos) in
  Ok (b, pos + 1).

(** [encode_record] appends to [out]; the bytes it appends, or its error. *)
Definition encode_record (out : bytes) (key : bytes) (seq : Z) (op : byte) (value : bytes) : res bytes :=
  let? _ := checked_len (zlen key) MAX_KEY_SIZE in
  let? _ := checked_len (zlen value) MAX_VALUE_SIZE in
  Ok (out ++ le32 (zlen key) ++ key ++ le64 seq ++ [op] ++ le32 (zlen value) ++ value).

Definition decode_record (buf : bytes) (pos : Z) : res (DecodedRecord * Z) :=
  let? '(key_len, pos) := read_u32 buf pos in
  let? _ := checked_len key_len MAX_KEY_SIZE in
  let? '(key, pos) := read_bytes buf pos key_len in
  let? '(seq, pos) := read_u64 buf pos in
  let? '(op, pos) := read_u8 buf pos in
  if negb (eqb op REC_PUT) && negb (eqb op REC_DELETE) then Err (Corruption "record: invalid op byte")
  else
    let? '(value_len, pos) := read_u32 buf pos in
    let? _ := checked_len value_len MAX_VALUE_SIZE in
    if eqb op REC_DELETE && negb (value_len =? 0) then
      Err (Corruption "record: DELETE op with non-zero value_len")
    else
      let? '(value, pos) := read_bytes buf pos value_len in
      Ok ({| key := key; seq := seq; op := op; value := value |}, pos).

(** The [for _ in 0..record_count] loop.  A record consumes at least one byte, so [length buf] iterations of fuel cover
    every count: the read that finds no bytes fails first. *)
Fixpoint decode_records (fuel : nat) (count : Z) (buf : bytes) (pos : Z) : res (list DecodedRecord * Z) :=
  if count <=? 0 then Ok ([], pos)
  else
    let? '(r, pos) := decode_record buf pos in
    match fuel with
    | O => Err (Aborted "fuel")
    | S fuel =>
        let? '(rs, pos) := decode_records fuel (count - 1) buf pos in
        Ok (r :: rs, pos)
    end.

Section Blocks.
Context `{Crc32c}.

Definition with_crc (body : bytes) : bytes := body ++ le32 (crc32c body).

Definition finalize_block (record_count : Z) (records_buf : bytes) : bytes :=
  with_crc (le32 record_count ++ records_buf).

(** [buf.split_at(buf.len() - 4)] and the checksum comparison every block decoder starts with. *)
Definition split_crc (buf : bytes) (mismatch : string) : res bytes :=
  let body := ztake (zlen buf - 4) buf in
  let stored_crc := le_val (zdrop (zlen buf - 4) buf) in
  if crc32c body =? stored_crc then Ok body else Err (Corruption mismatch).

Definition decode_block (buf : bytes) : res (list DecodedRecord) :=
  if zlen buf <? 8 then Err (Corruption "block: shorter than minimum (record_count + checksum)")
  else
    let? body := split_crc buf "block: checksum mismatch" in
    let? '(record_count, pos) := read_u32 body 0 in
    let? '(records, pos) := decode_records (length body) record_count body pos in
    if negb (pos =? zlen body) then Err (Corruption "block: trailing byte(s) after declared records")
    else Ok records.

Record IndexEntry : Type := {
  last_key : bytes;
  block_offset : Z;
  block_length : Z
}.

Definition encode_index_entry (out : bytes) (entry : IndexEntry) : res bytes :=
  let? _ := checked_len (zlen (last_key entry)) MAX_KEY_SIZE in
  Ok (out ++ le32 (zlen (last_key entry)) ++ last_key entry ++ le64 (block_offset entry) ++
      le32 (block_length entry)).

Definition decode_index_entry (buf : bytes) (pos : Z) : res (IndexEntry * Z) :=
  let? '(last_key_len, pos) := read_u32 buf pos in
  let? _ := checked_len last_key_len MAX_KEY_SIZE in
  let? '(last_key, pos) := read_bytes buf pos last_key_len in
  let? '(block_offset, pos) := read_u64 buf pos in
  let? '(block_length, pos) := read_u32 buf pos in
  Ok ({| last_key := last_key; block_offset := block_offset; block_length := block_length |}, pos).

(** The [for e in entries] loop of [encode_index_block]. *)
Fixpoint encode_index_entries (out : bytes) (entries : list IndexEntry) : res bytes :=
  match entries with
  | [] => Ok out
  | e :: entries => let? out := encode_index_entry out e in encode_index_entries out entries
  end.

Definition encode_index_block (entries : list IndexEntry) : res bytes :=
  if u32_max <? zlen entries then Err (Corruption "index: too many entries for u32 entry_count")
  else
    let? body := encode_index_entries (le32 (zlen entries)) entries in
    Ok (with_crc body).

(** The loop of [decode_index_block]: [prev] is [entries.last()], [expected] is [expected_offset]. *)
Fixpoint decode_index_entries (fuel : nat) (count : Z) (buf : bytes) (data_region_len pos expected : Z)
    (prev : option bytes) : res (list IndexEntry * Z * Z) :=
  if count <=? 0 then Ok ([], pos, expected)
  else
    let? '(entry, pos) := decode_index_entry buf pos in
    if negb (block_offset entry =? expected) then
      Err (Corruption "index: block_offset is not contiguous with the preceding block (gap or overlap detected)")
    else
      let? e := ok_or (Corruption "index: block_offset + block_length overflow")
                      (checked_add64 (block_offset entry) (block_length entry)) in
      if data_region_len <? e then Err (Corruption "index: block range extends past the data-block region")
      else if match prev with Some p => ltb (last_key entry) p | None => false end then
        Err (Corruption "index: last_key is not ascending")
      else
        match fuel with
        | O => Err (Aborted "fuel")
        | S fuel =>
            let? '(es, pos, expected) :=
              decode_index_entries fuel (count - 1) buf data_region_len pos e (Some (last_key entry)) in
            Ok (entry :: es, pos, expected)
        end.

Definition decode_index_block (buf : bytes) (data_region_len : Z) : res (list IndexEntry) :=
  if zlen buf <? 8 then Err (Corruption "index: shorter than minimum (entry_count + checksum)")
  else
    let? body := split_crc buf "index: checksum mismatch" in
    let? '(entry_count, pos) := read_u32 body 0 in
    let? '(entries, pos, expected_offset) :=
      decode_index_entries (length body) entry_count body data_region_len pos 0 None in
    if negb (pos =? zlen body) then Err (Corruption "index: trailing byte(s) after declared entries")
    else if negb (expected_offset =? data_region_len) then
      Err (Corruption "index: declared blocks do not cover the entire data-block region")
    else Ok entries.

Definition encode_bloom_block (num_bits : Z) (num_hash_functions : byte) (bits : bytes) : bytes :=
  with_crc (le64 num_bits ++ [num_hash_functions] ++ bits).

Record DecodedBloom : Type := {
  num_bits : Z;
  num_hash_functions : byte;
  bits : bytes
}.

Definition decode_bloom_block (buf : bytes) : res DecodedBloom :=
  if zlen buf <? 13 then Err (Corruption "bloom: shorter than minimum header + checksum")
  else
    let? body := split_crc buf "bloom: checksum mismatch" in
    let? '(num_bits, pos) := read_u64 body 0 in
    let? '(num_hash_functions, pos) := read_u8 body pos in
    let expected_bytes := div_ceil num_bits 8 in
    let? _ := checked_len expected_bytes BLOOM_CAP in
    let? '(bits, pos) := read_bytes body pos expected_bytes in
    if negb (pos =? zlen body) then Err (Corruption "bloom: trailing bytes after declared bit array")
    else Ok {| num_bits := num_bits; num_hash_functions := num_hash_functions; bits := bits |}.

Record Footer : Type := {
  format_version : Z;
  min_seq : Z;
  max_seq : Z;
  record_count : Z;
  bloom_offset : Z;
  bloom_length : Z;
  index_offset : Z;
  index_length : Z
}.

Definition footer_encode (f : Footer) : bytes :=
  with_crc (MAGIC ++ le32 (format_version f) ++ le64 (min_seq f) ++ le64 (max_seq f) ++ le64 (record_count f) ++
            le64 (bloom_offset f) ++ le64 (bloom_length f) ++ le64 (index_offset f) ++ le64 (index_length f)).

Definition slice (buf : bytes) (a b : Z) : bytes := ztake (b - a) (zdrop a buf).

Definition footer_decode (buf : bytes) : res Footer :=
  if zlen buf <? FOOTER_SIZE then Err (Corruption "footer: file shorter than FOOTER_SIZE")
  else
    let buf := zdrop (zlen buf - FOOTER_SIZE) buf in
    if negb (bool_decide (slice buf 0 8 = MAGIC)) then Err (Corruption "footer: bad magic")
    else
      let format_version := le_val (slice buf 8 12) in
      if negb (format_version =? SST_FORMAT_VERSION) then Err (Unsupported "sstable format_version")
      else
        let stored_crc := le_val (slice buf 68 72) in
        let actual_crc := crc32c (slice buf 0 68) in
        if negb (stored_crc =? actual_crc) then Err (Corruption "footer: checksum mismatch")
        else Ok {| format_version := format_version;
                   min_seq := le_val (slice buf 12 20);
                   max_seq := le_val (slice buf 20 28);
                   record_count := le_val (slice buf 28 36);
                   bloom_offset := le_val (slice buf 36 44);
                   bloom_length := le_val (slice buf 44 52);
                   index_offset := le_val (slice buf 52 60);
                   index_length := le_val (slice buf 60 68) |}.
End Blocks.

(** ** Reads at a position *)

(** [buf] holds [s] from [pos] to its end. *)
Definition at_pos (buf : bytes) (pos : Z) (s : bytes) : Prop :=
  0 <= pos <= zlen buf /\ zlen buf <= u64_max /\ zdrop pos buf = s.

Lemma at_pos_len buf pos s : at_pos buf pos s -> zlen s = zlen buf - pos.
Proof. intros (Hp & _ & <-). apply zlen_zdrop. lia. Qed.

Lemma read_bytes_at buf pos d post n :
  at_pos buf pos (d ++ post) -> n = zlen d ->
  read_bytes buf pos n = Ok (d, pos + n) /\ at_pos buf (pos + n) post.
Proof.
  intros Hat ->. pose proof (at_pos_len _ _ _ Hat) as Hl. rewrite zlen_app in Hl.
  destruct Hat as (Hp & Hb & Hz). unfold read_bytes, checked_add64, get_range. cmp_lia. cbn [ok_or]. cmp_lia. cbn [ok_or andb].
  rewrite Hz. split; [|split_and!; [lia..|]].
  - by rewrite ztake_app' by lia.
  - rewrite <- zdrop_zdrop, Hz by lia. apply zdrop_app.
Qed.

Lemma read_u32_at buf pos z post :
  at_pos buf pos (le32 z ++ post) -> is_u32 z ->
  read_u32 buf pos = Ok (z, pos + 4) /\ at_pos buf (pos + 4) post.
Proof.
  intros Hat Hz. destruct (read_bytes_at _ _ _ _ 4 Hat) as [E Hat']; [zlen|].
  unfold read_u32. rewrite E. cbn. by rewrite le_val_32.
Qed.

Lemma read_u64_at buf pos z post :
  at_pos buf pos (le64 z ++ post) -> is_u64 z ->
  read_u64 buf pos = Ok (z, pos + 8) /\ at_pos buf (pos + 8) post.
Proof.
  intros Hat Hz. destruct (read_bytes_at _ _ _ _ 8 Hat) as [E Hat']; [zlen|].
  unfold read_u64. rewrite E. cbn. by rewrite le_val_64.
Qed.

Lemma read_u8_at buf pos b post :
  at_pos buf pos (b :: post) -> read_u8 buf pos = Ok (b, pos + 1) /\ at_pos buf (pos + 1) post.
Proof.
  intros Hat. pose proof (at_pos_len _ _ _ Hat) as Hl. simpl length in Hl. destruct Hat as (Hp & Hb & Hz).
  unfold read_u8. rewrite <- (ztake_zdrop pos buf), Hz at 1.
  rewrite get_at_app by (rewrite zlen_ztake; lia). cbn [ok_or].
  split; [done|]. split_and!; [lia..|]. rewrite <- zdrop_zdrop, Hz by lia. done.
Qed.

Lemma read_bytes_inv buf pos n d p :
  0 <= pos -> read_bytes buf pos n = Ok (d, p) ->
  p = pos + n /\ 0 <= n /\ p <= zlen buf /\ zlen d = n /\ zdrop pos buf = d ++ zdrop p buf.
Proof.
  intros Hp. unfold read_bytes. destruct (checked_add64 pos n) as [e|] eqn:Ee; [cbn [ok_or]|done].
  unfold checked_add64 in Ee. case_match; [|done]. simplify_eq.
  destruct (get_range buf pos (pos + n)) as [s|] eqn:Eg; [cbn [ok_or]|done]. intros [= <- <-].
  pose proof Eg as Eg'. apply get_range_Some in Eg' as (Ha & Hb & Hl & _); [|done].
  split_and!; try lia. unfold get_range in Eg. case_match; [|done]. simplify_eq.
  rewrite <- zdrop_zdrop by lia. replace (pos + n - pos) with n in * by lia. by rewrite ztake_zdrop.
Qed.

Lemma read_u32_inv buf pos z p :
  0 <= pos -> read_u32 buf pos = Ok (z, p) ->
  p = pos + 4 /\ p <= zlen buf /\ is_u32 z /\ zdrop pos buf = le32 z ++ zdrop p buf.
Proof.
  intros Hp. unfold read_u32. destruct (read_bytes buf pos 4) as [[d q]|] eqn:E; [|done]. intros [= <- <-].
  apply read_bytes_inv in E as (-> & _ & Hq & Hl & Hz); [|done].
  split_and!; [done|done|by apply le_val_u32|]. rewrite Hz. f_equal.
  rewrite <- (le_bytes_val d) at 1. f_equal. lia.
Qed.

Lemma read_u64_inv buf pos z p :
  0 <= pos -> read_u64 buf pos = Ok (z, p) ->
  p = pos + 8 /\ p <= zlen buf /\ is_u64 z /\ zdrop pos buf = le64 z ++ zdrop p buf.
Proof.
  intros Hp. unfold read_u64. destruct (read_bytes buf pos 8) as [[d q]|] eqn:E; [|done]. intros [= <- <-].
  apply read_bytes_inv in E as (-> & _ & Hq & Hl & Hz); [|done].
  split_and!; [done|done|by apply le_val_u64|]. rewrite Hz. f_equal.
  rewrite <- (le_bytes_val d) at 1. f_equal. lia.
Qed.

Lemma read_u8_inv buf pos b p :
  0 <= pos -> read_u8 buf pos = Ok (b, p) -> p = pos + 1 /\ p <= zlen buf /\ zdrop pos buf = b :: zdrop p buf.
Proof.
  intros Hp. unfold read_u8, get_at. destruct (buf !! Z.to_nat pos) as [c|] eqn:E; [cbn [ok_or]|done].
  intros [= <- <-]. pose proof (lookup_lt_Some _ _ _ E). split_and!; [done|lia|].
  unfold zdrop. rewrite (drop_S _ _ _ E). do 2 f_equal. lia.
Qed.

(** ** Records *)

Definition rec_bytes (r : DecodedRecord) : bytes :=
  le32 (zlen (key r)) ++ key r ++ le64 (seq r) ++ [op r] ++ le32 (zlen (value r)) ++ value r.

Definition rec_valid (r : DecodedRecord) : Prop :=
  zlen (key r) <= MAX_KEY_SIZE /\ zlen (value r) <= MAX_VALUE_SIZE /\ is_u64 (seq r) /\
  (op r = REC_PUT \/ (op r = REC_DELETE /\ value r = [])).

Definition recs_bytes (rs : list DecodedRecord) : bytes := concat (map rec_bytes rs).

Lemma zlen_rec_bytes r : zlen (rec_bytes r) = 17 + zlen (key r) + zlen (value r).
Proof. unfold rec_bytes. zlen. Qed.

Lemma encode_record_spec out r :
  rec_valid r -> encode_record out (key r) (seq r) (op r) (value r) = Ok (out ++ rec_bytes r).
Proof. intros (Hk & Hv & _). unfold encode_record, checked_len. cmp_lia. done. Qed.

Lemma key_size_u32 n : 0 <= n <= MAX_KEY_SIZE -> is_u32 n.
Proof. unfold MAX_KEY_SIZE. unfold_ints. lia. Qed.

Lemma value_size_u32 n : 0 <= n <= MAX_VALUE_SIZE -> is_u32 n.
Proof. unfold MAX_VALUE_SIZE, DEFAULT_MAX_RECORD_LEN. unfold_ints. lia. Qed.

Lemma decode_record_at buf pos r post :
  at_pos buf pos (rec_bytes r ++ post) -> rec_valid r ->
  decode_record buf pos = Ok (r, pos + zlen (rec_bytes r)) /\ at_pos buf (pos + zlen (rec_bytes r)) post.
Proof.
  intros Hat (Hk & Hv & Hs & Hop). unfold rec_bytes in Hat. rewrite <- !app_assoc in Hat.
  rewrite zlen_rec_bytes. unfold decode_record, checked_len.
  edestruct read_u32_at as [E Hat1]; [exact Hat|apply key_size_u32; lia|]. rewrite E; cbv beta iota.
  rewrite (proj2 (Z.ltb_ge _ _)) by done.
  edestruct read_bytes_at as [E1 Hat2]; [exact Hat1|done|]. rewrite E1; cbv beta iota.
  edestruct read_u64_at as [E2 Hat3]; [exact Hat2|done|]. rewrite E2; cbv beta iota.
  edestruct read_u8_at as [E3 Hat4]; [exact Hat3|]. rewrite E3; cbv beta iota.
  assert (negb (eqb (op r) REC_PUT) && negb (eqb (op r) REC_DELETE) = false) as ->.
  { destruct Hop as [->|[-> _]]; done. }
  edestruct read_u32_at as [E4 Hat5]; [exact Hat4|apply value_size_u32; lia|]. rewrite E4; cbv beta iota.
  rewrite (proj2 (Z.ltb_ge _ _)) by done.
  assert (eqb (op r) REC_DELETE && negb (zlen (value r) =? 0) = false) as ->.
  { destruct Hop as [->|[-> ->]]; done. }
  edestruct read_bytes_at as [E5 Hat6]; [exact Hat5|done|]. rewrite E5; cbv beta iota.
  replace (pos + (17 + zlen (key r) + zlen (value r)))
    with (pos + 4 + zlen (key r) + 8 + 1 + 4 + zlen (value r)) by lia.
  split; [|done]. by destruct r.
Qed.

Lemma checked_len_Ok n max m : checked_len n max = Ok m -> n <= max.
Proof. unfold checked_len. case_cmp; [done|lia]. Qed.

Lemma decode_record_inv buf pos r p :
  0 <= pos -> decode_record buf pos = Ok (r, p) ->
  rec_valid r /\ p = pos + zlen (rec_bytes r) /\ p <= zlen buf /\ zdrop pos buf = rec_bytes r ++ zdrop p buf.
Proof.
  intros Hp. unfold decode_record.
  destruct (read_u32 buf pos) as [[kl p1]|] eqn:E1; [|done].
  apply read_u32_inv in E1 as (-> & _ & _ & Z1); [|done].
  destruct (checked_len kl MAX_KEY_SIZE) eqn:Ek; [apply checked_len_Ok in Ek|done].
  destruct (read_bytes buf _ kl) as [[k p2]|] eqn:E2; [|done].
  apply read_bytes_inv in E2 as (-> & Hkl & _ & Hk & Z2); [|lia].
  destruct (read_u64 buf _) as [[s p3]|] eqn:E3; [|done]. apply read_u64_inv in E3 as (-> & _ & Hs & Z3); [|lia].
  destruct (read_u8 buf _) as [[o p4]|] eqn:E4; [|done]. apply read_u8_inv in E4 as (-> & _ & Z4); [|lia].
  destruct (negb (eqb o REC_PUT) && negb (eqb o REC_DELETE)) eqn:Eo; [done|].
  destruct (read_u32 buf _) as [[vl p5]|] eqn:E5; [|done]. apply read_u32_inv in E5 as (-> & _ & Hvl & Z5); [|lia].
  destruct (checked_len vl MAX_VALUE_SIZE) eqn:Ev; [apply checked_len_Ok in Ev|done].
  destruct (eqb o REC_DELETE && negb (vl =? 0)) eqn:Ed; [done|].
  destruct (read_bytes buf _ vl) as [[v p6]|] eqn:E6; [|done].
  apply read_bytes_inv in E6 as (-> & _ & Hle & Hv & Z6); [|lia].
  intros [= <- <-]. rewrite zlen_rec_bytes. cbn [key value]. split_and!; try lia.
  - unfold rec_valid; cbn. rewrite Hk, Hv. split_and!; try done.
    destruct (eqb o REC_PUT) eqn:Ep; [apply eqb_eq in Ep; by left|].
    destruct (eqb o REC_DELETE) eqn:Ed'; [|done]. apply eqb_eq in Ed'. right. split; [done|].
    destruct (Z.eqb_spec vl 0); [|done]. destruct v; [done|simpl in Hv; lia].
  - unfold rec_bytes; cbn [key seq op value]. rewrite Hk, Hv, Z1, Z2, Z3, Z4, Z5, Z6. rewrite <- !app_assoc. done.
Qed.

Lemma decode_records_at rs fuel buf pos post :
  at_pos buf pos (recs_bytes rs ++ post) -> Forall rec_valid rs -> (length rs <= fuel)%nat ->
  decode_records fuel (zlen rs) buf pos = Ok (rs, pos + zlen (recs_bytes rs)) /\
  at_pos buf (pos + zlen (recs_bytes rs)) post.
Proof.
  intros Hat Hv. revert fuel pos Hat. induction Hv as [|r rs Hr Hrs IH]; intros fuel pos Hat Hf.
  - destruct fuel; simpl; change (zlen (@nil DecodedRecord)) with 0; rewrite Z.add_0_r; done.
  - unfold recs_bytes in Hat. simpl in Hat. rewrite <- app_assoc in Hat.
    destruct fuel as [|fuel]; [simpl in Hf; lia|]. cbn [decode_records].
    rewrite (proj2 (Z.leb_gt _ _)) by (simpl length; lia).
    edestruct decode_record_at as [E Hat1]; [exact Hat|done|]. rewrite E; cbv beta iota.
    replace (zlen (r :: rs) - 1) with (zlen rs) by (simpl length; lia).
    destruct (IH fuel _ Hat1) as [E1 Hat2]; [simpl in Hf; lia|]. rewrite E1; cbv beta iota.
    assert (zlen (recs_bytes (r :: rs)) = zlen (rec_bytes r) + zlen (recs_bytes rs)) as ->.
    { unfold recs_bytes; simpl. by rewrite zlen_app. }
    rewrite Z.add_assoc. done.
Qed.

Lemma decode_records_inv fuel count buf pos rs p :
  0 <= pos -> 0 <= count -> decode_records fuel count buf pos = Ok (rs, p) ->
  zlen rs = count /\ Forall rec_valid rs /\ 0 <= p /\ zdrop pos buf = recs_bytes rs ++ zdrop p buf.
Proof.
  revert count pos rs p. induction fuel as [|fuel IH]; intros count pos rs p Hp Hc; cbn [decode_records].
  - destruct (Z.leb_spec count 0); [|by repeat case_match].
    intros [= <- <-]. split_and!; [simpl; lia|done..].
  - destruct (Z.leb_spec count 0); [intros [= <- <-]; split_and!; [simpl; lia|done..]|].
    destruct (decode_record buf pos) as [[r p1]|] eqn:E1; [|done].
    apply decode_record_inv in E1 as (Hr & -> & _ & Z1); [|done]. 
    destruct (decode_records fuel _ buf _) as [[rs' p2]|] eqn:E2; [|done]. intros [= <- <-].
    apply IH in E2 as (Hl & Hrs & Hp2 & Z2); [|lia..]. split_and!; [simpl length; lia|by constructor|done|].
    rewrite Z1, Z2. unfold recs_bytes; simpl. by rewrite app_assoc.
Qed.

Section BlockSpec.
Context `{Crc32c}.

Lemma zlen_with_crc body : zlen (with_crc body) = zlen body + 4.
Proof. unfold with_crc. zlen. Qed.

Lemma split_with_crc body msg : split_crc (with_crc body) msg = Ok body.
Proof.
  unfold split_crc. rewrite zlen_with_crc. replace (zlen body + 4 - 4) with (zlen body) by lia.
  unfold with_crc. rewrite ztake_app, zdrop_app, le_val_32, Z.eqb_refl by apply crc32c_u32. done.
Qed.

Lemma split_crc_inv buf msg body :
  4 <= zlen buf -> split_crc buf msg = Ok body -> buf = with_crc body.
Proof.
  intros Hl. unfold split_crc. destruct (Z.eqb_spec (crc32c (ztake (zlen buf - 4) buf)) (le_val (zdrop (zlen buf - 4) buf)))
    as [Hc|]; [|done].
  intros [= <-]. unfold with_crc. rewrite Hc. rewrite <- (ztake_zdrop (zlen buf - 4) buf) at 1. f_equal.
  assert (zlen (zdrop (zlen buf - 4) buf) = 4) as H4 by (rewrite zlen_zdrop; lia).
  rewrite <- (le_bytes_val (zdrop (zlen buf - 4) buf)) at 1. f_equal. lia.
Qed.

Lemma at_pos_0 buf : zlen buf <= u64_max -> at_pos buf 0 buf.
Proof. intros. split_and!; [lia..|done|done]. Qed.

Lemma recs_bytes_length rs : (length rs <= length (recs_bytes rs))%nat.
Proof.
  induction rs as [|r rs IH]; simpl; [lia|]. unfold recs_bytes in *; simpl. rewrite length_app.
  pose proof (zlen_rec_bytes r). lia.
Qed.

Lemma decode_block_encoded rs :
  Forall rec_valid rs -> zlen rs <= u32_max -> zlen (recs_bytes rs) + 8 <= u64_max ->
  decode_block (finalize_block (zlen rs) (recs_bytes rs)) = Ok rs.
Proof.
  intros Hrs Hn Hlen. unfold decode_block, finalize_block. rewrite zlen_with_crc, zlen_app, length_le_bytes.
  rewrite (proj2 (Z.ltb_ge _ _)) by lia. rewrite split_with_crc.
  set (body := le32 (zlen rs) ++ recs_bytes rs).
  assert (zlen body = 4 + zlen (recs_bytes rs)) as Hb by (unfold body; zlen).
  edestruct read_u32_at as [E Hat]; [apply (at_pos_0 body); lia|unfold_ints; lia|]. rewrite E; cbv beta iota.
  rewrite <- (app_nil_r (recs_bytes rs)) in Hat.
  edestruct decode_records_at as [E1 Hat1]; [exact Hat|done| |].
  { pose proof (recs_bytes_length rs). assert (length (recs_bytes rs) <= length body)%nat by lia. etrans; eassumption. }
  rewrite E1; cbv beta iota. rewrite Hb. rewrite (proj2 (Z.eqb_eq _ _)) by lia. done.
Qed.

Lemma decode_block_inv buf rs :
  decode_block buf = Ok rs ->
  Forall rec_valid rs /\ zlen rs <= u32_max /\ buf = finalize_block (zlen rs) (recs_bytes rs).
Proof.
  unfold decode_block. destruct (Z.ltb_spec (zlen buf) 8); [done|].
  destruct (split_crc buf _) as [body|] eqn:Es; [|done]. apply split_crc_inv in Es as ->; [|lia].
  destruct (read_u32 body 0) as [[n p]|] eqn:E1; [|done]. apply read_u32_inv in E1 as (-> & _ & Hn & Z1); [|done].
  destruct (decode_records _ n body _) as [[rs' p]|] eqn:E2; [|done].
  apply decode_records_inv in E2 as (Hl & Hrs & Hp & Z2); [|unfold_ints; lia..].
  destruct (Z.eqb_spec p (zlen body)); cbn [negb]; [|done]. intros [= ->]. subst p.
  split_and!; [done|unfold_ints; lia|]. unfold finalize_block. f_equal.
  rewrite zdrop_0, Z2, (zdrop_all' (zlen body)), app_nil_r in Z1 by lia. by rewrite Z1, Hl.
Qed.

(** ** Index entries *)

Definition entry_bytes (e : IndexEntry) : bytes :=
  le32 (zlen (last_key e)) ++ last_key e ++ le64 (block_offset e) ++ le32 (block_length e).

Definition entries_bytes (es : list IndexEntry) : bytes := concat (map entry_bytes es).

Definition entry_valid (e : IndexEntry) : Prop :=
  zlen (last_key e) <= MAX_KEY_SIZE /\ is_u64 (block_offset e) /\ is_u32 (block_length e).

Lemma zlen_entry_bytes e : zlen (entry_bytes e) = 16 + zlen (last_key e).
Proof. unfold entry_bytes. zlen. Qed.

(** Blocks laid end to end from [off], with last keys that never decrease. *)
Fixpoint index_layout (off : Z) (prev : option bytes) (es : list IndexEntry) : Prop :=
  match es with
  | [] => True
  | e :: es =>
      block_offset e = off /\ match prev with Some p => cmp p (last_key e) <> Gt | None => True end /\
      index_layout (off + block_length e) (Some (last_key e)) es
  end.

Definition data_len (es : list IndexEntry) : Z := fold_right (fun e n => block_length e + n) 0 es.

Lemma data_len_nonneg es : Forall entry_valid es -> 0 <= data_len es.
Proof. induction 1 as [|e es (_ & _ & He) _ IH]; simpl; [lia|]. unfold_ints. lia. Qed.

Lemma encode_index_entries_spec out es :
  Forall (fun e => zlen (last_key e) <= MAX_KEY_SIZE) es -> encode_index_entries out es = Ok (out ++ entries_bytes es).
Proof.
  intros Hes. revert out. induction Hes as [|e es He Hes IH]; intros out; simpl; [by rewrite app_nil_r|].
  unfold encode_index_entry, checked_len. rewrite (proj2 (Z.ltb_ge _ _)) by done.
  rewrite IH. unfold entries_bytes; simpl. fold (entry_bytes e). by rewrite <- app_assoc.
Qed.

Lemma decode_index_entry_at buf pos e post :
  at_pos buf pos (entry_bytes e ++ post) -> entry_valid e ->
  decode_index_entry buf pos = Ok (e, pos + zlen (entry_bytes e)) /\ at_pos buf (pos + zlen (entry_bytes e)) post.
Proof.
  intros Hat (Hk & Ho & Hl). unfold entry_bytes in Hat. rewrite <- !app_assoc in Hat.
  rewrite zlen_entry_bytes. unfold decode_index_entry, checked_len.
  edestruct read_u32_at as [E Hat1]; [exact Hat|apply key_size_u32; lia|]. rewrite E; cbv beta iota.
  rewrite (proj2 (Z.ltb_ge _ _)) by done.
  edestruct read_bytes_at as [E1 Hat2]; [exact Hat1|done|]. rewrite E1; cbv beta iota.
  edestruct read_u64_at as [E2 Hat3]; [exact Hat2|done|]. rewrite E2; cbv beta iota.
  edestruct read_u32_at as [E3 Hat4]; [exact Hat3|done|]. rewrite E3; cbv beta iota.
  replace (pos + (16 + zlen (last_key e))) with (pos + 4 + zlen (last_key e) + 8 + 4) by lia.
  split; [|done]. by destruct e.
Qed.

Lemma decode_index_entry_inv buf pos e p :
  0 <= pos -> decode_index_entry buf pos = Ok (e, p) ->
  entry_valid e /\ p = pos + zlen (entry_bytes e) /\ p <= zlen buf /\ zdrop pos buf = entry_bytes e ++ zdrop p buf.
Proof.
  intros Hp. unfold decode_index_entry.
  destruct (read_u32 buf pos) as [[kl p1]|] eqn:E1; [|done].
  apply read_u32_inv in E1 as (-> & _ & _ & Z1); [|done].
  destruct (checked_len kl MAX_KEY_SIZE) eqn:Ek; [apply checked_len_Ok in Ek|done].
  destruct (read_bytes buf _ kl) as [[k p2]|] eqn:E2; [|done].
  apply read_bytes_inv in E2 as (-> & Hkl & _ & Hk & Z2); [|lia].
  destruct (read_u64 buf _) as [[o p3]|] eqn:E3; [|done]. apply read_u64_inv in E3 as (-> & _ & Ho & Z3); [|lia].
  destruct (read_u32 buf _) as [[l p4]|] eqn:E4; [|done]. apply read_u32_inv in E4 as (-> & Hle & Hl & Z4); [|lia].
  intros [= <- <-]. rewrite zlen_entry_bytes. cbn [last_key]. split_and!; try lia.
  - unfold entry_valid; cbn. by rewrite Hk.
  - unfold entry_bytes; cbn [last_key block_offset block_length]. rewrite Hk, Z1, Z2, Z3, Z4. by rewrite <- !app_assoc.
Qed.

Lemma decode_index_entries_at es fuel buf pos off prev region post :
  at_pos buf pos (entries_bytes es ++ post) -> Forall entry_valid es -> (length es <= fuel)%nat ->
  index_layout off prev es -> off + data_len es <= region <= u64_max ->
  decode_index_entries fuel (zlen es) buf region pos off prev =
    Ok (es, pos + zlen (entries_bytes es), off + data_len es) /\
  at_pos buf (pos + zlen (entries_bytes es)) post.
Proof.
  intros Hat Hv. revert fuel pos off prev Hat. induction Hv as [|e es He Hes IH]; intros fuel pos off prev Hat Hf Hlay Hr.
  - destruct fuel; simpl; change (zlen (@nil IndexEntry)) with 0; rewrite !Z.add_0_r; done.
  - unfold entries_bytes in Hat. simpl in Hat. rewrite <- app_assoc in Hat. destruct Hlay as (Hoff & Hprev & Hlay).
    pose proof (data_len_nonneg es Hes). pose proof (proj2 (proj2 He)). simpl in Hr.
    destruct fuel as [|fuel]; [simpl in Hf; lia|]. cbn [decode_index_entries].
    rewrite (proj2 (Z.leb_gt _ _)) by (simpl length; lia).
    edestruct decode_index_entry_at as [E Hat1]; [exact Hat|done|]. rewrite E; cbv beta iota.
    rewrite (proj2 (Z.eqb_eq _ _)) by done. cbn [negb]. unfold checked_add64.
    rewrite (proj2 (Z.leb_le _ _)) by lia. cbn [ok_or].
    rewrite (proj2 (Z.ltb_ge _ _)) by lia.
    assert ((match prev with Some p => ltb (last_key e) p | None => false end) = false) as ->.
    { destruct prev as [p|]; [|done]. apply leb_le in Hprev. rewrite leb_negb_ltb in Hprev. by destruct (ltb _ p). }
    replace (zlen (e :: es) - 1) with (zlen es) by (simpl length; lia). rewrite Hoff.
    destruct (IH fuel _ (off + block_length e) (Some (last_key e)) Hat1) as [E1 Hat2];
      [simpl in Hf; lia|done|lia|]. rewrite E1; cbv beta iota.
    assert (zlen (entries_bytes (e :: es)) = zlen (entry_bytes e) + zlen (entries_bytes es)) as ->.
    { unfold entries_bytes; simpl. by rewrite zlen_app. }
    simpl. rewrite !Z.add_assoc. done.
Qed.

Lemma decode_index_entries_inv fuel count buf pos off prev region es p off' :
  0 <= pos -> 0 <= count -> decode_index_entries fuel count buf region pos off prev = Ok (es, p, off') ->
  zlen es = count /\ Forall entry_valid es /\ 0 <= p /\ off' = off + data_len es /\ index_layout off prev es /\
  zdrop pos buf = entries_bytes es ++ zdrop p buf.
Proof.
  revert count pos off prev es p off'. induction fuel as [|fuel IH]; intros count pos off prev es p off' Hp Hc;
    cbn [decode_index_entries].
  - destruct (Z.leb_spec count 0); [|by repeat case_match].
    intros [= <- <- <-]. split_and!; simpl; lia || done.
  - destruct (Z.leb_spec count 0); [intros [= <- <- <-]; split_and!; simpl; lia || done|].
    destruct (decode_index_entry buf pos) as [[e p1]|] eqn:E1; [|done].
    apply decode_index_entry_inv in E1 as (He & -> & _ & Z1); [|done].
    destruct (Z.eqb_spec (block_offset e) off) as [Hoff|]; cbn [negb]; [|done].
    destruct (checked_add64 _ _) as [end_|] eqn:Ea; cbn [ok_or]; [|done].
    unfold checked_add64 in Ea. destruct (Z.leb_spec (block_offset e + block_length e) u64_max); [|done]. simplify_eq.
    destruct (region <? _); [done|].
    destruct (match prev with Some p => ltb (last_key e) p | None => false end) eqn:Ep; [done|].
    destruct (decode_index_entries fuel _ buf _ _ _ _) as [[[es' p2] o2]|] eqn:E2; [|done]. intros [= <- <- <-].
    apply IH in E2 as (Hl & Hes & Hp2 & -> & Hlay & Z2); [|lia..]. simpl.
    split_and!; [lia|by constructor|done|lia|done| |done|].
    + destruct prev as [q|]; [|done]. apply leb_le. by rewrite leb_negb_ltb, Ep.
    + rewrite Z1, Z2. unfold entries_bytes; simpl. by rewrite app_assoc.
Qed.

Lemma entries_bytes_length es : (length es <= length (entries_bytes es))%nat.
Proof.
  induction es as [|e es IH]; simpl; [lia|]. unfold entries_bytes in *; simpl. rewrite length_app.
  pose proof (zlen_entry_bytes e). lia.
Qed.

Lemma decode_index_block_encoded es region :
  Forall entry_valid es -> zlen es <= u32_max -> zlen (entries_bytes es) + 8 <= u64_max ->
  index_layout 0 None es -> data_len es = region -> region <= u64_max ->
  decode_index_block (with_crc (le32 (zlen es) ++ entries_bytes es)) region = Ok es.
Proof.
  intros Hes Hn Hlen Hlay Hdl Hru. unfold decode_index_block. rewrite zlen_with_crc, zlen_app, length_le_bytes.
  rewrite (proj2 (Z.ltb_ge _ _)) by lia. rewrite split_with_crc.
  set (body := le32 (zlen es) ++ entries_bytes es).
  assert (zlen body = 4 + zlen (entries_bytes es)) as Hb by (unfold body; zlen).
  edestruct read_u32_at as [E Hat]; [apply (at_pos_0 body); lia|unfold_ints; lia|]. rewrite E; cbv beta iota.
  rewrite <- (app_nil_r (entries_bytes es)) in Hat.
  edestruct (decode_index_entries_at es (length body)) as [E1 Hat1]; [exact Hat|done| |exact Hlay| |].
  { pose proof (entries_bytes_length es). assert (length (entries_bytes es) <= length body)%nat by lia. etrans; eassumption. }
  { rewrite <- Hdl in *. split; [apply Z.le_refl|]. exact Hru. }
  rewrite Z.add_0_l, Hdl in E1. rewrite E1; cbv beta iota. rewrite Hb.
  rewrite (proj2 (Z.eqb_eq _ _)) by lia. cbn [negb]. by rewrite Z.eqb_refl.
Qed.

Lemma decode_index_block_inv buf region es :
  decode_index_block buf region = Ok es ->
  Forall entry_valid es /\ zlen es <= u32_max /\ index_layout 0 None es /\ data_len es = region /\
  buf = with_crc (le32 (zlen es) ++ entries_bytes es).
Proof.
  unfold decode_index_block. destruct (Z.ltb_spec (zlen buf) 8); [done|].
  destruct (split_crc buf _) as [body|] eqn:Es; [|done]. apply split_crc_inv in Es as ->; [|lia].
  destruct (read_u32 body 0) as [[n p]|] eqn:E1; [|done]. apply read_u32_inv in E1 as (-> & _ & Hn & Z1); [|done].
  destruct (decode_index_entries _ n body _ _ _ _) as [[[es' p] o]|] eqn:E2; [|done].
  apply decode_index_entries_inv in E2 as (Hl & Hes & Hp & -> & Hlay & Z2); [|unfold_ints; lia..].
  destruct (Z.eqb_spec p (zlen body)); cbn [negb]; [|done].
  destruct (Z.eqb_spec (0 + data_len es') region) as [Hr|]; cbn [negb]; [|done]. intros [= ->]. subst p.
  split_and!; try done; [unfold_ints; lia|]. f_equal.
  rewrite zdrop_0, Z2, (zdrop_all' (zlen body)), app_nil_r in Z1 by lia. by rewrite Z1, Hl.
Qed.

(** ** Bloom block and footer *)

Lemma decode_bloom_block_encoded nb nh bs :
  is_u64 nb -> zlen bs = div_ceil nb 8 -> zlen bs <= BLOOM_CAP ->
  decode_bloom_block (encode_bloom_block nb nh bs) = Ok {| num_bits := nb; num_hash_functions := nh; bits := bs |}.
Proof.
  intros Hnb Hbs Hcap. unfold decode_bloom_block, encode_bloom_block. set (body := le64 nb ++ [nh] ++ bs).
  assert (zlen body = 9 + zlen bs) as Hb by (unfold body; zlen).
  rewrite zlen_with_crc, Hb. rewrite (proj2 (Z.ltb_ge _ _)) by lia. rewrite split_with_crc.
  edestruct read_u64_at as [E Hat]; [apply (at_pos_0 body); unfold BLOOM_CAP in Hcap; unfold_ints; lia|done|].
  rewrite E; cbv beta iota.
  edestruct read_u8_at as [E1 Hat1]; [exact Hat|]. rewrite E1; cbv beta iota.
  unfold checked_len. rewrite <- Hbs. rewrite (proj2 (Z.ltb_ge _ _)) by done.
  change (at_pos body (0 + 8 + 1) bs) in Hat1. rewrite <- (app_nil_r bs) in Hat1.
  edestruct read_bytes_at as [E2 Hat2]; [exact Hat1|reflexivity|]. rewrite E2; cbv beta iota.
  rewrite Hb. rewrite (proj2 (Z.eqb_eq _ _)) by lia. done.
Qed.

Lemma decode_bloom_block_inv buf d :
  decode_bloom_block buf = Ok d ->
  is_u64 (num_bits d) /\ zlen (bits d) = div_ceil (num_bits d) 8 /\ zlen (bits d) <= BLOOM_CAP /\
  buf = encode_bloom_block (num_bits d) (num_hash_functions d) (bits d).
Proof.
  unfold decode_bloom_block. destruct (Z.ltb_spec (zlen buf) 13); [done|].
  destruct (split_crc buf _) as [body|] eqn:Es; [|done]. apply split_crc_inv in Es as ->; [|lia].
  destruct (read_u64 body 0) as [[nb p]|] eqn:E1; [|done]. apply read_u64_inv in E1 as (-> & _ & Hn & Z1); [|done].
  destruct (read_u8 body _) as [[nh p]|] eqn:E2; [|done]. apply read_u8_inv in E2 as (-> & _ & Z2); [|done].
  destruct (checked_len _ BLOOM_CAP) eqn:Ec; [apply checked_len_Ok in Ec|done].
  destruct (read_bytes body _ _) as [[bs p]|] eqn:E3; [|done].
  apply read_bytes_inv in E3 as (-> & _ & _ & Hl & Z3); [|done].
  match goal with |- context [?p =? zlen body] => destruct (Z.eqb_spec p (zlen body)) as [Hp|] end; cbn [negb]; [|done].
  intros [= <-]. cbn. split_and!; try done; [lia|]. unfold encode_bloom_block. f_equal.
  rewrite zdrop_0, Z2, Z3, Hp, (zdrop_all' (zlen body)), app_nil_r in Z1 by lia. by rewrite Z1.
Qed.

Lemma slice_step buf a b d rest :
  zdrop a buf = d ++ rest -> 0 <= a -> b = a + zlen d -> slice buf a b = d /\ zdrop b buf = rest.
Proof.
  intros Hz Ha ->. unfold slice. rewrite Hz, <- zdrop_zdrop, Hz by lia.
  split; [apply ztake_app'; lia|apply zdrop_app].
Qed.

Lemma slice_split (buf : bytes) a b :
  0 <= a <= b -> b <= zlen buf -> zlen (slice buf a b) = b - a /\ zdrop a buf = slice buf a b ++ zdrop b buf.
Proof.
  intros Ha Hb. unfold slice. split; [rewrite zlen_ztake; [lia|rewrite zlen_zdrop; lia]|].
  replace b with (a + (b - a)) at 2 by lia. rewrite <- zdrop_zdrop by lia. by rewrite ztake_zdrop.
Qed.

Definition footer_valid (f : Footer) : Prop :=
  format_version f = SST_FORMAT_VERSION /\ is_u64 (min_seq f) /\ is_u64 (max_seq f) /\ is_u64 (record_count f) /\
  is_u64 (bloom_offset f) /\ is_u64 (bloom_length f) /\ is_u64 (index_offset f) /\ is_u64 (index_length f).

Lemma zlen_footer f : zlen (footer_encode f) = 72.
Proof. unfold footer_encode. rewrite zlen_with_crc. unfold MAGIC. zlen. Qed.

Lemma footer_decode_encoded pre f : footer_valid f -> footer_decode (pre ++ footer_encode f) = Ok f.
Proof.
  intros (Hver & H1 & H2 & H3 & H4 & H5 & H6 & H7). unfold footer_decode, FOOTER_SIZE.
  rewrite zlen_app, zlen_footer. rewrite (proj2 (Z.ltb_ge _ _)) by lia.
  rewrite zdrop_app' by lia. set (buf := footer_encode f).
  assert (zdrop 0 buf = MAGIC ++ zdrop 8 buf) as Z0 by done.
  destruct (slice_step buf 0 8 _ _ Z0) as [-> _]; [done..|]. rewrite bool_decide_eq_true_2 by done. cbn [negb].
  unfold buf, footer_encode, with_crc in Z0. rewrite <- !app_assoc in Z0. change (zdrop 0 ?x) with x in Z0.
  apply app_inv_head in Z0. symmetry in Z0. fold buf in Z0.
  match type of Z0 with context [crc32c ?x] => set (body := x) in Z0 end.
  destruct (slice_step buf 8 12 _ _ Z0) as [-> Z1]; [done|zlen|].
  destruct (slice_step buf 12 20 _ _ Z1) as [-> Z2]; [done|zlen|].
  destruct (slice_step buf 20 28 _ _ Z2) as [-> Z3]; [done|zlen|].
  destruct (slice_step buf 28 36 _ _ Z3) as [-> Z4]; [done|zlen|].
  destruct (slice_step buf 36 44 _ _ Z4) as [-> Z5]; [done|zlen|].
  destruct (slice_step buf 44 52 _ _ Z5) as [-> Z6]; [done|zlen|].
  destruct (slice_step buf 52 60 _ _ Z6) as [-> Z7]; [done|zlen|].
  destruct (slice_step buf 60 68 _ _ Z7) as [-> Z8]; [done|zlen|].
  rewrite <- (app_nil_r (le32 _)) in Z8.
  destruct (slice_step buf 68 72 _ _ Z8) as [-> _]; [done|zlen|].
  rewrite Hver, !le_val_32 by (apply crc32c_u32 || done).
  assert (slice buf 0 68 = body) as ->.
  { unfold slice. change (zdrop 0 buf) with buf. unfold buf, footer_encode, with_crc. apply ztake_app'. unfold body. rewrite !zlen_app, !length_le_bytes. done. }
  rewrite !Z.eqb_refl. cbn [negb]. rewrite !le_val_64 by done. rewrite <- Hver. by destruct f.
Qed.

Lemma le64_slice (buf : bytes) a b : zlen (slice buf a b) = 8 -> slice buf a b = le64 (le_val (slice buf a b)).
Proof. intros Hl. rewrite <- (le_bytes_val (slice buf a b)) at 1. f_equal. lia. Qed.

Lemma le32_slice (buf : bytes) a b : zlen (slice buf a b) = 4 -> slice buf a b = le32 (le_val (slice buf a b)).
Proof. intros Hl. rewrite <- (le_bytes_val (slice buf a b)) at 1. f_equal. lia. Qed.

Lemma footer_decode_inv buf f :
  footer_decode buf = Ok f -> footer_valid f /\ 72 <= zlen buf /\ zdrop (zlen buf - 72) buf = footer_encode f.
Proof.
  unfold footer_decode, FOOTER_SIZE. destruct (Z.ltb_spec (zlen buf) 72); [done|].
  set (b := zdrop (zlen buf - 72) buf). assert (zlen b = 72) as Hb by (unfold b; rewrite zlen_zdrop; lia).
  destruct (bool_decide _) eqn:Em; cbn [negb]; [|done]. apply bool_decide_eq_true in Em.
  destruct (Z.eqb_spec (le_val (slice b 8 12)) SST_FORMAT_VERSION) as [Hv|]; cbn [negb]; [|done].
  destruct (Z.eqb_spec (le_val (slice b 68 72)) (crc32c (slice b 0 68))) as [Hc|]; cbn [negb]; [|done].
  intros [= <-].
  destruct (slice_split b 0 8) as [L0 Z0]; [lia..|]. destruct (slice_split b 8 12) as [L1 Z1]; [lia..|].
  destruct (slice_split b 12 20) as [L2 Z2]; [lia..|]. destruct (slice_split b 20 28) as [L3 Z3]; [lia..|].
  destruct (slice_split b 28 36) as [L4 Z4]; [lia..|]. destruct (slice_split b 36 44) as [L5 Z5]; [lia..|].
  destruct (slice_split b 44 52) as [L6 Z6]; [lia..|]. destruct (slice_split b 52 60) as [L7 Z7]; [lia..|].
  destruct (slice_split b 60 68) as [L8 Z8]; [lia..|]. destruct (slice_split b 68 72) as [L9 Z9]; [lia..|].
  destruct (slice_split b 0 68) as [L10 Z10]; [lia..|].
  split_and!; [|done|].
  - unfold footer_valid; cbn. split_and!; try done; apply le_val_u64; lia.
  - unfold footer_encode, with_crc; cbn [format_version min_seq max_seq record_count bloom_offset bloom_length
      index_offset index_length].
    rewrite <- !le64_slice, <- le32_slice by lia. rewrite <- Em.
    assert (b = slice b 0 68 ++ slice b 68 72) as Hsp.
    { change b with (zdrop 0 b) at 1. rewrite Z10, Z9, (zdrop_all' 72), app_nil_r by lia. done. }
    assert (slice b 0 8 ++ slice b 8 12 ++ slice b 12 20 ++ slice b 20 28 ++ slice b 28 36 ++ slice b 36 44 ++
      slice b 44 52 ++ slice b 52 60 ++ slice b 60 68 = slice b 0 68) as ->.
    { apply (app_inv_tail (zdrop 68 b)). rewrite <- Z10. rewrite <- !app_assoc.
      by rewrite <- Z8, <- Z7, <- Z6, <- Z5, <- Z4, <- Z3, <- Z2, <- Z1, <- Z0. }
    rewrite <- Hc, <- le32_slice by lia. exact Hsp.
Qed.
End BlockSpec.

(** ** Theorems *)

Section FormatTheorems.
Context `{Crc32c}.

(** C30: data blocks.  The bytes [decode_block] accepts are exactly the finalised encodings of lists of valid records, and
    it returns the list encoded: encoding then decoding is the identity, and no other byte string is accepted. *)
Theorem decode_block_iff buf rs :
  zlen buf <= u64_max ->
  decode_block buf = Ok rs <->
  Forall rec_valid rs /\ zlen rs <= u32_max /\ buf = finalize_block (zlen rs) (recs_bytes rs).
Proof.
  intros Hb. split; [apply decode_block_inv|]. intros (Hrs & Hn & ->).
  apply decode_block_encoded; [done..|]. unfold finalize_block in Hb.
  rewrite zlen_with_crc, zlen_app, length_le_bytes in Hb. lia.
Qed.

(** The index block.  It decodes exactly when its entries lay the data blocks end to end from offset 0, cover the
    data region completely and have last keys that never decrease, and the bytes are the encoding of those entries. *)
Theorem decode_index_block_iff buf region es :
  zlen buf <= u64_max -> region <= u64_max ->
  decode_index_block buf region = Ok es <->
  Forall entry_valid es /\ zlen es <= u32_max /\ index_layout 0 None es /\ data_len es = region /\
  encode_index_block es = Ok buf.
Proof.
  intros Hb Hr.
  assert (Forall entry_valid es -> zlen es <= u32_max ->
    encode_index_block es = Ok (with_crc (le32 (zlen es) ++ entries_bytes es))) as Henc.
  { intros Hes Hn. unfold encode_index_block. rewrite (proj2 (Z.ltb_ge _ _)) by done.
    rewrite encode_index_entries_spec; [done|]. eapply Forall_impl; [exact Hes|]. by intros e (Hk & _). }
  split.
  - intros (Hes & Hn & Hlay & Hd & ->)%decode_index_block_inv. split_and!; try done. by apply Henc.
  - intros (Hes & Hn & Hlay & Hd & He). rewrite Henc in He by done. injection He as <-.
    apply decode_index_block_encoded; try done.
    rewrite zlen_with_crc, zlen_app, length_le_bytes in Hb. lia.
Qed.

(** The bloom block and the footer.  Each decodes exactly from its own encoding: a bloom block whose bit array has the
    declared size and fits the 256 MiB cap, and a footer of this format version at the end of the file. *)
Theorem bloom_and_footer_iff buf d f :
  (decode_bloom_block buf = Ok d <->
   is_u64 (num_bits d) /\ zlen (bits d) = div_ceil (num_bits d) 8 /\ zlen (bits d) <= BLOOM_CAP /\
   buf = encode_bloom_block (num_bits d) (num_hash_functions d) (bits d)) /\
  (footer_decode buf = Ok f <-> footer_valid f /\ exists pre, buf = pre ++ footer_encode f).
Proof.
  split; split.
  - apply decode_bloom_block_inv.
  - intros (Hn & Hl & Hc & ->). rewrite decode_bloom_block_encoded by done. by destruct d.
  - intros (Hf & Hl & Hz)%footer_decode_inv. split; [done|]. exists (ztake (zlen buf - 72) buf).
    by rewrite <- Hz, ztake_zdrop.
  - intros [Hf [pre ->]]. by apply footer_decode_encoded.
Qed.
End FormatTheorems.

(** ** Witnesses *)

Definition demo_records : list DecodedRecord :=
  [{| key := [x61]; seq := 1; op := REC_PUT; value := [x31; x32] |};
   {| key := [x61]; seq := 4; op := REC_DELETE; value := [] |}].

Lemma decode_block_iff_witness :
  let buf := finalize_block 2 (recs_bytes demo_records) in
  zlen buf <= u64_max /\ decode_block buf = Ok demo_records.
Proof.
  intros buf. split; [by_eval|]. apply (decode_block_iff buf demo_records); [by_eval|].
  split_and!; [|by_eval..].
  constructor; [|constructor; [|constructor]]; (split_and!; [by_eval..|]); [by left|by right].
Defined.

Lemma decode_index_block_iff_witness :
  let es := [{| last_key := [x61]; block_offset := 0; block_length := 40 |};
             {| last_key := [x61]; block_offset := 40; block_length := 30 |}] in
  let buf := with_crc (le32 2 ++ entries_bytes es) in
  zlen buf <= u64_max /\ decode_index_block buf 70 = Ok es.
Proof.
  intros es buf. split; [by_eval|]. apply (decode_index_block_iff buf 70 es); [by_eval..|].
  split_and!; by_eval.
Defined.

End Fmt.
