(* ===== verification/Bloom.v ===== *)
(** * Bloom filters ([src/src/sstable/bloom.rs])

    Sizing, insertion and the membership test, at the bit level.  A run-time panic of the source (remainder by a zero
    [num_bits], an index past the bit array) is [None]. *)

From stdpp Require Import base list option strings.
From Stdlib Require Import ZArith Lia.
From Stdlib Require Import Strings.Byte.
From S2P Require Import Prelude EngineError Checksum WalFormat SsFormat.

Module Bloom.

(** [f64::consts::LN_2] is [LN_2_MANTISSA / 2^53]. *)
Definition LN_2_MANTISSA : Z := 6243314768165359.

(** The [f64] nearest to [p / 2^53] (ties to even), as a numerator over [2^53]. *)
Definition f64_round (p : Z) : Z :=
  let k := Z.log2 p + 1 - 53 in
  if k <=? 0 then p
  else
    let q := Z.shiftr p k in
    let r := p - Z.shiftl q k in
    let half := Z.shiftl 1 (k - 1) in
    let q := if (half <? r) || ((r =? half) && Z.odd q) then q + 1 else q in
    Z.shiftl q k.

(** [(bits_per_key as f64 * LN_2).round().clamp(1.0, 255.0) as u8]; [round] takes halves away from zero. *)
Definition num_hash_functions_for (bits_per_key : Z) : Z :=
  let n := (f64_round (bits_per_key * LN_2_MANTISSA) + 2 ^ 52) / 2 ^ 53 in
  Z.max 1 (Z.min n u8_max).

Definition MAX_BLOOM_BIT_ARRAY_BYTES : Z := 256 * 1024 * 1024.

Definition bloom_num_bits (expected_keys bits_per_key : Z) : Z :=
  let n := saturating_mul64 expected_keys bits_per_key in
  if n =? 0 then 1 else n.

Definition max_record_count_for_bloom_cap (bits_per_key : Z) : Z :=
  if bits_per_key =? 0 then u64_max else (MAX_BLOOM_BIT_ARRAY_BYTES * 8) / bits_per_key.

Record BloomFilter : Type := {
  num_bits : Z;
  num_hash_functions : byte;
  bits : bytes
}.

Definition new_for_key_count (expected_keys bits_per_key : Z) : BloomFilter :=
  let num_bits := bloom_num_bits expected_keys bits_per_key in
  {| num_bits := num_bits;
     num_hash_functions := z2b (num_hash_functions_for bits_per_key);
     bits := replicate (Z.to_nat (div_ceil num_bits 8)) x00 |}.

Definition from_parts (num_bits : Z) (num_hash_functions : byte) (bits : bytes) : BloomFilter :=
  {| num_bits := num_bits; num_hash_functions := num_hash_functions; bits := bits |}.

Section Filter.
Context `{Xxh64}.

Definition hash_pair (key : bytes) : Z * Z := (xxh64 key 0, xxh64 key 1).

(** The mapped range; the division panics on the first item when [num_bits] is zero. *)
Definition bit_positions (f : BloomFilter) (key : bytes) : option (list Z) :=
  let '(h1, h2) := hash_pair key in
  let n := b2z (num_hash_functions f) in
  if (num_bits f =? 0) && (0 <? n) then None
  else Some (map (fun i => wrapping_add64 h1 (wrapping_mul64 (Z.of_nat i) h2) mod num_bits f) (seq 0 (Z.to_nat n))).

(** [self.bits[byte] |= 1u8 << (bit % 8)]. *)
Definition set_bit (bits : bytes) (bit : Z) : option bytes :=
  b ← get_at bits (bit / 8);
  Some (<[Z.to_nat (bit / 8) := z2b (Z.lor (b2z b) (Z.shiftl 1 (bit mod 8)))]> bits).

(** [self.bits[byte] & mask != 0]. *)
Definition test_bit (bits : bytes) (bit : Z) : option bool :=
  b ← get_at bits (bit / 8);
  Some (negb (Z.land (b2z b) (Z.shiftl 1 (bit mod 8)) =? 0)).

Fixpoint set_bits (bits : bytes) (positions : list Z) : option bytes :=
  match positions with
  | [] => Some bits
  | bit :: positions => bits' ← set_bit bits bit; set_bits bits' positions
  end.

(** [Iterator::all]: stops at the first clear bit. *)
Fixpoint all_bits (bits : bytes) (positions : list Z) : option bool :=
  match positions with
  | [] => Some true
  | bit :: positions =>
      b ← test_bit bits bit;
      if b : bool then all_bits bits positions else Some false
  end.

Definition insert (f : BloomFilter) (key : bytes) : option BloomFilter :=
  positions ← bit_positions f key;
  bits' ← set_bits (bits f) positions;
  Some {| num_bits := num_bits f; num_hash_functions := num_hash_functions f; bits := bits' |}.

Definition might_contain (f : BloomFilter) (key : bytes) : option bool :=
  positions ← bit_positions f key;
  all_bits (bits f) positions.
End Filter.

Definition bloom_default : BloomFilter := new_for_key_count 0 Fmt.DEFAULT_BLOOM_BITS_PER_KEY.

(** ** Bits *)

Definition in_range (bits : bytes) (bit : Z) : Prop := 0 <= bit / 8 < zlen bits.

Lemma test_bit_testbit bits bit b :
  get_at bits (bit / 8) = Some b -> test_bit bits bit = Some (Z.testbit (b2z b) (bit mod 8)).
Proof.
  intros Hb. unfold test_bit. rewrite Hb. simpl. f_equal.
  pose proof (Z.mod_pos_bound bit 8 eq_refl) as Hm.
  rewrite Z.shiftl_1_l. destruct (Z.testbit (b2z b) (bit mod 8)) eqn:Et.
  - destruct (Z.eqb_spec (Z.land (b2z b) (2 ^ (bit mod 8))) 0) as [E|]; [|done].
    apply (f_equal (fun z => Z.testbit z (bit mod 8))) in E.
    rewrite Z.land_spec, Et, Z.pow2_bits_true, Z.bits_0 in E by lia. done.
  - destruct (Z.eqb_spec (Z.land (b2z b) (2 ^ (bit mod 8))) 0) as [|E]; [done|].
    exfalso. apply E. apply Z.bits_inj_0. intros n. rewrite Z.land_spec, Z.pow2_bits_eqb by lia.
    destruct (Z.eqb_spec (bit mod 8) n) as [<-|]; [by rewrite Et|by rewrite andb_false_r].
Qed.

Lemma lor_mask_byte b i : 0 <= i < 8 -> 0 <= Z.lor (b2z b) (2 ^ i) < 256.
Proof.
  intros Hi. pose proof (b2z_range b) as Hb. pose proof (Z.pow_pos_nonneg 2 i ltac:(lia) ltac:(lia)).
  split; [apply Z.lor_nonneg; lia|].
  assert (2 ^ i < 2 ^ 8) by (apply Z.pow_lt_mono_r; lia).
  destruct (Z.eq_dec (Z.lor (b2z b) (2 ^ i)) 0) as [->|Hnz]; [lia|].
  apply (Z.log2_lt_cancel _ (2 ^ 8)). rewrite Z.log2_pow2, Z.log2_lor by lia.
  rewrite Z.log2_pow2 by lia. apply Z.max_lub_lt; [|lia].
  destruct (Z.eq_dec (b2z b) 0) as [->|]; [done|]. apply Z.log2_lt_pow2; lia.
Qed.

Lemma set_bit_ok bits bit :
  in_range bits bit -> exists bits', set_bit bits bit = Some bits' /\ zlen bits' = zlen bits /\
    test_bit bits' bit = Some true /\
    (forall j, in_range bits j -> test_bit bits j = Some true -> test_bit bits' j = Some true).
Proof.
  intros Hr. unfold in_range in Hr. pose proof (Z.mod_pos_bound bit 8 eq_refl) as Hm.
  destruct (lookup_lt_is_Some_2 bits (Z.to_nat (bit / 8))) as [b Hb]; [lia|].
  unfold set_bit, get_at. rewrite Hb. simpl. rewrite Z.shiftl_1_l.
  set (b' := z2b _). exists (<[Z.to_nat (bit / 8):=b']> bits).
  assert (b2z b' = Z.lor (b2z b) (2 ^ (bit mod 8))) as Hb' by (apply b2z_z2b_small, lor_mask_byte; lia).
  assert (get_at (<[Z.to_nat (bit / 8):=b']> bits) (bit / 8) = Some b') as Hg.
  { unfold get_at. apply list_lookup_insert_eq. lia. }
  split_and!; [done|by rewrite length_insert| |].
  - rewrite (test_bit_testbit _ _ _ Hg), Hb', Z.lor_spec, Z.pow2_bits_true, orb_true_r by lia. done.
  - intros j Hj Ht. unfold in_range in Hj. destruct (decide (j / 8 = bit / 8)) as [E|Hne].
    + rewrite (test_bit_testbit _ j b') by (by rewrite E). rewrite Hb', Z.lor_spec.
      rewrite (test_bit_testbit _ _ b) in Ht by (unfold get_at; by rewrite E). injection Ht as ->. done.
    + destruct (lookup_lt_is_Some_2 bits (Z.to_nat (j / 8))) as [c Hc]; [lia|].
      rewrite (test_bit_testbit _ _ c) in Ht by done.
      rewrite (test_bit_testbit _ _ c); [done|]. unfold get_at. rewrite list_lookup_insert_ne by lia. done.
Qed.

Lemma set_bits_ok bits ps :
  Forall (in_range bits) ps -> exists bits', set_bits bits ps = Some bits' /\ zlen bits' = zlen bits /\
    Forall (fun j => test_bit bits' j = Some true) ps /\
    (forall j, in_range bits j -> test_bit bits j = Some true -> test_bit bits' j = Some true).
Proof.
  intros Hps. revert bits Hps. induction ps as [|p ps IH]; intros bits Hps.
  { exists bits. repeat split; auto. }
  inversion_clear Hps as [|? ? Hp Hps']. destruct (set_bit_ok bits p Hp) as (b1 & E1 & L1 & T1 & M1).
  assert (forall j, in_range bits j <-> in_range b1 j) as Hir by (intros j; unfold in_range; by rewrite L1).
  destruct (IH b1) as (b2 & E2 & L2 & T2 & M2).
  { eapply Forall_impl; [exact Hps'|]. intros j. apply Hir. }
  exists b2. simpl. rewrite E1. simpl. split_and!; [done|lia| |].
  - constructor; [|done]. apply M2; [by apply Hir|done].
  - intros j Hj Ht. apply M2; [by apply Hir|]. by apply M1.
Qed.

Lemma all_bits_true bits ps : Forall (fun j => test_bit bits j = Some true) ps -> all_bits bits ps = Some true.
Proof. induction 1 as [|p ps Hp _ IH]; simpl; [done|]. rewrite Hp. simpl. done. Qed.

(** ** Filters *)

Definition filter_wf (f : BloomFilter) : Prop := 0 < num_bits f /\ zlen (bits f) = div_ceil (num_bits f) 8.

Lemma new_filter_wf n bpk : 0 <= n -> 0 <= bpk -> filter_wf (new_for_key_count n bpk).
Proof.
  intros Hn Hb. unfold filter_wf, new_for_key_count. cbn. rewrite length_replicate.
  unfold bloom_num_bits, saturating_mul64. unfold_ints.
  assert (0 < (if Z.min (n * bpk) 18446744073709551615 =? 0 then 1 else Z.min (n * bpk) 18446744073709551615)).
  { case_cmp; [lia|]. assert (0 <= n * bpk) by nia. lia. }
  split; [done|]. unfold div_ceil. rewrite Z2Nat.id; [done|]. apply Z.div_pos; lia.
Qed.

Section FilterSpec.
Context `{Xxh64}.

Lemma bit_positions_ok f key :
  filter_wf f -> exists ps, bit_positions f key = Some ps /\ Forall (in_range (bits f)) ps.
Proof.
  intros [Hn Hl]. unfold bit_positions, hash_pair. rewrite (proj2 (Z.eqb_neq _ _)) by lia. cbn [andb].
  eexists. split; [done|]. apply Forall_fmap, Forall_forall. intros i _. cbn. unfold in_range. rewrite Hl.
  set (h := wrapping_add64 _ _). pose proof (Z.mod_pos_bound h (num_bits f) Hn). unfold div_ceil. split.
  - apply Z.div_pos; lia.
  - apply Z.div_lt_upper_bound; [lia|]. pose proof (Z.div_mod (num_bits f + 8 - 1) 8 ltac:(lia)).
    pose proof (Z.mod_pos_bound (num_bits f + 8 - 1) 8 eq_refl). lia.
Qed.

Lemma insert_ok f key :
  filter_wf f -> exists f', insert f key = Some f' /\ filter_wf f' /\ might_contain f' key = Some true /\
    (forall k, might_contain f k = Some true -> might_contain f' k = Some true).
Proof.
  intros Hf. destruct (bit_positions_ok f key Hf) as (ps & E & Hps).
  destruct (set_bits_ok (bits f) ps Hps) as (b' & Eb & Lb & Tb & Mb). unfold insert. rewrite E. simpl. rewrite Eb. simpl.
  eexists. split; [done|]. set (f' := Build_BloomFilter _ _ _).
  assert (forall k, bit_positions f' k = bit_positions f k) as Hbp by done.
  split_and!.
  - destruct Hf as [? ?]. split; cbn; [done|]. by rewrite Lb.
  - unfold might_contain. rewrite Hbp, E. simpl. by apply all_bits_true.
  - intros k. unfold might_contain. rewrite Hbp. destruct (bit_positions_ok f k Hf) as (qs & -> & Hqs). simpl.
    revert Mb Hqs. generalize (bits f). clear. intros b Mb Hqs. induction Hqs as [|q qs Hq _ IH]; simpl; [done|].
    destruct (test_bit b q) as [[]|] eqn:Et; simpl; [|done..]. by rewrite (Mb q Hq Et).
Qed.

Lemma might_contain_total f key : filter_wf f -> exists b, might_contain f key = Some b.
Proof.
  intros Hf. unfold might_contain. destruct (bit_positions_ok f key Hf) as (ps & -> & Hps). simpl.
  induction Hps as [|p ps Hp _ IH]; simpl; [eauto|].
  destruct (lookup_lt_is_Some_2 (bits f) (Z.to_nat (p / 8))) as [b Hb]; [unfold in_range in Hp; lia|].
  rewrite (test_bit_testbit _ _ b Hb). simpl. destruct (Z.testbit _ _); eauto.
Qed.

Fixpoint insert_all (f : BloomFilter) (keys : list bytes) : option BloomFilter :=
  match keys with [] => Some f | k :: keys => f' ← insert f k; insert_all f' keys end.

Lemma insert_all_ok f keys :
  filter_wf f -> exists f', insert_all f keys = Some f' /\ filter_wf f' /\
    (forall k, In k keys \/ might_contain f k = Some true -> might_contain f' k = Some true).
Proof.
  revert f. induction keys as [|k0 keys IH]; intros f Hf.
  { exists f. split_and!; [done..|]. by intros k [[]|]. }
  destruct (insert_ok f k0 Hf) as (f1 & E1 & Hf1 & Hk & Hmono). simpl. rewrite E1. simpl.
  destruct (IH f1 Hf1) as (f2 & E2 & Hf2 & Hall). exists f2. split_and!; [done..|].
  intros k [[->|Hin]|Hm]; apply Hall; eauto.
Qed.

(** C31: a filter sized for any number of keys and any bits per key accepts any keys in any number without a panic, and
    afterwards never reports a false negative for a key inserted: the answer "absent" is definite. *)
Theorem no_false_negatives expected_keys bits_per_key keys :
  0 <= expected_keys -> 0 <= bits_per_key ->
  exists f, insert_all (new_for_key_count expected_keys bits_per_key) keys = Some f /\
    (forall k, In k keys -> might_contain f k = Some true) /\
    (forall k, exists b, might_contain f k = Some b).
Proof.
  intros Hn Hb. destruct (insert_all_ok _ keys (new_filter_wf expected_keys bits_per_key Hn Hb)) as (f & E & Hf & Hall).
  exists f. split_and!; [done|eauto|]. intros k. by apply might_contain_total.
Qed.

Lemma bloom_cap_iff count bits_per_key :
  is_u64 count -> is_u32 bits_per_key ->
  div_ceil (bloom_num_bits count bits_per_key) 8 <= MAX_BLOOM_BIT_ARRAY_BYTES <->
  count <= max_record_count_for_bloom_cap bits_per_key.
Proof.
  intros Hc Hb. assert (MAX_BLOOM_BIT_ARRAY_BYTES = 268435456) as HM by done. unfold_ints.
  assert (forall n, div_ceil n 8 <= MAX_BLOOM_BIT_ARRAY_BYTES <-> n <= 2147483648) as Hdc.
  { intros n. unfold div_ceil. rewrite HM. pose proof (Z.div_mod (n + 8 - 1) 8 ltac:(lia)).
    pose proof (Z.mod_pos_bound (n + 8 - 1) 8 eq_refl). lia. }
  rewrite Hdc. unfold bloom_num_bits, max_record_count_for_bloom_cap, saturating_mul64, u64_max. rewrite HM.
  destruct (Z.eqb_spec bits_per_key 0) as [->|Hnz].
  { rewrite Z.mul_0_r. simpl. lia. }
  change (268435456 * 8) with 2147483648.
  assert (count <= 2147483648 / bits_per_key <-> count * bits_per_key <= 2147483648) as ->.
  { split; intros Hle.
    - pose proof (Z.mul_div_le 2147483648 bits_per_key ltac:(lia)). nia.
    - apply Z.div_le_lower_bound; lia. }
  assert (0 <= count * bits_per_key) by nia. case_cmp; lia.
Qed.
(** C32: [max_record_count_for_bloom_cap] is exact: for every key count, the filter sized from it fits the reader's
    256 MiB cap exactly when the count is at most the bound. *)
Theorem bloom_cap_exact count bits_per_key :
  is_u64 count -> is_u32 bits_per_key ->
  div_ceil (bloom_num_bits count bits_per_key) 8 <= MAX_BLOOM_BIT_ARRAY_BYTES <->
  count <= max_record_count_for_bloom_cap bits_per_key.
Proof. apply bloom_cap_iff. Qed.
End FilterSpec.

(** [decode_bloom_block] accepts a block that declares zero bits; the filter built from it panics (remainder by
    zero) on every lookup as soon as it has one hash function. *)
Theorem zero_bit_filter_panics `{Crc32c, Xxh64} key :
  match Fmt.decode_bloom_block (Fmt.encode_bloom_block 0 x07 []) with
  | Ok d => might_contain (from_parts (Fmt.num_bits d) (Fmt.num_hash_functions d) (Fmt.bits d)) key = None
  | Err _ => False
  end.
Proof. rewrite Fmt.decode_bloom_block_encoded by by_eval. done. Qed.

(** ** Witnesses *)

Lemma no_false_negatives_witness :
  exists f, insert_all (new_for_key_count 3 10) [[x61]; [x62]; [x61]] = Some f /\
    (forall k, In k [[x61]; [x62]; [x61]] -> might_contain f k = Some true) /\
    (forall k, exists b, might_contain f k = Some b).
Proof. apply (no_false_negatives 3 10 [[x61]; [x62]; [x61]]); lia. Defined.

Lemma bloom_cap_exact_witness :
  div_ceil (bloom_num_bits 214748365 10) 8 <= MAX_BLOOM_BIT_ARRAY_BYTES <->
  214748365 <= max_record_count_for_bloom_cap 10.
Proof. apply (bloom_cap_exact 214748365 10); by_eval. Defined.

Example num_hash_functions_default : num_hash_functions_for 10 = 7.
Proof. reflexivity. Qed.

End Bloom.
