(* ===== verification/Versions.v ===== *)
(** * Versions and snapshot reads

    The abstract store every layer implements: a collection of versions [(key, seq, value)], and the read at a
    snapshot, which answers with the newest version at or below it.  [newest] is the fold that the SSTable reader's
    record loop performs; [newest_iff] characterises it without an order, so layers are compared by membership. *)

From stdpp Require Import base list option.
From Stdlib Require Import ZArith Lia.
From S2P Require Import Prelude.

Section Versions.
Context {V : Type}.
Implicit Types (l : list (bytes * Z * V)) (key : bytes) (as_of : Z).

Definition pick key as_of (best : option (Z * V)) (e : bytes * Z * V) : option (Z * V) :=
  if eqb e.1.1 key && (e.1.2 <=? as_of) && match best with Some (bs, _) => bs <? e.1.2 | None => true end
  then Some (e.1.2, e.2) else best.

Definition newest l key as_of : option (Z * V) := fold_left (pick key as_of) l None.

(** The better of two answers; the first wins a tie. *)
Definition better (a b : option (Z * V)) : option (Z * V) :=
  match a, b with
  | Some (s, _), Some (s', _) => if s <? s' then b else a
  | None, _ => b
  | _, None => a
  end.

Definition is_newest l key as_of (s : Z) (v : V) : Prop :=
  In (key, s, v) l /\ s <= as_of /\ forall s' v', In (key, s', v') l -> s' <= as_of -> s' <= s.

(** No two versions of a key share a sequence number. *)
Definition uniq l : Prop := forall k s v v', In (k, s, v) l -> In (k, s, v') l -> v = v'.

Lemma pick_better key as_of best e : pick key as_of best e = better best (pick key as_of None e).
Proof.
  unfold pick. destruct (eqb e.1.1 key && (e.1.2 <=? as_of)); simpl.
  - destruct best as [[bs bv]|]; simpl; [|done]. by destruct (bs <? e.1.2).
  - by destruct best as [[]|].
Qed.

Lemma better_assoc a b c : better a (better b c) = better (better a b) c.
Proof.
  destruct a as [[s v]|], b as [[s' v']|], c as [[s'' v'']|]; simpl; try done;
    repeat (case_cmp; simpl; try done); lia.
Qed.

Lemma better_None_r a : better a None = a.
Proof. by destruct a as [[]|]. Qed.

Lemma fold_pick key as_of l best : fold_left (pick key as_of) l best = better best (newest l key as_of).
Proof.
  unfold newest. revert best. induction l as [|e l IH]; intros best; simpl; [by rewrite better_None_r|].
  rewrite IH, (IH (pick key as_of None e)), better_assoc. by rewrite <- pick_better.
Qed.

Lemma newest_cons e l key as_of : newest (e :: l) key as_of = better (pick key as_of None e) (newest l key as_of).
Proof. exact (fold_pick key as_of l (pick key as_of None e)). Qed.

Lemma newest_app l l' key as_of : newest (l ++ l') key as_of = better (newest l key as_of) (newest l' key as_of).
Proof. unfold newest at 1. rewrite fold_left_app. apply fold_pick. Qed.

Lemma newest_spec l key as_of :
  match newest l key as_of with
  | Some (s, v) => is_newest l key as_of s v
  | None => forall s v, In (key, s, v) l -> as_of < s
  end.
Proof.
  induction l as [|[[k s0] v0] l IH]; [by intros s v []|]. rewrite newest_cons. unfold pick; simpl. unfold is_newest in *.
  destruct (eqb k key) eqn:Ek; simpl.
  - apply eqb_eq in Ek as ->. destruct (Z.leb_spec s0 as_of); simpl.
    + destruct (newest l key as_of) as [[s v]|].
      * destruct IH as (Hin & Hs & Hmax). destruct (Z.ltb_spec s0 s); split_and!; auto;
          intros s' v' [[= <- <-]|Hin'] Hs'; try specialize (Hmax _ _ Hin' Hs'); lia.
      * split_and!; auto. intros s' v' [[= <- <-]|Hin'] Hs'; [lia|]. specialize (IH _ _ Hin'). lia.
    + destruct (newest l key as_of) as [[s v]|].
      * destruct IH as (Hin & Hs & Hmax). split_and!; auto. intros s' v' [[= <- <-]|Hin'] Hs'; [lia|eauto].
      * intros s' v' [[= <- <-]|Hin']; [lia|eauto].
  - assert (k <> key) by (intros ->; by rewrite (proj2 (eqb_eq key key) eq_refl) in Ek).
    destruct (newest l key as_of) as [[s v]|]; naive_solver.
Qed.

Lemma newest_Some l key as_of s v : newest l key as_of = Some (s, v) -> is_newest l key as_of s v.
Proof. intros E. pose proof (newest_spec l key as_of) as H. by rewrite E in H. Qed.

Lemma newest_None l key as_of : newest l key as_of = None <-> forall s v, In (key, s, v) l -> as_of < s.
Proof.
  pose proof (newest_spec l key as_of) as H. split; [by intros E; rewrite E in H|]. intros Hall.
  destruct (newest l key as_of) as [[s v]|]; [|done]. destruct H as (Hin & Hs & _). specialize (Hall _ _ Hin). lia.
Qed.

Lemma newest_iff l key as_of s v : uniq l -> newest l key as_of = Some (s, v) <-> is_newest l key as_of s v.
Proof.
  intros Hu. split; [apply newest_Some|]. intros (Hin & Hs & Hmax).
  pose proof (newest_spec l key as_of) as H. destruct (newest l key as_of) as [[s0 v0]|].
  - destruct H as (Hin0 & Hs0 & Hmax0). assert (s = s0) as -> by (apply Z.le_antisymm; eauto).
    by rewrite (Hu _ _ _ _ Hin Hin0).
  - specialize (H _ _ Hin). lia.
Qed.

(** Two collections with the same visible versions of a key answer the same. *)
Lemma newest_ext l l' key as_of :
  uniq l -> (forall s v, s <= as_of -> In (key, s, v) l <-> In (key, s, v) l') ->
  uniq l' -> newest l key as_of = newest l' key as_of.
Proof.
  intros Hu He Hu'. destruct (newest l' key as_of) as [[s v]|] eqn:E.
  - apply newest_iff; [done|]. apply newest_Some in E as (Hin & Hs & Hmax).
    split_and!; [by apply He|done|]. intros s' v' Hin' Hs'. apply (Hmax s' v'); [by apply He|done].
  - rewrite newest_None in E |- *. intros s v Hin. destruct (Z.lt_ge_cases as_of s) as [|Hge]; [done|].
    apply He in Hin; [|lia]. specialize (E _ _ Hin). lia.
Qed.

Lemma uniq_incl l l' : (forall e, In e l' -> In e l) -> uniq l -> uniq l'.
Proof. intros Hi Hu k s v v' H1 H2. eauto. Qed.
End Versions.

#[global] Arguments newest : simpl never.
#[global] Arguments pick : simpl never.
