(* ===== verification/SsTable.v ===== *)
(** * SSTables ([src/src/sstable/{mod,writer,reader}.rs])

    The writer builds the bytes of a table from a stream of records; the reader opens the bytes, answers snapshot
    lookups through bloom filter and sparse index, and scans ranges with a block-at-a-time cursor.  A file is its
    bytes; the write path's I/O errors, the temporary file and the rename are not part of this model.  [None] is a
    panic (bloom filter) or, for the cursor, "out of fuel". *)

From stdpp Require Import base list option strings sorting.
From Stdlib Require Import ZArith Lia.
From Stdlib Require Import Strings.Byte.
From S2P Require Import Prelude BTree EngineError Checksum WalFormat SsFormat Bloom Versions MemTable.

Module Sst.
Import Fmt.

Inductive RecordValue : Type :=
| RPut (v : bytes)
| RTombstone.

(** [(key, seq, value)]: what iterators over tables yield. *)
Abbreviation item := (bytes * Z * RecordValue)%type.

Record SstableMeta : Type := {
  m_id : Z;
  m_min_seq : Z;
  m_max_seq : Z;
  m_record_count : Z
}.

(** ** Writer *)

Record SsTableWriterConfig : Type := {
  target_block_size : Z;
  bloom_bits_per_key : Z
}.

Definition config_default : SsTableWriterConfig :=
  {| target_block_size := DEFAULT_TARGET_BLOCK_SIZE; bloom_bits_per_key := DEFAULT_BLOOM_BITS_PER_KEY |}.

(** The locals of [write_from_sorted_records]. *)
Record Writer : Type := {
  w_file : bytes;
  w_offset : Z;
  w_index : list IndexEntry;
  w_buf : bytes;
  w_count : Z;
  w_last_key : bytes;
  w_total : Z;
  w_min : option Z;
  w_max : option Z;
  w_bloom : Bloom.BloomFilter
}.

Section Write.
Context `{Crc32c, Xxh64}.

Definition finalize_and_write_block (file : bytes) (index : list IndexEntry) (offset record_count : Z)
    (records_buf last_key : bytes) : res (bytes * list IndexEntry * Z) :=
  let block := finalize_block record_count records_buf in
  if u32_max <? zlen block then Err (CapacityExceeded (zlen block) u32_max)
  else
    let index := index ++ [{| last_key := last_key; block_offset := offset; block_length := zlen block |}] in
    let? offset := ok_or (CapacityExceeded u64_max (u64_max - 1)) (checked_add64 offset (zlen block)) in
    Ok (file ++ block, index, offset).

Definition op_bytes (v : RecordValue) : byte * bytes :=
  match v with RPut v => (REC_PUT, v) | RTombstone => (REC_DELETE, []) end.

(** The body of [for item in records]; the [u32] record counter wraps, the [u64] total cannot be reached. *)
Definition write_item (config : SsTableWriterConfig) (w : Writer) (it : res item) : option (res Writer) :=
  match it with
  | Err e => Some (Err e)
  | Ok (key, seq, value) =>
      let '(op, value_bytes) := op_bytes value in
      match encode_record (w_buf w) key seq op value_bytes with
      | Err e => Some (Err e)
      | Ok buf =>
          bloom ← Bloom.insert (w_bloom w) key;
          let count := (w_count w + 1) mod 2 ^ 32 in
          let total := w_total w + 1 in
          let min_seq := Some (match w_min w with Some m => Z.min m seq | None => seq end) in
          let max_seq := Some (match w_max w with Some m => Z.max m seq | None => seq end) in
          if target_block_size config <=? zlen buf + 4 then
            match finalize_and_write_block (w_file w) (w_index w) (w_offset w) count buf key with
            | Err e => Some (Err e)
            | Ok (file, index, offset) =>
                Some (Ok {| w_file := file; w_offset := offset; w_index := index; w_buf := []; w_count := 0;
                            w_last_key := []; w_total := total; w_min := min_seq; w_max := max_seq; w_bloom := bloom |})
            end
          else
            Some (Ok {| w_file := w_file w; w_offset := w_offset w; w_index := w_index w; w_buf := buf; w_count := count;
                        w_last_key := key; w_total := total; w_min := min_seq; w_max := max_seq; w_bloom := bloom |})
      end
  end.

Fixpoint write_items (config : SsTableWriterConfig) (w : Writer) (records : list (res item)) : option (res Writer) :=
  match records with
  | [] => Some (Ok w)
  | it :: records =>
      r ← write_item config w it;
      match r with Ok w => write_items config w records | Err e => Some (Err e) end
  end.

(** Everything after the loop: the last block, the bloom block, the index block and the footer. *)
Definition write_tail (w : Writer) (id : Z) : res (bytes * SstableMeta) :=
  let? '(file, index, offset) :=
    if 0 <? w_count w
    then finalize_and_write_block (w_file w) (w_index w) (w_offset w) (w_count w) (w_buf w) (w_last_key w)
    else Ok (w_file w, w_index w, w_offset w) in
  let bloom_offset := offset in
  let bloom_bytes :=
    encode_bloom_block (Bloom.num_bits (w_bloom w)) (Bloom.num_hash_functions (w_bloom w)) (Bloom.bits (w_bloom w)) in
  let index_offset := offset + zlen bloom_bytes in
  let? index_bytes := encode_index_block index in
  let min_seq := default 0 (w_min w) in
  let max_seq := default 0 (w_max w) in
  let footer :=
    {| format_version := SST_FORMAT_VERSION; min_seq := min_seq; max_seq := max_seq; record_count := w_total w;
       bloom_offset := bloom_offset; bloom_length := zlen bloom_bytes;
       index_offset := index_offset; index_length := zlen index_bytes |} in
  Ok (file ++ bloom_bytes ++ index_bytes ++ footer_encode footer,
      {| m_id := id; m_min_seq := min_seq; m_max_seq := max_seq; m_record_count := w_total w |}).

Definition writer_new (config : SsTableWriterConfig) (entry_count_hint : Z) : Writer :=
  {| w_file := []; w_offset := 0; w_index := []; w_buf := []; w_count := 0; w_last_key := []; w_total := 0;
     w_min := None; w_max := None;
     w_bloom := Bloom.new_for_key_count (Z.max entry_count_hint 1) (bloom_bits_per_key config) |}.

Definition write_from_sorted_records (records : list (res item)) (id : Z) (config : SsTableWriterConfig)
    (entry_count_hint : Z) : option (res (bytes * SstableMeta)) :=
  r ← write_items config (writer_new config entry_count_hint) records;
  match r with Ok w => Some (write_tail w id) | Err e => Some (Err e) end.

Definition of_memtable_value (v : Mem.MemtableValue) : RecordValue :=
  match v with Mem.MPut v => RPut v | Mem.MTombstone => RTombstone end.

Definition write_from_memtable (memtable : Mem.MemTable) (id : Z) (config : SsTableWriterConfig) :
    option (res (bytes * SstableMeta)) :=
  entries ← Mem.range memtable Unbounded Unbounded;
  write_from_sorted_records (map (fun '((key, seq), value) => Ok (key, seq, of_memtable_value value)) entries)
    id config (Mem.entry_count memtable).
End Write.

(** ** Reader *)

Record SsTable : Type := {
  t_id : Z;
  t_file : bytes;
  t_footer : Footer;
  t_bloom : Bloom.BloomFilter;
  t_index : list IndexEntry
}.

Definition read_exact_at (file : bytes) (len offset : Z) : res bytes :=
  if offset + len <=? zlen file then Ok (ztake len (zdrop offset file)) else Err (Io unexpected_eof).

(** [slice::partition_point] on a slice partitioned by [p], which is what its contract asks for. *)
Fixpoint partition_point {A} (p : A -> bool) (l : list A) : nat :=
  match l with
  | [] => O
  | x :: l => if p x then S (partition_point p l) else O
  end.

Section Read.
Context `{Crc32c, Xxh64}.

Definition open (file : bytes) (id : Z) : res SsTable :=
  let len := zlen file in
  if len <? FOOTER_SIZE then Err (Corruption "footer: file shorter than FOOTER_SIZE")
  else
    let? footer_buf := read_exact_at file FOOTER_SIZE (len - FOOTER_SIZE) in
    let? footer := footer_decode footer_buf in
    let usable_len := len - FOOTER_SIZE in
    let? bloom_end := ok_or (Corruption "footer: bloom_offset + bloom_length overflow")
                            (checked_add64 (bloom_offset footer) (bloom_length footer)) in
    if usable_len <? bloom_end then Err (Corruption "footer: bloom block extends past the file")
    else
      let? index_end := ok_or (Corruption "footer: index_offset + index_length overflow")
                              (checked_add64 (index_offset footer) (index_length footer)) in
      if usable_len <? index_end then Err (Corruption "footer: index block extends past the file")
      else if negb (index_offset footer =? bloom_end) then
        Err (Corruption "footer: index block does not immediately follow the bloom block")
      else if negb (index_end =? usable_len) then
        Err (Corruption "footer: index block does not end exactly at the footer")
      else if Bloom.max_record_count_for_bloom_cap DEFAULT_BLOOM_BITS_PER_KEY <? record_count footer then
        Err (Corruption "footer: record_count exceeds the largest count whose bloom filter fits the reader limit")
      else
        let? bloom_buf := read_exact_at file (bloom_length footer) (bloom_offset footer) in
        let? decoded_bloom := decode_bloom_block bloom_buf in
        let bloom := Bloom.from_parts (num_bits decoded_bloom) (num_hash_functions decoded_bloom) (bits decoded_bloom) in
        let? index_buf := read_exact_at file (index_length footer) (index_offset footer) in
        let? index := decode_index_block index_buf (bloom_offset footer) in
        Ok {| t_id := id; t_file := file; t_footer := footer; t_bloom := bloom; t_index := index |}.

Definition read_block (t : SsTable) (entry : IndexEntry) : res (list DecodedRecord) :=
  let? buf := read_exact_at (t_file t) (block_length entry) (block_offset entry) in
  decode_block buf.

(** [if r.op == OP_PUT { Put(r.value) } else { Tombstone }] with the record's key and sequence number. *)
Definition rec_item (r : DecodedRecord) : item :=
  (key r, seq r, if eqb (op r) REC_PUT then RPut (value r) else RTombstone).

(** The entries of [candidates]: the first, and the following ones while the last key equals [key]. *)
Fixpoint candidates (key : bytes) (es : list IndexEntry) : list IndexEntry :=
  match es with
  | [] => []
  | e :: es => e :: (if eqb (last_key e) key then candidates key es else [])
  end.

(** The [for &ci in &candidates] loop over [best]. *)
Fixpoint scan_candidates (t : SsTable) (key : bytes) (as_of_seq : Z) (best : option (Z * RecordValue))
    (es : list IndexEntry) : res (option (Z * RecordValue)) :=
  match es with
  | [] => Ok best
  | e :: es =>
      let? records := read_block t e in
      scan_candidates t key as_of_seq (fold_left (pick key as_of_seq) (map rec_item records) best) es
  end.

Definition get_versioned (t : SsTable) (key : bytes) (as_of_seq : Z) : option (res (option (Z * RecordValue))) :=
  maybe ← Bloom.might_contain (t_bloom t) key;
  if negb maybe then Some (Ok None)
  else
    match t_index t with
    | [] => Some (Ok None)
    | _ :: _ =>
        let idx := partition_point (fun e => ltb (last_key e) key) (t_index t) in
        if (length (t_index t) <=? idx)%nat then Some (Ok None)
        else Some (scan_candidates t key as_of_seq None (candidates key (drop idx (t_index t))))
    end.

(** [contains_versioned]: the same walk, keeping only whether the winner is a put. *)
Definition is_put (v : RecordValue) : bool := match v with RPut _ => true | RTombstone => false end.

Fixpoint contains_candidates (t : SsTable) (key : bytes) (as_of_seq : Z) (best : option (Z * bool))
    (es : list IndexEntry) : res (option (Z * bool)) :=
  match es with
  | [] => Ok best
  | e :: es =>
      let? records := read_block t e in
      contains_candidates t key as_of_seq
        (fold_left (fun best r => if eqb (Fmt.key r) key && (seq r <=? as_of_seq) &&
                                     match best with Some (bs, _) => bs <? seq r | None => true end
                                  then Some (seq r, eqb (op r) REC_PUT) else best) records best) es
  end.

Definition contains_versioned (t : SsTable) (key : bytes) (as_of_seq : Z) : option (res (option bool)) :=
  maybe ← Bloom.might_contain (t_bloom t) key;
  if negb maybe then Some (Ok None)
  else
    match t_index t with
    | [] => Some (Ok None)
    | _ :: _ =>
        let idx := partition_point (fun e => ltb (last_key e) key) (t_index t) in
        if (length (t_index t) <=? idx)%nat then Some (Ok None)
        else
          Some (let? best := contains_candidates t key as_of_seq None (candidates key (drop idx (t_index t))) in
                Ok (snd <$> best))
    end.

(** [RangeScanRaw] and [SsTableRangeCursor]: the same cursor, borrowing or owning its table. *)
Record Cursor : Type := {
  c_table : SsTable;
  next_block_idx : nat;
  current : list DecodedRecord;
  c_start : Bound bytes;
  c_end : Bound bytes;
  c_done : bool
}.

Definition range_scan_cursor (t : SsTable) (start end_ : Bound bytes) : Cursor :=
  let start_block :=
    match start with
    | Unbounded => O
    | Included k | Excluded k => partition_point (fun e => ltb (last_key e) k) (t_index t)
    end in
  {| c_table := t; next_block_idx := start_block; current := []; c_start := start; c_end := end_;
     c_done := (length (t_index t) <=? start_block)%nat |}.

Definition set_cursor (c : Cursor) (idx : nat) (cur : list DecodedRecord) (done : bool) : Cursor :=
  {| c_table := c_table c; next_block_idx := idx; current := cur; c_start := c_start c; c_end := c_end c; c_done := done |}.

(** [Iterator::next]: one turn of the [loop] per unit of fuel. *)
Fixpoint cursor_next (fuel : nat) (c : Cursor) : option (option (res item) * Cursor) :=
  match fuel with
  | O => None
  | S fuel =>
      if c_done c then Some (None, c)
      else
        match current c with
        | r :: rest =>
            if negb (above (c_start c) (key r)) then cursor_next fuel (set_cursor c (next_block_idx c) rest false)
            else if negb (below (c_end c) (key r)) then Some (None, set_cursor c (next_block_idx c) rest true)
            else Some (Some (Ok (rec_item r)), set_cursor c (next_block_idx c) rest false)
        | [] =>
            match t_index (c_table c) !! next_block_idx c with
            | None => Some (None, set_cursor c (next_block_idx c) [] true)
            | Some entry =>
                match read_block (c_table c) entry with
                | Ok records => cursor_next fuel (set_cursor c (S (next_block_idx c)) records false)
                | Err e => Some (Some (Err e), set_cursor c (S (next_block_idx c)) [] true)
                end
            end
        end
  end.

(** All the items a consumer obtains by calling [next] until it answers [None]. *)
Fixpoint drain (fuel : nat) (c : Cursor) : option (list (res item)) :=
  match fuel with
  | O => None
  | S fuel =>
      '(x, c') ← cursor_next (S fuel) c;
      match x with None => Some [] | Some it => rest ← drain fuel c'; Some (it :: rest) end
  end.
End Read.

(** ** Tables that hold a list of records *)

Definition item_rec (i : item) : DecodedRecord :=
  let '(op, v) := op_bytes i.2 in {| key := i.1.1; seq := i.1.2; op := op; value := v |}.

Lemma rec_item_rec i : rec_item (item_rec i) = i.
Proof. destruct i as [[k s] []]; done. Qed.

Lemma map_rec_item_rec l : map rec_item (map item_rec l) = l.
Proof. rewrite map_map. rewrite <- (map_id l) at 2. apply map_ext, rec_item_rec. Qed.

(** [(key, seq)] order; equal pairs may repeat, as after a compaction of overlapping inputs. *)
Definition sorted_items (l : list item) : Prop := StronglySorted (fun a b => cmp a.1 b.1 <> Gt) l.

Lemma bt_sorted_items (l : list item) : bt_sorted l -> sorted_items l.
Proof.
  unfold bt_sorted, sorted_items. induction 1 as [|a l Hs IH Hall]; constructor; [done|].
  eapply Forall_impl; [exact Hall|]. unfold lt_key. by intros b ->.
Qed.

Section Tables.
Context `{Crc32c, Xxh64}.

(** Block [e] of [t] holds the records [c], and its index key is the key of the last one. *)
Definition block_of (t : SsTable) (e : IndexEntry) (c : list item) : Prop :=
  read_block t e = Ok (map item_rec c) /\ exists i, last c = Some i /\ last_key e = i.1.1.

Record table_of (t : SsTable) (chunks : list (list item)) : Prop := {
  to_blocks : Forall2 (block_of t) (t_index t) chunks;
  to_sorted : sorted_items (concat chunks);
  to_bloom : forall i, In i (concat chunks) -> Bloom.might_contain (t_bloom t) i.1.1 = Some true;
  to_bloom_total : forall k, exists b, Bloom.might_contain (t_bloom t) k = Some b
}.

(** What a client relies on: [t] answers for exactly the records [recs], which are in [(key, seq)] order. *)
Definition represents (t : SsTable) (recs : list item) : Prop :=
  exists chunks, table_of t chunks /\ concat chunks = recs.

Lemma sorted_items_app (l k : list item) :
  sorted_items (l ++ k) -> sorted_items l /\ sorted_items k /\ forall a b, In a l -> In b k -> cmp a.1 b.1 <> Gt.
Proof.
  unfold sorted_items. induction l as [|x l IH]; simpl; [intros; split_and!; [constructor|done|done]|].
  intros [Hs Hall]%StronglySorted_inv. destruct (IH Hs) as (Hl & Hk & Hlt). apply Forall_app in Hall as [H1 H2].
  split_and!; [by constructor|done|]. intros a b [<-|Ha] Hb; [|by apply Hlt].
  rewrite List.Forall_forall in H2. by apply H2.
Qed.

Lemma cmp_key_le (a b : item) : cmp a.1 b.1 <> Gt -> cmp a.1.1 b.1.1 <> Gt.
Proof. destruct a as [[k s] v], b as [[k' s'] v']. cbn [fst]. rewrite cmp_pair. destruct (cmp k k'); done. Qed.

Lemma last_key_ge (c : list item) i a : sorted_items c -> last c = Some i -> In a c -> cmp a.1.1 i.1.1 <> Gt.
Proof.
  intros Hs [c' ->]%last_Some Ha. apply in_app_iff in Ha as [Ha|[<-|[]]]; [|by rewrite cmp_refl].
  apply sorted_items_app in Hs as (_ & _ & Hlt). apply cmp_key_le, Hlt; [done|by left].
Qed.

Lemma newest_none_lt (l : list item) key as_of :
  (forall a, In a l -> cmp a.1.1 key = Lt \/ cmp key a.1.1 = Lt) -> newest l key as_of = None.
Proof.
  intros Hl. apply newest_None. intros s v Hin. exfalso. destruct (Hl _ Hin) as [E|E]; simpl in E; by rewrite cmp_refl in E.
Qed.

Lemma last_keys_ge t e c es cs :
  block_of t e c -> Forall2 (block_of t) es cs -> sorted_items (c ++ concat cs) ->
  Forall (fun e' => cmp (last_key e) (last_key e') <> Gt) es.
Proof.
  intros (_ & i & Hi & ->) Hes Hs. apply sorted_items_app in Hs as (_ & _ & Hlt).
  apply Forall_forall. intros e' [n He']%list_elem_of_lookup.
  destruct (Forall2_lookup_l _ _ _ _ _ Hes He') as (c' & Hc' & _ & i' & Hi' & ->).
  apply cmp_key_le, Hlt; [by apply bt_last_In|]. apply in_concat. exists c'. split; [|by apply bt_last_In].
  apply list_elem_of_In, list_elem_of_lookup. eauto.
Qed.

Lemma scan_step t key as_of best e c :
  block_of t e c ->
  read_block t e = Ok (map item_rec c) /\
  fold_left (pick key as_of) (map rec_item (map item_rec c)) best = better best (newest c key as_of).
Proof. intros [Hr _]. split; [done|]. by rewrite map_rec_item_rec, fold_pick. Qed.

(** From the first block whose last key reaches [key], the candidate blocks hold every version of [key]. *)
Lemma scan_candidates_newest t key as_of es chunks best :
  Forall2 (block_of t) es chunks -> sorted_items (concat chunks) ->
  Forall (fun e => cmp key (last_key e) <> Gt) es ->
  scan_candidates t key as_of best (candidates key es) = Ok (better best (newest (concat chunks) key as_of)).
Proof.
  intros Hes. revert best. induction Hes as [|e c es cs He Hes IH]; intros best Hs Hge; simpl.
  { unfold newest; simpl; by rewrite better_None_r. }
  inversion_clear Hge as [|? ? Hke Hge']. destruct (scan_step t key as_of best e c He) as [-> ->].
  pose proof (sorted_items_app _ _ Hs) as (Hsc & Hscs & Hlt).
  rewrite newest_app, better_assoc. destruct (eqb (last_key e) key) eqn:Ek; [by apply IH|]. simpl.
  rewrite (newest_none_lt (concat cs)); [by rewrite better_None_r|].
  intros a Ha. right. destruct He as (_ & i & Hi & Hlk). rewrite Hlk in Hke, Ek.
  apply (cmp_lt_le_trans _ i.1.1).
  - destruct (cmp key i.1.1) eqn:Ec; [|done|done]. apply cmp_eq in Ec as ->.
    unfold eqb in Ek. by rewrite cmp_refl in Ek.
  - apply cmp_key_le, Hlt; [by apply bt_last_In|done].
Qed.

Lemma partition_newest t key as_of es chunks :
  Forall2 (block_of t) es chunks -> sorted_items (concat chunks) ->
  let idx := partition_point (fun e => ltb (last_key e) key) es in
  exists rest, Forall2 (block_of t) (drop idx es) rest /\ sorted_items (concat rest) /\
    Forall (fun e => cmp key (last_key e) <> Gt) (drop idx es) /\
    newest (concat chunks) key as_of = newest (concat rest) key as_of.
Proof.
  intros Hes. induction Hes as [|e c es cs He Hes IH]; intros Hs idx.
  { exists []. repeat split; constructor. }
  pose proof (sorted_items_app _ _ Hs) as (Hsc & Hscs & Hlt). unfold idx. simpl.
  destruct (ltb (last_key e) key) eqn:El.
  - destruct (IH Hscs) as (rest & H1 & H2 & H3 & H4). exists rest. simpl. split_and!; try done.
    rewrite newest_app, H4. rewrite (newest_none_lt c); [done|]. intros a Ha. left.
    destruct He as (_ & i & Hi & Hlk). rewrite Hlk in El. apply ltb_lt in El.
    apply (cmp_le_lt_trans _ i.1.1); [|done]. by apply (last_key_ge c).
  - exists (c :: cs). simpl. split_and!; [by constructor|done| |done].
    assert (cmp key (last_key e) <> Gt) as Hke.
    { apply leb_le. by rewrite leb_negb_ltb, El. }
    constructor; [done|]. pose proof (last_keys_ge t e c es cs He Hes Hs) as Hall.
    eapply Forall_impl; [exact Hall|]. intros e' He'. by apply (cmp_le_trans _ (last_key e)).
Qed.

Lemma get_versioned_table t chunks key as_of :
  table_of t chunks -> get_versioned t key as_of = Some (Ok (newest (concat chunks) key as_of)).
Proof.
  intros [Hb Hs Hbl Hbt]. unfold get_versioned. destruct (Hbt key) as [b Eb]. rewrite Eb. simpl.
  destruct b; simpl.
  - destruct (partition_newest t key as_of (t_index t) chunks Hb Hs) as (rest & H1 & H2 & H3 & ->).
    set (idx := partition_point _ _) in *.
    assert (scan_candidates t key as_of None (candidates key (drop idx (t_index t))) = Ok (newest (concat rest) key as_of)) as Hsc.
    { rewrite (scan_candidates_newest t key as_of _ rest) by done. done. }
    destruct (t_index t) as [|e es] eqn:Ei.
    + rewrite drop_nil in *. by injection Hsc as <-.
    + case_match eqn:El; [|by rewrite Hsc]. apply Nat.leb_le in El. rewrite (drop_ge (e :: es)) in Hsc by done.
      by injection Hsc as <-.
  - f_equal. f_equal. symmetry. apply newest_None. intros s v Hin. apply Hbl in Hin. simpl in Hin. congruence.
Qed.

(** [contains_versioned] runs the same walk as [get_versioned]. *)
Definition put_flag (p : Z * RecordValue) : Z * bool := (p.1, is_put p.2).

Lemma contains_fold key as_of rs best :
  fold_left (fun best r => if eqb (Fmt.key r) key && (seq r <=? as_of) &&
                              match best with Some (bs, _) => bs <? seq r | None => true end
                           then Some (seq r, eqb (op r) REC_PUT) else best) rs (put_flag <$> best) =
  put_flag <$> fold_left (pick key as_of) (map rec_item rs) best.
Proof.
  revert best. induction rs as [|r rs IH]; intros best; simpl; [done|]. rewrite <- IH. f_equal. unfold pick. simpl.
  destruct best as [[bs bv]|]; simpl; destruct (_ && _ && _)%bool; simpl; unfold put_flag; simpl; try done;
    by destruct (eqb (op r) REC_PUT).
Qed.

Lemma contains_candidates_scan t key as_of es best :
  contains_candidates t key as_of (put_flag <$> best) es =
    match scan_candidates t key as_of best es with Ok r => Ok (put_flag <$> r) | Err e => Err e end.
Proof.
  revert best. induction es as [|e es IH]; intros best; simpl; [done|]. destruct (read_block t e); [|done].
  by rewrite contains_fold, IH.
Qed.

Lemma contains_versioned_get t key as_of :
  contains_versioned t key as_of =
    match get_versioned t key as_of with
    | Some (Ok r) => Some (Ok ((fun p => is_put p.2) <$> r))
    | Some (Err e) => Some (Err e)
    | None => None
    end.
Proof.
  unfold contains_versioned, get_versioned. destruct (Bloom.might_contain _ _) as [[]|]; simpl; [|done..].
  destruct (t_index t) as [|e es] eqn:Ei; [done|]. case_match; [done|].
  change (@None (Z * bool)) with (put_flag <$> @None (Z * RecordValue)). rewrite contains_candidates_scan.
  destruct (scan_candidates _ _ _ _ _) as [r|]; [|done]. do 2 f_equal. by destruct r as [[]|].
Qed.

(** ** The cursor *)

Definition in_bounds (lo hi : Bound bytes) (i : item) : bool := above lo i.1.1 && below hi i.1.1.

(** The cursor has not finished and has [cur] and then the blocks [chunks] before it. *)
Definition cursor_at (c : Cursor) (cur : list item) (chunks : list (list item)) : Prop :=
  c_done c = false /\ current c = map item_rec cur /\
  Forall2 (block_of (c_table c)) (drop (next_block_idx c) (t_index (c_table c))) chunks.

Definition work (cur : list item) (chunks : list (list item)) : nat :=
  length cur + length (concat chunks) + length chunks.

Lemma key_item_rec i : Fmt.key (item_rec i) = i.1.1.
Proof. unfold item_rec. by destruct (op_bytes i.2). Qed.

Lemma above_mono (lo : Bound bytes) k k' : cmp k k' <> Gt -> above lo k = true -> above lo k' = true.
Proof.
  destruct lo as [b|b|]; simpl; [|..|done]; intros Hk.
  - rewrite !leb_le. intros. by apply (cmp_le_trans _ k).
  - rewrite !ltb_lt. intros. by apply (cmp_lt_le_trans _ k).
Qed.

Lemma below_mono (hi : Bound bytes) k k' : cmp k k' <> Gt -> below hi k' = true -> below hi k = true.
Proof.
  destruct hi as [b|b|]; simpl; [|..|done]; intros Hk.
  - rewrite !leb_le. intros. by apply (cmp_le_trans _ k').
  - rewrite !ltb_lt. intros. by apply (cmp_le_lt_trans _ k').
Qed.

Lemma drop_cons_lookup {A} (l : list A) n x r : drop n l = x :: r -> l !! n = Some x /\ drop (S n) l = r.
Proof.
  intros Hd. assert (l !! n = Some x) as Hx.
  { rewrite <- (Nat.add_0_r n), <- lookup_drop, Hd. done. }
  split; [done|]. rewrite (drop_S _ _ _ Hx) in Hd. congruence.
Qed.

(** One call of [next] returns the first record in bounds, or ends the scan. *)
Lemma cursor_next_spec fuel c cur chunks :
  cursor_at c cur chunks -> sorted_items (cur ++ concat chunks) -> (work cur chunks < fuel)%nat ->
  match List.filter (in_bounds (c_start c) (c_end c)) (cur ++ concat chunks) with
  | [] => exists c', cursor_next fuel c = Some (None, c')
  | i :: rest => exists c' cur' chunks', cursor_next fuel c = Some (Some (Ok i), c') /\
      cursor_at c' cur' chunks' /\ c_start c' = c_start c /\ c_end c' = c_end c /\ sorted_items (cur' ++ concat chunks') /\
      (work cur' chunks' < work cur chunks)%nat /\
      List.filter (in_bounds (c_start c) (c_end c)) (cur' ++ concat chunks') = rest
  end.
Proof.
  revert c cur chunks. induction fuel as [|fuel IH]; intros c cur chunks (Hd & Hc & Hbl) Hs Hf; [lia|].
  cbn [cursor_next]. rewrite Hd, Hc. destruct cur as [|i cur]; cbn [map app].
  - destruct chunks as [|ch chunks].
    + assert (t_index (c_table c) !! next_block_idx c = None) as ->.
      { apply lookup_ge_None. apply Forall2_length in Hbl. rewrite length_drop in Hbl. simpl in Hbl. lia. }
      simpl. eauto.
    + inversion Hbl as [|e ? es ? [Hr He] Hes Hdrop]; subst. symmetry in Hdrop.
      apply drop_cons_lookup in Hdrop as [-> Hdrop]. rewrite Hr. simpl concat.
      set (c1 := set_cursor c (S (next_block_idx c)) (map item_rec ch) false).
      assert (work ch chunks < fuel)%nat as Hw by (unfold work in *; simpl in Hf; rewrite length_app in Hf; lia).
      assert (work ch chunks < work [] (ch :: chunks))%nat as Hw'.
      { unfold work. simpl. rewrite length_app. lia. }
      assert (cursor_at c1 ch chunks) as Hat by (split_and!; [done|done|cbn; by rewrite Hdrop]).
      specialize (IH c1 ch chunks Hat Hs Hw). cbn [c_start c_end c1 set_cursor] in IH.
      destruct (List.filter _ (ch ++ concat chunks)) as [|i rest]; [exact IH|].
      destruct IH as (c' & cur' & chunks' & E & ? & ? & ? & ? & ? & ?). exists c', cur', chunks'. split_and!; try done. lia.
  - simpl in Hs. apply StronglySorted_inv in Hs as [Hs Hall]. rewrite key_item_rec.
    assert (forall k, List.filter (in_bounds (c_start c) (c_end c)) (i :: k) =
      if in_bounds (c_start c) (c_end c) i then i :: List.filter (in_bounds (c_start c) (c_end c)) k
      else List.filter (in_bounds (c_start c) (c_end c)) k) as Hfil by done.
    rewrite Hfil. unfold in_bounds at 1. destruct (above (c_start c) i.1.1) eqn:Ea; cbn [negb andb].
    + destruct (below (c_end c) i.1.1) eqn:Eb; cbn [negb].
      * rewrite rec_item_rec. eexists _, cur, chunks. split_and!; try done. unfold work; simpl; lia.
      * assert (List.filter (in_bounds (c_start c) (c_end c)) (cur ++ concat chunks) = []) as ->; [|by eauto].
        clear -Hall Eb. induction Hall as [|j l Hj _ IH]; [done|]. simpl. rewrite IH.
        unfold in_bounds. destruct (below (c_end c) j.1.1) eqn:Ebj; [|by rewrite andb_false_r].
        apply (below_mono _ i.1.1) in Ebj; [congruence|]. by apply cmp_key_le.
    + set (c1 := set_cursor c (next_block_idx c) (map item_rec cur) false).
      assert (cursor_at c1 cur chunks) as Hat by done.
      specialize (IH c1 cur chunks Hat Hs). cbn [c_start c_end c1 set_cursor] in IH.
      assert (work cur chunks < fuel)%nat as Hw by (unfold work in *; simpl in Hf; lia). specialize (IH Hw).
      destruct (List.filter _ (cur ++ concat chunks)) as [|j rest]; [exact IH|].
      destruct IH as (c' & cur' & chunks' & E & ? & ? & ? & ? & ? & ?). exists c', cur', chunks'. split_and!; try done.
      unfold work in *. simpl. lia.
Qed.

Lemma drain_spec fuel c cur chunks :
  cursor_at c cur chunks -> sorted_items (cur ++ concat chunks) -> (work cur chunks < fuel)%nat ->
  drain fuel c = Some (map Ok (List.filter (in_bounds (c_start c) (c_end c)) (cur ++ concat chunks))).
Proof.
  revert c cur chunks. induction fuel as [|fuel IH]; intros c cur chunks Hat Hs Hf; [lia|].
  pose proof (cursor_next_spec (S fuel) c cur chunks Hat Hs Hf) as Hn. cbn [drain].
  destruct (List.filter _ (cur ++ concat chunks)) as [|i rest].
  - destruct Hn as [c' ->]. done.
  - destruct Hn as (c' & cur' & chunks' & -> & Hat' & H1 & H2 & Hs' & Hw & Hrest). simpl.
    rewrite (IH c' cur' chunks' Hat' Hs') by lia. rewrite H1, H2, Hrest. done.
Qed.

(** Blocks the start bound skips hold no record in bounds. *)
Lemma partition_bounds t k es chunks :
  Forall2 (block_of t) es chunks -> sorted_items (concat chunks) ->
  exists rest, Forall2 (block_of t) (drop (partition_point (fun e => ltb (last_key e) k) es) es) rest /\
    sorted_items (concat rest) /\ (length (concat rest) + length rest <= length (concat chunks) + length chunks)%nat /\
    forall f, (forall i : item, cmp i.1.1 k = Lt -> f i = false) ->
      List.filter f (concat chunks) = List.filter f (concat rest).
Proof.
  intros Hes. induction Hes as [|e c es cs He Hes IH]; intros Hs.
  { exists []. repeat split; try constructor. }
  pose proof (sorted_items_app _ _ Hs) as (Hsc & Hscs & Hlt). simpl. destruct (ltb (last_key e) k) eqn:El.
  - destruct (IH Hscs) as (rest & H1 & H2 & Hlen & H3). exists rest. simpl. rewrite length_app.
    split_and!; [done..|lia|]. intros f Hf. rewrite List.filter_app, (H3 f Hf).
    assert (List.filter f c = []) as ->; [|done]. destruct He as (_ & i & Hi & Hlk).
    assert (forall a, In a c -> f a = false) as Hfa.
    { intros a Ha. apply Hf. apply ltb_lt in El. rewrite Hlk in El.
      apply (cmp_le_lt_trans _ i.1.1); [|done]. by apply (last_key_ge c). }
    clear -Hfa. induction c as [|a c IH]; [done|]. simpl. rewrite (Hfa a) by (by left). apply IH. intros b Hb.
    apply Hfa. by right.
  - exists (c :: cs). split_and!; [by constructor|done|done|done].
Qed.

Lemma drain_table t chunks lo hi fuel :
  table_of t chunks -> (length (concat chunks) + length chunks < fuel)%nat ->
  drain fuel (range_scan_cursor t lo hi) = Some (map Ok (List.filter (in_bounds lo hi) (concat chunks))).
Proof.
  intros [Hb Hs _ _] Hf. unfold range_scan_cursor.
  set (start_block := match lo with Unbounded => O | Included k | Excluded k => _ end).
  assert (exists rest, Forall2 (block_of t) (drop start_block (t_index t)) rest /\ sorted_items (concat rest) /\
    (length (concat rest) + length rest <= length (concat chunks) + length chunks)%nat /\
    List.filter (in_bounds lo hi) (concat chunks) = List.filter (in_bounds lo hi) (concat rest)) as (rest & H1 & H2 & Hl & ->).
  { unfold start_block. destruct lo as [k|k|]; [..|by exists chunks];
      destruct (partition_bounds t k (t_index t) chunks Hb Hs) as (rest & ? & ? & ? & Hfil); exists rest; split_and!;
      try done; apply Hfil; intros i Hi; unfold in_bounds; simpl; unfold leb, ltb; rewrite (cmp_opp i.1.1 k), Hi; done. }
  destruct (length (t_index t) <=? start_block)%nat eqn:Ed.
  - apply Nat.leb_le in Ed. rewrite drop_ge in H1 by done. inversion H1; subst. simpl.
    destruct fuel; [lia|]. done.
  - match goal with |- drain _ ?c = _ => apply (drain_spec fuel c [] rest); [done|done|] end. unfold work. simpl. lia.
Qed.
(** ** Writing *)

Definition item_valid (i : item) : Prop :=
  zlen i.1.1 <= MAX_KEY_SIZE /\ zlen (op_bytes i.2).2 <= MAX_VALUE_SIZE /\ is_u64 i.1.2.

Definition items_bytes (c : list item) : bytes := recs_bytes (map item_rec c).
Definition block_bytes (c : list item) : bytes := finalize_block (zlen c) (items_bytes c).
Definition chunk_key (c : list item) : bytes := match last c with Some i => i.1.1 | None => [] end.

(** The index entries of blocks laid out from [off]. *)
Fixpoint entries_at (off : Z) (cs : list (list item)) : list IndexEntry :=
  match cs with
  | [] => []
  | c :: cs =>
      {| last_key := chunk_key c; block_offset := off; block_length := zlen (block_bytes c) |} ::
      entries_at (off + zlen (block_bytes c)) cs
  end.

Definition data_bytes (cs : list (list item)) : bytes := concat (map block_bytes cs).

(** An upper bound on the bytes one record adds to a table. *)
Definition REC_MAX : Z := 25 + MAX_KEY_SIZE + MAX_VALUE_SIZE.

Lemma item_valid_rec i : item_valid i -> rec_valid (item_rec i).
Proof.
  destruct i as [[k s] []]; intros (Hk & Hv & Hs); simpl in *; split_and!; cbn; try done; [by left|by right].
Qed.

Lemma zlen_items_bytes c : Forall item_valid c -> 17 * zlen c <= zlen (items_bytes c) <= zlen c * (REC_MAX - 8).
Proof.
  induction 1 as [|i c (Hk & Hv & _) _ IH]; [done|].
  change (items_bytes (i :: c)) with (rec_bytes (item_rec i) ++ items_bytes c).
  rewrite zlen_app, zlen_rec_bytes, key_item_rec. simpl length. unfold REC_MAX in *.
  assert (Fmt.value (item_rec i) = (op_bytes i.2).2) as -> by (unfold item_rec; by destruct (op_bytes i.2)). lia.
Qed.

Lemma zlen_block_bytes c : zlen (block_bytes c) = 8 + zlen (items_bytes c).
Proof. unfold block_bytes, finalize_block. rewrite zlen_with_crc, zlen_app, length_le_bytes. lia. Qed.

Lemma zlen_data_bytes cs :
  Forall (fun c => c <> []) cs -> Forall item_valid (concat cs) ->
  zlen cs <= zlen (concat cs) /\ 0 <= zlen (data_bytes cs) <= zlen (concat cs) * REC_MAX.
Proof.
  induction 1 as [|c cs Hc _ IH]; simpl; [done|]. rewrite Forall_app. intros [Hv Hvs]. destruct (IH Hvs) as [IH1 IH2].
  change (data_bytes (c :: cs)) with (block_bytes c ++ data_bytes cs). rewrite !zlen_app, zlen_block_bytes.
  pose proof (zlen_items_bytes c Hv). assert (1 <= zlen c) by (destruct c; [done|simpl; lia]). unfold REC_MAX in *. nia.
Qed.

Lemma data_bytes_snoc cs c : data_bytes (cs ++ [c]) = data_bytes cs ++ block_bytes c.
Proof. unfold data_bytes. rewrite map_app, concat_app. simpl. by rewrite app_nil_r. Qed.

Lemma entries_at_snoc off cs c :
  entries_at off (cs ++ [c]) = entries_at off cs ++
    [{| last_key := chunk_key c; block_offset := off + zlen (data_bytes cs); block_length := zlen (block_bytes c) |}].
Proof.
  revert off. induction cs as [|c' cs IH]; intros off; simpl.
  - unfold data_bytes; simpl. by rewrite Z.add_0_r.
  - rewrite IH. change (data_bytes (c' :: cs)) with (block_bytes c' ++ data_bytes cs). rewrite zlen_app.
    do 3 f_equal. f_equal. lia.
Qed.

Definition min_fold (recs : list item) : option Z :=
  fold_left (fun m i => Some (match m with Some m => Z.min m i.1.2 | None => i.1.2 end)) recs None.
Definition max_fold (recs : list item) : option Z :=
  fold_left (fun m i => Some (match m with Some m => Z.max m i.1.2 | None => i.1.2 end)) recs None.

(** The writer after [concat blks ++ pend], with [pend] still in the open block. *)
Record writer_inv (config : SsTableWriterConfig) (hint : Z) (w : Writer) (blks : list (list item)) (pend : list item) :
    Prop := {
  wi_file : w_file w = data_bytes blks;
  wi_offset : w_offset w = zlen (data_bytes blks);
  wi_index : w_index w = entries_at 0 blks;
  wi_nonempty : Forall (fun c => c <> []) blks;
  wi_small : Forall (fun c => zlen (block_bytes c) <= u32_max) blks;
  wi_buf : w_buf w = items_bytes pend;
  wi_count : w_count w = zlen pend mod 2 ^ 32;
  wi_last : w_last_key w = chunk_key pend;
  wi_total : w_total w = zlen (concat blks ++ pend);
  wi_min : w_min w = min_fold (concat blks ++ pend);
  wi_max : w_max w = max_fold (concat blks ++ pend);
  wi_open : pend = [] \/ zlen (items_bytes pend) + 4 < target_block_size config;
  wi_bits : Bloom.num_bits (w_bloom w) = Bloom.bloom_num_bits (Z.max hint 1) (bloom_bits_per_key config);
  wi_bloom : Bloom.filter_wf (w_bloom w);
  wi_keys : forall i, In i (concat blks ++ pend) -> Bloom.might_contain (w_bloom w) i.1.1 = Some true
}.

Lemma writer_new_inv config hint :
  0 <= bloom_bits_per_key config -> writer_inv config hint (writer_new config hint) [] [].
Proof. intros Hb. split; try done; [by left|]. apply Bloom.new_filter_wf; lia. Qed.

Lemma bloom_insert_num_bits f k f' : Bloom.insert f k = Some f' -> Bloom.num_bits f' = Bloom.num_bits f.
Proof.
  unfold Bloom.insert. destruct (Bloom.bit_positions f k); simpl; [|done].
  destruct (Bloom.set_bits _ _); simpl; [|done]. by intros [= <-].
Qed.

Lemma items_bytes_snoc c i : items_bytes (c ++ [i]) = items_bytes c ++ rec_bytes (item_rec i).
Proof. unfold items_bytes, recs_bytes. rewrite !map_app, concat_app. simpl. by rewrite app_nil_r. Qed.

Lemma encode_item out i :
  item_valid i ->
  encode_record out i.1.1 i.1.2 (op_bytes i.2).1 (op_bytes i.2).2 = Ok (out ++ rec_bytes (item_rec i)).
Proof.
  intros Hi. rewrite <- (encode_record_spec out _ (item_valid_rec i Hi)). destruct i as [[k s] v]. unfold item_rec.
  simpl. by destruct (op_bytes v).
Qed.

Lemma finalize_block_ok blks c count :
  Forall (fun c => c <> []) blks -> Forall item_valid (concat blks ++ c) -> zlen (concat blks ++ c) <= 2 ^ 32 ->
  count = zlen c mod 2 ^ 32 -> zlen (items_bytes c) + 8 <= u32_max ->
  finalize_and_write_block (data_bytes blks) (entries_at 0 blks) (zlen (data_bytes blks)) count (items_bytes c) (chunk_key c) =
    Ok (data_bytes (blks ++ [c]), entries_at 0 (blks ++ [c]), zlen (data_bytes (blks ++ [c]))).
Proof.
  intros Hne Hv Hn -> Hsz. apply Forall_app in Hv as [Hvb Hvc].
  pose proof (zlen_data_bytes blks Hne Hvb) as [_ Hdb]. pose proof (zlen_items_bytes c Hvc).
  rewrite zlen_app in Hn. unfold finalize_and_write_block. rewrite Z.mod_small by (unfold_ints; lia).
  fold (block_bytes c). pose proof (zlen_block_bytes c) as Hbl.
  rewrite (proj2 (Z.ltb_ge _ _)) by lia. unfold checked_add64.
  rewrite (proj2 (Z.leb_le _ _)).
  2: { unfold REC_MAX, MAX_KEY_SIZE, MAX_VALUE_SIZE, DEFAULT_MAX_RECORD_LEN in Hdb. unfold_ints. lia. }
  cbn [ok_or]. rewrite data_bytes_snoc, entries_at_snoc, zlen_app. by rewrite Z.add_0_l.
Qed.

Lemma write_item_inv config hint w blks pend i :
  writer_inv config hint w blks pend -> target_block_size config <= 2 ^ 31 ->
  Forall item_valid (concat blks ++ pend ++ [i]) -> zlen (concat blks ++ pend ++ [i]) <= 2 ^ 32 ->
  exists w' blks' pend', write_item config w (Ok i) = Some (Ok w') /\ writer_inv config hint w' blks' pend' /\
    concat blks' ++ pend' = concat blks ++ pend ++ [i].
Proof.
  intros Hw Ht Hv Hn. pose proof Hv as Hv'. rewrite app_assoc, Forall_app, Forall_singleton in Hv'.
  destruct Hv' as [Hvbp Hvi]. apply Forall_app in Hvbp as [Hvb Hvp].
  destruct i as [[k sq] v] eqn:Ei. rewrite <- Ei in *.
  unfold write_item. rewrite Ei. destruct (op_bytes v) as [o vb] eqn:Eo.
  pose proof (encode_item (w_buf w) i Hvi) as Henc. rewrite Ei in Henc. cbn [fst snd] in Henc. rewrite Eo in Henc.
  cbn [fst snd] in Henc. rewrite Henc. rewrite (wi_buf _ _ _ _ _ Hw). rewrite <- Ei, <- items_bytes_snoc.
  destruct (Bloom.insert_ok (w_bloom w) k (wi_bloom _ _ _ _ _ Hw)) as (f' & Ef & Hf' & Hk & Hmono).
  rewrite Ef. cbn [mbind option_bind].
  assert ((w_count w + 1) mod 2 ^ 32 = zlen (pend ++ [i]) mod 2 ^ 32) as Hcnt.
  { rewrite (wi_count _ _ _ _ _ Hw), zlen_app. simpl length. by rewrite Zplus_mod_idemp_l. }
  assert (k = chunk_key (pend ++ [i])) as Hck by (unfold chunk_key; rewrite last_snoc; by rewrite Ei).
  assert (forall j, In j (concat blks ++ pend ++ [i]) -> Bloom.might_contain f' j.1.1 = Some true) as Hkeys.
  { intros j. rewrite app_assoc, in_app_iff. intros [Hj|[<-|[]]]; [|by rewrite Ei].
    by apply Hmono, (wi_keys _ _ _ _ _ Hw). }
  assert (w_total w + 1 = zlen (concat blks ++ pend ++ [i])) as Htot.
  { rewrite (wi_total _ _ _ _ _ Hw), (app_assoc _ pend), (zlen_app (_ ++ pend)). done. }
  assert (Some (match w_min w with Some m => Z.min m sq | None => sq end) = min_fold (concat blks ++ pend ++ [i])) as Hmin.
  { rewrite (wi_min _ _ _ _ _ Hw), (app_assoc _ pend). unfold min_fold at 2. rewrite fold_left_app. simpl.
    rewrite Ei. done. }
  assert (Some (match w_max w with Some m => Z.max m sq | None => sq end) = max_fold (concat blks ++ pend ++ [i])) as Hmax.
  { rewrite (wi_max _ _ _ _ _ Hw), (app_assoc _ pend). unfold max_fold at 2. rewrite fold_left_app. simpl.
    rewrite Ei. done. }
  pose proof (bloom_insert_num_bits _ _ _ Ef) as Hnb. rewrite (wi_bits _ _ _ _ _ Hw) in Hnb.
  destruct (Z.leb_spec (target_block_size config) (zlen (items_bytes (pend ++ [i])) + 4)) as [Hge|Hlt].
  - assert (zlen (items_bytes (pend ++ [i])) + 8 <= u32_max) as Hsz.
    { rewrite items_bytes_snoc, zlen_app.
      pose proof (zlen_items_bytes [i] ltac:(by constructor)) as [_ Hi1]. change (items_bytes [i]) with
        (rec_bytes (item_rec i) ++ []) in Hi1. rewrite app_nil_r in Hi1. simpl length in Hi1.
      unfold REC_MAX, MAX_KEY_SIZE, MAX_VALUE_SIZE, DEFAULT_MAX_RECORD_LEN in Hi1. unfold_ints.
      destruct (wi_open _ _ _ _ _ Hw) as [->|Ho]; [simpl; lia|lia]. }
    rewrite (wi_file _ _ _ _ _ Hw), (wi_index _ _ _ _ _ Hw), (wi_offset _ _ _ _ _ Hw), Hck.
    rewrite (finalize_block_ok blks (pend ++ [i])) by (done || apply Hw).
    eexists _, (blks ++ [pend ++ [i]]), []. split; [done|].
    assert (concat (blks ++ [pend ++ [i]]) ++ [] = concat blks ++ pend ++ [i]) as Hcc.
    { rewrite concat_app. simpl. by rewrite !app_nil_r. }
    split; [|exact Hcc]. split; cbn; rewrite ?Hcc; try done; [| |by left].
    + apply Forall_app. split; [apply Hw|]. constructor; [by destruct pend|constructor].
    + apply Forall_app. split; [apply Hw|]. constructor; [|constructor]. rewrite zlen_block_bytes. lia.
  - eexists _, blks, (pend ++ [i]). split; [done|]. split; [|done].
    split; cbn; try done; try apply Hw. by right.
Qed.

Lemma write_items_inv config hint recs w blks pend :
  writer_inv config hint w blks pend -> target_block_size config <= 2 ^ 31 ->
  Forall item_valid (concat blks ++ pend ++ recs) -> zlen (concat blks ++ pend ++ recs) <= 2 ^ 32 ->
  exists w' blks' pend', write_items config w (map Ok recs) = Some (Ok w') /\ writer_inv config hint w' blks' pend' /\
    concat blks' ++ pend' = concat blks ++ pend ++ recs.
Proof.
  revert w blks pend. induction recs as [|i recs IH]; intros w blks pend Hw Ht Hv Hn.
  { exists w, blks, pend. by rewrite app_nil_r. }
  assert (concat blks ++ pend ++ i :: recs = (concat blks ++ pend ++ [i]) ++ recs) as Hsp by (by rewrite <- !app_assoc).
  destruct (write_item_inv config hint w blks pend i Hw Ht) as (w1 & b1 & p1 & E1 & Hw1 & C1).
  { rewrite Hsp, Forall_app in Hv. apply Hv. }
  { rewrite Hsp, zlen_app in Hn. lia. }
  simpl map. cbn [write_items]. rewrite E1. cbn [mbind option_bind].
  rewrite Hsp, <- C1, <- app_assoc in *. by apply IH.
Qed.
(** The bytes and the metadata of a finished table. *)
Definition table_footer (cs : list (list item)) (bloom_len index_len : Z) : Footer :=
  {| format_version := SST_FORMAT_VERSION;
     min_seq := default 0 (min_fold (concat cs)); max_seq := default 0 (max_fold (concat cs));
     record_count := zlen (concat cs); bloom_offset := zlen (data_bytes cs); bloom_length := bloom_len;
     index_offset := zlen (data_bytes cs) + bloom_len; index_length := index_len |}.

Definition bloom_bytes (f : Bloom.BloomFilter) : bytes :=
  encode_bloom_block (Bloom.num_bits f) (Bloom.num_hash_functions f) (Bloom.bits f).
Definition index_bytes (cs : list (list item)) : bytes :=
  with_crc (le32 (zlen cs) ++ entries_bytes (entries_at 0 cs)).

Definition table_bytes (cs : list (list item)) (f : Bloom.BloomFilter) : bytes :=
  data_bytes cs ++ bloom_bytes f ++ index_bytes cs ++
  footer_encode (table_footer cs (zlen (bloom_bytes f)) (zlen (index_bytes cs))).

Definition table_meta (cs : list (list item)) (id : Z) : SstableMeta :=
  {| m_id := id; m_min_seq := default 0 (min_fold (concat cs)); m_max_seq := default 0 (max_fold (concat cs));
     m_record_count := zlen (concat cs) |}.

Lemma length_entries_at off cs : length (entries_at off cs) = length cs.
Proof. revert off. induction cs as [|c cs IH]; intros off; simpl; [done|]. by rewrite IH. Qed.

Lemma chunk_key_valid c : Forall item_valid c -> zlen (chunk_key c) <= MAX_KEY_SIZE.
Proof.
  intros Hv. unfold chunk_key. destruct (last c) as [i|] eqn:El; [|done]. apply bt_last_In in El.
  rewrite List.Forall_forall in Hv. apply (Hv i El).
Qed.

Lemma entries_at_keys off cs :
  Forall item_valid (concat cs) -> Forall (fun e => zlen (last_key e) <= MAX_KEY_SIZE) (entries_at off cs).
Proof.
  revert off. induction cs as [|c cs IH]; intros off; simpl; [constructor|]. rewrite Forall_app. intros [Hc Hcs].
  constructor; [by apply chunk_key_valid|by apply IH].
Qed.

Lemma encode_index_block_ok cs :
  Forall item_valid (concat cs) -> zlen cs <= u32_max -> encode_index_block (entries_at 0 cs) = Ok (index_bytes cs).
Proof.
  intros Hv Hn. unfold encode_index_block. rewrite length_entries_at. rewrite (proj2 (Z.ltb_ge _ _)) by done.
  by rewrite encode_index_entries_spec by (by apply entries_at_keys).
Qed.

Lemma write_tail_ok config hint w blks pend id :
  writer_inv config hint w blks pend -> target_block_size config <= 2 ^ 31 ->
  Forall item_valid (concat blks ++ pend) -> zlen (concat blks ++ pend) < 2 ^ 32 ->
  exists cs, concat cs = concat blks ++ pend /\ Forall (fun c => c <> []) cs /\
    Forall (fun c => zlen (block_bytes c) <= u32_max) cs /\
    write_tail w id = Ok (table_bytes cs (w_bloom w), table_meta cs id).
Proof.
  intros Hw Ht Hv Hn. assert (Forall item_valid (concat blks) /\ Forall item_valid pend) as [Hvb Hvp] by (by apply Forall_app).
  unfold write_tail. pose proof Hn as Hn'. rewrite zlen_app in Hn'.
  rewrite (wi_count _ _ _ _ _ Hw), Z.mod_small by lia.
  assert (exists cs, concat cs = concat blks ++ pend /\ Forall (fun c => c <> []) cs /\
    Forall (fun c => zlen (block_bytes c) <= u32_max) cs /\
    (if 0 <? zlen pend
     then finalize_and_write_block (w_file w) (w_index w) (w_offset w) (zlen pend) (w_buf w) (w_last_key w)
     else Ok (w_file w, w_index w, w_offset w)) = Ok (data_bytes cs, entries_at 0 cs, zlen (data_bytes cs)))
    as (cs & Hcc & Hne & Hsm & ->).
  { rewrite (wi_file _ _ _ _ _ Hw), (wi_index _ _ _ _ _ Hw), (wi_offset _ _ _ _ _ Hw), (wi_buf _ _ _ _ _ Hw),
      (wi_last _ _ _ _ _ Hw).
    remember pend as pend0 eqn:Ep0; destruct pend0 as [|i0 pend1] eqn:Ep.
    - exists blks. rewrite app_nil_r. split_and!; try done; apply Hw.
    - rewrite <- Ep in *. exists (blks ++ [pend0]). rewrite (proj2 (Z.ltb_lt _ _)) by (rewrite Ep; simpl; lia).
      assert (zlen (items_bytes pend0) + 8 <= u32_max) as Hsz.
      { destruct (wi_open _ _ _ _ _ Hw) as [Hnil|Ho]; [by rewrite Hnil in Ep|]. unfold_ints. lia. }
      rewrite (finalize_block_ok blks pend0) by (done || apply Hw || (rewrite Z.mod_small by lia; done) || lia).
      split_and!; [by rewrite concat_app; simpl; rewrite app_nil_r| | |done].
      + apply Forall_app. split; [apply Hw|]. constructor; [by rewrite Ep|constructor].
      + apply Forall_app. split; [apply Hw|]. constructor; [|constructor]. rewrite zlen_block_bytes. lia. }
  exists cs. split_and!; try done. rewrite <- Hcc in Hv, Hn. pose proof (zlen_data_bytes cs Hne Hv) as [Hlen _].
  rewrite (encode_index_block_ok cs) by (done || unfold_ints; lia).
  unfold table_bytes, table_meta, table_footer, bloom_bytes.
  by rewrite (wi_min _ _ _ _ _ Hw), (wi_max _ _ _ _ _ Hw), (wi_total _ _ _ _ _ Hw), <- Hcc.
Qed.

Lemma entries_at_layout off prev cs :
  sorted_items (concat cs) -> Forall (fun c => c <> []) cs ->
  (forall p c, prev = Some p -> In c cs -> cmp p (chunk_key c) <> Gt) -> index_layout off prev (entries_at off cs).
Proof.
  revert off prev. induction cs as [|c cs IH]; intros off prev Hs Hne Hp; simpl; [done|].
  inversion_clear Hne as [|? ? Hc Hne']. apply sorted_items_app in Hs as (Hsc & Hscs & Hlt).
  split_and!; [done|destruct prev as [p|]; [apply (Hp p c); [done|by left]|done]|].
  apply IH; [done..|]. intros p c' [= <-] Hc'. unfold chunk_key.
  destruct (last c) as [i|] eqn:El; [|by apply last_None in El].
  assert (c' <> []) as Hc'ne by (rewrite List.Forall_forall in Hne'; by apply Hne').
  destruct (last c') as [i'|] eqn:El'; [|by apply last_None in El'].
  apply cmp_key_le, Hlt; [by apply bt_last_In|]. apply in_concat. exists c'. split; [done|by apply bt_last_In].
Qed.

Lemma entries_at_data_len off cs : data_len (entries_at off cs) = zlen (data_bytes cs).
Proof.
  revert off. induction cs as [|c cs IH]; intros off; simpl; [done|]. rewrite IH.
  change (data_bytes (c :: cs)) with (block_bytes c ++ data_bytes cs). by rewrite zlen_app.
Qed.

Lemma entries_at_valid off cs :
  0 <= off -> off + zlen (data_bytes cs) <= u64_max -> Forall item_valid (concat cs) ->
  Forall (fun c => zlen (block_bytes c) <= u32_max) cs -> Forall entry_valid (entries_at off cs).
Proof.
  revert off. induction cs as [|c cs IH]; intros off Ho Hle Hv Hsm; simpl; [constructor|].
  change (data_bytes (c :: cs)) with (block_bytes c ++ data_bytes cs) in Hle. rewrite zlen_app in Hle.
  simpl in Hv. apply Forall_app in Hv as [Hvc Hvcs]. inversion_clear Hsm as [|? ? Hc Hsm'].
  constructor; [|apply IH; lia || done]. unfold entry_valid; cbn.
  split_and!; [by apply chunk_key_valid|unfold_ints; lia..].
Qed.

Lemma zlen_entries_bytes_at off cs :
  Forall item_valid (concat cs) ->
  zlen (entries_bytes (entries_at off cs)) <= zlen cs * (16 + MAX_KEY_SIZE).
Proof.
  revert off. induction cs as [|c cs IH]; intros off; simpl concat; [done|]. rewrite Forall_app. intros [Hc Hcs].
  simpl entries_at.
  match goal with |- zlen (entries_bytes (?e :: ?es)) <= _ =>
    change (zlen (entry_bytes e ++ entries_bytes es) <= zlen (c :: cs) * (16 + MAX_KEY_SIZE)) end.
  rewrite zlen_app, zlen_entry_bytes. cbn [last_key]. specialize (IH (off + zlen (block_bytes c)) Hcs).
  pose proof (chunk_key_valid c Hc). simpl length. lia.
Qed.

Lemma read_exact_at_app pre mid post len off :
  off = zlen pre -> len = zlen mid -> read_exact_at (pre ++ mid ++ post) len off = Ok mid.
Proof.
  intros -> ->. unfold read_exact_at. rewrite (proj2 (Z.leb_le _ _)) by (rewrite !zlen_app; lia).
  by rewrite zdrop_app, ztake_app.
Qed.

Lemma blocks_of_entries t pre cs post :
  t_file t = pre ++ data_bytes cs ++ post -> Forall (fun c => c <> []) cs -> Forall item_valid (concat cs) ->
  Forall (fun c => zlen (block_bytes c) <= u32_max) cs ->
  Forall2 (block_of t) (entries_at (zlen pre) cs) cs.
Proof.
  intros Hf Hne. revert pre Hf. induction Hne as [|c cs Hc Hne IH]; intros pre Hf Hv Hsm; simpl; [constructor|].
  simpl in Hv. apply Forall_app in Hv as [Hvc Hvcs]. inversion_clear Hsm as [|? ? Hsc Hsm'].
  change (data_bytes (c :: cs)) with (block_bytes c ++ data_bytes cs) in Hf. constructor.
  - split; cbn.
    + unfold read_block; cbn. rewrite Hf, <- (app_assoc (block_bytes c)). rewrite read_exact_at_app by done.
      assert (zlen (map item_rec c) = zlen c) as Hl by (by rewrite length_map).
      unfold block_bytes. rewrite <- Hl. rewrite zlen_block_bytes in Hsc. pose proof (zlen_items_bytes c Hvc).
      apply decode_block_encoded; [|unfold_ints; lia|fold (items_bytes c); unfold_ints; lia].
      apply Forall_fmap. eapply Forall_impl; [exact Hvc|]. intros i. apply item_valid_rec.
    + unfold chunk_key. destruct (last c) as [i|] eqn:El; [eauto|]. by apply last_None in El.
  - rewrite <- zlen_app. apply IH; [|done..]. by rewrite Hf, <- !app_assoc.
Qed.

Lemma fold_u64 (f : Z -> Z -> Z) (recs : list item) :
  (forall a b, f a b = a \/ f a b = b) -> Forall item_valid recs ->
  is_u64 (default 0 (fold_left (fun m i => Some (match m with Some m => f m i.1.2 | None => i.1.2 end)) recs None)).
Proof.
  intros Hf. assert (forall l o, Forall item_valid l -> is_u64 (default 0 o) ->
    is_u64 (default 0 (fold_left (fun m i => Some (match m with Some m => f m i.1.2 | None => i.1.2 end)) l o))) as Hg.
  { induction l as [|i l IH]; intros o Hv Ho; [done|]. inversion_clear Hv as [|? ? (_ & _ & Hi) Hl]. simpl.
    apply IH; [done|]. simpl. destruct o as [m|]; [|done]. destruct (Hf m i.1.2) as [->| ->]; done. }
  intros Hv. apply Hg; [done|]. simpl. unfold_ints. lia.
Qed.

(** Opening the bytes of a table gives back its blocks. *)
Lemma open_table_bytes cs f id :
  sorted_items (concat cs) -> Forall (fun c => c <> []) cs -> Forall item_valid (concat cs) ->
  Forall (fun c => zlen (block_bytes c) <= u32_max) cs ->
  zlen (concat cs) <= Bloom.max_record_count_for_bloom_cap DEFAULT_BLOOM_BITS_PER_KEY ->
  Bloom.filter_wf f -> is_u64 (Bloom.num_bits f) -> zlen (Bloom.bits f) <= BLOOM_CAP ->
  open (table_bytes cs f) id =
    Ok {| t_id := id; t_file := table_bytes cs f;
          t_footer := table_footer cs (zlen (bloom_bytes f)) (zlen (index_bytes cs));
          t_bloom := f; t_index := entries_at 0 cs |}.
Proof.
  intros Hs Hne Hv Hsm Hn [Hf0 Hfl] Hfb Hcap.
  pose proof (zlen_data_bytes cs Hne Hv) as [Hcs Hdb]. pose proof (zlen_entries_bytes_at 0 cs Hv) as Heb.
  assert (zlen (bloom_bytes f) = 13 + zlen (Bloom.bits f)) as Hbb.
  { unfold bloom_bytes, encode_bloom_block. rewrite zlen_with_crc. zlen. }
  assert (zlen (index_bytes cs) = 8 + zlen (entries_bytes (entries_at 0 cs))) as Hib.
  { unfold index_bytes. rewrite zlen_with_crc. zlen. }
  change (Bloom.max_record_count_for_bloom_cap DEFAULT_BLOOM_BITS_PER_KEY) with 214748364 in *.
  unfold REC_MAX, MAX_KEY_SIZE, MAX_VALUE_SIZE, DEFAULT_MAX_RECORD_LEN, BLOOM_CAP in *.
  set (ft := table_footer cs (zlen (bloom_bytes f)) (zlen (index_bytes cs))).
  assert (footer_valid ft) as Hfv.
  { unfold footer_valid, ft, table_footer; cbn.
    split_and!; try done; try (apply fold_u64; [lia|done]); unfold_ints; lia. }
  set (file := table_bytes cs f).
  assert (zlen file = zlen (data_bytes cs) + zlen (bloom_bytes f) + zlen (index_bytes cs) + 72) as Hlen.
  { unfold file, table_bytes. rewrite !zlen_app, zlen_footer. lia. }
  unfold open, FOOTER_SIZE. rewrite (proj2 (Z.ltb_ge _ _)) by lia.
  assert (file = (data_bytes cs ++ bloom_bytes f ++ index_bytes cs) ++ footer_encode ft ++ []) as Hf1.
  { unfold file, table_bytes. by rewrite app_nil_r, <- !app_assoc. }
  assert (file = (data_bytes cs ++ bloom_bytes f) ++ index_bytes cs ++ footer_encode ft) as Hf2.
  { unfold file, table_bytes. by rewrite <- !app_assoc. }
  rewrite Hf1 at 1. rewrite read_exact_at_app by (rewrite ?zlen_app, ?zlen_footer; lia).
  rewrite <- (app_nil_l (footer_encode ft)), footer_decode_encoded by done.
  cbv beta iota. unfold checked_add64. cbn [bloom_offset bloom_length index_offset index_length record_count ft table_footer].
  rewrite (proj2 (Z.leb_le _ u64_max)) by (unfold_ints; lia). cbn [ok_or]. rewrite (proj2 (Z.ltb_ge _ _)) by lia.
  rewrite (proj2 (Z.leb_le _ u64_max)) by (unfold_ints; lia). cbn [ok_or]. rewrite (proj2 (Z.ltb_ge _ _)) by lia.
  rewrite Z.eqb_refl. cbn [negb]. rewrite (proj2 (Z.eqb_eq _ _)) by lia. cbn [negb].
  change (Bloom.max_record_count_for_bloom_cap DEFAULT_BLOOM_BITS_PER_KEY) with 214748364.
  rewrite (proj2 (Z.ltb_ge _ _)) by lia.
  unfold file at 1, table_bytes. rewrite read_exact_at_app by done.
  unfold bloom_bytes at 1. rewrite decode_bloom_block_encoded by done.
  rewrite Hf2 at 1. rewrite read_exact_at_app by (rewrite ?zlen_app; lia).
  unfold index_bytes at 1. rewrite <- (length_entries_at 0 cs).
  rewrite decode_index_block_encoded.
  - cbn. by destruct f.
  - apply entries_at_valid; try done. unfold_ints; lia.
  - rewrite length_entries_at. unfold_ints; lia.
  - unfold_ints; lia.
  - by apply entries_at_layout.
  - apply entries_at_data_len.
  - unfold_ints; lia.
Qed.
(** Records a table can be written from: in strict [(key, seq)] order, within the size limits, in a number and with a
    filter the reader accepts, with a block size that keeps block lengths within [u32]. *)
Record writable (config : SsTableWriterConfig) (hint : Z) (recs : list item) : Prop := {
  wr_sorted : sorted_items recs;
  wr_valid : Forall item_valid recs;
  wr_count : zlen recs <= Bloom.max_record_count_for_bloom_cap DEFAULT_BLOOM_BITS_PER_KEY;
  wr_target : target_block_size config <= 2 ^ 31;
  wr_bits : is_u32 (bloom_bits_per_key config);
  wr_bloom : div_ceil (Bloom.bloom_num_bits (Z.max hint 1) (bloom_bits_per_key config)) 8 <= BLOOM_CAP
}.

Lemma fold_extreme (f : Z -> Z -> Z) (R : Z -> Z -> Prop) (recs : list item) :
  (forall a b, f a b = a \/ f a b = b) -> (forall a b, R (f a b) a /\ R (f a b) b) ->
  (forall a, R a a) -> (forall a b c, R a b -> R b c -> R a c) ->
  match fold_left (fun m i => Some (match m with Some m => f m i.1.2 | None => i.1.2 end)) recs None with
  | None => recs = []
  | Some m => (exists i, In i recs /\ i.1.2 = m) /\ forall i, In i recs -> R m i.1.2
  end.
Proof.
  intros Hsel Hle Hrefl Htr. induction recs as [|i recs IH] using rev_ind; [done|].
  rewrite fold_left_app. simpl. destruct (fold_left _ recs None) as [m|].
  - destruct IH as [(j & Hj & Hjm) Hall]. destruct (Hle m i.1.2) as [H1 H2]. split.
    + destruct (Hsel m i.1.2) as [->| ->]; [exists j|exists i]; rewrite in_app_iff; simpl; auto.
    + intros k [Hk|[<-|[]]]%in_app_iff; [|done]. apply (Htr _ m); auto.
  - subst. simpl. split; [by exists i; auto|]. intros k [<-|[]]. apply Hrefl.
Qed.

Lemma min_fold_spec recs :
  match min_fold recs with
  | None => recs = []
  | Some m => (exists i, In i recs /\ i.1.2 = m) /\ forall i, In i recs -> m <= i.1.2
  end.
Proof. apply (fold_extreme Z.min Z.le); lia. Qed.

Lemma max_fold_spec recs :
  match max_fold recs with
  | None => recs = []
  | Some m => (exists i, In i recs /\ i.1.2 = m) /\ forall i, In i recs -> i.1.2 <= m
  end.
Proof. apply (fold_extreme Z.max (fun a b => b <= a)); intros; cbv beta in *; lia. Qed.

Lemma write_open recs id config hint :
  writable config hint recs ->
  exists file meta t, write_from_sorted_records (map Ok recs) id config hint = Some (Ok (file, meta)) /\
    open file id = Ok t /\ represents t recs /\
    meta = {| m_id := id; m_min_seq := min_seq (t_footer t); m_max_seq := max_seq (t_footer t);
              m_record_count := record_count (t_footer t) |} /\
    record_count (t_footer t) = zlen recs /\
    (recs <> [] -> (exists i, In i recs /\ i.1.2 = min_seq (t_footer t)) /\
                   (exists i, In i recs /\ i.1.2 = max_seq (t_footer t))) /\
    (forall i, In i recs -> min_seq (t_footer t) <= i.1.2 <= max_seq (t_footer t)).
Proof.
  intros [Hs Hv Hn Ht Hb Hbl]. assert (zlen recs < 2 ^ 32) as Hn32.
  { change (Bloom.max_record_count_for_bloom_cap DEFAULT_BLOOM_BITS_PER_KEY) with 214748364 in Hn. lia. }
  destruct (write_items_inv config hint recs (writer_new config hint) [] []) as (w & blks & pend & Ew & Hw & Hcc);
    [apply writer_new_inv; unfold_ints; lia|done|done|simpl; lia|]. simpl in Hcc.
  destruct (write_tail_ok config hint w blks pend id Hw Ht) as (cs & Hcs & Hne & Hsm & Etail).
  { by rewrite Hcc. } { by rewrite Hcc. }
  rewrite Hcc in Hcs. unfold write_from_sorted_records. rewrite Ew. cbn [mbind option_bind]. rewrite Etail.
  pose proof (wi_bloom _ _ _ _ _ Hw) as [Hf0 Hfl]. pose proof (wi_bits _ _ _ _ _ Hw) as Hnb.
  assert (is_u64 (Bloom.num_bits (w_bloom w))) as Hu.
  { rewrite Hnb. unfold Bloom.bloom_num_bits, saturating_mul64. unfold_ints. case_cmp; [lia|].
    assert (0 <= Z.max hint 1 * bloom_bits_per_key config) by nia. lia. }
  eexists _, _, _. split; [done|]. split.
  { apply open_table_bytes; rewrite ?Hcs; try done. by rewrite Hfl, Hnb. }
  assert (represents {| t_id := id; t_file := table_bytes cs (w_bloom w);
    t_footer := table_footer cs (zlen (bloom_bytes (w_bloom w))) (zlen (index_bytes cs));
    t_bloom := w_bloom w; t_index := entries_at 0 cs |} recs) as Hrep.
  { exists cs. split; [|done]. split; cbn.
    - eapply (blocks_of_entries _ []); [|done|by rewrite Hcs|done]. cbn. unfold table_bytes. done.
    - by rewrite Hcs.
    - rewrite Hcs, <- Hcc. apply Hw.
    - intros k. apply Bloom.might_contain_total, Hw. }
  split; [exact Hrep|]. cbn. unfold table_meta. rewrite !Hcs. split_and!; try done.
  - intros Hrecs. pose proof (min_fold_spec recs). pose proof (max_fold_spec recs).
    destruct (min_fold recs), (max_fold recs); [naive_solver|done..].
  - intros i Hi. pose proof (min_fold_spec recs). pose proof (max_fold_spec recs).
    destruct (min_fold recs), (max_fold recs); [naive_solver|(match goal with E : recs = [] |- _ => rewrite E in Hi end); destruct Hi..].
Qed.

Lemma represents_get t recs key as_of :
  represents t recs -> get_versioned t key as_of = Some (Ok (newest recs key as_of)).
Proof. intros (chunks & Ht & <-). by apply get_versioned_table. Qed.

Lemma bt_sorted_uniq (recs : list item) : bt_sorted recs -> uniq recs.
Proof.
  intros Hs k s v v' H1 H2. pose proof (bt_sorted_key_inj recs _ _ Hs H1 H2 eq_refl). congruence.
Qed.

Lemma write_items_keys config recs w w' :
  write_items config w (map Ok recs) = Some (Ok w') -> Forall (fun i => zlen i.1.1 <= MAX_KEY_SIZE) recs.
Proof.
  revert w. induction recs as [|[[k s] v] recs IH]; intros w; [done|]. simpl map. cbn [write_items write_item].
  destruct (op_bytes v) as [o vb]. unfold encode_record.
  destruct (checked_len (zlen k) MAX_KEY_SIZE) eqn:Ek; [apply checked_len_Ok in Ek|done].
  destruct (checked_len (zlen vb) MAX_VALUE_SIZE); [|done].
  destruct (Bloom.insert _ k); cbn [mbind option_bind]; [|done]. intros Hw. constructor; [done|].
  repeat case_match; simplify_eq/=; eauto.
Qed.

(** ** Flushing a memtable *)

Definition flush_items (m : Mem.MemTable) : list item :=
  map (fun e => (e.1.1, e.1.2, of_memtable_value e.2)) (Mem.map m).

Lemma write_from_memtable_items m id config :
  write_from_memtable m id config =
    write_from_sorted_records (map Ok (flush_items m)) id config (Mem.entry_count m).
Proof.
  unfold write_from_memtable, Mem.range, flush_items. simpl. unfold bt_range. simpl.
  assert (List.filter (fun _ : bytes * Z * Mem.MemtableValue => true) (Mem.map m) = Mem.map m) as ->.
  { induction (Mem.map m) as [|e l IH]; simpl; [done|]. by rewrite IH. }
  f_equal. rewrite map_map. apply map_ext. by intros [[k s] v].
Qed.

Lemma flush_items_sorted m : Mem.wf m -> bt_sorted (flush_items m).
Proof.
  intros Hm. pose proof (Mem.wf_sorted m Hm) as Hs. unfold flush_items, bt_sorted in *.
  induction Hs as [|e l Hs IH Hall]; simpl; constructor; [done|].
  apply Forall_fmap. eapply Forall_impl; [exact Hall|]. by intros [[k s] v].
Qed.

Lemma newest_flush m key as_of :
  Mem.wf m -> 0 <= as_of ->
  newest (flush_items m) key as_of = (fun p => (p.1, of_memtable_value p.2)) <$> Mem.get_as_of m key as_of.
Proof.
  intros Hm Ha. assert (forall s v, In (key, s, v) (flush_items m) <->
    exists v0, In ((key, s), v0) (Mem.map m) /\ v = of_memtable_value v0) as Hin.
  { intros s v. unfold flush_items. rewrite in_map_iff. split.
    - intros ([[k s'] v0] & [= -> -> <-] & Hin). eauto.
    - intros (v0 & Hin & ->). exists ((key, s), v0). done. }
  pose proof (bt_sorted_uniq _ (flush_items_sorted m Hm)) as Hu.
  destruct (Mem.get_as_of m key as_of) as [[s v]|] eqn:Eg; simpl.
  - apply Mem.get_as_of_Some in Eg as (H1 & H2 & H3); [|done..]. apply newest_iff; [done|].
    split_and!; [apply Hin; eauto|done|]. intros s' v' (v0 & Hv0 & _)%Hin Hs'. eauto.
  - rewrite Mem.get_as_of_None in Eg by done. apply newest_None. intros s v (v0 & Hv0 & _)%Hin. eauto.
Qed.
End Tables.

(** ** Theorems *)

Section TableTheorems.
Context `{Crc32c, Xxh64}.

(** C8: writing and opening.  Any records within the limits, in order, can be written and the file opens; the table then
    answers every snapshot lookup, through bloom filter and sparse index, with the newest visible record, its footer has
    the exact record count, and its sequence range is the exact range of the records. *)
Theorem write_open_get recs id config hint :
  writable config hint recs ->
  exists file meta t, write_from_sorted_records (map Ok recs) id config hint = Some (Ok (file, meta)) /\
    open file id = Ok t /\
    (forall key as_of, get_versioned t key as_of = Some (Ok (newest recs key as_of))) /\
    m_record_count meta = zlen recs /\ record_count (t_footer t) = zlen recs /\
    (forall i, In i recs -> m_min_seq meta <= i.1.2 <= m_max_seq meta).
Proof.
  intros Hw. destruct (write_open recs id config hint Hw) as (file & meta & t & E & Eo & Hr & Hm & Hc & _ & Hb).
  exists file, meta, t. rewrite Hm in *. cbn. split_and!; try done. intros key as_of. by apply represents_get.
Qed.

(** C28: range scans.  Draining a cursor over any bounds yields exactly the records whose keys lie within them, in order
    and without an error; fuel linear in the table's records and blocks is enough. *)
Theorem cursor_scan t recs lo hi :
  represents t recs ->
  exists n, forall fuel, (n < fuel)%nat ->
    drain fuel (range_scan_cursor t lo hi) = Some (map Ok (List.filter (in_bounds lo hi) recs)).
Proof.
  intros (chunks & Ht & <-). exists (length (concat chunks) + length chunks)%nat.
  intros fuel Hf. by apply drain_table.
Qed.

(** [contains_versioned] agrees with [get_versioned] on every table, also on a corrupt one: same error, same panic,
    and otherwise whether the winning version is a put. *)
Theorem contains_agrees t key as_of :
  contains_versioned t key as_of =
    match get_versioned t key as_of with
    | Some (Ok r) => Some (Ok ((fun p => is_put p.2) <$> r))
    | Some (Err e) => Some (Err e)
    | None => None
    end.
Proof. apply contains_versioned_get. Qed.

(** C13: a flushed memtable reads the same: the table written from a well-formed memtable answers every lookup at every
    snapshot exactly as the memtable does. *)
Theorem flush_refines m id config :
  Mem.wf m -> writable config (Mem.entry_count m) (flush_items m) ->
  exists file meta t, write_from_memtable m id config = Some (Ok (file, meta)) /\ open file id = Ok t /\
    (forall key as_of, 0 <= as_of ->
      get_versioned t key as_of =
        Some (Ok ((fun p => (p.1, of_memtable_value p.2)) <$> Mem.get_as_of m key as_of))) /\
    m_record_count meta = Mem.entry_count m.
Proof.
  intros Hm Hw. destruct (write_open (flush_items m) id config _ Hw) as (file & meta & t & E & Eo & Hr & Hme & Hc & _).
  exists file, meta, t. rewrite write_from_memtable_items. split_and!; try done.
  - intros key as_of Ha. rewrite (represents_get t (flush_items m)) by done. by rewrite newest_flush.
  - rewrite Hme. cbn. rewrite Hc. unfold flush_items, Mem.entry_count. by rewrite length_map.
Qed.

(** C29: a key longer than 64 KiB is accepted by the WAL encoder and by the memtable, but a memtable that holds it can
    never be flushed, whatever the configuration and whatever else it holds. *)
Theorem long_key_never_flushes m key value sq id config :
  Mem.wf m -> MAX_KEY_SIZE < zlen key -> zlen key + zlen value <= DEFAULT_MAX_RECORD_LEN - 17 ->
  is_ok (encode_wal_frame sq (Put key value) DEFAULT_MAX_RECORD_LEN) = true /\
  forall r, write_from_memtable (Mem.insert m key sq (Mem.MPut value)) id config <> Some (Ok r).
Proof.
  intros Hm Hk Hkv. split.
  - pose proof (encode_wal_frame_cases sq (Put key value) DEFAULT_MAX_RECORD_LEN ltac:(done)) as He.
    rewrite (proj2 (Z.leb_le _ _)) in He; [by rewrite He|].
    unfold wal_body. cbn [op_payload op_tag]. unfold len_prefixed. rewrite !zlen_app, !length_le_bytes. simpl length.
    unfold DEFAULT_MAX_RECORD_LEN in *. unfold_ints. lia.
  - intros r. rewrite write_from_memtable_items. unfold write_from_sorted_records.
    destruct (write_items _ _ _) as [[w|e]|] eqn:E; simpl; [|done..]. intros _.
    apply write_items_keys in E. rewrite Forall_forall in E. specialize (E (key, sq, RPut value)). simpl in E.
    assert (zlen key <= MAX_KEY_SIZE); [|lia]. apply E. apply list_elem_of_In. unfold flush_items. apply in_map_iff.
    exists ((key, sq), Mem.MPut value). split; [done|]. apply Mem.In_insert; auto.
Qed.
End TableTheorems.

(** ** Witnesses *)

Definition demo_items : list item :=
  [([x61], 1, RPut [x31]); ([x61], 4, RTombstone); ([x62], 2, RPut [x32]); ([x63], 9, RPut [x33; x34])].

Definition small_blocks : SsTableWriterConfig := {| target_block_size := 40; bloom_bits_per_key := 10 |}.

Lemma demo_writable : writable small_blocks 4 demo_items.
Proof.
  split; try by_eval. apply bt_sorted_items. repeat constructor.
Qed.

Lemma write_open_get_witness :
  exists file meta t, write_from_sorted_records (map Ok demo_items) 7 small_blocks 4 = Some (Ok (file, meta)) /\
    open file 7 = Ok t /\
    (forall key as_of, get_versioned t key as_of = Some (Ok (newest demo_items key as_of))) /\
    m_record_count meta = zlen demo_items /\ record_count (t_footer t) = zlen demo_items /\
    (forall i, In i demo_items -> m_min_seq meta <= i.1.2 <= m_max_seq meta).
Proof. apply (write_open_get demo_items 7 small_blocks 4). exact demo_writable. Defined.

Lemma cursor_scan_witness :
  exists t n, forall fuel, (n < fuel)%nat ->
    drain fuel (range_scan_cursor t (Excluded [x61]) Unbounded) =
      Some (map Ok (List.filter (in_bounds (Excluded [x61]) Unbounded) demo_items)).
Proof.
  destruct (write_open demo_items 7 small_blocks 4 demo_writable) as (file & meta & t & _ & _ & Hr & _).
  exists t. apply (cursor_scan t demo_items (Excluded [x61]) Unbounded Hr).
Defined.

Lemma flush_refines_witness :
  exists file meta t, write_from_memtable Mem.demo_table 3 small_blocks = Some (Ok (file, meta)) /\ open file 3 = Ok t /\
    (forall key as_of, 0 <= as_of ->
      get_versioned t key as_of =
        Some (Ok ((fun p => (p.1, of_memtable_value p.2)) <$> Mem.get_as_of Mem.demo_table key as_of))) /\
    m_record_count meta = Mem.entry_count Mem.demo_table.
Proof.
  apply (flush_refines Mem.demo_table 3 small_blocks Mem.demo_wf). split; try by_eval. apply bt_sorted_items. repeat constructor.
Defined.

Lemma long_key_never_flushes_witness :
  let key := replicate (Z.to_nat 65537) x61 in
  is_ok (encode_wal_frame 5 (Put key [x31]) DEFAULT_MAX_RECORD_LEN) = true /\
  forall r, write_from_memtable (Mem.insert (Mem.new 1024) key 5 (Mem.MPut [x31])) 1 config_default <> Some (Ok r).
Proof.
  apply (long_key_never_flushes (Mem.new 1024) (replicate (Z.to_nat 65537) x61) [x31] 5 1 config_default);
    [apply Mem.new_wf|rewrite length_replicate; by_eval..].
Defined.

End Sst.
