(* ===== verification/Compaction.v ===== *)
(** * Compaction ([src/src/compaction/mod.rs])

    The retention rule [retain_versions] and the k-way merge.  An input cursor behind [Peekable] is the list of items it
    has yet to yield ([cursor_scan] ties that list to the table); [peek] is its head, and an exhausted slot ([None] in
    the source) is the empty list. *)

From stdpp Require Import base list option strings sorting.
From Stdlib Require Import ZArith Lia.
From Stdlib Require Import Strings.Byte.
From S2P Require Import Prelude BTree EngineError Checksum WalFormat SsFormat Bloom Versions MemTable SsTable.

Module Compact.
Import Sst.

Record MergeStats : Type := {
  records_read : Z;
  records_retained : Z;
  tombstones_dropped : Z;
  versions_dropped : Z
}.

Definition stats_default : MergeStats :=
  {| records_read := 0; records_retained := 0; tombstones_dropped := 0; versions_dropped := 0 |}.

(** The [for i in (0..total).rev()] loop: [rev] is what is left, newest first. *)
Fixpoint keep_flags (oldest : option Z) (rev : list (Z * RecordValue)) (is_newest floor_reached : bool) : list bool :=
  match rev with
  | [] => []
  | (seq, _) :: rev =>
      if is_newest then
        true :: keep_flags oldest rev false
                  (if match oldest with None => true | Some o => seq <=? o end then true else floor_reached)
      else if floor_reached then false :: keep_flags oldest rev false floor_reached
      else
        true :: keep_flags oldest rev false
                  (match oldest with Some o => if seq <=? o then true else floor_reached | None => floor_reached end)
  end.

Definition count_retained (st : MergeStats) : MergeStats :=
  {| records_read := records_read st; records_retained := records_retained st + 1;
     tombstones_dropped := tombstones_dropped st; versions_dropped := versions_dropped st |}.

Definition count_dropped (v : RecordValue) (st : MergeStats) : MergeStats :=
  match v with
  | RTombstone =>
      {| records_read := records_read st; records_retained := records_retained st;
         tombstones_dropped := tombstones_dropped st + 1; versions_dropped := versions_dropped st |}
  | RPut _ =>
      {| records_read := records_read st; records_retained := records_retained st;
         tombstones_dropped := tombstones_dropped st; versions_dropped := versions_dropped st + 1 |}
  end.

(** The [for (i, entry) in versions.into_iter().enumerate()] loop. *)
Fixpoint retain_loop (versions : list (Z * RecordValue)) (keep : list bool) (st : MergeStats) :
    list (Z * RecordValue) * MergeStats :=
  match versions, keep with
  | entry :: versions, k :: keep =>
      if k : bool then
        let '(retained, st) := retain_loop versions keep (count_retained st) in (entry :: retained, st)
      else retain_loop versions keep (count_dropped entry.2 st)
  | _, _ => ([], st)
  end.

Definition retain_versions (versions : list (Z * RecordValue)) (oldest_live_snapshot_seq : option Z)
    (stats : MergeStats) : list (Z * RecordValue) * MergeStats :=
  match versions with
  | [] => (versions, stats)
  | _ :: _ => retain_loop versions (reverse (keep_flags oldest_live_snapshot_seq (reverse versions) true false)) stats
  end.

(** ** The merge iterator *)

Record CompactionMergeIter : Type := {
  cursors : list (list (res item));
  pending : list item;
  oldest_live_snapshot_seq : option Z;
  errored : bool;
  stats : MergeStats
}.

(** The first slot whose [peek] is an error. *)
Fixpoint first_error (cs : list (list (res item))) : option EngineError :=
  match cs with
  | [] => None
  | (Err e :: _) :: _ => Some e
  | _ :: cs => first_error cs
  end.

(** The [min_key] loop. *)
Fixpoint min_key (acc : option bytes) (cs : list (list (res item))) : option bytes :=
  match cs with
  | [] => acc
  | (Ok (k, _, _) :: _) :: cs =>
      min_key (if match acc with None => true | Some mk => ltb k mk end then Some k else acc) cs
  | _ :: cs => min_key acc cs
  end.

(** The inner [loop]: the head entries with the winning key, and the rest. *)
Fixpoint take_key (winning_key : bytes) (c : list (res item)) : list (Z * RecordValue) * list (res item) :=
  match c with
  | Ok (k, seq, value) :: rest =>
      if eqb k winning_key then let '(vs, rest) := take_key winning_key rest in ((seq, value) :: vs, rest)
      else ([], c)
  | _ => ([], c)
  end.

Fixpoint collect_versions (winning_key : bytes) (cs : list (list (res item))) :
    list (Z * RecordValue) * list (list (res item)) :=
  match cs with
  | [] => ([], [])
  | c :: cs =>
      let '(vs, c') := take_key winning_key c in
      let '(vs', cs') := collect_versions winning_key cs in
      (vs ++ vs', c' :: cs')
  end.

(** [sort_unstable_by_key(|(seq, _)| *seq)], as an insertion sort; the order it leaves between equal sequence numbers is
    one of those the unstable sort may choose. *)
Fixpoint insert_by_seq (x : Z * RecordValue) (l : list (Z * RecordValue)) : list (Z * RecordValue) :=
  match l with
  | [] => [x]
  | y :: l' => if x.1 <=? y.1 then x :: l else y :: insert_by_seq x l'
  end.

Definition sort_by_seq (l : list (Z * RecordValue)) : list (Z * RecordValue) := foldr insert_by_seq [] l.

Definition add_read (n : Z) (st : MergeStats) : MergeStats :=
  {| records_read := records_read st + n; records_retained := records_retained st;
     tombstones_dropped := tombstones_dropped st; versions_dropped := versions_dropped st |}.

(** [Iterator::next]: one turn of the [loop] per unit of fuel. *)
Fixpoint merge_loop (fuel : nat) (it : CompactionMergeIter) : option (option (res item) * CompactionMergeIter) :=
  match fuel with
  | O => None
  | S fuel =>
      match pending it with
      | rec :: pending' =>
          Some (Some (Ok rec), {| cursors := cursors it; pending := pending';
            oldest_live_snapshot_seq := oldest_live_snapshot_seq it; errored := errored it; stats := stats it |})
      | [] =>
          match first_error (cursors it) with
          | Some e =>
              Some (Some (Err e), {| cursors := cursors it; pending := [];
                oldest_live_snapshot_seq := oldest_live_snapshot_seq it; errored := true; stats := stats it |})
          | None =>
              match min_key None (cursors it) with
              | None => Some (None, it)
              | Some winning_key =>
                  let '(versions, cursors') := collect_versions winning_key (cursors it) in
                  let stats' := add_read (zlen versions) (stats it) in
                  let '(retained, stats'') :=
                    retain_versions (sort_by_seq versions) (oldest_live_snapshot_seq it) stats' in
                  merge_loop fuel {| cursors := cursors';
                    pending := map (fun p => (winning_key, p.1, p.2)) retained;
                    oldest_live_snapshot_seq := oldest_live_snapshot_seq it; errored := errored it; stats := stats'' |}
              end
          end
      end
  end.

Definition merge_next (fuel : nat) (it : CompactionMergeIter) : option (option (res item) * CompactionMergeIter) :=
  if errored it then Some (None, it) else merge_loop fuel it.

Definition merge (inputs : list (list (res item))) (oldest : option Z) : CompactionMergeIter :=
  {| cursors := inputs; pending := []; oldest_live_snapshot_seq := oldest; errored := false; stats := stats_default |}.

(** What the consumer obtains by calling [next] until [None], and the final statistics. *)
Fixpoint merge_drain (fuel : nat) (it : CompactionMergeIter) : option (list (res item) * MergeStats) :=
  match fuel with
  | O => None
  | S fuel =>
      '(x, it') ← merge_next 2 it;
      match x with
      | None => Some ([], stats it')
      | Some rec => '(rest, st) ← merge_drain fuel it'; Some (rec :: rest, st)
      end
  end.

(** ** Retention *)

Definition seqs_ascending (vs : list (Z * RecordValue)) : Prop := StronglySorted (fun a b => a.1 <= b.1) vs.

(** The number of trailing versions the loop keeps: up to and including the floor. *)
Fixpoint keep_count (oldest : option Z) (rev : list (Z * RecordValue)) (is_newest : bool) : nat :=
  match rev with
  | [] => O
  | (seq, _) :: rev =>
      if match oldest with None => is_newest | Some o => seq <=? o end then 1 else S (keep_count oldest rev false)
  end.

Lemma keep_flags_floor oldest rev : keep_flags oldest rev false true = replicate (length rev) false.
Proof. induction rev as [|[s v] rev IH]; simpl; [done|]. by rewrite IH. Qed.

Lemma keep_flags_count oldest rev newest :
  keep_flags oldest rev newest false =
    replicate (keep_count oldest rev newest) true ++ replicate (length rev - keep_count oldest rev newest) false.
Proof.
  revert newest. induction rev as [|[s v] rev IH]; intros newest; simpl; [done|].
  destruct newest, oldest as [o|]; try destruct (s <=? o); simpl;
    rewrite ?keep_flags_floor, ?Nat.sub_0_r; try done; by rewrite IH.
Qed.

Lemma keep_count_le oldest rev newest : (keep_count oldest rev newest <= length rev)%nat.
Proof.
  revert newest. induction rev as [|[s v] rev IH]; intros newest; simpl; [done|]. specialize (IH false).
  repeat case_match; lia.
Qed.

Lemma retain_loop_drop n vs st :
  (n <= length vs)%nat ->
  let '(retained, st') := retain_loop vs (replicate n false ++ replicate (length vs - n) true) st in
  retained = drop n vs /\ records_read st' = records_read st /\
  records_retained st' = records_retained st + zlen (drop n vs) /\
  tombstones_dropped st' + versions_dropped st' = tombstones_dropped st + versions_dropped st + Z.of_nat n /\
  tombstones_dropped st' = tombstones_dropped st + zlen (List.filter (fun p => negb (is_put p.2)) (take n vs)).
Proof.
  revert n st. induction vs as [|[s v] vs IH]; intros n st Hn; simpl.
  { destruct n; [|simpl in Hn; lia]. simpl. split_and!; lia || done. }
  destruct n as [|n]; simpl.
  - specialize (IH 0%nat (count_retained st)). simpl in IH. rewrite Nat.sub_0_r in IH.
    destruct (retain_loop vs _ _) as [r st']. destruct IH as (-> & H1 & H2 & H3 & H4); [lia|].
    rewrite drop_0 in *. simpl in *. split_and!; try done; lia.
  - specialize (IH n (count_dropped v st)). simpl in Hn.
    destruct (retain_loop vs _ _) as [r st']. destruct IH as (-> & H1 & H2 & H3 & H4); [lia|].
    destruct v; simpl in *; split_and!; try done; lia.
Qed.

Lemma reverse_keep_flags oldest vs :
  let k := keep_count oldest (reverse vs) true in
  reverse (keep_flags oldest (reverse vs) true false) = replicate (length vs - k) false ++ replicate k true.
Proof.
  intros k. rewrite keep_flags_count, reverse_app, !reverse_replicate, length_reverse. done.
Qed.

Lemma retain_versions_drop oldest vs st :
  let n := (length vs - keep_count oldest (reverse vs) true)%nat in
  let '(retained, st') := retain_versions vs oldest st in
  retained = drop n vs /\ records_read st' = records_read st /\
  records_retained st' = records_retained st + zlen (drop n vs) /\
  tombstones_dropped st' + versions_dropped st' = tombstones_dropped st + versions_dropped st + Z.of_nat n /\
  tombstones_dropped st' = tombstones_dropped st + zlen (List.filter (fun p => negb (is_put p.2)) (take n vs)).
Proof.
  intros n. assert (retain_versions vs oldest st =
    retain_loop vs (reverse (keep_flags oldest (reverse vs) true false)) st) as -> by (by destruct vs).
  rewrite reverse_keep_flags. pose proof (keep_count_le oldest (reverse vs) true) as Hle. rewrite length_reverse in Hle.
  replace (keep_count oldest (reverse vs) true) with (length vs - n)%nat by (unfold n; lia).
  replace (length vs - (length vs - n))%nat with n by (unfold n; lia). apply retain_loop_drop. unfold n; lia.
Qed.

(** The floor: how far the loop keeps, read on the ascending list. *)
Lemma keep_count_spec oldest rev newest :
  (forall o, oldest = Some o -> 
    Forall (fun p => o < p.1) (take (pred (keep_count oldest rev newest)) rev) /\
    (keep_count oldest rev newest = length rev \/
     exists p, rev !! (pred (keep_count oldest rev newest)) = Some p /\ p.1 <= o)) /\
  (oldest = None -> newest = true -> rev <> [] -> keep_count oldest rev newest = 1%nat) /\
  (rev <> [] -> (1 <= keep_count oldest rev newest)%nat).
Proof.
  split_and!.
  - intros o ->. revert newest. induction rev as [|[s v] rev IH]; intros newest; simpl; [split; [done|by left]|].
    destruct (Z.leb_spec s o); simpl; [split; [done|]; right; by exists (s, v)|].
    destruct (IH false) as [H1 H2]. destruct (keep_count (Some o) rev false) as [|k] eqn:Ek; simpl in *.
    + split; [done|]. destruct H2 as [H2|(p & Hp & Hpo)]; [left; lia|]. destruct rev as [|[s' v'] rev]; [done|].
      simpl in Ek. by destruct (s' <=? o).
    + split; [by constructor|]. destruct H2 as [H2|H2]; [left; lia|by right].
  - intros -> -> Hr. by destruct rev as [|[]].
  - intros Hr. destruct rev as [|[s v] rev]; [done|]. simpl. repeat case_match; lia.
Qed.

(** The versions of one key, as items. *)
Definition vers (k : bytes) (vs : list (Z * RecordValue)) : list item := map (fun p => (k, p.1, p.2)) vs.

Lemma In_vers k vs k' s v : In (k', s, v) (vers k vs) <-> k' = k /\ In (s, v) vs.
Proof.
  unfold vers. rewrite in_map_iff. split.
  - intros ([s0 v0] & [= -> -> ->] & Hin). done.
  - intros [-> Hin]. by exists (s, v).
Qed.

(** The snapshots compaction must keep answering: those at or above the oldest live one, or, when there is none, those
    that see every version. *)
Definition protected (oldest : option Z) (l : list item) (key : bytes) (as_of : Z) : Prop :=
  match oldest with Some o => o <= as_of | None => forall s v, In (key, s, v) l -> s <= as_of end.

Lemma ascending_split vs n p a :
  seqs_ascending vs -> vs !! n = Some p -> In a (take n vs) -> a.1 <= p.1.
Proof.
  intros Hs Hp Ha. revert n Hp Ha. induction Hs as [|x vs Hs IH Hall]; intros [|n] Hp Ha; simpl in *; try done.
  destruct Ha as [<-|Ha]; [|by eauto]. rewrite Forall_forall in Hall. apply Hall. by eapply list_elem_of_lookup_2.
Qed.

(** What [retain_versions] keeps of an ascending run: a suffix, never empty, that starts at the floor and holds nothing
    older than it; everything behind the floor is newer than the oldest live snapshot. *)
Lemma retain_floor oldest vs :
  vs <> [] ->
  let n := (length vs - keep_count oldest (reverse vs) true)%nat in
  (n < length vs)%nat /\
  (n = 0%nat \/ match oldest with Some o => exists p, vs !! n = Some p /\ p.1 <= o | None => n = pred (length vs) end) /\
  match oldest with Some o => forall j p, (n < j)%nat -> vs !! j = Some p -> o < p.1 | None => n = pred (length vs) end.
Proof.
  intros Hne n. assert (reverse vs <> []) as Hr.
  { intros E. apply (f_equal reverse) in E. rewrite reverse_involutive in E. done. }
  destruct (keep_count_spec oldest (reverse vs) true) as (H1 & H2 & H3). specialize (H3 Hr).
  pose proof (keep_count_le oldest (reverse vs) true) as Hle. rewrite length_reverse in Hle.
  set (k := keep_count oldest (reverse vs) true) in *. assert (0 < length vs)%nat by (destruct vs; [done|simpl; lia]).
  split_and!; [unfold n; lia| |].
  - destruct oldest as [o|].
    + destruct (H1 o eq_refl) as [_ [Hk|(p & Hp & Hpo)]]; [left; unfold n; rewrite Hk, length_reverse; lia|].
      right. exists p. split; [|done]. rewrite reverse_lookup in Hp by lia. rewrite <- Hp. f_equal. unfold n. lia.
    + right. specialize (H2 eq_refl eq_refl Hr). unfold n. lia.
  - destruct oldest as [o|]; [|specialize (H2 eq_refl eq_refl Hr); unfold n; lia].
    intros j p Hj Hp. destruct (H1 o eq_refl) as [Hall _]. pose proof (lookup_lt_Some _ _ _ Hp) as Hjl.
    rewrite Forall_forall in Hall. apply Hall. apply list_elem_of_lookup. exists (length vs - S j)%nat.
    rewrite lookup_take_lt by (unfold n in Hj; lia). rewrite reverse_lookup by lia. rewrite <- Hp. f_equal. lia.
Qed.

Lemma newest_suffix k vs n p as_of :
  seqs_ascending vs -> uniq (vers k vs) -> vs !! n = Some p -> p.1 <= as_of ->
  newest (vers k (drop n vs)) k as_of = newest (vers k vs) k as_of.
Proof.
  intros Hs Hu Hp Hpa. rewrite <- (take_drop n vs) at 2. unfold vers. rewrite map_app, newest_app.
  fold (vers k (take n vs)) (vers k (drop n vs)).
  assert (In (k, p.1, p.2) (vers k (drop n vs))) as Hin.
  { apply In_vers. split; [done|]. rewrite <- surjective_pairing. rewrite (drop_S _ _ _ Hp). by left. }
  destruct (newest (vers k (drop n vs)) k as_of) as [[s v]|] eqn:Eb.
  - apply newest_Some in Eb as (Hinb & Hsb & Hmax). specialize (Hmax _ _ Hin Hpa).
    destruct (newest (vers k (take n vs)) k as_of) as [[s' v']|] eqn:Ea; simpl; [|done].
    apply newest_Some in Ea as (Hina & _ & _). apply In_vers in Hina as [_ Hina].
    pose proof (ascending_split vs n p _ Hs Hp Hina) as Hle. simpl in Hle.
    destruct (Z.ltb_spec s' s); [done|]. assert (s' = s) as -> by lia. do 2 f_equal.
    apply (Hu k s).
    + apply In_vers in Hinb as [_ Hinb]. apply In_vers. split; [done|]. rewrite <- (take_drop n vs). apply in_app_iff. by right.
    + apply In_vers. split; [done|]. rewrite <- (take_drop n vs). apply in_app_iff. by left.
  - rewrite newest_None in Eb. specialize (Eb _ _ Hin). lia.
Qed.

Lemma retain_reads k vs oldest st as_of :
  seqs_ascending vs -> uniq (vers k vs) -> protected oldest (vers k vs) k as_of ->
  newest (vers k (retain_versions vs oldest st).1) k as_of = newest (vers k vs) k as_of.
Proof.
  intros Hs Hu Hpr. pose proof (retain_versions_drop oldest vs st) as Hd.
  destruct (retain_versions vs oldest st) as [r st']. destruct Hd as (-> & _). simpl.
  destruct vs as [|x vs0] eqn:E; [by rewrite drop_nil|]. rewrite <- E in *.
  destruct (retain_floor oldest vs) as (Hn & [Hz|Hfl] & _); [by rewrite E|by rewrite Hz, drop_0|].
  set (n := (length vs - keep_count oldest (reverse vs) true)%nat) in *.
  destruct oldest as [o|].
  - destruct Hfl as (p & Hp & Hpo). simpl in Hpr. apply (newest_suffix k vs n p); [done..|lia].
  - destruct (lookup_lt_is_Some_2 vs n Hn) as [p Hp]. apply (newest_suffix k vs n p); [done..|].
    apply (Hpr p.1 p.2). apply In_vers. split; [done|]. rewrite <- surjective_pairing.
    apply list_elem_of_In. by eapply list_elem_of_lookup_2.
Qed.

(** ** Sorting one key's versions *)

Lemma insert_by_seq_perm x l : insert_by_seq x l ≡ₚ x :: l.
Proof.
  induction l as [|y l IH]; simpl; [done|]. destruct (x.1 <=? y.1); [done|]. rewrite IH. apply Permutation_swap.
Qed.

Lemma sort_by_seq_perm l : sort_by_seq l ≡ₚ l.
Proof. induction l as [|x l IH]; simpl; [done|]. by rewrite insert_by_seq_perm, IH. Qed.

Lemma insert_by_seq_sorted x l : seqs_ascending l -> seqs_ascending (insert_by_seq x l).
Proof.
  unfold seqs_ascending. induction 1 as [|y l Hs IH Hall]; simpl; [repeat constructor|].
  destruct (Z.leb_spec x.1 y.1).
  - constructor; [by constructor|]. constructor; [done|]. eapply Forall_impl; [exact Hall|]. simpl. lia.
  - constructor; [done|]. rewrite insert_by_seq_perm. constructor; [lia|done].
Qed.

Lemma sort_by_seq_sorted l : seqs_ascending (sort_by_seq l).
Proof. induction l as [|x l IH]; simpl; [constructor|by apply insert_by_seq_sorted]. Qed.

(** ** Merging sources without errors *)

Definition srcs (ls : list (list item)) : list (list (res item)) := map (map Ok) ls.

Lemma first_error_srcs ls : first_error (srcs ls) = None.
Proof. induction ls as [|[|i l] ls IH]; simpl; done. Qed.

Lemma min_key_srcs ls acc :
  Forall sorted_items ls ->
  match min_key acc (srcs ls) with
  | None => acc = None /\ concat ls = []
  | Some k => (acc = Some k \/ exists s v, In (k, s, v) (concat ls)) /\
      (forall a, acc = Some a -> cmp k a <> Gt) /\ forall i, In i (concat ls) -> cmp k i.1.1 <> Gt
  end.
Proof.
  intros Hs. revert acc. induction Hs as [|l ls Hl Hs IH]; intros acc; simpl.
  { destruct acc as [a|]; [|done]. split_and!; [by left|by intros ? [= <-]; rewrite cmp_refl|done]. }
  destruct l as [|[[k0 s0] v0] l]; [apply IH|]. simpl.
  set (acc' := if match acc with Some mk => ltb k0 mk | None => true end then Some k0 else acc). specialize (IH acc').
  assert (forall a, acc' = Some a -> cmp a k0 <> Gt /\ (forall b, acc = Some b -> cmp a b <> Gt)) as Ha'.
  { intros a. unfold acc'. destruct acc as [b|].
    - destruct (ltb k0 b) eqn:El; intros [= <-].
      + split; [by rewrite cmp_refl|]. intros ? [= <-]. apply ltb_lt in El. by rewrite El.
      + split; [|intros ? [= <-]; by rewrite cmp_refl]. apply leb_le. by rewrite leb_negb_ltb, El.
    - intros [= <-]. split; [by rewrite cmp_refl|done]. }
  assert (acc' = Some k0 \/ acc' = acc) as Hacc' by (unfold acc'; destruct acc as [b|]; [destruct (ltb k0 b)|]; auto).
  assert (exists a, acc' = Some a) as [a Ea] by (unfold acc'; destruct acc as [b|]; [destruct (ltb k0 b)|]; eauto).
  destruct (min_key acc' (srcs ls)) as [k|]; [|naive_solver]. destruct IH as (H1 & H2 & H3).
  specialize (H2 a Ea). destruct (Ha' a Ea) as [Hk0 Hb].
  apply StronglySorted_inv in Hl as [_ Hall]. rewrite List.Forall_forall in Hall. split_and!.
  - destruct H1 as [H1|(s & v & H1)]; [|right; exists s, v; right; apply in_app_iff; by right].
    destruct Hacc' as [E|E]; [|left; congruence]. right. exists s0, v0. left. congruence.
  - intros b Eb. apply (cmp_le_trans _ a); [done|by apply Hb].
  - assert (cmp k k0 <> Gt) as Hkk0 by (by apply (cmp_le_trans _ a)).
    intros i [<-|[Hi|Hi]%in_app_iff]; [done| |by apply H3].
    apply (cmp_le_trans _ k0); [done|]. specialize (Hall i Hi). by apply cmp_key_le in Hall.
Qed.

Lemma take_key_srcs k l :
  sorted_items l -> (forall i, In i l -> cmp k i.1.1 <> Gt) ->
  exists vs l', take_key k (map Ok l) = (vs, map Ok l') /\ l = vers k vs ++ l' /\ sorted_items l' /\
    forall i, In i l' -> cmp k i.1.1 = Lt.
Proof.
  induction l as [|[[k0 s0] v0] l IH]; intros Hs Hge.
  { exists [], []. repeat split; constructor || done. }
  pose proof (StronglySorted_inv Hs) as [Hs' Hall]. simpl. destruct (eqb k0 k) eqn:Ek.
  - apply eqb_eq in Ek as ->. destruct IH as (vs & l' & -> & -> & Hl' & Hgt); [done|intros i Hi; apply Hge; by right|].
    exists ((s0, v0) :: vs), l'. done.
  - exists [], ((k0, s0, v0) :: l). split_and!; try done.
    assert (cmp k k0 = Lt) as Hlt.
    { pose proof (Hge (k0, s0, v0) (or_introl eq_refl)) as Hk. simpl in Hk. destruct (cmp k k0) eqn:E; [|done|done].
      apply cmp_eq in E as ->. unfold eqb in Ek. by rewrite cmp_refl in Ek. }
    intros i [<-|Hi]; [done|]. rewrite List.Forall_forall in Hall. specialize (Hall i Hi). apply cmp_key_le in Hall.
    by apply (cmp_lt_le_trans _ k0).
Qed.

Lemma collect_versions_srcs k ls :
  Forall sorted_items ls -> (forall i, In i (concat ls) -> cmp k i.1.1 <> Gt) ->
  exists vs ls', collect_versions k (srcs ls) = (vs, srcs ls') /\ Forall sorted_items ls' /\
    (forall i, In i (concat ls') -> cmp k i.1.1 = Lt) /\
    (forall i, In i (concat ls) <-> In i (vers k vs) \/ In i (concat ls')) /\
    length (concat ls) = (length vs + length (concat ls'))%nat.
Proof.
  induction 1 as [|l ls Hl Hs IH]; intros Hge; simpl in *.
  { exists [], []. split_and!; try done. intros i. naive_solver. }
  destruct (take_key_srcs k l Hl) as (vs & l' & -> & -> & Hl' & Hgt); [intros i Hi; apply Hge, in_app_iff; by left|].
  destruct IH as (vs' & ls' & -> & Hls' & Hgt' & Hin & Hlen); [intros i Hi; apply Hge, in_app_iff; by right|].
  exists (vs ++ vs'), (l' :: ls'). simpl. split_and!; [done|by constructor| | |].
  - intros i [Hi|Hi]%in_app_iff; auto.
  - intros i. unfold vers at 2. rewrite map_app, !in_app_iff, Hin. fold (vers k vs) (vers k vs'). tauto.
  - rewrite !length_app, Hlen. unfold vers. rewrite length_map. lia.
Qed.

(** Pending records come out first. *)
Lemma merge_drain_pending P fuel cs oldest st out st' :
  merge_drain fuel {| cursors := cs; pending := []; oldest_live_snapshot_seq := oldest; errored := false; stats := st |}
    = Some (out, st') ->
  merge_drain (length P + fuel)
    {| cursors := cs; pending := P; oldest_live_snapshot_seq := oldest; errored := false; stats := st |}
    = Some (map Ok P ++ out, st').
Proof.
  intros Hd. induction P as [|r P IH]; [done|]. cbn [length Nat.add merge_drain merge_next merge_loop errored pending cursors
    oldest_live_snapshot_seq stats mbind option_bind]. rewrite IH. done.
Qed.

(** What one run of the merge over [ls] produces. *)
Definition merged (ls : list (list item)) (oldest : option Z) (st : MergeStats) (out : list item) (st' : MergeStats) : Prop :=
  sorted_items out /\ (forall i, In i out -> In i (concat ls)) /\
  (forall key as_of, protected oldest (concat ls) key as_of -> newest out key as_of = newest (concat ls) key as_of) /\
  records_read st' = records_read st + zlen (concat ls) /\
  records_retained st' = records_retained st + zlen out /\
  tombstones_dropped st' + versions_dropped st' =
    tombstones_dropped st + versions_dropped st + (zlen (concat ls) - zlen out) /\
  zlen out <= zlen (concat ls).

Lemma sorted_items_app_intro (l k : list item) :
  sorted_items l -> sorted_items k -> (forall a b, In a l -> In b k -> cmp a.1 b.1 <> Gt) -> sorted_items (l ++ k).
Proof.
  unfold sorted_items. induction 1 as [|a l Hs IH Hall]; intros Hk Hlt; simpl; [done|]. constructor.
  - apply IH; [done|]. intros x y Hx Hy. apply Hlt; [by right|done].
  - apply Forall_app. split; [done|]. apply List.Forall_forall. intros b Hb. apply Hlt; [by left|done].
Qed.

Lemma vers_sorted k vs : seqs_ascending vs -> sorted_items (vers k vs).
Proof.
  unfold seqs_ascending, sorted_items, vers. induction 1 as [|p vs Hs IH Hall]; simpl; constructor; [done|].
  apply Forall_fmap. eapply Forall_impl; [exact Hall|]. intros q Hq. cbn. rewrite cmp_pair, cmp_refl. by apply cmp_Z_le.
Qed.

Lemma seqs_ascending_drop n vs : seqs_ascending vs -> seqs_ascending (drop n vs).
Proof.
  intros Hs. revert n. induction Hs as [|p vs Hs IH Hall]; intros [|n]; simpl; [constructor|constructor|by constructor|apply IH].
Qed.

Lemma newest_other_key (l l' : list item) k key as_of :
  (forall i, In i l -> i.1.1 = k) -> key <> k -> newest (l ++ l') key as_of = newest l' key as_of.
Proof.
  intros Hl Hne. rewrite newest_app. assert (newest l key as_of = None) as ->; [|done].
  apply newest_None. intros s v Hin. apply Hl in Hin. done.
Qed.

Lemma newest_same_key (l l' : list item) key as_of :
  (forall i, In i l' -> cmp key i.1.1 = Lt) -> newest (l ++ l') key as_of = newest l key as_of.
Proof.
  intros Hl. rewrite newest_app, (newest_none_lt l'); [apply better_None_r|]. auto.
Qed.

Lemma merge_step ls oldest st k :
  Forall sorted_items ls -> uniq (concat ls) -> min_key None (srcs ls) = Some k ->
  exists P ls' st1, P <> [] /\ (length P + length (concat ls') <= length (concat ls))%nat /\
    (length (concat ls') < length (concat ls))%nat /\ Forall sorted_items ls' /\ uniq (concat ls') /\
    merge_next 2 {| cursors := srcs ls; pending := []; oldest_live_snapshot_seq := oldest; errored := false; stats := st |} =
    merge_next 2 {| cursors := srcs ls'; pending := P; oldest_live_snapshot_seq := oldest; errored := false; stats := st1 |} /\
    (forall out st', merged ls' oldest st1 out st' -> merged ls oldest st (P ++ out) st').
Proof.
  intros Hs Hu Hk. pose proof (min_key_srcs ls None Hs) as Hmk. rewrite Hk in Hmk.
  destruct Hmk as ([|(s0 & v0 & Hex)] & _ & Hge); [done|].
  destruct (collect_versions_srcs k ls Hs Hge) as (vs & ls' & Ec & Hs' & Hgt & Hin & Hlen).
  set (sv := sort_by_seq vs). assert (sv ≡ₚ vs) as Hperm by apply sort_by_seq_perm.
  assert (length sv = length vs) as Hlsv by (by rewrite Hperm).
  assert (forall i, In i (vers k sv) <-> In i (vers k vs)) as Hinsv.
  { intros [[k' s] v]. rewrite !In_vers. rewrite <- !list_elem_of_In. by rewrite Hperm. }
  pose proof (sort_by_seq_sorted vs : seqs_ascending sv) as Hasc.
  pose proof (retain_versions_drop oldest sv (add_read (zlen vs) st)) as Hd.
  assert (vs <> []) as Hvs.
  { intros ->. apply Hin in Hex as [[]|Hex%Hgt]. simpl in Hex. by rewrite cmp_refl in Hex. }
  assert (sv <> []) as Hsv by (intros E; rewrite E in Hlsv; by destruct vs).
  destruct (retain_floor oldest sv Hsv) as (Hn & _). 
  set (n := (length sv - keep_count oldest (reverse sv) true)%nat) in *.
  assert (uniq (vers k sv)) as Husv.
  { apply (uniq_incl (concat ls)); [|done]. intros i Hi. apply Hin. left. by apply Hinsv. }
  pose proof (fun as_of => retain_reads k sv oldest (add_read (zlen vs) st) as_of Hasc Husv) as Hreads.
  destruct (retain_versions sv oldest (add_read (zlen vs) st)) as [ret st1] eqn:Er.
  destruct Hd as (Hret & Hrd & Hrr & Hdrop & _). simpl fst in Hreads.
  assert (length ret = (length sv - n)%nat) as Hlret by (by rewrite Hret, length_drop).
  assert (forall i, In i (vers k ret) -> In i (concat ls)) as Hretin.
  { intros [[k' s] v]. rewrite In_vers. intros [-> Hi]. apply Hin. left. apply Hinsv. apply In_vers. split; [done|].
    rewrite Hret in Hi. rewrite <- (take_drop n sv). apply in_app_iff. by right. }
  exists (vers k ret), ls', st1. split_and!; try done.
  - intros E. apply (f_equal length) in E. unfold vers in E. rewrite length_map in E. simpl in E. lia.
  - unfold vers. rewrite length_map. lia.
  - destruct vs; [done|simpl in Hlen; lia].
  - apply (uniq_incl (concat ls)); [|done]. intros i Hi. apply Hin. by right.
  - unfold merge_next at 1. cbn [errored merge_loop pending cursors oldest_live_snapshot_seq stats].
    rewrite first_error_srcs, Hk, Ec. fold sv. rewrite Er. fold (vers k ret).
    destruct ret as [|p ret]; [simpl in Hlret; lia|]. done.
  - intros out st' (Ho1 & Ho2 & Ho3 & Ho4 & Ho5 & Ho6 & Ho7). unfold merged.
    assert (zlen (vers k ret) = zlen ret) as Hzv by (unfold vers; by rewrite length_map).
    cbn [add_read records_read records_retained tombstones_dropped versions_dropped] in Hrd, Hrr, Hdrop.
    split_and!.
    + apply sorted_items_app_intro; [apply vers_sorted; rewrite Hret; by apply seqs_ascending_drop|done|].
      intros [[k1 s1] v1] b Ha Hb%Ho2. apply In_vers in Ha as [-> _]. apply Hgt in Hb.
      destruct b as [[k2 s2] v2]. cbn in *. by rewrite cmp_pair, Hb.
    + intros i [Hi|Hi]%in_app_iff; [by apply Hretin|]. apply Hin. right. by apply Ho2.
    + intros key as_of Hpr. destruct (decide (key = k)) as [->|Hne].
      * rewrite newest_same_key by (intros i Hi; by apply Hgt, Ho2).
        rewrite Hreads.
        -- apply newest_ext; [done| |done]. intros s v _. rewrite Hin, Hinsv. split; [by left|].
           intros [?|Hx%Hgt]; [done|]. simpl in Hx. by rewrite cmp_refl in Hx.
        -- unfold protected in *. destruct oldest; [done|]. intros s v Hx. apply (Hpr s v). apply Hin. left. by apply Hinsv.
      * rewrite (newest_other_key _ _ k) by (done || (intros [[k' s] v] [-> _]%In_vers; done)).
        rewrite Ho3; [apply newest_ext; [..|done]|].
        -- apply (uniq_incl (concat ls)); [|done]. intros i Hi. apply Hin. by right.
        -- intros s v _. rewrite Hin, In_vers. naive_solver.
        -- unfold protected in *. destruct oldest; [done|]. intros s v Hx. apply (Hpr s v). apply Hin. by right.
    + lia.
    + rewrite zlen_app, Hzv. subst ret. lia.
    + rewrite zlen_app, Hzv. lia.
    + rewrite zlen_app, Hzv. lia.
Qed.

Lemma merge_drain_spec N ls oldest st :
  (length (concat ls) <= N)%nat -> Forall sorted_items ls -> uniq (concat ls) ->
  exists out st', merged ls oldest st out st' /\
    forall fuel, (length (concat ls) < fuel)%nat ->
      merge_drain fuel {| cursors := srcs ls; pending := []; oldest_live_snapshot_seq := oldest; errored := false; stats := st |}
        = Some (map Ok out, st').
Proof.
  revert ls st. induction N as [N IH] using lt_wf_ind. intros ls st Hlen Hs Hu.
  pose proof (min_key_srcs ls None Hs) as Hmk. destruct (min_key None (srcs ls)) as [k|] eqn:Ek.
  - destruct (merge_step ls oldest st k Hs Hu Ek) as (P & ls' & st1 & HP & HlenP & Hlt & Hs' & Hu' & Enext & Hm).
    destruct (IH (length (concat ls'))) with (ls := ls') (st := st1) as (out & st' & Hout & Hdr); [lia|done..|].
    exists (P ++ out), st'. split; [by apply Hm|]. intros fuel Hf. destruct fuel as [|fuel]; [lia|].
    assert (S fuel = length P + (S fuel - length P))%nat as Hfp by lia.
    cbn [merge_drain]. rewrite Enext. change (merge_drain (S fuel)
      {| cursors := srcs ls'; pending := P; oldest_live_snapshot_seq := oldest; errored := false; stats := st1 |} =
      Some (map Ok (P ++ out), st')).
    rewrite Hfp, (merge_drain_pending P _ _ _ _ (map Ok out) st'); [by rewrite map_app|]. apply Hdr. lia.
  - destruct Hmk as [_ Hnil]. exists [], st. split.
    + unfold merged. rewrite Hnil. split_and!; try done; try (simpl; lia). constructor.
    + intros fuel Hf. destruct fuel as [|fuel]; [lia|]. cbn [merge_drain]. unfold merge_next.
      cbn [errored merge_loop pending cursors]. rewrite first_error_srcs, Ek. done.
Qed.

(** ** Sources that fail *)

Lemma take_key_spec k c :
  let '(vs, c') := take_key k c in c = map Ok (vers k vs) ++ c'.
Proof.
  induction c as [|[[[k0 s0] v0]|e] c IH]; simpl; [done| |done]. destruct (eqb k0 k) eqn:Ek; [|done].
  apply eqb_eq in Ek as ->. destruct (take_key k c) as [vs c']. simpl. by rewrite IH.
Qed.

Lemma collect_versions_spec k cs :
  let '(vs, cs') := collect_versions k cs in
  (forall e, In (Err e) (concat cs) <-> In (Err e) (concat cs')) /\
  length (concat cs) = (length vs + length (concat cs'))%nat.
Proof.
  induction cs as [|c cs IH]; simpl; [done|]. pose proof (take_key_spec k c) as Hc.
  destruct (take_key k c) as [vs c'], (collect_versions k cs) as [vs' cs']. destruct IH as [IH1 IH2]. subst c. split.
  - intros e. simpl. rewrite !in_app_iff, IH1, in_map_iff. naive_solver.
  - simpl. rewrite !length_app, !length_map, IH2. unfold vers. rewrite length_map. lia.
Qed.

Lemma collect_versions_head k cs acc :
  min_key acc cs = Some k -> acc <> Some k -> (collect_versions k cs).1 <> [].
Proof.
  revert acc. induction cs as [|c cs IH]; intros acc Hk Hacc; simpl in *; [done|].
  destruct c as [|[[[k0 s0] v0]|e] c].
  - specialize (IH acc Hk Hacc). simpl. by destruct (collect_versions k cs).
  - destruct (decide (k0 = k)) as [->|Hne].
    + simpl. rewrite (proj2 (eqb_eq k k) eq_refl). destruct (take_key k c), (collect_versions k cs). done.
    + simpl. destruct (eqb k0 k) eqn:Ek; [by apply eqb_eq in Ek|].
      assert ((collect_versions k cs).1 <> []) as Hc.
      { apply (IH _ Hk). destruct acc as [a|]; [destruct (ltb k0 a)|]; congruence. }
      by destruct (collect_versions k cs).
  - specialize (IH acc Hk Hacc). simpl. by destruct (collect_versions k cs).
Qed.

Lemma no_heads cs : first_error cs = None -> min_key None cs = None -> concat cs = [].
Proof.
  assert (forall cs a, min_key (Some a) cs <> None) as Hsome.
  { clear. induction cs as [|[|[[[k s] v]|e] c] cs IH]; intros a; simpl; try done; apply IH || (destruct (ltb k a); apply IH). }
  induction cs as [|[|[[[k s] v]|e] c] cs IH]; simpl; try done. intros _ Hk. by apply Hsome in Hk.
Qed.

Lemma retain_nonempty vs oldest st : vs <> [] -> (retain_versions vs oldest st).1 <> [].
Proof.
  intros Hvs. pose proof (retain_versions_drop oldest vs st) as Hd. destruct (retain_floor oldest vs Hvs) as [Hn _].
  destruct (retain_versions vs oldest st) as [r st']. destruct Hd as [-> _]. simpl. intros E.
  apply (f_equal length) in E. rewrite length_drop in E. simpl in E. lia.
Qed.

Lemma merge_drain_error N cs oldest st :
  (length (concat cs) <= N)%nat -> (exists e, In (Err e) (concat cs)) ->
  exists out e st', forall fuel, (S (length (concat cs)) < fuel)%nat ->
    merge_drain fuel {| cursors := cs; pending := []; oldest_live_snapshot_seq := oldest; errored := false; stats := st |}
      = Some (map Ok out ++ [Err e], st').
Proof.
  revert cs st. induction N as [N IH] using lt_wf_ind. intros cs st Hlen [e0 He0].
  destruct (first_error cs) as [e|] eqn:Ee.
  { exists [], e, st. intros fuel Hf. destruct fuel as [|[|fuel]]; [lia..|]. cbn [merge_drain]. unfold merge_next.
    cbn [errored merge_loop pending cursors mbind option_bind]. rewrite Ee. done. }
  destruct (min_key None cs) as [k|] eqn:Ek; [|by rewrite (no_heads cs Ee Ek) in He0].
  pose proof (collect_versions_spec k cs) as Hc. pose proof (collect_versions_head k cs None Ek ltac:(done)) as Hne.
  destruct (collect_versions k cs) as [vs cs'] eqn:Ec. destruct Hc as [Herr Hl]. simpl in Hne.
  assert (sort_by_seq vs <> []) as Hsv.
  { intros E. pose proof (sort_by_seq_perm vs) as Hp. rewrite E in Hp. by apply Permutation_nil_l in Hp. }
  pose proof (retain_nonempty (sort_by_seq vs) oldest (add_read (zlen vs) st) Hsv) as Hr.
  pose proof (retain_versions_drop oldest (sort_by_seq vs) (add_read (zlen vs) st)) as Hd.
  destruct (retain_versions (sort_by_seq vs) oldest (add_read (zlen vs) st)) as [ret st1] eqn:Er.
  destruct Hd as [Hret _]. simpl in Hr.
  assert (length ret <= length vs)%nat as Hlr.
  { pose proof (Permutation_length (sort_by_seq_perm vs)) as Hpl. rewrite Hret, length_drop, Hpl. lia. }
  destruct vs as [|x vs0] eqn:Evs; [done|]. rewrite <- Evs in *.
  destruct (IH (length (concat cs'))) with (cs := cs') (st := st1) as (out & e & st' & Hdr);
    [rewrite Evs in Hl; simpl in Hl; lia|done|exists e0; by apply Herr|].
  exists (vers k ret ++ out), e, st'. intros fuel Hf. destruct fuel as [|fuel]; [lia|].
  assert (length (vers k ret) = length ret) as Hlv by (unfold vers; by rewrite length_map).
  assert (S fuel = length (vers k ret) + (S fuel - length (vers k ret)))%nat as Hfp by lia.
  transitivity (merge_drain (S fuel)
    {| cursors := cs'; pending := vers k ret; oldest_live_snapshot_seq := oldest; errored := false; stats := st1 |}).
  - cbn [merge_drain]. unfold merge_next. cbn [errored]. cbn [merge_loop pending cursors oldest_live_snapshot_seq stats].
    rewrite Ee, Ek, Ec, Er. fold (vers k ret). destruct ret as [|p ret0]; [done|]. done.
  - rewrite Hfp, (merge_drain_pending _ _ _ _ _ (map Ok out ++ [Err e]) st').
    + by rewrite map_app, app_assoc.
    + apply Hdr. lia.
Qed.

Lemma write_items_err `{Crc32c, Xxh64} config w items e : In (Err e) items -> forall w', write_items config w items <> Some (Ok w').
Proof.
  revert w. induction items as [|i items IH]; intros w Hin w'; [done|]. destruct Hin as [->|Hin]; [done|].
  cbn [write_items]. destruct (write_item config w i) as [[w1|]|]; simpl; [by apply IH|done..].
Qed.

Lemma represents_sorted `{Crc32c, Xxh64} t recs : represents t recs -> sorted_items recs.
Proof. intros (chunks & [_ Hs _ _] & <-). done. Qed.

Lemma filter_unbounded (l : list item) : List.filter (in_bounds Unbounded Unbounded) l = l.
Proof. induction l as [|i l IH]; [done|]. cbn. f_equal. apply IH. Qed.

Lemma represents_scan_all `{Crc32c, Xxh64} t recs :
  represents t recs -> exists n, forall fuel, (n < fuel)%nat ->
    drain fuel (range_scan_cursor t Unbounded Unbounded) = Some (map Ok recs).
Proof.
  intros (chunks & Ht & <-). exists (length (concat chunks) + length chunks)%nat. intros fuel Hf.
  rewrite (drain_table t chunks) by done. by rewrite filter_unbounded.
Qed.

Lemma scan_tables `{Crc32c, Xxh64} tables recss :
  Forall2 represents tables recss ->
  exists N, Forall sorted_items recss /\ forall fuel, (N < fuel)%nat ->
    map (fun t => default [] (drain fuel (range_scan_cursor t Unbounded Unbounded))) tables = srcs recss.
Proof.
  induction 1 as [|t recs ts rs Ht Hts IH]; [exists 0%nat; split; [constructor|done]|].
  destruct IH as (N & Hs & HN). destruct (represents_scan_all t recs Ht) as [n Hn]. exists (n + N)%nat.
  split; [constructor; [by apply (represents_sorted t)|done]|]. intros fuel Hf. simpl.
  rewrite Hn by lia. rewrite HN by lia. done.
Qed.

(** ** Theorems *)

Section CompactionTheorems.
Context `{Crc32c, Xxh64}.

(** The retention rule, exactly.  Of one key's versions in ascending order it keeps a non-empty suffix: everything
    newer than the oldest live snapshot and the newest version that snapshot sees (with no snapshot, only the newest
    version); every read at or above that snapshot is unchanged, and the counters account for every version. *)
Theorem retain_versions_exact key vs oldest st as_of :
  seqs_ascending vs -> uniq (vers key vs) -> vs <> [] -> protected oldest (vers key vs) key as_of ->
  let '(retained, st') := retain_versions vs oldest st in
  newest (vers key retained) key as_of = newest (vers key vs) key as_of /\
  (exists n, (n < length vs)%nat /\ retained = drop n vs /\
     match oldest with
     | Some o => (n = 0%nat \/ exists p, vs !! n = Some p /\ p.1 <= o) /\
                 forall j p, (n < j)%nat -> vs !! j = Some p -> o < p.1
     | None => n = pred (length vs)
     end) /\
  records_retained st' + tombstones_dropped st' + versions_dropped st' =
    records_retained st + tombstones_dropped st + versions_dropped st + zlen vs.
Proof.
  intros Hs Hu Hne Hpr. pose proof (retain_reads key vs oldest st as_of Hs Hu Hpr) as Hr.
  pose proof (retain_versions_drop oldest vs st) as Hd. destruct (retain_floor oldest vs Hne) as (Hn & Hf & Hg).
  destruct (retain_versions vs oldest st) as [r st']. destruct Hd as (Hret & _ & Hrr & Hdr & _).
  split_and!; [done| |rewrite Hrr, length_drop in *; lia].
  eexists. split_and!; [exact Hn|exact Hret|]. by destruct oldest.
Qed.

(** C33: the merge.  Over any sorted inputs without errors, also overlapping and repeated ones, the merge terminates and
    its output is sorted, invents nothing, answers every protected snapshot read like the inputs together, and its
    statistics are exact. *)
Theorem merge_preserves_reads ls oldest :
  Forall sorted_items ls -> uniq (concat ls) ->
  exists out st, merge_drain (S (length (concat ls))) (merge (srcs ls) oldest) = Some (map Ok out, st) /\
    sorted_items out /\ (forall i, In i out -> In i (concat ls)) /\
    (forall key as_of, protected oldest (concat ls) key as_of ->
       newest out key as_of = newest (concat ls) key as_of) /\
    records_read st = zlen (concat ls) /\ records_retained st = zlen out /\
    records_read st - records_retained st = tombstones_dropped st + versions_dropped st.
Proof.
  intros Hs Hu. destruct (merge_drain_spec (length (concat ls)) ls oldest stats_default) as (out & st & Hm & Hd);
    [done..|]. exists out, st. split; [apply Hd; lia|]. destruct Hm as (H1 & H2 & H3 & H4 & H5 & H6 & H7).
  simpl in H4, H5, H6. split_and!; try done; lia.
Qed.

(** C34: the merge fails closed.  If any input holds a read error, the merge terminates with an error as its last item,
    and a table is never published from its output. *)
Theorem merge_fails_closed cs oldest :
  (exists e, In (Err e) (concat cs)) ->
  exists out e st, merge_drain (S (S (length (concat cs)))) (merge cs oldest) = Some (map Ok out ++ [Err e], st) /\
    forall id config hint r, write_from_sorted_records (map Ok out ++ [Err e]) id config hint <> Some (Ok r).
Proof.
  intros He. destruct (merge_drain_error (length (concat cs)) cs oldest stats_default) as (out & e & st & Hd); [done..|].
  exists out, e, st. split; [apply Hd; lia|]. intros id config hint r. unfold write_from_sorted_records.
  pose proof (write_items_err config (writer_new config hint) (map Ok out ++ [Err e]) e
    ltac:(apply in_app_iff; right; by left)) as Hw.
  destruct (write_items _ _ _) as [[w|]|]; simpl; [by specialize (Hw w)|done..].
Qed.

(** C4: a whole compaction.  Scanning tables that represent their records, merging the scans and writing the result
    gives a table that opens and that answers every protected snapshot read like all the inputs together. *)
Theorem compact_tables tables recss oldest id config hint :
  Forall2 represents tables recss -> uniq (concat recss) ->
  Forall item_valid (concat recss) -> writable config hint [] ->
  zlen (concat recss) <= Bloom.Bloom.max_record_count_for_bloom_cap Fmt.DEFAULT_BLOOM_BITS_PER_KEY ->
  exists N, forall fuel, (N < fuel)%nat ->
    exists out st file meta t,
      merge_drain (S (length (concat recss)))
        (merge (map (fun t => default [] (drain fuel (range_scan_cursor t Unbounded Unbounded))) tables) oldest) =
        Some (out, st) /\
      write_from_sorted_records out id config hint = Some (Ok (file, meta)) /\ open file id = Ok t /\
      (forall key as_of, protected oldest (concat recss) key as_of ->
         get_versioned t key as_of = Some (Ok (newest (concat recss) key as_of))).
Proof.
  intros Ht Hu Hv Hcfg Hcount. destruct (scan_tables tables recss Ht) as (N & Hs & HN). exists N. intros fuel Hf.
  rewrite HN by done.
  destruct (merge_drain_spec (length (concat recss)) recss oldest stats_default) as (out & st & Hm & Hd); [done..|].
  destruct Hm as (H1 & H2 & H3 & H4 & H5 & H6 & H7).
  assert (writable config hint out) as Hw.
  { destruct Hcfg as [_ _ _ C1 C2 C3]. split; try done.
    - apply List.Forall_forall. intros i Hi. rewrite List.Forall_forall in Hv. by apply Hv, H2.
    - lia. }
  destruct (write_open out id config hint Hw) as (file & meta & t & E & Eo & Hr & _).
  exists (map Ok out), st, file, meta, t. split_and!; [apply Hd; lia|done|done|].
  intros key as_of Hpr. rewrite (represents_get t out) by done. by rewrite H3.
Qed.
End CompactionTheorems.

(** ** Witnesses *)

Definition demo_versions : list (Z * RecordValue) := [(1, RPut [x31]); (4, RTombstone); (7, RPut [x32]); (9, RPut [x33])].

Ltac solve_uniq := intros k s v v' H1 H2; repeat (destruct H1 as [H1|H1]; [simplify_eq; repeat (destruct H2 as [H2|H2];
  [by simplify_eq|]); by destruct H2|]); by destruct H1.

Lemma retain_versions_exact_witness :
  let '(retained, st') := retain_versions demo_versions (Some 5) stats_default in
  retained = [(4, RTombstone); (7, RPut [x32]); (9, RPut [x33])] /\
  newest (vers [x61] retained) [x61] 8 = newest (vers [x61] demo_versions) [x61] 8.
Proof.
  pose proof (retain_versions_exact [x61] demo_versions (Some 5) stats_default 8) as Ht.
  destruct (retain_versions demo_versions (Some 5) stats_default) as [r st'] eqn:E.
  split; [by vm_compute in E; injection E as <- _|].
  apply Ht; [repeat constructor; simpl; lia|solve_uniq|discriminate|simpl; lia].
Defined.

Definition demo_sources : list (list item) :=
  [[([x61], 1, RPut [x31]); ([x62], 2, RPut [x32])]; [([x61], 5, RTombstone)]; [([x61], 5, RTombstone); ([x63], 6, RPut [])]].

Lemma demo_sources_sorted : Forall sorted_items demo_sources.
Proof. repeat (constructor; [apply bt_sorted_items; repeat constructor|]). constructor. Qed.

Lemma demo_sources_uniq : uniq (concat demo_sources).
Proof. solve_uniq. Qed.

Lemma merge_preserves_reads_witness :
  exists out st, merge_drain (S (length (concat demo_sources))) (merge (srcs demo_sources) None) = Some (map Ok out, st) /\
    records_read st = zlen (concat demo_sources).
Proof.
  destruct (merge_preserves_reads demo_sources None) as (out & st & Hd & _ & _ & _ & Hr & _);
    [exact demo_sources_sorted|exact demo_sources_uniq|]. exists out, st. split; assumption.
Defined.

Lemma merge_fails_closed_witness :
  let cs := srcs demo_sources ++ [[Ok ([x61], 9, RPut []); Err (Corruption "block: checksum mismatch")]] in
  exists out e st, merge_drain (S (S (length (concat cs)))) (merge cs None) = Some (map Ok out ++ [Err e], st) /\
    forall id config hint r, write_from_sorted_records (map Ok out ++ [Err e]) id config hint <> Some (Ok r).
Proof.
  intros cs. apply (merge_fails_closed cs None). exists (Corruption "block: checksum mismatch").
  vm_compute. tauto.
Defined.

Lemma compact_tables_witness :
  exists tables N, forall fuel, (N < fuel)%nat ->
    exists out st file meta t,
      merge_drain (S (length (concat [demo_items])))
        (merge (map (fun t => default [] (drain fuel (range_scan_cursor t Unbounded Unbounded))) tables) None) =
        Some (out, st) /\
      write_from_sorted_records out 9 small_blocks 4 = Some (Ok (file, meta)) /\ open file 9 = Ok t /\
      (forall key as_of, protected None (concat [demo_items]) key as_of ->
         get_versioned t key as_of = Some (Ok (newest (concat [demo_items]) key as_of))).
Proof.
  destruct (write_open demo_items 7 small_blocks 4 demo_writable) as (file & meta & t & _ & _ & Hr & _).
  exists [t]. apply (compact_tables [t] [demo_items] None 9 small_blocks 4).
  - constructor; [exact Hr|constructor].
  - simpl. solve_uniq.
  - simpl. apply demo_writable.
  - destruct demo_writable as [_ _ _ H1 H2 H3]. split; [constructor|constructor|by_eval|exact H1|exact H2|exact H3].
  - by_eval.
Defined.

End Compact.
