(* ===== verification/LsmTrack.v ===== *)
(** * Engine bookkeeping ([src/src/lsm/mod.rs])

    The three small shared objects beside the engine's data: [ApplyTracker] (which WAL sequence numbers are applied, so
    how far a checkpoint may go), [SnapshotRegistry] (which sequence numbers live snapshots hold, so what compaction
    must keep) and the compaction worker's health counters.  Each is behind one mutex or is a set of atomics written by
    one thread, so an operation is one atomic step and a history is a list of operations.  [AtomicU64::fetch_add] wraps,
    and so does [u64] addition in a release build. *)

From stdpp Require Import base list option strings.
From Stdlib Require Import ZArith Lia.
From S2P Require Import Prelude BTree EngineError.

Module Track.

(** ** [ApplyTracker] *)

(** [above] is a [BTreeSet<u64>], the ordered map to unit. *)
Record TrackerInner : Type := Tracker { contiguous : Z; above_set : list (Z * unit) }.

Definition tracker_new (c : Z) : TrackerInner := Tracker c [].

(** The [loop] of [account]; every turn removes one element of [above], so its length plus one is enough fuel. *)
Fixpoint advance (fuel : nat) (g : TrackerInner) : TrackerInner :=
  match fuel with
  | O => g
  | S fuel =>
      let next := wrapping_add64 (contiguous g) 1 in
      match bt_get next (above_set g) with
      | Some _ => advance fuel (Tracker next (bt_remove next (above_set g)))
      | None => g
      end
  end.

Definition account (g : TrackerInner) (seq : Z) : TrackerInner :=
  if seq <=? contiguous g then g
  else
    let g := Tracker (contiguous g) (bt_insert seq tt (above_set g)) in
    advance (S (length (above_set g))) g.

(** ** [SnapshotRegistry] *)

Abbreviation SnapshotRegistry := (list (Z * Z)).

Definition acquire (counts : SnapshotRegistry) (seq : Z) : SnapshotRegistry :=
  let counts := bt_or_insert seq 0 counts in
  match bt_get seq counts with
  | Some n => bt_insert seq (n + 1) counts
  | None => counts
  end.

Definition release (counts : SnapshotRegistry) (seq : Z) : SnapshotRegistry :=
  match bt_get seq counts with
  | Some count =>
      let counts := bt_insert seq (count - 1) counts in
      if count - 1 =? 0 then bt_remove seq counts else counts
  | None => counts
  end.

Definition oldest (counts : SnapshotRegistry) : option Z :=
  match counts with
  | (seq, _) :: _ => Some seq
  | [] => None
  end.

(** What happens to snapshot handles: [LsmEngine::snapshot] acquires, [Drop for Snapshot] releases. *)
Inductive handle_event : Type :=
| HTake (seq : Z)
| HDrop (seq : Z).

Definition registry_step (counts : SnapshotRegistry) (e : handle_event) : SnapshotRegistry :=
  match e with HTake s => acquire counts s | HDrop s => release counts s end.

(** ** The compaction worker's health *)

Inductive CompactionFailureKind : Type :=
| FCorruption
| FUnsupported
| FPanic
| FIo
| FOther.

Definition classify (e : EngineError) : CompactionFailureKind :=
  match e with
  | Corruption _ => FCorruption
  | Unsupported _ => FUnsupported
  | Io _ => FIo
  | _ => FOther
  end.

Definition is_permanent (k : CompactionFailureKind) : bool :=
  match k with
  | FCorruption | FUnsupported | FPanic => true
  | _ => false
  end.

Inductive CompactionHealth : Type :=
| CHealthy
| CFailing
| CBlocked.

Definition health_to_u8 (h : CompactionHealth) : Z :=
  match h with CHealthy => 0 | CFailing => 1 | CBlocked => 2 end.

Definition health_from_u8 (v : Z) : CompactionHealth :=
  if v =? 0 then CHealthy else if v =? 1 then CFailing else CBlocked.

Record CompactionFailure : Type := Failure {
  at_unix_ms : Z;
  fkind : CompactionFailureKind;
  message : string
}.

(** [duration] is in nanoseconds, a [u128] in the source. *)
Record CompactionStats : Type := Stats {
  input_sstable_count : Z;
  output_sstable_count : Z;
  input_bytes : Z;
  output_bytes : Z;
  records_read : Z;
  records_retained : Z;
  records_dropped : Z;
  tombstones_dropped : Z;
  versions_dropped : Z;
  duration : Z;
  peak_temp_disk_bytes : Z
}.

Record CompactionMetricCounters : Type := Counters {
  failures_total : Z;
  consecutive_failures : Z;
  permanent_streak : Z;
  health : Z;
  last_failure : option CompactionFailure;
  cycles_completed : Z;
  input_sstables_total : Z;
  input_bytes_total : Z;
  output_bytes_total : Z;
  records_read_total : Z;
  records_retained_total : Z;
  records_dropped_total : Z;
  tombstones_dropped_total : Z;
  versions_dropped_total : Z;
  duration_total_nanos : Z;
  duration_max_nanos : Z;
  peak_temp_disk_bytes_max : Z;
  last_cycle : option CompactionStats
}.

Definition counters_default : CompactionMetricCounters :=
  Counters 0 0 0 0 None 0 0 0 0 0 0 0 0 0 0 0 0 None.

Inductive FailureOutcome : Type :=
| Retry (permanent_attempt : option Z)
| OBlocked.

Definition compare_exchange (cur expected new : Z) : Z := if cur =? expected then new else cur.

(** [now] is the wall clock in milliseconds at the call. *)
Definition record_compaction_failure (c : CompactionMetricCounters) (now : Z) (k : CompactionFailureKind) (msg : string)
    (budget : Z) : CompactionMetricCounters * FailureOutcome :=
  let upd streak h :=
    Counters (wrapping_add64 (failures_total c) 1) (wrapping_add64 (consecutive_failures c) 1) streak h
      (Some (Failure now k msg)) (cycles_completed c) (input_sstables_total c) (input_bytes_total c)
      (output_bytes_total c) (records_read_total c) (records_retained_total c) (records_dropped_total c)
      (tombstones_dropped_total c) (versions_dropped_total c) (duration_total_nanos c) (duration_max_nanos c)
      (peak_temp_disk_bytes_max c) (last_cycle c) in
  if is_permanent k then
    let streak := permanent_streak c + 1 in
    if Z.max budget 1 <=? streak then
      (upd (wrapping_add64 (permanent_streak c) 1) (health_to_u8 CBlocked), OBlocked)
    else
      (upd (wrapping_add64 (permanent_streak c) 1)
         (compare_exchange (health c) (health_to_u8 CHealthy) (health_to_u8 CFailing)), Retry (Some streak))
  else
    (upd 0 (compare_exchange (health c) (health_to_u8 CHealthy) (health_to_u8 CFailing)), Retry None).

Definition record_compaction_cycle (c : CompactionMetricCounters) (stats : CompactionStats) : CompactionMetricCounters :=
  let dur_nanos := Z.min (duration stats) u64_max in
  {| failures_total := failures_total c;
     consecutive_failures := 0;
     permanent_streak := 0;
     health := compare_exchange (health c) (health_to_u8 CFailing) (health_to_u8 CHealthy);
     last_failure := last_failure c;
     cycles_completed := wrapping_add64 (cycles_completed c) 1;
     input_sstables_total := wrapping_add64 (input_sstables_total c) (input_sstable_count stats);
     input_bytes_total := wrapping_add64 (input_bytes_total c) (input_bytes stats);
     output_bytes_total := wrapping_add64 (output_bytes_total c) (output_bytes stats);
     records_read_total := wrapping_add64 (records_read_total c) (records_read stats);
     records_retained_total := wrapping_add64 (records_retained_total c) (records_retained stats);
     records_dropped_total := wrapping_add64 (records_dropped_total c) (records_dropped stats);
     tombstones_dropped_total := wrapping_add64 (tombstones_dropped_total c) (tombstones_dropped stats);
     versions_dropped_total := wrapping_add64 (versions_dropped_total c) (versions_dropped stats);
     duration_total_nanos := wrapping_add64 (duration_total_nanos c) dur_nanos;
     duration_max_nanos := Z.max (duration_max_nanos c) dur_nanos;
     peak_temp_disk_bytes_max := Z.max (peak_temp_disk_bytes_max c) (peak_temp_disk_bytes stats);
     last_cycle := Some stats |}.

(** What the engine records, in order. *)
Inductive cycle_event : Type :=
| EFail (now : Z) (k : CompactionFailureKind) (msg : string)
| ECycle (stats : CompactionStats).

Definition health_step (budget : Z) (c : CompactionMetricCounters) (e : cycle_event) : CompactionMetricCounters :=
  match e with
  | EFail now k msg => (record_compaction_failure c now k msg budget).1
  | ECycle stats => record_compaction_cycle c stats
  end.

(** ** The tracker: theorems *)

(** [contiguous] is where it was last advanced to, and everything accounted beyond it is parked in [above]. *)
Record tracks (c0 : Z) (seqs : list Z) (g : TrackerInner) : Prop := {
  tr_sorted : bt_sorted (above_set g);
  tr_start : c0 <= contiguous g;
  tr_u64 : 0 <= contiguous g < u64_max;
  tr_done : forall x, c0 < x <= contiguous g -> In x seqs;
  tr_above : forall x, contiguous g < x -> (bt_get x (above_set g) = Some tt <-> In x seqs);
  tr_below : forall x, bt_get x (above_set g) = Some tt -> contiguous g < x
}.

Lemma bt_remove_length {V} k (m : list (Z * V)) v : bt_get k m = Some v -> length m = S (length (bt_remove k m)).
Proof.
  induction m as [|[k1 v1] m IH]; simpl; [done|]. destruct (cmp k k1); simpl; [done|..]; intros H; by rewrite IH.
Qed.

Lemma wrapping_succ z : 0 <= z < u64_max -> wrapping_add64 z 1 = z + 1.
Proof. intros. unfold wrapping_add64. apply Z.mod_small. unfold_ints. lia. Qed.

Lemma advance_tracks c0 seqs fuel g :
  Forall (fun x => x < u64_max) seqs -> tracks c0 seqs g -> (length (above_set g) < fuel)%nat ->
  let g' := advance fuel g in tracks c0 seqs g' /\ bt_get (contiguous g' + 1) (above_set g') = None.
Proof.
  intros Hu. revert g. induction fuel as [|fuel IH]; intros g Hg Hf; [lia|]. simpl.
  rewrite (wrapping_succ _ (tr_u64 _ _ _ Hg)). destruct (bt_get (contiguous g + 1) (above_set g)) as [[]|] eqn:E; [|done].
  apply IH; [|simpl; pose proof (bt_remove_length _ _ _ E); lia].
  destruct Hg as [Hs H0 Hr Hd Ha Hb]. split; simpl; [by apply bt_remove_sorted|lia|..].
  - assert (In (contiguous g + 1) seqs) as Hin by (apply Ha; [lia|done]).
    rewrite List.Forall_forall in Hu. specialize (Hu _ Hin). lia.
  - intros x Hx. destruct (Z.eq_dec x (contiguous g + 1)) as [->|]; [|apply Hd; lia]. apply Ha; [lia|done].
  - intros x Hx. rewrite bt_get_remove by done. destruct (eqb x (contiguous g + 1)) eqn:Ex.
    + apply eqb_eq in Ex. lia.
    + apply Ha. lia.
  - intros x. rewrite bt_get_remove by done. destruct (eqb x (contiguous g + 1)) eqn:Ex; [done|].
    intros Hx%Hb. destruct (Z.eq_dec x (contiguous g + 1)) as [->|]; [|lia].
    by rewrite (proj2 (eqb_eq (contiguous g + 1) _) eq_refl) in Ex.
Qed.

Lemma account_tracks c0 seqs g seq :
  Forall (fun x => x < u64_max) (seqs ++ [seq]) -> tracks c0 seqs g -> bt_get (contiguous g + 1) (above_set g) = None ->
  tracks c0 (seqs ++ [seq]) (account g seq) /\
  bt_get (contiguous (account g seq) + 1) (above_set (account g seq)) = None.
Proof.
  intros Hu [Hs H0 Hr Hd Ha Hb] Hn. unfold account. destruct (Z.leb_spec seq (contiguous g)).
  - split; [|done]. split; [done|done|done|..]; intros x Hx; try rewrite in_app_iff; simpl.
    + left. by apply Hd.
    + rewrite Ha by done. naive_solver lia.
    + by apply Hb.
  - apply advance_tracks; [done| |simpl; lia]. split; simpl; [by apply bt_insert_sorted|done|done|..].
    + intros x Hx. apply in_app_iff. left. by apply Hd.
    + intros x Hx. rewrite bt_get_insert, in_app_iff. simpl. destruct (eqb x seq) eqn:E.
      * apply eqb_eq in E as ->. naive_solver.
      * rewrite Ha by done. split; [by left|]. intros [|[->|[]]]; [done|].
        by rewrite (proj2 (eqb_eq x x) eq_refl) in E.
    + intros x. rewrite bt_get_insert. destruct (eqb x seq) eqn:E; [apply eqb_eq in E; lia|apply Hb].
Qed.

(** C16: however applications are ordered and repeated, the watermark reaches [s] exactly when every sequence number
    above the initial one up to [s] has been accounted: a checkpoint taken at [contiguous] never skips a write that is
    not applied yet, and never lags behind one that is. *)
Theorem tracker_exact c0 seqs s :
  0 <= c0 < u64_max -> Forall (fun x => x < u64_max) seqs -> c0 <= s ->
  s <= contiguous (fold_left account seqs (tracker_new c0)) <-> (forall x, c0 < x <= s -> In x seqs).
Proof.
  intros Hc0 Hu Hs. assert (tracks c0 seqs (fold_left account seqs (tracker_new c0)) /\
    bt_get (contiguous (fold_left account seqs (tracker_new c0)) + 1)
      (above_set (fold_left account seqs (tracker_new c0))) = None) as [[_ H0 _ Hd Ha _] Hn].
  { induction seqs as [|x seqs IH] using rev_ind.
    - split; [|done]. split; simpl; [constructor|lia|lia|lia|done|done].
    - rewrite fold_left_app. simpl. apply Forall_app in Hu as Hu'. destruct (IH (proj1 Hu')). by apply account_tracks. }
  set (g := fold_left account seqs (tracker_new c0)) in *. split.
  - intros Hle x Hx. apply Hd. lia.
  - intros Hall. destruct (Z.le_gt_cases s (contiguous g)) as [|Hgt]; [done|exfalso].
    assert (In (contiguous g + 1) seqs) as Hin by (apply Hall; lia). apply Ha in Hin; [congruence|lia].
Qed.

Lemma tracker_exact_witness :
  7 <= contiguous (fold_left account [7; 6; 9; 6] (tracker_new 5)) <-> (forall x, 5 < x <= 7 -> In x [7; 6; 9; 6]).
Proof. apply (tracker_exact 5 [7; 6; 9; 6] 7); [by_eval|repeat constructor|discriminate]. Defined.

(** ** The registry: theorems *)

(** The handles alive after a history, with multiplicity. *)
Fixpoint drop_one (s : Z) (l : list Z) : list Z :=
  match l with
  | [] => []
  | x :: l => if s =? x then l else x :: drop_one s l
  end.

Definition live_step (l : list Z) (e : handle_event) : list Z :=
  match e with HTake s => s :: l | HDrop s => drop_one s l end.

Definition count (l : list Z) (s : Z) : Z := zlen (List.filter (Z.eqb s) l).

Lemma count_drop_one s l x : count (drop_one s l) x = if (x =? s) && (0 <? count l s) then count l x - 1 else count l x.
Proof.
  unfold count. induction l as [|y l IH]; simpl; [by rewrite andb_false_r|].
  destruct (Z.eqb_spec s y) as [E|Hn]; simpl.
  - rewrite E. destruct (x =? y); cbn [length]; [|done]. cmp_lia. simpl. lia.
  - destruct (Z.eqb_spec x y) as [E|]; [subst y|done]. cbn [length]. cmp_lia.
    rewrite (proj2 (Z.eqb_neq x s)) in IH by congruence. simpl in *. lia.
Qed.

Lemma count_pos l s : 0 < count l s <-> In s l.
Proof.
  unfold count. induction l as [|y l IH]; simpl; [lia|]. destruct (Z.eqb_spec s y); simpl; naive_solver lia.
Qed.

Definition registers (l : list Z) (c : SnapshotRegistry) : Prop :=
  bt_sorted c /\ forall s, bt_get s c = if 0 <? count l s then Some (count l s) else None.

Lemma registry_step_registers l c e : registers l c -> registers (live_step l e) (registry_step c e).
Proof.
  intros [Hs Hc]. assert (forall x, 0 <= count l x) as Hpos by (intros; unfold count; lia). destruct e as [s|s]; simpl.
  - unfold acquire, bt_or_insert. pose proof (Hc s) as Hcs. unfold registers.
    assert (forall x, count (s :: l) x = if x =? s then count l x + 1 else count l x) as Hcnt.
    { intros x. unfold count. simpl. destruct (x =? s); simpl length; lia. }
    specialize (Hpos s). destruct (Z.ltb_spec 0 (count l s)).
    + rewrite Hcs, Hcs. split; [by apply bt_insert_sorted|]. intros x. rewrite bt_get_insert, Hcnt.
      destruct (eqb x s) eqn:E; [apply eqb_eq in E as ->; rewrite Z.eqb_refl; by cmp_lia|].
      destruct (Z.eqb_spec x s) as [->|]; [by rewrite (proj2 (eqb_eq s s) eq_refl) in E|]. apply Hc.
    + rewrite Hcs, bt_get_insert, (proj2 (eqb_eq s s) eq_refl). split; [by do 2 apply bt_insert_sorted|].
      intros x. rewrite !bt_get_insert, Hcnt. destruct (eqb x s) eqn:E.
      * apply eqb_eq in E as ->. rewrite Z.eqb_refl. cmp_lia. f_equal. lia.
      * destruct (Z.eqb_spec x s) as [->|]; [by rewrite (proj2 (eqb_eq s s) eq_refl) in E|]. apply Hc.
  - unfold release. pose proof (Hc s) as Hcs. unfold registers. rewrite Hcs.
    specialize (Hpos s). destruct (Z.ltb_spec 0 (count l s)) as [Hp|Hp].
    + assert (forall x, eqb x s = (x =? s)) as He.
      { intros x. destruct (Z.eqb_spec x s) as [->|]; [by apply eqb_eq|]. destruct (eqb x s) eqn:E; [|done].
        by apply eqb_eq in E. }
      destruct (Z.eqb_spec (count l s - 1) 0); (split; [try apply bt_remove_sorted; by apply bt_insert_sorted|]);
        intros x; rewrite !count_drop_one, ?bt_get_remove, ?bt_get_insert, !He by (by apply bt_insert_sorted);
        (destruct (Z.eqb_spec x s) as [->|]; simpl; [by cmp_lia|apply Hc]).
    + split; [done|]. intros x. rewrite !count_drop_one. cmp_lia. rewrite andb_false_r. apply Hc.
Qed.

(** After any history of taken and dropped snapshots, [oldest] is the least sequence number a live handle holds,
    and [None] exactly when no handle is alive, whatever number of handles share a sequence number. *)
Theorem oldest_exact (h : list handle_event) :
  let live := fold_left live_step h [] in
  match oldest (fold_left registry_step h []) with
  | Some s => In s live /\ forall x, In x live -> s <= x
  | None => live = []
  end.
Proof.
  intros live. assert (registers live (fold_left registry_step h [])) as [Hs Hc].
  { unfold live. induction h as [|e h IH] using rev_ind; [split; [constructor|done]|].
    rewrite !fold_left_app. by apply registry_step_registers. }
  destruct (fold_left registry_step h []) as [|[s n] c]; simpl in *.
  - destruct live as [|x live]; [done|]. specialize (Hc x).
    pose proof (proj2 (count_pos (x :: live) x) (or_introl eq_refl)). destruct (Z.ltb_spec 0 (count (x :: live) x)); [done|lia].
  - assert (forall x, In x live -> exists v, bt_get x ((s, n) :: c) = Some v) as Hl.
    { intros x Hx%count_pos. simpl. rewrite Hc. destruct (Z.ltb_spec 0 (count live x)); [eauto|lia]. }
    split.
    + apply count_pos. specialize (Hc s). rewrite cmp_refl in Hc. destruct (Z.ltb_spec 0 (count live s)); [done|done].
    + intros x [v Hv%bt_get_Some_In]%Hl. inversion_clear Hs as [|? ? _ Hall]. destruct Hv as [[= -> _]|Hin]; [lia|].
      rewrite List.Forall_forall in Hall. specialize (Hall _ Hin). unfold lt_key in Hall. simpl in Hall.
      rewrite cmp_Z_lt in Hall. lia.
Qed.

(** ** The worker's health: theorems *)

Definition permanent_event (e : cycle_event) : bool :=
  match e with EFail _ k _ => is_permanent k | ECycle _ => false end.

Definition failed_event (e : cycle_event) : bool :=
  match e with EFail _ _ _ => true | ECycle _ => false end.

(** The length of the longest suffix of a history whose events all satisfy [f]. *)
Definition trailing (f : cycle_event -> bool) (h : list cycle_event) : Z :=
  fold_left (fun n e => if f e then n + 1 else 0) h 0.

(** At some point [budget.max(1)] permanent failures came in a row. *)
Definition exhausted (budget : Z) (h : list cycle_event) : Prop :=
  exists pre post, h = pre ++ post /\ Z.max budget 1 <= trailing permanent_event pre.

Lemma trailing_snoc f h e : trailing f (h ++ [e]) = if f e then trailing f h + 1 else 0.
Proof. unfold trailing. by rewrite fold_left_app. Qed.

Lemma trailing_bound f h : 0 <= trailing f h <= zlen h.
Proof.
  induction h as [|e h IH] using rev_ind; [done|]. rewrite trailing_snoc, zlen_app. cbn [length].
  destruct (f e); lia.
Qed.

Lemma exhausted_snoc budget h e :
  exhausted budget (h ++ [e]) <-> exhausted budget h \/ Z.max budget 1 <= trailing permanent_event (h ++ [e]).
Proof.
  split.
  - intros (pre & post & E & Hle). destruct post as [|e' post' _] using rev_ind.
    + right. by rewrite E, app_nil_r.
    + left. rewrite app_assoc in E. apply app_inj_tail in E as [-> _]. by exists pre, post'.
  - intros [(pre & post & -> & Hle)|Hle].
    + exists pre, (post ++ [e]). by rewrite app_assoc.
    + exists (h ++ [e]), []. by rewrite app_nil_r.
Qed.

Record healthy_run (budget : Z) (h : list cycle_event) (c : CompactionMetricCounters) : Prop := {
  hr_streak : permanent_streak c = trailing permanent_event h;
  hr_consecutive : consecutive_failures c = trailing failed_event h;
  hr_blocked : health c = 2 <-> exhausted budget h;
  hr_failing : health c = 1 <-> ~ exhausted budget h /\ 0 < trailing failed_event h;
  hr_codes : health c = 0 \/ health c = 1 \/ health c = 2
}.

Lemma healthy_run_step budget h c e :
  zlen h < u64_max -> healthy_run budget h c -> healthy_run budget (h ++ [e]) (health_step budget c e).
Proof.
  intros Hlen [Hs Hc Hb Hf Hk].
  assert (forall f, wrapping_add64 (trailing f h) 1 = trailing f h + 1) as Hw.
  { intros f. apply wrapping_succ. pose proof (trailing_bound f h). lia. }
  pose proof (trailing_bound failed_event h). pose proof (exhausted_snoc budget h e) as He.
  pose proof (trailing_snoc permanent_event h e) as Hp. pose proof (trailing_snoc failed_event h e) as Hq.
  assert (permanent_event e = true -> failed_event e = true) by (by destruct e).
  destruct e as [now k msg|st]; simpl health_step; simpl failed_event in *; simpl permanent_event in *.
  - unfold record_compaction_failure. destruct (is_permanent k); [destruct (Z.leb_spec (Z.max budget 1) (permanent_streak c + 1))|];
      split; simpl; unfold compare_exchange; rewrite ?Hs, ?Hc, ?Hw in *; try lia;
      try (destruct (Z.eqb_spec (health c) 0)); naive_solver lia.
  - split; simpl; unfold compare_exchange; try lia; destruct (Z.eqb_spec (health c) 1); naive_solver lia.
Qed.

(** The worker's health is the documented state machine: it is [Blocked] exactly once [budget.max(1)] permanent
    failures came in a row with neither a success nor a transient failure between them, and stays so; otherwise it is
    [Failing] exactly while the last recorded event is a failure, and [Healthy] otherwise. *)
Theorem health_exact (budget : Z) (h : list cycle_event) :
  zlen h <= u64_max ->
  let c := fold_left (health_step budget) h counters_default in
  match health_from_u8 (health c) with
  | CBlocked => exhausted budget h
  | CFailing => ~ exhausted budget h /\ exists e, last h = Some e /\ failed_event e = true
  | CHealthy => ~ exhausted budget h /\ forall e, last h = Some e -> failed_event e = false
  end.
Proof.
  intros Hlen c. assert (healthy_run budget h c) as [_ _ Hb Hf Hk].
  { unfold c. induction h as [|e h IH] using rev_ind.
    - assert (~ exhausted budget []) as Hn.
      { intros (pre & post & E & Hle). symmetry in E. apply app_nil in E as [-> ->].
        change (trailing permanent_event []) with 0 in Hle. lia. }
      split; simpl; auto; split; try done. intros [_ Hlt]. by vm_compute in Hlt.
    - rewrite fold_left_app. rewrite zlen_app in Hlen. cbn [length] in Hlen. apply healthy_run_step; [lia|].
      apply IH. lia. }
  assert (0 < trailing failed_event h <-> exists e, last h = Some e /\ failed_event e = true) as Ht.
  { clear. destruct h as [|e h' _] using rev_ind; [split; [done|intros (? & ? & _); done]|].
    rewrite trailing_snoc, last_snoc. pose proof (trailing_bound failed_event h').
    destruct (failed_event e) eqn:E; split; [eauto|intros _; lia|lia|]. intros (e' & [= <-] & E'). congruence. }
  unfold health_from_u8. destruct (Z.eqb_spec (health c) 0); [|destruct (Z.eqb_spec (health c) 1)].
  - assert (~ exhausted budget h) as Hn by (rewrite <- Hb; lia). split; [done|]. intros e0 He.
    destruct (failed_event e0) eqn:E; [|done]. assert (health c = 1); [|lia]. apply Hf. split; [done|]. apply Ht. eauto.
  - rewrite <- Ht. by apply Hf.
  - apply Hb. lia.
Qed.

Lemma health_exact_witness :
  zlen [EFail 1 FPanic EmptyString; EFail 2 FIo EmptyString; EFail 3 FCorruption EmptyString] <= u64_max /\
  ~ exhausted 2 [EFail 1 FPanic EmptyString; EFail 2 FIo EmptyString; EFail 3 FCorruption EmptyString].
Proof.
  split; [discriminate|].
  apply (health_exact 2 [EFail 1 FPanic EmptyString; EFail 2 FIo EmptyString; EFail 3 FCorruption EmptyString]).
  discriminate.
Defined.

End Track.
