(* ===== verification/LsmEngine.v ===== *)
(** * The LSM engine ([src/src/lsm/mod.rs])

    One record holds what the engine's threads share: the operations appended to the WAL, the active memtable, the frozen
    ones (newest first), the live tables (newest first), the apply tracker, the flush queue with the flush thread's
    current job, the snapshot registry and the counters.  An [Arc<MemTable>] is a pair of its allocation number and its
    contents, so that [Arc::ptr_eq] compares allocations.  Operations are written in a state monad with the three ways a
    Rust call ends: it returns a value, it returns an [EngineError], or it panics.  What other subsystems answer (the
    batch coordinator, the manifest's append, file metadata) is an argument, one per call; an acknowledged manifest edit
    is appended to [manifest_log], an operation that reached the WAL to [wal_log], also when its durability was never
    confirmed; [unlinked] lists the ids of the table files removed from disk.  Each function that takes several locks in
    turn is split at the points where another thread may run, one definition per lock scope ([get_as_of], [contains] and
    [snapshot] included), and composed as the source composes it. *)

From stdpp Require Import base list option strings.
From Stdlib Require Import ZArith Lia.
From Stdlib Require Import Strings.Byte.
From S2P Require Import Prelude BTree EngineError Checksum WalFormat MemTable ManifestLog SsFormat Bloom Versions SsTable.
From S2P Require Import Compaction LsmTrack.

Module Lsm.
Import Sst Track Manifest.

(** ** Configuration and state *)

Record LsmConfig : Type := {
  memtable_max_size_bytes : Z;
  max_immutable_memtables : Z;
  sstable_target_block_size : Z;
  lsm_bloom_bits_per_key : Z;
  max_flush_retries : Z;
  compaction_trigger_count : Z;
  max_batch_ops : Z
}.

Definition lsm_config_default : LsmConfig := {|
  memtable_max_size_bytes := Mem.DEFAULT_MAX_SIZE_BYTES;
  max_immutable_memtables := 4;
  sstable_target_block_size := Fmt.DEFAULT_TARGET_BLOCK_SIZE;
  lsm_bloom_bits_per_key := Fmt.DEFAULT_BLOOM_BITS_PER_KEY;
  max_flush_retries := 3;
  compaction_trigger_count := 4;
  max_batch_ops := 10000
|}.

Inductive StorageState : Type :=
| Healthy
| StoragePressure
| StorageFull.

Definition storage_to_u8 (s : StorageState) : Z :=
  match s with Healthy => 0 | StoragePressure => 1 | StorageFull => 2 end.

Definition storage_from_u8 (v : Z) : StorageState :=
  if v =? 0 then Healthy else if v =? 1 then StoragePressure else StorageFull.

Inductive WriteOp : Type :=
| WPut (key value : bytes)
| WDelete (key : bytes).

Record WalPosition : Type := Position { segment_id : Z; wal_offset : Z; position_seq : Z }.

Record ReadStatCounters : Type := ReadStats { requests : Z; hits : Z; misses : Z; sstables_consulted : Z }.

(** The flush thread's locals for the memtable it is working on. *)
Record FlushJob : Type := MkFlushJob {
  frozen : nat * Mem.MemTable;
  ckpt : Z;
  attempt : Z;
  published : option (Z * bytes * SstableMeta);
  checkpoint_marker : option WalPosition;
  checkpoint_recorded : bool
}.

Record Engine : Type := MkEngine {
  config : LsmConfig;
  wal_log : list (WalPosition * WalOpOwned);
  durable_through : Z;
  active : Mem.MemTable;
  immutables : list (nat * Mem.MemTable);
  next_arc : nat;
  sstables : list SsTable;
  next_sstable_id : Z;
  manifest_log : list ManifestEdit;
  checkpoint_seq : Z;
  apply_tracker : TrackerInner;
  flush_queue : list (nat * Mem.MemTable * Z);
  flush_job : option FlushJob;
  snapshot_registry : SnapshotRegistry;
  storage_state : Z;
  capacity_pressure_events : Z;
  storage_pressure_events : Z;
  flush_completions : Z;
  read_stats : ReadStatCounters;
  pending_compaction_deletes : list SsTable;
  compaction_running : bool;
  compaction_metrics : CompactionMetricCounters;
  unlinked : list Z
}.

(** Field updates. *)
Definition set_wal_log (x : list (WalPosition * WalOpOwned)) (e : Engine) : Engine :=
  MkEngine (config e) x (durable_through e) (active e) (immutables e) (next_arc e) (sstables e) (next_sstable_id
    e) (manifest_log e) (checkpoint_seq e) (apply_tracker e) (flush_queue e) (flush_job e) (snapshot_registry e)
    (storage_state e) (capacity_pressure_events e) (storage_pressure_events e) (flush_completions e) (read_stats
    e) (pending_compaction_deletes e) (compaction_running e) (compaction_metrics e) (unlinked e).
Definition set_durable_through (x : Z) (e : Engine) : Engine :=
  MkEngine (config e) (wal_log e) x (active e) (immutables e) (next_arc e) (sstables e) (next_sstable_id e)
    (manifest_log e) (checkpoint_seq e) (apply_tracker e) (flush_queue e) (flush_job e) (snapshot_registry e)
    (storage_state e) (capacity_pressure_events e) (storage_pressure_events e) (flush_completions e) (read_stats
    e) (pending_compaction_deletes e) (compaction_running e) (compaction_metrics e) (unlinked e).
Definition set_active (x : Mem.MemTable) (e : Engine) : Engine :=
  MkEngine (config e) (wal_log e) (durable_through e) x (immutables e) (next_arc e) (sstables e)
    (next_sstable_id e) (manifest_log e) (checkpoint_seq e) (apply_tracker e) (flush_queue e) (flush_job e)
    (snapshot_registry e) (storage_state e) (capacity_pressure_events e) (storage_pressure_events e)
    (flush_completions e) (read_stats e) (pending_compaction_deletes e) (compaction_running e)
    (compaction_metrics e) (unlinked e).
Definition set_immutables (x : list (nat * Mem.MemTable)) (e : Engine) : Engine :=
  MkEngine (config e) (wal_log e) (durable_through e) (active e) x (next_arc e) (sstables e) (next_sstable_id e)
    (manifest_log e) (checkpoint_seq e) (apply_tracker e) (flush_queue e) (flush_job e) (snapshot_registry e)
    (storage_state e) (capacity_pressure_events e) (storage_pressure_events e) (flush_completions e) (read_stats
    e) (pending_compaction_deletes e) (compaction_running e) (compaction_metrics e) (unlinked e).
Definition set_next_arc (x : nat) (e : Engine) : Engine :=
  MkEngine (config e) (wal_log e) (durable_through e) (active e) (immutables e) x (sstables e) (next_sstable_id
    e) (manifest_log e) (checkpoint_seq e) (apply_tracker e) (flush_queue e) (flush_job e) (snapshot_registry e)
    (storage_state e) (capacity_pressure_events e) (storage_pressure_events e) (flush_completions e) (read_stats
    e) (pending_compaction_deletes e) (compaction_running e) (compaction_metrics e) (unlinked e).
Definition set_sstables (x : list SsTable) (e : Engine) : Engine :=
  MkEngine (config e) (wal_log e) (durable_through e) (active e) (immutables e) (next_arc e) x (next_sstable_id
    e) (manifest_log e) (checkpoint_seq e) (apply_tracker e) (flush_queue e) (flush_job e) (snapshot_registry e)
    (storage_state e) (capacity_pressure_events e) (storage_pressure_events e) (flush_completions e) (read_stats
    e) (pending_compaction_deletes e) (compaction_running e) (compaction_metrics e) (unlinked e).
Definition set_next_sstable_id (x : Z) (e : Engine) : Engine :=
  MkEngine (config e) (wal_log e) (durable_through e) (active e) (immutables e) (next_arc e) (sstables e) x
    (manifest_log e) (checkpoint_seq e) (apply_tracker e) (flush_queue e) (flush_job e) (snapshot_registry e)
    (storage_state e) (capacity_pressure_events e) (storage_pressure_events e) (flush_completions e) (read_stats
    e) (pending_compaction_deletes e) (compaction_running e) (compaction_metrics e) (unlinked e).
Definition set_manifest_log (x : list ManifestEdit) (e : Engine) : Engine :=
  MkEngine (config e) (wal_log e) (durable_through e) (active e) (immutables e) (next_arc e) (sstables e)
    (next_sstable_id e) x (checkpoint_seq e) (apply_tracker e) (flush_queue e) (flush_job e) (snapshot_registry
    e) (storage_state e) (capacity_pressure_events e) (storage_pressure_events e) (flush_completions e)
    (read_stats e) (pending_compaction_deletes e) (compaction_running e) (compaction_metrics e) (unlinked e).
Definition set_checkpoint_seq (x : Z) (e : Engine) : Engine :=
  MkEngine (config e) (wal_log e) (durable_through e) (active e) (immutables e) (next_arc e) (sstables e)
    (next_sstable_id e) (manifest_log e) x (apply_tracker e) (flush_queue e) (flush_job e) (snapshot_registry e)
    (storage_state e) (capacity_pressure_events e) (storage_pressure_events e) (flush_completions e) (read_stats
    e) (pending_compaction_deletes e) (compaction_running e) (compaction_metrics e) (unlinked e).
Definition set_apply_tracker (x : TrackerInner) (e : Engine) : Engine :=
  MkEngine (config e) (wal_log e) (durable_through e) (active e) (immutables e) (next_arc e) (sstables e)
    (next_sstable_id e) (manifest_log e) (checkpoint_seq e) x (flush_queue e) (flush_job e) (snapshot_registry
    e) (storage_state e) (capacity_pressure_events e) (storage_pressure_events e) (flush_completions e)
    (read_stats e) (pending_compaction_deletes e) (compaction_running e) (compaction_metrics e) (unlinked e).
Definition set_flush_queue (x : list (nat * Mem.MemTable * Z)) (e : Engine) : Engine :=
  MkEngine (config e) (wal_log e) (durable_through e) (active e) (immutables e) (next_arc e) (sstables e)
    (next_sstable_id e) (manifest_log e) (checkpoint_seq e) (apply_tracker e) x (flush_job e) (snapshot_registry
    e) (storage_state e) (capacity_pressure_events e) (storage_pressure_events e) (flush_completions e)
    (read_stats e) (pending_compaction_deletes e) (compaction_running e) (compaction_metrics e) (unlinked e).
Definition set_flush_job (x : option FlushJob) (e : Engine) : Engine :=
  MkEngine (config e) (wal_log e) (durable_through e) (active e) (immutables e) (next_arc e) (sstables e)
    (next_sstable_id e) (manifest_log e) (checkpoint_seq e) (apply_tracker e) (flush_queue e) x
    (snapshot_registry e) (storage_state e) (capacity_pressure_events e) (storage_pressure_events e)
    (flush_completions e) (read_stats e) (pending_compaction_deletes e) (compaction_running e)
    (compaction_metrics e) (unlinked e).
Definition set_snapshot_registry (x : SnapshotRegistry) (e : Engine) : Engine :=
  MkEngine (config e) (wal_log e) (durable_through e) (active e) (immutables e) (next_arc e) (sstables e)
    (next_sstable_id e) (manifest_log e) (checkpoint_seq e) (apply_tracker e) (flush_queue e) (flush_job e) x
    (storage_state e) (capacity_pressure_events e) (storage_pressure_events e) (flush_completions e) (read_stats
    e) (pending_compaction_deletes e) (compaction_running e) (compaction_metrics e) (unlinked e).
Definition set_storage_state (x : Z) (e : Engine) : Engine :=
  MkEngine (config e) (wal_log e) (durable_through e) (active e) (immutables e) (next_arc e) (sstables e)
    (next_sstable_id e) (manifest_log e) (checkpoint_seq e) (apply_tracker e) (flush_queue e) (flush_job e)
    (snapshot_registry e) x (capacity_pressure_events e) (storage_pressure_events e) (flush_completions e)
    (read_stats e) (pending_compaction_deletes e) (compaction_running e) (compaction_metrics e) (unlinked e).
Definition set_capacity_pressure_events (x : Z) (e : Engine) : Engine :=
  MkEngine (config e) (wal_log e) (durable_through e) (active e) (immutables e) (next_arc e) (sstables e)
    (next_sstable_id e) (manifest_log e) (checkpoint_seq e) (apply_tracker e) (flush_queue e) (flush_job e)
    (snapshot_registry e) (storage_state e) x (storage_pressure_events e) (flush_completions e) (read_stats e)
    (pending_compaction_deletes e) (compaction_running e) (compaction_metrics e) (unlinked e).
Definition set_storage_pressure_events (x : Z) (e : Engine) : Engine :=
  MkEngine (config e) (wal_log e) (durable_through e) (active e) (immutables e) (next_arc e) (sstables e)
    (next_sstable_id e) (manifest_log e) (checkpoint_seq e) (apply_tracker e) (flush_queue e) (flush_job e)
    (snapshot_registry e) (storage_state e) (capacity_pressure_events e) x (flush_completions e) (read_stats e)
    (pending_compaction_deletes e) (compaction_running e) (compaction_metrics e) (unlinked e).
Definition set_flush_completions (x : Z) (e : Engine) : Engine :=
  MkEngine (config e) (wal_log e) (durable_through e) (active e) (immutables e) (next_arc e) (sstables e)
    (next_sstable_id e) (manifest_log e) (checkpoint_seq e) (apply_tracker e) (flush_queue e) (flush_job e)
    (snapshot_registry e) (storage_state e) (capacity_pressure_events e) (storage_pressure_events e) x
    (read_stats e) (pending_compaction_deletes e) (compaction_running e) (compaction_metrics e) (unlinked e).
Definition set_read_stats (x : ReadStatCounters) (e : Engine) : Engine :=
  MkEngine (config e) (wal_log e) (durable_through e) (active e) (immutables e) (next_arc e) (sstables e)
    (next_sstable_id e) (manifest_log e) (checkpoint_seq e) (apply_tracker e) (flush_queue e) (flush_job e)
    (snapshot_registry e) (storage_state e) (capacity_pressure_events e) (storage_pressure_events e)
    (flush_completions e) x (pending_compaction_deletes e) (compaction_running e) (compaction_metrics e)
    (unlinked e).
Definition set_pending_compaction_deletes (x : list SsTable) (e : Engine) : Engine :=
  MkEngine (config e) (wal_log e) (durable_through e) (active e) (immutables e) (next_arc e) (sstables e)
    (next_sstable_id e) (manifest_log e) (checkpoint_seq e) (apply_tracker e) (flush_queue e) (flush_job e)
    (snapshot_registry e) (storage_state e) (capacity_pressure_events e) (storage_pressure_events e)
    (flush_completions e) (read_stats e) x (compaction_running e) (compaction_metrics e) (unlinked e).
Definition set_compaction_running (x : bool) (e : Engine) : Engine :=
  MkEngine (config e) (wal_log e) (durable_through e) (active e) (immutables e) (next_arc e) (sstables e)
    (next_sstable_id e) (manifest_log e) (checkpoint_seq e) (apply_tracker e) (flush_queue e) (flush_job e)
    (snapshot_registry e) (storage_state e) (capacity_pressure_events e) (storage_pressure_events e)
    (flush_completions e) (read_stats e) (pending_compaction_deletes e) x (compaction_metrics e) (unlinked e).
Definition set_compaction_metrics (x : CompactionMetricCounters) (e : Engine) : Engine :=
  MkEngine (config e) (wal_log e) (durable_through e) (active e) (immutables e) (next_arc e) (sstables e)
    (next_sstable_id e) (manifest_log e) (checkpoint_seq e) (apply_tracker e) (flush_queue e) (flush_job e)
    (snapshot_registry e) (storage_state e) (capacity_pressure_events e) (storage_pressure_events e)
    (flush_completions e) (read_stats e) (pending_compaction_deletes e) (compaction_running e) x (unlinked e).
Definition set_unlinked (x : list Z) (e : Engine) : Engine :=
  MkEngine (config e) (wal_log e) (durable_through e) (active e) (immutables e) (next_arc e) (sstables e)
    (next_sstable_id e) (manifest_log e) (checkpoint_seq e) (apply_tracker e) (flush_queue e) (flush_job e)
    (snapshot_registry e) (storage_state e) (capacity_pressure_events e) (storage_pressure_events e)
    (flush_completions e) (read_stats e) (pending_compaction_deletes e) (compaction_running e)
    (compaction_metrics e) x.

(** ** The state monad *)

Inductive outcome (A : Type) : Type :=
| Returned (a : A)
| Failed (e : EngineError)
| Panicked.
Arguments Returned {A} a.
Arguments Failed {A} e.
Arguments Panicked {A}.

Definition M (A : Type) : Type := Engine -> Engine * outcome A.

#[global] Instance ret : MRet M := fun A a e => (e, Returned a).

#[global] Instance bind : MBind M := fun A B k c e =>
  match c e with
  | (e', Returned a) => k a e'
  | (e', Failed x) => (e', Failed x)
  | (e', Panicked) => (e', Panicked)
  end.

Definition fail {A} (x : EngineError) : M A := fun e => (e, Failed x).
Definition panic {A} : M A := fun e => (e, Panicked).
Definition gets {A} (f : Engine -> A) : M A := fun e => (e, Returned (f e)).
Definition modify (f : Engine -> Engine) : M unit := fun e => (f e, Returned tt).
Definition lift {A} (r : res A) : M A := fun e => match r with Ok a => (e, Returned a) | Err x => (e, Failed x) end.

(** A call that may panic: [None] is the panic. *)
Definition lift_panic {A} (r : option (res A)) : M A :=
  match r with Some r => lift r | None => panic end.


(** ** Reads *)

Definition resolve (value : Mem.MemtableValue) : option bytes :=
  match value with Mem.MPut v => Some v | Mem.MTombstone => None end.

Definition resolve_sstable (value : RecordValue) : option bytes :=
  match value with RPut v => Some v | RTombstone => None end.

Definition bump (f : ReadStatCounters -> ReadStatCounters) : M unit :=
  modify (fun e => set_read_stats (f (read_stats e)) e).

Definition add_request (c : ReadStatCounters) := ReadStats (wrapping_add64 (requests c) 1) (hits c) (misses c) (sstables_consulted c).
Definition add_hit (c : ReadStatCounters) := ReadStats (requests c) (wrapping_add64 (hits c) 1) (misses c) (sstables_consulted c).
Definition add_miss (c : ReadStatCounters) := ReadStats (requests c) (hits c) (wrapping_add64 (misses c) 1) (sstables_consulted c).
Definition add_consulted (c : ReadStatCounters) := ReadStats (requests c) (hits c) (misses c) (wrapping_add64 (sstables_consulted c) 1).

(** [for imm in immutables.iter()]: the first memtable with a visible version. *)
Fixpoint first_immutable (imms : list (nat * Mem.MemTable)) (key : bytes) (as_of_seq : Z) : option (Z * Mem.MemtableValue) :=
  match imms with
  | [] => None
  | imm :: imms =>
      match Mem.get_as_of imm.2 key as_of_seq with
      | Some r => Some r
      | None => first_immutable imms key as_of_seq
      end
  end.

Section Engine.
Context `{Crc32c, Xxh64}.

(** [for table in sstables.iter()], the first table with a visible version. *)
Fixpoint first_table (tables : list SsTable) (key : bytes) (as_of_seq : Z) : M (option bytes) :=
  match tables with
  | [] => bump add_miss ;; mret None
  | table :: tables =>
      bump add_consulted ;;
      r ← lift_panic (get_versioned table key as_of_seq);
      match r with
      | Some (_, value) => bump add_hit ;; mret (resolve_sstable value)
      | None => first_table tables key as_of_seq
      end
  end.

(** The three lock scopes of [get_as_of]: each answers, or leaves the key to the next one. *)
Definition read_active (key : bytes) (as_of_seq : Z) : M (option (option bytes)) :=
  bump add_request ;;
  active ← gets active;
  match Mem.get_as_of active key as_of_seq with
  | Some (_, value) => bump add_hit ;; mret (Some (resolve value))
  | None => mret None
  end.

Definition read_immutables (key : bytes) (as_of_seq : Z) : M (option (option bytes)) :=
  immutables ← gets immutables;
  match first_immutable immutables key as_of_seq with
  | Some (_, value) => bump add_hit ;; mret (Some (resolve value))
  | None => mret None
  end.

Definition read_sstables (key : bytes) (as_of_seq : Z) : M (option bytes) :=
  sstables ← gets sstables;
  first_table sstables key as_of_seq.

Definition get_as_of (key : bytes) (as_of_seq : Z) : M (option bytes) :=
  in_active ← read_active key as_of_seq;
  match in_active with
  | Some value => mret value
  | None =>
      in_immutables ← read_immutables key as_of_seq;
      match in_immutables with
      | Some value => mret value
      | None => read_sstables key as_of_seq
      end
  end.

Definition get (key : bytes) : M (option bytes) := get_as_of key u64_max.

Definition memtable_is_put (v : Mem.MemtableValue) : bool :=
  match v with Mem.MPut _ => true | Mem.MTombstone => false end.

Fixpoint first_table_contains (tables : list SsTable) (key : bytes) (as_of_seq : Z) : M bool :=
  match tables with
  | [] => bump add_miss ;; mret false
  | table :: tables =>
      bump add_consulted ;;
      r ← lift_panic (contains_versioned table key as_of_seq);
      match r with
      | Some is_put => bump add_hit ;; mret is_put
      | None => first_table_contains tables key as_of_seq
      end
  end.

(** The three lock scopes of [contains]. *)
Definition contains_active (key : bytes) (as_of_seq : Z) : M (option bool) :=
  bump add_request ;;
  active ← gets active;
  match Mem.get_as_of active key as_of_seq with
  | Some (_, value) => bump add_hit ;; mret (Some (memtable_is_put value))
  | None => mret None
  end.

Definition contains_immutables (key : bytes) (as_of_seq : Z) : M (option bool) :=
  immutables ← gets immutables;
  match first_immutable immutables key as_of_seq with
  | Some (_, value) => bump add_hit ;; mret (Some (memtable_is_put value))
  | None => mret None
  end.

Definition contains_sstables (key : bytes) (as_of_seq : Z) : M bool :=
  sstables ← gets sstables;
  first_table_contains sstables key as_of_seq.

Definition contains (key : bytes) (as_of_seq : Z) : M bool :=
  in_active ← contains_active key as_of_seq;
  match in_active with
  | Some is_put => mret is_put
  | None =>
      in_immutables ← contains_immutables key as_of_seq;
      match in_immutables with
      | Some is_put => mret is_put
      | None => contains_sstables key as_of_seq
      end
  end.

Definition snapshot_seq : M Z := gets durable_through.

(** [snapshot_registry.acquire(seq)], under the registry's own lock. *)
Definition snapshot_register (seq : Z) : M unit :=
  modify (fun e => set_snapshot_registry (acquire (snapshot_registry e) seq) e).

(** [snapshot]: the watermark is read first, and registered second under another lock. *)
Definition snapshot : M Z :=
  seq ← snapshot_seq;
  snapshot_register seq ;;
  mret seq.

(** [Drop for Snapshot]. *)
Definition snapshot_drop (seq : Z) : M unit :=
  modify (fun e => set_snapshot_registry (release (snapshot_registry e) seq) e).

Definition oldest_live_snapshot_seq : M (option Z) := gets (fun e => oldest (snapshot_registry e)).

(** ** Writes *)

Definition reject_if_storage_full : M unit :=
  s ← gets storage_state;
  match storage_from_u8 s with
  | StorageFull => fail (StorageExhausted "persistent storage is exhausted (STORAGE_FULL)")
  | _ => mret tt
  end.

(** How the group commit answers one operation.  It is appended and durable; or nothing was appended (the queue or the
    append refused it); or it was appended and only the wait for durability failed, in which case the record is in the
    WAL, may still become durable, and the caller gets the error all the same. *)
Inductive WalAnswer : Type :=
| Acknowledged (position : WalPosition)
| Refused (x : EngineError)
| Unconfirmed (position : WalPosition) (x : EngineError).

Definition log_append (position : WalPosition) (op : WalOpOwned) : M unit :=
  modify (fun e => set_wal_log (wal_log e ++ [(position, op)]) e).

(** [self.pool.submit(op)?.wait()?]. *)
Definition submit_wait (answer : WalAnswer) (op : WalOpOwned) : M WalPosition :=
  match answer with
  | Refused x => fail x
  | Unconfirmed position x => log_append position op ;; fail x
  | Acknowledged position =>
      log_append position op ;;
      modify (fun e => set_durable_through (Z.max (durable_through e) (position_seq position)) e) ;;
      mret position
  end.

(** [compare_exchange] on the storage-state byte; the answer says whether it changed. *)
Definition storage_compare_exchange (expected new : StorageState) : M unit :=
  modify (fun e => set_storage_state (compare_exchange (storage_state e) (storage_to_u8 expected) (storage_to_u8 new)) e).

Definition freeze_locked : M unit :=
  imms ← gets immutables;
  cfg ← gets config;
  if max_immutable_memtables cfg <=? zlen imms then
    modify (fun e => set_capacity_pressure_events (wrapping_add64 (capacity_pressure_events e) 1) e) ;;
    storage_compare_exchange StoragePressure StorageFull ;;
    fail (CapacityExceeded (zlen imms + 1) (max_immutable_memtables cfg))
  else
    m ← gets active;
    arc ← gets next_arc;
    modify (set_active (Mem.new (memtable_max_size_bytes cfg))) ;;
    let old := (arc, Mem.freeze m) in
    modify (set_next_arc (S arc)) ;;
    modify (fun e => set_immutables (old :: immutables e) e) ;;
    modify (fun e => set_flush_queue (flush_queue e ++ [(old, contiguous (apply_tracker e))]) e).

Definition apply_after_durable (key : bytes) (seq : Z) (value : Mem.MemtableValue) : M unit :=
  modify (fun e => set_active (Mem.insert (active e) key seq value) e) ;;
  modify (fun e => set_apply_tracker (account (apply_tracker e) seq) e) ;;
  m ← gets active;
  if Mem.is_full m then freeze_locked else mret tt.

Definition apply_kv_to_memtable (memtable : Mem.MemTable) (seq : Z) (key : bytes) (value : option bytes) : Mem.MemTable :=
  match value with
  | Some v => Mem.put memtable key seq v
  | None => Mem.delete memtable key seq
  end.

Definition op_kv (op : WriteOp) : bytes * option bytes :=
  match op with WPut key value => (key, Some value) | WDelete key => (key, None) end.

Definition apply_batch_after_durable (ops : list WriteOp) (seq : Z) : M unit :=
  modify (fun e => set_active
    (fold_left (fun m op => let '(key, value) := op_kv op in apply_kv_to_memtable m seq key value) ops (active e)) e) ;;
  modify (fun e => set_apply_tracker (account (apply_tracker e) seq) e) ;;
  m ← gets active;
  if Mem.is_full m then freeze_locked else mret tt.

Definition put (answer : WalAnswer) (key value : bytes) : M Z :=
  reject_if_storage_full ;;
  position ← submit_wait answer (OPut key value);
  apply_after_durable key (position_seq position) (Mem.MPut value) ;;
  mret (position_seq position).

Definition delete (answer : WalAnswer) (key : bytes) : M Z :=
  reject_if_storage_full ;;
  position ← submit_wait answer (ODelete key);
  apply_after_durable key (position_seq position) Mem.MTombstone ;;
  mret (position_seq position).

Definition to_member (op : WriteOp) : GroupMemberOwned :=
  match op with WPut key value => GOPut key value | WDelete key => GODelete key end.

Definition write_batch (answer : WalAnswer) (ops : list WriteOp) : M Z :=
  cfg ← gets config;
  if zlen ops =? 0 then fail (InvalidArgument "write_batch requires at least one operation")
  else if max_batch_ops cfg <? zlen ops then fail (CapacityExceeded (zlen ops) (max_batch_ops cfg))
  else
    reject_if_storage_full ;;
    position ← submit_wait answer (OGroup (map to_member ops));
    apply_batch_after_durable ops (position_seq position) ;;
    mret (position_seq position).

(** Recovery's replay of one record into the memtable being rebuilt. *)
Definition apply_wal_op (memtable : Mem.MemTable) (seq : Z) (op : WalOp) : Mem.MemTable :=
  match op with
  | Put key value => Mem.put memtable key seq value
  | Delete key => Mem.delete memtable key seq
  | CheckpointMarker _ => memtable
  | Group members =>
      fold_left (fun m member =>
        let '(key, value) := match member with GPut key value => (key, Some value) | GDelete key => (key, None) end in
        apply_kv_to_memtable m seq key value) members memtable
  end.

(** ** The flush thread *)

(** What the calls of one flush attempt answer: an injected or real I/O error before the table is written, the writer's
    I/O, the file's metadata, the manifest's appends, [pool.rotate], the checkpoint marker and [pool.purge_before]. *)
Record FlushEnv : Type := MkFlushEnv {
  fe_io_fault : option io_error;
  fe_write : res unit;
  fe_metadata : res unit;
  fe_add : res unit;
  fe_rotate : res unit;
  fe_marker : WalAnswer;
  fe_set : res unit;
  fe_purge : res unit
}.

Definition writer_config (cfg : LsmConfig) : SsTableWriterConfig :=
  {| target_block_size := sstable_target_block_size cfg; bloom_bits_per_key := lsm_bloom_bits_per_key cfg |}.

(** [manifest.append_sync(edit)?]: an acknowledged edit is in the manifest. *)
Definition append_edit (answer : res unit) (edit : ManifestEdit) : M unit :=
  lift answer;;
  modify (fun e => set_manifest_log (manifest_log e ++ [edit]) e).

Definition fetch_add_sstable_id : M Z :=
  id ← gets next_sstable_id;
  modify (set_next_sstable_id (wrapping_add64 id 1));;
  mret id.

Definition job_set_published (p : Z * bytes * SstableMeta) (j : FlushJob) : FlushJob :=
  MkFlushJob (frozen j) (ckpt j) (attempt j) (Some p) (checkpoint_marker j) (checkpoint_recorded j).
Definition job_set_marker (p : WalPosition) (j : FlushJob) : FlushJob :=
  MkFlushJob (frozen j) (ckpt j) (attempt j) (published j) (Some p) (checkpoint_recorded j).
Definition job_set_recorded (j : FlushJob) : FlushJob :=
  MkFlushJob (frozen j) (ckpt j) (attempt j) (published j) (checkpoint_marker j) true.
Definition job_set_attempt (n : Z) (j : FlushJob) : FlushJob :=
  MkFlushJob (frozen j) (ckpt j) n (published j) (checkpoint_marker j) (checkpoint_recorded j).

Definition modify_job (f : FlushJob -> FlushJob) : M unit := modify (fun e => set_flush_job (f <$> flush_job e) e).

(** [receiver.recv()]: the next frozen memtable, with fresh progress marks. *)
Definition flush_recv : M unit :=
  q ← gets flush_queue;
  match q with
  | (fz, c) :: q => modify (set_flush_queue q);; modify (set_flush_job (Some (MkFlushJob fz c 0 None None false)))
  | [] => mret tt
  end.

(** Steps 1 and 2: write the table and record it in the manifest, unless an earlier attempt already did. *)
Definition flush_publish (env : FlushEnv) (j : FlushJob) : M (Z * bytes * SstableMeta) :=
  match published j with
  | Some p => mret p
  | None =>
      match fe_io_fault env with
      | Some injected => fail (Io injected)
      | None =>
          id ← fetch_add_sstable_id;
          cfg ← gets config;
          lift (fe_write env);;
          '(file, meta) ← lift_panic (write_from_memtable (frozen j).2 id (writer_config cfg));
          lift (fe_metadata env);;
          append_edit (fe_add env) (AddSstable id (m_min_seq meta) (m_max_seq meta) (zlen file));;
          modify_job (job_set_published (id, file, meta));;
          mret (id, file, meta)
      end
  end.

(** Step 3: open the file and put it at the front of the live list, unless it is already there. *)
Definition flush_install (p : Z * bytes * SstableMeta) : M unit :=
  let '(id, file, meta) := p in
  list ← gets sstables;
  if existsb (fun t => t_id t =? id) list then mret tt
  else
    gone ← gets unlinked;
    table ← lift (if existsb (Z.eqb id) gone then Err (Io (IoError KNotFound None)) else open file id);
    modify (set_sstables (table :: list)).

(** Steps 4 and 5: rotate the WAL, then a durable checkpoint marker, unless an earlier attempt already wrote it. *)
Definition flush_marker (env : FlushEnv) (j : FlushJob) : M WalPosition :=
  lift (fe_rotate env);;
  match checkpoint_marker j with
  | Some position => mret position
  | None =>
      position ← submit_wait (fe_marker env) (OCheckpointMarker (ckpt j));
      modify (fun e => set_apply_tracker (account (apply_tracker e) (position_seq position)) e);;
      modify_job (job_set_marker position);;
      mret position
  end.

(** Step 6. *)
Definition flush_checkpoint (env : FlushEnv) (j : FlushJob) (position : WalPosition) : M unit :=
  if checkpoint_recorded j then mret tt
  else
    append_edit (fe_set env) (SetCheckpoint (ckpt j) (segment_id position) (wal_offset position));;
    modify_job job_set_recorded.

(** Steps 7 to 9: publish the checkpoint, drop the memtable, purge the WAL. *)
Definition flush_drop (env : FlushEnv) (j : FlushJob) : M unit :=
  modify (set_checkpoint_seq (ckpt j));;
  modify (fun e => set_immutables (List.filter (fun m => negb (Nat.eqb m.1 (frozen j).1)) (immutables e)) e);;
  lift (fe_purge env).

Definition flush_attempt (env : FlushEnv) (j : FlushJob) : M unit :=
  p ← flush_publish env j;
  flush_install p;;
  position ← flush_marker env j;
  flush_checkpoint env j position;;
  flush_drop env j.

(** What the loop does with an attempt's result (a panic was caught and is [Aborted]); sleeping and logging apart. *)
Definition flush_result (r : outcome unit) : M unit :=
  match r with
  | Returned _ =>
      modify (set_storage_state (storage_to_u8 Healthy));;
      modify (fun e => set_flush_completions (wrapping_add64 (flush_completions e) 1) e);;
      modify (set_flush_job None)
  | Failed _ | Panicked =>
      let x := match r with Failed x => x | _ => Aborted "flush attempt panicked" end in
      modify_job (fun j => job_set_attempt (attempt j + 1) j);;
      (if is_storage_exhausted x
       then modify (fun e => set_storage_pressure_events (wrapping_add64 (storage_pressure_events e) 1) e)
       else mret tt);;
      j ← gets flush_job;
      cfg ← gets config;
      match j with
      | Some j =>
          if attempt j <=? max_flush_retries cfg then mret tt
          else if is_storage_exhausted x then storage_compare_exchange Healthy StoragePressure
          else mret tt
      | None => mret tt
      end
  end.

(** One turn of the flush thread's retry loop. *)
Definition flush_turn (env : FlushEnv) : M unit :=
  j ← gets flush_job;
  match j with
  | Some j => (fun e => let '(e, r) := flush_attempt env j e in flush_result r e) : M unit
  | None => mret tt
  end.

(** ** Compaction *)

Definition compaction_record_cap (bits_per_key : Z) : Z :=
  Bloom.max_record_count_for_bloom_cap (Z.max bits_per_key Fmt.DEFAULT_BLOOM_BITS_PER_KEY).

Definition capped_bloom_hint (counts : list Z) (cap : Z) : Z := Z.min (fold_left saturating_add64 counts 0) cap.

Definition compaction_output_fits (record_count cap : Z) : bool := record_count <=? cap.

(** What the calls of one compaction cycle answer.  [ce_held] says whether another thread still holds a clone of an
    input's [Arc]; [ce_duration] is the elapsed time in nanoseconds. *)
Record CompactEnv : Type := MkCompactEnv {
  ce_io_fault : option io_error;
  ce_write : res unit;
  ce_add : res unit;
  ce_remove : SsTable -> res unit;
  ce_held : SsTable -> bool;
  ce_duration : Z
}.

(** What a running cycle has captured. *)
Record CompactJob : Type := MkCompactJob {
  inputs : list SsTable;
  oldest_snapshot : option Z;
  output_id : Z
}.

Definition sweep_pending_compaction_deletes (held : SsTable -> bool) : M unit :=
  deferred ← gets pending_compaction_deletes;
  modify (fun e => set_unlinked (unlinked e ++ map t_id (List.filter (fun t => negb (held t)) deferred)) e);;
  modify (set_pending_compaction_deletes (List.filter held deferred)).

(** The guards, the run guard and the capture of the inputs.  [None] skips the cycle. *)
Definition compact_capture (env : CompactEnv) : M (option (list SsTable)) :=
  s ← gets storage_state;
  match storage_from_u8 s with
  | Healthy =>
      sweep_pending_compaction_deletes (ce_held env);;
      cfg ← gets config;
      tables ← gets sstables;
      if zlen tables <? compaction_trigger_count cfg then mret None
      else
        running ← gets compaction_running;
        if (running : bool) then mret None
        else
          match tables with
          | [] => mret None
          | _ => modify (set_compaction_running true);; mret (Some tables)
          end
  | _ => mret None
  end.

(** The oldest live snapshot, read from the registry after the capture, then the output's id. *)
Definition compact_choose (env : CompactEnv) (tables : list SsTable) : M CompactJob :=
  oldest ← oldest_live_snapshot_seq;
  match ce_io_fault env with
  | Some x => fail (Io x)
  | None =>
      id ← fetch_add_sstable_id;
      mret (MkCompactJob tables oldest id)
  end.

Definition compact_begin (env : CompactEnv) : M (option CompactJob) :=
  captured ← compact_capture env;
  match captured with
  | None => mret None
  | Some tables => j ← compact_choose env tables; mret (Some j)
  end.

(** The merge streamed into the writer.  [fuel] bounds the cursors' and the merge's loops. *)
Definition compact_write (fuel : nat) (env : CompactEnv) (j : CompactJob) : M (bytes * SstableMeta * Compact.MergeStats) :=
  cfg ← gets config;
  let cap := compaction_record_cap (lsm_bloom_bits_per_key cfg) in
  let hint := capped_bloom_hint (map (fun t => Fmt.record_count (t_footer t)) (inputs j)) cap in
  lift (ce_write env);;
  match mapM (fun t => drain fuel (range_scan_cursor t Unbounded Unbounded)) (inputs j) with
  | None => panic
  | Some cursors =>
      match Compact.merge_drain fuel (Compact.merge cursors (oldest_snapshot j)) with
      | None => panic
      | Some (records, stats) =>
          '(file, meta) ← lift_panic (write_from_sorted_records records (output_id j) (writer_config cfg) hint);
          if compaction_output_fits (m_record_count meta) cap then mret (file, meta, stats)
          else fail (Unsupported "compaction output: too many records; not committed")
      end
  end.

Fixpoint append_removes (env : CompactEnv) (ts : list SsTable) : M unit :=
  match ts with
  | [] => mret tt
  | t :: ts => append_edit (ce_remove env t) (RemoveSstable (t_id t));; append_removes env ts
  end.

Definition compact_manifest (env : CompactEnv) (j : CompactJob) (file : bytes) (meta : SstableMeta) : M unit :=
  append_edit (ce_add env) (AddSstable (output_id j) (m_min_seq meta) (m_max_seq meta) (zlen file));;
  append_removes env (inputs j).

(** The splice: [list.retain(not an input)], then the output at the front. *)
Definition compact_splice (j : CompactJob) (file : bytes) : M unit :=
  output_table ← lift (open file (output_id j));
  list ← gets sstables;
  let kept := List.filter (fun t => negb (existsb (fun i => t_id i =? t_id t) (inputs j))) list in
  modify (set_sstables (if existsb (fun t => t_id t =? output_id j) kept then kept else output_table :: kept)).

Definition compact_delete (env : CompactEnv) (j : CompactJob) : M unit :=
  modify (fun e => set_unlinked (unlinked e ++ map t_id (List.filter (fun t => negb (ce_held env t)) (inputs j))) e);;
  modify (fun e => set_pending_compaction_deletes (pending_compaction_deletes e ++ List.filter (ce_held env) (inputs j)) e).

Definition compact_stats (env : CompactEnv) (j : CompactJob) (file : bytes) (st : Compact.MergeStats) : CompactionStats :=
  let input_bytes := foldr Z.add 0 (map (fun t => zlen (t_file t)) (inputs j)) in
  {| input_sstable_count := zlen (inputs j);
     output_sstable_count := 1;
     input_bytes := input_bytes;
     output_bytes := zlen file;
     records_read := Compact.records_read st;
     records_retained := Compact.records_retained st;
     records_dropped := Compact.records_read st - Compact.records_retained st;
     tombstones_dropped := Compact.tombstones_dropped st;
     versions_dropped := Compact.versions_dropped st;
     duration := ce_duration env;
     peak_temp_disk_bytes := input_bytes + zlen file |}.

(** [CompactionRunGuard]'s [Drop] runs on every way out. *)
Definition with_run_guard {A} (c : M A) : M A := fun e => let '(e, r) := c e in (set_compaction_running false e, r).

Definition compact_once_impl (fuel : nat) (env : CompactEnv) : M (option (SstableMeta * CompactionStats)) := fun e0 =>
  let '(e, r) := compact_begin env e0 in
  let finish := if compaction_running e0 then fun c : M (option (SstableMeta * CompactionStats)) => c else with_run_guard in
  finish (fun e =>
    match r with
    | Returned None => (e, Returned None)
    | Failed x => (e, Failed x)
    | Panicked => (e, Panicked)
    | Returned (Some j) =>
        (('(file, meta, st) ← compact_write fuel env j;
          compact_manifest env j file meta;;
          compact_splice j file;;
          compact_delete env j;;
          let stats := compact_stats env j file st in
          modify (fun e => set_compaction_metrics (record_compaction_cycle (compaction_metrics e) stats) e);;
          mret (Some (meta, stats))) : M (option (SstableMeta * CompactionStats))) e
    end) e.

(** [report_compaction_failure], its operator line apart. *)
Definition report_compaction_failure (now : Z) (k : CompactionFailureKind) (msg : string) : M unit :=
  modify (fun e => set_compaction_metrics
    (record_compaction_failure (compaction_metrics e) now k msg (max_flush_retries (config e))).1 e).

(** One attempt of the worker's catch-up loop: whether it goes on at once. *)
Definition worker_attempt (fuel : nat) (env : CompactEnv) (now : Z) : M bool := fun e =>
  match compact_once_impl fuel env e with
  | (e, Returned (Some _)) => (e, Returned (compaction_trigger_count (config e) <=? zlen (sstables e)))
  | (e, Returned None) => (e, Returned false)
  | (e, Failed x) => ((report_compaction_failure now (classify x) EmptyString;; mret false) : M bool) e
  | (e, Panicked) => ((report_compaction_failure now FPanic EmptyString;; mret false) : M bool) e
  end.

(** One wake-up of the worker: nothing while blocked, otherwise attempts until one says stop; [envs] holds what the
    successive attempts meet. *)
Fixpoint worker_wake (fuel : nat) (envs : list (CompactEnv * Z)) : M unit :=
  h ← gets (fun e => health_from_u8 (health (compaction_metrics e)));
  match h, envs with
  | CBlocked, _ | _, [] => mret tt
  | _, (env, now) :: envs =>
      again ← worker_attempt fuel env now;
      if (again : bool) then worker_wake fuel envs else mret tt
  end.

(** ** A new engine *)

(** [LsmEngine::open] on an empty directory. *)
Definition engine_new (cfg : LsmConfig) : Engine :=
  {| config := cfg; wal_log := []; durable_through := 0;
     active := Mem.new (memtable_max_size_bytes cfg); immutables := []; next_arc := 0;
     sstables := []; next_sstable_id := 1; manifest_log := []; checkpoint_seq := 0; apply_tracker := tracker_new 0;
     flush_queue := []; flush_job := None; snapshot_registry := []; storage_state := storage_to_u8 Healthy;
     capacity_pressure_events := 0; storage_pressure_events := 0; flush_completions := 0;
     read_stats := ReadStats 0 0 0 0; pending_compaction_deletes := []; compaction_running := false;
     compaction_metrics := counters_default; unlinked := [] |}.
End Engine.
End Lsm.
