(* ===== verification/LsmReads.v ===== *)
(** * What the engine's reads return ([src/src/lsm/mod.rs])

    The engine answers a read from the first source that has a visible version: active memtable, frozen memtables, live
    tables, each looked at under a lock of its own.  That is right when each source dominates every later one.  [step] lists
    every step the code can take, one per lock scope; this file states the order of the sources as an invariant and shows
    that the steps keep it as long as a few conditions hold which the code does not enforce ([disciplined]): a write is
    applied before any newer version of its key is frozen, no table is installed while a compaction cycle runs, no snapshot
    is about to be registered below a cycle's floor.  A run of such steps is [orderly]; [runs_to] has no condition.
    [LsmRaces] has, for each condition, runs without it in which an acknowledged write disappears behind an older one. *)

From stdpp Require Import base list option strings sorting relations.
From Stdlib Require Import ZArith Lia.
From Stdlib Require Import Strings.Byte.
From S2P Require Import Prelude BTree EngineError Checksum WalFormat MemTable ManifestLog SsFormat Bloom Versions SsTable.
From S2P Require Import Compaction LsmTrack LsmEngine.

Module Reads.
Import Sst Track Lsm.

(** ** Sources in order *)

(** Whenever [a] has a visible version of a key, no version of it visible in [b] is newer. *)
Definition dominates (a b : list item) : Prop :=
  forall key as_of s v s' v', newest a key as_of = Some (s, v) -> In (key, s', v') b -> s' <= as_of -> s' <= s.

Definition ordered (ls : list (list item)) : Prop := StronglySorted dominates ls.

(** The answer of the first source that has one. *)
Fixpoint first_newest (ls : list (list item)) (key : bytes) (as_of : Z) : option (Z * RecordValue) :=
  match ls with
  | [] => None
  | l :: ls => match newest l key as_of with Some r => Some r | None => first_newest ls key as_of end
  end.

Lemma dominates_incl a b b' : dominates a b' -> incl b b' -> dominates a b.
Proof. intros Hd Hi key as_of s v s' v' E Hin. by apply (Hd key as_of s v s' v' E), Hi. Qed.

Lemma dominates_of_incl a b : incl b a -> dominates a b.
Proof. intros Hi key as_of s v s' v' (_ & _ & Hmax)%newest_Some Hin. by eapply Hmax, Hi. Qed.

Lemma dominates_concat a bs : Forall (dominates a) bs -> dominates a (concat bs).
Proof.
  intros Hb key as_of s v s' v' E (b & Hin & Hb')%in_concat. rewrite List.Forall_forall in Hb.
  by apply (Hb b Hin key as_of s v s' v' E).
Qed.

Lemma dominates_concat_inv a bs : dominates a (concat bs) -> Forall (dominates a) bs.
Proof.
  intros Hd. apply List.Forall_forall. intros b Hb. apply (dominates_incl a b (concat bs) Hd).
  intros i Hi. apply in_concat. eauto.
Qed.

Lemma first_newest_ordered ls key as_of : ordered ls -> first_newest ls key as_of = newest (concat ls) key as_of.
Proof.
  induction 1 as [|l ls Hs IH Hall]; [done|]. cbn [first_newest concat]. rewrite newest_app, IH.
  apply dominates_concat in Hall. destruct (newest l key as_of) as [[s v]|] eqn:E; [|done].
  destruct (newest (concat ls) key as_of) as [[s' v']|] eqn:E'; [|done].
  apply newest_Some in E' as (Hin & Hle & _). specialize (Hall _ _ _ _ _ _ E Hin Hle). simpl. by cmp_lia.
Qed.

Lemma ordered_app ls ls' :
  ordered (ls ++ ls') <-> ordered ls /\ ordered ls' /\ Forall (fun a => Forall (dominates a) ls') ls.
Proof.
  induction ls as [|l ls IH]; simpl.
  - split; [intros; split_and!; [constructor|done|constructor]|by intros (_ & ? & _)].
  - split.
    + intros [H1 H2]%StronglySorted_inv. apply IH in H1 as (? & ? & ?). apply Forall_app in H2 as [? ?].
      split_and!; [by constructor|done|by constructor].
    + intros (H1 & H2 & H3). apply StronglySorted_inv in H1 as [? ?]. inversion_clear H3.
      constructor; [by apply IH|]. by apply Forall_app.
Qed.

(** ** The engine's sources *)

Section Reads.
Context `{Crc32c, Xxh64}.

Definition mem_sources (e : Engine) : list (list item) :=
  flush_items (active e) :: map (fun m => flush_items m.2) (immutables e).

Definition sources (e : Engine) (recss : list (list item)) : list (list item) := mem_sources e ++ recss.

Definition value_of (o : option (Z * RecordValue)) : option bytes := o ≫= (fun p => resolve_sstable p.2).

Lemma resolve_of_memtable v : resolve_sstable (of_memtable_value v) = resolve v.
Proof. by destruct v. Qed.

Definition mems_wf (e : Engine) : Prop := Mem.wf (active e) /\ Forall (fun m => Mem.wf m.2) (immutables e).

Lemma first_immutable_newest imms key as_of :
  Forall (fun m : nat * Mem.MemTable => Mem.wf m.2) imms -> 0 <= as_of ->
  first_newest (map (fun m => flush_items m.2) imms) key as_of =
    (fun p => (p.1, of_memtable_value p.2)) <$> first_immutable imms key as_of.
Proof.
  intros Hw Ha. induction Hw as [|m imms Hm Hw IH]; [done|]. cbn [map first_newest first_immutable].
  rewrite newest_flush by done. by destruct (Mem.get_as_of m.2 key as_of).
Qed.

Lemma first_newest_app ls ls' key as_of :
  first_newest (ls ++ ls') key as_of =
    match first_newest ls key as_of with Some r => Some r | None => first_newest ls' key as_of end.
Proof. induction ls as [|l ls IH]; [done|]. cbn [app first_newest]. rewrite IH. by destruct (newest l key as_of). Qed.

Lemma first_table_newest tables recss key as_of e :
  Forall2 represents tables recss ->
  exists c, first_table tables key as_of e = (set_read_stats c e, Returned (value_of (first_newest recss key as_of))).
Proof.
  intros Ht. revert e. induction Ht as [|t recs ts rs Ht Hts IH]; intros e.
  - eexists. by destruct e.
  - cbn [first_table first_newest]. unfold mbind, bind, bump, modify. rewrite (represents_get t recs) by done.
    cbn [lift_panic lift]. destruct (newest recs key as_of) as [[s v]|].
    + eexists. by destruct e.
    + match goal with |- context [first_table ts key as_of ?e1] => destruct (IH e1) as (c & ->) end.
      exists c. by destruct e.
Qed.

(** What the three scopes of a read answer; each changes nothing but the read counters. *)
Lemma read_active_newest e key as_of :
  Mem.wf (active e) -> 0 <= as_of ->
  exists c, read_active key as_of e =
    (set_read_stats c e, Returned ((fun p => resolve_sstable p.2) <$> newest (flush_items (active e)) key as_of)).
Proof.
  intros Ha Has. rewrite newest_flush by done. unfold read_active, mbind, bind, bump, modify, gets. cbn [active set_read_stats].
  destruct (Mem.get_as_of (active e) key as_of) as [[s v]|]; eexists; simpl; [|done]. by rewrite resolve_of_memtable.
Qed.

Lemma read_immutables_newest e key as_of :
  Forall (fun m => Mem.wf m.2) (immutables e) -> 0 <= as_of ->
  exists c, read_immutables key as_of e =
    (set_read_stats c e, Returned ((fun p => resolve_sstable p.2) <$> first_newest (map (fun m => flush_items m.2) (immutables e)) key as_of)).
Proof.
  intros Hi Has. rewrite first_immutable_newest by done. unfold read_immutables, mbind, bind, bump, modify, gets.
  destruct (first_immutable (immutables e) key as_of) as [[s v]|]; simpl.
  - eexists. by rewrite resolve_of_memtable.
  - exists (read_stats e). by destruct e.
Qed.

Lemma read_sstables_newest e recss key as_of :
  Forall2 represents (sstables e) recss ->
  exists c, read_sstables key as_of e = (set_read_stats c e, Returned (value_of (first_newest recss key as_of))).
Proof. intros Ht. unfold read_sstables, mbind, bind, gets. by apply first_table_newest. Qed.

(** A whole read with nothing between its scopes returns what the first source holds. *)
Lemma get_as_of_first e recss key as_of :
  mems_wf e -> Forall2 represents (sstables e) recss -> 0 <= as_of ->
  exists c, get_as_of key as_of e = (set_read_stats c e, Returned (value_of (first_newest (sources e recss) key as_of))).
Proof.
  intros [Ha Hi] Ht Has. unfold sources, mem_sources. rewrite first_newest_app. cbn [first_newest].
  unfold get_as_of, mbind, bind. destruct (read_active_newest e key as_of Ha Has) as (c1 & ->).
  destruct (newest (flush_items (active e)) key as_of) as [[s v]|]; [eexists; reflexivity|]. cbv [fmap option_fmap option_map].
  destruct (read_immutables_newest (set_read_stats c1 e) key as_of Hi Has) as (c2 & ->). cbn [immutables set_read_stats].
  destruct (first_newest (map _ (immutables e)) key as_of) as [[s v]|]; [eexists; reflexivity|]. cbv [fmap option_fmap option_map].
  destruct (read_sstables_newest (set_read_stats c2 (set_read_stats c1 e)) recss key as_of Ht) as (c3 & ->). by eexists.
Qed.

(** Whatever the state, the scopes of a read move the read counters only. *)
Lemma read_active_stats key as_of e : exists c, (read_active key as_of e).1 = set_read_stats c e.
Proof.
  unfold read_active, mbind, bind, bump, modify, gets. simpl. destruct (Mem.get_as_of _ _ _) as [[s v]|]; by eexists.
Qed.

Lemma read_immutables_stats key as_of e : exists c, (read_immutables key as_of e).1 = set_read_stats c e.
Proof.
  unfold read_immutables, mbind, bind, bump, modify, gets. destruct (first_immutable _ _ _) as [[s v]|]; simpl; [by eexists|].
  exists (read_stats e). by destruct e.
Qed.

Lemma first_table_stats ts key as_of e : exists c, (first_table ts key as_of e).1 = set_read_stats c e.
Proof.
  revert e. induction ts as [|t ts IH]; intros e; [by eexists|]. cbn [first_table]. unfold mbind, bind, bump, modify, lift_panic, lift.
  destruct (get_versioned t key as_of) as [[[[s v]|]|x]|]; simpl; try by eexists.
  match goal with |- context [first_table ts key as_of ?e1] => destruct (IH e1) as (c & ->) end. by exists c.
Qed.

Lemma read_sstables_stats key as_of e : exists c, (read_sstables key as_of e).1 = set_read_stats c e.
Proof. unfold read_sstables, mbind, bind, gets. apply first_table_stats. Qed.

(** [contains] is [get_as_of] reduced to presence, on every state, errors and panics included. *)
Lemma contains_get key as_of e :
  contains key as_of e =
    let '(e', r) := get_as_of key as_of e in
    (e', match r with Returned v => Returned (bool_decide (is_Some v)) | Failed x => Failed x | Panicked => Panicked end).
Proof.
  assert (forall ts e, first_table_contains ts key as_of e =
    let '(e', r) := first_table ts key as_of e in
    (e', match r with Returned v => Returned (bool_decide (is_Some v)) | Failed x => Failed x | Panicked => Panicked end)) as Ht.
  { induction ts as [|t ts IH]; intros e0; [done|]. cbn [first_table first_table_contains].
    unfold mbind, bind, bump, modify. rewrite contains_versioned_get.
    destruct (get_versioned t key as_of) as [[[[s v]|]|x]|]; simpl; try done. by destruct v. }
  unfold contains, contains_active, contains_immutables, contains_sstables, get_as_of, read_active, read_immutables, read_sstables.
  unfold mbind, bind, bump, modify, gets. simpl.
  destruct (Mem.get_as_of (active e) key as_of) as [[s v]|]; [by destruct v|]. simpl.
  destruct (first_immutable (immutables e) key as_of) as [[s v]|]; [by destruct v|]. simpl. apply Ht.
Qed.

(** ** Runs of the engine *)

(** What the abstract store knows beside the engine's own state: every version ever applied; the sequence number from
    which reads are answered exactly; how far the flush thread is with its memtable; how far the compaction cycle is, with
    the floor its output will have; and the watermarks that a [snapshot] call has read and not registered yet. *)
Inductive phase : Type :=
| PFresh
| PInstalled
| PDropped.

Inductive cycle_phase : Type :=
| Idle
| Captured (tables : list SsTable)
| Chosen (j : CompactJob) (f : Z)
| Spliced (j : CompactJob).

Record Ghost : Type := MkGhost {
  log : list item;
  floor : Z;
  flush_phase : phase;
  cycle : cycle_phase;
  taken : list Z
}.

(** The versions a batch writes: of several operations on one key the last wins. *)
Definition op_item (seq : Z) (op : WriteOp) : item :=
  match op with WPut k v => (k, seq, RPut v) | WDelete k => (k, seq, RTombstone) end.

Fixpoint batch_items (seq : Z) (ops : list WriteOp) : list item :=
  match ops with
  | [] => []
  | op :: ops =>
      let rest := batch_items seq ops in
      if existsb (fun i => eqb i.1.1 (op_kv op).1) rest then rest else op_item seq op :: rest
  end.

(** No frozen memtable and no live table holds a version of [key] at or above [seq]. *)
Definition frozen_before (e : Engine) (key : bytes) (seq : Z) : Prop :=
  (forall m s v, In m (immutables e) -> In ((key, s), v) (Mem.map m.2) -> s < seq) /\
  (forall t recs s v, In t (sstables e) -> represents t recs -> In (key, s, v) recs -> s < seq).

(** [new] carries one sequence number that no applied version has. *)
Definition fresh_seq (g : Ghost) (seq : Z) : Prop := forall i, In i (log g) -> i.1.2 <> seq.

Definition add_log (new : list item) (g : Ghost) : Ghost := MkGhost (log g ++ new) (floor g) (flush_phase g) (cycle g) (taken g).
Definition set_phase (p : phase) (g : Ghost) : Ghost := MkGhost (log g) (floor g) p (cycle g) (taken g).
Definition set_cycle (c : cycle_phase) (g : Ghost) : Ghost := MkGhost (log g) (floor g) (flush_phase g) c (taken g).
Definition set_floor (f : Z) (g : Ghost) : Ghost := MkGhost (log g) f (flush_phase g) (cycle g) (taken g).
Definition set_taken (l : list Z) (g : Ghost) : Ghost := MkGhost (log g) (floor g) (flush_phase g) (cycle g) l.

Fixpoint remove_one (s : Z) (l : list Z) : list Z :=
  match l with
  | [] => []
  | x :: l => if x =? s then l else x :: remove_one s l
  end.

(** The floor of a cycle that reads the registry now: the oldest live snapshot, or everything durable when there is none. *)
Definition floor_now (e : Engine) : Z :=
  match oldest (snapshot_registry e) with Some o => o | None => durable_through e end.

(** With enough fuel the cycle's output is [file]. *)
Definition writes_output (env : CompactEnv) (e : Engine) (j : CompactJob) (file : bytes) : Prop :=
  exists N meta st, forall fuel, (N < fuel)%nat -> compact_write fuel env j e = (e, Returned (file, meta, st)).

Definition config_ok (cfg : LsmConfig) : Prop :=
  sstable_target_block_size cfg <= 2 ^ 31 /\ 0 <= lsm_bloom_bits_per_key cfg <= 2 ^ 31.

(** What a thread does under one lock.  A write is acknowledged by the group commit, which moves the watermark, and then
    applied; the scopes of a read and of [snapshot] are separate; so are the steps of the flush thread and of a compaction
    cycle. *)
Inductive Action : Type :=
| ADurable (n : Z)
| AApply (key : bytes) (seq : Z) (v : Mem.MemtableValue)
| ABatch (ops : list WriteOp) (seq : Z)
| AReadActive (key : bytes) (as_of : Z)
| AReadImmutables (key : bytes) (as_of : Z)
| AReadSstables (key : bytes) (as_of : Z)
| AScanCounters (c : ReadStatCounters)
| ASnapshotRead
| ASnapshotRegister (seq : Z)
| ASnapshotDrop (seq : Z)
| AFlushRecv
| AFlushPublish (env : FlushEnv)
| AFlushInstall
| AFlushMarker (env : FlushEnv)
| AFlushCheckpoint (env : FlushEnv) (position : WalPosition)
| AFlushDrop (env : FlushEnv)
| AFlushResult (r : outcome unit)
| ACompactCapture (env : CompactEnv)
| ACompactChoose (env : CompactEnv)
| ACompactManifest (env : CompactEnv) (file : bytes) (meta : SstableMeta)
| ACompactSplice (env : CompactEnv) (file : bytes)
| ACompactDelete (env : CompactEnv)
| ACompactEnd.

(** Every step the code can take.  The guards are the program order of each thread and what the group commit grants: a
    write is applied under a sequence number of its own, after it is durable. *)
Inductive step (e : Engine) (g : Ghost) : Action -> Engine -> Ghost -> Prop :=
| step_durable n : durable_through e <= n -> step e g (ADurable n) (set_durable_through n e) g
| step_apply key seq v :
    is_u64 seq -> seq <= durable_through e -> fresh_seq g seq ->
    step e g (AApply key seq v) (apply_after_durable key seq v e).1 (add_log [(key, seq, of_memtable_value v)] g)
| step_batch ops seq :
    is_u64 seq -> seq <= durable_through e -> fresh_seq g seq ->
    step e g (ABatch ops seq) (apply_batch_after_durable ops seq e).1 (add_log (batch_items seq ops) g)
| step_read_active key as_of : step e g (AReadActive key as_of) (read_active key as_of e).1 g
| step_read_immutables key as_of : step e g (AReadImmutables key as_of) (read_immutables key as_of e).1 g
| step_read_sstables key as_of : step e g (AReadSstables key as_of) (read_sstables key as_of e).1 g
| step_scan_counters c : step e g (AScanCounters c) (set_read_stats c e) g
| step_snapshot_read : step e g ASnapshotRead (snapshot_seq e).1 (set_taken (durable_through e :: taken g) g)
| step_snapshot_register seq :
    In seq (taken g) ->
    step e g (ASnapshotRegister seq) (snapshot_register seq e).1 (set_taken (remove_one seq (taken g)) g)
| step_snapshot_drop seq : step e g (ASnapshotDrop seq) (snapshot_drop seq e).1 g
| step_flush_recv : flush_job e = None -> step e g AFlushRecv (flush_recv e).1 (set_phase PFresh g)
| step_flush_publish env j : flush_job e = Some j -> step e g (AFlushPublish env) (flush_publish env j e).1 g
| step_flush_install j p :
    flush_job e = Some j -> published j = Some p ->
    step e g AFlushInstall (flush_install p e).1
      (match flush_phase g, (flush_install p e).2 with PFresh, Returned _ => set_phase PInstalled g | _, _ => g end)
| step_flush_marker env j : flush_job e = Some j -> step e g (AFlushMarker env) (flush_marker env j e).1 g
| step_flush_checkpoint env j p : flush_job e = Some j -> step e g (AFlushCheckpoint env p) (flush_checkpoint env j p e).1 g
| step_flush_drop env j :
    flush_job e = Some j -> flush_phase g <> PFresh ->
    step e g (AFlushDrop env) (flush_drop env j e).1 (set_phase PDropped g)
| step_flush_done r : flush_phase g = PDropped -> step e g (AFlushResult (Returned r)) (flush_result (Returned r) e).1 g
| step_flush_retry r : (forall a, r <> Returned a) -> step e g (AFlushResult r) (flush_result r e).1 g
| step_compact_capture env e' tables :
    cycle g = Idle -> compact_capture env e = (e', Returned (Some tables)) ->
    step e g (ACompactCapture env) e' (set_cycle (Captured tables) g)
| step_compact_choose env e' j :
    cycle g = Captured (inputs j) -> compact_choose env (inputs j) e = (e', Returned j) ->
    step e g (ACompactChoose env) e' (set_cycle (Chosen j (floor_now e)) g)
| step_compact_manifest env j f file meta :
    cycle g = Chosen j f -> step e g (ACompactManifest env file meta) (compact_manifest env j file meta e).1 g
| step_compact_splice env j f file :
    cycle g = Chosen j f -> writes_output env e j file ->
    step e g (ACompactSplice env file) (compact_splice j file e).1 (set_cycle (Spliced j) (set_floor (Z.max (floor g) f) g))
| step_compact_delete env j : cycle g = Spliced j -> step e g (ACompactDelete env) (compact_delete env j e).1 g
| step_compact_end : step e g ACompactEnd (set_compaction_running false e) (set_cycle Idle g).

(** What the read theorems ask of a run and the code does not enforce: a write is applied before any newer version of its
    key has been frozen; the table a flush installs was written, under an id no live table has, and is still live when an
    attempt is retried; a cycle reads the registry while no [snapshot] call is about to register an older watermark; no
    table was installed since the cycle captured its inputs, which fit one table. *)
Definition disciplined (a : Action) (e : Engine) (g : Ghost) : Prop :=
  match a with
  | AApply key seq _ => frozen_before e key seq
  | ABatch ops seq => Forall (fun op => frozen_before e (op_kv op).1 seq) ops
  | AFlushPublish _ => forall j, flush_job e = Some j ->
      writable (writer_config (config e)) (Mem.entry_count (frozen j).2) (flush_items (frozen j).2)
  | AFlushInstall => forall j p, flush_job e = Some j -> published j = Some p ->
      match flush_phase g with
      | PFresh => forall t, In t (sstables e) -> t_id t <> p.1.1
      | _ => exists t, In t (sstables e) /\ t_id t = p.1.1
      end
  | ACompactChoose _ => forall s, In s (taken g) -> floor_now e <= s
  | ACompactSplice _ _ => forall j f, cycle g = Chosen j f ->
      sstables e = inputs j /\
      forall recss, Forall2 represents (inputs j) recss ->
        zlen (concat recss) <= Bloom.max_record_count_for_bloom_cap Fmt.DEFAULT_BLOOM_BITS_PER_KEY
  | _ => True
  end.

(** Runs: any, and those that keep the discipline. *)
Definition State : Type := Engine * Ghost.

Definition any_step (x y : State) : Prop := exists a, step x.1 x.2 a y.1 y.2.
Definition orderly_step (x y : State) : Prop := exists a, step x.1 x.2 a y.1 y.2 /\ disciplined a x.1 x.2.

Definition runs_to : State -> State -> Prop := rtc any_step.
Definition orderly : State -> State -> Prop := rtc orderly_step.

(** ** The invariant *)

Definition job_arcs (e : Engine) (p : phase) : list (nat * Mem.MemTable) :=
  match flush_job e, p with
  | Some j, (PFresh | PInstalled) => [frozen j]
  | _, _ => []
  end.

Record tables_ok (e : Engine) (g : Ghost) (recss : list (list item)) : Prop := {
  to_rep : Forall2 represents (sstables e) recss;
  to_valid : Forall item_valid (concat recss);
  to_ordered : ordered (sources e recss);
  to_log : incl (concat (sources e recss)) (log g);
  to_reads : forall key as_of, floor g <= as_of -> newest (concat (sources e recss)) key as_of = newest (log g) key as_of;
  to_covered : forall j key as_of, flush_job e = Some j -> flush_phase g = PInstalled -> floor g <= as_of ->
    newest (flush_items (frozen j).2 ++ concat recss) key as_of = newest (concat recss) key as_of
}.

(** Every version in [tables] has a sequence number of at most [n]. *)
Definition versions_below (tables : list SsTable) (n : Z) : Prop :=
  forall t recs i, In t tables -> represents t recs -> In i recs -> i.1.2 <= n.

Definition cycle_ok (e : Engine) (g : Ghost) : Prop :=
  match cycle g with
  | Idle | Spliced _ => True
  | Captured tables => versions_below tables (durable_through e)
  | Chosen j f =>
      f <= durable_through e /\
      (forall s n, In (s, n) (snapshot_registry e) -> f <= s) /\
      (forall s, In s (taken g) -> f <= s) /\
      match oldest_snapshot j with Some o => f = o | None => versions_below (inputs j) f end
  end.

Record inv (e : Engine) (g : Ghost) : Prop := {
  in_config : config_ok (config e);
  in_mems : mems_wf e;
  in_tables : exists recss, tables_ok e g recss;
  in_uniq : uniq (log g);
  in_seq : forall i, In i (log g) -> 0 <= i.1.2 <= durable_through e;
  in_floor : 0 <= floor g <= durable_through e;
  in_registry : bt_sorted (snapshot_registry e);
  in_live : forall s n, In (s, n) (snapshot_registry e) -> floor g <= s <= durable_through e;
  in_arcs : NoDup (map fst (immutables e)) /\ (forall m, In m (immutables e) -> (m.1 < next_arc e)%nat);
  in_queue : immutables e = rev (map fst (flush_queue e)) ++ job_arcs e (flush_phase g);
  in_job : forall j, flush_job e = Some j ->
    (Mem.wf (frozen j).2 /\ (frozen j).1 < next_arc e)%nat /\
    (flush_phase g = PDropped -> ~ In (frozen j).1 (map fst (immutables e)));
  in_published : forall j id file meta, flush_job e = Some j -> published j = Some (id, file, meta) ->
    Forall item_valid (flush_items (frozen j).2) /\
    exists t, open file id = Ok t /\ represents t (flush_items (frozen j).2);
  in_taken : forall s, In s (taken g) -> floor g <= s <= durable_through e;
  in_cycle : cycle_ok e g
}.

(** Only these parts of the engine matter to the invariant. *)
Lemma inv_frame e e' g :
  config e' = config e -> active e' = active e -> immutables e' = immutables e -> next_arc e' = next_arc e ->
  sstables e' = sstables e -> durable_through e <= durable_through e' -> flush_queue e' = flush_queue e ->
  flush_job e' = flush_job e -> snapshot_registry e' = snapshot_registry e -> inv e g -> inv e' g.
Proof.
  intros E1 E2 E3 E4 E5 E6 E7 E8 E9 [H1 H2 (recss & [H3a H3b H3c H3d H3e H3f]) H4 H5 H6 H7 H8 H9 H10 Hjob H11 Htk H12].
  split; unfold mems_wf, job_arcs in *; rewrite ?E1, ?E2, ?E3, ?E4, ?E5, ?E7, ?E8, ?E9 in *; try done.
  - exists recss. unfold sources, mem_sources in *. split; unfold sources, mem_sources in *; rewrite ?E2, ?E3, ?E5, ?E8 in *; done.
  - intros i Hi. specialize (H5 i Hi). lia.
  - lia.
  - intros s n Hs. specialize (H8 s n Hs). lia.
  - intros s Hs. specialize (Htk s Hs). lia.
  - unfold cycle_ok in *. rewrite E9. destruct (cycle g) as [|tables|j f|j]; [done| | |done].
    + intros t recs i Ht Hr Hi. specialize (H12 t recs i Ht Hr Hi). lia.
    + destruct H12 as (? & ? & ? & ?). split_and!; [lia|done..].
Qed.

(** A table's records are what its cursor yields, so they are determined. *)
Lemma represents_fun t recs recs' : represents t recs -> represents t recs' -> recs = recs'.
Proof.
  intros [n Hn]%Compact.represents_scan_all [n' Hn']%Compact.represents_scan_all.
  specialize (Hn (S (n + n'))). specialize (Hn' (S (n + n'))). rewrite Hn in Hn' by lia.
  injection (Hn' ltac:(lia)) as E. clear -E. revert recs' E. induction recs as [|r recs IH]; intros [|r' recs'] E; try done.
  injection E as -> E. f_equal. by apply IH.
Qed.

(** ** Writes *)

Lemma In_flush_items m k s v : In (k, s, v) (flush_items m) <-> exists v0, In ((k, s), v0) (Mem.map m) /\ v = of_memtable_value v0.
Proof.
  unfold flush_items. rewrite in_map_iff. split.
  - intros ([[k' s'] v0] & [= -> -> <-] & Hin). eauto.
  - intros (v0 & Hin & ->). exists ((k, s), v0). done.
Qed.

Lemma In_flush_insert m key seq v i :
  Mem.wf m ->
  In i (flush_items (Mem.insert m key seq v)) <->
    i = (key, seq, of_memtable_value v) \/ (i.1 <> (key, seq) /\ In i (flush_items m)).
Proof.
  intros Hm. destruct i as [[k s] u]. rewrite !In_flush_items. cbn [fst]. split.
  - intros (v0 & [(-> & -> & ->)|[Hne Hin]]%Mem.In_insert & ->); [by left| |done]. right. split; [naive_solver|eauto].
  - intros [[= -> -> ->]|[Hne (v0 & Hin & ->)]].
    + exists v. split; [|done]. apply Mem.In_insert; auto.
    + exists v0. split; [|done]. apply Mem.In_insert; [done|]. right. naive_solver.
Qed.

Definition op_value (op : WriteOp) : Mem.MemtableValue :=
  match op with WPut _ v => Mem.MPut v | WDelete _ => Mem.MTombstone end.

Lemma apply_op_insert m seq op :
  (let '(key, value) := op_kv op in apply_kv_to_memtable m seq key value) = Mem.insert m (op_kv op).1 seq (op_value op).
Proof. by destruct op. Qed.

Lemma op_item_value seq op : op_item seq op = ((op_kv op).1, seq, of_memtable_value (op_value op)).
Proof. by destruct op. Qed.

Lemma batch_items_spec seq ops i :
  In i (batch_items seq ops) -> i.1.2 = seq /\ exists op, In op ops /\ (op_kv op).1 = i.1.1.
Proof.
  revert i. induction ops as [|op ops IH]; intros i; [done|]. simpl. destruct (existsb _ _).
  - intros (? & op' & ? & ?)%IH. eauto 6.
  - intros [<-|(? & op' & ? & ?)%IH]; [|eauto 6]. rewrite op_item_value. eauto.
Qed.

Lemma existsb_key (l : list item) k : existsb (fun i => eqb i.1.1 k) l = true <-> exists i, In i l /\ i.1.1 = k.
Proof. rewrite existsb_exists. split; intros (i & Hin & Hk); exists i; (split; [done|]); by apply eqb_eq. Qed.

(** A batch leaves the memtable with its last operation per key, and everything else as it was. *)
Lemma apply_batch_items ops seq m :
  Mem.wf m -> is_u64 seq ->
  let m' := fold_left (fun m op => let '(key, value) := op_kv op in apply_kv_to_memtable m seq key value) ops m in
  Mem.wf m' /\
  (forall i, In i (flush_items m') <->
     In i (batch_items seq ops) \/ (In i (flush_items m) /\ ~ (i.1.2 = seq /\ exists op, In op ops /\ (op_kv op).1 = i.1.1))).
Proof.
  intros Hm Hs. revert m Hm. induction ops as [|op ops IH]; intros m Hm; simpl.
  - split; [done|]. naive_solver.
  - rewrite apply_op_insert. destruct (IH (Mem.insert m (op_kv op).1 seq (op_value op))) as [Hw Hi].
    { by apply Mem.insert_wf. }
    split; [done|]. intros i. rewrite Hi, In_flush_insert by done.
    destruct (existsb _ (batch_items seq ops)) eqn:E.
    + apply existsb_key in E as (i0 & Hi0 & Hk). pose proof (batch_items_spec _ _ _ Hi0) as (Hs0 & op0 & Hop0 & Hk0).
      split.
      * intros [?|[[->|[Hne Hin]] Hn]]; [by left| |].
        -- exfalso. apply Hn. simpl. split; [done|]. exists op0. by rewrite Hk0.
        -- right. split; [done|]. intros (Hq & op1 & [<-|Hop1] & Hk1); apply Hn; [|eauto].
           split; [done|]. exists op0. split; [done|]. congruence.
      * intros [?|[Hin Hn]]; [by left|]. right. split.
        -- right. split; [|done]. intros Hq. apply Hn. rewrite Hq. simpl. split; [done|]. exists op. auto.
        -- intros (Hq & op1 & Hop1 & Hk1). apply Hn. split; [done|]. exists op1. auto.
    + assert (forall op1, In op1 ops -> (op_kv op1).1 <> (op_kv op).1) as Hno.
      { intros op1 Hop1 Hk1. assert (exists i, In i (batch_items seq ops) /\ i.1.1 = (op_kv op).1) as Hex.
        { clear -Hop1 Hk1. induction ops as [|op2 ops IH]; [done|]. simpl.
          destruct (existsb _ (batch_items seq ops)) eqn:E2.
          - destruct Hop1 as [->|Hop1]; [|by apply IH]. apply existsb_key in E2 as (i & Hin & Hi). exists i. split; [done|congruence].
          - destruct Hop1 as [->|Hop1].
            + exists (op_item seq op1). split; [by left|]. by rewrite op_item_value.
            + destruct (IH Hop1) as (i & Hin & Hi). exists i. split; [by right|done]. }
        apply existsb_key in Hex. congruence. }
      simpl. rewrite op_item_value. split.
      * intros [?|[[->|[Hne Hin]] Hn]]; [by left; right|by left; left|].
        right. split; [done|]. intros (Hq & op1 & [<-|Hop1] & Hk1); [|apply Hn; eauto].
        apply Hne. destruct i as [[k s] u]. simpl in *. congruence.
      * intros [[<-|?]|[Hin Hn]]; [|by left|].
        -- right. split; [by left|]. simpl. intros (_ & op1 & Hop1 & Hk1). by apply (Hno op1 Hop1).
        -- right. split; [right; split; [|done]|].
           ++ intros Hq. apply Hn. rewrite Hq. simpl. split; [done|]. exists op. auto.
           ++ intros (Hq & op1 & Hop1 & Hk1). apply Hn. split; [done|]. exists op1. auto.
Qed.

Lemma batch_items_uniq seq ops : uniq (batch_items seq ops).
Proof.
  induction ops as [|op ops IH]; [by intros ????|]. simpl. destruct (existsb _ (batch_items seq ops)) eqn:E; [done|].
  assert (forall i, In i (batch_items seq ops) -> i.1.1 <> (op_kv op).1) as Hno.
  { intros i Hi Hk. assert (existsb (fun i => eqb i.1.1 (op_kv op).1) (batch_items seq ops) = true); [|congruence].
    apply existsb_key. eauto. }
  rewrite op_item_value. intros k s v v' [E1|H1] [E2|H2].
  - congruence.
  - injection E1 as <- <- <-. by apply Hno in H2.
  - injection E2 as <- <- <-. by apply Hno in H1.
  - by eapply IH.
Qed.

Lemma frozen_before_source e recss key seq b s v :
  Forall2 represents (sstables e) recss -> frozen_before e key seq ->
  In b (map (fun m => flush_items m.2) (immutables e) ++ recss) -> In (key, s, v) b -> s < seq.
Proof.
  intros Hrep [Hm Ht] [(m & <- & Hin)%in_map_iff|Hin]%in_app_iff Hi.
  - apply In_flush_items in Hi as (v0 & Hi & _). by apply (Hm m s v0).
  - apply list_elem_of_In, list_elem_of_lookup_1 in Hin as [n Hn].
    destruct (Forall2_lookup_r _ _ _ _ _ Hrep Hn) as (t & Ht' & Hr).
    apply (Ht t b s v); [|done|done]. eapply list_elem_of_In, list_elem_of_lookup_2. done.
Qed.

(** New versions under a fresh sequence number enter the active memtable. *)
Lemma inv_extend e g m' new seq :
  inv e g -> Mem.wf m' -> is_u64 seq -> seq <= durable_through e -> fresh_seq g seq ->
  (forall i, In i new -> i.1.2 = seq /\ frozen_before e i.1.1 seq) -> uniq new ->
  (forall i, In i (flush_items m') <-> In i new \/ In i (flush_items (active e))) ->
  inv (set_active m' e) (add_log new g).
Proof.
  intros [H1 H2 (recss & [H3a H3b H3c H3d H3e H3f]) H4 H5 H6 H7 H8 H9 H10 Hjob H11 Htk H12] Hw Hu Hd Hf Hnew Hun Hi.
  assert (uniq (log g ++ new)) as Hul.
  { intros k s v v' [Ha|Ha]%in_app_iff [Hb|Hb]%in_app_iff; [by eapply H4| | |by eapply Hun].
    - destruct (Hnew _ Hb) as [Es _]. by destruct (Hf _ Ha).
    - destruct (Hnew _ Ha) as [Es _]. by destruct (Hf _ Hb). }
  set (rest := map (fun m => flush_items m.2) (immutables e) ++ recss) in *.
  assert (sources e recss = flush_items (active e) :: rest) as Esrc by done.
  assert (sources (set_active m' e) recss = flush_items m' :: rest) as Esrc' by done.
  assert (forall i, In i (concat (sources (set_active m' e) recss)) <-> In i (concat (sources e recss) ++ new)) as Hset.
  { intros i. rewrite Esrc, Esrc'. simpl. rewrite !in_app_iff, Hi. tauto. }
  split; try done.
  - destruct H2. done.
  - exists recss. split; try done.
    + rewrite Esrc'. rewrite Esrc in H3c. apply StronglySorted_inv in H3c as [Hs Hall]. constructor; [done|].
      rewrite List.Forall_forall in *. intros b Hb key as_of s v s' v' (Hin & Hle & Hmax)%newest_Some Hin' Hle'.
      destruct (Z.le_gt_cases s' s) as [|Hgt]; [done|exfalso].
      apply Hi in Hin as [Hin|Hin].
      * destruct (Hnew _ Hin) as [Es Hfb]. simpl in *. pose proof (frozen_before_source _ _ _ _ _ _ _ H3a Hfb Hb Hin'). lia.
      * assert (newest (flush_items (active e)) key as_of = Some (s, v)) as En.
        { apply newest_iff; [apply bt_sorted_uniq, flush_items_sorted, H2|]. split_and!; [done|done|].
          intros s1 v1 Hin1 Hle1. eapply Hmax; [|done]. apply Hi. by right. }
        pose proof (Hall b Hb key as_of s v s' v' En Hin' Hle'). lia.
    + intros i Hin%Hset. unfold add_log; simpl. apply in_app_iff in Hin as [?|?]; apply in_app_iff; [left; by apply H3d|by right].
    + intros key as_of Hge. cbn [add_log log]. rewrite (newest_app (log g)), <- (H3e key as_of Hge), <- newest_app.
      assert (incl (concat (sources e recss) ++ new) (log g ++ new)) as Hincl.
      { intros i [?|?]%in_app_iff; apply in_app_iff; [left; by apply H3d|by right]. }
      apply newest_ext; [|intros; apply Hset|by eapply uniq_incl].
      apply (uniq_incl (log g ++ new)); [|done]. intros i ?%Hset. by apply Hincl.
  - intros i [Hin|Hin]%in_app_iff; [by apply H5|]. destruct (Hnew _ Hin) as [-> _]. unfold_ints. simpl. lia.
Qed.

Lemma inv_freeze e g : inv e g -> inv (freeze_locked e).1 g.
Proof.
  intros He. unfold freeze_locked, mbind, bind, gets, modify. destruct (_ <=? _).
  - by apply (inv_frame e).
  - destruct He as [H1 [Hwa Hwi] (recss & [H3a H3b H3c H3d H3e H3f]) H4 H5 H6 H7 H8 [H9a H9b] H10 Hjob H11 Htk H12]. simpl.
    split; try done.
    + split; [apply Mem.new_wf|]. by constructor.
    + exists recss. split; try done. unfold ordered, sources, mem_sources in *. simpl in *. constructor; [done|].
      constructor; [|apply StronglySorted_inv in H3c as [_ Hall]; eapply Forall_impl; [exact Hall|]]; by intros ? ? *.
    + split; simpl.
      * constructor; [|done]. intros (m & Em & Hin)%list_elem_of_In%in_map_iff. specialize (H9b m Hin). lia.
      * intros m [<-|Hin]; simpl; [lia|]. specialize (H9b m Hin). lia.
    + simpl. rewrite map_app, rev_app_distr. simpl. by rewrite H10.
    + intros j Hj. specialize (Hjob j Hj) as [[? ?] Hnin]. simpl. split; [split; [done|lia]|].
      intros Hd [Harc|Hin]; [simpl in Harc; lia|]. by apply Hnin.
Qed.

Lemma active_in_log e g i : inv e g -> In i (flush_items (active e)) -> In i (log g).
Proof. intros [_ _ (recss & [_ _ _ Hl _ _]) _ _ _ _ _ _ _ _ _ _ _] Hi. apply Hl. simpl. apply in_app_iff. by left. Qed.

(** The end of both write paths: the tracker accounts the sequence number, and a full memtable is frozen. *)
Lemma inv_after_insert e g (f : TrackerInner -> TrackerInner) :
  inv e g ->
  inv (((modify (fun e => set_apply_tracker (f (apply_tracker e)) e);;
         m ← gets active; if Mem.is_full m then freeze_locked else mret tt) : M unit) e).1 g.
Proof.
  intros He. unfold mbind, bind, gets, modify. simpl.
  assert (inv (set_apply_tracker (f (apply_tracker e)) e) g) as He' by (by apply (inv_frame e)).
  destruct (Mem.is_full _); [by apply inv_freeze|done].
Qed.

Lemma inv_apply e g key seq v :
  inv e g -> is_u64 seq -> seq <= durable_through e -> fresh_seq g seq -> frozen_before e key seq ->
  inv (apply_after_durable key seq v e).1 (add_log [(key, seq, of_memtable_value v)] g).
Proof.
  intros He Hu Hd Hf Hb. apply (inv_after_insert _ _ (fun t => account t seq)). apply (inv_extend _ _ _ _ seq); try done.
  - apply Mem.insert_wf; [apply He|done].
  - by intros i [<-|[]].
  - intros k s v1 v2 [E1|[]] [E2|[]]. congruence.
  - intros i. rewrite In_flush_insert by apply He. split.
    + intros [->|[_ ?]]; [left; by left|by right].
    + intros [[<-|[]]|Hin]; [by left|]. right. split; [|done]. intros Hi. apply (Hf i); [by eapply active_in_log|].
      by rewrite Hi.
Qed.

Lemma inv_apply_batch e g ops seq :
  inv e g -> is_u64 seq -> seq <= durable_through e -> fresh_seq g seq ->
  Forall (fun op => frozen_before e (op_kv op).1 seq) ops ->
  inv (apply_batch_after_durable ops seq e).1 (add_log (batch_items seq ops) g).
Proof.
  intros He Hu Hd Hf Hb. apply (inv_after_insert _ _ (fun t => account t seq)).
  destruct (apply_batch_items ops seq (active e)) as [Hw Hi]; [apply He|done|].
  apply (inv_extend _ _ _ _ seq); try done.
  - intros i (Es & op & Hop & Hk)%batch_items_spec. rewrite List.Forall_forall in Hb. rewrite <- Hk. auto.
  - apply batch_items_uniq.
  - intros i. rewrite Hi. split; [naive_solver|]. intros [?|Hin]; [by left|]. right. split; [done|].
    intros [Es _]. by apply (Hf i); [eapply active_in_log|].
Qed.

(** ** Snapshots *)

Lemma acquire_keys c seq s n :
  bt_sorted c -> In (s, n) (acquire c seq) -> s = seq \/ exists n', In (s, n') c.
Proof.
  intros Hc. unfold acquire, bt_or_insert. destruct (bt_get seq c) as [m|] eqn:E.
  - rewrite E, bt_In_insert by done. intros [[= -> _]|[_ ?]]; eauto.
  - rewrite bt_get_insert, (proj2 (eqb_eq seq seq) eq_refl), !bt_In_insert by (try apply bt_insert_sorted; done).
    intros [[= -> _]|[_ [[= -> _]|[_ ?]]]]; eauto.
Qed.

Lemma acquire_sorted c seq : bt_sorted c -> bt_sorted (acquire c seq).
Proof.
  intros Hc. unfold acquire. destruct (bt_get _ _); [apply bt_insert_sorted|]; by apply bt_or_insert_sorted.
Qed.

Lemma release_keys c seq s n :
  bt_sorted c -> bt_sorted (release c seq) /\ (In (s, n) (release c seq) -> exists n', In (s, n') c).
Proof.
  intros Hc. unfold release. destruct (bt_get seq c) as [m|] eqn:E; [|eauto].
  assert (forall x, In (s, x) (bt_insert seq (m - 1) c) -> exists n', In (s, n') c) as Hk.
  { intros x. rewrite bt_In_insert by done. apply bt_get_Some_In in E. intros [[= -> _]|[_ ?]]; eauto. }
  destruct (_ =? 0).
  - split; [by apply bt_remove_sorted, bt_insert_sorted|]. intros ?%bt_remove_In. eauto.
  - split; [by apply bt_insert_sorted|]. eauto.
Qed.

Lemma inv_registry e g c :
  inv e g -> bt_sorted c ->
  (forall s n, In (s, n) c -> In s (taken g) \/ exists n', In (s, n') (snapshot_registry e)) ->
  inv (set_snapshot_registry c e) g.
Proof.
  intros [H1 H2 H3 H4 H5 H6 H7 H8 H9 H10 Hjob H11 Htk H12] Hc Hk. split; try done.
  - destruct H3 as (recss & [? ? ? ? ? ?]). by exists recss.
  - simpl. intros s n [Hs|(n' & Hin)]%Hk; [by apply Htk|eauto].
  - unfold cycle_ok in *. cbn [set_snapshot_registry snapshot_registry durable_through].
    destruct (cycle g) as [|tables|j f|j]; [done..| |done].
    destruct H12 as (? & Hl & Ht & ?). split_and!; [done| |done..]. intros s n [Hs|(n' & Hin)]%Hk; eauto.
Qed.

(** Fewer pending watermarks, or one more: the current one. *)
Lemma inv_taken e g l :
  inv e g -> (forall s, In s l -> s = durable_through e \/ In s (taken g)) -> inv e (set_taken l g).
Proof.
  intros [H1 H2 (recss & [H3a H3b H3c H3d H3e H3f]) H4 H5 H6 H7 H8 H9 H10 Hjob H11 Htk H12] Hl. split; try done.
  - by exists recss.
  - simpl. intros s [->|Hs]%Hl; [lia|by apply Htk].
  - unfold cycle_ok in *. cbn [set_taken cycle taken]. destruct (cycle g) as [|tables|j f|j]; [done..| |done].
    destruct H12 as (? & ? & Ht & ?). split_and!; [done..| |done]. intros s [->|Hs]%Hl; [lia|by apply Ht].
Qed.

Lemma In_remove_one s x l : In s (remove_one x l) -> In s l.
Proof. induction l as [|y l IH]; simpl; [done|]. destruct (_ =? _); simpl; tauto. Qed.

(** ** The flush thread *)

Lemma inv_job e g j j' :
  inv e g -> flush_job e = Some j -> frozen j' = frozen j ->
  (forall p, published j' = Some p -> published j = Some p \/
     (Forall item_valid (flush_items (frozen j).2) /\
      exists t, open p.1.2 p.1.1 = Ok t /\ represents t (flush_items (frozen j).2))) ->
  inv (set_flush_job (Some j') e) g.
Proof.
  intros [H1 H2 (recss & [H3a H3b H3c H3d H3e H3f]) H4 H5 H6 H7 H8 H9 H10 Hjob H11 Htk H12] Hj Hfz Hp. split; try done.
  - exists recss. split; try done. intros j1 key as_of. simpl. intros [= <-]. rewrite Hfz. by apply H3f.
  - unfold job_arcs in *. simpl. by rewrite Hj, Hfz in *.
  - intros j1. simpl. intros [= <-]. rewrite Hfz. by apply Hjob.
  - intros j1 id file meta. simpl. intros [= <-] E. rewrite Hfz. destruct (Hp _ E) as [?|?]; eauto.
Qed.

Lemma inv_flush_recv e g : inv e g -> flush_job e = None -> inv (flush_recv e).1 (set_phase PFresh g).
Proof.
  intros [H1 H2 (recss & [H3a H3b H3c H3d H3e H3f]) H4 H5 H6 H7 H8 H9 H10 Hjob H11 Htk H12] Hj.
  unfold flush_recv, mbind, bind, gets, modify. destruct (flush_queue e) as [|[fz c] q] eqn:Eq; simpl.
  - split; try done.
    + exists recss. split; try done.
    + unfold job_arcs in *. rewrite Eq, Hj in *. done.
    + simpl. congruence.
  - split; try done.
    + exists recss. split; try done.
    + simpl. unfold job_arcs in *. rewrite Hj in H10. simpl in *. by rewrite H10, app_nil_r.
    + intros j. simpl. intros [= <-]. simpl. split; [|done].
      assert (In fz (immutables e)) as Hin by (rewrite H10; apply in_app_iff; left; apply in_rev; rewrite rev_involutive; by left).
      destruct H9 as [_ H9]. split; [|by apply H9]. destruct H2 as [_ H2]. rewrite List.Forall_forall in H2. by apply H2.
    + intros j id file meta. simpl. by intros [= <-].
Qed.

Lemma inv_flush_publish e g env j :
  inv e g -> flush_job e = Some j ->
  writable (writer_config (config e)) (Mem.entry_count (frozen j).2) (flush_items (frozen j).2) ->
  inv (flush_publish env j e).1 g.
Proof.
  intros He Hj Hw. unfold flush_publish. destruct (published j) as [p|] eqn:Ep; [done|].
  destruct (fe_io_fault env); [done|]. unfold fetch_add_sstable_id, append_edit, modify_job, mbind, bind, gets, modify, mret, ret.
  assert (forall e', config e' = config e -> active e' = active e -> immutables e' = immutables e ->
    next_arc e' = next_arc e -> sstables e' = sstables e -> durable_through e' = durable_through e ->
    flush_queue e' = flush_queue e -> flush_job e' = flush_job e -> snapshot_registry e' = snapshot_registry e -> inv e' g) as Hfr.
  { intros. apply (inv_frame e); try done. lia. }
  cbn [lift config set_next_sstable_id]. destruct (fe_write env); [|by apply Hfr]. simpl.
  rewrite write_from_memtable_items.
  destruct (write_open (flush_items (frozen j).2) (next_sstable_id e) _ _ Hw) as (file & meta & t & -> & Ho & Hr & _).
  simpl. destruct (fe_metadata env); [|by apply Hfr]. simpl. destruct (fe_add env); [|by apply Hfr]. simpl. rewrite Hj. simpl.
  apply (inv_job _ _ j); [by apply Hfr|done|done|]. intros p [= <-]. right. split; [apply Hw|eauto].
Qed.

Lemma inv_flush_install e g j p :
  inv e g -> flush_job e = Some j -> published j = Some p -> flush_phase g = PFresh ->
  (forall t, In t (sstables e) -> t_id t <> p.1.1) ->
  inv (flush_install p e).1
    (match flush_phase g, (flush_install p e).2 with PFresh, Returned _ => set_phase PInstalled g | _, _ => g end).
Proof.
  intros He Hj Hp Hph Hid. rewrite Hph. destruct p as [[id file] meta]. unfold flush_install, mbind, bind, gets, modify. simpl in *.
  destruct (existsb _ (sstables e)) eqn:Eex.
  { apply existsb_exists in Eex as (t & Hin & Ht%Z.eqb_eq). by destruct (Hid t Hin). }
  destruct (existsb _ (unlinked e)); [done|].
  destruct He as [H1 H2 (recss & [H3a H3b H3c H3d H3e H3f]) H4 H5 H6 H7 H8 H9 H10 Hjob H11 Htk H12].
  destruct (H11 j id file meta Hj Hp) as (Hv & t & -> & Hr). simpl.
  unfold job_arcs in H10. rewrite Hj, Hph in H10.
  set (F := flush_items (frozen j).2) in *.
  set (pre := flush_items (active e) :: map (fun m => flush_items m.2) (rev (map fst (flush_queue e)))).
  assert (mem_sources e = pre ++ [F]) as Emem by (unfold mem_sources, pre; by rewrite H10, map_app).
  unfold sources in *. rewrite Emem in H3c, H3d. rewrite Emem in H3e.
  pose proof H3c as Hord. apply ordered_app in Hord as (Ho1 & Ho2 & Ho3). apply ordered_app in Ho1 as (Hp1 & _ & Hp2).
  apply Forall_app in Ho3 as [Ho3 HoF]. rewrite Forall_singleton in HoF.
  assert (forall i, In i (concat ((pre ++ [F]) ++ F :: recss)) <-> In i (concat ((pre ++ [F]) ++ recss))) as Hset.
  { intros i. rewrite !concat_app. simpl. rewrite !in_app_iff. naive_solver. }
  split; try done.
  - exists (F :: recss). split; try done.
    + simpl. by constructor.
    + simpl. by apply Forall_app.
    + change (sources _ _) with (mem_sources e ++ F :: recss). rewrite Emem. apply ordered_app. split_and!.
      * apply ordered_app. split_and!; [done|repeat constructor|done].
      * by constructor.
      * apply Forall_app. split; [|constructor; [constructor; [apply dominates_of_incl, incl_refl|done]|constructor]].
        rewrite List.Forall_forall in *. intros a Ha. constructor; [|by apply Ho3].
        specialize (Hp2 a Ha). by rewrite Forall_singleton in Hp2.
    + change (sources _ _) with (mem_sources e ++ F :: recss). rewrite Emem. intros i Hi%Hset. by apply H3d.
    + intros key as_of Hge. change (sources _ _) with (mem_sources e ++ F :: recss). rewrite Emem, <- H3e by done.
      apply newest_ext; [|intros; apply Hset|]; (apply (uniq_incl (log g)); [|done]); [intros i Hi%Hset|intros i Hi]; by apply H3d.
    + intros j1 key as_of Hj1 _ _. simpl in Hj1. rewrite Hj in Hj1. injection Hj1 as <-. fold F. apply newest_ext.
      * apply (uniq_incl (log g)); [|done]. intros i Hi. apply H3d. clear -Hi. simpl in *.
        rewrite !concat_app, !in_app_iff in *. simpl. rewrite in_app_iff. tauto.
      * intros s v _. simpl. rewrite !in_app_iff. tauto.
      * apply (uniq_incl (log g)); [|done]. intros i Hi. apply H3d. clear -Hi. simpl in *.
        rewrite !concat_app, !in_app_iff in *. simpl. rewrite in_app_iff. tauto.
  - unfold job_arcs. simpl. by rewrite Hj.
  - intros j1 Hj1. split; [by apply Hjob|done].
Qed.

Lemma inv_flush_marker e g env j : inv e g -> flush_job e = Some j -> inv (flush_marker env j e).1 g.
Proof.
  intros He Hj. unfold flush_marker, submit_wait, log_append, modify_job, mbind, bind, modify, mret, ret.
  destruct (fe_rotate env); [|done]. simpl. destruct (checkpoint_marker j); [done|].
  destruct (fe_marker env) as [pos|x|pos x]; [|done|by apply (inv_frame e)]. simpl. rewrite Hj. simpl.
  apply (inv_job _ _ j); [|done|done|by left]. apply (inv_frame e); try done. simpl. lia.
Qed.

Lemma inv_flush_checkpoint e g env j p : inv e g -> flush_job e = Some j -> inv (flush_checkpoint env j p e).1 g.
Proof.
  intros He Hj. unfold flush_checkpoint, append_edit, modify_job, mbind, bind, modify, mret, ret.
  destruct (checkpoint_recorded j); [done|]. destruct (fe_set env); [|done]. simpl. rewrite Hj. simpl.
  apply (inv_job _ _ j); [|done|done|by left]. by apply (inv_frame e).
Qed.

Lemma filter_arc (l : list (nat * Mem.MemTable)) a :
  ~ In a (map fst l) -> List.filter (fun m => negb (Nat.eqb m.1 a)) l = l.
Proof.
  induction l as [|m l IH]; [done|]. simpl. intros Hn. destruct (Nat.eqb_spec m.1 a); [naive_solver|]. simpl.
  rewrite IH; [done|]. tauto.
Qed.

Lemma inv_flush_drop e g env j :
  inv e g -> flush_job e = Some j -> flush_phase g <> PFresh -> inv (flush_drop env j e).1 (set_phase PDropped g).
Proof.
  intros [H1 H2 (recss & [H3a H3b H3c H3d H3e H3f]) H4 H5 H6 H7 H8 [H9 H9'] H10 Hjob H11 Htk H12] Hj Hph.
  assert ((flush_drop env j e).1 = set_immutables (List.filter (fun m => negb (Nat.eqb m.1 (frozen j).1)) (immutables e))
    (set_checkpoint_seq (ckpt j) e)) as ->.
  { unfold flush_drop, mbind, bind, modify. simpl. by destruct (fe_purge env). }
  set (q := rev (map fst (flush_queue e))) in *. pose proof (Hjob j Hj) as [[Hwf Hlt] Hnin].
  assert (exists l, immutables e = q ++ l /\ ~ In (frozen j).1 (map fst q) /\
    (l = [] \/ l = [frozen j] /\ flush_phase g = PInstalled)) as (l & El & Hq & Hl).
  { unfold job_arcs in H10. rewrite Hj in H10. destruct (flush_phase g) eqn:Ep; [done|..]; eexists; (split; [exact H10|]).
    - split; [|by right]. rewrite H10, map_app in H9. apply NoDup_app in H9 as (_ & Hd & _). intros Hin.
      apply (Hd (frozen j).1); [by apply list_elem_of_In|]. simpl. by left.
    - split; [|by left]. rewrite <- (app_nil_r q), <- H10. by apply Hnin. }
  assert (List.filter (fun m => negb (Nat.eqb m.1 (frozen j).1)) (immutables e) = q) as ->.
  { rewrite El, List.filter_app, filter_arc by done. destruct Hl as [->|[-> _]]; simpl; [by rewrite app_nil_r|].
    by rewrite Nat.eqb_refl, app_nil_r. }
  set (pre := flush_items (active e) :: map (fun m => flush_items m.2) q).
  set (F := map (fun m => flush_items m.2) l).
  assert (mem_sources e = pre ++ F) as Emem by (unfold mem_sources, pre, F; by rewrite El, map_app).
  assert (forall i, In i (concat (pre ++ recss)) -> In i (concat (mem_sources e ++ recss))) as Hsub.
  { intros i. rewrite Emem, !concat_app, !in_app_iff. tauto. }
  split; try done.
  - destruct H2 as [? H2]. split; [done|]. simpl. rewrite El in H2. by apply Forall_app in H2 as [? _].
  - exists recss. split; try done.
    + change (ordered (pre ++ recss)). unfold sources in H3c. rewrite Emem, <- app_assoc in H3c.
      apply ordered_app in H3c as (? & Ho & Hf). apply ordered_app in Ho as (_ & ? & _). apply ordered_app. split_and!; [done..|].
      eapply Forall_impl; [exact Hf|]. intros a Ha. by apply Forall_app in Ha as [_ ?].
    + intros i Hi. by apply H3d, Hsub.
    + intros key as_of Hge. change (newest (concat (pre ++ recss)) key as_of = newest (log g) key as_of).
      rewrite <- (H3e key as_of Hge). unfold sources. rewrite Emem. rewrite <- app_assoc, !concat_app, !newest_app. f_equal.
      rewrite <- newest_app. unfold F. destruct Hl as [->|[-> Hi]]; [done|]. simpl. rewrite app_nil_r.
      symmetry. by apply H3f.
  - simpl. split.
    + rewrite El, map_app in H9. by apply NoDup_app in H9 as [? _].
    + intros m Hm. apply H9'. rewrite El. apply in_app_iff. by left.
  - unfold job_arcs. simpl. rewrite Hj, app_nil_r. done.
  - intros j1. simpl. rewrite Hj. intros [= <-]. done.
Qed.

Lemma inv_flush_result e g r : inv e g -> (forall a, r = Returned a -> flush_phase g = PDropped) -> inv (flush_result r e).1 g.
Proof.
  intros He Hr. destruct r as [a|x|]; cbn [flush_result].
  - specialize (Hr a eq_refl). destruct He as [H1 H2 (recss & [H3a H3b H3c H3d H3e H3f]) H4 H5 H6 H7 H8 H9 H10 Hjob H11 Htk H12].
    unfold mbind, bind, modify. simpl. split; try done. by exists recss.
    unfold job_arcs in *. simpl. rewrite Hr in H10. by destruct (flush_job e).
  - unfold modify_job, mbind, bind, modify, gets. simpl. destruct (flush_job e) as [j|] eqn:Ej; simpl.
    + assert (inv (set_flush_job (Some (job_set_attempt (attempt j + 1) j)) e) g) as He'
        by (apply (inv_job _ _ j); [done|done|done|by left]).
      destruct (is_storage_exhausted x); simpl; destruct (_ <=? _); simpl;
        apply (inv_frame (set_flush_job (Some (job_set_attempt (attempt j + 1) j)) e)); done.
    + destruct (is_storage_exhausted x); simpl; apply (inv_frame e); done.
  - unfold modify_job, mbind, bind, modify, gets. simpl. destruct (flush_job e) as [j|] eqn:Ej; simpl.
    + destruct (_ <=? _); simpl; (apply (inv_job _ _ j); [done|done|done|by left]).
    + by apply (inv_frame e).
Qed.

(** Installing a table that is already live changes nothing. *)
Lemma flush_install_again e p : (exists t, In t (sstables e) /\ t_id t = p.1.1) -> flush_install p e = (e, Returned tt).
Proof.
  intros (t & Hin & Ht). destruct p as [[id file] meta]. unfold flush_install, mbind, bind, gets. simpl in *.
  assert (existsb (fun t => t_id t =? id) (sstables e) = true) as ->; [|done].
  apply existsb_exists. exists t. split; [done|]. by apply Z.eqb_eq.
Qed.

(** ** Compaction *)

Lemma inv_cycle e g c :
  inv e g -> cycle_ok e (set_cycle c g) -> inv e (set_cycle c g).
Proof. intros [H1 H2 (recss & [H3a H3b H3c H3d H3e H3f]) H4 H5 H6 H7 H8 H9 H10 Hjob H11 Htk H12] Hc. split; try done. by exists recss. Qed.

Lemma live_versions_below e g : inv e g -> versions_below (sstables e) (durable_through e).
Proof.
  intros He t recs i Hin Hr Hi. pose proof (in_tables _ _ He) as (recss & [H3a _ _ H3d _ _]). apply (in_seq _ _ He), H3d.
  apply list_elem_of_In, list_elem_of_lookup_1 in Hin as [k Hk].
  destruct (Forall2_lookup_l _ _ _ _ _ H3a Hk) as (recs' & Hk' & Hr'). rewrite (represents_fun t recs recs' Hr Hr') in Hi.
  unfold sources. rewrite concat_app, in_app_iff. right. apply in_concat. exists recs'. split; [|done].
  by eapply list_elem_of_In, list_elem_of_lookup_2.
Qed.

Lemma compact_capture_spec env e e' tables :
  compact_capture env e = (e', Returned (Some tables)) ->
  tables = sstables e /\ exists u d, e' = set_compaction_running true (set_pending_compaction_deletes d (set_unlinked u e)).
Proof.
  unfold compact_capture, sweep_pending_compaction_deletes, mbind, bind, gets, modify. cbn.
  destruct (storage_from_u8 _); [|done..]. destruct (_ <? _); [done|]. cbn. destruct (compaction_running e); [done|].
  destruct (sstables e) as [|t0 ts]; [done|]. cbn. intros [= <- <-]. split; [done|]. by do 2 eexists.
Qed.

Lemma inv_compact_capture e g env e' tables :
  inv e g -> compact_capture env e = (e', Returned (Some tables)) -> inv e' (set_cycle (Captured tables) g).
Proof.
  intros He (-> & u & d & ->)%compact_capture_spec. apply (inv_cycle _ g); [by apply (inv_frame e)|]. exact (live_versions_below e g He).
Qed.

Lemma compact_choose_spec env tables e e' j :
  compact_choose env tables e = (e', Returned j) ->
  (exists n, e' = set_next_sstable_id n e) /\ inputs j = tables /\ oldest_snapshot j = oldest (snapshot_registry e).
Proof.
  unfold compact_choose, oldest_live_snapshot_seq, fetch_add_sstable_id, mbind, bind, gets, modify. cbn.
  destruct (ce_io_fault env); [done|]. cbn. intros [= <- <-]. split_and!; [by eexists|done|done].
Qed.

Lemma floor_now_below e g s n : inv e g -> In (s, n) (snapshot_registry e) -> floor_now e <= s.
Proof.
  intros He. pose proof (in_registry _ _ He) as H7. unfold floor_now, oldest. destruct (snapshot_registry e) as [|[s0 n0] c]; [done|].
  simpl. intros [[= <- _]|Hin]; [lia|]. inversion_clear H7 as [|? ? _ Hall]. rewrite List.Forall_forall in Hall.
  specialize (Hall _ Hin). unfold lt_key in Hall. simpl in Hall. rewrite cmp_Z_lt in Hall. lia.
Qed.

Lemma inv_compact_choose e g env e' j :
  inv e g -> cycle g = Captured (inputs j) -> compact_choose env (inputs j) e = (e', Returned j) ->
  (forall s, In s (taken g) -> floor_now e <= s) -> inv e' (set_cycle (Chosen j (floor_now e)) g).
Proof.
  intros He Hc ((n & ->) & _ & Ho)%compact_choose_spec Ht. apply (inv_cycle _ g); [by apply (inv_frame e)|].
  pose proof (in_cycle _ _ He) as Hk. unfold cycle_ok in *. rewrite Hc in Hk. cbn. split_and!.
  - unfold floor_now. pose proof (in_live _ _ He) as Hl. unfold oldest. destruct (snapshot_registry e) as [|[s m] c]; [done|].
    simpl. apply (Hl s m). by left.
  - intros s m. by apply (floor_now_below e g).
  - done.
  - rewrite Ho. unfold floor_now. by destruct (oldest (snapshot_registry e)).
Qed.

Lemma append_removes_frame env ts e : exists l, (append_removes env ts e).1 = set_manifest_log l e.
Proof.
  revert e. induction ts as [|t ts IH]; intros e; cbn [append_removes].
  - exists (manifest_log e). by destruct e.
  - unfold append_edit, mbind, bind, modify, lift. destruct (ce_remove env t); simpl.
    + match goal with |- context [append_removes env ts ?e1] => destruct (IH e1) as (l & ->) end. by exists l.
    + exists (manifest_log e). by destruct e.
Qed.

Lemma compact_manifest_frame env j file meta e : exists l, (compact_manifest env j file meta e).1 = set_manifest_log l e.
Proof.
  unfold compact_manifest, append_edit, mbind, bind, modify, lift. destruct (ce_add env); simpl.
  - match goal with |- context [append_removes env ?ts ?e1] => destruct (append_removes_frame env ts e1) as (l & ->) end. by exists l.
  - exists (manifest_log e). by destruct e.
Qed.

Lemma mapM_drain tables recss :
  Forall2 represents tables recss ->
  exists N, Forall sorted_items recss /\ forall fuel, (N < fuel)%nat ->
    mapM (fun t => drain fuel (range_scan_cursor t Unbounded Unbounded)) tables = Some (Compact.srcs recss).
Proof.
  induction 1 as [|t recs ts rs Ht Hts IH]; [exists 0%nat; split; [constructor|done]|].
  destruct IH as (N & Hs & HN). destruct (Compact.represents_scan_all t recs Ht) as [n Hn]. exists (n + N)%nat.
  split; [constructor; [by apply (Compact.represents_sorted t)|done]|]. intros fuel Hf. simpl.
  rewrite Hn by lia. simpl. by rewrite HN by lia.
Qed.

Lemma hint_writable cfg counts :
  config_ok cfg -> writable (writer_config cfg) (capped_bloom_hint counts (compaction_record_cap (lsm_bloom_bits_per_key cfg))) [].
Proof.
  intros [Ht Hb]. set (bits := lsm_bloom_bits_per_key cfg) in *. unfold capped_bloom_hint.
  set (h := fold_left saturating_add64 counts 0). set (cap := compaction_record_cap bits).
  assert (1 <= cap <= u64_max /\ cap <= Bloom.max_record_count_for_bloom_cap bits) as [Hc1 Hc2].
  { unfold cap, compaction_record_cap, Bloom.max_record_count_for_bloom_cap.
    change Fmt.DEFAULT_BLOOM_BITS_PER_KEY with 10. change (Bloom.MAX_BLOOM_BIT_ARRAY_BYTES * 8) with 2147483648.
    destruct (Z.eqb_spec (Z.max bits 10) 0); [lia|].
    assert (1 <= 2147483648 / Z.max bits 10) by (apply Z.div_le_lower_bound; lia).
    assert (2147483648 / Z.max bits 10 <= 2147483648) by (apply Z.div_le_upper_bound; nia).
    unfold_ints. split; [lia|]. destruct (Z.eqb_spec bits 0); [lia|]. apply Z.div_le_compat_l; lia. }
  split; [constructor|constructor|vm_compute; discriminate|exact Ht|unfold_ints; simpl; fold bits; lia|].
  simpl. fold bits. apply Bloom.bloom_cap_iff; [unfold_ints; lia|unfold_ints; lia|]. lia.
Qed.

(** A cycle that finishes writing produces a table that answers every protected read like its inputs. *)
Lemma compact_write_output env e j file recss :
  config_ok (config e) -> Forall2 represents (inputs j) recss -> uniq (concat recss) -> Forall item_valid (concat recss) ->
  zlen (concat recss) <= Bloom.max_record_count_for_bloom_cap Fmt.DEFAULT_BLOOM_BITS_PER_KEY ->
  writes_output env e j file ->
  exists t out, open file (output_id j) = Ok t /\ represents t out /\ incl out (concat recss) /\
    forall key as_of, Compact.protected (oldest_snapshot j) (concat recss) key as_of ->
      newest out key as_of = newest (concat recss) key as_of.
Proof.
  intros Hcfg Hr Hu Hv Hn (N & meta & st & Hw). destruct (mapM_drain _ _ Hr) as (N' & Hs & Hm).
  destruct (Compact.merge_drain_spec (length (concat recss)) recss (oldest_snapshot j) Compact.stats_default)
    as (out & st' & (M1 & M2 & M3 & _ & _ & _ & M7) & Hd); [done..|].
  set (fuel := S (N + N' + length (concat recss))). specialize (Hw fuel ltac:(unfold fuel; lia)).
  unfold compact_write, lift, mbind, bind, gets in Hw. cbn beta iota zeta in Hw. destruct (ce_write env); [|done].
  cbn beta iota zeta in Hw.
  rewrite Hm in Hw by (unfold fuel; lia). unfold Compact.merge in Hw. rewrite Hd in Hw by (unfold fuel; lia).
  set (hint := capped_bloom_hint _ _) in Hw.
  assert (writable (writer_config (config e)) hint out) as Hwr.
  { destruct (hint_writable (config e) (map (fun t => Fmt.record_count (t_footer t)) (inputs j)) Hcfg) as [_ _ _ C1 C2 C3].
    split; try done.
    - apply List.Forall_forall. intros i Hi. rewrite List.Forall_forall in Hv. by apply Hv, M2.
    - lia. }
  destruct (write_open out (output_id j) _ _ Hwr) as (file' & meta' & t & Ew & Eo & Hrep & _).
  cbn in Hw. rewrite Ew in Hw. cbn in Hw. destruct (compaction_output_fits _ _); [|done]. injection Hw as <- <- <-.
  exists t, out. split_and!; [done|done|done|]. intros key as_of Hp. by apply M3.
Qed.

Lemma splice_all (tables : list SsTable) l :
  incl l tables -> List.filter (fun t => negb (existsb (fun i => t_id i =? t_id t) tables)) l = [].
Proof.
  induction l as [|t l IH]; intros Hl; [done|]. simpl.
  assert (existsb (fun i => t_id i =? t_id t) tables = true) as ->; [|apply IH; intros x Hx; apply Hl; by right].
  apply existsb_exists. exists t. split; [apply Hl; by left|apply Z.eqb_refl].
Qed.

(** The splice of a cycle whose inputs are still the whole list: one table, which reads like them from the floor on. *)
Lemma compact_splice_spec e g env j f file recss :
  inv e g -> cycle g = Chosen j f -> writes_output env e j file -> sstables e = inputs j ->
  (forall recss, Forall2 represents (inputs j) recss ->
     zlen (concat recss) <= Bloom.max_record_count_for_bloom_cap Fmt.DEFAULT_BLOOM_BITS_PER_KEY) ->
  tables_ok e g recss ->
  exists t out, compact_splice j file e = (set_sstables [t] e, Returned tt) /\ represents t out /\ incl out (concat recss) /\
    forall key as_of, Z.max (floor g) f <= as_of -> newest out key as_of = newest (concat recss) key as_of.
Proof.
  intros He Hc Hw Hin Hn [H3a H3b H3c H3d H3e H3f]. pose proof (in_cycle _ _ He) as Hk. unfold cycle_ok in Hk. rewrite Hc in Hk.
  destruct Hk as (Hf1 & Hf2 & _ & Hf3). rewrite Hin in H3a.
  destruct (compact_write_output env e j file recss) as (t & out & Eo & Hr & Hi & Hread); [apply He|done| |done|by apply Hn|done|].
  { apply (uniq_incl (log g)); [|apply He]. intros i Hi. apply H3d. unfold sources. rewrite concat_app, in_app_iff. by right. }
  exists t, out. split_and!; [|done|done|].
  - unfold compact_splice, mbind, bind, gets, modify. rewrite Eo. simpl. rewrite Hin, splice_all by apply incl_refl. done.
  - intros key as_of Hge. apply Hread. unfold Compact.protected. destruct (oldest_snapshot j) as [o|]; [lia|].
    intros s v (recs & Hrecs & Hs)%in_concat. apply list_elem_of_In, list_elem_of_lookup_1 in Hrecs as [k Hk].
    destruct (Forall2_lookup_r _ _ _ _ _ H3a Hk) as (t' & Hk' & Hr').
    assert (s <= f); [|lia]. apply (Hf3 t' recs (key, s, v)); [|done|done]. by eapply list_elem_of_In, list_elem_of_lookup_2.
Qed.

Lemma inv_compact_splice e g env j f file :
  inv e g -> cycle g = Chosen j f -> writes_output env e j file -> sstables e = inputs j ->
  (forall recss, Forall2 represents (inputs j) recss ->
     zlen (concat recss) <= Bloom.max_record_count_for_bloom_cap Fmt.DEFAULT_BLOOM_BITS_PER_KEY) ->
  inv (compact_splice j file e).1 (set_cycle (Spliced j) (set_floor (Z.max (floor g) f) g)).
Proof.
  intros He Hc Hw Hin Hn. pose proof (in_tables _ _ He) as (recss & Hto).
  destruct (compact_splice_spec e g env j f file recss He Hc Hw Hin Hn Hto) as (t & out & -> & Hr & Hi & Hread'). simpl.
  destruct He as [H1 H2 _ H4 H5 H6 H7 H8 H9 H10 Hjob H11 Htk H12]. destruct Hto as [H3a H3b H3c H3d H3e H3f].
  unfold cycle_ok in H12. rewrite Hc in H12. destruct H12 as (Hf1 & Hf2 & Hf4 & Hf3). split; try done.
  - exists [out]. split; try done.
    + by repeat constructor.
    + simpl. rewrite app_nil_r. apply List.Forall_forall. intros i Hi'. rewrite List.Forall_forall in H3b. by apply H3b, Hi.
    + change (ordered (mem_sources e ++ [out])). apply ordered_app in H3c as (Ho1 & Ho2 & Ho3). apply ordered_app.
      split_and!; [done|repeat constructor|]. eapply Forall_impl; [exact Ho3|]. intros a Ha%dominates_concat.
      constructor; [|constructor]. by apply (dominates_incl a out (concat recss)).
    + change (incl (concat (mem_sources e ++ [out])) (log g)). intros i Hi'. apply H3d. unfold sources.
      rewrite concat_app, in_app_iff in *. simpl in Hi'. rewrite app_nil_r in Hi'. destruct Hi' as [?|?]; [by left|right; by apply Hi].
    + intros key as_of Hge. change (newest (concat (mem_sources e ++ [out])) key as_of = newest (log g) key as_of). cbn in Hge.
      rewrite <- (H3e key as_of) by lia. unfold sources. rewrite !concat_app, !newest_app. simpl. rewrite app_nil_r.
      by rewrite Hread'.
    + cbn. intros j1 key as_of Hj1 Hp Hge. rewrite app_nil_r. rewrite newest_app, Hread', <- newest_app by done.
      apply H3f; [done|done|lia].
  - cbn. lia.
  - cbn. intros s n Hs. specialize (H8 s n Hs). specialize (Hf2 s n Hs). lia.
  - cbn. intros s Hs. specialize (Htk s Hs). specialize (Hf4 s Hs). lia.
Qed.

(** Every step preserves the invariant. *)
Lemma inv_step a e g e' g' : inv e g -> step e g a e' g' -> disciplined a e g -> inv e' g'.
Proof.
  intros He Hs Hd. destruct Hs; cbn [disciplined] in Hd.
  - by apply (inv_frame e).
  - by apply inv_apply.
  - by apply inv_apply_batch.
  - destruct (read_active_stats key as_of e) as (c & ->). by apply (inv_frame e).
  - destruct (read_immutables_stats key as_of e) as (c & ->). by apply (inv_frame e).
  - destruct (read_sstables_stats key as_of e) as (c & ->). by apply (inv_frame e).
  - by apply (inv_frame e).
  - apply inv_taken; [done|]. intros s [<-|?]; [by left|by right].
  - apply (inv_taken _ g); [|intros s Hs%In_remove_one; by right].
    apply inv_registry; [done|apply acquire_sorted, He|]. intros s n [->|?]%acquire_keys; [by left|by right|apply He].
  - apply inv_registry; [done|apply (release_keys _ _ 0 0), He|]. intros s n Hi. right.
    by apply (release_keys (snapshot_registry e) seq s n (in_registry _ _ He)).
  - by apply inv_flush_recv.
  - apply inv_flush_publish; [done|done|by apply Hd].
  - specialize (Hd j p H1 H2). destruct (flush_phase g) eqn:Ep; [|by rewrite flush_install_again..].
    pose proof (inv_flush_install e g j p He H1 H2 Ep Hd) as Hi. by rewrite Ep in Hi.
  - by apply inv_flush_marker.
  - by apply inv_flush_checkpoint.
  - by apply inv_flush_drop.
  - by apply inv_flush_result.
  - apply inv_flush_result; [done|]. intros a Hr. by destruct (H1 a).
  - by apply (inv_compact_capture e g env).
  - by apply (inv_compact_choose e g env).
  - destruct (compact_manifest_frame env j file meta e) as (l & ->). by apply (inv_frame e).
  - destruct (Hd j f H1) as [Hin Hn]. by eapply inv_compact_splice.
  - by apply (inv_frame e).
  - apply inv_cycle; [by apply (inv_frame e)|done].
Qed.

(** ** Theorems *)

Definition ghost_new : Ghost := MkGhost [] 0 PFresh Idle [].

Lemma inv_new cfg : config_ok cfg -> inv (engine_new cfg) ghost_new.
Proof.
  intros Hc. split; try done.
  - split; [apply Mem.new_wf|constructor].
  - exists []. split; try done; try (repeat constructor; fail). by intros i [].
  - by intros ? ? ? ? [].
  - constructor.
  - split; [constructor|done].
Qed.

Lemma inv_orderly x y : orderly x y -> inv x.1 x.2 -> inv y.1 y.2.
Proof. intros Hr Hx. induction Hr as [x|x y z (a & Hs & Hd) Hr IH]; [done|]. apply IH. by eapply inv_step. Qed.

Lemma inv_from_new cfg y : config_ok cfg -> orderly (engine_new cfg, ghost_new) y -> inv y.1 y.2.
Proof. intros Hc Hr. apply (inv_orderly _ _ Hr). by apply inv_new. Qed.

Lemma inv_read e g key as_of :
  inv e g -> floor g <= as_of ->
  exists c, get_as_of key as_of e = (set_read_stats c e, Returned (value_of (newest (log g) key as_of))).
Proof.
  intros He Hge. pose proof (in_tables _ _ He) as (recss & [T1 T2 T3 T4 T5 T6]).
  destruct (get_as_of_first e recss key as_of (in_mems _ _ He) T1) as (c & ->); [pose proof (in_floor _ _ He); lia|].
  exists c. by rewrite first_newest_ordered, T5 by done.
Qed.

(** ** Reads whose scopes interleave with other threads

    Between the scopes of one read the engine moves on: memtables are frozen, flushed and dropped, tables are merged.  The
    lemmas below follow what a reader that has passed some sources can still find behind them. *)

Definition items_of (l : list (nat * Mem.MemTable)) : list (list item) := map (fun m => flush_items m.2) l.

Lemma represents_list_fun ts rs rs' : Forall2 represents ts rs -> Forall2 represents ts rs' -> rs = rs'.
Proof.
  intros Hr. revert rs'. induction Hr as [|t r ts rs Ht Hts IH]; intros rs' Hr'; inversion_clear Hr'; [done|].
  f_equal; [by apply (represents_fun t)|by apply IH].
Qed.

(** After a step, every suffix of the frozen memtables with the tables behind it reads like such a suffix before it; or
    it is all of them, and nothing is in front of it. *)
Definition sealed_after (e e' : Engine) (g' : Ghost) : Prop :=
  forall recss, Forall2 represents (sstables e) recss ->
  exists recss', Forall2 represents (sstables e') recss' /\
    forall q' l', immutables e' = q' ++ l' ->
      (q' = [] /\ flush_items (active e') = []) \/
      exists q l, immutables e = q ++ l /\ (q' = [] -> q = []) /\
        forall key as_of, floor g' <= as_of ->
          newest (concat (items_of l' ++ recss')) key as_of = newest (concat (items_of l ++ recss)) key as_of.

Lemma sealed_same e e' g : immutables e' = immutables e -> sstables e' = sstables e -> sealed_after e e' g.
Proof. intros Hi Ht recss Hr. exists recss. rewrite Ht, Hi. split; [done|]. intros q l E. right. by exists q, l. Qed.

Lemma sealed_freeze e0 e g :
  immutables e = immutables e0 -> sstables e = sstables e0 -> sealed_after e0 (freeze_locked e).1 g.
Proof.
  intros Hi Ht. unfold freeze_locked, mbind, bind, gets, modify. destruct (_ <=? _); [by apply sealed_same|]. simpl.
  intros recss Hr. exists recss. simpl. rewrite Ht, Hi. split; [done|]. intros [|m q'] l' E; [by left|right].
  injection E as _ E. by exists q', l'.
Qed.

Lemma sealed_after_insert e0 e g (f : TrackerInner -> TrackerInner) :
  immutables e = immutables e0 -> sstables e = sstables e0 ->
  sealed_after e0 (((modify (fun e => set_apply_tracker (f (apply_tracker e)) e);;
    m ← gets active; if Mem.is_full m then freeze_locked else mret tt) : M unit) e).1 g.
Proof.
  intros Hi Ht. unfold mbind, bind, gets, modify. simpl. destruct (Mem.is_full _); [by apply sealed_freeze|by apply sealed_same].
Qed.

Lemma better_idem (a b : option (Z * RecordValue)) : better a (better a b) = better a b.
Proof. rewrite better_assoc. f_equal. destruct a as [[s v]|]; [|done]. simpl. by rewrite Z.ltb_irrefl. Qed.

(** What [flush_install] does to a fresh job. *)
Lemma flush_install_spec e g j p :
  inv e g -> flush_job e = Some j -> published j = Some p -> flush_phase g = PFresh ->
  (forall t, In t (sstables e) -> t_id t <> p.1.1) ->
  (exists x, flush_install p e = (e, Failed x)) \/
  exists t q, flush_install p e = (set_sstables (t :: sstables e) e, Returned tt) /\
    represents t (flush_items (frozen j).2) /\ immutables e = q ++ [frozen j].
Proof.
  intros He Hj Hp Hph Hid. pose proof (in_queue _ _ He) as Hq. unfold job_arcs in Hq. rewrite Hj, Hph in Hq.
  destruct p as [[id file] meta]. pose proof (in_published _ _ He j id file meta Hj Hp) as (_ & t & Ho & Hr).
  unfold flush_install, mbind, bind, gets, modify. simpl in *. destruct (existsb _ (sstables e)) eqn:Eex.
  { apply existsb_exists in Eex as (t' & Hin & Ht%Z.eqb_eq). by destruct (Hid t' Hin). }
  destruct (existsb _ (unlinked e)); [by left; eexists|]. right. rewrite Ho. simpl. by do 2 eexists.
Qed.

Lemma sealed_install e g j p g' :
  inv e g -> flush_job e = Some j -> published j = Some p -> flush_phase g = PFresh ->
  (forall t, In t (sstables e) -> t_id t <> p.1.1) -> sealed_after e (flush_install p e).1 g'.
Proof.
  intros He Hj Hp Hph Hid. destruct (flush_install_spec e g j p He Hj Hp Hph Hid) as [(x & ->)|(t & q0 & -> & Hr & Hq)];
    [by apply sealed_same|].
  intros recss Hrep. exists (flush_items (frozen j).2 :: recss). split; [by constructor|]. cbn [fst immutables set_sstables].
  intros q' l' E. right. destruct l' as [|m l'] using rev_ind.
  - exists q0, [frozen j]. split; [done|]. split; [|by intros; simpl]. intros ->. by rewrite E in Hq; destruct q0.
  - clear IHl'. rewrite Hq, app_assoc in E. apply app_inj_tail in E as [-> <-]. exists q', (l' ++ [frozen j]).
    rewrite Hq, app_assoc. split_and!; [done..|]. intros key as_of _. unfold items_of. rewrite map_app, !concat_app, !newest_app. simpl.
    rewrite app_nil_r, newest_app. rewrite <- !better_assoc. by rewrite better_idem.
Qed.

Lemma flush_drop_spec e g env j :
  inv e g -> flush_job e = Some j -> flush_phase g <> PFresh ->
  exists q l, (flush_drop env j e).1 = set_immutables q (set_checkpoint_seq (ckpt j) e) /\ immutables e = q ++ l /\
    (l = [] \/ l = [frozen j] /\ flush_phase g = PInstalled).
Proof.
  intros He Hj Hph. pose proof (in_queue _ _ He) as H10. pose proof (in_arcs _ _ He) as [H9 _].
  pose proof (in_job _ _ He j Hj) as [_ Hnin]. set (q := rev (map fst (flush_queue e))) in *. exists q.
  assert (forall l, immutables e = q ++ l -> ~ In (frozen j).1 (map fst q) -> List.filter (fun m => negb (Nat.eqb m.1 (frozen j).1)) l = [] ->
    (flush_drop env j e).1 = set_immutables q (set_checkpoint_seq (ckpt j) e)) as Hout.
  { intros l El Hq Hl. unfold flush_drop, mbind, bind, modify. simpl. rewrite El, List.filter_app, filter_arc, Hl, app_nil_r by done.
    by destruct (fe_purge env). }
  unfold job_arcs in H10. rewrite Hj in H10. destruct (flush_phase g) eqn:Ep; [done|..].
  - exists [frozen j]. split_and!; [|done|by right]. apply (Hout [frozen j]); [done| |simpl; by rewrite Nat.eqb_refl].
    rewrite H10, map_app in H9. apply NoDup_app in H9 as (_ & Hd & _). intros Hin.
    apply (Hd (frozen j).1); [by apply list_elem_of_In|]. simpl. by left.
  - exists []. split_and!; [|done|by left]. apply (Hout []); [done| |done]. rewrite <- (app_nil_r q), <- H10. by apply Hnin.
Qed.

Lemma sealed_drop e g env j :
  inv e g -> flush_job e = Some j -> flush_phase g <> PFresh -> sealed_after e (flush_drop env j e).1 (set_phase PDropped g).
Proof.
  intros He Hj Hph. destruct (flush_drop_spec e g env j He Hj Hph) as (q & l & -> & Ei & Hl).
  intros recss Hrep. exists recss. split; [done|]. cbn. intros q' l' ->. right. exists q', (l' ++ l). rewrite app_assoc.
  split_and!; [done..|]. intros key as_of Hge. destruct Hl as [->|[-> Hi]]; [by rewrite app_nil_r|].
  pose proof (in_tables _ _ He) as (recss' & [T1 _ _ _ _ T6]). rewrite (represents_list_fun _ _ _ T1 Hrep) in T6.
  unfold items_of. rewrite map_app, <- app_assoc, !(concat_app (map _ l')), !newest_app. f_equal. symmetry. by apply T6.
Qed.

Lemma sealed_splice e g env j f file :
  inv e g -> cycle g = Chosen j f -> writes_output env e j file -> sstables e = inputs j ->
  (forall recss, Forall2 represents (inputs j) recss ->
     zlen (concat recss) <= Bloom.max_record_count_for_bloom_cap Fmt.DEFAULT_BLOOM_BITS_PER_KEY) ->
  sealed_after e (compact_splice j file e).1 (set_cycle (Spliced j) (set_floor (Z.max (floor g) f) g)).
Proof.
  intros He Hc Hw Hin Hn. pose proof (in_tables _ _ He) as (recss' & Hto).
  destruct (compact_splice_spec e g env j f file recss' He Hc Hw Hin Hn Hto) as (t & out & -> & Hr & _ & Hread).
  intros recss Hrep. rewrite (represents_list_fun _ _ _ (to_rep _ _ _ Hto) Hrep) in *. exists [out]. split; [by repeat constructor|].
  cbn. intros q l E. right. exists q, l. split_and!; [done..|]. intros key as_of Hge.
  rewrite !concat_app, !newest_app. f_equal. simpl. rewrite app_nil_r. by apply Hread.
Qed.

Lemma flush_result_frame r e :
  immutables (flush_result r e).1 = immutables e /\ sstables (flush_result r e).1 = sstables e.
Proof.
  destruct r as [a|x|]; cbn [flush_result]; [done|..]; unfold modify_job, mbind, bind, modify, gets; simpl.
  - destruct (flush_job e) as [j|]; simpl; destruct (is_storage_exhausted x); simpl; try done; by destruct (_ <=? _).
  - destruct (flush_job e) as [j|]; simpl; [by destruct (_ <=? _)|done].
Qed.

Lemma sealed_step a e g e' g' : inv e g -> step e g a e' g' -> disciplined a e g -> sealed_after e e' g'.
Proof.
  intros He Hs Hd. destruct Hs; cbn [disciplined] in Hd.
  - by apply sealed_same.
  - by apply (sealed_after_insert e _ _ (fun t => account t seq)).
  - by apply (sealed_after_insert e _ _ (fun t => account t seq)).
  - destruct (read_active_stats key as_of e) as (c & ->). by apply sealed_same.
  - destruct (read_immutables_stats key as_of e) as (c & ->). by apply sealed_same.
  - destruct (read_sstables_stats key as_of e) as (c & ->). by apply sealed_same.
  - by apply sealed_same.
  - by apply sealed_same.
  - by apply sealed_same.
  - by apply sealed_same.
  - unfold flush_recv, mbind, bind, gets, modify. destruct (flush_queue e) as [|[fz c] q]; by apply sealed_same.
  - unfold flush_publish, fetch_add_sstable_id, append_edit, modify_job, mbind, bind, gets, modify, mret, ret.
    destruct (published j); [by apply sealed_same|]. destruct (fe_io_fault env); [by apply sealed_same|]. cbn.
    destruct (fe_write env); [|by apply sealed_same]. cbn.
    match goal with |- context [lift_panic ?r] => destruct r as [[[file meta]|x]|] end; cbn; [|by apply sealed_same..].
    destruct (fe_metadata env); [|by apply sealed_same]. cbn. destruct (fe_add env); by apply sealed_same.
  - specialize (Hd j p H1 H2). destruct (flush_phase g) eqn:Ep; [|rewrite flush_install_again by done; by apply sealed_same..].
    by apply (sealed_install e g j p).
  - unfold flush_marker, submit_wait, log_append, modify_job, mbind, bind, modify, mret, ret. destruct (fe_rotate env); [|by apply sealed_same].
    cbn. destruct (checkpoint_marker j); [by apply sealed_same|]. destruct (fe_marker env); by apply sealed_same.
  - unfold flush_checkpoint, append_edit, modify_job, mbind, bind, modify, mret, ret.
    destruct (checkpoint_recorded j); [by apply sealed_same|]. destruct (fe_set env); by apply sealed_same.
  - by apply sealed_drop.
  - by apply sealed_same.
  - destruct (flush_result_frame r e) as [Hi Ht]. by apply sealed_same.
  - apply compact_capture_spec in H2 as (_ & u & d & ->). by apply sealed_same.
  - apply compact_choose_spec in H2 as ((n & ->) & _). by apply sealed_same.
  - destruct (compact_manifest_frame env j file meta e) as (l & ->). by apply sealed_same.
  - destruct (Hd j f H1) as [Hin Hn]. by apply (sealed_splice e g env j f file).
  - by apply sealed_same.
  - by apply sealed_same.
Qed.

Lemma step_floor a e g e' g' : step e g a e' g' -> floor g <= floor g'.
Proof.
  intros Hs. destruct Hs; simpl; try lia. destruct (flush_phase g), (flush_install p e).2; simpl; lia.
Qed.

Lemma orderly_floor x y : orderly x y -> floor x.2 <= floor y.2.
Proof. induction 1 as [x|x y z (a & Hs & _) Hr IH]; [done|]. apply step_floor in Hs. lia. Qed.

(** [r] is what the log said about the key at some moment of the run from [x] to [y]. *)
Definition moment (x y : State) (key : bytes) (as_of : Z) (r : option (Z * RecordValue)) : Prop :=
  exists z, orderly x z /\ orderly z y /\ newest (log z.2) key as_of = r.

(** What a reader finds behind the active memtable at [y] ([all]: behind any of the frozen ones) was current at some
    moment since [x]. *)
Definition behind (all : Prop) (x y : State) (key : bytes) (as_of : Z) : Prop :=
  exists recss, Forall2 represents (sstables y.1) recss /\
    forall q l, immutables y.1 = q ++ l -> all \/ q = [] -> moment x y key as_of (newest (concat (items_of l ++ recss)) key as_of).

Lemma log_empty_active e g recss key as_of :
  inv e g -> Forall2 represents (sstables e) recss -> floor g <= as_of -> newest (flush_items (active e)) key as_of = None ->
  newest (concat (items_of (immutables e) ++ recss)) key as_of = newest (log g) key as_of.
Proof.
  intros He Hr Hge Hn. pose proof (in_tables _ _ He) as (recss' & [T1 _ _ _ T5 _]).
  rewrite (represents_list_fun _ _ _ T1 Hr) in T5. rewrite <- T5 by done. unfold sources, mem_sources. simpl.
  by rewrite newest_app, Hn.
Qed.

Lemma behind_run all x y z key as_of :
  behind all x y key as_of -> inv y.1 y.2 -> orderly x y -> orderly y z -> floor z.2 <= as_of -> behind all x z key as_of.
Proof.
  intros Hb Hy Hxy Hyz Hge. induction Hyz as [y|y y1 z (a & Hs & Hd) Hr IH]; [done|].
  assert (inv y1.1 y1.2) as Hy1 by by eapply inv_step. assert (orderly_step y y1) as Hstep by by exists a.
  assert (floor y1.2 <= as_of) as Hge1 by (apply orderly_floor in Hr; lia).
  apply IH; [|done|by eapply rtc_r|done]. destruct Hb as (recss & Hrep & Hb).
  destruct (sealed_step a _ _ _ _ Hy Hs Hd recss Hrep) as (recss' & Hrep' & Hl). exists recss'. split; [done|]. intros q' l' E Hall.
  destruct (Hl q' l' E) as [[-> Ha]|(q & l & E' & Hq & Hn)].
  - exists y1. split_and!; [by eapply rtc_r|done|]. simpl in E. subst l'. symmetry. apply log_empty_active; [done..|]. by rewrite Ha.
  - destruct (Hb q l E') as (w & Hw1 & Hw2 & Hw3); [tauto|]. exists w. split_and!; [done|by eapply rtc_r|]. by rewrite Hw3, Hn.
Qed.

Lemma orderly_cons a e g e' g' z : step e g a e' g' -> disciplined a e g -> orderly (e', g') z -> orderly (e, g) z.
Proof. intros Hs Hd Hr. refine (rtc_l _ _ _ _ _ Hr). by exists a. Qed.

Lemma orderly_log x y : orderly x y -> incl (log x.2) (log y.2).
Proof.
  induction 1 as [x|x y z (a & Hs & _) Hr IH]; [apply incl_refl|]. intros i Hi. apply IH. clear -Hs Hi.
  destruct Hs; simpl; try done; try (apply in_app_iff; by left).
  by destruct (flush_phase x.2), (flush_install p x.1).2.
Qed.

(** A reader that meets the active memtable of [x1], the frozen ones of [x2] and the tables of [x3] finds what the log said
    at one moment between [x1] and [x3]. *)
Lemma split_newest x1 x2 x3 recss key as_of :
  inv x1.1 x1.2 -> orderly x1 x2 -> orderly x2 x3 -> floor x3.2 <= as_of -> Forall2 represents (sstables x3.1) recss ->
  moment x1 x3 key as_of (first_newest (flush_items (active x1.1) :: items_of (immutables x2.1) ++ recss) key as_of).
Proof.
  intros H1 H12 H23 Hge Hr3. pose proof (orderly_floor _ _ H12) as Hf12. pose proof (orderly_floor _ _ H23) as Hf23.
  pose proof (inv_orderly _ _ H12 H1) as H2. pose proof (inv_orderly _ _ H23 H2) as H3.
  pose proof (in_tables _ _ H1) as (recss1 & [T1 _ T3 _ T5 _]). cbn [first_newest].
  destruct (newest (flush_items (active x1.1)) key as_of) as [r|] eqn:Ea.
  { exists x1. split_and!; [done|by eapply rtc_trans|]. rewrite <- T5 by lia. rewrite <- first_newest_ordered by done.
    unfold sources, mem_sources. simpl. by rewrite Ea. }
  assert (behind False x1 x2 key as_of) as Hb.
  { apply (behind_run _ x1 x1); [|done|done|done|lia]. exists recss1. split; [done|]. intros q l E [Hx|Hq]; [done|]. subst q. simpl in E. subst l.
    exists x1. split_and!; [done..|]. symmetry. apply log_empty_active; [done|done|lia|done]. }
  destruct Hb as (recss2 & Hr2 & Hb). rewrite first_newest_app.
  pose proof (in_tables _ _ H2) as (recss2' & [T1' _ T3' _ _ _]). rewrite (represents_list_fun _ _ _ T1' Hr2) in *.
  assert (ordered (items_of (immutables x2.1) ++ recss2)) as Ho2 by by apply StronglySorted_inv in T3' as [? _].
  destruct (first_newest (items_of (immutables x2.1)) key as_of) as [r|] eqn:Ei.
  { destruct (Hb [] (immutables x2.1)) as (w & Hw1 & Hw2 & Hw3); [done|by right|]. exists w.
    split_and!; [done|by eapply rtc_trans|]. rewrite Hw3, <- first_newest_ordered by done. by rewrite first_newest_app, Ei. }
  assert (behind True x1 x3 key as_of) as (recss3 & Hr3' & Hb3).
  { apply (behind_run _ x1 x2); [|done..]. exists recss2. split; [done|]. intros q l E _.
    destruct (Hb [] (immutables x2.1)) as (w & Hw1 & Hw2 & Hw3); [done|by right|]. exists w. split_and!; [done..|]. rewrite Hw3.
    apply ordered_app in Ho2 as (Hoi & _ & _). rewrite first_newest_ordered in Ei by done.
    rewrite !concat_app, !newest_app, Ei. unfold items_of in Ei. rewrite E, map_app, concat_app, newest_app in Ei.
    destruct (newest (concat (map _ q)) key as_of) as [[s v]|]; [by destruct (newest (concat (map _ l)) key as_of) as [[]|]; simpl in Ei; [destruct (_ <? _)|]|].
    simpl in Ei. unfold items_of. by rewrite Ei. }
  rewrite (represents_list_fun _ _ _ Hr3' Hr3) in Hb3.
  destruct (Hb3 (immutables x3.1) []) as (w & Hw1 & Hw2 & Hw3); [by rewrite app_nil_r|by left|]. exists w. split_and!; [done..|].
  rewrite Hw3. simpl. pose proof (in_tables _ _ H3) as (recss3' & [T1'' _ T3'' _ _ _]). rewrite (represents_list_fun _ _ _ T1'' Hr3) in *.
  symmetry. apply first_newest_ordered. by apply ordered_app in T3'' as (_ & ? & _).
Qed.

(** What a read whose scopes run in [e1], [e2] and [e3] returns. *)
Definition interleaved_get (key : bytes) (as_of : Z) (e1 e2 e3 : Engine) : outcome (option bytes) :=
  match (read_active key as_of e1).2 with
  | Returned (Some v) => Returned v
  | Returned None =>
      match (read_immutables key as_of e2).2 with
      | Returned (Some v) => Returned v
      | Returned None => (read_sstables key as_of e3).2
      | Failed x => Failed x
      | Panicked => Panicked
      end
  | Failed x => Failed x
  | Panicked => Panicked
  end.

(** [get_as_of] is the read with nothing between its scopes. *)
Lemma get_as_of_interleaved key as_of e :
  let e2 := (read_active key as_of e).1 in
  (get_as_of key as_of e).2 = interleaved_get key as_of e e2 (read_immutables key as_of e2).1.
Proof.
  unfold get_as_of, interleaved_get, mbind, bind. simpl. destruct (read_active key as_of e) as [e2 [[v|]|x|]]; simpl; [done| |done..].
  by destruct (read_immutables key as_of e2) as [e3 [[v|]|x|]].
Qed.

Lemma interleaved_get_first e1 e2 e3 recss key as_of :
  Mem.wf (active e1) -> Forall (fun m => Mem.wf m.2) (immutables e2) -> Forall2 represents (sstables e3) recss -> 0 <= as_of ->
  interleaved_get key as_of e1 e2 e3 =
    Returned (value_of (first_newest (flush_items (active e1) :: items_of (immutables e2) ++ recss) key as_of)).
Proof.
  intros Ha Hi Ht Has. unfold interleaved_get. cbn [first_newest]. rewrite first_newest_app.
  destruct (read_active_newest e1 key as_of Ha Has) as (c1 & ->). cbn [snd].
  destruct (newest (flush_items (active e1)) key as_of) as [[s v]|]; [done|]. cbv [fmap option_fmap option_map].
  destruct (read_immutables_newest e2 key as_of Hi Has) as (c2 & ->). cbn [snd]. fold (items_of (immutables e2)).
  destruct (first_newest (items_of (immutables e2)) key as_of) as [[s v]|]; [done|]. cbv [fmap option_fmap option_map].
  by destruct (read_sstables_newest e3 recss key as_of Ht) as (c3 & ->).
Qed.

(** C1: the engine's reads implement the abstract multi-version store.  A read of any key runs its three lock scopes in the
    states [e1], [e2] and [e3] of a run from an empty engine, with any steps of other threads between them: writes and
    batches applied, snapshots read, registered and dropped, the flush thread's steps, compaction cycles.  It returns,
    without error or panic, what the log of applied versions said about the key at one moment between its first and its
    last scope: the newest version at or below [as_of], a tombstone reading as absent; if no such version was applied in
    between, that is what the log said when the read began.  The run keeps the discipline that [disciplined] spells out
    and the code does not enforce, and the read is at or above the floor; every registered snapshot is, and so is
    everything from the durable watermark on.  [LsmRaces] shows, for each of the conditions on late applies, on tables
    installed during a cycle and on pending snapshots, what reads return without it. *)
Theorem reads_refine cfg key as_of e1 g1 e2 g2 e3 g3 :
  config_ok cfg ->
  orderly (engine_new cfg, ghost_new) (e1, g1) ->
  orderly ((read_active key as_of e1).1, g1) (e2, g2) ->
  orderly ((read_immutables key as_of e2).1, g2) (e3, g3) ->
  floor g3 <= as_of ->
  (exists e g, orderly (e1, g1) (e, g) /\ orderly (e, g) (e3, g3) /\
     interleaved_get key as_of e1 e2 e3 = Returned (value_of (newest (log g) key as_of))) /\
  ((forall s v, s <= as_of -> In (key, s, v) (log g3) -> In (key, s, v) (log g1)) ->
     interleaved_get key as_of e1 e2 e3 = Returned (value_of (newest (log g1) key as_of))) /\
  (forall s n, In (s, n) (snapshot_registry e3) -> floor g3 <= s) /\ floor g3 <= durable_through e3.
Proof.
  intros Hc Hr1 Hr2 Hr3 Hge. pose proof (inv_from_new _ _ Hc Hr1) as H1. simpl in H1.
  assert (orderly (e1, g1) (e2, g2)) as H12
    by exact (orderly_cons _ _ _ _ _ _ (step_read_active _ _ key as_of) I Hr2).
  assert (orderly (e2, g2) (e3, g3)) as H23
    by exact (orderly_cons _ _ _ _ _ _ (step_read_immutables _ _ key as_of) I Hr3).
  pose proof (inv_orderly _ _ H12 H1) as H2. pose proof (inv_orderly _ _ H23 H2) as H3. simpl in H2, H3.
  pose proof (in_tables _ _ H3) as (recss & [T1 _ _ _ _ _]).
  assert (0 <= as_of) by (pose proof (in_floor _ _ H3); lia).
  rewrite (interleaved_get_first e1 e2 e3 recss) by (apply H1 || apply H2 || done).
  destruct (split_newest (e1, g1) (e2, g2) (e3, g3) recss key as_of H1 H12 H23 Hge T1) as ([e g] & Hm1 & Hm2 & Hm3). cbn [fst snd] in *.
  rewrite <- Hm3. split_and!.
  - exists e, g. by split_and!.
  - intros Hq. do 2 f_equal. pose proof (inv_orderly _ _ Hm1 H1) as He. apply newest_ext; [apply He| |apply H1].
    intros s v Hs. split; [|apply (orderly_log _ _ Hm1)]. intros Hin. apply Hq; [done|]. by apply (orderly_log _ _ Hm2).
  - intros s n Hs. by apply (in_live _ _ H3 s n).
  - apply (in_floor _ _ H3).
Qed.

Lemma freeze_outcome e :
  wal_log (freeze_locked e).1 = wal_log e /\ durable_through (freeze_locked e).1 = durable_through e /\
  ((freeze_locked e).2 = Returned tt \/ exists n m, (freeze_locked e).2 = Failed (CapacityExceeded n m)).
Proof. unfold freeze_locked, mbind, bind, gets, modify. destruct (_ <=? _); simpl; split_and!; eauto. Qed.

Lemma apply_batch_outcome ops seq e :
  wal_log (apply_batch_after_durable ops seq e).1 = wal_log e /\
  durable_through (apply_batch_after_durable ops seq e).1 = durable_through e /\
  ((apply_batch_after_durable ops seq e).2 = Returned tt \/
   exists n m, (apply_batch_after_durable ops seq e).2 = Failed (CapacityExceeded n m)).
Proof.
  unfold apply_batch_after_durable, mbind, bind, gets, modify. simpl. destruct (Mem.is_full _); [|by auto].
  match goal with |- context [freeze_locked ?e1] => pose proof (freeze_outcome e1) as Hf end. exact Hf.
Qed.

(** The checks [write_batch] makes before it submits anything, and the group commit's refusal. *)
Definition batch_refused (e : Engine) (answer : WalAnswer) (ops : list WriteOp) : Prop :=
  zlen ops = 0 \/ max_batch_ops (config e) < zlen ops \/ storage_from_u8 (storage_state e) = StorageFull \/
  exists x, answer = Refused x.

Lemma write_batch_inv e g answer ops :
  inv e g -> (forall pos, answer = Acknowledged pos ->
    is_u64 (position_seq pos) /\ fresh_seq g (position_seq pos) /\
    Forall (fun op => frozen_before e (op_kv op).1 (position_seq pos)) ops) ->
  let '(e', r) := write_batch answer ops e in
  (batch_refused e answer ops /\ e' = e /\ exists x, r = Failed x) \/
  (~ batch_refused e answer ops /\ exists pos x, answer = Unconfirmed pos x /\ r = Failed x /\
    e' = set_wal_log (wal_log e ++ [(pos, OGroup (map to_member ops))]) e /\ inv e' g) \/
  (~ batch_refused e answer ops /\ exists pos, answer = Acknowledged pos /\
    wal_log e' = wal_log e ++ [(pos, OGroup (map to_member ops))] /\
    durable_through e' = Z.max (durable_through e) (position_seq pos) /\
    (r = Returned (position_seq pos) \/ exists n m, r = Failed (CapacityExceeded n m)) /\
    inv e' (add_log (batch_items (position_seq pos) ops) g)).
Proof.
  intros He Ha. unfold batch_refused.
  unfold write_batch, reject_if_storage_full, submit_wait, log_append, mbind, bind, gets, modify, mret, ret, fail.
  destruct (Z.eqb_spec (zlen ops) 0) as [|Hne]; [left; eauto 6|].
  destruct (Z.ltb_spec (max_batch_ops (config e)) (zlen ops)) as [|Hle]; [left; eauto 6|].
  destruct answer as [pos|x|pos x].
  - destruct (Ha pos eq_refl) as (Hu & Hf & Hb).
    set (e1 := set_durable_through (Z.max (durable_through e) (position_seq pos))
           (set_wal_log (wal_log e ++ [(pos, OGroup (map to_member ops))]) e)).
    assert (inv e1 g) as He1 by (apply (inv_frame e); simpl; try done; lia).
    assert (inv (apply_batch_after_durable ops (position_seq pos) e1).1 (add_log (batch_items (position_seq pos) ops) g)) as He2
      by (apply inv_apply_batch; simpl; try done; lia).
    destruct (apply_batch_outcome ops (position_seq pos) e1) as (Hlog & Hdur & Hout).
    destruct (storage_from_u8 (storage_state e)); [| |left; eauto 8]; cbn beta iota;
      match goal with |- context [apply_batch_after_durable ops _ ?x] => change x with e1 end;
      destruct (apply_batch_after_durable ops (position_seq pos) e1) as [e2 r2]; simpl in *;
      (destruct Hout as [->|(n1 & m1 & ->)]; right; right;
       (split; [intros [?|[?|[?|(x & ?)]]]; (lia || done)|exists pos; split_and!; eauto])).
  - destruct (storage_from_u8 (storage_state e)); left; eauto 8.
  - assert (inv (set_wal_log (wal_log e ++ [(pos, OGroup (map to_member ops))]) e) g) as He1 by by apply (inv_frame e).
    destruct (storage_from_u8 (storage_state e)); [| |left; eauto 8]; right; left;
      (split; [intros [?|[?|[?|(y & ?)]]]; (lia || done)|exists pos, x; by split_and!]).
Qed.

(** C12: [write_batch] is all or nothing in what readers see, on every branch.  An empty or oversized batch, a full store
    and a refusal of the group commit leave the engine as it was.  When the batch reached the WAL and only the wait for its
    durability failed, the WAL holds the whole batch as one record, the caller gets the error, and no read sees any of it:
    every part of the engine but the WAL is as it was.  Otherwise the WAL holds the whole batch as one record, every read
    from then on sees every operation of it (the last one per key), and the caller gets the sequence number, or
    [CapacityExceeded] when the memtable could not be frozen, the batch being applied all the same.  The engine satisfies
    the invariant of this file, the reads are at or above the compaction floor, the sequence number an acknowledged batch
    got is new, and no newer version of its keys is frozen already. *)
Theorem write_batch_atomic e g answer ops :
  inv e g -> (forall pos, answer = Acknowledged pos ->
    is_u64 (position_seq pos) /\ fresh_seq g (position_seq pos) /\
    Forall (fun op => frozen_before e (op_kv op).1 (position_seq pos)) ops) ->
  let '(e', r) := write_batch answer ops e in
  (batch_refused e answer ops /\ e' = e /\ exists x, r = Failed x) \/
  (~ batch_refused e answer ops /\ exists pos x, answer = Unconfirmed pos x /\ r = Failed x /\
    e' = set_wal_log (wal_log e ++ [(pos, OGroup (map to_member ops))]) e /\
    forall key as_of, floor g <= as_of -> (get_as_of key as_of e').2 = Returned (value_of (newest (log g) key as_of))) \/
  (~ batch_refused e answer ops /\ exists pos, answer = Acknowledged pos /\
    wal_log e' = wal_log e ++ [(pos, OGroup (map to_member ops))] /\
    (r = Returned (position_seq pos) \/ exists n m, r = Failed (CapacityExceeded n m)) /\
    forall key as_of, floor g <= as_of ->
      (get_as_of key as_of e').2 = Returned (value_of (newest (log g ++ batch_items (position_seq pos) ops) key as_of))).
Proof.
  intros He Ha. pose proof (write_batch_inv e g answer ops He Ha) as Hw. destruct (write_batch answer ops e) as [e' r].
  destruct Hw as [Hw|[(Hn & pos & x & H1 & H2 & H3 & Hi)|(Hn & pos & H1 & H4 & _ & H5 & Hi)]]; [by left|right; left|right; right].
  - split; [done|]. exists pos, x. split_and!; [done..|]. intros key as_of Hge. by destruct (inv_read _ _ key as_of Hi Hge) as (c & ->).
  - split; [done|]. exists pos. split_and!; [done..|]. intros key as_of Hge. by destruct (inv_read _ _ key as_of Hi Hge) as (c & ->).
Qed.

(** [contains] answers what [get_as_of] implies in every state, errors and panics included, and moves the read
    counters the same way. *)
Theorem contains_agrees_with_get key as_of e :
  contains key as_of e =
    let '(e', r) := get_as_of key as_of e in
    (e', match r with Returned v => Returned (bool_decide (is_Some v)) | Failed x => Failed x | Panicked => Panicked end).
Proof. apply contains_get. Qed.

(** Recovery replays a record into the memtable exactly as the write path applied it. *)
Theorem replay_matches_live m seq ops :
  apply_wal_op m seq (as_wal_op (OGroup (map to_member ops))) =
    fold_left (fun m op => let '(key, value) := op_kv op in apply_kv_to_memtable m seq key value) ops m.
Proof.
  simpl. rewrite map_map. revert m. induction ops as [|op ops IH]; intros m; [done|]. simpl. rewrite IH. by destruct op.
Qed.
End Reads.

(** ** Witnesses *)

Lemma frozen_before_empty `{Crc32c, Xxh64} e key seq : immutables e = [] -> sstables e = [] -> frozen_before e key seq.
Proof. intros E1 E2. unfold frozen_before. rewrite E1, E2. split; [by intros ? ? ? []|by intros ? ? ? ? []]. Qed.

Definition tiny_cfg : LsmConfig := {|
  memtable_max_size_bytes := 1; max_immutable_memtables := 4; sstable_target_block_size := 4096;
  lsm_bloom_bits_per_key := 10; max_flush_retries := 3; compaction_trigger_count := 1; max_batch_ops := 10000 |}.

Definition tiny_env : FlushEnv :=
  MkFlushEnv None (Ok tt) (Ok tt) (Ok tt) (Ok tt) (Acknowledged (Position 0 0 2)) (Ok tt) (Ok tt).

(** Takes one step of a run and checks its discipline. *)
Ltac orderly_by a := eapply (orderly_cons a); [econstructor|cbn [disciplined]|].

Definition demo_put : Action := AApply [x6b] 1 (Mem.MPut [x31]).

(** A key written and frozen. *)
Lemma demo_frozen :
  exists e g, orderly (engine_new tiny_cfg, ghost_new) (e, g) /\
    e = (apply_after_durable [x6b] 1 (Mem.MPut [x31]) (set_durable_through 1 (engine_new tiny_cfg))).1 /\
    g = add_log [([x6b], 1, RPut [x31])] ghost_new.
Proof.
  do 2 eexists. split; [|split; reflexivity]. orderly_by (ADurable 1); [discriminate|exact I|].
  orderly_by demo_put; [unfold_ints; lia|simpl; lia|intros i []|by apply frozen_before_empty|apply rtc_refl].
Qed.

Lemma frozen_writable :
  match flush_queue (apply_after_durable [x6b] 1 (Mem.MPut [x31]) (set_durable_through 1 (engine_new tiny_cfg))).1 with
  | (fz, _) :: _ => writable (writer_config tiny_cfg) (Mem.entry_count fz.2) (flush_items fz.2)
  | [] => False
  end.
Proof.
  cbn. split; [repeat constructor|constructor; [by_eval|constructor]|by_eval..].
Qed.

(** One put, flushed to a table while a reader of the key is between its first scope and its second. *)
Lemma demo_read :
  exists e1 g1 e2 g2, orderly (engine_new tiny_cfg, ghost_new) (e1, g1) /\
    orderly ((read_active [x6b] 9 e1).1, g1) (e2, g2) /\
    zlen (immutables e1) = 1 /\ zlen (immutables e2) = 0 /\ zlen (sstables e2) = 1 /\ floor g2 <= 9 /\
    log g1 = [([x6b], 1, RPut [x31])] /\ log g2 = log g1.
Proof.
  destruct demo_frozen as (e1 & g1 & Hr & -> & ->). do 4 eexists. split; [exact Hr|]. split.
  - orderly_by AFlushRecv; [vm_compute; reflexivity|exact I|].
    orderly_by (AFlushPublish tiny_env); [vm_compute; reflexivity|intros j Hj|].
    { pose proof frozen_writable as Hw. vm_compute in Hj. injection Hj as <-. exact Hw. }
    orderly_by AFlushInstall; [vm_compute; reflexivity|vm_compute; reflexivity|intros j p Hj Hp t Ht|].
    { vm_compute in Ht. destruct Ht. }
    orderly_by (AFlushDrop tiny_env); [vm_compute; reflexivity|vm_compute; discriminate|exact I|apply rtc_refl].
  - vm_compute. repeat split; discriminate.
Qed.

Lemma reads_refine_witness :
  exists e1 e2, zlen (immutables e1) = 1 /\ zlen (immutables e2) = 0 /\
    interleaved_get [x6b] 9 e1 e2 (read_immutables [x6b] 9 e2).1 = Returned (Some [x31]).
Proof.
  destruct demo_read as (e1 & g1 & e2 & g2 & H1 & H2 & Hi1 & Hi2 & Ht & Hf & Hl1 & Hl2). exists e1, e2.
  split; [exact Hi1|]. split; [exact Hi2|].
  destruct (reads_refine tiny_cfg [x6b] 9 e1 g1 e2 g2 (read_immutables [x6b] 9 e2).1 g2) as (_ & Hq & _);
    [by_eval|exact H1|exact H2|apply rtc_refl|exact Hf|].
  rewrite Hq; [rewrite Hl1; vm_compute; reflexivity|]. intros s v _. by rewrite Hl2.
Defined.

Lemma write_batch_atomic_witness :
  let '(e', r) := write_batch (Acknowledged (Position 0 0 1)) [WPut [x6b] [x31]; WDelete [x6b]] (engine_new tiny_cfg) in
  r = Returned 1 /\ (get_as_of [x6b] 5 e').2 = Returned None.
Proof.
  pose proof (write_batch_atomic (engine_new tiny_cfg) ghost_new (Acknowledged (Position 0 0 1)) [WPut [x6b] [x31]; WDelete [x6b]]) as Hw.
  destruct (write_batch _ _ _) as [e' r] eqn:E.
  destruct Hw as [(_ & _ & x & ->)|[(_ & pos & x & [=] & _)|(_ & pos & [= <-] & _ & _ & Hread)]].
  - apply inv_new. by_eval.
  - intros pos [= <-]. split; [by_eval|]. split; [intros i []|].
    repeat constructor; by apply frozen_before_empty.
  - by vm_compute in E.
  - split; [by vm_compute in E; injection E as <- <-|]. rewrite Hread by discriminate. vm_compute. reflexivity.
Defined.
End Reads.
