(* ===== verification/LsmScan.v ===== *)
(** * Range scans ([src/src/lsm/mod.rs], [range_scan] and [RangeScanIter])

    A scan captures the active memtable's range, the frozen memtables and the live tables once, under one lock after the
    other with other threads running in between, then merges them key by key: a heap holds each source's next key with all
    its versions; the sources that tie on the smallest key are resolved by recency, and only they are advanced.  A [BinaryHeap<Reverse<HeapEntry>>] is the ascending list of its entries, so
    [pop] is the head; a table's cursor behind [Peekable] is the list of items it has yet to yield ([drain]).  [None] is a
    panic (an index out of range, [BTreeMap::range] on a decreasing range) or, for the loops, "out of fuel". *)

From stdpp Require Import base list option strings sorting relations.
From Stdlib Require Import ZArith Lia.
From Stdlib Require Import Strings.Byte.
From S2P Require Import Prelude BTree EngineError Checksum WalFormat MemTable ManifestLog SsFormat Bloom Versions SsTable.
From S2P Require Import Compaction LsmTrack LsmEngine LsmReads.

Module Scan.
Import Sst Track Lsm Reads.
Import Mem(MemtableValue, MPut, MTombstone, MemTable).

(** ** State *)

Inductive RangeSource : Type :=
| Active
| Immutable (idx : nat)
| SsTableAt (idx : nat).

#[global] Instance range_source_eq_dec : EqDecision RangeSource.
Proof. solve_decision. Defined.

Record HeapEntry : Type := MkEntry {
  he_key : bytes;
  recency : nat;
  source : RangeSource;
  versions : list (Z * MemtableValue)
}.

(** [impl Ord for HeapEntry]. *)
Definition entry_cmp (a b : HeapEntry) : comparison :=
  cmp_then (cmp (he_key a) (he_key b)) (Nat.compare (recency a) (recency b)).

Fixpoint heap_push (e : HeapEntry) (heap : list HeapEntry) : list HeapEntry :=
  match heap with
  | [] => [e]
  | x :: heap' => match entry_cmp e x with Gt => x :: heap_push e heap' | _ => e :: heap end
  end.

Record ReadView : Type := MkView {
  active_range : list ((bytes * Z) * MemtableValue);
  rv_immutables : list (nat * MemTable);
  rv_sstables : list SsTable
}.

Record RangeScanIter : Type := MkIter {
  read_view : ReadView;
  as_of_seq : Z;
  end_ : Bound bytes;
  active_position : nat;
  immutable_next_start : list (option (Bound bytes));
  sstable_cursors : list (option (list (res item)));
  heap : list HeapEntry;
  heap_initialized : bool;
  scan_stats : ReadStatCounters;
  scan_errored : bool
}.

Definition set_active_position (x : nat) (it : RangeScanIter) : RangeScanIter :=
  MkIter (read_view it) (as_of_seq it) (end_ it) x (immutable_next_start it) (sstable_cursors it) (heap it)
    (heap_initialized it) (scan_stats it) (scan_errored it).
Definition set_immutable_next_start (x : list (option (Bound bytes))) (it : RangeScanIter) : RangeScanIter :=
  MkIter (read_view it) (as_of_seq it) (end_ it) (active_position it) x (sstable_cursors it) (heap it)
    (heap_initialized it) (scan_stats it) (scan_errored it).
Definition set_sstable_cursors (x : list (option (list (res item)))) (it : RangeScanIter) : RangeScanIter :=
  MkIter (read_view it) (as_of_seq it) (end_ it) (active_position it) (immutable_next_start it) x (heap it)
    (heap_initialized it) (scan_stats it) (scan_errored it).
Definition set_heap (x : list HeapEntry) (it : RangeScanIter) : RangeScanIter :=
  MkIter (read_view it) (as_of_seq it) (end_ it) (active_position it) (immutable_next_start it) (sstable_cursors it) x
    (heap_initialized it) (scan_stats it) (scan_errored it).
Definition set_heap_initialized (x : bool) (it : RangeScanIter) : RangeScanIter :=
  MkIter (read_view it) (as_of_seq it) (end_ it) (active_position it) (immutable_next_start it) (sstable_cursors it)
    (heap it) x (scan_stats it) (scan_errored it).
Definition set_scan_stats (x : ReadStatCounters) (it : RangeScanIter) : RangeScanIter :=
  MkIter (read_view it) (as_of_seq it) (end_ it) (active_position it) (immutable_next_start it) (sstable_cursors it)
    (heap it) (heap_initialized it) x (scan_errored it).
Definition set_scan_errored (x : bool) (it : RangeScanIter) : RangeScanIter :=
  MkIter (read_view it) (as_of_seq it) (end_ it) (active_position it) (immutable_next_start it) (sstable_cursors it)
    (heap it) (heap_initialized it) (scan_stats it) x.

(** ** Capture *)

Definition range_is_definitely_empty (start end_ : Bound bytes) : bool :=
  match start, end_ with
  | Unbounded, _ | _, Unbounded => false
  | Included s, Included e => ltb e s
  | Included s, Excluded e | Excluded s, Included e | Excluded s, Excluded e => leb e s
  end.

Definition record_value_to_memtable_value (v : RecordValue) : MemtableValue :=
  match v with RPut b => MPut b | RTombstone => MTombstone end.

Section Scan.
Context `{Crc32c, Xxh64}.

(** The three lock scopes of [capture_read_view]. *)
Definition capture_active (start end_ : Bound bytes) (e : Engine) : option (list ((bytes * Z) * MemtableValue)) :=
  Mem.range (active e) start end_.
Definition capture_immutables (e : Engine) : list (nat * Mem.MemTable) := immutables e.
Definition capture_sstables (e : Engine) : list SsTable := sstables e.

(** The view of a capture whose scopes run in [e1], [e2] and [e3], one lock at a time. *)
Definition capture_read_view (start end_ : Bound bytes) (e1 e2 e3 : Engine) : option ReadView :=
  if range_is_definitely_empty start end_ then Some (MkView [] [] [])
  else
    active_range ← capture_active start end_ e1;
    Some (MkView active_range (capture_immutables e2) (capture_sstables e3)).

(** [RangeScanIter::new]; [fuel] bounds each cursor's items. *)
Definition iter_new (fuel : nat) (view : ReadView) (start end_ : Bound bytes) (as_of_seq : Z) (stats : ReadStatCounters)
    : option RangeScanIter :=
  cursors ← mapM (fun table => Some <$> drain fuel (range_scan_cursor table start end_)) (rv_sstables view);
  Some (MkIter view as_of_seq end_ 0 (map (fun _ => Some start) (rv_immutables view)) cursors [] false stats false).

(** A scan whose view is captured in [e1], [e2] and [e3]. *)
Definition range_scan_at (fuel : nat) (start end_ : Bound bytes) (as_of_seq : Z) (e1 e2 e3 : Engine) : option RangeScanIter :=
  view ← capture_read_view start end_ e1 e2 e3;
  iter_new fuel view start end_ as_of_seq (add_request (read_stats e1)).

(** With nothing between the scopes. *)
Definition range_scan (fuel : nat) (start end_ : Bound bytes) (as_of_seq : Z) (e : Engine) : option RangeScanIter :=
  range_scan_at fuel start end_ as_of_seq e e e.

Definition range (fuel : nat) (start end_ : Bound bytes) (e : Engine) : option RangeScanIter :=
  range_scan fuel start end_ u64_max e.

(** ** Sources *)

(** The entries of [key] at the front of a memtable range, and how many there are. *)
Fixpoint take_entries (key : bytes) (l : list ((bytes * Z) * MemtableValue)) : list (Z * MemtableValue) :=
  match l with
  | ((k, seq), value) :: l => if eqb k key then (seq, value) :: take_entries key l else []
  | [] => []
  end.

Definition peek_active (it : RangeScanIter) : option HeapEntry * RangeScanIter :=
  match drop (active_position it) (active_range (read_view it)) with
  | [] => (None, it)
  | ((key, seq), value) :: rest =>
      let versions := take_entries key (((key, seq), value) :: rest) in
      (Some (MkEntry key 0 Active versions), set_active_position (active_position it + length versions)%nat it)
  end.

Definition peek_immutable (idx recency : nat) (it : RangeScanIter) : option (option HeapEntry * RangeScanIter) :=
  slot ← immutable_next_start it !! idx;
  match slot with
  | None => Some (None, it)
  | Some next_start =>
      table ← rv_immutables (read_view it) !! idx;
      l ← Mem.range table.2 next_start (end_ it);
      match l with
      | [] => Some (None, it)
      | ((key, seq), value) :: rest =>
          Some (Some (MkEntry key recency (Immutable idx) ((seq, value) :: take_entries key rest)),
                set_immutable_next_start (<[idx := Some (Excluded key)]> (immutable_next_start it)) it)
      end
  end.

(** The [peek]/[next] loop over a cursor: the versions of [key] at its front, and the rest of the cursor; an error at the
    front is returned. *)
Fixpoint take_records (key : bytes) (c : list (res item)) : res (list (Z * MemtableValue)) * list (res item) :=
  match c with
  | Ok (k, seq, value) :: c' =>
      if eqb k key then
        let '(r, rest) := take_records key c' in
        (match r with Ok vs => Ok ((seq, record_value_to_memtable_value value) :: vs) | Err e => Err e end, rest)
      else (Ok [], c)
  | Err e :: c' => (Err e, c')
  | [] => (Ok [], [])
  end.

Definition peek_sstable (idx recency : nat) (it : RangeScanIter) : option (res (option HeapEntry) * RangeScanIter) :=
  slot ← sstable_cursors it !! idx;
  match slot with
  | None => Some (Ok None, it)
  | Some [] => Some (Ok None, set_sstable_cursors (<[idx := None]> (sstable_cursors it)) it)
  | Some (Err e :: rest) => Some (Err e, set_sstable_cursors (<[idx := Some rest]> (sstable_cursors it)) it)
  | Some (Ok (key, first_seq, first_value) :: rest) =>
      let '(r, rest) := take_records key rest in
      let it := set_sstable_cursors (<[idx := Some rest]> (sstable_cursors it)) it in
      match r with
      | Ok vs =>
          Some (Ok (Some (MkEntry key recency (SsTableAt idx)
                            ((first_seq, record_value_to_memtable_value first_value) :: vs))), it)
      | Err e => Some (Err e, it)
      end
  end.

Definition push_entry (o : option HeapEntry) (it : RangeScanIter) : RangeScanIter :=
  match o with Some entry => set_heap (heap_push entry (heap it)) it | None => it end.

(** [only.is_none_or(|list| list.contains(&s))]. *)
Definition want (only : option (list RangeSource)) (s : RangeSource) : bool :=
  match only with None => true | Some l => bool_decide (s ∈ l) end.

Fixpoint refill_immutables (only : option (list RangeSource)) (idxs : list nat) (it : RangeScanIter) : option RangeScanIter :=
  match idxs with
  | [] => Some it
  | idx :: idxs =>
      if want only (Immutable idx) then
        '(o, it) ← peek_immutable idx (1 + idx) it;
        refill_immutables only idxs (push_entry o it)
      else refill_immutables only idxs it
  end.

Fixpoint refill_sstables (only : option (list RangeSource)) (base : nat) (idxs : list nat) (it : RangeScanIter)
    : option (res unit * RangeScanIter) :=
  match idxs with
  | [] => Some (Ok tt, it)
  | idx :: idxs =>
      if want only (SsTableAt idx) then
        '(r, it) ← peek_sstable idx (base + idx) it;
        match r with
        | Ok o => refill_sstables only base idxs (push_entry o it)
        | Err e => Some (Err e, it)
        end
      else refill_sstables only base idxs it
  end.

Definition refill (only : option (list RangeSource)) (it : RangeScanIter) : option (res unit * RangeScanIter) :=
  let it := if want only Active then (let '(o, it) := peek_active it in push_entry o it) else it in
  it ← refill_immutables only (seq 0 (length (rv_immutables (read_view it)))) it;
  refill_sstables only (1 + length (rv_immutables (read_view it))) (seq 0 (length (rv_sstables (read_view it)))) it.

(** ** Resolution and [Iterator::next] *)

(** [filter(|(seq, _)| seq <= as_of_seq).max_by_key(|(seq, _)| seq)]: the last of the greatest. *)
Definition best_version (as_of_seq : Z) (versions : list (Z * MemtableValue)) : option (Z * MemtableValue) :=
  fold_left (fun best p =>
    if p.1 <=? as_of_seq then
      match best with Some b => if b.1 <=? p.1 then Some p else best | None => Some p end
    else best) versions None.

Fixpoint winner (as_of_seq : Z) (group : list HeapEntry) : option MemtableValue :=
  match group with
  | [] => None
  | entry :: group =>
      match best_version as_of_seq (versions entry) with
      | Some (_, value) => Some value
      | None => winner as_of_seq group
      end
  end.

(** The entries that tie with [key] at the top of the heap, and the rest. *)
Fixpoint pop_group (key : bytes) (heap : list HeapEntry) : list HeapEntry * list HeapEntry :=
  match heap with
  | top :: heap' => if eqb (he_key top) key then (let '(g, rest) := pop_group key heap' in (top :: g, rest)) else ([], heap)
  | [] => ([], [])
  end.

Fixpoint scan_loop (fuel : nat) (it : RangeScanIter) : option (option (res (bytes * bytes)) * RangeScanIter) :=
  match fuel with
  | O => None
  | S fuel =>
      match heap it with
      | [] => Some (None, it)
      | first :: heap' =>
          let winning_key := he_key first in
          let '(ties, rest) := pop_group winning_key heap' in
          let group := first :: ties in
          let w := winner (as_of_seq it) group in
          '(r, it) ← refill (Some (map source group)) (set_heap rest it);
          match r with
          | Err e => Some (Some (Err e), set_scan_errored true it)
          | Ok _ =>
              match w with
              | Some (MPut v) => Some (Some (Ok (winning_key, v)), set_scan_stats (add_hit (scan_stats it)) it)
              | Some MTombstone | None => scan_loop fuel it
              end
          end
      end
  end.

Definition add_all_consulted (n : Z) (c : ReadStatCounters) : ReadStatCounters :=
  ReadStats (requests c) (hits c) (misses c) (wrapping_add64 (sstables_consulted c) n).

Definition scan_next (fuel : nat) (it : RangeScanIter) : option (option (res (bytes * bytes)) * RangeScanIter) :=
  if scan_errored it then Some (None, it)
  else if heap_initialized it then scan_loop fuel it
  else
    let it := set_heap_initialized true it in
    let it := set_scan_stats (add_all_consulted (zlen (rv_sstables (read_view it))) (scan_stats it)) it in
    '(r, it) ← refill None it;
    match r with
    | Err e => Some (Some (Err e), set_scan_errored true it)
    | Ok _ => scan_loop fuel it
    end.

(** What a consumer obtains by calling [next] until [None], and the counters at the end. *)
Fixpoint scan_drain (fuel : nat) (it : RangeScanIter) : option (list (res (bytes * bytes)) * ReadStatCounters) :=
  match fuel with
  | O => None
  | S fuel =>
      '(x, it) ← scan_next fuel it;
      match x with
      | None => Some ([], scan_stats it)
      | Some r => '(rest, st) ← scan_drain fuel it; Some (r :: rest, st)
      end
  end.

End Scan.

(** ** Sorted runs of versions, split at their first key *)

Definition mem_item (e : (bytes * Z) * MemtableValue) : item := (e.1.1, e.1.2, of_memtable_value e.2).
Definition ver (i : item) : Z * MemtableValue := (i.1.2, record_value_to_memtable_value i.2).

(** The versions of [k] at the front of a run, and the run behind them. *)
Fixpoint front (k : bytes) (l : list item) : list item :=
  match l with i :: l => if eqb i.1.1 k then i :: front k l else [] | [] => [] end.
Fixpoint back (k : bytes) (l : list item) : list item :=
  match l with i :: l' => if eqb i.1.1 k then back k l' else l | [] => [] end.

Definition rest_of (l : list item) : list item := match l with [] => [] | i :: _ => back i.1.1 l end.

(** A run without the versions of keys up to [k]. *)
Definition after (k : bytes) (l : list item) : list item := List.filter (fun i => ltb k i.1.1) l.

Lemma ver_mem_item e : ver (mem_item e) = (e.1.2, e.2).
Proof. by destruct e as [[k s] []]. Qed.

Lemma map_mem_item m : map mem_item (Mem.map m) = flush_items m.
Proof. done. Qed.

Lemma filter_mem_item lo hi (l : list ((bytes * Z) * MemtableValue)) :
  map mem_item (List.filter (fun e => above lo e.1.1 && below hi e.1.1) l) = List.filter (in_bounds lo hi) (map mem_item l).
Proof.
  induction l as [|[[k s] v] l IH]; [done|]. simpl. unfold in_bounds at 1. simpl.
  destruct (above lo k && below hi k); simpl; by rewrite IH.
Qed.

Lemma take_entries_front key l : take_entries key l = map ver (front key (map mem_item l)).
Proof.
  induction l as [|[[k s] v] l IH]; [done|]. simpl. destruct (eqb k key); [|done]. simpl. rewrite IH. f_equal.
  by destruct v.
Qed.

Lemma take_entries_length key l : drop (length (take_entries key l)) (map mem_item l) = back key (map mem_item l).
Proof.
  induction l as [|[[k s] v] l IH]; [done|]. simpl. by destruct (eqb k key).
Qed.

Lemma take_records_front key l : take_records key (map Ok l) = (Ok (map ver (front key l)), map Ok (back key l)).
Proof.
  induction l as [|[[k s] v] l IH]; [done|]. simpl. destruct (eqb k key) eqn:E; [|done]. by rewrite IH.
Qed.

Lemma sorted_after k l : sorted_items l -> sorted_items (after k l).
Proof.
  unfold sorted_items, after. induction 1 as [|i l Hs IH Hall]; simpl; [constructor|].
  destruct (ltb k i.1.1); [|done]. constructor; [done|]. apply List.Forall_forall. intros j [Hj _]%filter_In.
  rewrite List.Forall_forall in Hall. by apply Hall.
Qed.

Lemma sorted_filter f l : sorted_items l -> sorted_items (List.filter f l).
Proof.
  unfold sorted_items. induction 1 as [|i l Hs IH Hall]; simpl; [constructor|].
  destruct (f i); [|done]. constructor; [done|]. apply List.Forall_forall. intros j [Hj _]%filter_In.
  rewrite List.Forall_forall in Hall. by apply Hall.
Qed.

Lemma sorted_head_le i l j : sorted_items (i :: l) -> In j (i :: l) -> cmp i.1.1 j.1.1 <> Gt.
Proof.
  intros [_ Hall]%StronglySorted_inv [<-|Hj]; [by rewrite cmp_refl|]. rewrite List.Forall_forall in Hall.
  by apply cmp_key_le, Hall.
Qed.

Lemma after_id k l : (forall i, In i l -> cmp k i.1.1 = Lt) -> after k l = l.
Proof.
  induction l as [|i l IH]; intros Hl; [done|]. unfold after. simpl. rewrite (proj2 (ltb_lt _ _)) by (apply Hl; by left).
  f_equal. apply IH. intros j Hj. apply Hl. by right.
Qed.

Lemma back_after k l : sorted_items l -> (forall i, In i l -> cmp k i.1.1 <> Gt) -> back k l = after k l.
Proof.
  induction l as [|i l IH]; intros Hs Hle; [done|]. cbn [back]. destruct (eqb i.1.1 k) eqn:E.
  - apply eqb_eq in E. rewrite IH; [|by apply StronglySorted_inv in Hs as []|intros j Hj; apply Hle; by right].
    unfold after. simpl. unfold ltb at 2. by rewrite E, cmp_refl.
  - symmetry. apply after_id. intros j Hj. apply (cmp_lt_le_trans _ i.1.1); [|by apply (sorted_head_le i l)].
    specialize (Hle i ltac:(by left)). destruct (cmp k i.1.1) eqn:E'; [|done|done].
    apply cmp_eq in E' as ->. by rewrite (proj2 (eqb_eq _ _)) in E.
Qed.

Lemma rest_of_after i l : sorted_items (i :: l) -> rest_of (i :: l) = after i.1.1 (i :: l).
Proof. intros Hs. unfold rest_of. apply back_after; [done|]. intros j Hj. by apply (sorted_head_le i l). Qed.

Lemma after_length k l : (length (after k l) <= length l)%nat.
Proof. induction l as [|i l IH]; [done|]. unfold after in *. simpl. destruct (ltb k i.1.1); simpl; lia. Qed.

Lemma newest_filter (f : item -> bool) l key as_of :
  (forall i, In i l -> i.1.1 = key -> f i = true) -> newest (List.filter f l) key as_of = newest l key as_of.
Proof.
  induction l as [|i l IH]; intros Hf; [done|]. simpl. rewrite newest_cons. rewrite <- IH by (intros; apply Hf; [by right|done]).
  destruct (f i) eqn:E; [by rewrite newest_cons|]. unfold pick. destruct (eqb i.1.1 key) eqn:Ek; [|done].
  apply eqb_eq in Ek. by rewrite (Hf i ltac:(by left) Ek) in E.
Qed.

Lemma newest_absent (l : list item) key as_of : (forall i, In i l -> i.1.1 <> key) -> newest l key as_of = None.
Proof. intros Hl. apply newest_None. intros s v Hin. by destruct (Hl _ Hin). Qed.

Lemma newest_front i l as_of :
  sorted_items (i :: l) -> newest (front i.1.1 (i :: l)) i.1.1 as_of = newest (i :: l) i.1.1 as_of.
Proof.
  intros Hs. assert (forall k l, front k l ++ back k l = l) as Hfb.
  { intros k. induction l0 as [|j l0 IH]; [done|]. simpl. destruct (eqb j.1.1 k); simpl; [by rewrite IH|done]. }
  rewrite <- (Hfb i.1.1 (i :: l)) at 2. rewrite newest_app.
  change (back i.1.1 (i :: l)) with (rest_of (i :: l)). rewrite rest_of_after by done.
  rewrite (newest_absent (after _ _)); [by rewrite better_None_r|].
  intros j [_ Hj]%filter_In E. apply ltb_lt in Hj. rewrite E, cmp_refl in Hj. done.
Qed.

Lemma best_version_spec as_of vs :
  match best_version as_of vs with
  | Some p => In p vs /\ p.1 <= as_of /\ forall q, In q vs -> q.1 <= as_of -> q.1 <= p.1
  | None => forall q, In q vs -> as_of < q.1
  end.
Proof.
  unfold best_version. induction vs as [|x vs IH] using rev_ind; [by intros q []|].
  rewrite fold_left_app. cbn [fold_left]. destruct (fold_left _ vs None) as [b|].
  - destruct IH as (Hin & Hle & Hmax). destruct (Z.leb_spec x.1 as_of); [destruct (Z.leb_spec b.1 x.1)|];
      (split_and!; [rewrite in_app_iff; simpl; auto|done|]);
      intros q [Hq|[<-|[]]]%in_app_iff Hqa; try lia; specialize (Hmax q Hq Hqa); lia.
  - destruct (Z.leb_spec x.1 as_of).
    + split_and!; [rewrite in_app_iff; simpl; auto|done|]. intros q [Hq|[<-|[]]]%in_app_iff Hqa; [|lia].
      specialize (IH q Hq). lia.
    + intros q [Hq|[<-|[]]]%in_app_iff; [by apply IH|done].
Qed.

(** [best_version] is the abstract read of a run of one key. *)
Lemma best_version_newest k l as_of :
  uniq l -> (forall i, In i l -> i.1.1 = k) ->
  best_version as_of (map ver l) = (fun p => (p.1, record_value_to_memtable_value p.2)) <$> newest l k as_of.
Proof.
  intros Hu Hk. pose proof (best_version_spec as_of (map ver l)) as Hb.
  assert (forall s v, In (k, s, v) l -> In (s, record_value_to_memtable_value v) (map ver l)) as Hv.
  { intros s v Hin. apply in_map_iff. by exists (k, s, v). }
  destruct (best_version as_of (map ver l)) as [[s w]|].
  - destruct Hb as (Hin & Hle & Hmax). apply in_map_iff in Hin as ([[k' s'] v] & [= <- <-] & Hin).
    pose proof (Hk _ Hin) as E. simpl in E, Hle. subst k'.
    assert (newest l k as_of = Some (s', v)) as ->; [|done]. apply newest_iff; [done|]. split_and!; [done|done|].
    intros s2 v2 Hin2 Hle2. apply (Hmax _ (Hv _ _ Hin2) Hle2).
  - assert (newest l k as_of = None) as ->; [|done]. apply newest_None. intros s v Hin. by apply (Hb _ (Hv _ _ Hin)).
Qed.

(** ** The heap *)

Definition rank_key (e : HeapEntry) : bytes * Z := (he_key e, Z.of_nat (recency e)).
Definition heap_lt (a b : HeapEntry) : Prop := cmp (rank_key a) (rank_key b) = Lt.

Lemma entry_cmp_rank a b : entry_cmp a b = cmp (rank_key a) (rank_key b).
Proof.
  unfold entry_cmp, rank_key. rewrite cmp_pair. destruct (cmp (he_key a) (he_key b)); [|done|done]. simpl.
  unfold cmp, Z_ord. by rewrite Nat2Z.inj_compare.
Qed.

Lemma In_heap_push e h x : In x (heap_push e h) <-> x = e \/ In x h.
Proof.
  induction h as [|y h IH]; simpl; [naive_solver|]. destruct (entry_cmp e y); simpl; rewrite ?IH; naive_solver.
Qed.

Lemma heap_push_sorted e h :
  StronglySorted heap_lt h -> (forall x, In x h -> recency x <> recency e) -> StronglySorted heap_lt (heap_push e h).
Proof.
  induction 1 as [|y h Hs IH Hall]; intros Hne; simpl; [repeat constructor|]. rewrite entry_cmp_rank.
  destruct (cmp (rank_key e) (rank_key y)) eqn:E.
  - apply cmp_eq in E. injection E as E1 E2%Nat2Z.inj. by destruct (Hne y ltac:(by left)).
  - constructor; [by constructor|]. constructor; [done|]. eapply Forall_impl; [exact Hall|]. intros z Hz.
    by apply (cmp_lt_trans _ (rank_key y)).
  - constructor; [apply IH; intros x Hx; apply Hne; by right|]. apply List.Forall_forall. intros x [->|Hx]%In_heap_push.
    + by apply cmp_gt_lt.
    + rewrite List.Forall_forall in Hall. by apply Hall.
Qed.

Lemma heap_head_le e h x : StronglySorted heap_lt (e :: h) -> In x (e :: h) -> cmp (he_key e) (he_key x) <> Gt.
Proof.
  intros [_ Hall]%StronglySorted_inv [<-|Hx]; [by rewrite cmp_refl|]. rewrite List.Forall_forall in Hall.
  specialize (Hall x Hx). unfold heap_lt, rank_key in Hall. rewrite cmp_pair in Hall.
  by destruct (cmp (he_key e) (he_key x)).
Qed.

(** Popping the ties takes the entries of that key, in order, and leaves the others. *)
Lemma pop_group_filter k h :
  StronglySorted heap_lt h -> (forall x, In x h -> cmp k (he_key x) <> Gt) ->
  pop_group k h = (List.filter (fun x => eqb (he_key x) k) h, List.filter (fun x => negb (eqb (he_key x) k)) h).
Proof.
  induction h as [|e h IH]; intros Hs Hle; [done|]. cbn [pop_group List.filter]. destruct (eqb (he_key e) k) eqn:E.
  - rewrite IH; [done|by apply StronglySorted_inv in Hs as []|intros x Hx; apply Hle; by right].
  - assert (forall x, In x h -> eqb (he_key x) k = false) as Hx.
    { intros x Hx. destruct (eqb (he_key x) k) eqn:Ex; [|done]. apply eqb_eq in Ex.
      pose proof (heap_head_le e h x Hs ltac:(by right)) as H1. pose proof (Hle e ltac:(by left)) as H2.
      rewrite Ex in H1. assert (he_key e = k) as E'.
      { apply cmp_eq. rewrite (cmp_opp k (he_key e)). rewrite (cmp_opp k (he_key e)) in H1.
        by destruct (cmp k (he_key e)). }
      by rewrite E', (proj2 (eqb_eq k k)) in E. }
    cbn [negb]. f_equal.
    + clear -Hx. induction h as [|x h IH]; [done|]. simpl. rewrite Hx by by left. apply IH. intros; apply Hx; by right.
    + f_equal. clear -Hx. induction h as [|x h IH]; [done|]. simpl. rewrite Hx by by left. simpl. f_equal.
      apply IH. intros; apply Hx; by right.
Qed.

Lemma sorted_unique {A} (R : A -> A -> Prop) (l l' : list A) :
  (forall x, ~ R x x) -> (forall x y, R x y -> R y x -> False) ->
  StronglySorted R l -> StronglySorted R l' -> (forall x, In x l <-> In x l') -> l = l'.
Proof.
  intros Hirr Hasym Hs. revert l'. induction Hs as [|x l Hs IH Hall]; intros [|y l'] Hs' Hin; [done| | |].
  - by destruct (proj2 (Hin y) (or_introl eq_refl)).
  - by destruct (proj1 (Hin x) (or_introl eq_refl)).
  - apply StronglySorted_inv in Hs' as [Hs' Hall']. rewrite List.Forall_forall in Hall, Hall'.
    assert (x = y) as <-.
    { destruct (proj1 (Hin x) (or_introl eq_refl)) as [|Hx]; [done|].
      destruct (proj2 (Hin y) (or_introl eq_refl)) as [|Hy]; [done|]. by destruct (Hasym x y); auto. }
    f_equal. apply IH; [done|]. intros z. split; intros Hz.
    + destruct (proj1 (Hin z) (or_intror Hz)) as [->|]; [|done]. by destruct (Hirr z); auto.
    + destruct (proj2 (Hin z) (or_intror Hz)) as [->|]; [|done]. by destruct (Hirr z); auto.
Qed.

(** ** The merge's invariant *)

(** The source with recency [i] when [n] memtables are frozen. *)
Definition source_of (n i : nat) : RangeSource :=
  match i with
  | O => Active
  | S j => if (j <? n)%nat then Immutable j else SsTableAt (j - n)
  end.

Lemma source_of_inj n i j : source_of n i = source_of n j -> i = j.
Proof.
  destruct i as [|i], j as [|j]; simpl; try done; try (destruct (Nat.ltb_spec i n)); try (destruct (Nat.ltb_spec j n));
    try done; intros [= E]; lia.
Qed.

(** The heap entry of a source whose remaining run is [l]. *)
Definition entry_of (n i : nat) (l : list item) : option HeapEntry :=
  match l with
  | [] => None
  | x :: _ => Some (MkEntry x.1.1 i (source_of n i) (map ver (front x.1.1 l)))
  end.

Section Merge.
Context (view : ReadView) (en : Bound bytes) (snap : Z).
Hypothesis Hwf : Forall (fun m => Mem.wf m.2) (rv_immutables view).

Let n : nat := length (rv_immutables view).

(** Source [i]'s cursor has [l] before it. *)
Definition cursor_rep (it : RangeScanIter) (i : nat) (l : list item) : Prop :=
  match source_of n i with
  | Active => map mem_item (drop (active_position it) (active_range view)) = l
  | Immutable j =>
      exists b m, immutable_next_start it !! j = Some (Some b) /\ rv_immutables view !! j = Some m /\
        range_panics b en = false /\ List.filter (in_bounds b en) (flush_items m.2) = l
  | SsTableAt j =>
      sstable_cursors it !! j = Some (Some (map Ok l)) \/ (l = [] /\ sstable_cursors it !! j = Some None)
  end.

(** The runs [P] of the sources, by recency; [filled i] when source [i]'s first key is in the heap. *)
Record merging (filled : nat -> bool) (P : list (list item)) (it : RangeScanIter) : Prop := {
  mg_view : read_view it = view;
  mg_end : end_ it = en;
  mg_snap : as_of_seq it = snap;
  mg_ok : scan_errored it = false;
  mg_init : heap_initialized it = true;
  mg_len : length P = (1 + n + length (rv_sstables view))%nat;
  mg_sorted : Forall sorted_items P;
  mg_heap : StronglySorted heap_lt (heap it);
  mg_in : forall e, In e (heap it) <-> exists i l, P !! i = Some l /\ filled i = true /\ entry_of n i l = Some e;
  mg_cur : forall i l, P !! i = Some l -> cursor_rep it i (if filled i then rest_of l else l)
}.

Lemma merging_ext f f' P it : (forall i, (i < length P)%nat -> f i = f' i) -> merging f P it -> merging f' P it.
Proof.
  intros Hf [H1 H2 H3 H4 Hin H5 H6 H7 H8 H9]. split; try done.
  - intros e. rewrite H8. split; intros (i & l & Hi & Hfi & He); exists i, l; (split_and!; [done| |done]);
      apply lookup_lt_Some in Hi; [by rewrite <- Hf|by rewrite Hf].
  - intros i l Hi. rewrite <- Hf; [by apply H9|]. by eapply lookup_lt_Some.
Qed.

(** Advancing one source that is not in the heap. *)
Lemma merging_fill f P it it' i l :
  merging f P it -> P !! i = Some l -> f i = false ->
  read_view it' = view -> end_ it' = en -> as_of_seq it' = snap -> scan_errored it' = false ->
  heap_initialized it' = true -> heap it' = heap it ->
  cursor_rep it' i (rest_of l) -> (forall j k, j <> i -> (j < length P)%nat -> cursor_rep it j k -> cursor_rep it' j k) ->
  merging (fun j => f j || (j =? i)%nat) P (push_entry (entry_of n i l) it').
Proof.
  intros [H1 H2 H3 H4 Hin H5 H6 H7 H8 H9] Hi Hfi E1 E2 E3 E4 E5 Eh Hc Ho.
  assert (forall e, entry_of n i l = Some e -> recency e = i) as Hrec by (intros e; destruct l; [done|by intros [= <-]]).
  assert (forall x, In x (heap it) -> recency x <> i) as Hfresh.
  { intros x (j & k & Hj & Hfj & Hx)%H8 E. destruct k as [|y k]; [done|]. injection Hx as <-. simpl in E. congruence. }
  assert (forall j k x, cursor_rep it' j k -> cursor_rep (set_heap x it') j k) as Hsh by (intros j k x; done).
  assert (heap (push_entry (entry_of n i l) it') =
    match entry_of n i l with Some e => heap_push e (heap it) | None => heap it end) as Ehp
    by (destruct (entry_of n i l); simpl; by rewrite Eh).
  split; try (by destruct (entry_of n i l)); try done.
  - rewrite Ehp. destruct (entry_of n i l) as [e|] eqn:E; [|done]. apply heap_push_sorted; [done|].
    intros x Hx. rewrite (Hrec e eq_refl). by apply Hfresh.
  - intros e. rewrite Ehp. split.
    + intros He. assert (Some e = entry_of n i l \/ In e (heap it)) as [He'|He'].
      { destruct (entry_of n i l) as [e'|]; [apply In_heap_push in He as [->|]; auto|auto]. }
      * exists i, l. rewrite Nat.eqb_refl, orb_true_r. done.
      * apply H8 in He' as (j & k & Hj & Hfj & He'). exists j, k. by rewrite Hfj.
    + intros (j & k & Hj & Hfj & He). apply orb_true_iff in Hfj as [Hfj|Ej%Nat.eqb_eq].
      * assert (In e (heap it)) by (apply H8; eauto). destruct (entry_of n i l); [apply In_heap_push; auto|done].
      * subst j. rewrite Hi in Hj. injection Hj as <-. rewrite He. apply In_heap_push. by left.
  - intros j k Hj. assert (cursor_rep it' j (if f j || (j =? i)%nat then rest_of k else k)) as Hr.
    { destruct (Nat.eqb_spec j i) as [->|Hne].
      - rewrite Hi in Hj. injection Hj as <-. by rewrite orb_true_r.
      - rewrite orb_false_r. apply Ho; [done|by eapply lookup_lt_Some|by apply H9]. }
    by destruct (entry_of n i l).
Qed.

Lemma cursor_active it l : cursor_rep it 0 l -> map mem_item (drop (active_position it) (active_range view)) = l.
Proof. done. Qed.

Lemma fill_active f P it l :
  merging f P it -> P !! 0%nat = Some l -> f 0%nat = false ->
  merging (fun j => f j || (j =? 0)%nat) P (let '(o, it) := peek_active it in push_entry o it).
Proof.
  intros Hm H0 Hf. pose proof (mg_cur _ _ _ Hm 0%nat l H0) as Hc. rewrite Hf in Hc. apply cursor_active in Hc.
  unfold peek_active. rewrite (mg_view _ _ _ Hm).
  destruct (drop (active_position it) (active_range view)) as [|[[k s] v] rest] eqn:Ed.
  - subst l. change (push_entry None it) with (push_entry (entry_of n 0 []) it).
    apply (merging_fill f P it it 0 []); try done; try (by destruct Hm). unfold cursor_rep. simpl. by rewrite Ed.
  - assert (Some (MkEntry k 0 Active (take_entries k (((k, s), v) :: rest))) = entry_of n 0 l) as ->.
    { subst l. cbn [map entry_of mem_item fst source_of]. by rewrite take_entries_front. }
    apply (merging_fill f P it _ 0 l); try done; try (by destruct Hm).
    + unfold cursor_rep. cbn [source_of set_active_position active_position].
      rewrite <- drop_drop, Ed. subst l.
      change (rest_of (map mem_item ((k, s, v) :: rest))) with (back k (map mem_item ((k, s, v) :: rest))).
      rewrite <- take_entries_length. by rewrite List.skipn_map.
    + intros j q Hj _. unfold cursor_rep. destruct j as [|j]; [done|]. simpl. by destruct (j <? n)%nat.
Qed.

Lemma after_in_bounds b k (l : list item) :
  above b k = true -> below en k = true ->
  after k (List.filter (in_bounds b en) l) = List.filter (in_bounds (Excluded k) en) l.
Proof.
  intros Ha Hb. unfold after. induction l as [|i l IH]; [done|]. cbn [List.filter]. unfold in_bounds at 1 4. cbn [above].
  destruct (ltb k i.1.1) eqn:E.
  - rewrite (above_mono b k i.1.1); [|apply ltb_lt in E; by rewrite E|done]. cbn [andb].
    destruct (below en i.1.1); [|done]. cbn [List.filter]. rewrite E. by f_equal.
  - cbn [andb]. destruct (above b i.1.1 && below en i.1.1); [|done]. cbn [List.filter]. by rewrite E.
Qed.

Lemma fill_immutable f P it j l :
  merging f P it -> (j < n)%nat -> P !! S j = Some l -> f (S j) = false ->
  exists o it', peek_immutable j (1 + j) it = Some (o, it') /\
    merging (fun i => f i || (i =? S j)%nat) P (push_entry o it').
Proof.
  intros Hm Hj HP Hf. pose proof (mg_cur _ _ _ Hm (S j) l HP) as Hc. rewrite Hf in Hc.
  assert (source_of n (S j) = Immutable j) as Hs by (simpl; by destruct (Nat.ltb_spec j n); [|lia]).
  unfold cursor_rep in Hc. rewrite Hs in Hc. destruct Hc as (b & m & Hb & Hmj & Hp & Hl).
  unfold peek_immutable. rewrite Hb, (mg_view _ _ _ Hm), Hmj, (mg_end _ _ _ Hm). cbn [mbind option_bind].
  assert (Mem.wf m.2) as Hw by (rewrite Forall_forall in Hwf; apply Hwf; by eapply list_elem_of_lookup_2).
  rewrite Mem.range_spec, Hp by done. cbn [mbind option_bind].
  pose proof (filter_mem_item b en (Mem.map m.2)) as Hi. rewrite map_mem_item, Hl in Hi.
  destruct (List.filter _ (Mem.map m.2)) as [|[[k s] v] rest] eqn:Ed.
  - simpl in Hi. rewrite <- Hi in HP, Hl. eexists _, _. split; [done|].
    change (push_entry None it) with (push_entry (entry_of n (S j) []) it).
    apply (merging_fill f P it it (S j) []); try done; try (by destruct Hm).
    unfold cursor_rep. rewrite Hs. exists b, m. simpl. done.
  - eexists _, _. split; [done|].
    assert (Some (MkEntry k (1 + j) (Immutable j) ((s, v) :: take_entries k rest)) = entry_of n (S j) l) as ->.
    { rewrite <- Hi. cbn [map entry_of mem_item fst]. rewrite Hs. rewrite take_entries_front. cbn [front fst].
      rewrite (proj2 (eqb_eq k k)) by done. cbn [map]. by rewrite (ver_mem_item ((k, s), v)). }
    assert (In (mem_item ((k, s), v)) (List.filter (in_bounds b en) (flush_items m.2))) as Hin
      by (rewrite Hl, <- Hi; by left).
    apply filter_In in Hin as [_ Hin]. unfold in_bounds in Hin. apply andb_prop in Hin as [Ha Hbe]. simpl in Ha, Hbe.
    assert (rest_of l = List.filter (in_bounds (Excluded k) en) (flush_items m.2)) as Hr.
    { rewrite <- after_in_bounds with (b := b) by done. rewrite Hl, <- Hi. apply (rest_of_after (mem_item ((k, s), v))).
      pose proof (mg_sorted _ _ _ Hm) as Hso. rewrite Forall_forall in Hso.
      specialize (Hso l ltac:(by eapply list_elem_of_lookup_2)). by rewrite <- Hi in Hso. }
    apply (merging_fill f P it _ (S j) l); try done; try (by destruct Hm).
    + unfold cursor_rep. rewrite Hs. exists (Excluded k), m.
      cbn [set_immutable_next_start immutable_next_start]. rewrite Hr. split_and!; [|done| |done].
      * apply list_lookup_insert_eq. by eapply lookup_lt_Some.
      * destruct en as [e|e|]; simpl in Hbe |- *; [| |done].
        -- rewrite leb_negb_ltb in Hbe. by apply negb_true_iff.
        -- rewrite leb_negb_ltb. by rewrite Hbe.
    + intros i q Hne _. unfold cursor_rep. destruct i as [|i]; [done|]. cbn [source_of].
      destruct (Nat.ltb_spec i n); [|done]. cbn [set_immutable_next_start immutable_next_start].
      rewrite list_lookup_insert_ne by congruence. done.
Qed.

Lemma fill_sstable f P it j l :
  merging f P it -> P !! (1 + n + j)%nat = Some l -> f (1 + n + j)%nat = false ->
  exists o it', peek_sstable j (1 + n + j) it = Some (Ok o, it') /\
    merging (fun i => f i || (i =? 1 + n + j)%nat) P (push_entry o it').
Proof.
  intros Hm HP Hf. pose proof (mg_cur _ _ _ Hm _ l HP) as Hc. rewrite Hf in Hc.
  assert (source_of n (1 + n + j) = SsTableAt j) as Hs.
  { simpl. destruct (Nat.ltb_spec (n + j) n); [lia|]. f_equal. lia. }
  assert (forall c i q, i <> (1 + n + j)%nat -> cursor_rep it i q ->
    cursor_rep (set_sstable_cursors (<[j := c]> (sstable_cursors it)) it) i q) as Ho.
  { intros c i q Hne. unfold cursor_rep. destruct i as [|i]; [done|]. cbn [source_of].
    destruct (Nat.ltb_spec i n); [done|]. cbn [set_sstable_cursors sstable_cursors].
    rewrite list_lookup_insert_ne by lia. done. }
  unfold cursor_rep in Hc. rewrite Hs in Hc. unfold peek_sstable. destruct Hc as [Hc|[-> Hc]].
  - rewrite Hc. cbn [mbind option_bind]. destruct l as [|[[k s] v] l]; cbn [map].
    + eexists _, _. split; [done|].
      match goal with |- merging _ _ (push_entry None ?i) => change (push_entry None i) with (push_entry (entry_of n (1 + n + j) []) i) end.
      apply (merging_fill f P it _ (1 + n + j) []); try done; try (by destruct Hm); [|auto].
      unfold cursor_rep. rewrite Hs. right. split; [done|]. cbn. apply list_lookup_insert_eq. by eapply lookup_lt_Some.
    + rewrite take_records_front. eexists _, _. split; [done|].
      assert (Some (MkEntry k (1 + n + j) (SsTableAt j) ((s, record_value_to_memtable_value v) :: map ver (front k l)))
        = entry_of n (1 + n + j) ((k, s, v) :: l)) as ->.
      { unfold entry_of. rewrite Hs. cbn [fst front]. by rewrite (proj2 (eqb_eq k k)) by done. }
      apply (merging_fill f P it _ (1 + n + j) _); try done; try (by destruct Hm); [|auto].
      unfold cursor_rep. rewrite Hs. left. cbn [set_sstable_cursors sstable_cursors].
      rewrite list_lookup_insert_eq by (by eapply lookup_lt_Some). cbn [rest_of back fst].
      by rewrite (proj2 (eqb_eq k k)) by done.
  - rewrite Hc. cbn [mbind option_bind]. eexists _, _. split; [done|].
    change (push_entry None it) with (push_entry (entry_of n (1 + n + j) []) it).
    apply (merging_fill f P it it (1 + n + j) []); try done; try (by destruct Hm).
    unfold cursor_rep. rewrite Hs. by right.
Qed.

Section Refill.
Context (f : nat -> bool) (P : list (list item)) (only : option (list RangeSource)).
Hypothesis Honly : forall i, (i < length P)%nat -> want only (source_of n i) = negb (f i).

(** The sources up to [k] are in the heap, beside those that were. *)
Let upto (k : nat) : nat -> bool := fun i => f i || (i <? k)%nat.

Lemma upto_step k i : (i < length P)%nat -> (upto k i || (i =? k)%nat) = upto (S k) i.
Proof.
  intros _. unfold upto. rewrite <- orb_assoc. f_equal.
  destruct (Nat.ltb_spec i k), (Nat.eqb_spec i k), (Nat.ltb_spec i (S k)); try lia; done.
Qed.

Lemma upto_skip k i : f k = true -> upto k i = upto (S k) i.
Proof.
  intros Hk. unfold upto. destruct (decide (i = k)) as [->|Hne]; [by rewrite Hk|]. f_equal.
  destruct (Nat.ltb_spec i k), (Nat.ltb_spec i (S k)); try lia; done.
Qed.

Lemma upto_fresh k : f k = false -> upto k k = false.
Proof. intros Hk. unfold upto. by rewrite Hk, Nat.ltb_irrefl. Qed.

Lemma refill_immutables_spec a m it :
  (a + m = n)%nat -> length P = (1 + n + length (rv_sstables view))%nat -> merging (upto (S a)) P it ->
  exists it', refill_immutables only (seq a m) it = Some it' /\ merging (upto (S n)) P it'.
Proof.
  revert a it. induction m as [|m IH]; intros a it Ham Hlen Hm; cbn [seq refill_immutables].
  { exists it. split; [done|]. by replace n with a by lia. }
  assert (source_of n (S a) = Immutable a) as Hs by (simpl; by destruct (Nat.ltb_spec a n); [|lia]).
  rewrite <- Hs, Honly by lia. destruct (f (S a)) eqn:Ef; cbn [negb].
  - apply IH; [lia|done|]. apply (merging_ext (upto (S a))); [|done]. intros i _. by apply upto_skip.
  - destruct (lookup_lt_is_Some_2 P (S a)) as [l Hl]; [lia|].
    destruct (fill_immutable (upto (S a)) P it a l Hm) as (o & it' & -> & Hm'); [lia|done|by apply upto_fresh|].
    cbn [mbind option_bind]. apply IH; [lia|done|]. apply (merging_ext _ _ _ _ (upto_step (S a)) Hm').
Qed.

Lemma refill_sstables_spec a m it :
  (a + m = length (rv_sstables view))%nat -> length P = (1 + n + length (rv_sstables view))%nat ->
  merging (upto (1 + n + a)) P it ->
  exists it', refill_sstables only (1 + n) (seq a m) it = Some (Ok tt, it') /\ merging (upto (length P)) P it'.
Proof.
  revert a it. induction m as [|m IH]; intros a it Ham Hlen Hm; cbn [seq refill_sstables].
  { exists it. split; [done|]. by replace (length P) with (1 + n + a)%nat by lia. }
  assert (source_of n (1 + n + a) = SsTableAt a) as Hs.
  { simpl. destruct (Nat.ltb_spec (n + a) n); [lia|]. f_equal. lia. }
  rewrite <- Hs, Honly by lia. replace (1 + n + S a)%nat with (S (1 + n + a)) in IH by lia.
  assert (forall it, merging (upto (S (1 + n + a))) P it ->
    exists it', refill_sstables only (1 + n) (seq (S a) m) it = Some (Ok tt, it') /\ merging (upto (length P)) P it') as IH'.
  { intros it0 H0. apply (IH (S a)); [lia|done|]. by replace (1 + n + S a)%nat with (S (1 + n + a)) by lia. }
  destruct (f (1 + n + a)%nat) eqn:Ef; cbn [negb].
  - apply IH'. apply (merging_ext (upto (1 + n + a))); [|done]. intros i _. by apply upto_skip.
  - destruct (lookup_lt_is_Some_2 P (1 + n + a)) as [l Hl]; [lia|].
    destruct (fill_sstable (upto (1 + n + a)) P it a l Hm) as (o & it' & -> & Hm'); [done|by apply upto_fresh|].
    cbn [mbind option_bind]. apply IH'. apply (merging_ext _ _ _ _ (upto_step (1 + n + a)) Hm').
Qed.

(** [refill] of the sources that are not in the heap puts every source there, without error. *)
Lemma refill_spec it :
  merging f P it -> exists it', refill only it = Some (Ok tt, it') /\ merging (fun _ => true) P it'.
Proof.
  intros Hm. pose proof (mg_len _ _ _ Hm) as Hlen. unfold refill.
  assert (merging (upto 1) P (if want only Active then let '(o, it) := peek_active it in push_entry o it else it)) as Hm1.
  { change Active with (source_of n 0). rewrite Honly by lia. destruct (f 0%nat) eqn:E0; cbn [negb].
    - apply (merging_ext f); [|done]. intros i _. unfold upto. destruct i; [by rewrite E0|by rewrite orb_false_r].
    - destruct (lookup_lt_is_Some_2 P 0) as [l Hl]; [lia|]. pose proof (fill_active f P it l Hm Hl E0) as Hm'.
      apply (merging_ext _ _ _ _ (fun i _ => eq_refl)) in Hm'. revert Hm'. apply merging_ext. intros i _. unfold upto.
      f_equal. by destruct i. }
  cbv zeta. set (it1 := if want only Active then _ else it) in *. clearbody it1.
  rewrite (mg_view _ _ _ Hm1). fold n.
  destruct (refill_immutables_spec 0 n it1) as (it2 & -> & Hm2); [done|done|done|]. cbn [mbind option_bind].
  rewrite (mg_view _ _ _ Hm2). fold n.
  destruct (refill_sstables_spec 0 (length (rv_sstables view)) it2) as (it3 & E3 & Hm3);
    [done|done|by rewrite Nat.add_0_r|]. exists it3. split; [exact E3|].
  apply (merging_ext _ (fun _ => true)) in Hm3; [done|]. intros i Hi. unfold upto.
  apply Nat.ltb_lt in Hi. rewrite Hi. apply orb_true_r.
Qed.
End Refill.

(** *** Popping the smallest key *)

Definition has_head (k : bytes) (l : list item) : bool := match l with i :: _ => eqb i.1.1 k | [] => false end.

(** The heap entries of the runs that start with [k], by recency. *)
Fixpoint groups (k : bytes) (i : nat) (P : list (list item)) : list HeapEntry :=
  match P with
  | [] => []
  | l :: P => match entry_of n i l with Some e => if has_head k l then [e] else [] | None => [] end ++ groups k (S i) P
  end.

Lemma In_groups k i P e :
  In e (groups k i P) <-> exists j l, P !! j = Some l /\ entry_of n (i + j) l = Some e /\ he_key e = k.
Proof.
  revert i. induction P as [|l P IH]; intros i; simpl; [split; [done|by intros (j & l & ? & _)]|].
  rewrite in_app_iff, IH. split.
  - intros [He|(j & l' & Hj & He & Hk)]; [|exists (S j), l'; by rewrite Nat.add_succ_r].
    destruct l as [|x l]; [done|]. simpl in He. destruct (eqb x.1.1 k) eqn:E; [|done]. apply eqb_eq in E.
    destruct He as [<-|[]]. exists 0%nat, (x :: l). by rewrite Nat.add_0_r.
  - intros ([|j] & l' & Hj & He & Hk).
    + injection Hj as ->. rewrite Nat.add_0_r in He. left. destruct l' as [|x l']; [done|]. simpl.
      injection He as <-. simpl in Hk. rewrite (proj2 (eqb_eq _ _) Hk). by left.
    + right. exists j, l'. by rewrite Nat.add_succ_r in He.
Qed.

Lemma groups_sorted k i P : StronglySorted heap_lt (groups k i P).
Proof.
  revert i. induction P as [|l P IH]; intros i; simpl; [constructor|]. destruct l as [|x l]; [apply IH|]. cbn [entry_of].
  destruct (has_head k (x :: l)) eqn:E; [|apply IH]. simpl. constructor; [apply IH|]. apply List.Forall_forall.
  intros e (j & l' & Hj & He & Hk)%In_groups. simpl in E. apply eqb_eq in E. destruct l' as [|y l']; [done|].
  injection He as <-. unfold heap_lt, rank_key. simpl in *. rewrite cmp_pair, E, Hk, cmp_refl. apply cmp_Z_lt. lia.
Qed.

Lemma winner_groups k i P :
  Forall sorted_items P -> Forall uniq P -> (forall l x, In l P -> In x l -> cmp k x.1.1 <> Gt) ->
  winner snap (groups k i P) = (fun p => record_value_to_memtable_value p.2) <$> first_newest P k snap.
Proof.
  intros Hs Hu. revert i. induction Hs as [|l P Hl Hs IH]; intros i Hle; [done|]. inversion_clear Hu as [|? ? Hul HuP].
  cbn [groups first_newest]. specialize (IH HuP (S i) ltac:(intros l' x Hl' Hx; apply (Hle l' x); [by right|done])).
  assert (forall x, In x l -> cmp k x.1.1 <> Gt) as Hk by (intros; apply (Hle l); [by left|done]).
  destruct (has_head k l) eqn:E.
  - destruct l as [|x l]; [done|]. simpl in E. apply eqb_eq in E as <-. cbn [entry_of app winner versions].
    rewrite (best_version_newest x.1.1).
    + rewrite newest_front by done. by destruct (newest (x :: l) x.1.1 snap) as [[]|].
    + apply (uniq_incl (x :: l)); [|done]. clear. generalize (x :: l). intros l0 e. induction l0 as [|y l0 IH]; [done|].
      simpl. destruct (eqb y.1.1 x.1.1); simpl; [|done]. naive_solver.
    + clear. generalize (x :: l). intros l0 e. induction l0 as [|y l0 IH]; [done|]. simpl.
      destruct (eqb y.1.1 x.1.1) eqn:Ey; [|done]. apply eqb_eq in Ey. intros [<-|]; auto.
  - replace (newest l k snap) with (@None (Z * RecordValue)); [by destruct (entry_of n i l); cbn [app]; rewrite IH|].
    symmetry.
    apply newest_absent. intros y Hy Ek. destruct l as [|x l]; [done|].
    pose proof (sorted_head_le x l y Hl Hy) as H1. rewrite Ek in H1. pose proof (Hk x ltac:(by left)) as H2.
    simpl in E. unfold eqb in E. rewrite (cmp_opp x.1.1 k) in H2. by destruct (cmp x.1.1 k).
Qed.

Lemma first_newest_after k P key as_of :
  first_newest (map (after k) P) key as_of =
  match cmp k key with Lt => first_newest P key as_of | _ => None end.
Proof.
  induction P as [|l P IH]; [by destruct (cmp k key)|]. cbn [map first_newest]. rewrite IH. destruct (cmp k key) eqn:E.
  - rewrite (newest_absent (after k l)); [done|]. intros i [_ Hi]%filter_In <-. apply ltb_lt in Hi. by rewrite Hi in E.
  - unfold after. rewrite newest_filter; [done|]. intros i _ ->. by apply ltb_lt.
  - rewrite (newest_absent (after k l)); [done|]. intros i [_ Hi]%filter_In <-. apply ltb_lt in Hi. by rewrite Hi in E.
Qed.

Lemma first_newest_absent P key as_of : (forall l x, In l P -> In x l -> x.1.1 <> key) -> first_newest P key as_of = None.
Proof.
  induction P as [|l P IH]; intros Hl; [done|]. cbn [first_newest].
  rewrite newest_absent by (intros i Hi; apply (Hl l); [by left|done]). apply IH. intros l' x Hl' Hx. apply (Hl l'); [by right|done].
Qed.

(** The head of a full heap is the smallest key of all runs. *)
Lemma heap_min P it first h :
  merging (fun _ => true) P it -> heap it = first :: h ->
  (forall l x, In l P -> In x l -> cmp (he_key first) x.1.1 <> Gt) /\
  exists i l, P !! i = Some l /\ has_head (he_key first) l = true.
Proof.
  intros Hm Eh. split.
  - intros l x Hl Hx. apply list_elem_of_In, list_elem_of_lookup in Hl as [i Hi].
    pose proof (mg_sorted _ _ _ Hm) as Hs. rewrite Forall_forall in Hs.
    specialize (Hs l ltac:(by eapply list_elem_of_lookup_2)). destruct l as [|y l]; [done|].
    apply (cmp_le_trans _ y.1.1); [|by apply (sorted_head_le y l)].
    pose proof (mg_heap _ _ _ Hm) as Hh. rewrite Eh in Hh.
    apply (heap_head_le first h (MkEntry y.1.1 i (source_of n i) (map ver (front y.1.1 (y :: l)))) Hh).
    rewrite <- Eh. apply (mg_in _ _ _ Hm). by exists i, (y :: l).
  - assert (In first (heap it)) as (i & l & Hi & _ & He)%(mg_in _ _ _ Hm) by (rewrite Eh; by left).
    exists i, l. split; [done|]. destruct l as [|x l]; [done|]. injection He as <-. by apply eqb_eq.
Qed.

(** The ties of the smallest key are the heap entries of the runs that start with it. *)
Lemma popped_groups P it first h :
  merging (fun _ => true) P it -> heap it = first :: h ->
  pop_group (he_key first) h = (tail (groups (he_key first) 0 P), List.filter (fun x => negb (eqb (he_key x) (he_key first))) h) /\
  groups (he_key first) 0 P = first :: tail (groups (he_key first) 0 P) /\
  List.filter (fun x => negb (eqb (he_key x) (he_key first))) (heap it) = List.filter (fun x => negb (eqb (he_key x) (he_key first))) h.
Proof.
  intros Hm Eh. pose proof (mg_heap _ _ _ Hm) as Hs. rewrite Eh in Hs. set (k := he_key first).
  assert (List.filter (fun x => eqb (he_key x) k) (heap it) = groups k 0 P) as Hg.
  { apply (sorted_unique heap_lt).
    - intros x. unfold heap_lt. by rewrite cmp_refl.
    - intros x y Hxy Hyx. by apply (cmp_lt_asym _ _ Hxy).
    - rewrite Eh. clear -Hs. induction Hs as [|x l Hs IH Hall]; simpl; [constructor|].
      destruct (eqb (he_key x) k); [|done]. constructor; [done|]. apply List.Forall_forall. intros y [Hy _]%filter_In.
      rewrite List.Forall_forall in Hall. by apply Hall.
    - apply groups_sorted.
    - intros x. rewrite filter_In, In_groups, (mg_in _ _ _ Hm), eqb_eq. split.
      + intros [(i & l & Hi & _ & He) Hk]. by exists i, l.
      + intros (i & l & Hi & He & Hk). split; [by exists i, l|done]. }
  assert (eqb (he_key first) k = true) as Ek by by apply eqb_eq.
  rewrite Eh in Hg |- *. cbn [List.filter] in Hg |- *. rewrite Ek in Hg |- *. rewrite <- Hg. cbn [tail negb].
  split_and!; [|done|done]. apply pop_group_filter; [by apply StronglySorted_inv in Hs as []|].
  intros x Hx. apply (heap_head_le first h); [done|by right].
Qed.

Definition still_filled (k : bytes) (P : list (list item)) (i : nat) : bool :=
  match P !! i with Some l => negb (has_head k l) | None => true end.

Lemma popped_merging P it first h :
  merging (fun _ => true) P it -> heap it = first :: h ->
  let k := he_key first in
  merging (still_filled k P) (map (after k) P) (set_heap (List.filter (fun x => negb (eqb (he_key x) k)) h) it).
Proof.
  intros Hm Eh k. destruct (heap_min P it first h Hm Eh) as [Hmin _]. fold k in Hmin.
  destruct (popped_groups P it first h Hm Eh) as (_ & _ & Hfil). fold k in Hfil. rewrite <- Hfil.
  assert (forall i l, P !! i = Some l -> if has_head k l then after k l = rest_of l else after k l = l) as Hafter.
  { intros i l Hi. pose proof (mg_sorted _ _ _ Hm) as Hs. rewrite Forall_forall in Hs.
    specialize (Hs l ltac:(by eapply list_elem_of_lookup_2)).
    assert (In l P) as HlP by (apply list_elem_of_In; by eapply list_elem_of_lookup_2).
    destruct l as [|x l]; [done|]. cbn [has_head]. destruct (eqb x.1.1 k) eqn:E.
    - apply eqb_eq in E. rewrite <- E. symmetry. by apply rest_of_after.
    - apply after_id. intros y Hy. apply (cmp_lt_le_trans _ x.1.1); [|by apply (sorted_head_le x l)].
      pose proof (Hmin _ x HlP ltac:(by left)) as H1. unfold eqb in E. rewrite (cmp_opp x.1.1 k) in H1 |- *.
      by destruct (cmp x.1.1 k). }
  split; try (by destruct Hm).
  - rewrite length_map. by destruct Hm.
  - apply List.Forall_forall. intros l (l0 & <- & Hl)%in_map_iff. apply sorted_after.
    pose proof (mg_sorted _ _ _ Hm) as Hs. rewrite List.Forall_forall in Hs. by apply Hs.
  - cbn [heap set_heap]. pose proof (mg_heap _ _ _ Hm) as Hs. clear -Hs. induction Hs as [|x l Hs IH Hall]; simpl; [constructor|].
    destruct (negb (eqb (he_key x) k)); [|done]. constructor; [done|]. apply List.Forall_forall. intros y [Hy _]%filter_In.
    rewrite List.Forall_forall in Hall. by apply Hall.
  - intros e. cbn [heap set_heap]. rewrite filter_In, (mg_in _ _ _ Hm). unfold still_filled. split.
    + intros [(i & l & Hi & _ & He) Hk]. apply negb_true_iff in Hk. specialize (Hafter i l Hi).
      assert (has_head k l = false) as Hh.
      { destruct l as [|x l]; [done|]. injection He as <-. done. }
      rewrite Hh in Hafter. exists i, l. rewrite list_lookup_fmap, Hi, Hh. cbn. by rewrite Hafter.
    + intros (i & l & Hi & Hf & He). rewrite list_lookup_fmap in Hi. destruct (P !! i) as [l0|] eqn:Hi0; [|done].
      injection Hi as <-. specialize (Hafter i l0 Hi0). apply negb_true_iff in Hf. rewrite Hf in Hafter.
      rewrite Hafter in He. split; [by exists i, l0|]. destruct l0 as [|x l0]; [done|]. injection He as <-. simpl in *.
      by rewrite Hf.
  - intros i l Hi. rewrite list_lookup_fmap in Hi. unfold still_filled. destruct (P !! i) as [l0|] eqn:Hi0; [|done].
    injection Hi as <-. specialize (Hafter i l0 Hi0). pose proof (mg_cur _ _ _ Hm i l0 Hi0) as Hc. cbn in Hc.
    destruct (has_head k l0); cbn [negb]; rewrite Hafter; exact Hc.
Qed.

Lemma popped_wanted P it first h i :
  merging (fun _ => true) P it -> heap it = first :: h -> (i < length (map (after (he_key first)) P))%nat ->
  want (Some (map source (groups (he_key first) 0 P))) (source_of n i) = negb (still_filled (he_key first) P i).
Proof.
  intros Hm Eh Hi. rewrite length_map in Hi. cbn [want]. unfold still_filled.
  destruct (lookup_lt_is_Some_2 P i Hi) as [l Hl]. rewrite Hl, negb_involutive.
  destruct (has_head (he_key first) l) eqn:Eh'.
  - apply bool_decide_true, list_elem_of_In, in_map_iff. destruct l as [|x l]; [done|].
    exists (MkEntry x.1.1 i (source_of n i) (map ver (front x.1.1 (x :: l)))). split; [done|]. apply In_groups.
    exists i, (x :: l). split_and!; [done|done|]. by apply eqb_eq.
  - apply bool_decide_false. intros (e & Es & (j & l' & Hj & He & Hk)%In_groups)%list_elem_of_In%in_map_iff.
    destruct l' as [|x l']; [done|]. injection He as <-. simpl in Es, Hk. apply source_of_inj in Es as ->.
    rewrite Hl in Hj. injection Hj as ->. simpl in Eh'. by rewrite (proj2 (eqb_eq _ _) Hk) in Eh'.
Qed.

(** *** The loop *)

Abbreviation answer P key := (value_of (first_newest P key snap)).

Lemma total_after k (P : list (list item)) i l :
  P !! i = Some l -> has_head k l = true -> (length (concat (map (after k) P)) < length (concat P))%nat.
Proof.
  assert (forall P : list (list item), (length (concat (map (after k) P)) <= length (concat P))%nat) as Hle.
  { induction P0 as [|l0 P0 IH]; [done|]. simpl. rewrite !length_app. pose proof (after_length k l0). lia. }
  revert i. induction P as [|l0 P IH]; intros i Hi Hh; [done|]. simpl. rewrite !length_app. destruct i as [|i].
  - injection Hi as ->. destruct l as [|x l]; [done|]. simpl in Hh. apply eqb_eq in Hh. specialize (Hle P).
    pose proof (after_length k l). unfold after in *. simpl. unfold ltb at 1. rewrite Hh, cmp_refl. simpl. lia.
  - specialize (IH i Hi Hh). pose proof (after_length k l0). lia.
Qed.

Lemma value_of_winner w : value_of w = match (fun p => record_value_to_memtable_value p.2) <$> w with
  | Some (MPut v) => Some v | Some MTombstone | None => None end.
Proof. by destruct w as [[s []]|]. Qed.

(** One call of [next] on the runs [P] yields the smallest key that has a visible value, or ends the scan when there is
    none. *)
Definition yields (P : list (list item)) (x : option (res (bytes * bytes))) (it' : RangeScanIter) : Prop :=
  match x with
  | None => forall key, answer P key = None
  | Some (Err _) => False
  | Some (Ok (k, v)) => exists P', merging (fun _ => true) P' it' /\ Forall uniq P' /\
      (length (concat P') < length (concat P))%nat /\ (forall key, cmp key k <> Gt -> answer P' key = None) /\
      forall key, answer P key = match cmp key k with Lt => None | Eq => Some v | Gt => answer P' key end
  end.

Lemma yields_skip P Q x it' :
  (forall key, answer P key = answer Q key) -> (length (concat Q) <= length (concat P))%nat -> yields Q x it' -> yields P x it'.
Proof.
  intros Hans Hle. destruct x as [[[k v]|]|]; [|done|]; simpl.
  - intros (P' & H1 & H2 & H3 & H4 & H5). exists P'. split_and!; [done|done|lia|done|]. intros key. by rewrite Hans.
  - intros Hn key. by rewrite Hans.
Qed.

Lemma scan_loop_spec fuel P it :
  merging (fun _ => true) P it -> Forall uniq P -> (length (concat P) < fuel)%nat ->
  exists x it', scan_loop fuel it = Some (x, it') /\ yields P x it'.
Proof.
  revert P it. induction fuel as [|fuel IH]; intros P it Hm Hu Hf; [lia|]. cbn [scan_loop].
  destruct (heap it) as [|first h] eqn:Eh.
  - eexists _, _. split; [done|]. intros key. rewrite first_newest_absent; [done|]. intros l x Hl Hx.
    apply list_elem_of_In, list_elem_of_lookup in Hl as [i Hi]. destruct l as [|y l]; [done|].
    assert (In (MkEntry y.1.1 i (source_of n i) (map ver (front y.1.1 (y :: l)))) (heap it)) as Hin
      by (apply (mg_in _ _ _ Hm); by exists i, (y :: l)).
    by rewrite Eh in Hin.
  - destruct (popped_groups P it first h Hm Eh) as (-> & Hg & _). rewrite <- Hg.
    destruct (heap_min P it first h Hm Eh) as [Hmin (i & l & Hi & Hl)].
    pose proof (total_after _ P i l Hi Hl) as Htot.
    pose proof (popped_merging P it first h Hm Eh) as Hp. cbv zeta in Hp. set (k := he_key first) in *.
    destruct (refill_spec _ _ _ (fun j Hj => popped_wanted P it first h j Hm Eh Hj) _ Hp) as (it' & Er & Hm').
    fold k in Er, Hm'. rewrite Er. cbn [mbind option_bind].
    assert (Forall uniq (map (after k) P)) as Hu'.
    { apply List.Forall_forall. intros l' (l0 & <- & Hl0)%in_map_iff. rewrite List.Forall_forall in Hu.
      apply (uniq_incl l0); [|by apply Hu]. by intros e [He _]%filter_In. }
    rewrite (mg_snap _ _ _ Hm), winner_groups by (try done; apply (mg_sorted _ _ _ Hm)).
    pose proof (value_of_winner (first_newest P k snap)) as Hw.
    assert (forall key, cmp key k <> Gt -> answer (map (after k) P) key = None) as Hnone.
    { intros key Hk. rewrite first_newest_after. rewrite (cmp_opp key k). by destruct (cmp key k). }
    assert (forall key, answer P key = match cmp key k with Lt => None | Eq => answer P k | Gt => answer (map (after k) P) key end)
      as Hans.
    { intros key. destruct (cmp key k) eqn:Ec.
      - by apply cmp_eq in Ec as ->.
      - rewrite first_newest_absent; [done|]. intros l' x Hl' Hx E. apply (Hmin l' x Hl' Hx). rewrite E.
        by apply cmp_gt_lt.
      - rewrite first_newest_after. apply cmp_gt_lt in Ec. by rewrite Ec. }
    assert (answer P k = None -> forall key, answer P key = answer (map (after k) P) key) as Hskip.
    { intros Hk key. rewrite Hans. destruct (cmp key k) eqn:Ec; [|by rewrite Hnone; [|rewrite Ec]|done].
      by rewrite Hnone, Hk; [|rewrite Ec]. }
    destruct (_ <$> first_newest P k snap) as [[v|]|].
    + eexists _, _. split; [done|]. exists (map (after k) P). split_and!; try done.
      * destruct Hm'. by split.
      * intros key. rewrite Hans, Hw. done.
    + destruct (IH _ it' Hm' Hu') as (x & it2 & E & Hy); [lia|]. exists x, it2. split; [done|].
      apply (yields_skip _ (map (after k) P)); [by apply Hskip|lia|done].
    + destruct (IH _ it' Hm' Hu') as (x & it2 & E & Hy); [lia|]. exists x, it2. split; [done|].
      apply (yields_skip _ (map (after k) P)); [by apply Hskip|lia|done].
Qed.

(** Calling [next] until it ends lists, in key order, exactly the keys with a visible value. *)
Lemma scan_drain_spec fuel P it :
  merging (fun _ => true) P it -> Forall uniq P -> (S (length (concat P)) < fuel)%nat ->
  exists out st, scan_drain fuel it = Some (map Ok out, st) /\
    StronglySorted (fun a b => cmp a.1 b.1 = Lt) out /\ forall k v, In (k, v) out <-> answer P k = Some v.
Proof.
  revert P it. induction fuel as [|fuel IH]; intros P it Hm Hu Hf; [lia|]. cbn [scan_drain]. unfold scan_next.
  rewrite (mg_ok _ _ _ Hm), (mg_init _ _ _ Hm).
  destruct (scan_loop_spec fuel P it Hm Hu) as (x & it' & -> & Hy); [lia|]. cbn [mbind option_bind].
  destruct x as [[[k v]|]|]; [|done|]; simpl in Hy.
  - destruct Hy as (P' & Hm' & Hu' & Hlt & Hnone & Hans).
    destruct (IH P' it' Hm' Hu') as (out & st & -> & Hs & Hin); [lia|]. cbn [mbind option_bind].
    exists ((k, v) :: out), st. split_and!; [done| |].
    + constructor; [done|]. apply List.Forall_forall. intros [k' v'] Hk'. apply Hin in Hk'. cbn [fst].
      destruct (cmp k k') eqn:E; [| done |].
      * apply cmp_eq in E as <-. rewrite Hnone in Hk' by (by rewrite cmp_refl). done.
      * rewrite Hnone in Hk' by (apply cmp_gt_lt in E; by rewrite E). done.
    + intros k' v'. rewrite Hans. cbn [In]. rewrite Hin. destruct (cmp k' k) eqn:E.
      * apply cmp_eq in E as ->. rewrite Hnone by (by rewrite cmp_refl). naive_solver.
      * rewrite Hnone by (by rewrite E). split; [|done]. intros [[= <- <-]|]; [by rewrite cmp_refl in E|done].
      * split; [|by right]. intros [[= <- <-]|]; [by rewrite cmp_refl in E|done].
  - exists [], (scan_stats it'). split_and!; [done|constructor|]. intros k v. by rewrite Hy.
Qed.

End Merge.

(** ** Scans of the engine *)

Section Engine.
Context `{Crc32c, Xxh64}.

Lemma definitely_empty lo hi key : range_is_definitely_empty lo hi = true -> above lo key && below hi key = false.
Proof.
  intros He. destruct (above lo key) eqn:Ea; [|done]. destruct (below hi key) eqn:Eb; [|done]. exfalso.
  destruct lo as [a|a|], hi as [b|b|]; simpl in *; try done; rewrite ?leb_le, ?ltb_lt in *; apply (cmp_lt_irrefl key).
  - apply (cmp_le_lt_trans _ b); [done|]. by apply (cmp_lt_le_trans _ a).
  - apply (cmp_lt_le_trans _ b); [done|]. by apply (cmp_le_trans _ a).
  - apply (cmp_le_lt_trans _ b); [done|]. by apply (cmp_le_lt_trans _ a).
  - apply (cmp_lt_trans _ b); [done|]. by apply (cmp_le_lt_trans _ a).
Qed.

Lemma not_empty_no_panic lo hi : range_is_definitely_empty lo hi = false -> range_panics lo hi = false.
Proof.
  destruct lo as [a|a|], hi as [b|b|]; simpl; try done; unfold leb, ltb; by destruct (cmp b a).
Qed.

(** The runs a scan merges: every source restricted to the bounds. *)
Definition runs (lo hi : Bound bytes) (srcs : list (list item)) : list (list item) := map (List.filter (in_bounds lo hi)) srcs.

Lemma first_newest_runs lo hi srcs key as_of :
  first_newest (runs lo hi srcs) key as_of =
  if above lo key && below hi key then first_newest srcs key as_of else None.
Proof.
  induction srcs as [|l srcs IH]; [by destruct (_ && _)|]. cbn [runs map first_newest]. fold (runs lo hi srcs). rewrite IH.
  destruct (above lo key && below hi key) eqn:E.
  - rewrite newest_filter; [done|]. intros i _ <-. done.
  - rewrite newest_absent; [done|]. intros i [_ Hi]%filter_In <-. unfold in_bounds in Hi. congruence.
Qed.

(** The records and blocks of a table, counted by reading its blocks. *)
Definition table_size (t : SsTable) : nat :=
  fold_right (fun entry n => match read_block t entry with Ok recs => length recs | Err _ => 0%nat end + 1 + n)%nat 0%nat (t_index t).

Definition tables_size (ts : list SsTable) : nat := fold_right (fun t n => table_size t + n)%nat 0%nat ts.

(** Enough fuel for every scan of the sources of [e1], [e2] and [e3]. *)
Definition scan_fuel_at (e1 e2 e3 : Engine) : nat :=
  (length (flush_items (active e1)) + length (concat (items_of (immutables e2))) + 2 * tables_size (sstables e3) + 4)%nat.

Definition scan_fuel (e : Engine) : nat := scan_fuel_at e e e.

(** The sources such a scan merges. *)
Definition view_sources (e1 e2 : Engine) (recss : list (list item)) : list (list item) :=
  flush_items (active e1) :: items_of (immutables e2) ++ recss.

Lemma table_size_of t chunks : table_of t chunks -> table_size t = (length (concat chunks) + length chunks)%nat.
Proof.
  intros [Hb _ _ _]. unfold table_size. induction Hb as [|entry c idx chunks [Hr _] Hb IH]; simpl; [done|].
  rewrite Hr, length_map, length_app. lia.
Qed.

Lemma tables_size_recs tables recss : Forall2 represents tables recss -> (length (concat recss) <= tables_size tables)%nat.
Proof.
  induction 1 as [|t recs ts rs (chunks & Ht & <-) Hts IH]; simpl; [done|]. rewrite length_app, (table_size_of t chunks) by done. lia.
Qed.

Lemma drain_runs lo hi tables recss fuel :
  Forall2 represents tables recss -> (tables_size tables < fuel)%nat ->
  mapM (fun t => Some <$> drain fuel (range_scan_cursor t lo hi)) tables =
  Some (map (fun l => Some (map Ok l)) (runs lo hi recss)).
Proof.
  intros Hts. induction Hts as [|t recs ts rs (chunks & Ht & <-) Hts IH]; intros Hf; [done|]. simpl in Hf.
  rewrite (table_size_of t chunks) in Hf by done. cbn [mapM mbind option_bind fmap option_fmap].
  rewrite (drain_table t chunks) by (try done; lia). simpl. by rewrite IH by lia.
Qed.

Lemma runs_length lo hi ls : (length (concat (runs lo hi ls)) <= length (concat ls))%nat.
Proof.
  unfold runs. induction ls as [|l ls IH]; simpl; [done|]. rewrite !length_app. pose proof (List.filter_length_le (in_bounds lo hi) l). lia.
Qed.

(** A freshly made iterator represents the runs, nothing in the heap yet. *)
Lemma fresh_merging view lo hi as_of stats recss fuel :
  Forall (fun m => Mem.wf m.2) (rv_immutables view) -> Forall2 represents (rv_sstables view) recss ->
  sorted_items (map mem_item (active_range view)) -> (rv_immutables view <> [] -> range_panics lo hi = false) ->
  mapM (fun t => Some <$> drain fuel (range_scan_cursor t lo hi)) (rv_sstables view) =
    Some (map (fun l => Some (map Ok l)) (runs lo hi recss)) ->
  let P := map mem_item (active_range view) :: runs lo hi (map (fun m => flush_items m.2) (rv_immutables view) ++ recss) in
  exists it, iter_new fuel view lo hi as_of stats = Some it /\
    forall fuel' : nat, (exists it2, merging view hi as_of (fun _ => true) P it2 /\ scan_drain (S fuel') it = scan_drain (S fuel') it2).
Proof.
  intros Hw Hr Hs Hp Hd P. unfold iter_new. rewrite Hd. cbn [mbind option_bind]. eexists. split; [done|]. intros fuel'.
  set (it := MkIter _ _ _ _ _ _ _ _ _ _).
  set (it1 := set_scan_stats (add_all_consulted (zlen (rv_sstables view)) stats) (set_heap_initialized true it)).
  assert (merging view hi as_of (fun _ => false) P it1) as Hm.
  { split; try done.
    - unfold P, runs. simpl. rewrite length_map, length_app, length_map. apply Forall2_length in Hr. lia.
    - constructor; [done|]. unfold runs. rewrite map_app. apply Forall_app. split; apply List.Forall_forall.
      + intros l (l0 & <- & (m & <- & Hm)%in_map_iff)%in_map_iff. apply sorted_filter. rewrite List.Forall_forall in Hw.
        apply bt_sorted_items, flush_items_sorted. by apply Hw.
      + intros l (l0 & <- & Hl0)%in_map_iff. apply sorted_filter. clear -Hr Hl0.
        induction Hr as [|t r ts rs Ht Hts IH]; [done|]. destruct Hl0 as [<-|]; [by apply (Compact.represents_sorted t)|auto].
    - constructor.
    - intros e. split; [done|]. by intros (i & l & _ & ? & _).
    - intros i l Hi. unfold cursor_rep. destruct i as [|i]; [by injection Hi as <-|]. cbn [source_of].
      change (P !! S i) with (runs lo hi (map (fun m => flush_items m.2) (rv_immutables view) ++ recss) !! i) in Hi.
      unfold runs in Hi. rewrite map_app in Hi. destruct (Nat.ltb_spec i (length (rv_immutables view))) as [Hlt|Hge].
      + rewrite lookup_app_l in Hi by (rewrite !length_map; done). rewrite !list_lookup_fmap in Hi.
        destruct (rv_immutables view !! i) as [m|] eqn:Em; [|done]. injection Hi as <-. exists lo, m. cbn [it1 it].
        split_and!; [|done| |done].
        * cbn. by rewrite list_lookup_fmap, Em.
        * apply Hp. intros E. by rewrite E in Em.
      + rewrite lookup_app_r in Hi by (rewrite !length_map; done). rewrite !length_map in Hi. left. cbn.
        rewrite list_lookup_fmap. unfold runs. by rewrite Hi. }
  destruct (refill_spec view hi as_of Hw (fun _ => false) P None (fun _ _ => eq_refl) it1 Hm) as (it2 & E & Hm2).
  exists it2. split; [done|]. cbn [scan_drain]. unfold scan_next at 1. cbn [scan_errored heap_initialized it].
  change (set_scan_stats _ (set_heap_initialized true it)) with it1. rewrite E. cbn [mbind option_bind].
  unfold scan_next. by rewrite (mg_ok _ _ _ _ _ _ Hm2), (mg_init _ _ _ _ _ _ Hm2).
Qed.

(** A scan of well-formed sources lists the visible values of the keys in bounds, in key order, with any fuel above a
    bound that depends on the sources only. *)
Lemma range_scan_sources e1 e2 e3 recss lo hi as_of :
  Mem.wf (active e1) -> Forall (fun m => Mem.wf m.2) (immutables e2) -> Forall2 represents (sstables e3) recss ->
  uniq (concat (view_sources e1 e2 recss)) ->
  exists out, StronglySorted (fun a b => cmp a.1 b.1 = Lt) out /\
    (forall k v, In (k, v) out <->
      above lo k && below hi k = true /\ value_of (first_newest (view_sources e1 e2 recss) k as_of) = Some v) /\
    forall fuel, (scan_fuel_at e1 e2 e3 <= fuel)%nat ->
      exists it st, range_scan_at fuel lo hi as_of e1 e2 e3 = Some it /\ scan_drain fuel it = Some (map Ok out, st).
Proof.
  intros Ha Hi Ht Hu.
  assert (tables_size (sstables e3) + length (concat (runs lo hi (view_sources e1 e2 recss))) + 3 < scan_fuel_at e1 e2 e3)%nat as HN.
  { pose proof (runs_length lo hi (view_sources e1 e2 recss)) as Hr. pose proof (tables_size_recs _ _ Ht). unfold view_sources in Hr |- *.
    cbn [concat] in Hr. rewrite length_app, concat_app, length_app in Hr. unfold scan_fuel_at. lia. }
  assert (forall fuel, (scan_fuel_at e1 e2 e3 <= fuel)%nat -> exists out it st, range_scan_at fuel lo hi as_of e1 e2 e3 = Some it /\
    scan_drain fuel it = Some (map Ok out, st) /\ StronglySorted (fun a b => cmp a.1 b.1 = Lt) out /\
    forall k v, In (k, v) out <->
      above lo k && below hi k = true /\ value_of (first_newest (view_sources e1 e2 recss) k as_of) = Some v) as Hall.
  { intros fuel Hf. destruct fuel as [|fuel]; [lia|]. unfold range_scan_at, capture_read_view, capture_active, capture_immutables, capture_sstables.
    destruct (range_is_definitely_empty lo hi) eqn:Ee; cbn [mbind option_bind].
    - destruct (fresh_merging (MkView [] [] []) lo hi as_of (add_request (read_stats e1)) [] (S fuel))
        as (it & E & Hm); [constructor|constructor|constructor|done|done|].
      destruct (Hm fuel) as (it2 & Hm2 & Ed). cbn in Hm2.
      destruct (scan_drain_spec (MkView [] [] []) hi as_of (Forall_nil_2 _) (S fuel) _ it2 Hm2) as (out & st & Eo & Hs & Hin);
        [repeat constructor; by intros k s v v' []|simpl; lia|].
      exists out, it, st. rewrite Ed. split_and!; [done|done|done|]. intros k v. rewrite Hin, definitely_empty by done.
      split; [done|by intros []].
    - rewrite Mem.range_spec, not_empty_no_panic by done. cbn [mbind option_bind].
      set (view := MkView _ (immutables e2) (sstables e3)).
      assert (map mem_item (active_range view) = List.filter (in_bounds lo hi) (flush_items (active e1))) as Eact
        by (unfold view; cbn [active_range]; by rewrite filter_mem_item).
      destruct (fresh_merging view lo hi as_of (add_request (read_stats e1)) recss (S fuel)) as (it & E & Hm).
      + done.
      + done.
      + rewrite Eact. apply sorted_filter, bt_sorted_items, flush_items_sorted, Ha.
      + intros _. by apply not_empty_no_panic.
      + apply drain_runs; [done|]. unfold view. cbn [rv_sstables]. lia.
      + destruct (Hm fuel) as (it2 & Hm2 & Ed). rewrite Eact in Hm2.
        change (_ :: runs lo hi _) with (runs lo hi (view_sources e1 e2 recss)) in Hm2.
        destruct (scan_drain_spec view hi as_of Hi (S fuel) _ it2 Hm2) as (out & st & Eo & Hs & Hin).
        * apply List.Forall_forall. intros l (l0 & <- & Hl0)%in_map_iff. apply (uniq_incl (concat (view_sources e1 e2 recss))); [|done].
          intros x [Hx _]%filter_In. apply in_concat. by exists l0.
        * lia.
        * exists out, it, st. rewrite Ed. split_and!; [done|done|done|]. intros k v. rewrite Hin, first_newest_runs.
          destruct (above lo k && below hi k); [naive_solver|]. split; [done|by intros []]. }
  destruct (Hall (scan_fuel_at e1 e2 e3)) as (out & _ & _ & _ & _ & Hs & Hin); [done|]. exists out. split_and!; [done|done|].
  intros fuel Hf. destruct (Hall fuel Hf) as (out' & it & st & E & Ed & Hs' & Hin'). exists it, st. split; [done|].
  rewrite Ed. do 3 f_equal. apply (sorted_unique (fun a b => cmp a.1 b.1 = Lt)); [| |done|done|].
  - intros x. by rewrite cmp_refl.
  - intros x y Hxy Hyx. by apply (cmp_lt_asym _ _ Hxy).
  - intros [k v]. by rewrite Hin, Hin'.
Qed.

Lemma range_scan_inv e g lo hi as_of :
  inv e g -> floor g <= as_of ->
  exists out, StronglySorted (fun a b => cmp a.1 b.1 = Lt) out /\
    (forall k v, In (k, v) out <->
      above lo k && below hi k = true /\ value_of (newest (log g) k as_of) = Some v) /\
    forall fuel, (scan_fuel e <= fuel)%nat ->
      exists it st, range_scan fuel lo hi as_of e = Some it /\ scan_drain fuel it = Some (map Ok out, st).
Proof.
  intros He Hge. pose proof (in_tables _ _ He) as (recss & [T1 T2 T3 T4 T5 T6]). destruct (in_mems _ _ He) as [Ha Hi].
  destruct (range_scan_sources e e e recss lo hi as_of Ha Hi T1) as (out & Hs & Hin & Hf).
  { apply (uniq_incl (log g)); [|apply (in_uniq _ _ He)]. exact T4. }
  exists out. split_and!; [done| |done]. intros k v. rewrite Hin. change (view_sources e e recss) with (sources e recss).
  by rewrite first_newest_ordered, T5.
Qed.

(** The versions a scan meets were applied by the end of its capture, under distinct sequence numbers per key. *)
Lemma view_uniq x1 x2 x3 recss :
  inv x1.1 x1.2 -> orderly x1 x2 -> orderly x2 x3 -> Forall2 represents (sstables x3.1) recss ->
  uniq (concat (view_sources x1.1 x2.1 recss)).
Proof.
  intros H1 H12 H23 Hr. pose proof (inv_orderly _ _ H12 H1) as H2. pose proof (inv_orderly _ _ H23 H2) as H3.
  apply (uniq_incl (log x3.2)); [|apply H3]. pose proof (orderly_log _ _ H12) as L12. pose proof (orderly_log _ _ H23) as L23.
  pose proof (in_tables _ _ H2) as (recss2 & [_ _ _ T2 _ _]). pose proof (in_tables _ _ H3) as (recss3 & [T3r _ _ T3 _ _]).
  rewrite (represents_list_fun _ _ _ T3r Hr) in T3. unfold view_sources. cbn [concat]. rewrite concat_app.
  intros i [Hi|[Hi|Hi]%in_app_iff]%in_app_iff.
  - apply L23, L12. by apply (active_in_log x1.1).
  - apply L23, T2. unfold sources, mem_sources. cbn [app concat]. rewrite concat_app, !in_app_iff. right. by left.
  - apply T3. unfold sources. rewrite concat_app, in_app_iff. by right.
Qed.

(** C2: range scans implement the abstract multi-version store.  A scan of any bounds captures its view under three locks, in
    the states [e1], [e2] and [e3] of a run from an empty engine with any steps of other threads between them, the run
    keeping the discipline of [disciplined] and the snapshot being at or above the floor.  The scan then ends without error
    or panic, with the fuel [scan_fuel_at] computes from the engine, and yields in strictly ascending order keys within the
    bounds only; for each key within the bounds it says what the log of applied versions said about it at one moment of the
    capture (yielded with its value if the newest visible version is a put, not at all otherwise).  The moments of different
    keys may differ, so that a scan at the latest state can see part of a batch applied during its capture; if no version
    visible to the scan was applied during the capture, it yields exactly what the log said when it began, which is what
    [get_as_of] returns for each key. *)
Theorem range_scan_refines cfg lo hi as_of e1 g1 e2 g2 e3 g3 :
  config_ok cfg -> orderly (engine_new cfg, ghost_new) (e1, g1) -> orderly (e1, g1) (e2, g2) -> orderly (e2, g2) (e3, g3) ->
  floor g3 <= as_of ->
  exists out, StronglySorted (fun a b => cmp a.1 b.1 = Lt) out /\
    (forall k v, In (k, v) out -> above lo k && below hi k = true) /\
    (forall k, above lo k && below hi k = true -> exists e g, orderly (e1, g1) (e, g) /\ orderly (e, g) (e3, g3) /\
       forall v, In (k, v) out <-> value_of (newest (log g) k as_of) = Some v) /\
    ((forall k s v, above lo k && below hi k = true -> s <= as_of -> In (k, s, v) (log g3) -> In (k, s, v) (log g1)) ->
     forall k v, In (k, v) out <-> above lo k && below hi k = true /\ (get_as_of k as_of e1).2 = Returned (Some v)) /\
    forall fuel, (scan_fuel_at e1 e2 e3 <= fuel)%nat ->
      exists it st, range_scan_at fuel lo hi as_of e1 e2 e3 = Some it /\ scan_drain fuel it = Some (map Ok out, st).
Proof.
  intros Hc H01 H12 H23 Hge. pose proof (inv_from_new _ _ Hc H01) as H1. cbn [fst snd] in H1.
  pose proof (inv_orderly (e1, g1) _ H12 H1) as H2. pose proof (inv_orderly _ _ H23 H2) as H3. cbn [fst snd] in H2, H3.
  pose proof (in_tables _ _ H3) as (recss & [T1 _ _ _ _ _]).
  pose proof (orderly_floor _ _ H12) as F12. pose proof (orderly_floor _ _ H23) as F23. cbn [fst snd] in F12, F23.
  destruct (range_scan_sources e1 e2 e3 recss lo hi as_of) as (out & Hs & Hin & Hf); [apply H1|apply H2|done| |].
  { by apply (view_uniq (e1, g1) (e2, g2) (e3, g3)). }
  assert (forall k, moment (e1, g1) (e3, g3) k as_of (first_newest (view_sources e1 e2 recss) k as_of)) as Hm
    by (intros k; by apply (split_newest (e1, g1) (e2, g2) (e3, g3))).
  exists out. split_and!; [done| | | |done].
  - intros k v Hk. by apply Hin in Hk as [? _].
  - intros k Hk. destruct (Hm k) as ([e g] & Hm1 & Hm2 & Hm3). exists e, g. split_and!; [done..|]. intros v.
    cbn [snd] in Hm3. rewrite Hin, Hm3. tauto.
  - intros Hq k v. destruct (inv_read e1 g1 k as_of H1) as (c & ->); [lia|]. cbn [snd]. rewrite Hin.
    destruct (above lo k && below hi k) eqn:Hk; [|split; by intros [? _]]. destruct (Hm k) as ([e g] & Hm1 & Hm2 & Hm3). cbn [snd] in Hm3.
    assert (newest (log g) k as_of = newest (log g1) k as_of) as E; [|rewrite <- Hm3, E; split; [by intros [_ ->]|intros [_ Hv]; by injection Hv]].
    pose proof (inv_orderly (e1, g1) _ Hm1 H1) as He. apply newest_ext; [apply He| |apply H1]. intros s v' Hle.
    split; [|apply (orderly_log _ _ Hm1)]. intros Hi. apply Hq; [done|done|]. by apply (orderly_log _ _ Hm2).
Qed.

End Engine.

Lemma range_scan_refines_witness :
  exists e1 g1 e2 out, orderly (engine_new tiny_cfg, ghost_new) (e1, g1) /\ zlen (immutables e1) = 1 /\ zlen (immutables e2) = 0 /\
    (forall k v, In (k, v) out <-> above (Included [x6b]) k && below Unbounded k = true /\
      (get_as_of k 9 e1).2 = Returned (Some v)) /\
    forall fuel, (scan_fuel_at e1 e2 e2 <= fuel)%nat -> exists it st,
      range_scan_at fuel (Included [x6b]) Unbounded 9 e1 e2 e2 = Some it /\ scan_drain fuel it = Some (map Ok out, st).
Proof.
  destruct demo_read as (e1 & g1 & e2 & g2 & H1 & H2 & Hi1 & Hi2 & Ht & Hf & Hl1 & Hl2).
  destruct (range_scan_refines tiny_cfg (Included [x6b]) Unbounded 9 e1 g1 e2 g2 e2 g2) as (out & _ & _ & _ & Hin & Hall);
    [by_eval|exact H1| |apply rtc_refl|exact Hf|].
  { exact (orderly_cons _ _ _ _ _ _ (step_read_active _ _ [x6b] 9) I H2). }
  exists e1, g1, e2, out. split_and!; [exact H1|exact Hi1|exact Hi2| |exact Hall].
  apply Hin. intros k s v _ _. by rewrite Hl2.
Defined.

End Scan.
