(* ===== verification/LsmRecover.v ===== *)
(** * Opening the engine ([src/src/lsm/mod.rs], [src/src/sstable/mod.rs])

    What [LsmEngine::open] rebuilds from the manifest, the WAL and the table directory: the tables the manifest calls
    live (with the published tables it has not recorded yet), the memtable of the WAL records above the checkpoint, and
    the counters.  The manifest is replayed twice, read-only before the WAL (for the checkpoint the replay skips by) and
    again once the directory's exclusive lock is held (for the tables and the published checkpoint); another process may
    have changed it in between, so the two results are separate arguments.  A directory is the list of its entries in the
    order the file system returns them; a name that is not UTF-8 is [None].  Removing a file and appending to the manifest
    are answered by arguments. *)

From stdpp Require Import base list option strings sorting.
From Stdlib Require Import ZArith Lia.
From Stdlib Require Import Strings.Byte.
From S2P Require Import Prelude BTree EngineError Checksum WalFormat MemTable ManifestLog SsFormat Bloom Versions SsTable.
From S2P Require Import Compaction LsmTrack LsmEngine LsmReads.

Module Recover.
Import Sst Track Manifest Lsm Reads.

(** ** Table file names *)

(** [n] decimal digits of [z], most significant first. *)
Fixpoint digits (n : nat) (z : Z) : bytes :=
  match n with
  | O => []
  | S n => digits n (z / 10) ++ [z2b (48 + z mod 10)]
  end.

Definition SST : bytes := [x2e; x73; x73; x74].
Definition TMP : bytes := [x2e; x74; x6d; x70].

Definition sstable_filename (id : Z) : bytes := digits 20 id ++ SST.
Definition sstable_tmp_filename (id : Z) : bytes := digits 20 id ++ SST ++ TMP.

Definition strip_suffix (suffix name : bytes) : option bytes :=
  let n := (length name - length suffix)%nat in
  if bool_decide (drop n name = suffix) then Some (take n name) else None.

Definition is_ascii_digit (b : byte) : bool := (48 <=? b2z b) && (b2z b <=? 57).

Definition decimal_value (l : bytes) : Z := fold_left (fun acc b => acc * 10 + (b2z b - 48)) l 0.

Definition parse_sstable_id (filename : bytes) : option Z :=
  match strip_suffix SST filename with
  | None => None
  | Some ds =>
      if negb (zlen ds =? 20) || negb (forallb is_ascii_digit ds) then None
      else if decimal_value ds <=? u64_max then Some (decimal_value ds) else None
  end.

(** ** The directory sweep *)

Record DirEntry : Type := Entry { entry_name : option bytes; contents : bytes }.

Record Sweep : Type := MkSweep {
  seen_ids : list Z;
  max_id_seen : Z;
  opened : list (Z * SsTable);
  sweep_state : ManifestState;
  adopted : list ManifestEdit;
  removed : list bytes
}.

Definition wrap_sstable_path_error (e : EngineError) : EngineError :=
  match e with
  | Corruption detail => Corruption ("sstable: " ++ detail)
  | Unsupported operation => Unsupported ("sstable: " ++ operation)
  | other => other
  end.

Section Recover.
Context `{Crc32c, Xxh64}.

(** What [remove_file] and the manifest's [append_sync] answer. *)
Context (remove_file : bytes -> res unit) (append : ManifestEdit -> res unit).

Definition sweep_entry (w : Sweep) (d : DirEntry) : res Sweep :=
  match entry_name d with
  | None => Ok w
  | Some name =>
      match strip_suffix (SST ++ TMP) name with
      | Some _ =>
          let? _ := remove_file name in
          Ok (MkSweep (seen_ids w) (max_id_seen w) (opened w) (sweep_state w) (adopted w) (removed w ++ [name]))
      | None =>
          match parse_sstable_id name with
          | None => Ok w
          | Some id =>
              let max_id := Z.max (max_id_seen w) id in
              let seen := id :: seen_ids w in
              match bt_get id (live_sstables (sweep_state w)) with
              | Some _ =>
                  let? table := map_err wrap_sstable_path_error (open (contents d) id) in
                  Ok (MkSweep seen max_id (bt_insert id table (opened w)) (sweep_state w) (adopted w) (removed w))
              | None =>
                  match bt_get id (ever_added (sweep_state w)) with
                  | Some _ =>
                      let? _ := remove_file name in
                      Ok (MkSweep seen max_id (opened w) (sweep_state w) (adopted w) (removed w ++ [name]))
                  | None =>
                      let? table := map_err wrap_sstable_path_error (open (contents d) id) in
                      let edit := AddSstable id (Fmt.min_seq (t_footer table)) (Fmt.max_seq (t_footer table)) (zlen (contents d)) in
                      let? _ := append edit in
                      let? st := apply (sweep_state w) edit in
                      Ok (MkSweep seen max_id (bt_insert id table (opened w)) st (adopted w ++ [edit]) (removed w))
                  end
              end
          end
      end
  end.

Fixpoint sweep (w : Sweep) (ds : list DirEntry) : res Sweep :=
  match ds with
  | [] => Ok w
  | d :: ds => let? w := sweep_entry w d in sweep w ds
  end.

(** The largest key, or 0. *)
Definition max_key {V} (m : list (Z * V)) : Z := foldr Z.max 0 (map fst m).

Definition reconcile_sstables_with_manifest (dir : list DirEntry) (state : ManifestState) :
    res (list SsTable * Z * Sweep) :=
  let? w := sweep (MkSweep [] 0 [] state [] []) dir in
  if forallb (fun p => existsb (Z.eqb p.1) (seen_ids w)) (live_sstables (sweep_state w)) then
    let next_id := wrapping_add64 (Z.max (Z.max (max_id_seen w) (max_key (ever_added (sweep_state w))))
                                         (max_key (live_sstables (sweep_state w)))) 1 in
    Ok (rev (map snd (opened w)), next_id, w)
  else Err (Corruption "manifest: sstable id is recorded live but is missing from disk").

(** ** Replay and open *)

Record RecoveryStats : Type := MkRecoveryStats {
  wal_records_visited : Z;
  wal_records_applied : Z;
  wal_records_skipped_by_checkpoint : Z;
  checkpoint_markers_replayed : Z;
  manifest_edits_replayed : Z
}.

(** The closure [open] passes to [wal::replay_streaming]: the memtable and the four counters it captures. *)
Definition replay_record (ckpt : Z) (acc : Mem.MemTable * RecoveryStats) (r : Z * WalOp) : Mem.MemTable * RecoveryStats :=
  let '(m, st) := acc in
  let visited := wal_records_visited st + 1 in
  if r.1 <=? ckpt then
    (m, MkRecoveryStats visited (wal_records_applied st) (wal_records_skipped_by_checkpoint st + 1)
          (checkpoint_markers_replayed st) (manifest_edits_replayed st))
  else
    match r.2 with
    | CheckpointMarker _ =>
        (m, MkRecoveryStats visited (wal_records_applied st) (wal_records_skipped_by_checkpoint st)
              (checkpoint_markers_replayed st + 1) (manifest_edits_replayed st))
    | op =>
        (apply_wal_op m r.1 op,
         MkRecoveryStats visited (wal_records_applied st + 1) (wal_records_skipped_by_checkpoint st)
           (checkpoint_markers_replayed st) (manifest_edits_replayed st))
    end.

Definition replay_wal (cfg : LsmConfig) (ckpt : Z) (records : list (Z * WalOp)) : Mem.MemTable * RecoveryStats :=
  fold_left (replay_record ckpt) records (Mem.new (memtable_max_size_bytes cfg), MkRecoveryStats 0 0 0 0 0).

(** [replay_summary.last_valid_position.seq]: the last record delivered. *)
Definition last_seq (records : list (Z * WalOp)) : Z := match last records with Some r => r.1 | None => 0 end.

(** [readonly] and [replayed] are the manifest's two replays; [edits] are the edits the second one read. *)
Definition open_engine (cfg : LsmConfig) (readonly replayed : ManifestReplayResult) (edits : list ManifestEdit)
    (records : list (Z * WalOp)) (dir : list DirEntry) : res (Engine * RecoveryStats) :=
  let checkpoint_at_replay := Manifest.checkpoint_seq (Manifest.state readonly) in
  let '(m, counts) := replay_wal cfg checkpoint_at_replay records in
  let tracker := tracker_new (Z.max (last_seq records) checkpoint_at_replay) in
  let manifest_state := Manifest.state replayed in
  let checkpoint_seq_value := Manifest.checkpoint_seq manifest_state in
  let? '(tables, next_id, w) := reconcile_sstables_with_manifest dir manifest_state in
  Ok ({| config := cfg; wal_log := []; durable_through := Z.max (last_seq records) checkpoint_at_replay;
         active := m; immutables := []; next_arc := 0;
         sstables := tables; next_sstable_id := next_id; manifest_log := edits ++ adopted w;
         Lsm.checkpoint_seq := checkpoint_seq_value; apply_tracker := tracker;
         flush_queue := []; flush_job := None; snapshot_registry := []; storage_state := storage_to_u8 Healthy;
         capacity_pressure_events := 0; storage_pressure_events := 0; flush_completions := 0;
         read_stats := ReadStats 0 0 0 0; pending_compaction_deletes := []; compaction_running := false;
         compaction_metrics := counters_default; unlinked := [] |},
      MkRecoveryStats (wal_records_visited counts) (wal_records_applied counts) (wal_records_skipped_by_checkpoint counts)
        (checkpoint_markers_replayed counts) (edit_count replayed)).
End Recover.

(** ** File names: theorems *)

Lemma length_digits n z : length (digits n z) = n.
Proof. revert z. induction n as [|n IH]; intros z; simpl; [done|]. rewrite length_app, IH. simpl. lia. Qed.

Lemma digit_value z : b2z (z2b (48 + z mod 10)) = 48 + z mod 10.
Proof. apply b2z_z2b_small. pose proof (Z.mod_pos_bound z 10 ltac:(lia)). lia. Qed.

Lemma digits_are_digits n z : forallb is_ascii_digit (digits n z) = true.
Proof.
  revert z. induction n as [|n IH]; intros z; [done|]. cbn [digits]. rewrite forallb_app, IH. simpl.
  unfold is_ascii_digit. rewrite digit_value. pose proof (Z.mod_pos_bound z 10 eq_refl). by cmp_lia.
Qed.

Lemma decimal_value_snoc l b : decimal_value (l ++ [b]) = decimal_value l * 10 + (b2z b - 48).
Proof. unfold decimal_value. by rewrite fold_left_app. Qed.

Lemma decimal_value_digits n z : 0 <= z < 10 ^ Z.of_nat n -> decimal_value (digits n z) = z.
Proof.
  revert z. induction n as [|n IH]; intros z Hz; [change (10 ^ Z.of_nat 0) with 1 in Hz; cbn; lia|].
  cbn [digits]. rewrite decimal_value_snoc, digit_value.
  rewrite Nat2Z.inj_succ, Z.pow_succ_r in Hz by lia. pose proof (Z.div_mod z 10 ltac:(lia)).
  pose proof (Z.mod_pos_bound z 10 eq_refl). rewrite IH; [lia|]. split; [apply Z.div_pos; lia|apply Z.div_lt_upper_bound; lia].
Qed.

Lemma digits_decimal_value ds : forallb is_ascii_digit ds = true -> digits (length ds) (decimal_value ds) = ds /\ 0 <= decimal_value ds.
Proof.
  induction ds as [|b ds IH] using rev_ind; [done|]. rewrite forallb_app. simpl. intros Hd. bool_to_prop.
  destruct (IH ltac:(done)) as [E Hp]. match goal with Hb : is_ascii_digit b = true |- _ => unfold is_ascii_digit in Hb end. bool_to_prop.
  rewrite decimal_value_snoc, length_app. simpl length. rewrite Nat.add_1_r. cbn [digits].
  assert ((decimal_value ds * 10 + (b2z b - 48)) / 10 = decimal_value ds) as ->.
  { symmetry. apply (Z.div_unique _ _ _ (b2z b - 48)); lia. }
  assert ((decimal_value ds * 10 + (b2z b - 48)) mod 10 = b2z b - 48) as ->.
  { symmetry. apply (Z.mod_unique _ _ (decimal_value ds)); lia. }
  rewrite E. split; [|lia]. do 2 f_equal. replace (48 + (b2z b - 48)) with (b2z b) by lia. apply z2b_b2z.
Qed.

Lemma strip_suffix_Some suffix name ds : strip_suffix suffix name = Some ds <-> name = ds ++ suffix.
Proof.
  unfold strip_suffix. case_bool_decide as Hd.
  - split; [intros [= <-]|].
    + rewrite <- Hd at 2. by rewrite take_drop.
    + intros ->. rewrite length_app. f_equal. replace (_ + _ - _)%nat with (length ds) by lia. by rewrite take_app_length.
  - split; [done|]. intros ->. destruct Hd. rewrite length_app. replace (_ + _ - _)%nat with (length ds) by lia.
    by rewrite drop_app_length.
Qed.

Lemma parse_filename_iff name id : parse_sstable_id name = Some id <-> is_u64 id /\ name = sstable_filename id.
Proof.
  unfold parse_sstable_id, sstable_filename. split.
  - destruct (strip_suffix SST name) as [ds|] eqn:E; [|done]. apply strip_suffix_Some in E as ->.
    destruct (negb (zlen ds =? 20) || negb (forallb is_ascii_digit ds)) eqn:Eb; [done|].
    apply orb_false_iff in Eb as [El%negb_false_iff%Z.eqb_eq Ed%negb_false_iff].
    destruct (Z.leb_spec (decimal_value ds) u64_max); [|done]. intros [= <-].
    destruct (digits_decimal_value ds Ed) as [Eq Hp]. replace (length ds) with 20%nat in Eq by lia.
    split; [by split|]. by rewrite Eq.
  - intros [Hu ->]. rewrite (proj2 (strip_suffix_Some SST _ (digits 20 id)) eq_refl).
    rewrite digits_are_digits, length_digits. simpl negb.
    assert (decimal_value (digits 20 id) = id) as ->.
    { apply decimal_value_digits. unfold_ints. change (10 ^ Z.of_nat 20) with 100000000000000000000. lia. }
    simpl. unfold_ints. by cmp_lia.
Qed.

(** ** The sweep: theorems *)

Ltac sweep_cbn := cbn [sweep_state live_sstables ever_added opened seen_ids max_id_seen checkpoint adopted removed].

Section RecoverSpec.
Context `{Crc32c, Xxh64}.
Context (remove_file : bytes -> res unit) (append : ManifestEdit -> res unit).

(** What the sweep has done so far, against the manifest it started from. *)
Record swept (st0 : ManifestState) (w : Sweep) : Prop := {
  sw_live : bt_sorted (live_sstables (sweep_state w));
  sw_ever : bt_sorted (ever_added (sweep_state w));
  sw_opened : bt_sorted (opened w);
  sw_tables : forall id t, In (id, t) (opened w) -> t_id t = id /\ id <= max_id_seen w /\ In id (seen_ids w) /\
    (is_Some (bt_get id (live_sstables (sweep_state w))));
  sw_seen : forall id, In id (seen_ids w) -> is_Some (bt_get id (live_sstables (sweep_state w))) -> exists t, In (id, t) (opened w);
  sw_known : forall id, In id (seen_ids w) ->
    is_Some (bt_get id (live_sstables (sweep_state w))) \/ is_Some (bt_get id (ever_added (sweep_state w)));
  sw_u64 : forall id, is_Some (bt_get id (live_sstables (sweep_state w))) \/ is_Some (bt_get id (ever_added (sweep_state w))) -> is_u64 id;
  sw_max : is_u64 (max_id_seen w);
  sw_keep : forall id, is_Some (bt_get id (live_sstables st0)) -> is_Some (bt_get id (live_sstables (sweep_state w)));
  sw_new : forall id, is_Some (bt_get id (live_sstables (sweep_state w))) ->
    is_Some (bt_get id (live_sstables st0)) \/ bt_get id (ever_added st0) = None;
  sw_ever_keep : forall id, is_Some (bt_get id (ever_added st0)) -> is_Some (bt_get id (ever_added (sweep_state w)));
  sw_checkpoint : checkpoint (sweep_state w) = checkpoint st0
}.

Lemma is_Some_or_insert {V} (id : Z) (v : V) m id' :
  is_Some (bt_get id' (bt_or_insert id v m)) <-> id' = id \/ is_Some (bt_get id' m).
Proof.
  rewrite bt_get_or_insert. destruct (eqb id' id) eqn:E.
  - apply eqb_eq in E as ->. destruct (bt_get id m); split; eauto.
  - split; [by right|]. intros [->|]; [|done]. by rewrite (proj2 (eqb_eq id id) eq_refl) in E.
Qed.

Lemma is_Some_insert {V} (id : Z) (v : V) m id' :
  is_Some (bt_get id' (bt_insert id v m)) <-> id' = id \/ is_Some (bt_get id' m).
Proof.
  rewrite bt_get_insert. destruct (eqb id' id) eqn:E.
  - apply eqb_eq in E as ->. split; eauto.
  - split; [by right|]. intros [->|]; [|done]. by rewrite (proj2 (eqb_eq id id) eq_refl) in E.
Qed.

(** Opening one more table keeps the sweep's books. *)
Lemma swept_open st0 w id t ad rm :
  swept st0 w -> t_id t = id -> is_Some (bt_get id (live_sstables (sweep_state w))) ->
  swept st0 (MkSweep (id :: seen_ids w) (Z.max (max_id_seen w) id) (bt_insert id t (opened w)) (sweep_state w) ad rm).
Proof.
  intros [H1 H2 H3 H4 H5 Hk Hu Hm H6 H7 H8 H9] Ht Hl. split; try done; sweep_cbn.
  - by apply bt_insert_sorted.
  - intros id' t'. rewrite bt_In_insert by done. intros [[= -> ->]|[_ (? & ? & ? & ?)%H4]]; split_and!; try lia; simpl; auto.
  - intros id' Hs Hl'. destruct (Z.eq_dec id' id) as [->|Hne].
    + exists t. rewrite bt_In_insert by done. by left.
    + destruct (H5 id') as [t' Ht']; [naive_solver|done|]. exists t'. rewrite bt_In_insert by done. right. done.
  - intros id' [<-|Hs]; [by left|by apply Hk].
  - pose proof (Hu id (or_introl Hl)). unfold_ints. lia.
Qed.

Lemma swept_skip st0 w id rm :
  swept st0 w -> bt_get id (live_sstables (sweep_state w)) = None -> is_Some (bt_get id (ever_added (sweep_state w))) ->
  swept st0 (MkSweep (id :: seen_ids w) (Z.max (max_id_seen w) id) (opened w) (sweep_state w) (adopted w) rm).
Proof.
  intros [H1 H2 H3 H4 H5 Hk Hu Hm H6 H7 H8 H9] Hl He. split; try done; sweep_cbn.
  - intros id' t' (? & ? & ? & ?)%H4. split_and!; try lia; simpl; auto.
  - intros id' [<-|Hs] Hl'; [rewrite Hl in Hl'; by destruct Hl'|by apply H5].
  - intros id' [<-|Hs]; [by right|by apply Hk].
  - pose proof (Hu id (or_intror He)). unfold_ints. lia.
Qed.

Lemma swept_adopt st0 w id en :
  swept st0 w -> is_u64 id -> bt_get id (live_sstables (sweep_state w)) = None -> bt_get id (ever_added (sweep_state w)) = None ->
  swept st0 (MkSweep (seen_ids w) (max_id_seen w) (opened w)
    {| live_sstables := bt_or_insert id en (live_sstables (sweep_state w));
       ever_added := bt_insert id tt (ever_added (sweep_state w)); checkpoint := checkpoint (sweep_state w) |}
    (adopted w) (removed w)).
Proof.
  intros [H1 H2 H3 H4 H5 Hk Hu Hm H6 H7 H8 H9] Hidu Hl He.
  assert (~ In id (seen_ids w)) as Hs by (intros [Hx|Hx]%Hk; [rewrite Hl in Hx|rewrite He in Hx]; by destruct Hx).
  split; sweep_cbn; try done.
  - by apply bt_or_insert_sorted.
  - by apply bt_insert_sorted.
  - intros id' t' (? & ? & ? & Hx)%H4. split_and!; [done..|]. exact (proj2 (is_Some_or_insert id en _ id') (or_intror Hx)).
  - intros id' Hs' [->|Hl']%is_Some_or_insert; [done|by apply H5].
  - intros id' Hs'. rewrite is_Some_or_insert, is_Some_insert. destruct (Hk id' Hs'); auto.
  - intros id'. rewrite is_Some_or_insert, is_Some_insert. intros [[->|?]|[->|?]]; auto.
  - intros id' Hid. apply is_Some_or_insert. right. by apply H6.
  - intros id' [->|Hid]%is_Some_or_insert; [|by apply H7]. right. destruct (bt_get id (ever_added st0)) as [u|] eqn:E; [|done].
    destruct (H8 id) as [u' Hu']; [eauto|]. congruence.
  - intros id' Hid. apply is_Some_insert. right. by apply H8.
Qed.

Lemma swept_entry st0 w d w' : swept st0 w -> sweep_entry remove_file append w d = Ok w' -> swept st0 w'.
Proof.
  intros Hw. unfold sweep_entry. destruct (entry_name d) as [name|]; [|by intros [= <-]].
  destruct (strip_suffix (SST ++ TMP) name).
  { destruct (remove_file name); [|done]. intros [= <-]. by destruct Hw. }
  destruct (parse_sstable_id name) as [id|] eqn:Ep; [|by intros [= <-]]. apply parse_filename_iff in Ep as [Hidu _].
  assert (forall t, open (contents d) id = Ok t -> t_id t = id) as Hid.
  { intros t. unfold open. repeat (case_match; try done). by intros [= <-]. }
  destruct (bt_get id (live_sstables (sweep_state w))) as [en|] eqn:El.
  { destruct (open (contents d) id) as [t|]; [|done]. simpl. intros [= <-]. apply swept_open; eauto. }
  destruct (bt_get id (ever_added (sweep_state w))) as [[]|] eqn:Ee.
  { destruct (remove_file name); [|done]. intros [= <-]. by apply swept_skip; [| |rewrite Ee]. }
  destruct (open (contents d) id) as [t|]; [|done]. simpl. destruct (append _); [|done]. intros [= <-].
  apply (swept_open st0 (MkSweep (seen_ids w) (max_id_seen w) (opened w) _ (adopted w) (removed w))); [|eauto|].
  - by apply swept_adopt.
  - sweep_cbn. apply is_Some_or_insert. by left.
Qed.

Lemma swept_start st :
  bt_sorted (live_sstables st) -> bt_sorted (ever_added st) ->
  (forall id, is_Some (bt_get id (live_sstables st)) \/ is_Some (bt_get id (ever_added st)) -> is_u64 id) ->
  swept st (MkSweep [] 0 [] st [] []).
Proof. intros. split; sweep_cbn; try done; [constructor|by left]. Qed.

Lemma swept_sweep st0 ds w w' : swept st0 w -> sweep remove_file append w ds = Ok w' -> swept st0 w'.
Proof.
  revert w. induction ds as [|d ds IH]; intros w Hw; cbn; [by intros [= <-]|].
  destruct (sweep_entry remove_file append w d) as [w1|] eqn:E; [|done]. intros Hs. eapply IH; [|exact Hs]. by eapply swept_entry.
Qed.

(** What one entry does to the books: the three kinds of table file, and everything else. *)
Lemma sweep_entry_cases w d w' :
  sweep_entry remove_file append w d = Ok w' ->
  (forall id, entry_name d = Some (sstable_filename id) -> is_u64 id -> In id (seen_ids w')) /\
  incl (seen_ids w) (seen_ids w') /\
  (forall id, is_Some (bt_get id (ever_added (sweep_state w'))) ->
     is_Some (bt_get id (ever_added (sweep_state w))) \/ is_Some (bt_get id (live_sstables (sweep_state w')))) /\
  (forall id, is_Some (bt_get id (live_sstables (sweep_state w))) -> is_Some (bt_get id (live_sstables (sweep_state w')))) /\
  (opened w' = opened w \/ exists id t, entry_name d = Some (sstable_filename id) /\ open (contents d) id = Ok t /\
     opened w' = bt_insert id t (opened w)) /\
  (exists l, adopted w' = adopted w ++ l) /\
  (forall id, is_Some (bt_get id (live_sstables (sweep_state w'))) ->
     is_Some (bt_get id (live_sstables (sweep_state w))) \/ exists a b n, In (AddSstable id a b n) (adopted w')).
Proof.
  assert (forall w0 : Sweep, exists l, adopted w0 = adopted w0 ++ l) as Hnil by (intros; exists []; by rewrite app_nil_r).
  unfold sweep_entry. destruct (entry_name d) as [name|]; [|intros [= <-]; split_and!; try done; auto; apply incl_refl].
  assert (forall id, is_u64 id -> name = sstable_filename id -> parse_sstable_id name = Some id /\ strip_suffix (SST ++ TMP) name = None) as Hname.
  { intros id Hu ->. split; [by apply parse_filename_iff|]. destruct (strip_suffix _ _) as [ds|] eqn:E; [|done].
    apply strip_suffix_Some in E. unfold sstable_filename in E. rewrite app_assoc in E. by apply app_inj_2 in E as [_ ?]. }
  destruct (strip_suffix (SST ++ TMP) name).
  { destruct (remove_file name); [|done]. intros [= <-]. sweep_cbn. split_and!; auto using incl_refl.
    intros id [= ->] Hu. by destruct (Hname id Hu eq_refl). }
  destruct (parse_sstable_id name) as [id|] eqn:Ep.
  2:{ intros [= <-]. split_and!; auto using incl_refl. intros id [= ->] Hu. destruct (Hname id Hu eq_refl). congruence. }
  assert (forall id', Some name = Some (sstable_filename id') -> is_u64 id' -> id' = id) as Hid.
  { intros id' [= ->] Hu. destruct (Hname id' Hu eq_refl). congruence. }
  assert (name = sstable_filename id) as Hn by (by apply parse_filename_iff).
  destruct (bt_get id (live_sstables (sweep_state w))) as [en|] eqn:El.
  { destruct (open (contents d) id) as [t|] eqn:Eo; [|done]. simpl. intros [= <-]. sweep_cbn. split_and!; auto.
    - intros id' Hn' Hu. left. symmetry. by apply Hid.
    - intros x Hx. by right.
    - right. exists id, t. by rewrite Hn. }
  destruct (bt_get id (ever_added (sweep_state w))) as [[]|] eqn:Ee.
  { destruct (remove_file name); [|done]. intros [= <-]. sweep_cbn. split_and!; auto.
    - intros id' Hn' Hu. left. symmetry. by apply Hid.
    - intros x Hx. by right. }
  destruct (open (contents d) id) as [t|] eqn:Eo; [|done]. simpl. destruct (append _); [|done]. intros [= <-]. sweep_cbn. split_and!.
  - intros id' Hn' Hu. left. symmetry. by apply Hid.
  - intros x Hx. by right.
  - intros id' [->|?]%is_Some_insert; [right; apply is_Some_or_insert; by left|by left].
  - intros id' ?. apply is_Some_or_insert. by right.
  - right. exists id, t. by rewrite Hn.
  - by eexists.
  - intros id' [->|?]%is_Some_or_insert; [right; do 3 eexists; apply in_app_iff; right; by left|by left].
Qed.

(** The sweep reaches every entry, makes live whatever it adds, and opens tables from the entries that bear their names. *)
Lemma sweep_complete ds st0 w w' :
  swept st0 w -> sweep remove_file append w ds = Ok w' ->
  (forall d id, In d ds -> entry_name d = Some (sstable_filename id) -> is_u64 id -> In id (seen_ids w')) /\
  incl (seen_ids w) (seen_ids w') /\
  (forall id, is_Some (bt_get id (ever_added (sweep_state w'))) ->
     is_Some (bt_get id (ever_added (sweep_state w))) \/ is_Some (bt_get id (live_sstables (sweep_state w')))) /\
  (forall id, is_Some (bt_get id (live_sstables (sweep_state w))) -> is_Some (bt_get id (live_sstables (sweep_state w')))) /\
  (forall id t, In (id, t) (opened w') -> In (id, t) (opened w) \/
     exists d, In d ds /\ entry_name d = Some (sstable_filename id) /\ open (contents d) id = Ok t) /\
  incl (adopted w) (adopted w') /\
  (forall id, is_Some (bt_get id (live_sstables (sweep_state w'))) ->
     is_Some (bt_get id (live_sstables (sweep_state w))) \/ exists a b n, In (AddSstable id a b n) (adopted w')).
Proof.
  revert w. induction ds as [|d ds IH]; intros w Hw; cbn.
  { intros [= <-]. split_and!; auto using incl_refl. by intros ? ? []. }
  destruct (sweep_entry remove_file append w d) as [w1|] eqn:E; [|done]. intros Hs.
  pose proof (swept_entry st0 w d w1 Hw E) as Hw1. destruct (IH w1 Hw1 Hs) as (I1 & I2 & I3 & I4 & I5 & I6 & I7).
  destruct (sweep_entry_cases w d w1 E) as (C1 & C2 & C3 & C4 & C5 & (l & C6) & C7). split_and!.
  - intros d' id [<-|Hin] Hn Hu; [by apply I2, (C1 id)|by apply (I1 d')].
  - intros x Hx. by apply I2, C2.
  - intros id [Hx|?]%I3; [|by right]. apply C3 in Hx as [?|?]; [by left|right; by apply I4].
  - intros id Hx. by apply I4, C4.
  - intros id t [Hx|(d' & ? & ? & ?)]%I5; [|right; exists d'; auto].
    destruct C5 as [C5|(id' & t' & Hn & Ho & C5)]; rewrite C5 in Hx; [by left|].
    rewrite bt_In_insert in Hx by apply Hw. destruct Hx as [[= -> ->]|[_ ?]]; [right; exists d; auto|by left].
  - intros x Hx. apply I6. rewrite C6. apply in_app_iff. by left.
  - intros id [Hx|?]%I7; [|by right]. apply C7 in Hx as [?|(a & b & n & ?)]; [by left|right]. exists a, b, n. by apply I6.
Qed.

Lemma max_key_u64 {V} (m : list (Z * V)) : bt_sorted m -> (forall id, is_Some (bt_get id m) -> is_u64 id) -> is_u64 (max_key m).
Proof.
  intros Hs Hu. assert (forall k v, In (k, v) m -> is_u64 k) as Hk.
  { intros k v Hin. apply Hu. rewrite (bt_In_get k v m) by done. eauto. }
  clear Hs Hu. unfold max_key. induction m as [|[k v] m IH]; simpl; [by_eval|].
  pose proof (Hk k v (or_introl eq_refl)). assert (is_u64 (foldr Z.max 0 (map fst m))) by (apply IH; intros; eapply Hk; by right).
  unfold_ints. lia.
Qed.

Lemma rev_tables_sorted (m : list (Z * SsTable)) :
  bt_sorted m -> (forall id t, In (id, t) m -> t_id t = id) -> StronglySorted (fun a b => t_id b < t_id a) (rev (map snd m)).
Proof.
  intros Hs Ht. induction Hs as [|[id t] m Hs IH Hall]; [constructor|]. simpl. apply StronglySorted_snoc; [lia|].
  split; [apply IH; intros; apply Ht; by right|]. intros t' Hl%last_Some_elem_of%list_elem_of_In. revert Hl.
  rewrite <- in_rev, in_map_iff. intros ([id' t1] & <- & Hin). simpl. rewrite (Ht id t), (Ht id' t1) by (simpl; auto).
  rewrite List.Forall_forall in Hall. specialize (Hall _ Hin). unfold lt_key in Hall. simpl in Hall. by rewrite cmp_Z_lt in Hall.
Qed.

Lemma max_key_ge {V} (m : list (Z * V)) id : is_Some (bt_get id m) -> id <= max_key m.
Proof.
  intros [v Hv%bt_get_Some_In]. unfold max_key. induction m as [|[k x] m IH]; [done|]. simpl.
  destruct Hv as [[= -> _]|Hin]; [lia|]. specialize (IH Hin). lia.
Qed.

(** ** Replay *)

Definition op_ops (op : WalOp) : list WriteOp :=
  match op with
  | Put k v => [WPut k v]
  | Delete k => [WDelete k]
  | CheckpointMarker _ => []
  | Group ms => map (fun m => match m with GPut k v => WPut k v | GDelete k => WDelete k end) ms
  end.

(** The versions the records above the checkpoint write. *)
Definition wal_items (ckpt : Z) (records : list (Z * WalOp)) : list item :=
  concat (map (fun r => if r.1 <=? ckpt then [] else batch_items r.1 (op_ops r.2)) records).

Lemma apply_wal_op_ops m seq op :
  apply_wal_op m seq op =
    fold_left (fun m op => let '(key, value) := op_kv op in apply_kv_to_memtable m seq key value) (op_ops op) m.
Proof.
  destruct op as [k v|k|f|ms]; try done. simpl. revert m. induction ms as [|g ms IH]; intros m; [done|]. simpl.
  rewrite IH. by destruct g.
Qed.

Lemma wal_items_snoc ckpt rs r :
  wal_items ckpt (rs ++ [r]) = wal_items ckpt rs ++ (if r.1 <=? ckpt then [] else batch_items r.1 (op_ops r.2)).
Proof. unfold wal_items. rewrite map_app, concat_app. simpl. by rewrite app_nil_r. Qed.

Lemma wal_items_seq ckpt rs i : In i (wal_items ckpt rs) -> In i.1.2 (map fst rs).
Proof.
  intros (l & (r & <- & Hr)%in_map_iff & Hi)%in_concat. destruct (r.1 <=? ckpt); [done|].
  apply batch_items_spec in Hi as [-> _]. by apply in_map.
Qed.

(** The three kinds of records: at or below the checkpoint, markers above it, writes above it. *)
Definition is_skipped (ckpt : Z) (r : Z * WalOp) : bool := r.1 <=? ckpt.
Definition is_marker (ckpt : Z) (r : Z * WalOp) : bool :=
  (ckpt <? r.1) && match r.2 with CheckpointMarker _ => true | _ => false end.
Definition is_write (ckpt : Z) (r : Z * WalOp) : bool :=
  (ckpt <? r.1) && match r.2 with CheckpointMarker _ => false | _ => true end.
Definition how_many {A} (f : A -> bool) (l : list A) : Z := zlen (List.filter f l).

Lemma how_many_snoc {A} (f : A -> bool) l a : how_many f (l ++ [a]) = how_many f l + (if f a then 1 else 0).
Proof. unfold how_many. rewrite List.filter_app, zlen_app. simpl. by destruct (f a). Qed.

Lemma replay_wal_spec cfg ckpt rs :
  NoDup (map fst rs) -> Forall (fun r => is_u64 r.1) rs ->
  let '(m, st) := replay_wal cfg ckpt rs in
  Mem.wf m /\ (forall i, In i (flush_items m) <-> In i (wal_items ckpt rs)) /\
  wal_records_visited st = zlen rs /\ wal_records_skipped_by_checkpoint st = how_many (is_skipped ckpt) rs /\
  checkpoint_markers_replayed st = how_many (is_marker ckpt) rs /\ wal_records_applied st = how_many (is_write ckpt) rs.
Proof.
  unfold replay_wal. induction rs as [|r rs IH] using rev_ind; intros Hn Hu.
  - split_and!; [apply Mem.new_wf|done..].
  - rewrite map_app in Hn. apply NoDup_app in Hn as (Hn & Hd & _). apply Forall_app in Hu as [Hu Hr].
    rewrite Forall_singleton in Hr. specialize (IH Hn Hu). rewrite fold_left_app, wal_items_snoc, zlen_app, !how_many_snoc.
    destruct (fold_left _ rs _) as [m st]. destruct IH as (Hw & Hi & Hv & Hs & Hm & Ht). simpl. rewrite <- ?Hv, <- ?Hs, <- ?Hm, <- ?Ht.
    unfold is_skipped, is_marker, is_write. destruct (Z.leb_spec r.1 ckpt) as [Hle|Hgt].
    { rewrite (proj2 (Z.ltb_ge ckpt r.1) Hle). simpl. rewrite app_nil_r. split_and!; [done|done|lia..]. }
    rewrite (proj2 (Z.ltb_lt ckpt r.1) Hgt).
    destruct (apply_batch_items (op_ops r.2) r.1 m Hw Hr) as [Hw' Hi'].
    assert (forall i, In i (flush_items (apply_wal_op m r.1 r.2)) <-> In i (wal_items ckpt rs ++ batch_items r.1 (op_ops r.2))) as HI.
    { intros i. rewrite apply_wal_op_ops, Hi', in_app_iff, Hi. split; [naive_solver|]. intros [Hin|?]; [|by left]. right. split; [done|].
      intros [Hsq _]. apply wal_items_seq in Hin. apply (Hd i.1.2); [by apply list_elem_of_In|]. rewrite Hsq. simpl. by left. }
    rewrite <- apply_wal_op_ops in Hw'. clear Hi'. destruct r as [sq op]. cbn [fst snd] in *.
    destruct op; simpl; (split_and!; [exact Hw' || exact Hw|exact HI|lia..]).
Qed.

(** The next id wraps to zero only when ids have run out. *)
Lemma wrapping_next mx : is_u64 mx -> wrapping_add64 mx 1 <> 0 -> wrapping_add64 mx 1 = mx + 1.
Proof.
  intros Hmx Hnz. destruct (Z.eq_dec mx u64_max) as [->|]; [by vm_compute in Hnz|]. apply wrapping_succ. unfold_ints. lia.
Qed.

(** C11: opening the engine.  When it succeeds: the tables are in strictly descending id order, each opened from the
    directory entry that bears its name; they are exactly the tables the manifest (replayed under the exclusive lock) calls
    live and the table files on disk that it never recorded, each of which is recorded in the manifest by now; no removed
    table comes back; the next table id is above every table and every id ever used, unless ids have run out; each counter
    of the recovery statistics is the number of records of its kind, relative to the checkpoint of the read-only replay, and
    of edits replayed; the published checkpoint is the manifest's.  A read returns the newest version among the live tables
    and the WAL records above the checkpoint, provided that each source dominates the later ones and versions are unique,
    which ids alone do not guarantee (a run in which they do not is in [LsmRaces]). *)
Theorem open_spec cfg readonly replayed edits records dir e stats :
  let st := Manifest.state replayed in
  let ckpt := Manifest.checkpoint_seq (Manifest.state readonly) in
  bt_sorted (live_sstables st) -> bt_sorted (ever_added st) ->
  (forall id, is_Some (bt_get id (live_sstables st)) \/ is_Some (bt_get id (ever_added st)) -> is_u64 id) ->
  NoDup (map fst records) -> Forall (fun r => is_u64 r.1) records ->
  open_engine remove_file append cfg readonly replayed edits records dir = Ok (e, stats) ->
  StronglySorted (fun a b => t_id b < t_id a) (sstables e) /\
  (forall t, In t (sstables e) -> exists d, In d dir /\ entry_name d = Some (sstable_filename (t_id t)) /\ open (contents d) (t_id t) = Ok t) /\
  (forall id, (exists t, In t (sstables e) /\ t_id t = id) <->
     is_Some (bt_get id (live_sstables st)) \/
     (bt_get id (ever_added st) = None /\ is_u64 id /\ exists d, In d dir /\ entry_name d = Some (sstable_filename id))) /\
  (forall t, In t (sstables e) -> is_Some (bt_get (t_id t) (live_sstables st)) \/
     exists a b n, In (AddSstable (t_id t) a b n) (manifest_log e)) /\
  (next_sstable_id e <> 0 -> (forall t, In t (sstables e) -> t_id t < next_sstable_id e) /\
     (forall id, is_Some (bt_get id (ever_added st)) -> id < next_sstable_id e)) /\
  (wal_records_visited stats = zlen records /\ wal_records_skipped_by_checkpoint stats = how_many (is_skipped ckpt) records /\
   checkpoint_markers_replayed stats = how_many (is_marker ckpt) records /\ wal_records_applied stats = how_many (is_write ckpt) records /\
   manifest_edits_replayed stats = edit_count replayed) /\
  Lsm.checkpoint_seq e = Manifest.checkpoint_seq st /\
  (forall recss key as_of, Forall2 represents (sstables e) recss ->
     ordered (flush_items (active e) :: recss) -> 0 <= as_of ->
     uniq (wal_items ckpt records ++ concat recss) ->
     (get_as_of key as_of e).2 = Returned (value_of (newest (wal_items ckpt records ++ concat recss) key as_of))).
Proof.
  intros state ckpt Hl He Hids Hn Hu. unfold open_engine. fold ckpt. fold state. pose proof (replay_wal_spec cfg ckpt records Hn Hu) as Hrep.
  destruct (replay_wal _ _ _) as [m counts]. destruct Hrep as (Hw & Hi & Hc1 & Hc2 & Hc3 & Hc4). unfold reconcile_sstables_with_manifest.
  destruct (sweep remove_file append _ dir) as [w|] eqn:Es; [|done].
  destruct (forallb _ _) eqn:Ef; [|done]. intros [= <- <-]. cbn [sstables active manifest_log].
  destruct (sweep_complete dir state _ w (swept_start state Hl He Hids) Es) as (S1 & _ & S3 & _ & S5 & _ & S7).
  apply (swept_sweep state) in Es as [W1 W2 W3 W4 W5 Wk Wu Wm W6 W7 W8 W9]; [|by apply swept_start].
  assert (forall t, In t (rev (map snd (opened w))) <-> exists id, In (id, t) (opened w)) as Hin.
  { intros t. rewrite <- in_rev, in_map_iff. split; [intros ([id t'] & <- & ?); eauto|intros [id ?]; by exists (id, t)]. }
  assert (forall t, In t (rev (map snd (opened w))) -> In (t_id t, t) (opened w)) as Hin'.
  { intros t [id Hid]%Hin. by destruct (W4 id t Hid) as (-> & _). }
  assert (forall id, is_Some (bt_get id (live_sstables (sweep_state w))) -> exists t, In t (rev (map snd (opened w))) /\ t_id t = id) as Hlive.
  { intros id Hid. rewrite forallb_forall in Ef. pose proof Hid as [en Hen%bt_get_Some_In]. specialize (Ef _ Hen).
    apply existsb_exists in Ef as (id' & Hs & Heq%Z.eqb_eq). cbn in Heq. subst id'. destruct (W5 id Hs Hid) as [t Ht'].
    exists t. split; [apply Hin; eauto|by apply (W4 id t)]. }
  split_and!; try done.
  - apply rev_tables_sorted; [done|]. intros id t Hid. by apply W4.
  - intros t Ht%Hin'. by destruct (S5 _ _ Ht) as [[]|?].
  - intros id. split.
    + intros (t & Ht%Hin' & <-). destruct (W4 _ t Ht) as (_ & _ & _ & Hlv). destruct (W7 _ Hlv) as [?|Hnone]; [by left|right].
      split; [done|]. split; [apply Wu; by left|]. destruct (S5 _ _ Ht) as [[]|(d & ? & ? & _)]. by exists d.
    + intros [Hid|(Hnone & Hu64 & d & Hd & Hname)]; apply Hlive; [by apply W6|].
      destruct (Wk id (S1 d id Hd Hname Hu64)) as [?|Hev]; [done|]. destruct (S3 id Hev) as [Hst|?]; [|done].
      sweep_cbn. cbn in Hst. rewrite Hnone in Hst. by destruct Hst.
  - intros t Ht%Hin'. destruct (W4 _ t Ht) as (_ & _ & _ & Hlv). destruct (S7 _ Hlv) as [?|(a & b & n & ?)]; [by left|right].
    exists a, b, n. apply in_app_iff. by right.
  - cbn [next_sstable_id]. intros Hnz.
    pose proof (max_key_u64 _ W1 (fun id H => Wu id (or_introl H))). pose proof (max_key_u64 _ W2 (fun id H => Wu id (or_intror H))).
    set (mx := Z.max (Z.max (max_id_seen w) (max_key (ever_added (sweep_state w)))) (max_key (live_sstables (sweep_state w)))) in *.
    rewrite (wrapping_next mx) by (done || unfold mx; unfold_ints; lia). split.
    + intros t Ht%Hin'. destruct (W4 _ t Ht) as (_ & Hle & _). unfold mx. lia.
    + intros id Hid%W8%max_key_ge. unfold mx. lia.
  - intros recss key as_of Hr Ho Ha Huq.
    match goal with |- context [get_as_of key as_of ?e1] =>
      destruct (get_as_of_first e1 recss key as_of) as (c & ->) end; [split; [done|constructor]|done|done|].
    cbn [snd]. do 2 f_equal. unfold sources, mem_sources. cbn [active immutables map app].
    rewrite first_newest_ordered by done. cbn [concat]. apply newest_ext; [|intros; rewrite !in_app_iff, Hi; done|done].
    apply (uniq_incl (wal_items ckpt records ++ concat recss)); [|done]. intros i. rewrite !in_app_iff, Hi. done.
Qed.
End RecoverSpec.

(** A published table's name is exactly its id in twenty decimal digits and the suffix: parsing accepts the name of
    every [u64] id and no other name, so a temporary or foreign file is never taken for a table. *)
Theorem parse_filename_exact name id : parse_sstable_id name = Some id <-> is_u64 id /\ name = sstable_filename id.
Proof. apply parse_filename_iff. Qed.

(** ** Witnesses *)

Definition demo_state : ManifestState :=
  {| live_sstables := [(1, {| e_min_seq := 1; e_max_seq := 4; e_file_size := 0 |})]; ever_added := [(1, tt); (3, tt)];
     checkpoint := Some {| flushed_through_seq := 4; Manifest.wal_segment_id := 1; Manifest.wal_offset := 0 |} |}.

Definition demo_file : bytes :=
  match write_from_sorted_records (map Ok demo_items) 1 small_blocks 4 with Some (Ok (file, _)) => file | _ => [] end.

Definition demo_file5 : bytes :=
  match write_from_sorted_records (map Ok demo_items) 5 small_blocks 4 with Some (Ok (file, _)) => file | _ => [] end.

(** A leftover build, a live table, a removed one, one the manifest never recorded, and a foreign file. *)
Definition demo_dir : list DirEntry :=
  [Entry (Some (sstable_tmp_filename 9)) []; Entry (Some (sstable_filename 1)) demo_file;
   Entry (Some (sstable_filename 3)) []; Entry (Some (sstable_filename 5)) demo_file5; Entry (Some [x78]) []; Entry None []].

Definition demo_records : list (Z * WalOp) := [(4, Put [x61] [x31]); (5, CheckpointMarker 4); (6, Delete [x61])].

Definition demo_replay : ManifestReplayResult :=
  {| Manifest.state := demo_state; valid_length := 0; truncated := false; edit_count := 4; Manifest.last_edit := None |}.

Lemma open_spec_witness :
  exists e stats,
    open_engine (fun _ => Ok tt) (fun _ => Ok tt) lsm_config_default demo_replay demo_replay [] demo_records demo_dir = Ok (e, stats) /\
    (exists t, In t (sstables e) /\ t_id t = 5) /\ wal_records_applied stats = 1 /\ next_sstable_id e = 6.
Proof.
  destruct (open_engine (fun _ => Ok tt) (fun _ => Ok tt) lsm_config_default demo_replay demo_replay [] demo_records demo_dir)
    as [[e stats]|x] eqn:E; [|by vm_compute in E].
  exists e, stats. split; [reflexivity|]. split.
  - apply (open_spec (fun _ => Ok tt) (fun _ => Ok tt) lsm_config_default demo_replay demo_replay [] demo_records demo_dir e stats).
    + repeat constructor.
    + repeat constructor.
    + clear E. intros id. unfold demo_replay, demo_state. cbn [Manifest.state live_sstables ever_added bt_get]. intros [[? Hx]|[? Hx]]; revert Hx;
        repeat (destruct (cmp id _) eqn:Ec; [apply cmp_eq in Ec as ->; intros _; by_eval| |]; clear Ec); try done.
    + clear E. repeat constructor; simpl; rewrite ?list_elem_of_In; simpl; lia.
    + clear E. repeat constructor; by_eval.
    + exact E.
    + clear E. right. split; [reflexivity|]. split; [by_eval|]. exists (Entry (Some (sstable_filename 5)) demo_file5).
      split; [simpl; auto 6|reflexivity].
  - vm_compute in E. injection E as <- <-. split; reflexivity.
Defined.
End Recover.
