(* ===== verification/LsmRaces.v ===== *)
(** * Interleavings that break a promise of the engine ([src/src/lsm/mod.rs])

    The engine's locks allow orders of steps in which a documented guarantee does not hold.  The first part states the
    faults in general: in which states a splice hides newer data, a late write hides a newer one, and a flush can never
    finish.  The second part has one concrete run for each: the calls of two threads in an order, each call one lock scope or
    an uninterrupted sequence of them. *)

From stdpp Require Import base list option strings.
From Stdlib Require Import ZArith Lia.
From Stdlib Require Import Strings.Byte.
From S2P Require Import Prelude BTree EngineError Checksum WalFormat MemTable ManifestLog SsFormat Bloom Versions SsTable.
From S2P Require Import Compaction LsmTrack LsmEngine LsmReads LsmScan LsmRecover.

Module Races.
Import Sst Track Manifest Lsm Recover.
Import Scan(range_scan_at, scan_drain).

(** ** The faults *)

Section Faults.
Context `{Crc32c, Xxh64}.

Lemma get_from_table e t ts key as_of s v :
  Mem.get_as_of (active e) key as_of = None -> first_immutable (immutables e) key as_of = None -> sstables e = t :: ts ->
  get_versioned t key as_of = Some (Ok (Some (s, v))) -> (get_as_of key as_of e).2 = Returned (resolve_sstable v).
Proof.
  intros Ha Hi Ht Hg. unfold get_as_of, read_active, read_immutables, read_sstables, mbind, bind, bump, modify, gets.
  cbn [active set_read_stats]. rewrite Ha. cbn [immutables set_read_stats mret ret]. rewrite Hi. cbn [sstables set_read_stats mret ret].
  rewrite Ht. cbn [first_table]. unfold mbind, bind, bump, modify. by rewrite Hg.
Qed.

(** C20: a compaction that finishes after a concurrent flush hides the flushed data.  Take any engine whose live list is
    the inputs of a running cycle with tables installed in front of them since the cycle captured its inputs, and any key
    that no memtable has, with a visible version in the newest of those tables and one in the cycle's output.  Before the
    splice the key reads the flushed version; after it, although both tables are live, it reads the output's, whatever the
    two sequence numbers are: the output was put in front. *)
Theorem splice_hides_newer_table e j file t n news key as_of s v s' v' :
  Mem.get_as_of (active e) key as_of = None -> first_immutable (immutables e) key as_of = None ->
  sstables e = n :: news ++ inputs j ->
  forallb (fun t => negb (existsb (fun i => t_id i =? t_id t) (inputs j)) && negb (t_id t =? output_id j)) (n :: news) = true ->
  get_versioned n key as_of = Some (Ok (Some (s', v'))) ->
  open file (output_id j) = Ok t -> get_versioned t key as_of = Some (Ok (Some (s, v))) ->
  let e' := (compact_splice j file e).1 in
  (get_as_of key as_of e).2 = Returned (resolve_sstable v') /\
  sstables e' = t :: n :: news /\ (get_as_of key as_of e').2 = Returned (resolve_sstable v).
Proof.
  intros Ha Hi Ht Hids Hn Ho Hg e'.
  assert (sstables e' = t :: n :: news /\ active e' = active e /\ immutables e' = immutables e) as (Et & Ea & Ei).
  { unfold e', compact_splice, mbind, bind, gets, modify. rewrite Ho. cbn. rewrite Ht.
    assert (forall l, forallb (fun t => negb (existsb (fun i => t_id i =? t_id t) (inputs j)) && negb (t_id t =? output_id j)) l = true ->
      List.filter (fun t => negb (existsb (fun i => t_id i =? t_id t) (inputs j))) l = l /\
      existsb (fun t => t_id t =? output_id j) l = false) as Hk.
    { induction l as [|x l IH]; [done|]. cbn. intros Hx. bool_to_prop. destruct IH as [Hf He]; [done|].
      destruct (existsb _ (inputs j)); [done|]. cbn. rewrite Hf, He. by destruct (t_id x =? output_id j). }
    destruct (Hk _ Hids) as [Hf He]. change (n :: news ++ inputs j) with ((n :: news) ++ inputs j).
    rewrite List.filter_app, Hf, (Reads.splice_all (inputs j)), app_nil_r, He by apply incl_refl. done. }
  split_and!; [by apply (get_from_table e n (news ++ inputs j) key as_of s')|done|].
  apply (get_from_table e' t (n :: news) key as_of s); [by rewrite Ea|by rewrite Ei|done|done].
Qed.

(** C35: two writes of one key applied out of sequence order, with a freeze between them, leave the older one in front.
    Take any engine in which the key's newest visible version is frozen and the active memtable has none: a version with a
    smaller sequence number that is applied now is what the key reads from then on, also when applying it freezes the
    memtable, although the frozen one is newer and was being read until then. *)
Theorem late_apply_hides_newer e key s v s' v' as_of :
  Mem.wf (active e) -> is_u64 s -> s < s' -> s' <= as_of -> Mem.get_as_of (active e) key as_of = None ->
  first_immutable (immutables e) key as_of = Some (s', v') ->
  (get_as_of key as_of e).2 = Returned (resolve v') /\
  (get_as_of key as_of (apply_after_durable key s v e).1).2 = Returned (resolve v).
Proof.
  intros Hw Hs Hlt Hle Ha Hi. assert (0 <= as_of) as Has by (unfold is_u64 in Hs; lia).
  assert (Mem.get_as_of (Mem.insert (active e) key s v) key as_of = Some (s, v)) as Hins.
  { rewrite Mem.get_as_of_after_insert by done. rewrite Ha, (proj2 (eqb_eq key key) eq_refl). by cmp_lia. }
  split.
  - unfold get_as_of, read_active, read_immutables, mbind, bind, bump, modify, gets. cbn [active set_read_stats]. rewrite Ha.
    cbn [immutables set_read_stats mret ret]. by rewrite Hi.
  - unfold apply_after_durable, mbind, bind, modify, gets. cbn [active set_active set_apply_tracker].
    destruct (Mem.is_full _); unfold get_as_of, read_active, read_immutables, mbind, bind, bump, modify, gets.
    + unfold freeze_locked, mbind, bind, modify, gets, storage_compare_exchange. destruct (_ <=? _).
      * cbn. cbn in Hins. by rewrite Hins.
      * cbn [active set_read_stats fst set_flush_queue set_immutables set_next_arc set_active].
        rewrite (proj2 (Mem.get_as_of_None _ key as_of (Mem.new_wf _) Has)) by done.
        cbn [immutables set_read_stats set_flush_queue set_immutables mret ret first_immutable snd active set_apply_tracker set_active].
        unfold Mem.freeze. by rewrite Hins.
    + cbn [fst active set_apply_tracker set_active set_read_stats mret ret]. by rewrite Hins.
Qed.

(** A flush job whose table is gone cannot make progress. *)
Lemma flush_install_gone e env j p :
  published j = Some p -> existsb (fun t => t_id t =? p.1.1) (sstables e) = false ->
  existsb (Z.eqb p.1.1) (unlinked e) = true ->
  flush_attempt env j e = (e, Failed (Io (IoError KNotFound None))).
Proof.
  intros Hp Ht Hu. destruct p as [[id file] meta]. unfold flush_attempt, flush_publish, flush_install, mbind, bind, gets, lift.
  rewrite Hp. simpl in *. by rewrite Ht, Hu.
Qed.

Lemma flush_result_failed x e j :
  flush_job e = Some j ->
  let e' := (flush_result (Failed x) e).1 in
  flush_job e' = Some (job_set_attempt (attempt j + 1) j) /\ immutables e' = immutables e /\ sstables e' = sstables e /\
  unlinked e' = unlinked e /\ flush_completions e' = flush_completions e /\ checkpoint_seq e' = checkpoint_seq e.
Proof.
  intros Hj. cbn [flush_result]. unfold modify_job, mbind, bind, modify, gets. cbn. rewrite Hj. cbn.
  destruct (is_storage_exhausted x); cbn; by destruct (_ <=? _).
Qed.

(** The flush thread's turns, one environment each. *)
Definition flush_turns (envs : list FlushEnv) (e : Engine) : Engine := fold_left (fun e env => (flush_turn env e).1) envs e.

(** C19: a flush whose table was compacted away, and its file deleted, between two of its attempts can never finish: in any
    engine whose flush job has published a table that is neither live nor on disk, however many attempts follow and
    whatever every call of theirs answers, the memtable stays among the immutable ones, the checkpoint does not move and no
    flush completes; the thread is stuck on that job. *)
Theorem flush_retry_stuck e j p envs :
  flush_job e = Some j -> published j = Some p ->
  existsb (fun t => t_id t =? p.1.1) (sstables e) = false -> existsb (Z.eqb p.1.1) (unlinked e) = true ->
  let e' := flush_turns envs e in
  immutables e' = immutables e /\ checkpoint_seq e' = checkpoint_seq e /\ flush_completions e' = flush_completions e /\
  exists j', flush_job e' = Some j' /\ frozen j' = frozen j /\ attempt j' = attempt j + zlen envs.
Proof.
  revert e j. induction envs as [|env envs IH]; intros e j Hj Hp Ht Hu e'.
  - split_and!; [done..|]. exists j. split_and!; [done..|]. change (zlen []) with 0. lia.
  - destruct (flush_result_failed (Io (IoError KNotFound None)) e j Hj) as (F1 & F2 & F3 & F4 & F5 & F6).
    set (e1 := (flush_result _ e).1) in *.
    assert (e' = flush_turns envs e1) as ->.
    { unfold e'. cbn [flush_turns fold_left]. unfold flush_turn at 2, mbind, bind, gets. by rewrite Hj, (flush_install_gone e env j p). }
    destruct (IH e1 (job_set_attempt (attempt j + 1) j)) as (I1 & I2 & I3 & j' & I4 & I5 & I6); [done|done|by rewrite F3|by rewrite F4|].
    rewrite I1, I2, I3. split_and!; [done..|]. exists j'. split_and!; [done..|]. rewrite I6. cbn [attempt job_set_attempt].
    rewrite zlen_cons. lia.
Qed.
End Faults.

(** ** Runs *)

(** A memtable that is full after one entry, and compaction from one table on. *)
Definition eager_cfg : LsmConfig := {|
  memtable_max_size_bytes := 1; max_immutable_memtables := 4; sstable_target_block_size := 4096;
  lsm_bloom_bits_per_key := 10; max_flush_retries := 3; compaction_trigger_count := 1; max_batch_ops := 10000 |}.

(** Every call answers without error; the checkpoint marker gets sequence number [seq]. *)
Definition flush_ok (seq : Z) : FlushEnv :=
  MkFlushEnv None (Ok tt) (Ok tt) (Ok tt) (Ok tt) (Acknowledged (Position 0 0 seq)) (Ok tt) (Ok tt).

Definition compact_ok : CompactEnv := MkCompactEnv None (Ok tt) (Ok tt) (fun _ => Ok tt) (fun _ => false) 0.

Definition k : bytes := [x6b].

(** An acknowledged [put] of [k] at sequence number [s], its memtable frozen and flushed. *)
Definition put_and_flush (s : Z) (v : bytes) : M unit :=
  put (Acknowledged (Position 0 0 s)) k v;; flush_recv;; flush_turn (flush_ok (s + 1)).

(** A cycle captures its inputs; a newer table is flushed while it merges; the cycle finishes. *)
Definition flush_during_compaction : M (option bytes * option bytes) :=
  put_and_flush 1 [x31];;
  j ← compact_begin compact_ok;
  match j with
  | None => panic
  | Some j =>
      put_and_flush 3 [x32];;
      before ← get k;
      '(file, meta, _) ← compact_write 50 compact_ok j;
      compact_manifest compact_ok j file meta;;
      compact_splice j file;;
      after ← get k;
      mret (before, after)
  end.

(** The key whose newest acknowledged value was being read reads its older value again. *)
Example compaction_hides_concurrent_flush :
  (flush_during_compaction (engine_new eager_cfg)).2 = Returned (Some [x32], Some [x31]).
Proof. vm_compute. reflexivity. Qed.

(** Two writers of one key: both are durable, the second is applied first and freezes the memtable. *)
Definition late_apply : M (option bytes) :=
  submit_wait (Acknowledged (Position 0 0 1)) (OPut k [x31]);;
  submit_wait (Acknowledged (Position 0 0 2)) (OPut k [x32]);;
  apply_after_durable k 2 (Mem.MPut [x32]);;
  apply_after_durable k 1 (Mem.MPut [x31]);;
  get k.

(** [get] returns the version with the smaller sequence number although both were acknowledged. *)
Example late_apply_reads_older_version :
  (late_apply (engine_new eager_cfg)).2 = Returned (Some [x31]) /\
  newest [(k, 1, RPut [x31]); (k, 2, RPut [x32])] k u64_max = Some (2, RPut [x32]).
Proof. split; vm_compute; reflexivity. Qed.

(** A write is durable but not applied yet when the snapshot is taken. *)
Definition snapshot_before_apply : M (option bytes * option bytes) :=
  submit_wait (Acknowledged (Position 0 0 1)) (OPut k [x31]);;
  s ← snapshot;
  before ← get_as_of k s;
  apply_after_durable k 1 (Mem.MPut [x31]);;
  after ← get_as_of k s;
  mret (before, after).

(** A snapshot is pinned at the durable watermark, not at the applied one: two reads at the same live snapshot differ
    when a write that was already durable is applied between them. *)
Example snapshot_read_not_repeatable :
  (snapshot_before_apply (engine_new lsm_config_default)).2 = Returned (None, Some [x31]).
Proof. vm_compute. reflexivity. Qed.

(** A flush has written its table, under id 2, when a cycle starts with id 3 and ends before the table is installed. *)
Definition compaction_overtakes_flush : M unit :=
  put_and_flush 1 [x31];;
  put (Acknowledged (Position 0 0 3)) k [x32];;
  flush_recv;;
  j ← gets flush_job;
  match j with
  | None => panic
  | Some j =>
      flush_publish (flush_ok 4) j;;
      compact_once_impl 50 compact_ok;;
      flush_turn (flush_ok 4)
  end.

(** What a restart finds: the manifest's edits, the WAL's records and the files of the live tables. *)
Definition restart (e : Engine) : res (Engine * RecoveryStats) :=
  match fold_left (fun st edit => let? st := st in apply st edit) (manifest_log e) (Ok state_new) with
  | Err x => Err x
  | Ok st =>
      let replayed := replay_end st 0 (zlen (manifest_log e)) (last (manifest_log e)) false in
      open_engine (fun _ => Ok tt) (fun _ => Ok tt) (config e) replayed replayed (manifest_log e)
        (map (fun r => (position_seq r.1, as_wal_op r.2)) (wal_log e))
        (map (fun t => Entry (Some (sstable_filename (t_id t))) (t_file t)) (sstables e))
  end.

(** Recovery orders tables by id, but ids are handed out before the work they name is done: a compaction that starts
    after a flush took its id and finishes before the flush gets the larger id for older data.  Before a restart the key
    reads its newest acknowledged value; after it, the older one. *)
Example restart_reads_older_version :
  let e := (compaction_overtakes_flush (engine_new eager_cfg)).1 in
  (get k e).2 = Returned (Some [x32]) /\
  match restart e with
  | Ok (e', _) => (get k e').2 = Returned (Some [x31])
  | Err _ => False
  end.
Proof. vm_compute. split; reflexivity. Qed.

(** A flush installs its table, then [rotate] fails; before the retry a cycle compacts the table away. *)
Definition retry_after_compaction : M unit :=
  put (Acknowledged (Position 0 0 1)) k [x31];;
  flush_recv;;
  flush_turn (MkFlushEnv None (Ok tt) (Ok tt) (Ok tt) (Err (Io (IoError KOther None))) (Acknowledged (Position 0 0 2)) (Ok tt) (Ok tt));;
  compact_once_impl 50 compact_ok;;
  mret tt.

Lemma flush_retry_stuck_witness :
  let e := (retry_after_compaction (engine_new eager_cfg)).1 in
  let e' := flush_turns [flush_ok 3; flush_ok 4] e in
  zlen (immutables e') = 1 /\ checkpoint_seq e' = 0 /\ exists j', flush_job e' = Some j' /\ attempt j' = 3.
Proof.
  intros e e'. destruct (flush_job e) as [j|] eqn:Ej; [|vm_compute in Ej; discriminate].
  destruct (published j) as [p|] eqn:Ep; [|vm_compute in Ej; injection Ej as <-; vm_compute in Ep; discriminate].
  destruct (flush_retry_stuck e j p [flush_ok 3; flush_ok 4] Ej Ep) as (H1 & H2 & _ & j' & H3 & _ & H4).
  - vm_compute in Ej. injection Ej as <-. vm_compute in Ep. injection Ep as <-. vm_compute. reflexivity.
  - vm_compute in Ej. injection Ej as <-. vm_compute in Ep. injection Ep as <-. vm_compute. reflexivity.
  - unfold e'. rewrite H1, H2. split; [vm_compute; reflexivity|]. split; [vm_compute; reflexivity|]. exists j'. split; [exact H3|].
    rewrite H4. vm_compute in Ej. injection Ej as <-. reflexivity.
Defined.

(** The engine of [flush_during_compaction] when the cycle is about to splice its output. *)
Definition before_splice : M (CompactJob * bytes) :=
  put_and_flush 1 [x31];;
  j ← compact_begin compact_ok;
  match j with
  | None => panic
  | Some j =>
      put_and_flush 3 [x32];;
      '(file, meta, _) ← compact_write 50 compact_ok j;
      mret (j, file)
  end.

Lemma splice_hides_newer_table_witness :
  match before_splice (engine_new eager_cfg) with
  | (e, Returned (j, file)) =>
      (get_as_of k 9 e).2 = Returned (Some [x32]) /\ (get_as_of k 9 (compact_splice j file e).1).2 = Returned (Some [x31])
  | _ => False
  end.
Proof.
  destruct (before_splice (engine_new eager_cfg)) as [e r] eqn:E. vm_compute in E. injection E as <- <-.
  match goal with |- context [compact_splice ?j ?file ?e] =>
    destruct (open file (output_id j)) as [t|] eqn:Eo; [|vm_compute in Eo; discriminate];
    destruct (sstables e) as [|n ts] eqn:Et; [vm_compute in Et; discriminate|];
    destruct (splice_hides_newer_table e j file t n [] k 9 1 (RPut [x31]) 3 (RPut [x32])) as (H1 & _ & H2);
    [vm_compute; reflexivity|vm_compute; reflexivity
    |rewrite Et; vm_compute in Et; injection Et as <- <-; vm_compute; reflexivity
    |vm_compute in Et; injection Et as <- <-; vm_compute; reflexivity
    |vm_compute in Et; injection Et as <- <-; vm_compute; reflexivity
    |exact Eo|vm_compute in Eo; injection Eo as <-; vm_compute; reflexivity|]
  end.
  split; [exact H1|exact H2].
Defined.

Lemma late_apply_hides_newer_witness :
  let e := (apply_after_durable k 2 (Mem.MPut [x32]) (set_durable_through 2 (engine_new eager_cfg))).1 in
  (get_as_of k 9 e).2 = Returned (Some [x32]) /\
  (get_as_of k 9 (apply_after_durable k 1 (Mem.MPut [x31]) e).1).2 = Returned (Some [x31]).
Proof.
  intros e. apply (late_apply_hides_newer e k 1 (Mem.MPut [x31]) 2 (Mem.MPut [x32]) 9).
  - change (active e) with (Mem.new 1). apply Mem.new_wf.
  - by_eval.
  - reflexivity.
  - discriminate.
  - vm_compute. reflexivity.
  - vm_compute. reflexivity.
Defined.

(** A snapshot reads the watermark; before it registers, the key is overwritten and flushed and a whole compaction cycle
    runs, which sees no live snapshot and drops the version the snapshot is about to protect. *)
Definition snapshot_registered_late : M (option bytes * option bytes) :=
  put_and_flush 1 [x31];;
  s ← snapshot_seq;
  before ← get_as_of k s;
  put_and_flush 3 [x32];;
  compact_once_impl 50 compact_ok;;
  snapshot_register s;;
  after ← get_as_of k s;
  mret (before, after).

Example late_snapshot_loses_version :
  (snapshot_registered_late (engine_new eager_cfg)).2 = Returned (Some [x31], None).
Proof. vm_compute. reflexivity. Qed.

(** A scan of the latest state captures the active memtable, a batch over two keys is applied and freezes it, and the scan
    captures the rest: one key of the batch is new, the other one old. *)
Definition batch_during_capture : M (option (list (result EngineError (bytes * bytes)))) :=
  put (Acknowledged (Position 0 0 1)) [x61] [x31];;
  e1 ← (fun e => (e, Returned e)) : M Engine;
  write_batch (Acknowledged (Position 0 0 2)) [WPut [x61] [x32]; WPut [x62] [x32]];;
  e2 ← (fun e => (e, Returned e)) : M Engine;
  mret (fst <$> (range_scan_at 50 Unbounded Unbounded u64_max e1 e2 e2 ≫= scan_drain 50)).

Definition two_entries_cfg : LsmConfig := {|
  memtable_max_size_bytes := 60; max_immutable_memtables := 4; sstable_target_block_size := 4096;
  lsm_bloom_bits_per_key := 10; max_flush_retries := 3; compaction_trigger_count := 1; max_batch_ops := 10000 |}.

Example scan_sees_part_of_batch :
  (batch_during_capture (engine_new two_entries_cfg)).2 = Returned (Some [Ok ([x61], [x31]); Ok ([x62], [x32])]).
Proof. vm_compute. reflexivity. Qed.

(** A write whose durability the group commit could not confirm is reported as failed and read by nobody, until a restart
    replays it. *)
Definition unconfirmed_put : M (option bytes) :=
  fun e => get k (put (Unconfirmed (Position 0 0 1) (Timeout "await_durable")) k [x31] e).1.

Example failed_put_returns_after_restart :
  let '(e, r) := unconfirmed_put (engine_new eager_cfg) in
  (put (Unconfirmed (Position 0 0 1) (Timeout "await_durable")) k [x31] (engine_new eager_cfg)).2 = Failed (Timeout "await_durable") /\
  r = Returned None /\
  match restart e with
  | Ok (e', _) => (get k e').2 = Returned (Some [x31])
  | Err _ => False
  end.
Proof. vm_compute. split_and!; reflexivity. Qed.

End Races.
