(* ===== verification/RelKey.v ===== *)
(** * Relational values and their order-preserving keys ([src/src/relational/{value,key,error}.rs])

    A row's physical key is the concatenation of its primary-key columns' encodings; the engine orders keys byte by byte.
    [encode_key_value] must therefore turn the columns' logical order into byte order, for every type and in every
    position of a composite key, and [decode_composite_key] must recover the columns.  An [f32] or [f64] is its bit
    pattern ([to_bits]); its logical order is the IEEE 754 comparison of the floating-point datum the bits stand for.
    A Rust [String] is its bytes, valid UTF-8.  Error [detail]s keep the fixed text of the format strings. *)

From stdpp Require Import base list option strings.
From Stdlib Require Import ZArith Lia.
From Stdlib Require Import SpecFloat.
From Stdlib Require Import Strings.Byte.
From S2P Require Import Prelude BTree EngineError.

Module Rel.

(** ** Data *)

Inductive RelationalValue : Type :=
| VBoolean (v : bool)
| VInteger (v : Z)
| VBigint (v : Z)
| VReal (bits : Z)
| VDouble (bits : Z)
| VDecimal (v scale : Z)
| VText (v : bytes)
| VBlob (v : bytes)
| VDate (v : Z)
| VTime (v : Z)
| VTimestamp (v : Z).

Inductive RelationalType : Type :=
| TBoolean
| TInteger
| TBigint
| TReal
| TDouble
| TDecimal (scale : Z)
| TText
| TBlob
| TDate
| TTime
| TTimestamp.

#[global] Instance relational_type_eq_dec : EqDecision RelationalType.
Proof. solve_decision. Defined.

#[global] Instance relational_value_eq_dec : EqDecision RelationalValue.
Proof. solve_decision. Defined.

Inductive CatalogError : Type :=
| CEngine (e : EngineError)
| CAlreadyExists (object : string)
| CNotFound (object : string)
| CInvalidInput (detail : string).

Inductive RelationalError : Type :=
| REngine (e : EngineError)
| RCatalog (e : CatalogError)
| RNotFound (object : string)
| RInvalidInput (detail : string)
| RConflict (detail : string)
| RResourceLimit (detail : string)
| RInvalidTransactionState (detail : string)
| RForeignKeyViolation (detail : string).

Definition value_type (v : RelationalValue) : RelationalType :=
  match v with
  | VBoolean _ => TBoolean
  | VInteger _ => TInteger
  | VBigint _ => TBigint
  | VReal _ => TReal
  | VDouble _ => TDouble
  | VDecimal _ scale => TDecimal scale
  | VText _ => TText
  | VBlob _ => TBlob
  | VDate _ => TDate
  | VTime _ => TTime
  | VTimestamp _ => TTimestamp
  end.

(** *** Machine types *)

(** [z as i<w>] of a [u<w>], and [z as u<w>] of an [i<w>]. *)
Definition as_signed (w z : Z) : Z := if z <? 2 ^ (w - 1) then z else z - 2 ^ w.
Definition as_unsigned (w z : Z) : Z := z mod 2 ^ w.

Definition is_signed (w z : Z) : Prop := - 2 ^ (w - 1) <= z < 2 ^ (w - 1).

(** [!z] of a [u32] and a [u64]. *)
Definition not32 (z : Z) : Z := Z.lxor z 0xFFFFFFFF.
Definition not64 (z : Z) : Z := Z.lxor z 0xFFFFFFFFFFFFFFFF.

(** [is_nan] and [== 0.0] on a bit pattern: the bits below the sign exceed those of infinity, respectively are zero. *)
Definition is_nan32 (bits : Z) : bool := 0x7F800000 <? Z.land bits 0x7FFFFFFF.
Definition is_nan64 (bits : Z) : bool := 0x7FF0000000000000 <? Z.land bits 0x7FFFFFFFFFFFFFFF.
Definition is_zero32 (bits : Z) : bool := Z.land bits 0x7FFFFFFF =? 0.
Definition is_zero64 (bits : Z) : bool := Z.land bits 0x7FFFFFFFFFFFFFFF =? 0.

(** [str::from_utf8]'s acceptance test. *)
Definition between (lo hi : Z) (b : byte) : bool := (lo <=? b2z b) && (b2z b <=? hi).

Fixpoint valid_utf8 (l : bytes) : bool :=
  match l with
  | [] => true
  | b0 :: l1 =>
    if between 0x00 0x7F b0 then valid_utf8 l1
    else match l1 with
    | [] => false
    | b1 :: l2 =>
      if between 0xC2 0xDF b0 then between 0x80 0xBF b1 && valid_utf8 l2
      else match l2 with
      | [] => false
      | b2 :: l3 =>
        if between 0xE0 0xE0 b0 then between 0xA0 0xBF b1 && between 0x80 0xBF b2 && valid_utf8 l3
        else if between 0xED 0xED b0 then between 0x80 0x9F b1 && between 0x80 0xBF b2 && valid_utf8 l3
        else if between 0xE1 0xEF b0 then between 0x80 0xBF b1 && between 0x80 0xBF b2 && valid_utf8 l3
        else match l3 with
        | [] => false
        | b3 :: l4 =>
          let tail := between 0x80 0xBF b2 && between 0x80 0xBF b3 && valid_utf8 l4 in
          if between 0xF0 0xF0 b0 then between 0x90 0xBF b1 && tail
          else if between 0xF1 0xF3 b0 then between 0x80 0xBF b1 && tail
          else if between 0xF4 0xF4 b0 then between 0x80 0x8F b1 && tail
          else false
        end
      end
    end
  end.

(** What Rust's types already guarantee of a value. *)
Definition value_wf (v : RelationalValue) : Prop :=
  match v with
  | VBoolean _ | VBlob _ => True
  | VInteger z | VDate z => is_signed 32 z
  | VBigint z | VTime z | VTimestamp z => is_signed 64 z
  | VReal bits => is_u32 bits
  | VDouble bits => is_u64 bits
  | VDecimal z scale => is_signed 128 z /\ is_u8 scale
  | VText s => valid_utf8 s = true
  end.

(** ** Encoding *)

Definition sign_flip_32 (v : Z) : bytes := be_bytes 4 (Z.lxor (as_unsigned 32 v) 0x80000000).
Definition sign_flip_64 (v : Z) : bytes := be_bytes 8 (Z.lxor (as_unsigned 64 v) 0x8000000000000000).
Definition sign_flip_128 (v : Z) : bytes := be_bytes 16 (Z.lxor (as_unsigned 128 v) (Z.shiftl 1 127)).

Definition unsign_flip_32 (raw : bytes) : Z := as_signed 32 (Z.lxor (be_val raw) 0x80000000).
Definition unsign_flip_64 (raw : bytes) : Z := as_signed 64 (Z.lxor (be_val raw) 0x8000000000000000).
Definition unsign_flip_128 (raw : bytes) : Z := as_signed 128 (Z.lxor (be_val raw) (Z.shiftl 1 127)).

Definition monotonic_f32 (v : Z) : result RelationalError bytes :=
  if is_nan32 v then Err (RInvalidInput "NaN is not allowed in a key-bearing REAL column") else
  let bits := if is_zero32 v then 0 else v in
  let transformed := if negb (Z.land bits 0x80000000 =? 0) then not32 bits else Z.lor bits 0x80000000 in
  Ok (be_bytes 4 transformed).

Definition unmonotonic_f32 (raw : bytes) : Z :=
  let transformed := be_val raw in
  if negb (Z.land transformed 0x80000000 =? 0) then Z.land transformed 0x7FFFFFFF else not32 transformed.

Definition monotonic_f64 (v : Z) : result RelationalError bytes :=
  if is_nan64 v then Err (RInvalidInput "NaN is not allowed in a key-bearing DOUBLE column") else
  let bits := if is_zero64 v then 0 else v in
  let transformed := if negb (Z.land bits 0x8000000000000000 =? 0) then not64 bits else Z.lor bits 0x8000000000000000 in
  Ok (be_bytes 8 transformed).

Definition unmonotonic_f64 (raw : bytes) : Z :=
  let transformed := be_val raw in
  if negb (Z.land transformed 0x8000000000000000 =? 0) then Z.land transformed 0x7FFFFFFFFFFFFFFF
  else not64 transformed.

(** [encode_escaped_terminated(bytes, out)]: the loop pushes onto [out], then the terminator. *)
Fixpoint escape_loop (src out : bytes) : bytes :=
  match src with
  | [] => out
  | b :: src => escape_loop src (if bool_decide (b = x00) then out ++ [x00; xff] else out ++ [b])
  end.

Definition encode_escaped_terminated (src out : bytes) : bytes := escape_loop src out ++ [x00; x00].

Definition encode_key_value (value : RelationalValue) (out : bytes) : result RelationalError bytes :=
  match value with
  | VBoolean v => Ok (out ++ [if v then x01 else x00])
  | VInteger v => Ok (out ++ sign_flip_32 v)
  | VBigint v => Ok (out ++ sign_flip_64 v)
  | VDate v => Ok (out ++ sign_flip_32 v)
  | VTimestamp v => Ok (out ++ sign_flip_64 v)
  | VTime v =>
    if v <? 0 then Err (RInvalidInput "TIME must be non-negative")
    else Ok (out ++ be_bytes 8 (as_unsigned 64 v))
  | VDecimal v _ => Ok (out ++ sign_flip_128 v)
  | VReal v => let? e := monotonic_f32 v in Ok (out ++ e)
  | VDouble v => let? e := monotonic_f64 v in Ok (out ++ e)
  | VText v => Ok (encode_escaped_terminated v out)
  | VBlob v => Ok (encode_escaped_terminated v out)
  end.

Fixpoint encode_values (values : list RelationalValue) (out : bytes) : result RelationalError bytes :=
  match values with
  | [] => Ok out
  | v :: values => let? out := encode_key_value v out in encode_values values out
  end.

Definition encode_composite_key (values : list RelationalValue) : result RelationalError bytes :=
  encode_values values [].

(** ** Decoding: [pos : &mut usize] is threaded. *)

Definition take_bytes (buf : bytes) (pos len : Z) : result RelationalError (bytes * Z) :=
  let? end_ := ok_or (RInvalidInput "key field length overflow") (checked_add64 pos len) in
  let? slice := ok_or (RInvalidInput "key truncated") (get_range buf pos end_) in
  Ok (slice, end_).

(** [.first().expect("checked length 1")]: [take_bytes _ _ 1] has exactly one byte. *)
Definition first_byte (slice : bytes) : byte := match slice with b :: _ => b | [] => x00 end.

Fixpoint unescape_loop (fuel : nat) (buf : bytes) (pos : Z) (content : bytes) : result RelationalError (bytes * Z) :=
  match fuel with
  | O => Err (RInvalidInput "key truncated")
  | S fuel =>
    let? '(s, pos) := take_bytes buf pos 1 in
    if bool_decide (first_byte s = x00) then
      let? '(s, pos) := take_bytes buf pos 1 in
      match first_byte s with
      | x00 => Ok (content, pos)
      | xff => unescape_loop fuel buf pos (content ++ [x00])
      | _ => Err (RInvalidInput "malformed escape sequence")
      end
    else unescape_loop fuel buf pos (content ++ [first_byte s])
  end.

Definition decode_escaped_terminated (buf : bytes) (pos : Z) : result RelationalError (bytes * Z) :=
  unescape_loop (S (length buf)) buf pos [].

Definition decode_key_value (field_type : RelationalType) (buf : bytes) (pos : Z)
    : result RelationalError (RelationalValue * Z) :=
  match field_type with
  | TBoolean => let? '(s, pos) := take_bytes buf pos 1 in Ok (VBoolean (negb (bool_decide (first_byte s = x00))), pos)
  | TInteger => let? '(s, pos) := take_bytes buf pos 4 in Ok (VInteger (unsign_flip_32 s), pos)
  | TBigint => let? '(s, pos) := take_bytes buf pos 8 in Ok (VBigint (unsign_flip_64 s), pos)
  | TDate => let? '(s, pos) := take_bytes buf pos 4 in Ok (VDate (unsign_flip_32 s), pos)
  | TTimestamp => let? '(s, pos) := take_bytes buf pos 8 in Ok (VTimestamp (unsign_flip_64 s), pos)
  | TTime => let? '(s, pos) := take_bytes buf pos 8 in Ok (VTime (as_signed 64 (be_val s)), pos)
  | TDecimal scale => let? '(s, pos) := take_bytes buf pos 16 in Ok (VDecimal (unsign_flip_128 s) scale, pos)
  | TReal => let? '(s, pos) := take_bytes buf pos 4 in Ok (VReal (unmonotonic_f32 s), pos)
  | TDouble => let? '(s, pos) := take_bytes buf pos 8 in Ok (VDouble (unmonotonic_f64 s), pos)
  | TText =>
    let? '(raw, pos) := decode_escaped_terminated buf pos in
    if valid_utf8 raw then Ok (VText raw, pos) else Err (RInvalidInput "TEXT key field is not valid UTF-8")
  | TBlob => let? '(raw, pos) := decode_escaped_terminated buf pos in Ok (VBlob raw, pos)
  end.

Fixpoint decode_values (types : list RelationalType) (buf : bytes) (pos : Z) (out : list RelationalValue)
    : result RelationalError (list RelationalValue * Z) :=
  match types with
  | [] => Ok (out, pos)
  | t :: types => let? '(v, pos) := decode_key_value t buf pos in decode_values types buf pos (out ++ [v])
  end.

Definition decode_composite_key (types : list RelationalType) (buf : bytes)
    : result RelationalError (list RelationalValue) :=
  let? '(out, pos) := decode_values types buf 0 [] in
  if negb (pos =? zlen buf) then Err (RInvalidInput "trailing byte(s) after composite key") else Ok out.

(** ** Row keys *)

Definition RELATIONAL_NAMESPACE : byte := x01.

Definition table_row_key (table_id : Z) (encoded_pk : bytes) : bytes :=
  [RELATIONAL_NAMESPACE] ++ be32 table_id ++ be32 0 ++ encoded_pk.

Definition table_row_range (table_id : Z) : Bound bytes * Bound bytes :=
  (Included (table_row_key table_id []), Excluded ([RELATIONAL_NAMESPACE] ++ be32 table_id ++ be32 1)).

(** A key lies in a range. *)
Definition in_range (k : bytes) (r : Bound bytes * Bound bytes) : bool := above r.1 k && below r.2 k.

(** ** Logical order *)

(** The datum an IEEE 754 bit pattern stands for: [mw] mantissa bits, [ew] exponent bits, and the sign. *)
Definition float_of_bits (mw ew bits : Z) : spec_float :=
  let sign := 2 ^ (mw + ew) <=? bits in
  let magnitude := bits mod 2 ^ (mw + ew) in
  let e := magnitude / 2 ^ mw in
  let m := magnitude mod 2 ^ mw in
  let emin := 2 - 2 ^ (ew - 1) - mw in
  if e =? 2 ^ ew - 1 then (if m =? 0 then S754_infinity sign else S754_nan)
  else if e =? 0 then (if m =? 0 then S754_zero sign else S754_finite sign (Z.to_pos m) emin)
  else S754_finite sign (Z.to_pos (m + 2 ^ mw)) (emin + e - 1).

Definition f32_of_bits (bits : Z) : spec_float := float_of_bits 23 8 bits.
Definition f64_of_bits (bits : Z) : spec_float := float_of_bits 52 11 bits.

(** [partial_cmp] of two values of one column. *)
Definition logical_cmp (a b : RelationalValue) : option comparison :=
  match a, b with
  | VBoolean x, VBoolean y => Some (match x, y with true, false => Gt | false, true => Lt | _, _ => Eq end)
  | VInteger x, VInteger y | VBigint x, VBigint y | VDate x, VDate y
  | VTime x, VTime y | VTimestamp x, VTimestamp y => Some (x ?= y)
  | VDecimal x s, VDecimal y s' => if s =? s' then Some (x ?= y) else None
  | VReal x, VReal y => SFcompare (f32_of_bits x) (f32_of_bits y)
  | VDouble x, VDouble y => SFcompare (f64_of_bits x) (f64_of_bits y)
  | VText x, VText y | VBlob x, VBlob y => Some (cmp x y)
  | _, _ => None
  end.

(** Columns compare in declared order; the first difference decides. *)
Fixpoint logical_cmp_columns (a b : list RelationalValue) : option comparison :=
  match a, b with
  | [], [] => Some Eq
  | x :: a, y :: b =>
    match logical_cmp x y with
    | Some Eq => logical_cmp_columns a b
    | c => c
    end
  | _, _ => None
  end.

(** The values a key-bearing column may hold. *)
Definition key_value (v : RelationalValue) : bool :=
  match v with
  | VReal bits => negb (is_nan32 bits)
  | VDouble bits => negb (is_nan64 bits)
  | VTime z => 0 <=? z
  | _ => true
  end.

(** A key identifies [-0.0] with [+0.0]. *)
Definition canonical (v : RelationalValue) : RelationalValue :=
  match v with
  | VReal bits => VReal (if is_zero32 bits then 0 else bits)
  | VDouble bits => VDouble (if is_zero64 bits then 0 else bits)
  | v => v
  end.

(** ** Bit arithmetic *)

Lemma land_small_top w x : 0 <= w -> 0 <= x < 2 ^ w -> Z.land x (2 ^ w) = 0.
Proof.
  intros Hw Hx. apply Z.bits_inj'. intros n Hn. rewrite Z.land_spec, Z.bits_0, Z.pow2_bits_eqb by lia.
  destruct (Z.eqb_spec w n) as [->|]; [|by rewrite andb_false_r].
  destruct (decide (x = 0)) as [->|]; [by rewrite Z.bits_0|].
  rewrite Z.bits_above_log2; [done|lia|]. apply Z.log2_lt_pow2; lia.
Qed.

Lemma lxor_small_top w x : 0 <= w -> 0 <= x < 2 ^ w -> Z.lxor x (2 ^ w) = x + 2 ^ w.
Proof. intros. symmetry. by apply Z.add_nocarry_lxor, land_small_top. Qed.

Lemma lor_small_top w x : 0 <= w -> 0 <= x < 2 ^ w -> Z.lor x (2 ^ w) = x + 2 ^ w.
Proof. intros. rewrite <- lxor_small_top by done. symmetry. by apply Z.lxor_lor, land_small_top. Qed.

Lemma lxor_large_top w x : 0 <= w -> 2 ^ w <= x < 2 ^ (w + 1) -> Z.lxor x (2 ^ w) = x - 2 ^ w.
Proof.
  intros Hw Hx. rewrite Z.pow_add_r in Hx by lia.
  replace x with ((x - 2 ^ w) + 2 ^ w) at 1 by lia. rewrite <- lxor_small_top by lia.
  by rewrite Z.lxor_assoc, Z.lxor_nilpotent, Z.lxor_0_r.
Qed.

Lemma land_large_top w x : 0 <= w -> 2 ^ w <= x < 2 ^ (w + 1) -> Z.land x (2 ^ w) = 2 ^ w.
Proof.
  intros Hw Hx. rewrite Z.pow_add_r in Hx by lia.
  replace x with ((x - 2 ^ w) + 2 ^ w) at 1 by lia. rewrite <- lor_small_top by lia.
  by rewrite Z.land_lor_distr_l, land_small_top, Z.land_diag, Z.lor_0_l by lia.
Qed.

Lemma lxor_ones w x : 0 <= w -> 0 <= x < 2 ^ w -> Z.lxor x (Z.ones w) = 2 ^ w - 1 - x.
Proof.
  intros Hw Hx.
  assert (Z.land x (Z.ones w) = x) as Hl by (rewrite Z.land_ones by lia; by apply Z.mod_small).
  assert (Z.land (Z.lxor x (Z.ones w)) x = 0) as Hd.
  { rewrite Z.lxor_comm. rewrite <- Hl at 2. apply Z.bits_inj'. intros n Hn.
    rewrite !Z.land_spec, Z.lxor_spec, Z.bits_0. by destruct (Z.testbit x n), (Z.testbit (Z.ones w) n). }
  pose proof (Z.add_nocarry_lxor _ _ Hd) as Ha.
  rewrite (Z.lxor_comm x), Z.lxor_assoc, Z.lxor_nilpotent, Z.lxor_0_r, Z.ones_equiv in Ha.
  rewrite (Z.lxor_comm x), Z.ones_equiv. lia.
Qed.

(** ** IEEE 754 order on bit patterns *)

Section Floats.
Context (mw ew : Z).
Hypothesis Hmw : 0 < mw.
Hypothesis Hew : 1 < ew.

Let M : Z := 2 ^ mw.
Let sign_bit : Z := 2 ^ (mw + ew).
Let inf : Z := (2 ^ ew - 1) * M.

(** The pattern with sign [s] and magnitude [k]. *)
Definition with_sign (s : bool) (k : Z) : Z := if s then k + 2 ^ (mw + ew) else k.

Lemma float_view k :
  0 <= k <= inf ->
  (k = 0 /\ forall s, float_of_bits mw ew (with_sign s k) = S754_zero s) \/
  (k = inf /\ forall s, float_of_bits mw ew (with_sign s k) = S754_infinity s) \/
  exists m e e0, (forall s, float_of_bits mw ew (with_sign s k) = S754_finite s m (e0 + e)) /\
    e0 = 1 - 2 ^ (ew - 1) - mw /\
    k = (e - 1) * M + Zpos m /\ 1 <= e < 2 ^ ew - 1 /\ (e = 1 \/ M <= Zpos m) /\ Zpos m < 2 * M.
Proof.
  intros Hk.
  assert (0 < M) as HM by (apply Z.pow_pos_nonneg; lia).
  assert (4 <= 2 ^ ew) as HE by (change 4 with (2 ^ 2); apply Z.pow_le_mono_r; lia).
  assert (sign_bit = 2 ^ ew * M) as Hsb by (unfold sign_bit, M; rewrite Z.pow_add_r by lia; lia).
  assert (k < sign_bit) as Hks by (unfold inf in Hk; nia).
  assert (forall s, (sign_bit <=? with_sign s k) = s /\ with_sign s k mod sign_bit = k) as Hs.
  { intros []; unfold with_sign; fold sign_bit; (split; [by cmp_lia|]); [|apply Z.mod_small; lia].
    rewrite <- (Z.mul_1_l sign_bit) at 1. rewrite Z.mod_add by lia. apply Z.mod_small; lia. }
  pose proof (Z.div_mod k M). pose proof (Z.mod_pos_bound k M HM). pose proof (Z.div_pos k M).
  assert (k / M < 2 ^ ew) by (apply Z.div_lt_upper_bound; lia).
  assert (forall s, float_of_bits mw ew (with_sign s k) =
    if k / M =? 2 ^ ew - 1 then (if k mod M =? 0 then S754_infinity s else S754_nan)
    else if k / M =? 0 then
      (if k mod M =? 0 then S754_zero s else S754_finite s (Z.to_pos (k mod M)) (2 - 2 ^ (ew - 1) - mw))
    else S754_finite s (Z.to_pos (k mod M + M)) (2 - 2 ^ (ew - 1) - mw + k / M - 1)) as Hf.
  { intros s. unfold float_of_bits. fold M sign_bit. by destruct (Hs s) as [-> ->]. }
  destruct (Z.eqb_spec (k / M) (2 ^ ew - 1)).
  - assert (k mod M = 0) as Hm by (unfold inf in Hk; nia). right. left. rewrite Hm in *.
    split; [unfold inf; nia|]. intros s. by rewrite Hf.
  - destruct (Z.eqb_spec (k / M) 0); [destruct (Z.eqb_spec (k mod M) 0)|].
    + left. split; [nia|]. intros s. by rewrite Hf.
    + right; right. exists (Z.to_pos (k mod M)), 1, (1 - 2 ^ (ew - 1) - mw). split.
      { intros s. rewrite Hf. f_equal. lia. }
      split_and!; try lia; rewrite ?Z2Pos.id by lia; nia.
    + right; right. exists (Z.to_pos (k mod M + M)), (k / M), (1 - 2 ^ (ew - 1) - mw). split.
      { intros s. rewrite Hf. f_equal. lia. }
      split_and!; try lia; rewrite ?Z2Pos.id by lia; nia.
Qed.

(** Finite data compare by exponent, then by significand. *)
Lemma finite_compare (m m' : positive) e e' :
  0 < M -> 1 <= e -> 1 <= e' -> (e = 1 \/ M <= Zpos m) -> (e' = 1 \/ M <= Zpos m') -> Zpos m < 2 * M -> Zpos m' < 2 * M ->
  ((e - 1) * M + Zpos m ?= (e' - 1) * M + Zpos m') = cmp_then (e ?= e') (Zpos m ?= Zpos m').
Proof.
  intros HM He He' Hme Hme' Hm Hm'. destruct (Z.compare_spec e e') as [->| |]; simpl.
  - change (m ?= m')%positive with (Zpos m ?= Zpos m'). apply Z.add_compare_mono_l.
  - apply Z.compare_lt_iff. assert (e * M <= (e' - 1) * M) by (apply Z.mul_le_mono_nonneg_r; lia). lia.
  - apply Z.compare_gt_iff. assert (e' * M <= (e - 1) * M) by (apply Z.mul_le_mono_nonneg_r; lia). lia.
Qed.

(** Magnitudes order the data; a set sign reverses it; zeros are equal. *)
Lemma float_compare s j t k :
  0 <= j <= inf -> 0 <= k <= inf ->
  SFcompare (float_of_bits mw ew (with_sign s j)) (float_of_bits mw ew (with_sign t k)) =
  Some ((if s then - j else j) ?= (if t then - k else k)).
Proof.
  intros Hj Hk.
  assert (0 < M) as HM by (apply Z.pow_pos_nonneg; lia).
  assert (4 <= 2 ^ ew) as HE by (change 4 with (2 ^ 2); apply Z.pow_le_mono_r; lia).
  assert (forall m e, 1 <= e < 2 ^ ew - 1 -> Zpos m < 2 * M -> (e - 1) * M + Zpos m < inf) as Hinf
    by (unfold inf; intros; nia).
  assert (0 < inf) by (unfold inf; nia).
  destruct (float_view j Hj) as [[Ej Fj]|[[Ej Fj]|(m & e & e0 & Fj & Ee & Ej & He & Hme & Hm)]],
    (float_view k Hk) as [[Ek Fk]|[[Ek Fk]|(m' & e' & e0' & Fk & Ee' & Ek & He' & Hme' & Hm')]];
    rewrite Fj, Fk; clear Fj Fk; destruct s, t; cbn [SFcompare]; f_equal; symmetry;
    try specialize (Hinf m e He Hm); try specialize (Hinf m' e' He' Hm');
    rewrite ?Z.compare_lt_iff, ?Z.compare_gt_iff, ?Z.compare_eq_iff; try lia.
  - rewrite Z.compare_opp, Z.compare_antisym, Ej, Ek, finite_compare, Ee, Ee', Z.add_compare_mono_l by lia.
    by destruct (e ?= e').
  - rewrite Ej, Ek, finite_compare, Ee, Ee', Z.add_compare_mono_l by lia. by destruct (e ?= e').
Qed.
End Floats.

(** The number a key encodes for a float of [w] bits. *)
Definition float_rank (w bits : Z) : Z :=
  if bits mod 2 ^ (w - 1) =? 0 then 2 ^ (w - 1)
  else if bits <? 2 ^ (w - 1) then bits + 2 ^ (w - 1) else 2 ^ w - 1 - bits.

Lemma sign_magnitude h b :
  0 < h -> 0 <= b < 2 * h -> b mod h = (if b <? h then b else b - h).
Proof.
  intros Hh Hb. case_cmp; [apply Z.mod_small; lia|].
  replace b with (b - h + 1 * h) by lia. rewrite Z.mod_add by lia. replace (b - h + 1 * h - h) with (b - h) by lia.
  apply Z.mod_small. lia.
Qed.

Lemma float_rank_compare mw ew a b :
  0 < mw -> 1 < ew -> 0 <= a < 2 ^ (mw + ew + 1) -> 0 <= b < 2 ^ (mw + ew + 1) ->
  a mod 2 ^ (mw + ew) <= (2 ^ ew - 1) * 2 ^ mw -> b mod 2 ^ (mw + ew) <= (2 ^ ew - 1) * 2 ^ mw ->
  SFcompare (float_of_bits mw ew a) (float_of_bits mw ew b) =
  Some (float_rank (mw + ew + 1) a ?= float_rank (mw + ew + 1) b).
Proof.
  intros Hmw Hew Ha Hb Hna Hnb. unfold float_rank. replace (mw + ew + 1 - 1) with (mw + ew) by lia.
  rewrite (Z.pow_add_r 2 (mw + ew)) in * by lia. set (h := 2 ^ (mw + ew)) in *.
  assert (0 < h) as Hh by (apply Z.pow_pos_nonneg; lia). change (2 ^ 1) with 2 in *.
  assert (forall c, 0 <= c < h * 2 -> with_sign mw ew (negb (c <? h)) (c mod h) = c /\ 0 <= c mod h) as Hw.
  { intros c Hc. rewrite sign_magnitude by lia. unfold with_sign. fold h. case_cmp; simpl; lia. }
  destruct (Hw a Ha) as [Ea Ha0], (Hw b Hb) as [Eb Hb0].
  rewrite <- Ea at 1. rewrite <- Eb at 1. rewrite float_compare by lia. f_equal.
  clear Ea Eb Hw. rewrite !sign_magnitude in * by lia.
  destruct (Z.ltb_spec a h), (Z.ltb_spec b h); cbn [negb]; repeat case_cmp;
    match goal with |- (?x ?= ?y) = (?u ?= ?v) => destruct (Z.compare_spec x y), (Z.compare_spec u v) end;
    first [done | lia].
Qed.

Lemma magnitude32 b : Z.land b 0x7FFFFFFF = b mod 2 ^ 31.
Proof. change 0x7FFFFFFF with (Z.ones 31). by apply Z.land_ones. Qed.

Lemma magnitude64 b : Z.land b 0x7FFFFFFFFFFFFFFF = b mod 2 ^ 63.
Proof. change 0x7FFFFFFFFFFFFFFF with (Z.ones 63). by apply Z.land_ones. Qed.

(** The transform's branches, for any width. *)
Lemma transform_rank w bits :
  0 < w -> 0 <= bits < 2 ^ w ->
  (let bits := if bits mod 2 ^ (w - 1) =? 0 then 0 else bits in
   if negb (Z.land bits (2 ^ (w - 1)) =? 0) then Z.lxor bits (Z.ones w) else Z.lor bits (2 ^ (w - 1)))
  = float_rank w bits.
Proof.
  intros Hw Hb. unfold float_rank. assert (0 < 2 ^ (w - 1)) as Hh by (apply Z.pow_pos_nonneg; lia).
  assert (2 ^ w = 2 * 2 ^ (w - 1)) as Hp by (rewrite <- Z.pow_succ_r by lia; f_equal; lia).
  destruct (Z.eqb_spec (bits mod 2 ^ (w - 1)) 0); cbn zeta; [by rewrite Z.land_0_l, Z.lor_0_l|].
  destruct (Z.ltb_spec bits (2 ^ (w - 1))).
  - rewrite land_small_top, lor_small_top by lia. done.
  - rewrite land_large_top by (rewrite ?Z.sub_add; lia). rewrite lxor_ones by lia.
    by destruct (Z.eqb_spec (2 ^ (w - 1)) 0); [lia|].
Qed.

Lemma monotonic_f32_spec v :
  is_u32 v -> is_nan32 v = false -> monotonic_f32 v = Ok (be_bytes 4 (float_rank 32 v)).
Proof.
  unfold_ints. intros Hv Hn. unfold monotonic_f32. rewrite Hn, <- transform_rank by lia.
  unfold is_zero32. by rewrite magnitude32.
Qed.

Lemma monotonic_f64_spec v :
  is_u64 v -> is_nan64 v = false -> monotonic_f64 v = Ok (be_bytes 8 (float_rank 64 v)).
Proof.
  unfold_ints. intros Hv Hn. unfold monotonic_f64. rewrite Hn, <- transform_rank by lia.
  unfold is_zero64. by rewrite magnitude64.
Qed.

Lemma float_rank_range w v : 0 < w -> 0 <= v < 2 ^ w -> 0 <= float_rank w v < 2 ^ w.
Proof.
  intros Hw Hv. unfold float_rank. assert (0 < 2 ^ (w - 1)) by (apply Z.pow_pos_nonneg; lia).
  assert (2 ^ w = 2 * 2 ^ (w - 1)) by (rewrite <- Z.pow_succ_r by lia; f_equal; lia).
  repeat case_cmp; lia.
Qed.

(** Undoing the transform gives the bits back, with [-0.0] canonicalised. *)
Lemma untransform_rank w v :
  0 < w -> 0 <= v < 2 ^ w ->
  (if negb (Z.land (float_rank w v) (2 ^ (w - 1)) =? 0) then float_rank w v mod 2 ^ (w - 1)
   else Z.lxor (float_rank w v) (Z.ones w)) = if v mod 2 ^ (w - 1) =? 0 then 0 else v.
Proof.
  intros Hw Hv. pose proof (float_rank_range w v Hw Hv) as Hr.
  assert (0 < 2 ^ (w - 1)) as Hh by (apply Z.pow_pos_nonneg; lia).
  assert (2 ^ w = 2 * 2 ^ (w - 1)) as Hp by (rewrite <- Z.pow_succ_r by lia; f_equal; lia).
  rewrite (sign_magnitude _ (float_rank w v)) by lia. rewrite lxor_ones by lia.
  destruct (Z.lt_ge_cases (float_rank w v) (2 ^ (w - 1))).
  - rewrite land_small_top by lia. cbn [negb]. revert H. unfold float_rank. rewrite Z.eqb_refl. repeat case_cmp; simpl; lia.
  - rewrite land_large_top by (rewrite ?Z.sub_add; lia). destruct (Z.eqb_spec (2 ^ (w - 1)) 0); [lia|]. cbn [negb].
    cmp_lia. revert H. unfold float_rank. repeat case_cmp; lia.
Qed.

Lemma sign_flip_rank w v :
  0 < w -> is_signed w v -> Z.lxor (as_unsigned w v) (2 ^ (w - 1)) = v + 2 ^ (w - 1).
Proof.
  unfold is_signed, as_unsigned. intros Hw Hv.
  assert (2 ^ w = 2 * 2 ^ (w - 1)) as Hp by (rewrite <- Z.pow_succ_r by lia; f_equal; lia).
  destruct (Z.lt_ge_cases v 0).
  - replace (v mod 2 ^ w) with (v + 2 ^ w).
    + rewrite lxor_large_top by (rewrite ?Z.sub_add; lia). lia.
    + symmetry. rewrite <- (Z.mod_small (v + 2 ^ w) (2 ^ w)) by lia.
      rewrite <- (Z.mul_1_l (2 ^ w)) at 2. by rewrite Z.mod_add by lia.
  - rewrite Z.mod_small by lia. by rewrite lxor_small_top by lia.
Qed.

Lemma unsign_flip_rank w v :
  0 < w -> is_signed w v -> as_signed w (Z.lxor (v + 2 ^ (w - 1)) (2 ^ (w - 1))) = v.
Proof.
  unfold is_signed, as_signed. intros Hw Hv.
  assert (2 ^ w = 2 * 2 ^ (w - 1)) as Hp by (rewrite <- Z.pow_succ_r by lia; f_equal; lia).
  destruct (Z.lt_ge_cases v 0).
  - rewrite lxor_small_top by lia. cmp_lia. lia.
  - rewrite lxor_large_top by (rewrite ?Z.sub_add; lia). cmp_lia. lia.
Qed.

(** ** Encodings as pure functions *)

(** The width of a fixed-width column and the number its key holds, big-endian. *)
Definition fixed_width (t : RelationalType) : option nat :=
  match t with
  | TBoolean => Some 1%nat
  | TInteger | TDate | TReal => Some 4%nat
  | TBigint | TTimestamp | TTime | TDouble => Some 8%nat
  | TDecimal _ => Some 16%nat
  | TText | TBlob => None
  end.

Definition rank (v : RelationalValue) : Z :=
  match v with
  | VBoolean b => if b then 1 else 0
  | VInteger z | VDate z => z + 2 ^ 31
  | VBigint z | VTimestamp z => z + 2 ^ 63
  | VTime z => z
  | VDecimal z _ => z + 2 ^ 127
  | VReal b => float_rank 32 b
  | VDouble b => float_rank 64 b
  | VText _ | VBlob _ => 0
  end.

Definition content (v : RelationalValue) : bytes := match v with VText s | VBlob s => s | _ => [] end.

Fixpoint escape (src : bytes) : bytes :=
  match src with
  | [] => []
  | b :: src => (if bool_decide (b = x00) then [x00; xff] else [b]) ++ escape src
  end.

(** The bytes one key value contributes. *)
Definition key_bytes (v : RelationalValue) : bytes :=
  match fixed_width (value_type v) with
  | Some n => be_bytes n (rank v)
  | None => escape (content v) ++ [x00; x00]
  end.

Definition keys_bytes (vs : list RelationalValue) : bytes := concat (map key_bytes vs).

Lemma keys_bytes_cons v vs : keys_bytes (v :: vs) = key_bytes v ++ keys_bytes vs.
Proof. done. Qed.

Lemma escape_loop_eq src out : escape_loop src out = out ++ escape src.
Proof.
  revert out. induction src as [|b src IH]; intros out; simpl; [by rewrite app_nil_r|].
  rewrite IH. by case_bool_decide; rewrite <- app_assoc.
Qed.

Lemma fixed_rank_range v n :
  value_wf v -> key_value v = true -> fixed_width (value_type v) = Some n -> 0 <= rank v < 256 ^ Z.of_nat n.
Proof.
  destruct v; simpl; intros Hw Hk [= <-]; unfold is_signed in *; bool_to_prop; unfold_ints;
    first [ destruct v; lia | apply (float_rank_range 32); lia | apply (float_rank_range 64); lia
          | change (256 ^ Z.of_nat 4) with (2 ^ 32); lia | change (256 ^ Z.of_nat 8) with (2 ^ 64); lia
          | change (256 ^ Z.of_nat 16) with (2 ^ 128); lia ].
Qed.

(** A key value is encoded exactly when it is one a key may hold, by appending its bytes. *)
Lemma encode_key_value_spec v out :
  value_wf v ->
  if key_value v then encode_key_value v out = Ok (out ++ key_bytes v)
  else exists d, encode_key_value v out = Err (RInvalidInput d).
Proof.
  intros Hw. destruct v as [b| | |v|v| | | | |v|]; cbn [key_value].
  - by destruct b.
  - cbn [encode_key_value]. unfold sign_flip_32. by rewrite (sign_flip_rank 32) by done.
  - cbn [encode_key_value]. unfold sign_flip_64. by rewrite (sign_flip_rank 64) by done.
  - cbn [encode_key_value]. destruct (is_nan32 v) eqn:E; simpl negb.
    + unfold monotonic_f32. rewrite E. eauto.
    + by rewrite monotonic_f32_spec.
  - cbn [encode_key_value]. destruct (is_nan64 v) eqn:E; simpl negb.
    + unfold monotonic_f64. rewrite E. eauto.
    + by rewrite monotonic_f64_spec.
  - cbn [encode_key_value]. unfold sign_flip_128. destruct Hw. by rewrite (sign_flip_rank 128) by done.
  - cbn [encode_key_value]. unfold encode_escaped_terminated. by rewrite escape_loop_eq, <- app_assoc.
  - cbn [encode_key_value]. unfold encode_escaped_terminated. by rewrite escape_loop_eq, <- app_assoc.
  - cbn [encode_key_value]. unfold sign_flip_32. by rewrite (sign_flip_rank 32) by done.
  - cbn [encode_key_value]. destruct (Z.leb_spec 0 v).
    + cmp_lia. unfold as_unsigned. unfold value_wf, is_signed in Hw. by rewrite Z.mod_small by lia.
    + cmp_lia. eauto.
  - cbn [encode_key_value]. unfold sign_flip_64. by rewrite (sign_flip_rank 64) by done.
Qed.

Lemma encode_composite_key_spec vs :
  Forall value_wf vs ->
  if forallb key_value vs then encode_composite_key vs = Ok (keys_bytes vs)
  else exists d, encode_composite_key vs = Err (RInvalidInput d).
Proof.
  intros Hw. unfold encode_composite_key.
  enough (forall out, if forallb key_value vs then encode_values vs out = Ok (out ++ keys_bytes vs)
                 else exists d, encode_values vs out = Err (RInvalidInput d)) as H by apply (H []).
  induction Hw as [|v vs Hv Hw IH]; intros out; simpl; [by rewrite app_nil_r|].
  pose proof (encode_key_value_spec v out Hv) as Hs. destruct (key_value v); simpl.
  - rewrite Hs. specialize (IH (out ++ key_bytes v)). rewrite <- app_assoc in IH. apply IH.
  - destruct Hs as [d ->]. eauto.
Qed.

(** ** Order *)

(** The contents decide, whatever follows the terminator's first byte, as long as it is no escape. *)
Lemma cmp_escape_gen a b s t x y :
  s <> xff -> t <> xff ->
  cmp (escape a ++ [x00; s] ++ x) (escape b ++ [x00; t] ++ y) = cmp_then (cmp a b) (cmp (s :: x) (t :: y)).
Proof.
  intros Hs Ht.
  assert (forall c : byte, c <> xff -> cmp c xff = Lt /\ cmp xff c = Gt) as Hff.
  { intros c Hc. enough (cmp c xff = Lt) by (split; [done|by apply cmp_gt_lt]).
    apply Z.compare_lt_iff. pose proof (b2z_range c). change (b2z xff) with 255.
    destruct (decide (b2z c = 255)) as [E|]; [|lia]. by apply (b2z_inj c xff) in E. }
  assert (forall c : byte, c <> x00 -> cmp x00 c = Lt /\ cmp c x00 = Gt) as H0.
  { intros c Hc. enough (cmp x00 c = Lt) by (split; [done|by apply cmp_gt_lt]).
    apply Z.compare_lt_iff. pose proof (b2z_range c). change (b2z x00) with 0.
    destruct (decide (b2z c = 0)) as [E|]; [|lia]. by apply (b2z_inj c x00) in E. }
  revert b. induction a as [|c a IH]; intros [|d b]; simpl.
  - by rewrite cmp_cons, cmp_refl.
  - change (cmp [] (d :: b)) with Lt. case_bool_decide; simpl; rewrite !cmp_cons.
    + rewrite cmp_refl. by destruct (Hff s Hs) as [-> _].
    + by destruct (H0 d) as [-> _].
  - change (cmp (c :: a) []) with Gt. case_bool_decide; simpl; rewrite !cmp_cons.
    + rewrite cmp_refl. by destruct (Hff t Ht) as [_ ->].
    + by destruct (H0 c) as [_ ->].
  - rewrite (cmp_cons c d). specialize (IH b). simpl in IH.
    rewrite (cmp_cons s t) in IH |- *.
    repeat case_bool_decide; subst; simpl; rewrite !cmp_cons, ?cmp_refl, ?IH; simpl; [done| | |].
    + by destruct (H0 d) as [-> _].
    + by destruct (H0 c) as [_ ->].
    + by rewrite cmp_then_assoc.
Qed.

Lemma cmp_escape a b x y :
  cmp (escape a ++ [x00; x00] ++ x) (escape b ++ [x00; x00] ++ y) = cmp_then (cmp a b) (cmp x y).
Proof. by rewrite cmp_escape_gen, cmp_cons, cmp_refl. Qed.

Lemma nan32_magnitude v : is_nan32 v = false -> v mod 2 ^ (23 + 8) <= (2 ^ 8 - 1) * 2 ^ 23.
Proof. unfold is_nan32. rewrite magnitude32. intros H%Z.ltb_ge. exact H. Qed.

Lemma nan64_magnitude v : is_nan64 v = false -> v mod 2 ^ (52 + 11) <= (2 ^ 11 - 1) * 2 ^ 52.
Proof. unfold is_nan64. rewrite magnitude64. intros H%Z.ltb_ge. exact H. Qed.

Lemma logical_cmp_rank a b n :
  value_wf a -> value_wf b -> key_value a = true -> key_value b = true ->
  value_type a = value_type b -> fixed_width (value_type a) = Some n ->
  logical_cmp a b = Some (rank a ?= rank b).
Proof.
  intros Ha Hb Ka Kb Ht Hn. destruct a, b; try discriminate Ht; cbn [logical_cmp rank];
    rewrite ?(Z.add_comm _ (2 ^ _)), ?Z.add_compare_mono_l; try done.
  - by destruct v, v0.
  - apply (float_rank_compare 23 8); unfold value_wf in *; unfold_ints;
      first [lia | apply nan32_magnitude; by apply negb_true_iff].
  - apply (float_rank_compare 52 11); unfold value_wf in *; unfold_ints;
      first [lia | apply nan64_magnitude; by apply negb_true_iff].
  - injection Ht as ->. by rewrite Z.eqb_refl.
Qed.

(** One column decides, and whatever follows only matters when it ties. *)
Lemma cmp_key_bytes a b x y :
  value_wf a -> value_wf b -> key_value a = true -> key_value b = true -> value_type a = value_type b ->
  exists c, logical_cmp a b = Some c /\ cmp (key_bytes a ++ x) (key_bytes b ++ y) = cmp_then c (cmp x y).
Proof.
  intros Ha Hb Ka Kb Ht. unfold key_bytes. rewrite <- Ht.
  destruct (fixed_width (value_type a)) as [n|] eqn:Hn.
  - exists (rank a ?= rank b). split; [by apply (logical_cmp_rank a b n)|].
    apply cmp_be_bytes; apply fixed_rank_range; try done. by rewrite <- Ht.
  - exists (cmp (content a) (content b)). rewrite <- !app_assoc, cmp_escape. split; [|done].
    by destruct a, b; try discriminate Hn; try discriminate Ht.
Qed.

Lemma cmp_keys_bytes a b x y :
  Forall value_wf a -> Forall value_wf b -> forallb key_value a = true -> forallb key_value b = true ->
  map value_type a = map value_type b ->
  exists c, logical_cmp_columns a b = Some c /\ cmp (keys_bytes a ++ x) (keys_bytes b ++ y) = cmp_then c (cmp x y).
Proof.
  intros Ha. revert b. induction Ha as [|v a Hv Ha IH]; intros [|u b] Hb Ka Kb Ht; try discriminate Ht; [by exists Eq|].
  simpl in Ka, Kb. bool_to_prop. inversion Hb; subst. injection Ht as Ht1 Ht2.
  destruct (IH b) as (c & Ec & Hc); [done..|]. simpl. rewrite !keys_bytes_cons, <- !app_assoc.
  destruct (cmp_key_bytes v u (keys_bytes a ++ x) (keys_bytes b ++ y)) as (c' & Ec' & Hc'); [done..|].
  rewrite Ec', Hc', Hc. destruct c'; [by exists c|by exists Lt|by exists Gt].
Qed.

(** ** Round trip *)

Lemma take_bytes_app pre mid post n :
  zlen mid = n -> zlen pre + n <= u64_max ->
  take_bytes (pre ++ mid ++ post) (zlen pre) n = Ok (mid, zlen pre + n).
Proof.
  intros <- Hmax. unfold take_bytes, checked_add64. cmp_lia. cbn [ok_or]. by rewrite get_range_app.
Qed.

Lemma take_one_inv buf pos s pos' :
  0 <= pos -> take_bytes buf pos 1 = Ok (s, pos') -> pos' = pos + 1 /\ pos' <= zlen buf.
Proof.
  unfold take_bytes, checked_add64. intros Hp H. destruct (_ <=? _); [|done]. cbn [ok_or] in H.
  destruct (get_range buf pos (pos + 1)) as [r|] eqn:E; [|done]. injection H as <- <-.
  apply get_range_Some in E; [|done]. lia.
Qed.

(** Every iteration consumes a byte, so any fuel above the number of bytes left gives the loop's one result, on arbitrary
    input: [decode_escaped_terminated]'s fuel never runs out. *)
Lemma unescape_fuel f f' buf pos c :
  0 <= pos -> zlen buf - pos < Z.of_nat f -> zlen buf - pos < Z.of_nat f' -> (0 < f)%nat -> (0 < f')%nat ->
  unescape_loop f buf pos c = unescape_loop f' buf pos c.
Proof.
  revert f' pos c. induction f as [|f IH]; intros [|f'] pos c Hp Hf Hf' H0 H0'; try lia. cbn [unescape_loop].
  destruct (take_bytes buf pos 1) as [[s pos1]|] eqn:E1; [|done]. apply take_one_inv in E1 as [-> ?]; [|done].
  case_bool_decide.
  - destruct (take_bytes buf (pos + 1) 1) as [[s' pos2]|] eqn:E2; [|done]. apply take_one_inv in E2 as [-> ?]; [|lia].
    destruct (first_byte s'); try done. apply IH; lia.
  - apply IH; lia.
Qed.

(** [unescape_loop] does not run out of fuel as long as fuel exceeds the bytes left. *)
Lemma unescape_escape fuel pre src post c :
  zlen pre + zlen (escape src) + 2 <= u64_max -> (length (escape src) < fuel)%nat ->
  unescape_loop fuel (pre ++ escape src ++ [x00; x00] ++ post) (zlen pre) c =
  Ok (c ++ src, zlen pre + zlen (escape src) + 2).
Proof.
  assert (forall (l : bytes) b k, zlen l + 1 <= u64_max -> take_bytes (l ++ b :: k) (zlen l) 1 = Ok ([b], zlen l + 1)) as Ht.
  { intros l b k H. by apply (take_bytes_app l [b] k 1). }
  revert fuel pre c. induction src as [|b src IH]; intros [|fuel] pre c Hm Hf; [simpl in Hf; lia| |lia|].
  - cbn [escape app unescape_loop]. simpl length in Hm. rewrite Ht by lia. cbn [first_byte bool_decide].
    rewrite bool_decide_true by done.
    specialize (Ht (pre ++ [x00]) x00 post). rewrite zlen_app, <- app_assoc in Ht. simpl in Ht.
    change (Z.of_nat 1) with 1 in Ht. rewrite Ht by lia. cbn [first_byte]. rewrite app_nil_r. simpl length. do 2 f_equal. lia.
  - cbn [escape] in *. rewrite length_app in Hf. rewrite zlen_app in Hm. cbn [unescape_loop]. case_bool_decide as Hb.
    + subst b. simpl in Hf, Hm. cbn [app]. rewrite Ht by lia. cbn [first_byte]. rewrite bool_decide_true by done.
      specialize (Ht (pre ++ [x00]) xff (escape src ++ x00 :: x00 :: post)). rewrite zlen_app, <- app_assoc in Ht.
      simpl in Ht. change (Z.of_nat 1) with 1 in Ht. rewrite Ht by lia. cbn [first_byte].
      specialize (IH fuel (pre ++ [x00; xff]) (c ++ [x00])). rewrite zlen_app, <- !app_assoc in IH. simpl in IH.
      change (Z.of_nat 2) with 2 in IH. rewrite <- Z.add_assoc. change (1 + 1) with 2. rewrite IH by lia. simpl length. do 2 f_equal. lia.
    + simpl in Hf, Hm. cbn [app]. rewrite Ht by lia. cbn [first_byte]. rewrite bool_decide_false by done.
      specialize (IH fuel (pre ++ [b]) (c ++ [b])). rewrite zlen_app, <- !app_assoc in IH. simpl in IH.
      change (Z.of_nat 1) with 1 in IH. rewrite IH by lia. simpl length. do 2 f_equal. lia.
Qed.

Lemma canonical_content v : fixed_width (value_type v) = None -> canonical v = v.
Proof. by destruct v. Qed.

Lemma decode_key_value_app v pre post :
  value_wf v -> key_value v = true -> zlen pre + zlen (key_bytes v) <= u64_max ->
  decode_key_value (value_type v) (pre ++ key_bytes v ++ post) (zlen pre) =
  Ok (canonical v, zlen pre + zlen (key_bytes v)).
Proof.
  intros Hw Hk Hm. destruct (fixed_width (value_type v)) as [n|] eqn:Hn.
  - pose proof (fixed_rank_range v n Hw Hk Hn) as Hr. unfold key_bytes in *. rewrite Hn in *.
    rewrite length_be_bytes in *.
    destruct v as [b| | |v|v| | | | |v|]; try discriminate Hn; injection Hn as <-; cbn [value_type decode_key_value];
      rewrite take_bytes_app by (rewrite ?length_be_bytes; done); cbn [canonical rank] in *.
    + by destruct b.
    + unfold unsign_flip_32. rewrite be_val_bytes_small by done. by rewrite (unsign_flip_rank 32).
    + unfold unsign_flip_64. rewrite be_val_bytes_small by done. by rewrite (unsign_flip_rank 64).
    + unfold unmonotonic_f32, is_zero32, not32. rewrite be_val_bytes_small by done.
      unfold value_wf in Hw. unfold_ints. pose proof (untransform_rank 32 v) as Hu.
      rewrite !magnitude32. cbn zeta. f_equal. f_equal. f_equal. apply Hu; lia.
    + unfold unmonotonic_f64, is_zero64, not64. rewrite be_val_bytes_small by done.
      unfold value_wf in Hw. unfold_ints. pose proof (untransform_rank 64 v) as Hu.
      rewrite !magnitude64. cbn zeta. f_equal. f_equal. f_equal. apply Hu; lia.
    + destruct Hw. unfold unsign_flip_128. rewrite be_val_bytes_small by done. by rewrite (unsign_flip_rank 128).
    + unfold unsign_flip_32. rewrite be_val_bytes_small by done. by rewrite (unsign_flip_rank 32).
    + rewrite be_val_bytes_small by done. unfold value_wf, is_signed in Hw. unfold as_signed.
      rewrite (proj2 (Z.ltb_lt v (2 ^ (64 - 1)))) by lia. done.
    + unfold unsign_flip_64. rewrite be_val_bytes_small by done. by rewrite (unsign_flip_rank 64).
  - rewrite canonical_content by done. unfold key_bytes in *. rewrite Hn in *. rewrite zlen_app in *.
    assert (decode_escaped_terminated (pre ++ (escape (content v) ++ [x00; x00]) ++ post) (zlen pre) =
      Ok (content v, zlen pre + (zlen (escape (content v)) + zlen [x00; x00]))) as Hd.
    { unfold decode_escaped_terminated. rewrite <- (app_assoc (escape _)). rewrite unescape_escape.
      - simpl length. do 2 f_equal. lia.
      - simpl length in Hm. lia.
      - rewrite !length_app. lia. }
    destruct v; try discriminate Hn; cbn [value_type decode_key_value content] in *; rewrite Hd; [|done].
    by rewrite Hw.
Qed.

Lemma decode_values_app vs pre post acc :
  Forall value_wf vs -> forallb key_value vs = true -> zlen pre + zlen (keys_bytes vs) <= u64_max ->
  decode_values (map value_type vs) (pre ++ keys_bytes vs ++ post) (zlen pre) acc =
  Ok (acc ++ map canonical vs, zlen pre + zlen (keys_bytes vs)).
Proof.
  intros Hw. revert pre acc. induction Hw as [|v vs Hv Hw IH]; intros pre acc Hk Hm.
  - simpl. rewrite app_nil_r, Z.add_0_r. done.
  - simpl in Hk. bool_to_prop. rewrite keys_bytes_cons, zlen_app in *. cbn [map decode_values].
    rewrite <- (app_assoc (key_bytes v)), decode_key_value_app by (try done; lia).
    specialize (IH (pre ++ key_bytes v) (acc ++ [canonical v])). rewrite zlen_app, <- !app_assoc in IH.
    rewrite IH by (try done; lia). f_equal. f_equal. lia.
Qed.

(** ** What the key encoding guarantees *)

Definition demo_columns : list RelationalValue :=
  [VText [x61; x00]; VInteger (-5); VDouble 0x8000000000000000; VBoolean true].
Definition demo_columns' : list RelationalValue :=
  [VText [x61; x00]; VInteger 3; VDouble 0xBFF0000000000000; VBoolean false].

Definition get_ok {E A} (d : A) (r : result E A) : A := match r with Ok a => a | Err _ => d end.

(** C14: composite keys of one column list are encoded exactly when no column is [NaN] or a negative [TIME], and then
    comparing the keys byte by byte compares the columns in declared order: numbers by value, floats by IEEE 754, text
    and blobs lexicographically. *)
Theorem composite_key_order (a b : list RelationalValue) (ka kb : bytes) :
  Forall value_wf a -> Forall value_wf b -> map value_type a = map value_type b ->
  (is_ok (encode_composite_key a) = forallb key_value a) /\
  (encode_composite_key a = Ok ka -> encode_composite_key b = Ok kb -> logical_cmp_columns a b = Some (cmp ka kb)).
Proof.
  intros Ha Hb Ht. pose proof (encode_composite_key_spec a Ha) as Ea. pose proof (encode_composite_key_spec b Hb) as Eb.
  split.
  - destruct (forallb key_value a); [by rewrite Ea|]. by destruct Ea as [d ->].
  - intros Ka Kb. destruct (forallb key_value a) eqn:Fa; [|destruct Ea as [d Ea]; congruence].
    destruct (forallb key_value b) eqn:Fb; [|destruct Eb as [d Eb]; congruence].
    destruct (cmp_keys_bytes a b [] []) as (c & Hc & He); [done..|]. rewrite !app_nil_r in He.
    replace ka with (keys_bytes a) by congruence. replace kb with (keys_bytes b) by congruence.
    rewrite Hc, He. by destruct c.
Qed.

(** C36: decoding a composite key against its column types gives the columns back, [-0.0] as [+0.0]. *)
Theorem composite_key_roundtrip (vs : list RelationalValue) (k : bytes) :
  Forall value_wf vs -> encode_composite_key vs = Ok k -> zlen k <= u64_max ->
  decode_composite_key (map value_type vs) k = Ok (map canonical vs).
Proof.
  intros Hw He Hm. pose proof (encode_composite_key_spec vs Hw) as Hs.
  destruct (forallb key_value vs) eqn:Hk; [|destruct Hs as [d Hs]; congruence].
  rewrite He in Hs. injection Hs as ->. unfold decode_composite_key.
  pose proof (decode_values_app vs [] [] [] Hw Hk) as Hd. cbn [app] in Hd. rewrite app_nil_r in Hd.
  change (zlen (@nil byte)) with 0 in Hd. rewrite Z.add_0_l in Hd. rewrite Hd by done. by rewrite Z.eqb_refl.
Qed.

Lemma demo_columns_wf : Forall value_wf demo_columns /\ Forall value_wf demo_columns'.
Proof. split; repeat constructor; by_eval. Qed.

Lemma composite_key_order_witness :
  logical_cmp_columns demo_columns demo_columns' = Some Lt /\
  logical_cmp_columns demo_columns demo_columns' =
    Some (cmp (get_ok [] (encode_composite_key demo_columns)) (get_ok [] (encode_composite_key demo_columns'))).
Proof.
  split; [by vm_compute|].
  apply (composite_key_order demo_columns demo_columns'
    (get_ok [] (encode_composite_key demo_columns)) (get_ok [] (encode_composite_key demo_columns')));
    [apply demo_columns_wf|apply demo_columns_wf|reflexivity|by vm_compute|by vm_compute].
Defined.

Lemma composite_key_roundtrip_witness :
  decode_composite_key (map value_type demo_columns) (get_ok [] (encode_composite_key demo_columns)) =
    Ok [VText [x61; x00]; VInteger (-5); VDouble 0; VBoolean true].
Proof.
  apply (composite_key_roundtrip demo_columns (get_ok [] (encode_composite_key demo_columns)));
    [apply demo_columns_wf|by vm_compute|by vm_compute].
Defined.

End Rel.
