(* ===== verification/IndexKey.v ===== *)
(** * Secondary-index keys and their ranges ([src/src/relational/index_key.rs])

    An index entry's key is [0x01 || table_id || index_id || indexed columns || primary key]; each indexed column carries
    a presence tag so that [NULL] sorts first.  Lookups and scans turn column values into byte ranges; the theorems here
    say that such a range holds exactly the entries whose leading columns satisfy the bounds.  [debug_assert!(index_id > 0)]
    is absent from release builds and has no counterpart. *)

From stdpp Require Import base list option strings.
From Stdlib Require Import ZArith Lia.
From Stdlib Require Import Strings.Byte.
From S2P Require Import Prelude BTree EngineError RelKey.

Module Idx.
Import Rel.

Definition INDEXED_NULL_TAG : byte := x00.
Definition INDEXED_PRESENT_TAG : byte := x01.
Definition MAX_INDEX_KEY_BYTES : Z := 8 * 1024.

Definition index_prefix (table_id index_id : Z) : bytes :=
  [RELATIONAL_NAMESPACE] ++ be32 table_id ++ be32 index_id.

Definition index_entry_key (table_id index_id : Z) (encoded_indexed_columns encoded_pk : bytes)
    : result RelationalError bytes :=
  let key := [RELATIONAL_NAMESPACE] ++ be32 table_id ++ be32 index_id ++ encoded_indexed_columns ++ encoded_pk in
  if MAX_INDEX_KEY_BYTES <? zlen key then Err (RInvalidInput "index entry key exceeds max size") else Ok key.

Definition index_entry_range (table_id index_id : Z) : Bound bytes * Bound bytes :=
  let start := index_prefix table_id index_id in
  match checked_add32 index_id 1 with
  | Some next => (Included start, Excluded (index_prefix table_id next))
  | None =>
    match checked_add32 table_id 1 with
    | Some next_table => (Included start, Excluded (index_prefix next_table 1))
    | None => (Included start, Unbounded)
    end
  end.

(** The [for byte in incremented.iter_mut().rev()] loop, over the reversed bytes; the flag is [carried]. *)
Fixpoint increment_loop (l : bytes) : bytes * bool :=
  match l with
  | [] => ([], false)
  | b :: l =>
    if bool_decide (b = xff) then (let '(l, carried) := increment_loop l in (x00 :: l, carried))
    else (z2b (b2z b + 1) :: l, true)
  end.

Definition increment (encoded_prefix : bytes) : bytes * bool :=
  let '(l, carried) := increment_loop (reverse encoded_prefix) in (reverse l, carried).

Definition index_entry_prefix_range (table_id index_id : Z) (encoded_prefix : bytes) : Bound bytes * Bound bytes :=
  let start := index_prefix table_id index_id ++ encoded_prefix in
  let '(incremented, carried) := increment encoded_prefix in
  if carried then (Included start, Excluded (index_prefix table_id index_id ++ incremented))
  else (Included start, (index_entry_range table_id index_id).2).

Definition index_scan_range (table_id index_id : Z) (start end_ : Bound bytes) : Bound bytes * Bound bytes :=
  let '(default_start, default_end) := index_entry_range table_id index_id in
  let physical_start :=
    match start with
    | Unbounded => default_start
    | Included b => Included (index_prefix table_id index_id ++ b)
    | Excluded b =>
      match (index_entry_prefix_range table_id index_id b).2 with
      | Excluded k => Included k
      | other => other
      end
    end in
  let physical_end :=
    match end_ with
    | Unbounded => default_end
    | Excluded b => Excluded (index_prefix table_id index_id ++ b)
    | Included b => (index_entry_prefix_range table_id index_id b).2
    end in
  (physical_start, physical_end).

Definition encode_indexed_column (value : option RelationalValue) (out : bytes) : result RelationalError bytes :=
  match value with
  | None => Ok (out ++ [INDEXED_NULL_TAG])
  | Some v => encode_key_value v (out ++ [INDEXED_PRESENT_TAG])
  end.

Fixpoint encode_columns (values : list (option RelationalValue)) (out : bytes) : result RelationalError bytes :=
  match values with
  | [] => Ok out
  | v :: values => let? out := encode_indexed_column v out in encode_columns values out
  end.

Definition encode_indexed_columns (values : list (option RelationalValue)) : result RelationalError bytes :=
  encode_columns values [].

Fixpoint decode_columns (types : list RelationalType) (buf : bytes) (pos : Z) (out : list (option RelationalValue))
    : result RelationalError (list (option RelationalValue) * Z) :=
  match types with
  | [] => Ok (out, pos)
  | t :: types =>
    let? tag := ok_or (RInvalidInput "index entry key truncated before indexed-column presence tag") (get_at buf pos) in
    match tag with
    | x00 => decode_columns types buf (pos + 1) (out ++ [None])
    | x01 =>
      let? '(value, pos) := decode_key_value t buf (pos + 1) in decode_columns types buf pos (out ++ [Some value])
    | _ => Err (RInvalidInput "invalid indexed-column presence tag")
    end
  end.

Definition decode_indexed_columns (types : list RelationalType) (buf : bytes)
    : result RelationalError (list (option RelationalValue) * Z) :=
  decode_columns types buf 0 [].

(** ** Columns and bounds, logically *)

(** A column of type [t] holds [NULL] or a value of that type that keys admit. *)
Definition column_ok (t : RelationalType) (c : option RelationalValue) : Prop :=
  match c with
  | None => True
  | Some v => value_wf v /\ key_value v = true /\ value_type v = t
  end.

Definition column_cmp (a b : option RelationalValue) : option comparison :=
  match a, b with
  | None, None => Some Eq
  | None, Some _ => Some Lt
  | Some _, None => Some Gt
  | Some a, Some b => logical_cmp a b
  end.

(** An entry's leading columns against a bound's columns. *)
Fixpoint leading_cmp (cols pre : list (option RelationalValue)) : option comparison :=
  match cols, pre with
  | _, [] => Some Eq
  | c :: cols, p :: pre => match column_cmp c p with Some Eq => leading_cmp cols pre | r => r end
  | [], _ :: _ => None
  end.

Definition above_lower (lo : Bound (list (option RelationalValue))) (cols : list (option RelationalValue)) : bool :=
  match lo with
  | Unbounded => true
  | Included pre => bool_decide (leading_cmp cols pre = Some Eq) || bool_decide (leading_cmp cols pre = Some Gt)
  | Excluded pre => bool_decide (leading_cmp cols pre = Some Gt)
  end.

Definition below_upper (hi : Bound (list (option RelationalValue))) (cols : list (option RelationalValue)) : bool :=
  match hi with
  | Unbounded => true
  | Included pre => bool_decide (leading_cmp cols pre = Some Eq) || bool_decide (leading_cmp cols pre = Some Lt)
  | Excluded pre => bool_decide (leading_cmp cols pre = Some Lt)
  end.

Definition column_bytes (c : option RelationalValue) : bytes :=
  match c with None => [x00] | Some v => x01 :: key_bytes v end.
Definition columns_bytes (cs : list (option RelationalValue)) : bytes := concat (map column_bytes cs).

(** A bound on columns, as the callers pass it to [index_scan_range]. *)
Definition bound_bytes (b : Bound (list (option RelationalValue))) : Bound bytes :=
  match b with
  | Included pre => Included (get_ok [] (encode_indexed_columns pre))
  | Excluded pre => Excluded (get_ok [] (encode_indexed_columns pre))
  | Unbounded => Unbounded
  end.

(** ** Encoding *)

Lemma columns_bytes_cons c cs : columns_bytes (c :: cs) = column_bytes c ++ columns_bytes cs.
Proof. done. Qed.

Lemma encode_columns_ok types cs out :
  Forall2 column_ok types cs -> encode_columns cs out = Ok (out ++ columns_bytes cs).
Proof.
  intros H. revert out. induction H as [|t c types cs Hc H IH]; intros out; simpl; [by rewrite app_nil_r|].
  rewrite columns_bytes_cons, app_assoc. destruct c as [v|]; simpl; [|apply IH].
  destruct Hc as (Hw & Hk & Ht). pose proof (encode_key_value_spec v (out ++ [x01]) Hw) as Hv. rewrite Hk in Hv.
  unfold INDEXED_PRESENT_TAG. rewrite Hv, <- app_assoc. apply IH.
Qed.

Lemma index_entry_key_eq t i cols pk k : index_entry_key t i cols pk = Ok k -> k = index_prefix t i ++ cols ++ pk.
Proof.
  unfold index_entry_key, index_prefix. rewrite <- !app_assoc. by destruct (_ <? _); intros [= <-].
Qed.

Lemma index_prefix_cmp t i t' i' x y :
  is_u32 t -> is_u32 i -> is_u32 t' -> is_u32 i' ->
  cmp (index_prefix t i ++ x) (index_prefix t' i' ++ y) = cmp_then (t ?= t') (cmp_then (i ?= i') (cmp x y)).
Proof.
  unfold_ints. intros. unfold index_prefix. cbn [app]. rewrite cmp_cons, cmp_refl, <- !app_assoc.
  by rewrite !cmp_be_bytes by (change (256 ^ Z.of_nat 4) with 4294967296; lia).
Qed.

Lemma cmp_column t a b x y :
  column_ok t a -> column_ok t b ->
  exists c, column_cmp a b = Some c /\ cmp (column_bytes a ++ x) (column_bytes b ++ y) = cmp_then c (cmp x y).
Proof.
  destruct a as [a|], b as [b|]; intros Ha Hb; cbn [column_cmp column_bytes app]; rewrite cmp_cons; eauto.
  destruct Ha as (Hw & Hk & <-), Hb as (Hw' & Hk' & Ht). rewrite cmp_refl. by apply cmp_key_bytes.
Qed.

(** ** Successors *)

Lemma increment_loop_le n z :
  0 <= z < 256 ^ Z.of_nat n ->
  increment_loop (le_bytes n z) =
  if z + 1 <? 256 ^ Z.of_nat n then (le_bytes n (z + 1), true) else (le_bytes n 0, false).
Proof.
  revert z. induction n as [|n IH]; intros z Hz.
  - change (256 ^ Z.of_nat 0) with 1 in *. cmp_lia. done.
  - rewrite !le_bytes_S. cbn [increment_loop]. rewrite Nat2Z.inj_succ, Z.pow_succ_r in * by lia.
    pose proof (Z.div_mod z 256). pose proof (Z.mod_pos_bound z 256).
    case_bool_decide as Hb.
    + apply (f_equal b2z) in Hb. rewrite b2z_z2b in Hb. change (b2z xff) with 255 in Hb. rewrite IH by lia.
      replace ((z + 1) / 256) with (z / 256 + 1)
        by (apply (Z.div_unique _ _ _ 0); lia).
      replace (z2b (z + 1)) with x00; [by repeat case_cmp; try lia|].
      apply b2z_inj. rewrite b2z_z2b. change (b2z x00) with 0. apply (Z.mod_unique _ _ (z / 256 + 1)); lia.
    + rewrite b2z_z2b. assert (z mod 256 <> 255).
      { intros E. apply Hb, b2z_inj. by rewrite b2z_z2b. }
      replace ((z + 1) / 256) with (z / 256) by (apply (Z.div_unique _ _ _ (z mod 256 + 1)); lia).
      assert ((z + 1) mod 256 = z mod 256 + 1) as E by (symmetry; apply (Z.mod_unique _ _ (z / 256)); lia).
      replace (z2b (z mod 256 + 1)) with (z2b (z + 1)).
      * by case_cmp; [|nia].
      * apply b2z_inj. rewrite !b2z_z2b, E. symmetry. apply Z.mod_small. lia.
Qed.

Lemma increment_loop_app l k l' :
  increment_loop l = (l', true) -> increment_loop (l ++ k) = (l' ++ k, true).
Proof.
  revert l'. induction l as [|b l IH]; intros l' H; [done|]. simpl in *. case_bool_decide.
  - destruct (increment_loop l) as [m c]. injection H as <- ->. by rewrite (IH m).
  - by injection H as <-.
Qed.

Lemma increment_app l k k' : increment k = (k', true) -> increment (l ++ k) = (l ++ k', true).
Proof.
  unfold increment. rewrite reverse_app. destruct (increment_loop (reverse k)) as [m c] eqn:E.
  intros [= <- ->]. rewrite (increment_loop_app _ _ _ E), reverse_app. by rewrite reverse_involutive.
Qed.

Lemma increment_be n z :
  0 <= z < 256 ^ Z.of_nat n ->
  increment (be_bytes n z) = if z + 1 <? 256 ^ Z.of_nat n then (be_bytes n (z + 1), true) else (be_bytes n 0, false).
Proof.
  intros Hz. unfold increment. rewrite reverse_be_bytes, increment_loop_le by done.
  by case_cmp; rewrite <- reverse_be_bytes, reverse_involutive.
Qed.

(** When the tail rolls over, the carry goes into what precedes it. *)
Lemma increment_loop_app_carry l k l' :
  increment_loop l = (l', false) ->
  increment_loop (l ++ k) = (let '(k', c) := increment_loop k in (l' ++ k', c)).
Proof.
  revert l'. induction l as [|b l IH]; intros l' H; simpl in *.
  - injection H as <-. by destruct (increment_loop k).
  - case_bool_decide; [|discriminate]. destruct (increment_loop l) as [m c]. injection H as <- ->.
    rewrite (IH m) by done. by destruct (increment_loop k).
Qed.

Lemma increment_app_carry l k k' :
  increment k = (k', false) -> increment (l ++ k) = (let '(l', c) := increment l in (l' ++ k', c)).
Proof.
  unfold increment. rewrite reverse_app. destruct (increment_loop (reverse k)) as [m c] eqn:E.
  intros [= <- ->]. rewrite (increment_loop_app_carry _ _ _ E). destruct (increment_loop (reverse l)).
  by rewrite reverse_app.
Qed.

(** The successor of one column's encoding bounds, from above, exactly the columns that are not greater. *)
Lemma column_succ t p :
  column_ok t p ->
  exists w, increment (column_bytes p) = (w, true) /\
    forall c r, column_ok t c -> ltb (column_bytes c ++ r) w = negb (bool_decide (column_cmp c p = Some Gt)).
Proof.
  assert (forall r : bytes, cmp r [] <> Lt) as Hnil by (by intros []).
  destruct p as [v|]; cbn [column_ok column_bytes].
  2: { intros _. exists [x01]. split; [done|]. intros [u|] r Hc; cbn [column_bytes app column_cmp]; unfold ltb;
       rewrite cmp_cons; [|done]. rewrite cmp_refl. simpl. pose proof (Hnil (key_bytes u ++ r)).
       by destruct (cmp (key_bytes u ++ r) []). }
  intros (Hw & Hk & <-). destruct (fixed_width (value_type v)) as [n|] eqn:Hn.
  - pose proof (fixed_rank_range v n Hw Hk Hn) as Hr. pose proof (increment_be n (rank v) Hr) as Hi.
    unfold key_bytes at 1. rewrite Hn.
    destruct (Z.ltb_spec (rank v + 1) (256 ^ Z.of_nat n)).
    + exists (x01 :: be_bytes n (rank v + 1)). split; [by apply (increment_app [x01])|].
      intros [u|] r Hc; cbn [column_bytes app column_cmp]; unfold ltb; rewrite cmp_cons; [|done].
      destruct Hc as (Hw' & Hk' & Ht). rewrite cmp_refl. unfold key_bytes. rewrite Ht, Hn.
      rewrite <- (app_nil_r (be_bytes n (rank v + 1))).
      assert (fixed_width (value_type u) = Some n) as Hn' by by rewrite Ht.
      rewrite cmp_be_bytes by (first [by apply fixed_rank_range | lia]).
      rewrite (logical_cmp_rank u v n) by done. cbn [cmp_then]. specialize (Hnil r).
      destruct (Z.compare_spec (rank u) (rank v + 1)), (Z.compare_spec (rank u) (rank v)); try lia; simpl; try done.
      by destruct (cmp r []).
    + exists (x02 :: be_bytes n 0). split.
      { change (x01 :: be_bytes n (rank v)) with ([x01] ++ be_bytes n (rank v)). by rewrite (increment_app_carry _ _ _ Hi). }
      intros [u|] r Hc; cbn [column_bytes app column_cmp]; unfold ltb; rewrite cmp_cons; [|done].
      destruct Hc as (Hw' & Hk' & Ht). assert (fixed_width (value_type u) = Some n) as Hn' by by rewrite Ht.
      pose proof (fixed_rank_range u n Hw' Hk' Hn') as Hr'.
      rewrite (logical_cmp_rank u v n) by done. destruct (Z.compare_spec (rank u) (rank v)); try lia; done.
  - unfold key_bytes at 1. rewrite Hn. exists (x01 :: escape (content v) ++ [x00; x01]). split.
    { rewrite !app_comm_cons. by apply increment_app. }
    intros [u|] r Hc; cbn [column_bytes app column_cmp]; unfold ltb; rewrite cmp_cons; [|done].
    destruct Hc as (Hw' & Hk' & Ht). rewrite cmp_refl. unfold key_bytes. rewrite Ht, Hn, <- app_assoc.
    pose proof (cmp_escape_gen (content u) (content v) x00 x01 r []) as He. rewrite app_nil_r in He.
    rewrite He by done. cbn [cmp_then].
    assert (logical_cmp u v = Some (cmp (content u) (content v))) as ->
      by (by destruct u, v; try discriminate Hn; try discriminate Ht).
    by destruct (cmp (content u) (content v)).
Qed.

(** ** Leading columns *)

Lemma cmp_columns types cols pre x :
  Forall2 column_ok types cols -> Forall2 column_ok (take (length pre) types) pre ->
  exists c y, leading_cmp cols pre = Some c /\
    cmp (columns_bytes cols ++ x) (columns_bytes pre) = cmp_then c (cmp y []) /\
    forall w, cmp (columns_bytes cols ++ x) (columns_bytes pre ++ w) = cmp_then c (cmp y w).
Proof.
  intros H. revert pre. induction H as [|t c types cols Hc H IH]; intros [|p pre] Hp; cbn [leading_cmp].
  - by exists Eq, x.
  - inversion Hp.
  - exists Eq, (columns_bytes (c :: cols) ++ x). done.
  - simpl in Hp. inversion Hp; subst. destruct (IH pre) as (d & y & Hd & H1 & H2); [done|].
    destruct (cmp_column t c p (columns_bytes cols ++ x) (columns_bytes pre)) as (e & He & _); [done..|].
    rewrite He. exists (cmp_then e d), y. split; [by destruct e|].
    rewrite !columns_bytes_cons, <- !app_assoc. split.
    + destruct (cmp_column t c p (columns_bytes cols ++ x) (columns_bytes pre)) as (e' & He' & ->); [done..|].
      rewrite H1. replace e' with e by congruence. by rewrite cmp_then_assoc.
    + intros w. rewrite <- app_assoc.
      destruct (cmp_column t c p (columns_bytes cols ++ x) (columns_bytes pre ++ w)) as (e' & He' & ->); [done..|].
      rewrite H2. replace e' with e by congruence. by rewrite cmp_then_assoc.
Qed.

(** The successor of an encoded prefix bounds, from above, exactly the entries whose leading columns are not greater. *)
Lemma columns_succ types pre :
  pre <> [] -> Forall2 column_ok (take (length pre) types) pre ->
  exists w, increment (columns_bytes pre) = (w, true) /\
    forall cols x, Forall2 column_ok types cols ->
      ltb (columns_bytes cols ++ x) w = negb (bool_decide (leading_cmp cols pre = Some Gt)).
Proof.
  revert types. induction pre as [|p pre IH]; intros types Hne Hp; [done|].
  destruct types as [|t types]; simpl in Hp; [by inversion Hp|]. inversion Hp; subst.
  rewrite columns_bytes_cons. destruct pre as [|q pre].
  - destruct (column_succ t p) as (w & Hi & Hw); [done|]. exists w. split; [by rewrite app_nil_r|].
    intros cols x Hc. inversion Hc; subst. rewrite columns_bytes_cons, <- app_assoc, Hw by done.
    cbn [leading_cmp]. by destruct l', (column_cmp _ p) as [[]|].
  - destruct (IH types) as (w & Hi & Hw); [done..|]. exists (column_bytes p ++ w).
    split; [by apply increment_app|]. intros cols x Hc. inversion Hc; subst. cbn [leading_cmp].
    rewrite columns_bytes_cons, <- app_assoc. unfold ltb.
    destruct (cmp_column t y p (columns_bytes l' ++ x) w) as (e & -> & ->); [done..|].
    destruct e; [apply Hw; done|done|done].
Qed.

(** ** Ranges *)

Section Ranges.
Context (table_id index_id : Z).
Hypothesis Ht : is_u32 table_id.
Hypothesis Hi : 0 <= index_id < u32_max.

Lemma entry_range_eq :
  index_entry_range table_id index_id =
  (Included (index_prefix table_id index_id), Excluded (index_prefix table_id (index_id + 1))).
Proof. unfold index_entry_range, checked_add32. unfold_ints. by cmp_lia. Qed.

(** [index_entry_prefix_range]'s upper bound: an entry of this index is below it exactly when its leading columns are
    not greater, and any other index's entries are on the side of their ids. *)
Lemma upper_bound types pre :
  Forall2 column_ok (take (length pre) types) pre ->
  exists u, (index_entry_prefix_range table_id index_id (columns_bytes pre)).2 = Excluded u /\
    (forall cols x, Forall2 column_ok types cols ->
      ltb (index_prefix table_id index_id ++ columns_bytes cols ++ x) u =
      negb (bool_decide (leading_cmp cols pre = Some Gt))) /\
    (forall t i body, is_u32 t -> is_u32 i -> (t, i) <> (table_id, index_id) ->
      ltb (index_prefix t i ++ body) u = ltb (t, i) (table_id, index_id)).
Proof.
  intros Hp. unfold index_entry_prefix_range. unfold_ints.
  assert (forall t i body w, 0 <= t <= 4294967295 -> 0 <= i <= 4294967295 -> (t, i) <> (table_id, index_id) ->
    ltb (index_prefix t i ++ body) (index_prefix table_id index_id ++ w) = ltb (t, i) (table_id, index_id)) as Hf.
  { intros t i body w Hti Hii Hne. unfold ltb. rewrite index_prefix_cmp by (unfold_ints; lia).
    rewrite cmp_pair. unfold cmp, Z_ord.
    destruct (Z.compare_spec t table_id), (Z.compare_spec i index_id); try done. by subst. }
  destruct (decide (pre = [])) as [->|Hne].
  - cbn [columns_bytes concat map increment]. exists (index_prefix table_id (index_id + 1)).
    split; [unfold increment; simpl; by rewrite entry_range_eq|]. split.
    + intros cols x Hc. unfold ltb. rewrite <- (app_nil_r (index_prefix table_id (index_id + 1))).
      rewrite index_prefix_cmp by (unfold_ints; lia). rewrite Z.compare_refl. cbn [cmp_then].
      rewrite (proj2 (Z.compare_lt_iff index_id (index_id + 1))) by lia. by destruct cols.
    + intros t i body Hti Hii Hne'. rewrite <- (app_nil_r (index_prefix table_id (index_id + 1))).
      unfold ltb. rewrite index_prefix_cmp by (unfold_ints; lia). rewrite cmp_pair. unfold cmp at 2 3, Z_ord.
      destruct (Z.compare_spec t table_id) as [->| |]; try done. cbn [cmp_then].
      assert (i <> index_id) by congruence.
      destruct (Z.compare_spec i (index_id + 1)), (Z.compare_spec i index_id); try lia; try done. by destruct body.
  - destruct (columns_succ types pre Hne Hp) as (w & -> & Hw).
    exists (index_prefix table_id index_id ++ w). split; [done|]. split.
    + intros cols x Hc. rewrite <- (Hw cols x Hc). unfold ltb.
      rewrite index_prefix_cmp by (unfold_ints; lia). by rewrite !Z.compare_refl.
    + intros. by apply Hf.
Qed.

(** Every bound's columns fit the index's leading column types. *)
Definition bound_ok (types : list RelationalType) (b : Bound (list (option RelationalValue))) : Prop :=
  match b with
  | Included pre | Excluded pre => Forall2 column_ok (take (length pre) types) pre
  | Unbounded => True
  end.

Lemma encode_indexed_columns_ok types cs :
  Forall2 column_ok types cs -> encode_indexed_columns cs = Ok (columns_bytes cs).
Proof. apply encode_columns_ok. Qed.

(** The two sides of a comparison with an own entry and with a foreign one. *)
Lemma own_cmp body w :
  cmp (index_prefix table_id index_id ++ body) (index_prefix table_id index_id ++ w) = cmp body w.
Proof. unfold_ints. rewrite index_prefix_cmp by (unfold_ints; lia). by rewrite !Z.compare_refl. Qed.

Lemma foreign_cmp t i body w :
  is_u32 t -> is_u32 i -> (t, i) <> (table_id, index_id) ->
  cmp (index_prefix t i ++ body) (index_prefix table_id index_id ++ w) = cmp (t, i) (table_id, index_id).
Proof.
  intros Hti Hii Hne. unfold_ints. rewrite index_prefix_cmp by (unfold_ints; lia).
  rewrite cmp_pair. unfold cmp, Z_ord. destruct (Z.compare_spec t table_id), (Z.compare_spec i index_id); try done.
  by subst.
Qed.

(** The lower bound of a scan admits the entries whose leading columns satisfy it, and no entry of a smaller id. *)
Lemma scan_lower types lo :
  bound_ok types lo ->
  exists a, (index_scan_range table_id index_id (bound_bytes lo) Unbounded).1 = Included a /\
    (forall cols x, Forall2 column_ok types cols ->
      leb a (index_prefix table_id index_id ++ columns_bytes cols ++ x) = above_lower lo cols) /\
    (forall t i body, is_u32 t -> is_u32 i -> cmp (t, i) (table_id, index_id) = Lt ->
      leb a (index_prefix t i ++ body) = false).
Proof.
  intros Hb. unfold index_scan_range. rewrite entry_range_eq.
  assert (forall t i, cmp (t, i) (table_id, index_id) = Lt -> (t, i) <> (table_id, index_id)) as Hne.
  { intros t i Hlt E. by rewrite E, cmp_refl in Hlt. }
  destruct lo as [pre|pre|]; cbn [bound_bytes fst above_lower].
  - rewrite (encode_indexed_columns_ok _ pre Hb). cbn [get_ok]. eexists. split; [done|]. split.
    + intros cols x Hc. rewrite leb_negb_ltb. unfold ltb. rewrite own_cmp.
      destruct (cmp_columns types cols pre x Hc Hb) as (c & y & -> & -> & _). by destruct c, y.
    + intros t i body Hti Hii Hlt. rewrite leb_negb_ltb. unfold ltb. by rewrite foreign_cmp, Hlt by auto.
  - rewrite (encode_indexed_columns_ok _ pre Hb). cbn [get_ok].
    destruct (upper_bound types pre Hb) as (u & -> & Hu & Hf). exists u. split; [done|]. split.
    + intros cols x Hc. rewrite leb_negb_ltb, Hu by done. apply negb_involutive.
    + intros t i body Hti Hii Hlt. rewrite leb_negb_ltb, Hf by auto. unfold ltb. by rewrite Hlt.
  - eexists. split; [done|]. split.
    + intros cols x Hc. rewrite leb_negb_ltb. unfold ltb.
      rewrite <- (app_nil_r (index_prefix table_id index_id)) at 2. rewrite own_cmp. by destruct (columns_bytes cols ++ x).
    + intros t i body Hti Hii Hlt. rewrite leb_negb_ltb. unfold ltb.
      rewrite <- (app_nil_r (index_prefix table_id index_id)). by rewrite foreign_cmp, Hlt by auto.
Qed.

(** The upper bound, likewise. *)
Lemma scan_upper types hi :
  bound_ok types hi ->
  exists b, (index_scan_range table_id index_id Unbounded (bound_bytes hi)).2 = Excluded b /\
    (forall cols x, Forall2 column_ok types cols ->
      ltb (index_prefix table_id index_id ++ columns_bytes cols ++ x) b = below_upper hi cols) /\
    (forall t i body, is_u32 t -> is_u32 i -> cmp (t, i) (table_id, index_id) = Gt ->
      ltb (index_prefix t i ++ body) b = false).
Proof.
  intros Hb. unfold index_scan_range. rewrite entry_range_eq.
  assert (forall t i, cmp (t, i) (table_id, index_id) = Gt -> (t, i) <> (table_id, index_id)) as Hne.
  { intros t i Hlt E. by rewrite E, cmp_refl in Hlt. }
  destruct hi as [pre|pre|]; cbn [bound_bytes snd below_upper].
  - rewrite (encode_indexed_columns_ok _ pre Hb). cbn [get_ok].
    destruct (upper_bound types pre Hb) as (u & -> & Hu & Hf). exists u. split; [done|]. split.
    + intros cols x Hc. rewrite Hu by done.
      destruct (cmp_columns types cols pre x Hc Hb) as (c & y & -> & _). by destruct c.
    + intros t i body Hti Hii Hlt. rewrite Hf by auto. unfold ltb. by rewrite Hlt.
  - rewrite (encode_indexed_columns_ok _ pre Hb). cbn [get_ok]. eexists. split; [done|]. split.
    + intros cols x Hc. unfold ltb. rewrite own_cmp.
      destruct (cmp_columns types cols pre x Hc Hb) as (c & y & -> & -> & _). by destruct c, y.
    + intros t i body Hti Hii Hlt. unfold ltb. by rewrite foreign_cmp, Hlt by auto.
  - destruct (upper_bound types []) as (u & Eu & Hu & Hf); [done|].
    exists u. split; [by rewrite <- Eu; unfold index_entry_prefix_range; simpl; rewrite entry_range_eq|]. split.
    + intros cols x Hc. rewrite Hu by done. by destruct cols.
    + intros t i body Hti Hii Hlt. rewrite Hf by auto. unfold ltb. by rewrite Hlt.
Qed.

Lemma scan_range_sides lo hi :
  index_scan_range table_id index_id lo hi =
  ((index_scan_range table_id index_id lo Unbounded).1, (index_scan_range table_id index_id Unbounded hi).2).
Proof. unfold index_scan_range. by rewrite entry_range_eq. Qed.

End Ranges.

(** ** The last index id *)

Lemma table_row_key_prefix t pk : table_row_key t pk = index_prefix t 0 ++ pk.
Proof. unfold table_row_key, index_prefix. by rewrite <- !app_assoc. Qed.

(** The range of the index with id [u32::MAX] ends at the next table's first index, past that table's rows. *)
Lemma last_index_range_spills (table_id : Z) (pk : bytes) :
  0 <= table_id < u32_max -> in_range (table_row_key (table_id + 1) pk) (index_entry_range table_id u32_max) = true.
Proof.
  intros Ht. unfold_ints. unfold index_entry_range, checked_add32. unfold_ints. cmp_lia. unfold in_range. cbn [fst snd above below].
  rewrite table_row_key_prefix, leb_negb_ltb. unfold ltb.
  rewrite <- (app_nil_r (index_prefix table_id 4294967295)), <- (app_nil_r (index_prefix (table_id + 1) 1)).
  rewrite !index_prefix_cmp by (unfold_ints; lia). rewrite Z.compare_refl.
  by rewrite (proj2 (Z.compare_gt_iff (table_id + 1) table_id)) by lia.
Qed.

(** C15: an index scan reads exactly the entries its bounds ask for, for every index id below [u32::MAX].  For bounds that
    give values (or [NULL]) for leading columns, an entry of this index lies in the physical range exactly when its leading
    columns are at or above (strictly above, for an exclusive bound) the lower columns and at or below (strictly below) the
    upper ones, whatever its primary key; and no row and no entry of another table or index lies in it.  For the one index
    id left out the second half is false: the unbounded range of index [u32::MAX] contains every row of the next table. *)
Theorem index_scan_exact (table_id index_id : Z) (types : list RelationalType) (lo hi : Bound (list (option RelationalValue))) :
  is_u32 table_id -> is_u32 index_id -> bound_ok types lo -> bound_ok types hi ->
  (index_id < u32_max ->
   (forall cols encoded pk k,
     Forall2 column_ok types cols -> encode_indexed_columns cols = Ok encoded ->
     index_entry_key table_id index_id encoded pk = Ok k ->
     in_range k (index_scan_range table_id index_id (bound_bytes lo) (bound_bytes hi)) =
     above_lower lo cols && below_upper hi cols) /\
   (forall t i body, is_u32 t -> is_u32 i -> (t, i) <> (table_id, index_id) ->
     in_range (index_prefix t i ++ body) (index_scan_range table_id index_id (bound_bytes lo) (bound_bytes hi)) = false)) /\
  (index_id = u32_max -> table_id < u32_max -> forall pk,
     in_range (table_row_key (table_id + 1) pk) (index_scan_range table_id index_id Unbounded Unbounded) = true).
Proof.
  intros Ht Hi32 Hlo Hhi. split; [intros Hmax|intros -> Hmax pk].
  - assert (0 <= index_id < u32_max) as Hi by (unfold is_u32 in Hi32; lia). rewrite scan_range_sides by done.
    destruct (scan_lower table_id index_id Ht Hi types lo Hlo) as (a & -> & Ha & Hfa).
    destruct (scan_upper table_id index_id Ht Hi types hi Hhi) as (b & -> & Hb & Hfb). unfold in_range. cbn [fst snd above below]. split.
    + intros cols encoded pk k Hc He Hk. rewrite (encode_indexed_columns_ok types cols Hc) in He. injection He as <-.
      rewrite (index_entry_key_eq _ _ _ _ _ Hk). by rewrite Ha, Hb.
    + intros t i body Hti Hii Hne. destruct (cmp (t, i) (table_id, index_id)) eqn:E.
      * by apply cmp_eq in E.
      * by rewrite Hfa.
      * by rewrite Hfb, andb_false_r.
  - unfold index_scan_range. rewrite <- (last_index_range_spills table_id pk) by (unfold is_u32 in Ht; lia).
    by destruct (index_entry_range table_id u32_max).
Qed.

(** ** Reading an entry back *)

Lemma decode_columns_app types cs pre post acc :
  Forall2 column_ok types cs -> zlen pre + zlen (columns_bytes cs) <= u64_max ->
  decode_columns types (pre ++ columns_bytes cs ++ post) (zlen pre) acc =
  Ok (acc ++ map (fmap canonical) cs, zlen pre + zlen (columns_bytes cs)).
Proof.
  intros H. revert pre acc. induction H as [|t c types cs Hc H IH]; intros pre acc Hm; cbn [decode_columns map].
  { simpl. by rewrite app_nil_r, Z.add_0_r. }
  rewrite columns_bytes_cons, zlen_app in *. rewrite <- (app_assoc (column_bytes c)).
  specialize (IH (pre ++ column_bytes c) (acc ++ [fmap canonical c])).
  rewrite zlen_app, <- !app_assoc, <- Z.add_assoc in IH.
  destruct c as [v|]; cbn [column_bytes app fmap option_fmap option_map] in *; rewrite get_at_app by done; cbn [ok_or].
  - destruct Hc as (Hw & Hk & <-). rewrite zlen_cons in *.
    pose proof (decode_key_value_app v (pre ++ [x01]) (columns_bytes cs ++ post) Hw Hk) as Hd.
    rewrite zlen_app, <- app_assoc in Hd. cbn [app] in Hd. change (zlen [x01]) with 1 in Hd. rewrite Hd by lia.
    rewrite <- Z.add_assoc, IH by lia. done.
  - simpl length in *. change (Z.of_nat 1) with 1 in *. by rewrite IH by lia.
Qed.

(** An entry's indexed columns decode from its body, up to the primary-key suffix. *)
Theorem indexed_columns_roundtrip (types : list RelationalType) (cs : list (option RelationalValue)) (pk k : bytes) :
  Forall2 column_ok types cs -> encode_indexed_columns cs = Ok k -> zlen k <= u64_max ->
  decode_indexed_columns types (k ++ pk) = Ok (map (fmap canonical) cs, zlen k).
Proof.
  intros H Hk Hm. rewrite (encode_indexed_columns_ok types cs H) in Hk. injection Hk as <-.
  by apply (decode_columns_app types cs [] pk []).
Qed.

(** ** Table rows *)

(** A table scan's range holds exactly the keys of that table's row slot: none of its index entries, and nothing of
    another table. *)
Theorem table_row_range_exact (table_id t i : Z) (body : bytes) :
  is_u32 table_id -> is_u32 t -> is_u32 i ->
  in_range (index_prefix t i ++ body) (table_row_range table_id) = (t =? table_id) && (i =? 0).
Proof.
  intros. unfold table_row_range, in_range. cbn [fst snd above below].
  rewrite table_row_key_prefix. change ([RELATIONAL_NAMESPACE] ++ be32 table_id ++ be32 1) with (index_prefix table_id 1).
  rewrite <- (app_nil_r (index_prefix table_id 1)), leb_negb_ltb. unfold ltb. unfold_ints.
  rewrite !index_prefix_cmp by (unfold_ints; lia).
  destruct (Z.compare_spec t table_id), (Z.compare_spec i 0), (Z.compare_spec i 1); try lia; cbn [cmp_then];
    cmp_lia; simpl; try done; by destruct body.
Qed.

(** ** Witnesses *)

Definition demo_types : list RelationalType := [TText; TInteger].
Definition demo_entry : list (option RelationalValue) := [Some (VText [x61]); Some (VInteger 7)].

Lemma index_scan_exact_witness :
  in_range (get_ok [] (index_entry_key 3 1 (get_ok [] (encode_indexed_columns demo_entry)) [x2a]))
    (index_scan_range 3 1 (bound_bytes (Excluded [None])) (bound_bytes (Included [Some (VText [x61])]))) = true.
Proof.
  assert (bound_ok demo_types (Excluded [None])) as Hlo by (repeat constructor).
  assert (bound_ok demo_types (Included [Some (VText [x61])])) as Hhi by (repeat constructor).
  assert (Forall2 column_ok demo_types demo_entry) as Hc by (repeat constructor; by_eval).
  rewrite (proj1 (proj1 (index_scan_exact 3 1 demo_types (Excluded [None]) (Included [Some (VText [x61])])
    ltac:(by_eval) ltac:(by_eval) Hlo Hhi) ltac:(by_eval)) demo_entry (get_ok [] (encode_indexed_columns demo_entry)) [x2a]
    (get_ok [] (index_entry_key 3 1 (get_ok [] (encode_indexed_columns demo_entry)) [x2a]))
    Hc ltac:(by vm_compute) ltac:(by vm_compute)).
  by vm_compute.
Defined.

End Idx.
