(* ===== verification/RowCodec.v ===== *)
(** * Row values ([src/src/catalog/encoding.rs], [src/src/relational/value.rs])

    A row's value is an envelope [format version || schema version || null bitmap || the non-null fields].  The source
    writes the envelope once, generic over the field type, and instantiates it for the catalog's values and for the
    relational values; so does this file, with the class [FieldCodec] for the closures it is given.  Positions are
    threaded as in the source; [None] is a panic (an index out of range). *)

From stdpp Require Import base list option strings.
From Stdlib Require Import ZArith Lia.
From Stdlib Require Import Strings.Byte.
From S2P Require Import Prelude BTree EngineError Checksum Bloom RelKey IndexKey.

Module Row.
Import Rel Idx.

Definition cres (A : Type) : Type := result CatalogError A.

(** ** Catalog keys *)

Definition CATALOG_NAMESPACE : byte := x00.

Definition SYSTEM_TABLE_COUNTERS : Z := 0.
Definition SYSTEM_TABLE_DATABASES : Z := 1.
Definition SYSTEM_TABLE_SCHEMAS : Z := 2.
Definition SYSTEM_TABLE_TABLES : Z := 3.
Definition SYSTEM_TABLE_COLUMNS : Z := 4.
Definition SYSTEM_TABLE_INDEXES : Z := 5.
Definition SYSTEM_TABLE_CONSTRAINTS : Z := 6.
Definition SYSTEM_TABLE_GRANTS : Z := 7.
Definition SYSTEM_TABLE_FOREIGN_KEYS : Z := 8.

Definition catalog_key (system_table_id : Z) (pk_bytes : bytes) : bytes :=
  [CATALOG_NAMESPACE] ++ be32 system_table_id ++ pk_bytes.

Definition system_table_range (system_table_id : Z) : Bound bytes * Bound bytes :=
  let start := catalog_key system_table_id [] in
  match checked_add32 system_table_id 1 with
  | Some next => (Included start, Excluded (catalog_key next []))
  | None => (Included start, Unbounded)
  end.

(** The carry loop is the one of [index_entry_prefix_range] ([increment]). *)
Definition system_table_prefix_range (system_table_id : Z) (pk_prefix : bytes) : Bound bytes * Bound bytes :=
  let start := catalog_key system_table_id pk_prefix in
  let '(incremented, carried) := increment pk_prefix in
  if carried then (Included start, Excluded (catalog_key system_table_id incremented))
  else (Included start, (system_table_range system_table_id).2).

(** ** Primitive readers *)

Definition read_bytes (buf : bytes) (pos len : Z) : cres (bytes * Z) :=
  let? end_ := ok_or (CInvalidInput "field length overflow while decoding RowValue") (checked_add64 pos len) in
  let? slice := ok_or (CInvalidInput "RowValue truncated") (get_range buf pos end_) in
  Ok (slice, end_).

Definition read_u8 (buf : bytes) (pos : Z) : cres (Z * Z) :=
  let? '(raw, pos) := read_bytes buf pos 1 in Ok (le_val raw, pos).
Definition read_u16 (buf : bytes) (pos : Z) : cres (Z * Z) :=
  let? '(raw, pos) := read_bytes buf pos 2 in Ok (le_val raw, pos).
Definition read_u32 (buf : bytes) (pos : Z) : cres (Z * Z) :=
  let? '(raw, pos) := read_bytes buf pos 4 in Ok (le_val raw, pos).
Definition read_i32 (buf : bytes) (pos : Z) : cres (Z * Z) :=
  let? '(raw, pos) := read_bytes buf pos 4 in Ok (as_signed 32 (le_val raw), pos).
Definition read_i64 (buf : bytes) (pos : Z) : cres (Z * Z) :=
  let? '(raw, pos) := read_bytes buf pos 8 in Ok (as_signed 64 (le_val raw), pos).
Definition read_u64 (buf : bytes) (pos : Z) : cres (Z * Z) :=
  let? '(raw, pos) := read_bytes buf pos 8 in Ok (le_val raw, pos).
Definition read_i128 (buf : bytes) (pos : Z) : cres (Z * Z) :=
  let? '(raw, pos) := read_bytes buf pos 16 in Ok (as_signed 128 (le_val raw), pos).

(** ** The envelope *)

Definition ROW_FORMAT_VERSION : Z := 1.

Definition null_bitmap_len (column_count : nat) : nat := (column_count + 7) / 8.

(** [bitmap[i / 8] |= 1 << (i % 8)]. *)
Definition set_null (i : nat) (bitmap : bytes) : option bytes :=
  b ← bitmap !! (i / 8)%nat;
  Some (<[(i / 8)%nat := z2b (Z.lor (b2z b) (Z.shiftl 1 (Z.of_nat (i mod 8))))]> bitmap).

(** [(bitmap[i / 8] >> (i % 8)) & 1 == 1]. *)
Definition is_null (i : nat) (bitmap : bytes) : option bool :=
  b ← bitmap !! (i / 8)%nat;
  Some (Z.land (Z.shiftr (b2z b) (Z.of_nat (i mod 8))) 1 =? 1).

Fixpoint mark_nulls {T} (i : nat) (fields : list (option T)) (bitmap : bytes) : option bytes :=
  match fields with
  | [] => Some bitmap
  | field :: fields =>
      bitmap ← match field with None => set_null i bitmap | Some _ => Some bitmap end;
      mark_nulls (S i) fields bitmap
  end.

(** [for field in fields.iter().flatten()]. *)
Fixpoint encode_fields {T} (encode_value : T -> bytes -> bytes) (fields : list (option T)) (out : bytes) : bytes :=
  match fields with
  | [] => out
  | Some v :: fields => encode_fields encode_value fields (encode_value v out)
  | None :: fields => encode_fields encode_value fields out
  end.

Definition encode_row_envelope {T} (schema_version : Z) (fields : list (option T)) (encode_value : T -> bytes -> bytes)
    : option bytes :=
  let out := [z2b ROW_FORMAT_VERSION] ++ le32 schema_version in
  bitmap ← mark_nulls 0 fields (replicate (null_bitmap_len (length fields)) x00);
  Some (encode_fields encode_value fields (out ++ bitmap)).

Fixpoint decode_fields {T} (decode_value : nat -> bytes -> Z -> option (cres (T * Z))) (bitmap : bytes) (idxs : list nat)
    (buf : bytes) (pos : Z) (fields : list (option T)) : option (cres (list (option T) * Z)) :=
  match idxs with
  | [] => Some (Ok (fields, pos))
  | i :: idxs =>
      null ← is_null i bitmap;
      if null : bool then decode_fields decode_value bitmap idxs buf pos (fields ++ [None])
      else
        let! '(v, pos) := decode_value i buf pos in
        decode_fields decode_value bitmap idxs buf pos (fields ++ [Some v])
  end.

Definition decode_row_envelope {T} (buf : bytes) (field_count : nat) (decode_value : nat -> bytes -> Z -> option (cres (T * Z)))
    : option (cres (Z * list (option T))) :=
  let! '(format_version, pos) := Some (read_u8 buf 0) in
  if negb (format_version =? ROW_FORMAT_VERSION) then Some (Err (CInvalidInput "unsupported RowValue format_version"))
  else
    let! '(schema_version, pos) := Some (read_u32 buf pos) in
    let! '(bitmap, pos) := Some (read_bytes buf pos (Z.of_nat (null_bitmap_len field_count))) in
    let! '(fields, pos) := decode_fields decode_value bitmap (seq 0 field_count) buf pos [] in
    Some (Ok (schema_version, fields)).

(** ** Fields *)

(** The two closures a row codec passes to the envelope, and what makes them inverse. *)
Class FieldCodec (Ty T : Type) := {
  put_field : T -> bytes -> bytes;
  get_field : Ty -> bytes -> Z -> cres (T * Z);
  field_ok : Ty -> T -> Prop
}.

Class FieldCodecLaws (Ty T : Type) `{FieldCodec Ty T} : Prop := {
  put_field_app v out : put_field v out = out ++ put_field v [];
  get_put_field t v pre post :
    field_ok t v -> zlen pre + zlen (put_field v []) <= u64_max ->
    get_field t (pre ++ put_field v [] ++ post) (zlen pre) = Ok (v, zlen pre + zlen (put_field v []));
  get_field_ok t buf pos v pos' : 0 <= pos -> get_field t buf pos = Ok (v, pos') -> field_ok t v /\ pos <= pos'
}.

(** [schema[i]] may index out of range. *)
Definition get_schema_field {Ty T} `{FieldCodec Ty T} (schema : list Ty) (i : nat) (buf : bytes) (pos : Z)
    : option (cres (T * Z)) :=
  t ← schema !! i; Some (get_field t buf pos).

(** *** Catalog values *)

Inductive CatalogValue : Type :=
| CU8 (v : Z)
| CU16 (v : Z)
| CU32 (v : Z)
| CI64 (v : Z)
| CBool (v : bool)
| CText (v : bytes)
| CBlob (v : bytes).

Inductive CatalogValueType : Type :=
| TyU8
| TyU16
| TyU32
| TyI64
| TyBool
| TyText
| TyBlob.

Definition encode_value (value : CatalogValue) (out : bytes) : bytes :=
  match value with
  | CU8 v => out ++ le_bytes 1 v
  | CU16 v => out ++ le_bytes 2 v
  | CU32 v => out ++ le32 v
  | CI64 v => out ++ le64 (as_unsigned 64 v)
  | CBool v => out ++ [if v then x01 else x00]
  | CText v => out ++ le32 (zlen v mod 2 ^ 32) ++ v
  | CBlob v => out ++ le32 (zlen v mod 2 ^ 32) ++ v
  end.

Definition decode_value (field_type : CatalogValueType) (buf : bytes) (pos : Z) : cres (CatalogValue * Z) :=
  match field_type with
  | TyU8 => let? '(v, pos) := read_u8 buf pos in Ok (CU8 v, pos)
  | TyU16 => let? '(v, pos) := read_u16 buf pos in Ok (CU16 v, pos)
  | TyU32 => let? '(v, pos) := read_u32 buf pos in Ok (CU32 v, pos)
  | TyI64 => let? '(v, pos) := read_i64 buf pos in Ok (CI64 v, pos)
  | TyBool => let? '(v, pos) := read_u8 buf pos in Ok (CBool (negb (v =? 0)), pos)
  | TyText =>
      let? '(len, pos) := read_u32 buf pos in
      let? '(raw, pos) := read_bytes buf pos len in
      if valid_utf8 raw then Ok (CText raw, pos) else Err (CInvalidInput "TEXT field is not valid UTF-8")
  | TyBlob =>
      let? '(len, pos) := read_u32 buf pos in
      let? '(raw, pos) := read_bytes buf pos len in
      Ok (CBlob raw, pos)
  end.

Definition catalog_value_ok (t : CatalogValueType) (v : CatalogValue) : Prop :=
  match t, v with
  | TyU8, CU8 v => is_u8 v
  | TyU16, CU16 v => 0 <= v < 65536
  | TyU32, CU32 v => is_u32 v
  | TyI64, CI64 v => is_signed 64 v
  | TyBool, CBool _ => True
  | TyText, CText v => valid_utf8 v = true /\ zlen v <= u32_max
  | TyBlob, CBlob v => zlen v <= u32_max
  | _, _ => False
  end.

#[global] Instance catalog_codec : FieldCodec CatalogValueType CatalogValue :=
  {| put_field := encode_value; get_field := decode_value; field_ok := catalog_value_ok |}.

Definition encode_row (schema_version : Z) (fields : list (option CatalogValue)) : option bytes :=
  encode_row_envelope schema_version fields encode_value.

Definition decode_row (buf : bytes) (schema : list CatalogValueType) : option (cres (Z * list (option CatalogValue))) :=
  decode_row_envelope buf (length schema) (get_schema_field schema).

(** *** Relational values *)

Definition encode_rel_value (value : RelationalValue) (out : bytes) : bytes :=
  match value with
  | VBoolean v => out ++ [if v then x01 else x00]
  | VInteger v => out ++ le32 (as_unsigned 32 v)
  | VBigint v => out ++ le64 (as_unsigned 64 v)
  | VReal v => out ++ le32 v
  | VDouble v => out ++ le64 v
  | VDecimal v scale => out ++ le_bytes 16 (as_unsigned 128 v) ++ le_bytes 1 scale
  | VText v => out ++ le32 (zlen v mod 2 ^ 32) ++ v
  | VBlob v => out ++ le32 (zlen v mod 2 ^ 32) ++ v
  | VDate v => out ++ le32 (as_unsigned 32 v)
  | VTime v => out ++ le64 (as_unsigned 64 v)
  | VTimestamp v => out ++ le64 (as_unsigned 64 v)
  end.

Definition decode_rel_value (field_type : RelationalType) (buf : bytes) (pos : Z) : cres (RelationalValue * Z) :=
  match field_type with
  | TBoolean => let? '(v, pos) := read_u8 buf pos in Ok (VBoolean (negb (v =? 0)), pos)
  | TInteger => let? '(v, pos) := read_i32 buf pos in Ok (VInteger v, pos)
  | TBigint => let? '(v, pos) := read_i64 buf pos in Ok (VBigint v, pos)
  | TReal => let? '(v, pos) := read_u32 buf pos in Ok (VReal v, pos)
  | TDouble => let? '(v, pos) := read_u64 buf pos in Ok (VDouble v, pos)
  | TDecimal _ =>
      let? '(v, pos) := read_i128 buf pos in
      let? '(scale, pos) := read_u8 buf pos in
      Ok (VDecimal v scale, pos)
  | TText =>
      let? '(len, pos) := read_u32 buf pos in
      let? '(raw, pos) := read_bytes buf pos len in
      if valid_utf8 raw then Ok (VText raw, pos) else Err (CInvalidInput "TEXT field is not valid UTF-8")
  | TBlob =>
      let? '(len, pos) := read_u32 buf pos in
      let? '(raw, pos) := read_bytes buf pos len in
      Ok (VBlob raw, pos)
  | TDate => let? '(v, pos) := read_i32 buf pos in Ok (VDate v, pos)
  | TTime => let? '(v, pos) := read_i64 buf pos in Ok (VTime v, pos)
  | TTimestamp => let? '(v, pos) := read_i64 buf pos in Ok (VTimestamp v, pos)
  end.

(** What the codec asks of a value for a column type, and promises of a decoded one.  A [DECIMAL]'s scale travels with the
    value: [encode_rel_value] stores it and [decode_rel_value] reads it back without comparing it with the column's scale,
    so for a [DECIMAL] column only the kind of the value is promised, not [value_type]'s scale. *)
Definition rel_value_ok (t : RelationalType) (v : RelationalValue) : Prop :=
  value_wf v /\ zlen (content v) <= u32_max /\
  match t, v with
  | TDecimal _, VDecimal _ _ => True
  | TDecimal _, _ | _, VDecimal _ _ => False
  | _, _ => value_type v = t
  end.

#[global] Instance relational_codec : FieldCodec RelationalType RelationalValue :=
  {| put_field := encode_rel_value; get_field := decode_rel_value; field_ok := rel_value_ok |}.

Definition encode_rel_row (schema_version : Z) (fields : list (option RelationalValue)) : option bytes :=
  encode_row_envelope schema_version fields encode_rel_value.

Definition decode_rel_row (buf : bytes) (schema : list RelationalType)
    : option (result RelationalError (Z * list (option RelationalValue))) :=
  map_err RCatalog <$> decode_row_envelope buf (length schema) (get_schema_field schema).

Definition MAX_DECIMAL_PRECISION : Z := 38.

(** [10i128.checked_pow(precision)]: [None] when the power exceeds [i128::MAX]. *)
Definition checked_pow10 (precision : Z) : option Z :=
  if 10 ^ precision <? 2 ^ 127 then Some (10 ^ precision) else None.

Definition validate_decimal (value precision scale : Z) : result RelationalError unit :=
  if (precision =? 0) || (MAX_DECIMAL_PRECISION <? precision) then
    Err (RInvalidInput "DECIMAL precision must be in 1..=38")
  else if precision <? scale then Err (RInvalidInput "DECIMAL scale must not exceed precision")
  else
    let? bound := ok_or (RInvalidInput "DECIMAL precision overflows i128") (checked_pow10 precision) in
    if Z.abs bound <=? Z.abs value then Err (RInvalidInput "DECIMAL value exceeds precision") else Ok tt.

(** ** Lists of ordinals *)

Fixpoint encode_u16s (items : list Z) (out : bytes) : bytes :=
  match items with
  | [] => out
  | item :: items => encode_u16s items (out ++ le_bytes 2 item)
  end.

Definition encode_u16_list (items : list Z) : bytes := encode_u16s items (le32 (zlen items mod 2 ^ 32)).

Fixpoint decode_u16s (fuel : nat) (count : Z) (buf : bytes) (pos : Z) (items : list Z) : cres (list Z * Z) :=
  match fuel with
  | O => Ok (items, pos)
  | S fuel =>
      if count =? 0 then Ok (items, pos)
      else
        let? '(item, pos) := read_u16 buf pos in
        decode_u16s fuel (count - 1) buf pos (items ++ [item])
  end.

(** Every turn of the loop consumes two bytes, so [length buf] turns and one more are enough. *)
Definition decode_u16_list (buf : bytes) : cres (list Z) :=
  let? '(count, pos) := read_u32 buf 0 in
  let? '(items, pos) := decode_u16s (S (length buf)) count buf pos [] in
  if negb (pos =? zlen buf) then Err (CInvalidInput "trailing byte(s) after u16 list") else Ok items.

(** ** Facts about the readers *)

Lemma row_read_bytes_app pre mid post n :
  n = zlen mid -> zlen pre + zlen mid <= u64_max ->
  read_bytes (pre ++ mid ++ post) (zlen pre) n = Ok (mid, zlen pre + n).
Proof.
  intros -> Hmax. unfold read_bytes, checked_add64. cmp_lia. cbn [ok_or].
  by rewrite (get_range_app pre mid post).
Qed.

Lemma row_read_bytes_inv buf pos len s pos' :
  0 <= pos -> read_bytes buf pos len = Ok (s, pos') ->
  pos' = pos + len /\ zlen s = len /\ pos <= pos' <= zlen buf /\ buf = ztake pos buf ++ s ++ zdrop pos' buf.
Proof.
  unfold read_bytes, checked_add64. intros Hpos. case_cmp; cbn [ok_or]; [|done].
  destruct (get_range buf pos (pos + len)) eqn:E; cbn [ok_or]; [|done].
  intros [= <- <-]. apply get_range_Some in E as (? & ? & ? & ?); [|done]. repeat split; try lia; done.
Qed.

(** A [u32] length and that many bytes, as [TEXT] and [BLOB] fields are stored. *)
Lemma read_sized_app pre v post :
  zlen v <= u32_max -> zlen pre + (4 + zlen v) <= u64_max ->
  read_u32 (pre ++ (le32 (zlen v mod 2 ^ 32) ++ v) ++ post) (zlen pre) = Ok (zlen v, zlen pre + 4) /\
  read_bytes (pre ++ (le32 (zlen v mod 2 ^ 32) ++ v) ++ post) (zlen pre + 4) (zlen v) = Ok (v, zlen pre + (4 + zlen v)).
Proof.
  intros Hv Hmax. assert (zlen v mod 2 ^ 32 = zlen v) as -> by (apply Z.mod_small; unfold_ints; lia).
  split.
  - unfold read_u32. rewrite <- app_assoc, row_read_bytes_app by zlen. cbn. rewrite le_val_32; [done|unfold_ints; lia].
  - rewrite <- app_assoc, (app_assoc pre). replace (zlen pre + 4) with (zlen (pre ++ le32 (zlen v))) by zlen.
    rewrite row_read_bytes_app by zlen. do 2 f_equal. zlen.
Qed.

Lemma as_signed_unsigned w v : 0 < w -> is_signed w v -> as_signed w (as_unsigned w v) = v.
Proof.
  unfold is_signed, as_signed, as_unsigned. intros Hw Hv.
  assert (2 ^ w = 2 * 2 ^ (w - 1)) as Hd by (rewrite <- Z.pow_succ_r by lia; f_equal; lia).
  destruct (Z.lt_ge_cases v 0).
  - rewrite <- (Z.mod_add v 1), Z.mul_1_l, Z.mod_small by lia. cmp_lia. lia.
  - rewrite Z.mod_small by lia. cmp_lia. lia.
Qed.

Lemma as_unsigned_range w v : 0 <= w -> 0 <= as_unsigned w v < 2 ^ w.
Proof. intros. apply Z.mod_pos_bound. lia. Qed.

Lemma as_signed_range w z : 0 < w -> 0 <= z < 2 ^ w -> is_signed w (as_signed w z).
Proof.
  unfold is_signed, as_signed. intros Hw Hz.
  assert (2 ^ w = 2 * 2 ^ (w - 1)) as Hd by (rewrite <- Z.pow_succ_r by lia; f_equal; lia).
  case_cmp; lia.
Qed.

(** A fixed-width little-endian field, read back through any view of the raw number. *)
Lemma read_le_app {A} (view : Z -> A) n z pre post :
  0 <= z < 256 ^ Z.of_nat n -> zlen pre + Z.of_nat n <= u64_max ->
  (let? '(raw, pos) := read_bytes (pre ++ le_bytes n z ++ post) (zlen pre) (Z.of_nat n) in Ok (view (le_val raw), pos))
  = Ok (view z, zlen pre + Z.of_nat n) :> cres (A * Z).
Proof. intros Hz Hmax. rewrite row_read_bytes_app by zlen. by rewrite le_val_bytes_small. Qed.

Lemma read_le_inv {A} (view : Z -> A) n buf pos v pos' :
  0 <= pos -> (let? '(raw, pos) := read_bytes buf pos (Z.of_nat n) in Ok (view (le_val raw), pos)) = Ok (v, pos') :> cres (A * Z) ->
  exists z, v = view z /\ 0 <= z < 256 ^ Z.of_nat n /\ pos' = pos + Z.of_nat n.
Proof.
  intros Hpos H. destruct (read_bytes buf pos (Z.of_nat n)) as [[raw p]|] eqn:E; [|done].
  apply row_read_bytes_inv in E as (-> & Hl & _); [|done]. injection H as <- <-. exists (le_val raw).
  pose proof (le_val_bound raw) as Hb. by rewrite Hl in Hb.
Qed.

(** Evaluate the widths [Z.of_nat 4], [256 ^ Z.of_nat 4]. *)
Ltac eval_width :=
  repeat match goal with
  | |- context [Z.of_nat (S ?n)] => let z := eval vm_compute in (Z.of_nat (S n)) in change (Z.of_nat (S n)) with z
  | H : context [Z.of_nat (S ?n)] |- _ => let z := eval vm_compute in (Z.of_nat (S n)) in change (Z.of_nat (S n)) with z in H
  end.

(** Each width's reader on the bytes its writer produces, and what any read returns. *)
Section Widths.
Context (pre post : bytes).
Let at_ (n : nat) (z : Z) : bytes := pre ++ le_bytes n z ++ post.

Lemma row_read_u8_app z : is_u8 z -> zlen pre + 1 <= u64_max -> read_u8 (at_ 1 z) (zlen pre) = Ok (z, zlen pre + 1).
Proof. unfold_ints. intros. apply (read_le_app id 1); eval_width; unfold_ints; lia. Qed.
Lemma row_read_u16_app z : 0 <= z < 65536 -> zlen pre + 2 <= u64_max -> read_u16 (at_ 2 z) (zlen pre) = Ok (z, zlen pre + 2).
Proof. intros. apply (read_le_app id 2); eval_width; unfold_ints; lia. Qed.
Lemma row_read_u32_app z : is_u32 z -> zlen pre + 4 <= u64_max -> read_u32 (at_ 4 z) (zlen pre) = Ok (z, zlen pre + 4).
Proof. unfold_ints. intros. apply (read_le_app id 4); eval_width; unfold_ints; lia. Qed.
Lemma row_read_u64_app z : is_u64 z -> zlen pre + 8 <= u64_max -> read_u64 (at_ 8 z) (zlen pre) = Ok (z, zlen pre + 8).
Proof. unfold_ints. intros. apply (read_le_app id 8); eval_width; unfold_ints; lia. Qed.

Lemma read_signed_app (w : Z) (n : nat) v :
  0 < w -> w = 8 * Z.of_nat n -> is_signed w v -> zlen pre + Z.of_nat n <= u64_max ->
  (let? '(raw, pos) := read_bytes (at_ n (as_unsigned w v)) (zlen pre) (Z.of_nat n) in Ok (as_signed w (le_val raw), pos))
  = Ok (v, zlen pre + Z.of_nat n) :> cres (Z * Z).
Proof.
  intros Hw Hn Hv Hmax. unfold at_. rewrite (read_le_app (as_signed w)); [|..|done].
  - by rewrite as_signed_unsigned.
  - change 256 with (2 ^ 8). rewrite <- Z.pow_mul_r, <- Hn by lia. apply as_unsigned_range. lia.
Qed.

Lemma row_read_i32_app v : is_signed 32 v -> zlen pre + 4 <= u64_max ->
  read_i32 (at_ 4 (as_unsigned 32 v)) (zlen pre) = Ok (v, zlen pre + 4).
Proof. intros. by apply (read_signed_app 32 4). Qed.
Lemma row_read_i64_app v : is_signed 64 v -> zlen pre + 8 <= u64_max ->
  read_i64 (at_ 8 (as_unsigned 64 v)) (zlen pre) = Ok (v, zlen pre + 8).
Proof. intros. by apply (read_signed_app 64 8). Qed.
Lemma row_read_i128_app v : is_signed 128 v -> zlen pre + 16 <= u64_max ->
  read_i128 (at_ 16 (as_unsigned 128 v)) (zlen pre) = Ok (v, zlen pre + 16).
Proof. intros. by apply (read_signed_app 128 16). Qed.
End Widths.

Section Inversions.
Context (buf : bytes) (pos v pos' : Z) (Hpos : 0 <= pos).

Lemma row_read_u8_inv : read_u8 buf pos = Ok (v, pos') -> is_u8 v /\ pos' = pos + 1.
Proof. intros (z & -> & Hz & ->)%(read_le_inv id 1); [|done]. unfold_ints. eval_width. unfold id. lia. Qed.
Lemma row_read_u16_inv : read_u16 buf pos = Ok (v, pos') -> 0 <= v < 65536 /\ pos' = pos + 2.
Proof. intros (z & -> & Hz & ->)%(read_le_inv id 2); [|done]. eval_width. unfold id. lia. Qed.
Lemma row_read_u32_inv : read_u32 buf pos = Ok (v, pos') -> is_u32 v /\ pos' = pos + 4.
Proof. intros (z & -> & Hz & ->)%(read_le_inv id 4); [|done]. unfold_ints. eval_width. unfold id. lia. Qed.
Lemma row_read_u64_inv : read_u64 buf pos = Ok (v, pos') -> is_u64 v /\ pos' = pos + 8.
Proof. intros (z & -> & Hz & ->)%(read_le_inv id 8); [|done]. unfold_ints. eval_width. unfold id. lia. Qed.
Lemma row_read_i32_inv : read_i32 buf pos = Ok (v, pos') -> is_signed 32 v /\ pos' = pos + 4.
Proof. intros (z & -> & Hz & ->)%(read_le_inv (as_signed 32) 4); [|done]. split; [by apply as_signed_range|done]. Qed.
Lemma row_read_i64_inv : read_i64 buf pos = Ok (v, pos') -> is_signed 64 v /\ pos' = pos + 8.
Proof. intros (z & -> & Hz & ->)%(read_le_inv (as_signed 64) 8); [|done]. split; [by apply as_signed_range|done]. Qed.
Lemma row_read_i128_inv : read_i128 buf pos = Ok (v, pos') -> is_signed 128 v /\ pos' = pos + 16.
Proof. intros (z & -> & Hz & ->)%(read_le_inv (as_signed 128) 16); [|done]. split; [by apply as_signed_range|done]. Qed.
End Inversions.

(** Walk through the reads of a decoder that returned. *)
Ltac read_inv :=
  repeat match goal with
  | H : context [match ?c with _ => _ end] |- _ =>
      let T := type of c in
      match eval hnf in T with result _ _ => destruct c as [[? ?]|] eqn:?; [|done] end
  | H : read_u8 _ _ = Ok _ |- _ => apply row_read_u8_inv in H as [? ->]; [|lia]
  | H : read_u16 _ _ = Ok _ |- _ => apply row_read_u16_inv in H as [? ->]; [|lia]
  | H : read_u32 _ _ = Ok _ |- _ => apply row_read_u32_inv in H as [? ->]; [|lia]
  | H : read_u64 _ _ = Ok _ |- _ => apply row_read_u64_inv in H as [? ->]; [|lia]
  | H : read_i32 _ _ = Ok _ |- _ => apply row_read_i32_inv in H as [? ->]; [|lia]
  | H : read_i64 _ _ = Ok _ |- _ => apply row_read_i64_inv in H as [? ->]; [|lia]
  | H : read_i128 _ _ = Ok _ |- _ => apply row_read_i128_inv in H as [? ->]; [|lia]
  | H : read_bytes _ _ _ = Ok _ |- _ => apply row_read_bytes_inv in H as (-> & ? & ? & ?); [|lia]
  end.

Lemma flag_app (b : bool) pre post :
  zlen pre + 1 <= u64_max ->
  read_u8 (pre ++ [if b then x01 else x00] ++ post) (zlen pre) = Ok (if b then 1 else 0, zlen pre + 1).
Proof. intros. destruct b; [apply (row_read_u8_app pre post 1)|apply (row_read_u8_app pre post 0)]; unfold_ints; lia. Qed.

#[global] Instance catalog_codec_laws : FieldCodecLaws CatalogValueType CatalogValue.
Proof.
  split.
  - intros [] out; simpl; by rewrite ?app_nil_r.
  - intros t v pre post Ht Hmax. simpl in *. destruct t, v; try done; simpl encode_value in *; simpl catalog_value_ok in *; cbn [decode_value];
      rewrite ?zlen_app in *; rewrite ?length_le_bytes in *.
    + by rewrite row_read_u8_app.
    + by rewrite row_read_u16_app.
    + by rewrite row_read_u32_app.
    + by rewrite row_read_i64_app.
    + rewrite flag_app by done. by destruct v.
    + destruct Ht as [Hu Hl]. destruct (read_sized_app pre v post) as [-> ->]; [done|done|]. by rewrite Hu.
    + by destruct (read_sized_app pre v post) as [-> ->].
  - intros t buf pos v pos' Hpos H. simpl in *. destruct t; cbn [decode_value] in H; read_inv; simplify_eq; simpl;
      try (split; [done|lia]).
    + case_match; simplify_eq. unfold_ints. split_and!; [done|lia..].
    + unfold_ints. lia.
Qed.

#[global] Instance relational_codec_laws : FieldCodecLaws RelationalType RelationalValue.
Proof.
  split.
  - intros [] out; simpl; by rewrite ?app_nil_r, <- ?app_assoc.
  - intros t v pre post (Hw & Hl & Ht) Hmax. cbn [put_field get_field relational_codec] in *.
    destruct t, v; try done; try (destruct Hw; done); cbn [encode_rel_value decode_rel_value value_wf content] in *;
      rewrite ?app_nil_l, ?zlen_app in *; rewrite ?length_le_bytes in *.
    + rewrite flag_app by done. by destruct v.
    + by rewrite row_read_i32_app.
    + by rewrite row_read_i64_app.
    + rewrite row_read_u32_app; [done|unfold_ints; lia|done].
    + rewrite row_read_u64_app; [done|unfold_ints; lia|done].
    + destruct Hw as [Hv Hs]. rewrite <- app_assoc, row_read_i128_app by (done || lia).
      rewrite app_assoc. replace (zlen pre + 16) with (zlen (pre ++ le_bytes 16 (as_unsigned 128 v))) by zlen.
      rewrite row_read_u8_app; [|done|zlen]. do 2 f_equal. zlen.
    + destruct (read_sized_app pre v post) as [-> ->]; [done|done|]. by rewrite Hw.
    + by destruct (read_sized_app pre v post) as [-> ->].
    + by rewrite row_read_i32_app.
    + by rewrite row_read_i64_app.
    + by rewrite row_read_i64_app.
  - intros t buf pos v pos' Hpos H. cbn [get_field field_ok relational_codec] in *.
    unfold rel_value_ok. destruct t; cbn [decode_rel_value] in H; read_inv; try (case_match; [|done]); simplify_eq;
      cbn [value_wf content value_type]; unfold_ints; split_and!; try done; try lia.
Qed.

(** ** The null bitmap *)

Definition null_bit (bm : bytes) (i : nat) : bool :=
  match bm !! (i / 8)%nat with Some b => Z.testbit (b2z b) (Z.of_nat (i mod 8)) | None => false end.

Lemma is_null_bit i bm : (i / 8 < length bm)%nat -> is_null i bm = Some (null_bit bm i).
Proof.
  intros [b Hb]%lookup_lt_is_Some. unfold is_null, null_bit. rewrite Hb. simpl. f_equal.
  change 1 with (Z.ones 1). rewrite Z.land_ones, <- Z.bit0_mod, Z.shiftr_spec, Z.add_0_l by lia.
  by destruct (Z.testbit _ _).
Qed.

Lemma set_null_ok i bm :
  (i / 8 < length bm)%nat ->
  exists bm', set_null i bm = Some bm' /\ length bm' = length bm /\
    forall j, null_bit bm' j = bool_decide (i = j) || null_bit bm j.
Proof.
  intros Hi. destruct (lookup_lt_is_Some_2 bm _ Hi) as [b Hb]. unfold set_null. rewrite Hb. cbn [mbind option_bind].
  eexists. split_and!; [done|by rewrite length_insert|]. intros j. unfold null_bit.
  pose proof (Nat.mod_upper_bound i 8 ltac:(done)). pose proof (Nat.mod_upper_bound j 8 ltac:(done)).
  pose proof (Nat.div_mod_eq i 8). pose proof (Nat.div_mod_eq j 8).
  rewrite Z.shiftl_mul_pow2, Z.mul_1_l by lia.
  destruct (decide (i / 8 = j / 8)%nat) as [Hd|Hd].
  - rewrite <- Hd, list_lookup_insert_eq, Hb by done.
    rewrite b2z_z2b_small by (apply Bloom.lor_mask_byte; lia). rewrite Z.lor_spec, Z.pow2_bits_eqb by lia.
    rewrite orb_comm. f_equal. case_bool_decide; subst; [apply Z.eqb_refl|]. apply Z.eqb_neq. lia.
  - rewrite list_lookup_insert_ne by done. rewrite bool_decide_eq_false_2 by (intros ->; done). done.
Qed.

Lemma mark_nulls_ok {T} i (fields : list (option T)) bm :
  (i + length fields <= 8 * length bm)%nat ->
  exists bm', mark_nulls i fields bm = Some bm' /\ length bm' = length bm /\
    (forall j, (j < i)%nat -> null_bit bm' j = null_bit bm j) /\
    (forall k f, fields !! k = Some f ->
       null_bit bm' (i + k) = bool_decide (f = None) || null_bit bm (i + k)).
Proof.
  revert i bm. induction fields as [|f fields IH]; intros i bm Hlen; simpl in *.
  { exists bm. split_and!; [done..|]. intros k f Hf. done. }
  assert (exists bm1, match f with Some _ => Some bm | None => set_null i bm end = Some bm1 /\ length bm1 = length bm /\
    forall j, null_bit bm1 j = bool_decide (i = j /\ f = None) || null_bit bm j) as (bm1 & -> & Hl1 & Hb1).
  { destruct f as [v|].
    - exists bm. split_and!; [done..|]. intros j. rewrite bool_decide_eq_false_2 by naive_solver. done.
    - destruct (set_null_ok i bm) as (bm1 & -> & ? & Hb); [apply Nat.Div0.div_lt_upper_bound; lia|].
      exists bm1. split_and!; [done..|]. intros j. rewrite Hb. f_equal. apply bool_decide_ext. naive_solver. }
  simpl. destruct (IH (S i) bm1) as (bm2 & -> & Hl2 & Hlow & Hb2); [lia|].
  exists bm2. split_and!; [done|lia|..].
  - intros j Hj. rewrite Hlow, Hb1 by lia. rewrite bool_decide_eq_false_2 by lia. done.
  - intros [|k] g Hg; simpl in Hg.
    + injection Hg as <-. rewrite Nat.add_0_r, Hlow, Hb1 by lia. f_equal. apply bool_decide_ext. naive_solver.
    + replace (i + S k)%nat with (S i + k)%nat by lia. rewrite (Hb2 _ _ Hg), Hb1.
      rewrite (bool_decide_eq_false_2 (i = (S i + k)%nat /\ _)) by lia. done.
Qed.

Lemma null_bit_zeroes n i : null_bit (replicate n x00) i = false.
Proof.
  unfold null_bit. destruct (replicate n x00 !! (i / 8)%nat) as [b|] eqn:E; [|done].
  apply lookup_replicate in E as [-> _]. apply Z.testbit_0_l.
Qed.

Lemma bitmap_holds n : (n <= 8 * null_bitmap_len n)%nat.
Proof.
  unfold null_bitmap_len. pose proof (Nat.div_mod_eq (n + 7) 8).
  pose proof (Nat.mod_upper_bound (n + 7) 8 ltac:(done)). lia.
Qed.

Lemma bitmap_index n i : (i < n)%nat -> (i / 8 < null_bitmap_len n)%nat.
Proof. intros. pose proof (bitmap_holds n). apply Nat.Div0.div_lt_upper_bound. lia. Qed.

(** ** Rows *)

(** A column is [NULL] or holds a value of its type. *)
Definition nullable_ok {Ty T} `{FieldCodec Ty T} (t : Ty) (f : option T) : Prop :=
  match f with Some v => field_ok t v | None => True end.

Section Envelope.
Context {Ty T : Type} `{FieldCodecLaws Ty T}.
Implicit Types (schema : list Ty) (fields : list (option T)).

Abbreviation fields_bytes fs := (encode_fields put_field fs []).

Lemma encode_fields_app fields out : encode_fields put_field fields out = out ++ fields_bytes fields.
Proof.
  revert out. induction fields as [|[v|] fields IH]; intros out; simpl; [by rewrite app_nil_r| |done].
  rewrite IH, (IH (put_field v [])), (put_field_app v out), app_assoc. done.
Qed.

Lemma decode_fields_app bm i schema fields pre post acc :
  zlen pre + zlen (fields_bytes fields) <= u64_max ->
  (forall k f, fields !! k = Some f ->
     is_null (i + k) bm = Some (bool_decide (f = None)) /\ exists t, schema !! (i + k)%nat = Some t /\ nullable_ok t f) ->
  decode_fields (get_schema_field schema) bm (seq i (length fields)) (pre ++ fields_bytes fields ++ post) (zlen pre) acc
  = Some (Ok (acc ++ fields, zlen pre + zlen (fields_bytes fields))).
Proof.
  revert i pre acc. induction fields as [|f fields IH]; intros i pre acc Hmax Hf; simpl.
  { rewrite app_nil_r. do 4 f_equal. simpl. lia. }
  destruct (Hf 0%nat f eq_refl) as (Hn & t & Ht & Hok). rewrite Nat.add_0_r in Hn, Ht. rewrite Hn. simpl.
  assert (forall k g, fields !! k = Some g ->
    is_null (S i + k) bm = Some (bool_decide (g = None)) /\ exists t, schema !! (S i + k)%nat = Some t /\ nullable_ok t g)
    as Hf' by (intros k g Hg; replace (S i + k)%nat with (i + S k)%nat by lia; by apply Hf).
  destruct f as [v|]; simpl in *.
  - rewrite encode_fields_app, zlen_app in Hmax.
    unfold get_schema_field at 1. rewrite Ht. cbn [mbind option_bind].
    rewrite (encode_fields_app fields (put_field v [])), <- app_assoc, get_put_field by (done || lia).
    rewrite app_assoc. replace (zlen pre + zlen (put_field v [])) with (zlen (pre ++ put_field v [])) by zlen.
    rewrite IH by (done || zlen). rewrite <- app_assoc. do 3 f_equal. zlen.
  - rewrite IH by done. by rewrite <- app_assoc.
Qed.

Lemma envelope_encode schema_version fields :
  exists bm, encode_row_envelope schema_version fields put_field
    = Some (le_bytes 1 ROW_FORMAT_VERSION ++ le32 schema_version ++ bm ++ fields_bytes fields) /\
    length bm = null_bitmap_len (length fields) /\
    forall k f, fields !! k = Some f -> is_null k bm = Some (bool_decide (f = None)).
Proof.
  unfold encode_row_envelope. set (bm0 := replicate _ x00).
  assert (length bm0 = null_bitmap_len (length fields)) as Hl0 by apply length_replicate.
  destruct (mark_nulls_ok 0 fields bm0) as (bm & -> & Hl & _ & Hb); [rewrite Hl0; apply bitmap_holds|].
  exists bm. simpl. split_and!; [|lia|].
  - rewrite encode_fields_app. simpl. by rewrite <- app_assoc.
  - intros k f Hk. rewrite is_null_bit.
    + specialize (Hb k f Hk). simpl in Hb. rewrite Hb. unfold bm0. by rewrite null_bit_zeroes, orb_false_r.
    + rewrite Hl, Hl0. by apply bitmap_index, lookup_lt_Some with f.
Qed.

Lemma envelope_roundtrip schema schema_version fields row rest :
  is_u32 schema_version -> Forall2 nullable_ok schema fields ->
  encode_row_envelope schema_version fields put_field = Some row -> zlen row <= u64_max ->
  decode_row_envelope (row ++ rest) (length schema) (get_schema_field schema) = Some (Ok (schema_version, fields)).
Proof.
  intros Hsv Hok Hrow Hmax. destruct (envelope_encode schema_version fields) as (bm & Hrow' & Hl & Hb).
  rewrite Hrow in Hrow'. injection Hrow' as ->. clear Hrow. rewrite !zlen_app, !length_le_bytes in Hmax.
  unfold decode_row_envelope. rewrite <- !app_assoc. set (v := le_bytes 1 _). set (w := le32 _).
  set (tail := w ++ _).
  assert (read_u8 (v ++ tail) 0 = Ok (1, 1)) as -> by (apply (row_read_u8_app [] tail 1); [unfold_ints; lia|unfold_ints; simpl; lia]).
  cbn [Z.eqb ROW_FORMAT_VERSION negb Pos.eqb]. unfold tail.
  assert (read_u32 (v ++ w ++ bm ++ fields_bytes fields ++ rest) 1 = Ok (schema_version, 5)) as ->
    by (apply (row_read_u32_app v); [done|unfold v; zlen]).
  rewrite (Forall2_length _ _ _ Hok), <- Hl, (app_assoc v).
  assert (zlen (v ++ w) = 5) as H5 by (unfold v, w; zlen). rewrite <- H5, row_read_bytes_app by lia.
  rewrite <- zlen_app, (app_assoc _ bm), decode_fields_app; [done|rewrite zlen_app; lia|].
  intros k f Hk. split; [by apply Hb|]. destruct (Forall2_lookup_r _ _ _ _ _ Hok Hk) as (t & ? & ?). eauto.
Qed.

Lemma decode_fields_typed bm schema buf pos acc :
  0 <= pos -> (length acc <= length schema)%nat -> length bm = null_bitmap_len (length schema) ->
  Forall2 nullable_ok (take (length acc) schema) acc ->
  exists r, decode_fields (get_schema_field schema) bm (seq (length acc) (length schema - length acc)) buf pos acc = Some r /\
    forall fields pos', r = Ok (fields, pos') -> Forall2 nullable_ok schema fields.
Proof.
  intros Hpos Hacc Hbm Hok. remember (length schema - length acc)%nat as n eqn:Hn.
  revert acc pos Hpos Hacc Hok Hn. induction n as [|n IH]; intros acc pos Hpos Hacc Hok Hn; simpl.
  { eexists. split; [done|]. intros fields pos' [= <- <-]. by rewrite take_ge in Hok by lia. }
  rewrite is_null_bit by (rewrite Hbm; apply bitmap_index; lia). simpl.
  destruct (lookup_lt_is_Some_2 schema (length acc)) as [t Ht]; [lia|].
  assert (forall f, nullable_ok t f -> forall p, 0 <= p ->
    exists r, decode_fields (get_schema_field schema) bm (seq (S (length acc)) n) buf p (acc ++ [f]) = Some r /\
      forall fields pos', r = Ok (fields, pos') -> Forall2 nullable_ok schema fields) as Hnext.
  { intros f Hf p Hp. assert (length (acc ++ [f]) = S (length acc)) as Hl by (rewrite length_app; simpl; lia).
    rewrite <- Hl. apply IH; rewrite ?Hl; [done|lia| |lia]. rewrite (take_S_r _ _ _ Ht). by apply Forall2_app; [|constructor]. }
  destruct (null_bit bm (length acc)); [by apply Hnext|].
  unfold get_schema_field at 1. rewrite Ht. simpl. destruct (get_field t buf pos) as [[v p]|e] eqn:E.
  - apply get_field_ok in E as [??]; [|done]. apply Hnext; [done|lia].
  - eexists. split; [done|]. done.
Qed.

Lemma envelope_typed schema buf :
  exists r, decode_row_envelope buf (length schema) (get_schema_field schema) = Some r /\
    forall schema_version fields, r = Ok (schema_version, fields) -> is_u32 schema_version /\ Forall2 nullable_ok schema fields.
Proof.
  unfold decode_row_envelope.
  destruct (read_u8 buf 0) as [[fv p]|] eqn:E1; [|by eexists]. apply row_read_u8_inv in E1 as [_ ->]; [|done].
  destruct (fv =? ROW_FORMAT_VERSION); simpl; [|by eexists]. change (0 + 1) with 1.
  destruct (read_u32 buf 1) as [[sv p]|] eqn:E2; [|by eexists]. apply row_read_u32_inv in E2 as [Hsv ->]; [|done].
  destruct (read_bytes buf (1 + 4) _) as [[bm p]|] eqn:E3; [|by eexists].
  apply row_read_bytes_inv in E3 as (-> & Hl & ? & _); [|done].
  destruct (decode_fields_typed bm schema buf (1 + 4 + Z.of_nat (null_bitmap_len (length schema))) []) as (r & Hr & Hok);
    [lia|simpl; lia|lia|constructor|].
  simpl in Hr. rewrite Nat.sub_0_r in Hr. rewrite Hr. destruct r as [[fields p']|e]; [|by eexists].
  eexists. split; [done|]. intros sv' fields' [= <- <-]. eauto.
Qed.
End Envelope.

(** ** Ranges over the catalog *)

Lemma catalog_key_cmp t t' x y :
  is_u32 t -> is_u32 t' -> cmp (catalog_key t x) (catalog_key t' y) = cmp_then (t ?= t') (cmp x y).
Proof.
  unfold_ints. intros. unfold catalog_key. cbn [app]. rewrite cmp_cons, cmp_refl. simpl cmp_then at 1.
  by rewrite cmp_be_bytes by (change (256 ^ Z.of_nat 4) with 4294967296; lia).
Qed.

(** A primary key as the number its leading bytes spell, and the rest. *)
Lemma split_key n (pk : bytes) :
  (n <= length pk)%nat -> exists a rest, pk = be_bytes n a ++ rest /\ 0 <= a < 256 ^ Z.of_nat n.
Proof.
  intros Hn. exists (be_val (take n pk)), (drop n pk).
  assert (length (take n pk) = n) as Hl by (rewrite length_take; lia).
  rewrite be_bytes_val, take_drop by done. split; [done|]. pose proof (be_val_bound (take n pk)) as Hb. by rewrite Hl in Hb.
Qed.

Lemma be_bytes_inj n a b :
  0 <= a < 256 ^ Z.of_nat n -> 0 <= b < 256 ^ Z.of_nat n -> be_bytes n a = be_bytes n b -> a = b.
Proof. intros Ha Hb E. rewrite <- (be_val_bytes_small n a), E by done. by apply be_val_bytes_small. Qed.

Lemma table_upper t t' pk :
  is_u32 t -> is_u32 t' -> below (system_table_range t).2 (catalog_key t' pk) = (t' <=? t).
Proof.
  intros Ht Ht'. unfold system_table_range, checked_add32. unfold_ints.
  destruct (Z.leb_spec (t + 1) 4294967295); cbn [snd below]; [|by cmp_lia].
  unfold ltb. rewrite catalog_key_cmp by (unfold_ints; lia).
  destruct (Z.compare_spec t' (t + 1)), (Z.leb_spec t' t); try lia; try done. by destruct pk.
Qed.

(** The sub-scan range of a primary-key prefix holds exactly that table's rows whose key begins with the prefix, among
    the catalog rows whose keys are at least as long. *)
Theorem prefix_range_exact (table t : Z) (prefix pk : bytes) :
  is_u32 table -> is_u32 t -> (length prefix <= length pk)%nat ->
  in_range (catalog_key t pk) (system_table_prefix_range table prefix) =
  (t =? table) && bool_decide (take (length prefix) pk = prefix).
Proof.
  intros Ht Ht' Hlen. destruct (split_key (length prefix) prefix) as (b & r & Hp & Hb); [lia|].
  assert (r = []) as -> by (apply (f_equal length) in Hp; rewrite length_app, length_be_bytes in Hp; destruct r; [done|simpl in Hp; lia]).
  rewrite app_nil_r in Hp. destruct (split_key (length prefix) pk Hlen) as (a & rest & -> & Ha).
  remember (length prefix) as n eqn:Hn. clear Hn Hlen. subst prefix.
  rewrite take_app_length' by (by rewrite length_be_bytes).
  assert (bool_decide (be_bytes n a = be_bytes n b) = (a =? b)) as ->.
  { destruct (Z.eqb_spec a b) as [->|Hne]; [by apply bool_decide_eq_true_2|].
    apply bool_decide_eq_false_2. intros E. by apply Hne, (be_bytes_inj n). }
  unfold system_table_prefix_range. rewrite increment_be by done. unfold in_range.
  assert (forall z, 0 <= z < 256 ^ Z.of_nat n ->
    ltb (catalog_key t (be_bytes n a ++ rest)) (catalog_key table (be_bytes n z)) = ((t <? table) || ((t =? table) && (a <? z))))
    as Hltb.
  { intros z Hz. unfold ltb. rewrite catalog_key_cmp by done. rewrite <- (app_nil_r (be_bytes n z)), cmp_be_bytes by done.
    destruct (Z.compare_spec t table), (Z.compare_spec a z); cmp_lia; simpl; try done. by destruct rest. }
  destruct (Z.ltb_spec (b + 1) (256 ^ Z.of_nat n)); cbn [fst snd above below]; rewrite leb_negb_ltb, Hltb by done.
  - rewrite Hltb by lia. repeat case_cmp; simpl; try done; lia.
  - rewrite table_upper by done. repeat case_cmp; simpl; try done; lia.
Qed.

(** ** Lists of ordinals *)

Definition is_u16 (z : Z) : Prop := 0 <= z < 65536.

Definition u16s_bytes (items : list Z) : bytes := concat (map (le_bytes 2) items).

Lemma encode_u16s_eq items out : encode_u16s items out = out ++ u16s_bytes items.
Proof.
  unfold u16s_bytes. revert out. induction items as [|i items IH]; intros out; simpl; [by rewrite app_nil_r|].
  by rewrite IH, <- app_assoc.
Qed.

Lemma zlen_u16s items : zlen (u16s_bytes items) = 2 * zlen items.
Proof.
  unfold u16s_bytes. induction items as [|i items IH]; [done|]. cbn [map concat].
  rewrite zlen_app, IH, length_le_bytes, zlen_cons. lia.
Qed.

Lemma decode_u16s_app fuel items pre post acc :
  Forall is_u16 items -> zlen pre + 2 * zlen items <= u64_max -> (length items < fuel)%nat ->
  decode_u16s fuel (zlen items) (pre ++ u16s_bytes items ++ post) (zlen pre) acc
  = Ok (acc ++ items, zlen pre + 2 * zlen items).
Proof.
  intros Hi. revert fuel pre acc. induction Hi as [|i items Hi His IH]; intros [|fuel] pre acc Hmax Hf; try lia.
  - simpl. rewrite app_nil_r. do 2 f_equal. change (Z.of_nat 0) with 0. lia.
  - cbn [decode_u16s]. rewrite zlen_cons in *. cmp_lia. unfold u16s_bytes. cbn [map concat]. rewrite <- app_assoc.
    rewrite row_read_u16_app by (done || lia). rewrite app_assoc.
    replace (zlen pre + 2) with (zlen (pre ++ le_bytes 2 i)) by zlen.
    replace (1 + zlen items - 1) with (zlen items) by lia. simpl length in Hf.
    fold (u16s_bytes items). rewrite IH by zlen. rewrite <- app_assoc. do 2 f_equal. zlen.
Qed.

Lemma decode_u16s_inv fuel count buf pos acc items pos' :
  0 <= pos <= zlen buf -> 0 <= count -> zlen buf - pos < Z.of_nat fuel ->
  decode_u16s fuel count buf pos acc = Ok (items, pos') ->
  exists new, items = acc ++ new /\ zlen new = count /\ Forall is_u16 new /\ pos' = pos + 2 * count /\
    pos' <= zlen buf /\ ztake pos' buf = ztake pos buf ++ u16s_bytes new.
Proof.
  revert count pos acc. induction fuel as [|fuel IH]; intros count pos acc Hpos Hc Hf H; cbn [decode_u16s] in H; [lia|].
  destruct (Z.eqb_spec count 0) as [->|].
  { injection H as <- <-. exists []. rewrite !app_nil_r. split_and!; [done|done|constructor|lia|lia|done]. }
  unfold read_u16 in H. destruct (read_bytes buf pos 2) as [[raw p]|] eqn:E; [|done].
  apply row_read_bytes_inv in E as (-> & Hl & Hp & Hsplit); [|lia].
  apply IH in H as (new & -> & Hn & Hu & -> & Hle & Ht); [|lia..].
  exists (le_val raw :: new). rewrite zlen_cons, <- app_assoc. split_and!; [done|lia| |lia|lia|].
  - constructor; [|done]. pose proof (le_val_bound raw) as Hb. by rewrite Hl in Hb.
  - replace (pos + 2 * count) with (pos + 2 + 2 * (count - 1)) by lia. rewrite Ht. unfold u16s_bytes. cbn [map concat].
    rewrite app_assoc. f_equal. rewrite (ztake_split pos (pos + 2)) by lia. f_equal.
    assert (length raw = 2%nat) as Hr by lia. rewrite <- Hr, le_bytes_val.
    rewrite Hsplit at 1. rewrite zdrop_app' by (rewrite zlen_ztake; lia). apply ztake_app'. lia.
Qed.

(** Decoding accepts exactly the encodings of lists of ordinals, and returns the list. *)
Theorem u16_list_exact (buf : bytes) (items : list Z) :
  zlen buf <= u64_max ->
  decode_u16_list buf = Ok items <-> Forall is_u16 items /\ zlen items <= u32_max /\ buf = encode_u16_list items.
Proof.
  intros Hmax. unfold decode_u16_list, encode_u16_list. rewrite encode_u16s_eq. split.
  - intros H. destruct (read_u32 buf 0) as [[count p]|] eqn:E; [|done].
    unfold read_u32 in E. destruct (read_bytes buf 0 4) as [[raw p0]|] eqn:E0; [|done]. injection E as <- <-.
    apply row_read_bytes_inv in E0 as (-> & Hl & Hp & Hsplit); [|done]. pose proof (le_val_u32 raw Hl) as Hc.
    destruct (decode_u16s _ _ _ _ _) as [[items' p]|] eqn:E1; [|done].
    destruct (Z.eqb_spec p (zlen buf)) as [->|]; simpl in H; [|done]. injection H as ->.
    apply decode_u16s_inv in E1 as (new & -> & Hn & Hu & Hpos & _ & Ht); [|unfold_ints; lia..].
    simpl. split_and!; [done|unfold_ints; lia|]. rewrite ztake_all in Ht. rewrite Ht. f_equal.
    rewrite Hn, Z.mod_small by (unfold_ints; lia). assert (length raw = 4%nat) as Hr by lia.
    rewrite <- Hr, le_bytes_val. change (ztake 0 buf) with (@nil byte) in Hsplit. rewrite app_nil_l in Hsplit. rewrite Hsplit. apply ztake_app'. lia.
  - intros (Hu & Hn & ->). rewrite zlen_app, zlen_u16s, length_le_bytes in Hmax.
    assert (zlen items mod 2 ^ 32 = zlen items) as -> by (apply Z.mod_small; unfold_ints; lia).
    assert (read_u32 (le32 (zlen items) ++ u16s_bytes items) 0 = Ok (zlen items, 4)) as ->
      by (apply (row_read_u32_app []); unfold_ints; simpl; lia).
    assert (4 = zlen (le32 (zlen items))) as H4 by zlen. rewrite <- (app_nil_r (u16s_bytes items)), H4.
    rewrite decode_u16s_app; [|done|lia|].
    + cbn [app]. rewrite app_nil_r, !zlen_app, zlen_u16s. cmp_lia. done.
    + pose proof (zlen_u16s items). rewrite !length_app. lia.
Qed.

(** ** Decimals *)

(** A [DECIMAL(p, s)] accepts exactly the scaled integers of at most [p] digits, for a precision of 1 to 38 that is no
    less than the scale; the power of ten never overflows. *)
Theorem validate_decimal_exact (value precision scale : Z) :
  is_u8 precision -> is_u8 scale ->
  validate_decimal value precision scale = Ok tt <-> 1 <= precision <= 38 /\ scale <= precision /\ Z.abs value < 10 ^ precision.
Proof.
  unfold_ints. intros Hp Hs. unfold validate_decimal, MAX_DECIMAL_PRECISION.
  destruct (Z.eqb_spec precision 0), (Z.ltb_spec 38 precision); simpl; [split; [done|lia]..|].
  destruct (Z.ltb_spec precision scale); [split; [done|lia]|].
  assert (10 ^ precision <= 10 ^ 38) by (apply Z.pow_le_mono_r; lia). pose proof (Z.pow_nonneg 10 precision).
  unfold checked_pow10. rewrite (proj2 (Z.ltb_lt _ _)) by lia. cbn [ok_or].
  destruct (Z.leb_spec (Z.abs (10 ^ precision)) (Z.abs value)); split; try done; lia.
Qed.

(** ** Rows *)

(** C37: Every row the table store writes decodes to its schema version and its columns, [NULL]s included, whatever follows
    the row's bytes. *)
Theorem rel_row_roundtrip (schema : list RelationalType) (schema_version : Z) (fields : list (option RelationalValue))
    (row rest : bytes) :
  is_u32 schema_version -> Forall2 nullable_ok schema fields ->
  encode_rel_row schema_version fields = Some row -> zlen row <= u64_max ->
  decode_rel_row (row ++ rest) schema = Some (Ok (schema_version, fields)).
Proof.
  intros Hsv Hok Hrow Hmax. unfold decode_rel_row.
  by rewrite (envelope_roundtrip schema schema_version fields row rest).
Qed.

(** C38: Decoding any bytes against any schema returns, without an out-of-range index, an error or a row of the schema's
    shape: one field per column, each [NULL] or a value of the column's type in that type's range. *)
Theorem row_decode_typed (buf : bytes) :
  (forall schema, exists r, decode_rel_row buf schema = Some r /\
    forall schema_version fields, r = Ok (schema_version, fields) -> is_u32 schema_version /\ Forall2 nullable_ok schema fields) /\
  (forall schema, exists r, decode_row buf schema = Some r /\
    forall schema_version fields, r = Ok (schema_version, fields) -> is_u32 schema_version /\ Forall2 nullable_ok schema fields).
Proof.
  split; intros schema; destruct (envelope_typed schema buf) as (r & Hr & Hok).
  - unfold decode_rel_row. rewrite Hr. eexists. split; [done|]. intros sv fields H. apply Hok. by destruct r; simplify_eq/=.
  - exists r. split; [apply Hr|done].
Qed.

(** ** Witnesses *)

Definition demo_schema : list RelationalType := [TInteger; TText; TDecimal 2; TDouble; TBoolean; TBlob; TDate; TTime; TTimestamp].
Definition demo_row : list (option RelationalValue) :=
  [Some (VInteger (-7)); Some (VText [x61; x62]); Some (VDecimal (-12345) 2); None; Some (VBoolean true); None;
   Some (VDate 3); None; None].

Lemma rel_row_roundtrip_witness :
  decode_rel_row (default [] (encode_rel_row 4 demo_row) ++ [xff]) demo_schema = Some (Ok (4, demo_row)).
Proof.
  apply (rel_row_roundtrip demo_schema 4 demo_row); [by_eval|repeat constructor; by_eval|reflexivity|vm_compute; discriminate].
Defined.

Lemma prefix_range_exact_witness :
  in_range (catalog_key 4 (be32 7 ++ be_bytes 2 1)) (system_table_prefix_range 4 (be32 7)) = true.
Proof.
  rewrite (prefix_range_exact 4 4 (be32 7) (be32 7 ++ be_bytes 2 1)); [vm_compute; reflexivity|by_eval|by_eval|].
  rewrite length_app, !length_be_bytes. lia.
Defined.

End Row.
