(* ===== verification/CatalogRows.v ===== *)
(** * The system tables' rows ([src/src/catalog/schema.rs])

    One record per system table, its enums with their stored tags, its column types and the conversions to and from the
    row's fields.  The primary-key part of a row lives in the physical key, so [from_fields] takes it as an argument.
    Names and texts are their UTF-8 bytes. *)

From stdpp Require Import base list option strings.
From Stdlib Require Import ZArith Lia.
From Stdlib Require Import Strings.Byte.
From S2P Require Import Prelude BTree EngineError RelKey IndexKey RowCodec.

Module Rows.
Import Rel Row.

(** The fields still to be read: [vec::IntoIter<Option<CatalogValue>>]. *)
Abbreviation fields := (list (option CatalogValue)).

Definition expect_u32 (fs : fields) (what : string) : cres (Z * fields) :=
  match fs with Some (CU32 v) :: fs => Ok (v, fs) | _ => Err (CInvalidInput ("expected non-null U32 for " +:+ what)) end.
Definition expect_i64 (fs : fields) (what : string) : cres (Z * fields) :=
  match fs with Some (CI64 v) :: fs => Ok (v, fs) | _ => Err (CInvalidInput ("expected non-null I64 for " +:+ what)) end.
Definition expect_bool (fs : fields) (what : string) : cres (bool * fields) :=
  match fs with Some (CBool v) :: fs => Ok (v, fs) | _ => Err (CInvalidInput ("expected non-null BOOLEAN for " +:+ what)) end.
Definition expect_u8 (fs : fields) (what : string) : cres (Z * fields) :=
  match fs with Some (CU8 v) :: fs => Ok (v, fs) | _ => Err (CInvalidInput ("expected non-null U8 for " +:+ what)) end.
Definition expect_text (fs : fields) (what : string) : cres (bytes * fields) :=
  match fs with Some (CText v) :: fs => Ok (v, fs) | _ => Err (CInvalidInput ("expected non-null TEXT for " +:+ what)) end.
Definition expect_blob (fs : fields) (what : string) : cres (bytes * fields) :=
  match fs with Some (CBlob v) :: fs => Ok (v, fs) | _ => Err (CInvalidInput ("expected non-null BLOB for " +:+ what)) end.

Definition optional_text (fs : fields) : cres (option bytes * fields) :=
  match fs with
  | Some (CText v) :: fs => Ok (Some v, fs)
  | None :: fs => Ok (None, fs)
  | _ => Err (CInvalidInput "expected TEXT or NULL")
  end.
Definition optional_blob (fs : fields) : cres (option bytes * fields) :=
  match fs with
  | Some (CBlob v) :: fs => Ok (Some v, fs)
  | None :: fs => Ok (None, fs)
  | _ => Err (CInvalidInput "expected BLOB or NULL")
  end.

(** ** system.databases *)

Definition DATABASES_SCHEMA : list CatalogValueType := [TyText; TyI64].

Record DatabaseRow : Type := MkDatabase { db_database_id : Z; db_name : bytes; db_created_at : Z }.

Definition database_to_fields (r : DatabaseRow) : fields := [Some (CText (db_name r)); Some (CI64 (db_created_at r))].

Definition database_from_fields (database_id : Z) (fs : fields) : cres DatabaseRow :=
  let? '(name, fs) := expect_text fs "system.databases.name" in
  let? '(created_at, fs) := expect_i64 fs "system.databases.created_at" in
  Ok (MkDatabase database_id name created_at).

(** ** system.schemas *)

Definition SCHEMAS_SCHEMA : list CatalogValueType := [TyU32; TyText; TyI64].

Record SchemaRow : Type := MkSchema { sch_schema_id : Z; sch_database_id : Z; sch_name : bytes; sch_created_at : Z }.

Definition schema_to_fields (r : SchemaRow) : fields :=
  [Some (CU32 (sch_database_id r)); Some (CText (sch_name r)); Some (CI64 (sch_created_at r))].

Definition schema_from_fields (schema_id : Z) (fs : fields) : cres SchemaRow :=
  let? '(database_id, fs) := expect_u32 fs "system.schemas.database_id" in
  let? '(name, fs) := expect_text fs "system.schemas.name" in
  let? '(created_at, fs) := expect_i64 fs "system.schemas.created_at" in
  Ok (MkSchema schema_id database_id name created_at).

(** ** system.tables *)

Definition TABLES_SCHEMA : list CatalogValueType := [TyU32; TyText; TyBlob; TyU32; TyU8; TyI64].

Inductive TableState : Type :=
| TActive
| TDropping.

Definition table_state_u8 (s : TableState) : Z := match s with TActive => 0 | TDropping => 1 end.
Definition table_state_from_u8 (v : Z) : cres TableState :=
  if v =? 0 then Ok TActive else if v =? 1 then Ok TDropping else Err (CInvalidInput "unknown TableState").

Record TableRow : Type := MkTable {
  tbl_table_id : Z;
  tbl_schema_id : Z;
  tbl_name : bytes;
  tbl_pk_ordinals : list Z;
  tbl_schema_version : Z;
  tbl_state : TableState;
  tbl_created_at : Z
}.

Definition table_to_fields (r : TableRow) : fields :=
  [Some (CU32 (tbl_schema_id r)); Some (CText (tbl_name r)); Some (CBlob (encode_u16_list (tbl_pk_ordinals r)));
   Some (CU32 (tbl_schema_version r)); Some (CU8 (table_state_u8 (tbl_state r))); Some (CI64 (tbl_created_at r))].

Definition table_from_fields (table_id : Z) (fs : fields) : cres TableRow :=
  let? '(schema_id, fs) := expect_u32 fs "system.tables.schema_id" in
  let? '(name, fs) := expect_text fs "system.tables.name" in
  let? '(raw, fs) := expect_blob fs "system.tables.pk_ordinals" in
  let? pk_ordinals := decode_u16_list raw in
  let? '(schema_version, fs) := expect_u32 fs "system.tables.schema_version" in
  let? '(state, fs) := expect_u8 fs "system.tables.state" in
  let? state := table_state_from_u8 state in
  let? '(created_at, fs) := expect_i64 fs "system.tables.created_at" in
  Ok (MkTable table_id schema_id name pk_ordinals schema_version state created_at).

(** ** system.columns *)

Definition COLUMNS_SCHEMA : list CatalogValueType := [TyText; TyU8; TyBool; TyBlob; TyU32; TyBlob; TyBlob].
Definition COLUMN_ROW_VERSION : Z := 2.
Definition COLUMNS_V1_FIELDS : nat := 6.

Record ColumnRow : Type := MkColumn {
  col_table_id : Z;
  col_ordinal : Z;
  col_name : bytes;
  col_data_type : Z;
  col_nullable : bool;
  col_default_value : option bytes;
  col_added_in_schema_version : Z;
  col_type_params : option bytes;
  col_backfill_value : option bytes
}.

Definition column_to_fields (r : ColumnRow) : fields :=
  [Some (CText (col_name r)); Some (CU8 (col_data_type r)); Some (CBool (col_nullable r));
   CBlob <$> col_default_value r; Some (CU32 (col_added_in_schema_version r)); CBlob <$> col_type_params r;
   CBlob <$> col_backfill_value r].

Definition column_from_fields (table_id ordinal : Z) (fs : fields) : cres ColumnRow :=
  let? '(name, fs) := expect_text fs "system.columns.name" in
  let? '(data_type, fs) := expect_u8 fs "system.columns.data_type" in
  let? '(nullable, fs) := expect_bool fs "system.columns.nullable" in
  let? '(default_value, fs) := optional_blob fs in
  let? '(added_in_schema_version, fs) := expect_u32 fs "system.columns.added_in_schema_version" in
  let? '(type_params, fs) := optional_blob fs in
  let? '(backfill_value, fs) := match fs with [] => Ok (None, []) | _ => optional_blob fs end in
  Ok (MkColumn table_id ordinal name data_type nullable default_value added_in_schema_version type_params backfill_value).

(** ** system.indexes *)

Definition INDEXES_SCHEMA : list CatalogValueType := [TyU32; TyText; TyU8; TyBlob; TyU8; TyI64].

Inductive IndexKind : Type :=
| IPrimary
| IUnique
| INonUnique.

Definition index_kind_u8 (k : IndexKind) : Z := match k with IPrimary => 0 | IUnique => 1 | INonUnique => 2 end.
Definition index_kind_from_u8 (v : Z) : cres IndexKind :=
  if v =? 0 then Ok IPrimary else if v =? 1 then Ok IUnique else if v =? 2 then Ok INonUnique
  else Err (CInvalidInput "unknown IndexKind").

Inductive IndexState : Type :=
| IReady
| IBuilding
| IFailed
| IDropping.

Definition index_state_u8 (s : IndexState) : Z := match s with IReady => 0 | IBuilding => 1 | IFailed => 2 | IDropping => 3 end.
Definition index_state_from_u8 (v : Z) : cres IndexState :=
  if v =? 0 then Ok IReady else if v =? 1 then Ok IBuilding else if v =? 2 then Ok IFailed else if v =? 3 then Ok IDropping
  else Err (CInvalidInput "unknown IndexState").

Record IndexRow : Type := MkIndex {
  idx_index_id : Z;
  idx_table_id : Z;
  idx_name : bytes;
  idx_kind : IndexKind;
  idx_column_ordinals : list Z;
  idx_state : IndexState;
  idx_created_at : Z
}.

Definition index_to_fields (r : IndexRow) : fields :=
  [Some (CU32 (idx_table_id r)); Some (CText (idx_name r)); Some (CU8 (index_kind_u8 (idx_kind r)));
   Some (CBlob (encode_u16_list (idx_column_ordinals r))); Some (CU8 (index_state_u8 (idx_state r)));
   Some (CI64 (idx_created_at r))].

Definition index_from_fields (index_id : Z) (fs : fields) : cres IndexRow :=
  let? '(table_id, fs) := expect_u32 fs "system.indexes.table_id" in
  let? '(name, fs) := expect_text fs "system.indexes.name" in
  let? '(kind, fs) := expect_u8 fs "system.indexes.kind" in
  let? kind := index_kind_from_u8 kind in
  let? '(raw, fs) := expect_blob fs "system.indexes.column_ordinals" in
  let? column_ordinals := decode_u16_list raw in
  let? '(state, fs) := expect_u8 fs "system.indexes.state" in
  let? state := index_state_from_u8 state in
  let? '(created_at, fs) := expect_i64 fs "system.indexes.created_at" in
  Ok (MkIndex index_id table_id name kind column_ordinals state created_at).

(** ** system.constraints *)

Definition CONSTRAINTS_SCHEMA : list CatalogValueType := [TyU32; TyText; TyU8; TyBlob; TyText; TyU32].

Inductive ConstraintKind : Type :=
| KPrimaryKey
| KUnique
| KNotNull
| KCheck.

Definition constraint_kind_u8 (k : ConstraintKind) : Z :=
  match k with KPrimaryKey => 0 | KUnique => 1 | KNotNull => 2 | KCheck => 3 end.
Definition constraint_kind_from_u8 (v : Z) : cres ConstraintKind :=
  if v =? 0 then Ok KPrimaryKey else if v =? 1 then Ok KUnique else if v =? 2 then Ok KNotNull else if v =? 3 then Ok KCheck
  else Err (CInvalidInput "unknown ConstraintKind").

Record ConstraintRow : Type := MkConstraint {
  con_constraint_id : Z;
  con_table_id : Z;
  con_name : bytes;
  con_kind : ConstraintKind;
  con_column_ordinals : list Z;
  con_check_expression : option bytes;
  con_added_in_schema_version : Z
}.

Definition constraint_to_fields (r : ConstraintRow) : fields :=
  [Some (CU32 (con_table_id r)); Some (CText (con_name r)); Some (CU8 (constraint_kind_u8 (con_kind r)));
   Some (CBlob (encode_u16_list (con_column_ordinals r))); CText <$> con_check_expression r;
   Some (CU32 (con_added_in_schema_version r))].

Definition constraint_from_fields (constraint_id : Z) (fs : fields) : cres ConstraintRow :=
  let? '(table_id, fs) := expect_u32 fs "system.constraints.table_id" in
  let? '(name, fs) := expect_text fs "system.constraints.name" in
  let? '(kind, fs) := expect_u8 fs "system.constraints.kind" in
  let? kind := constraint_kind_from_u8 kind in
  let? '(raw, fs) := expect_blob fs "system.constraints.column_ordinals" in
  let? column_ordinals := decode_u16_list raw in
  let? '(check_expression, fs) := optional_text fs in
  let? '(added_in_schema_version, fs) := expect_u32 fs "system.constraints.added_in_schema_version" in
  Ok (MkConstraint constraint_id table_id name kind column_ordinals check_expression added_in_schema_version).

(** ** system.foreign_keys *)

Definition FOREIGN_KEYS_SCHEMA : list CatalogValueType := [TyU32; TyText; TyBlob; TyU32; TyBlob; TyU32; TyU8; TyU8; TyI64].

Inductive FkAction : Type :=
| NoAction
| Restrict
| Cascade
| SetNull
| SetDefault.

Definition fk_action_u8 (a : FkAction) : Z :=
  match a with NoAction => 0 | Restrict => 1 | Cascade => 2 | SetNull => 3 | SetDefault => 4 end.
Definition fk_action_from_u8 (v : Z) : cres FkAction :=
  if v =? 0 then Ok NoAction else if v =? 1 then Ok Restrict else if v =? 2 then Ok Cascade else if v =? 3 then Ok SetNull
  else if v =? 4 then Ok SetDefault else Err (CInvalidInput "unknown FkAction").

Definition is_refusal (a : FkAction) : bool := match a with NoAction | Restrict => true | _ => false end.

Record ForeignKeyRow : Type := MkForeignKey {
  fk_fk_id : Z;
  fk_table_id : Z;
  fk_name : bytes;
  fk_child_ordinals : list Z;
  fk_parent_table_id : Z;
  fk_parent_ordinals : list Z;
  fk_parent_index_id : option Z;
  fk_on_delete : FkAction;
  fk_on_update : FkAction;
  fk_created_at : Z
}.

Definition foreign_key_to_fields (r : ForeignKeyRow) : fields :=
  [Some (CU32 (fk_table_id r)); Some (CText (fk_name r)); Some (CBlob (encode_u16_list (fk_child_ordinals r)));
   Some (CU32 (fk_parent_table_id r)); Some (CBlob (encode_u16_list (fk_parent_ordinals r)));
   CU32 <$> fk_parent_index_id r; Some (CU8 (fk_action_u8 (fk_on_delete r)));
   Some (CU8 (fk_action_u8 (fk_on_update r))); Some (CI64 (fk_created_at r))].

Definition foreign_key_from_fields (fk_id : Z) (fs : fields) : cres ForeignKeyRow :=
  let? '(table_id, fs) := expect_u32 fs "system.foreign_keys.table_id" in
  let? '(name, fs) := expect_text fs "system.foreign_keys.name" in
  let? '(raw, fs) := expect_blob fs "system.foreign_keys.child_ordinals" in
  let? child_ordinals := decode_u16_list raw in
  let? '(parent_table_id, fs) := expect_u32 fs "system.foreign_keys.parent_table_id" in
  let? '(raw, fs) := expect_blob fs "system.foreign_keys.parent_ordinals" in
  let? parent_ordinals := decode_u16_list raw in
  let? '(parent_index_id, fs) :=
    match fs with
    | Some (CU32 v) :: fs => Ok (Some v, fs)
    | None :: fs => Ok (None, fs)
    | _ => Err (CInvalidInput "expected U32 or NULL for system.foreign_keys.parent_index_id")
    end in
  let? '(on_delete, fs) := expect_u8 fs "system.foreign_keys.on_delete" in
  let? on_delete := fk_action_from_u8 on_delete in
  let? '(on_update, fs) := expect_u8 fs "system.foreign_keys.on_update" in
  let? on_update := fk_action_from_u8 on_update in
  let? '(created_at, fs) := expect_i64 fs "system.foreign_keys.created_at" in
  Ok (MkForeignKey fk_id table_id name child_ordinals parent_table_id parent_ordinals parent_index_id on_delete on_update
        created_at).

(** ** system.grants *)

Definition GRANTS_SCHEMA : list CatalogValueType := [TyText; TyU8; TyU32; TyU8; TyI64].

Inductive ObjectKind : Type :=
| ODatabase
| OSchema
| OTable.

Definition object_kind_u8 (k : ObjectKind) : Z := match k with ODatabase => 0 | OSchema => 1 | OTable => 2 end.
Definition object_kind_from_u8 (v : Z) : cres ObjectKind :=
  if v =? 0 then Ok ODatabase else if v =? 1 then Ok OSchema else if v =? 2 then Ok OTable
  else Err (CInvalidInput "unknown ObjectKind").

Inductive Privilege : Type :=
| PSelect
| PInsert
| PUpdate
| PDelete
| PDdl
| PCreateIndex.

Definition privilege_u8 (p : Privilege) : Z :=
  match p with PSelect => 0 | PInsert => 1 | PUpdate => 2 | PDelete => 3 | PDdl => 4 | PCreateIndex => 5 end.
Definition privilege_from_u8 (v : Z) : cres Privilege :=
  if v =? 0 then Ok PSelect else if v =? 1 then Ok PInsert else if v =? 2 then Ok PUpdate else if v =? 3 then Ok PDelete
  else if v =? 4 then Ok PDdl else if v =? 5 then Ok PCreateIndex else Err (CInvalidInput "unknown Privilege").

Record GrantRow : Type := MkGrant {
  gr_grant_id : Z;
  gr_principal : bytes;
  gr_object_kind : ObjectKind;
  gr_object_id : Z;
  gr_privilege : Privilege;
  gr_granted_at : Z
}.

Definition grant_to_fields (r : GrantRow) : fields :=
  [Some (CText (gr_principal r)); Some (CU8 (object_kind_u8 (gr_object_kind r))); Some (CU32 (gr_object_id r));
   Some (CU8 (privilege_u8 (gr_privilege r))); Some (CI64 (gr_granted_at r))].

Definition grant_from_fields (grant_id : Z) (fs : fields) : cres GrantRow :=
  let? '(principal, fs) := expect_text fs "system.grants.principal" in
  let? '(object_kind, fs) := expect_u8 fs "system.grants.object_kind" in
  let? object_kind := object_kind_from_u8 object_kind in
  let? '(object_id, fs) := expect_u32 fs "system.grants.object_id" in
  let? '(privilege, fs) := expect_u8 fs "system.grants.privilege" in
  let? privilege := privilege_from_u8 privilege in
  let? '(granted_at, fs) := expect_i64 fs "system.grants.granted_at" in
  Ok (MkGrant grant_id principal object_kind object_id privilege granted_at).

#[global] Instance table_state_eq_dec : EqDecision TableState.
Proof. solve_decision. Defined.
#[global] Instance index_kind_eq_dec : EqDecision IndexKind.
Proof. solve_decision. Defined.
#[global] Instance index_state_eq_dec : EqDecision IndexState.
Proof. solve_decision. Defined.
#[global] Instance constraint_kind_eq_dec : EqDecision ConstraintKind.
Proof. solve_decision. Defined.
#[global] Instance fk_action_eq_dec : EqDecision FkAction.
Proof. solve_decision. Defined.
#[global] Instance object_kind_eq_dec : EqDecision ObjectKind.
Proof. solve_decision. Defined.
#[global] Instance privilege_eq_dec : EqDecision Privilege.
Proof. solve_decision. Defined.

(** ** Physical keys and values ([src/src/catalog/service.rs]) *)

(** [decode_column_row]: the envelope's own version selects the number of fields. *)
Definition decode_column_row (buf : bytes) : option (cres (Z * fields)) :=
  match get_range buf 1 5 with
  | None => Some (Err (CInvalidInput "system.columns row too short for its envelope header"))
  | Some raw =>
      let version := le_val raw in
      decode_row buf (if 2 <=? version then COLUMNS_SCHEMA else take COLUMNS_V1_FIELDS COLUMNS_SCHEMA)
  end.

Definition column_pk (table_id ordinal : Z) : bytes := be32 table_id ++ be_bytes 2 ordinal.

Definition pk_tail_u32 (key : bytes) : cres Z :=
  let? tail := ok_or (CInvalidInput "catalog key too short for a u32 primary key") (get_range key 5 9) in
  Ok (be_val tail).

Definition column_pk_ordinal (key : bytes) : cres Z :=
  let? tail := ok_or (CInvalidInput "system.columns key too short for an ordinal") (get_range key 9 11) in
  Ok (be_val tail).

(** ** Rows in the store *)

(** What one kind of row needs to be stored: where it goes, how it is written, how a scan reads it back. *)
Class CatalogRow (K R : Type) `{Ord K} := {
  row_table : Z;
  row_version : Z;
  row_key : R -> K;
  pk_bytes : K -> bytes;
  to_fields : R -> fields;
  parse_key : bytes -> cres K;
  parse_value : K -> bytes -> option (cres R);
  key_ok : K -> Prop;
  row_ok : R -> Prop
}.
#[global] Hint Mode CatalogRow - + - : typeclass_instances.
#[global] Hint Mode Ord ! : typeclass_instances.
Arguments row_table {K} R {_ _}.
Arguments row_version {K} R {_ _}.
Arguments pk_bytes {K} R {_ _} k.
Arguments parse_key {K} R {_ _} key.
Arguments key_ok {K} R {_ _} k.

Class CatalogRowLaws (K R : Type) `{CatalogRow K R} : Prop := {
  row_table_u32 : 0 <= row_table R < u32_max;
  row_key_ok (r : R) : row_ok r -> key_ok R (row_key r);
  pk_bytes_cmp (k k' : K) : key_ok R k -> key_ok R k' -> cmp (pk_bytes R k) (pk_bytes R k') = cmp k k';
  parse_key_pk (k : K) : key_ok R k -> parse_key R (catalog_key (row_table R) (pk_bytes R k)) = Ok k;
  parse_value_row (r : R) : row_ok r ->
    exists value, encode_row (row_version R) (to_fields r) = Some value /\ parse_value (row_key r) value = Some (Ok r)
}.

(** [let (_, fields) = decode_row(&bytes, &SCHEMA)?; Row::from_fields(id, fields)?]. *)
Definition parse_with {R} (decode : bytes -> option (cres (Z * fields))) (from_fields : fields -> cres R) (value : bytes)
    : option (cres R) :=
  let! '(_, fs) := decode value in Some (from_fields fs).

Definition text_ok (s : bytes) : Prop := valid_utf8 s = true /\ zlen s <= u32_max.
Definition ordinals_ok (l : list Z) : Prop := Forall is_u16 l /\ 4 + 2 * zlen l <= u32_max.
Definition opt_ok {A} (P : A -> Prop) (o : option A) : Prop := match o with Some a => P a | None => True end.

Definition database_ok (r : DatabaseRow) : Prop :=
  is_u32 (db_database_id r) /\ text_ok (db_name r) /\ is_signed 64 (db_created_at r).
Definition schema_ok (r : SchemaRow) : Prop :=
  is_u32 (sch_schema_id r) /\ is_u32 (sch_database_id r) /\ text_ok (sch_name r) /\ is_signed 64 (sch_created_at r).
Definition table_ok (r : TableRow) : Prop :=
  is_u32 (tbl_table_id r) /\ is_u32 (tbl_schema_id r) /\ text_ok (tbl_name r) /\ ordinals_ok (tbl_pk_ordinals r) /\
  is_u32 (tbl_schema_version r) /\ is_signed 64 (tbl_created_at r).
Definition column_row_ok (r : ColumnRow) : Prop :=
  (is_u32 (col_table_id r) /\ is_u16 (col_ordinal r)) /\ text_ok (col_name r) /\ is_u8 (col_data_type r) /\
  opt_ok (fun b => zlen b <= u32_max) (col_default_value r) /\ is_u32 (col_added_in_schema_version r) /\
  opt_ok (fun b => zlen b <= u32_max) (col_type_params r) /\ opt_ok (fun b => zlen b <= u32_max) (col_backfill_value r).
Definition index_ok (r : IndexRow) : Prop :=
  is_u32 (idx_index_id r) /\ is_u32 (idx_table_id r) /\ text_ok (idx_name r) /\ ordinals_ok (idx_column_ordinals r) /\
  is_signed 64 (idx_created_at r).
Definition constraint_ok (r : ConstraintRow) : Prop :=
  is_u32 (con_constraint_id r) /\ is_u32 (con_table_id r) /\ text_ok (con_name r) /\ ordinals_ok (con_column_ordinals r) /\
  opt_ok text_ok (con_check_expression r) /\ is_u32 (con_added_in_schema_version r).
Definition foreign_key_ok (r : ForeignKeyRow) : Prop :=
  is_u32 (fk_fk_id r) /\ is_u32 (fk_table_id r) /\ text_ok (fk_name r) /\ ordinals_ok (fk_child_ordinals r) /\
  is_u32 (fk_parent_table_id r) /\ ordinals_ok (fk_parent_ordinals r) /\ opt_ok is_u32 (fk_parent_index_id r) /\
  is_signed 64 (fk_created_at r).
Definition grant_ok (r : GrantRow) : Prop :=
  is_u32 (gr_grant_id r) /\ text_ok (gr_principal r) /\ is_u32 (gr_object_id r) /\ is_signed 64 (gr_granted_at r).

#[global] Instance database_row : CatalogRow Z DatabaseRow := {|
  row_table := SYSTEM_TABLE_DATABASES; row_version := 1; row_key := db_database_id; pk_bytes := be_bytes 4;
  to_fields := database_to_fields; parse_key := pk_tail_u32;
  parse_value id := parse_with (fun b => decode_row b DATABASES_SCHEMA) (database_from_fields id);
  key_ok := is_u32; row_ok := database_ok |}.
#[global] Instance schema_row : CatalogRow Z SchemaRow := {|
  row_table := SYSTEM_TABLE_SCHEMAS; row_version := 1; row_key := sch_schema_id; pk_bytes := be_bytes 4;
  to_fields := schema_to_fields; parse_key := pk_tail_u32;
  parse_value id := parse_with (fun b => decode_row b SCHEMAS_SCHEMA) (schema_from_fields id);
  key_ok := is_u32; row_ok := schema_ok |}.
#[global] Instance table_row : CatalogRow Z TableRow := {|
  row_table := SYSTEM_TABLE_TABLES; row_version := 1; row_key := tbl_table_id; pk_bytes := be_bytes 4;
  to_fields := table_to_fields; parse_key := pk_tail_u32;
  parse_value id := parse_with (fun b => decode_row b TABLES_SCHEMA) (table_from_fields id);
  key_ok := is_u32; row_ok := table_ok |}.
#[global] Instance index_row : CatalogRow Z IndexRow := {|
  row_table := SYSTEM_TABLE_INDEXES; row_version := 1; row_key := idx_index_id; pk_bytes := be_bytes 4;
  to_fields := index_to_fields; parse_key := pk_tail_u32;
  parse_value id := parse_with (fun b => decode_row b INDEXES_SCHEMA) (index_from_fields id);
  key_ok := is_u32; row_ok := index_ok |}.
#[global] Instance constraint_row : CatalogRow Z ConstraintRow := {|
  row_table := SYSTEM_TABLE_CONSTRAINTS; row_version := 1; row_key := con_constraint_id; pk_bytes := be_bytes 4;
  to_fields := constraint_to_fields; parse_key := pk_tail_u32;
  parse_value id := parse_with (fun b => decode_row b CONSTRAINTS_SCHEMA) (constraint_from_fields id);
  key_ok := is_u32; row_ok := constraint_ok |}.
#[global] Instance foreign_key_row : CatalogRow Z ForeignKeyRow := {|
  row_table := SYSTEM_TABLE_FOREIGN_KEYS; row_version := 1; row_key := fk_fk_id; pk_bytes := be_bytes 4;
  to_fields := foreign_key_to_fields; parse_key := pk_tail_u32;
  parse_value id := parse_with (fun b => decode_row b FOREIGN_KEYS_SCHEMA) (foreign_key_from_fields id);
  key_ok := is_u32; row_ok := foreign_key_ok |}.
#[global] Instance grant_row : CatalogRow Z GrantRow := {|
  row_table := SYSTEM_TABLE_GRANTS; row_version := 1; row_key := gr_grant_id; pk_bytes := be_bytes 4;
  to_fields := grant_to_fields; parse_key := pk_tail_u32;
  parse_value id := parse_with (fun b => decode_row b GRANTS_SCHEMA) (grant_from_fields id);
  key_ok := is_u32; row_ok := grant_ok |}.

(** A column's key is its table and its ordinal; a scan over one table's columns knows the table. *)
#[global] Instance column_row : CatalogRow (Z * Z) ColumnRow := {|
  row_table := SYSTEM_TABLE_COLUMNS; row_version := COLUMN_ROW_VERSION; row_key c := (col_table_id c, col_ordinal c);
  pk_bytes k := column_pk k.1 k.2; to_fields := column_to_fields;
  parse_key key :=
    let? table_id := pk_tail_u32 key in
    let? ordinal := column_pk_ordinal key in
    Ok (table_id, ordinal);
  parse_value k := parse_with decode_column_row (column_from_fields k.1 k.2);
  key_ok k := is_u32 k.1 /\ is_u16 k.2; row_ok := column_row_ok |}.

(** ** Keys *)

Lemma get_range_tail {A} (pre mid post : list A) a b :
  zlen pre = a -> zlen mid = b - a -> get_range (pre ++ mid ++ post) a b = Some mid.
Proof. intros <- Hm. apply get_range_app; lia. Qed.

Lemma catalog_key_tail t id post : is_u32 id -> pk_tail_u32 (catalog_key t (be32 id ++ post)) = Ok id.
Proof.
  intros Hid. unfold pk_tail_u32, catalog_key. rewrite (app_assoc [_] (be32 t)).
  rewrite (get_range_tail ([CATALOG_NAMESPACE] ++ be32 t) (be32 id) post) by zlen. cbn [ok_or].
  rewrite be_val_bytes_small; [done|]. unfold_ints. change (256 ^ Z.of_nat 4) with 4294967296. lia.
Qed.

Lemma catalog_key_tail' t id : is_u32 id -> pk_tail_u32 (catalog_key t (be32 id)) = Ok id.
Proof. intros. rewrite <- (app_nil_r (be32 id)). by apply catalog_key_tail. Qed.

Lemma be32_cmp a b : is_u32 a -> is_u32 b -> cmp (be32 a) (be32 b) = cmp a b.
Proof.
  unfold_ints. intros. rewrite <- (app_nil_r (be32 a)), <- (app_nil_r (be32 b)).
  rewrite cmp_be_bytes by (change (256 ^ Z.of_nat 4) with 4294967296; lia). rewrite cmp_refl.
  unfold cmp, Z_ord. by destruct (a ?= b).
Qed.

Lemma column_pk_cmp k k' :
  is_u32 k.1 /\ is_u16 k.2 -> is_u32 k'.1 /\ is_u16 k'.2 -> cmp (column_pk k.1 k.2) (column_pk k'.1 k'.2) = cmp k k'.
Proof.
  destruct k as [t o], k' as [t' o']. unfold_ints. unfold is_u16. simpl. intros. unfold column_pk.
  rewrite <- (app_nil_r (be_bytes 2 o)), <- (app_nil_r (be_bytes 2 o')).
  rewrite cmp_be_bytes by (change (256 ^ Z.of_nat 4) with 4294967296; lia).
  rewrite cmp_be_bytes by (change (256 ^ Z.of_nat 2) with 65536; lia). rewrite cmp_refl, cmp_pair.
  unfold cmp, Z_ord. destruct (t ?= t'), (o ?= o'); done.
Qed.

(** ** Values *)

Lemma field_bytes_bound t v : catalog_value_ok t v -> zlen (encode_value v []) <= 4 + u32_max.
Proof.
  destruct t, v; simpl; try done; intros Hv; rewrite ?zlen_app, ?length_le_bytes, ?zlen_cons; unfold_ints;
    simpl length; lia.
Qed.

Lemma row_bytes_bound schema fs :
  Forall2 nullable_ok schema fs -> zlen (encode_fields encode_value fs []) <= zlen fs * (4 + u32_max).
Proof.
  induction 1 as [|t f schema fs Hf Hfs IH]; [done|]. rewrite zlen_cons. unfold_ints. destruct f as [v|]; cbn [encode_fields].
  - change encode_value with (put_field (Ty := CatalogValueType)) in *. rewrite encode_fields_app, zlen_app.
    pose proof (field_bytes_bound t v Hf) as Hb. unfold_ints. change (put_field v []) with (encode_value v []). lia.
  - lia.
Qed.

(** A row of at most sixteen well-typed fields survives its encoding. *)
Lemma stored_row schema_version schema fs :
  is_u32 schema_version -> Forall2 nullable_ok schema fs -> (length fs <= 16)%nat ->
  exists value, encode_row schema_version fs = Some value /\
    (exists rest, value = le_bytes 1 ROW_FORMAT_VERSION ++ le32 schema_version ++ rest) /\
    decode_row value schema = Some (Ok (schema_version, fs)).
Proof.
  intros Hv Hok Hlen. destruct (envelope_encode (Ty := CatalogValueType) schema_version fs) as (bm & Henc & Hbm & _).
  eexists. split; [exact Henc|]. split; [eauto|].
  rewrite <- (app_nil_r (_ ++ _)). unfold decode_row.
  apply (envelope_roundtrip schema schema_version fs _ []); [done|done|exact Henc|].
  pose proof (row_bytes_bound schema fs Hok) as Hb. rewrite !zlen_app, !length_le_bytes, Hbm.
  change (put_field (Ty := CatalogValueType)) with encode_value. unfold_ints. unfold null_bitmap_len.
  pose proof (Nat.Div0.div_le_upper_bound (length fs + 7) 8 (length fs + 7)). lia.
Qed.

(** The tags of each enum decode to themselves. *)
Lemma table_state_tag s : table_state_from_u8 (table_state_u8 s) = Ok s /\ is_u8 (table_state_u8 s).
Proof. unfold_ints. by destruct s. Qed.
Lemma index_kind_tag k : index_kind_from_u8 (index_kind_u8 k) = Ok k /\ is_u8 (index_kind_u8 k).
Proof. unfold_ints. by destruct k. Qed.
Lemma index_state_tag s : index_state_from_u8 (index_state_u8 s) = Ok s /\ is_u8 (index_state_u8 s).
Proof. unfold_ints. by destruct s. Qed.
Lemma constraint_kind_tag k : constraint_kind_from_u8 (constraint_kind_u8 k) = Ok k /\ is_u8 (constraint_kind_u8 k).
Proof. unfold_ints. by destruct k. Qed.
Lemma fk_action_tag a : fk_action_from_u8 (fk_action_u8 a) = Ok a /\ is_u8 (fk_action_u8 a).
Proof. unfold_ints. by destruct a. Qed.
Lemma object_kind_tag k : object_kind_from_u8 (object_kind_u8 k) = Ok k /\ is_u8 (object_kind_u8 k).
Proof. unfold_ints. by destruct k. Qed.
Lemma privilege_tag p : privilege_from_u8 (privilege_u8 p) = Ok p /\ is_u8 (privilege_u8 p).
Proof. unfold_ints. by destruct p. Qed.

Lemma ordinals_stored l :
  ordinals_ok l -> decode_u16_list (encode_u16_list l) = Ok l /\ zlen (encode_u16_list l) <= u32_max.
Proof.
  intros [Hu Hl]. assert (zlen (encode_u16_list l) = 4 + 2 * zlen l) as Hz
    by (unfold encode_u16_list; rewrite encode_u16s_eq, zlen_app, zlen_u16s; zlen).
  split; [|lia]. apply u16_list_exact; [unfold_ints; lia|]. split_and!; [done|unfold_ints; lia|done].
Qed.

(** One goal per field of a row. *)
#[local] Ltac typed := repeat match goal with |- Forall2 _ _ _ => constructor end; simpl; try done.

Lemma database_stored r : database_ok r ->
  Forall2 nullable_ok DATABASES_SCHEMA (database_to_fields r) /\ database_from_fields (db_database_id r) (database_to_fields r) = Ok r.
Proof. intros (? & ? & ?). split; [by typed|by destruct r]. Qed.

Lemma schema_stored r : schema_ok r ->
  Forall2 nullable_ok SCHEMAS_SCHEMA (schema_to_fields r) /\ schema_from_fields (sch_schema_id r) (schema_to_fields r) = Ok r.
Proof. intros (? & ? & ? & ?). split; [by typed|by destruct r]. Qed.

Lemma table_stored r : table_ok r ->
  Forall2 nullable_ok TABLES_SCHEMA (table_to_fields r) /\ table_from_fields (tbl_table_id r) (table_to_fields r) = Ok r.
Proof.
  intros (? & ? & ? & [Hd ?]%ordinals_stored & ? & ?). destruct (table_state_tag (tbl_state r)) as [Hs ?]. split.
  - by typed.
  - unfold table_from_fields, table_to_fields. cbn [expect_u32 expect_text expect_blob expect_u8 expect_i64]. rewrite Hd, Hs.
    by destruct r.
Qed.

Lemma column_stored r : column_row_ok r ->
  Forall2 nullable_ok COLUMNS_SCHEMA (column_to_fields r) /\
  column_from_fields (col_table_id r) (col_ordinal r) (column_to_fields r) = Ok r.
Proof.
  intros (? & ? & ? & Hd & ? & Hp & Hb). split.
  - typed; [by destruct (col_default_value r)|by destruct (col_type_params r)|by destruct (col_backfill_value r)].
  - by destruct r as [? ? ? ? ? [] ? [] []].
Qed.

Lemma index_stored r : index_ok r ->
  Forall2 nullable_ok INDEXES_SCHEMA (index_to_fields r) /\ index_from_fields (idx_index_id r) (index_to_fields r) = Ok r.
Proof.
  intros (? & ? & ? & [Hd ?]%ordinals_stored & ?). destruct (index_kind_tag (idx_kind r)) as [Hk ?].
  destruct (index_state_tag (idx_state r)) as [Hs ?]. split.
  - by typed.
  - unfold index_from_fields, index_to_fields. cbn [expect_u32 expect_text expect_blob expect_u8 expect_i64].
    rewrite Hk, Hd, Hs. by destruct r.
Qed.

Lemma constraint_stored r : constraint_ok r ->
  Forall2 nullable_ok CONSTRAINTS_SCHEMA (constraint_to_fields r) /\
  constraint_from_fields (con_constraint_id r) (constraint_to_fields r) = Ok r.
Proof.
  intros (? & ? & ? & [Hd ?]%ordinals_stored & Hc & ?). destruct (constraint_kind_tag (con_kind r)) as [Hk ?]. split.
  - typed. by destruct (con_check_expression r).
  - unfold constraint_from_fields, constraint_to_fields. cbn [expect_u32 expect_text expect_blob expect_u8]. rewrite Hk, Hd.
    by destruct r as [? ? ? ? ? [] ?].
Qed.

Lemma foreign_key_stored r : foreign_key_ok r ->
  Forall2 nullable_ok FOREIGN_KEYS_SCHEMA (foreign_key_to_fields r) /\
  foreign_key_from_fields (fk_fk_id r) (foreign_key_to_fields r) = Ok r.
Proof.
  intros (? & ? & ? & [Hc ?]%ordinals_stored & ? & [Hp ?]%ordinals_stored & Hi & ?).
  destruct (fk_action_tag (fk_on_delete r)) as [Hd ?]. destruct (fk_action_tag (fk_on_update r)) as [Hu ?]. split.
  - typed. by destruct (fk_parent_index_id r).
  - unfold foreign_key_from_fields, foreign_key_to_fields. cbn [expect_u32 expect_text expect_blob]. rewrite Hc, Hp.
    destruct r as [? ? ? ? ? ? [i|] ? ? ?]; simpl in *; by rewrite Hd, Hu.
Qed.

Lemma grant_stored r : grant_ok r ->
  Forall2 nullable_ok GRANTS_SCHEMA (grant_to_fields r) /\ grant_from_fields (gr_grant_id r) (grant_to_fields r) = Ok r.
Proof.
  intros (? & ? & ? & ?). destruct (object_kind_tag (gr_object_kind r)) as [Hk ?].
  destruct (privilege_tag (gr_privilege r)) as [Hp ?]. split.
  - by typed.
  - unfold grant_from_fields, grant_to_fields. cbn [expect_u32 expect_text expect_u8 expect_i64]. rewrite Hk, Hp. by destruct r.
Qed.

(** A row whose fields fit its schema and convert back is stored and read back. *)
Lemma stored_value {R} schema (from_fields : fields -> cres R) (fs : fields) (r : R) :
  Forall2 nullable_ok schema fs /\ from_fields fs = Ok r -> (length fs <= 16)%nat ->
  exists value, encode_row 1 fs = Some value /\ parse_with (fun b => decode_row b schema) from_fields value = Some (Ok r).
Proof.
  intros [Hok Hf] Hlen. destruct (stored_row 1 schema fs) as (value & Henc & _ & Hdec); [by unfold_ints|done..|].
  exists value. split; [done|]. unfold parse_with. by rewrite Hdec, Hf.
Qed.

Lemma decode_column_version v rest :
  is_u32 v -> decode_column_row (le_bytes 1 ROW_FORMAT_VERSION ++ le32 v ++ rest) =
  decode_row (le_bytes 1 ROW_FORMAT_VERSION ++ le32 v ++ rest)
    (if 2 <=? v then COLUMNS_SCHEMA else take COLUMNS_V1_FIELDS COLUMNS_SCHEMA).
Proof. intros Hv. unfold decode_column_row. rewrite get_range_tail by zlen. by rewrite le_val_32. Qed.

#[local] Ltac u32_key :=
  first [ by unfold_ints | by intros r (? & _) | by intros; apply be32_cmp | by intros; apply catalog_key_tail' ].

#[global] Instance database_row_laws : CatalogRowLaws Z DatabaseRow.
Proof. split; try u32_key. intros r Hr. apply stored_value; [by apply database_stored|simpl; lia]. Qed.
#[global] Instance schema_row_laws : CatalogRowLaws Z SchemaRow.
Proof. split; try u32_key. intros r Hr. apply stored_value; [by apply schema_stored|simpl; lia]. Qed.
#[global] Instance table_row_laws : CatalogRowLaws Z TableRow.
Proof. split; try u32_key. intros r Hr. apply stored_value; [by apply table_stored|simpl; lia]. Qed.
#[global] Instance index_row_laws : CatalogRowLaws Z IndexRow.
Proof. split; try u32_key. intros r Hr. apply stored_value; [by apply index_stored|simpl; lia]. Qed.
#[global] Instance constraint_row_laws : CatalogRowLaws Z ConstraintRow.
Proof. split; try u32_key. intros r Hr. apply stored_value; [by apply constraint_stored|simpl; lia]. Qed.
#[global] Instance foreign_key_row_laws : CatalogRowLaws Z ForeignKeyRow.
Proof. split; try u32_key. intros r Hr. apply stored_value; [by apply foreign_key_stored|simpl; lia]. Qed.
#[global] Instance grant_row_laws : CatalogRowLaws Z GrantRow.
Proof. split; try u32_key. intros r Hr. apply stored_value; [by apply grant_stored|simpl; lia]. Qed.

#[global] Instance column_row_laws : CatalogRowLaws (Z * Z) ColumnRow.
Proof.
  split.
  - by unfold_ints.
  - by intros r (? & _).
  - intros k k'. apply column_pk_cmp.
  - intros [t o] [Ht Ho]. cbn [parse_key column_row row_table pk_bytes fst snd] in *. unfold column_pk.
    rewrite catalog_key_tail by done. unfold column_pk_ordinal, catalog_key. rewrite <- (app_nil_r (be_bytes 2 o)).
    rewrite (app_assoc [_] (be32 _)), (app_assoc _ (be32 t)).
    rewrite get_range_tail by zlen. cbn [ok_or]. rewrite be_val_bytes_small; [done|].
    change (256 ^ Z.of_nat 2) with 65536. exact Ho.
  - intros r Hr. destruct (column_stored r Hr) as [Hok Hf].
    destruct (stored_row 2 COLUMNS_SCHEMA (column_to_fields r)) as (value & Henc & (rest & ->) & Hdec);
      [by unfold_ints|done|simpl; lia|].
    eexists. split; [exact Henc|]. cbn [parse_value column_row row_key fst snd]. unfold parse_with.
    rewrite decode_column_version by by_eval. change (2 <=? 2) with true. cbn beta iota. by rewrite Hdec, Hf.
Qed.

(** ** Theorems *)

(** A stored row's key and value read back to the row. *)
Definition reads_back (R : Type) {K} `{CatalogRow K R} : Prop :=
  forall r : R, row_ok r ->
    exists value, encode_row (row_version R) (to_fields r) = Some value /\
      parse_key R (catalog_key (row_table R) (pk_bytes R (row_key r))) = Ok (row_key r) /\
      parse_value (row_key r) value = Some (Ok r).

Lemma laws_read_back (R : Type) {K} `{CatalogRowLaws K R} : reads_back R.
Proof.
  intros r Hr. destruct (parse_value_row r Hr) as (value & ? & ?). exists value. split_and!; [done| |done].
  by apply parse_key_pk, row_key_ok.
Qed.

(** C39: Every row the catalog stores, of each of the eight system tables, reads back from its physical key and value
    exactly: enums, [NULL] columns, ordinal lists and both halves of a composite key included. *)
Theorem catalog_rows_roundtrip :
  reads_back DatabaseRow /\ reads_back SchemaRow /\ reads_back TableRow /\ reads_back ColumnRow /\ reads_back IndexRow /\
  reads_back ConstraintRow /\ reads_back ForeignKeyRow /\ reads_back GrantRow.
Proof. split_and!; apply laws_read_back; apply _. Qed.

(** A [system.columns] row written before the [backfill_value] column existed (version 1, six fields) still reads as the
    same column, without a backfill value. *)
Theorem column_v1_compat (r : ColumnRow) :
  column_row_ok r -> col_backfill_value r = None ->
  exists value, encode_row 1 (take COLUMNS_V1_FIELDS (column_to_fields r)) = Some value /\
    parse_value (row_key r) value = Some (Ok r).
Proof.
  intros Hr Hb. destruct (column_stored r Hr) as [Hok _]. apply (Forall2_take _ _ _ COLUMNS_V1_FIELDS) in Hok.
  destruct (stored_row 1 (take COLUMNS_V1_FIELDS COLUMNS_SCHEMA) (take COLUMNS_V1_FIELDS (column_to_fields r)))
    as (value & Henc & (rest & ->) & Hdec); [by unfold_ints|done|simpl; lia|].
  eexists. split; [exact Henc|]. cbn [parse_value column_row row_key fst snd]. unfold parse_with.
  rewrite decode_column_version by by_eval. change (2 <=? 1) with false. cbn beta iota. rewrite Hdec.
  by destruct r as [? ? ? ? ? [] ? [] []].
Qed.

(** ** Witnesses *)

Definition demo_column : ColumnRow := MkColumn 3 0 [x69; x64] 1 false (Some [x2a]) 1 None None.

Lemma column_v1_compat_witness :
  exists value, encode_row 1 (take COLUMNS_V1_FIELDS (column_to_fields demo_column)) = Some value /\
    parse_value (3, 0) value = Some (Ok demo_column).
Proof. apply (column_v1_compat demo_column); [repeat split; by_eval|reflexivity]. Defined.

End Rows.
