(* ===== verification/KvStore.v ===== *)
(** * The engine as its clients see it

    The relational layer uses the engine through three calls: [get], a drained [range_scan] and [write_batch] (file
    [src/src/lsm/mod.rs]).  [KvStore] has these operations with the three ways a call ends, and [KvStoreLaws] states what
    the engine promises about them in terms of an ordered map from keys to values: reads answer from the map or report
    an error, and a batch takes effect as a whole or not at all.  The catalog's theorems are proved against the laws. *)

From stdpp Require Import base list option.
From Stdlib Require Import ZArith Lia.
From Stdlib Require Import Strings.Byte.
From S2P Require Import Prelude BTree EngineError LsmEngine.

Module Kv.
Import Lsm(WriteOp, WPut, WDelete, outcome, Returned, Failed, Panicked).

Definition kv_map : Type := list (bytes * bytes).

Class KvStore (E : Type) := {
  kv_get : bytes -> E -> E * outcome (option bytes);
  kv_scan : Bound bytes -> Bound bytes -> E -> E * outcome (list (result EngineError (bytes * bytes)));
  kv_write_batch : list WriteOp -> E -> E * outcome Z
}.

Definition apply_op (m : kv_map) (op : WriteOp) : kv_map :=
  match op with WPut key value => bt_insert key value m | WDelete key => bt_remove key m end.

(** Later operations of a batch win over earlier ones on the same key. *)
Definition apply_ops (ops : list WriteOp) (m : kv_map) : kv_map := fold_left apply_op ops m.

Definition kv_range (lo hi : Bound bytes) (m : kv_map) : kv_map := List.filter (fun p => above lo p.1 && below hi p.1) m.

Class KvStoreLaws (E : Type) `{KvStore E} (view : E -> kv_map -> Prop) : Prop := {
  kv_sorted e m : view e m -> bt_sorted m;
  kv_get_law key e m : view e m ->
    view (kv_get key e).1 m /\ ((kv_get key e).2 = Returned (bt_get key m) \/ exists x, (kv_get key e).2 = Failed x);
  kv_scan_law lo hi e m : view e m ->
    view (kv_scan lo hi e).1 m /\
    ((kv_scan lo hi e).2 = Returned (map Ok (kv_range lo hi m)) \/
     exists n x rest, (kv_scan lo hi e).2 = Returned (map Ok (take n (kv_range lo hi m)) ++ Err x :: rest));
  kv_write_law ops e m : view e m ->
    (view (kv_write_batch ops e).1 m /\ exists x, (kv_write_batch ops e).2 = Failed x) \/
    (view (kv_write_batch ops e).1 (apply_ops ops m) /\
     ((exists seq, (kv_write_batch ops e).2 = Returned seq) \/ exists x, (kv_write_batch ops e).2 = Failed x))
}.

(** ** Batches *)

Lemma apply_op_sorted m op : bt_sorted m -> bt_sorted (apply_op m op).
Proof. destruct op; [apply bt_insert_sorted|apply bt_remove_sorted]. Qed.

Lemma apply_ops_sorted ops m : bt_sorted m -> bt_sorted (apply_ops ops m).
Proof. unfold apply_ops. revert m. induction ops as [|op ops IH]; intros m Hm; simpl; [done|]. by apply IH, apply_op_sorted. Qed.

(** ** A map in memory, with a script for its writes

    Each write takes the next answer of the script: none left or [WDone] is a success; [WLost] and [WKept] are errors
    before and after the batch took effect. *)

Inductive write_answer : Type :=
| WDone
| WLost (x : EngineError)
| WKept (x : EngineError).

Record MapStore : Type := MkMapStore { contents : kv_map; writes : Z; script : list write_answer }.

#[global] Instance map_store : KvStore MapStore := {|
  kv_get key e := (e, Returned (bt_get key (contents e)));
  kv_scan lo hi e := (e, Returned (map Ok (kv_range lo hi (contents e))));
  kv_write_batch ops e :=
    let m' := apply_ops ops (contents e) in
    match script e with
    | WLost x :: rest => (MkMapStore (contents e) (writes e) rest, Failed x)
    | WKept x :: rest => (MkMapStore m' (writes e + 1) rest, Failed x)
    | _ :: rest => (MkMapStore m' (writes e + 1) rest, Returned (writes e + 1))
    | [] => (MkMapStore m' (writes e + 1) [], Returned (writes e + 1))
    end
|}.

Definition map_view (e : MapStore) (m : kv_map) : Prop := contents e = m /\ bt_sorted m.

#[global] Instance map_store_laws : KvStoreLaws MapStore map_view.
Proof.
  split.
  - by intros e m [_ ?].
  - intros key e m [<- Hs]. by split; [|left].
  - intros lo hi e m [<- Hs]. by split; [|left].
  - intros ops e m [<- Hs]. pose proof (apply_ops_sorted ops _ Hs). unfold kv_write_batch, map_store, map_view.
    destruct (script e) as [|[] rest]; simpl; eauto 10.
Qed.

End Kv.
