(* ===== verification/CatalogService.v ===== *)
(** * The catalog service ([src/src/catalog/service.rs])

    The service's state is the engine it writes to and its two caches with their generation counters.  Every operation
    is written in a state monad over that state, with a result that is a value, a [CatalogError] or a panic ([None]);
    [?] is the monad's bind.  The operations that change the catalog hold [ddl_lock] from their first read to their last
    write, so each of them is a single step among the others; [mark_index_dropping] is the exception, its check
    ([mark_dropping_check]) runs before its transition ([mark_dropping_transition]) takes the lock.  The clock
    ([now_micros]) is an argument of the operations that read it.  The engine is any [KvStore]. *)

From stdpp Require Import base list option strings.
From Stdlib Require Import ZArith Lia.
From Stdlib Require Import Strings.Byte.
From S2P Require Import Prelude BTree EngineError RelKey IndexKey RowCodec CatalogRows LsmEngine KvStore.

Module Cat.
Import Rel Row Rows Kv.
Import Lsm(WriteOp, WPut, WDelete, outcome, Returned, Failed, Panicked).

(** ** Requests *)

Record ColumnDef : Type := MkColumnDef {
  cd_name : bytes;
  cd_data_type : Z;
  cd_nullable : bool;
  cd_default_value : option bytes;
  cd_type_params : option bytes
}.

Record NewForeignKey : Type := MkNewForeignKey {
  nf_table_id : Z;
  nf_name : bytes;
  nf_child_ordinals : list Z;
  nf_parent_table_id : Z;
  nf_parent_ordinals : list Z;
  nf_on_delete : FkAction;
  nf_on_update : FkAction
}.

Record NewTableForeignKey : Type := MkNewTableForeignKey {
  ntf_name : bytes;
  ntf_child_ordinals : list Z;
  ntf_parent_table_id : option Z;
  ntf_parent_ordinals : list Z;
  ntf_on_delete : FkAction;
  ntf_on_update : FkAction
}.

Record NewTableCheck : Type := MkNewTableCheck {
  ntc_name : bytes;
  ntc_column_ordinals : list Z;
  ntc_expression : bytes
}.

Definition MAX_CHECK_EXPRESSION_BYTES : Z := 4096.
Definition MAX_INDEXES_PER_TABLE : Z := 64.
Definition MAX_COLUMNS_PER_INDEX : Z := 16.

Inductive CounterKind : Type :=
| CDatabase
| CSchema
| CTable
| CIndex
| CConstraint
| CGrant.

Definition counter_u8 (k : CounterKind) : Z :=
  match k with CDatabase => 1 | CSchema => 2 | CTable => 3 | CIndex => 4 | CConstraint => 5 | CGrant => 6 end.

Definition counter_key (kind : CounterKind) : bytes := catalog_key SYSTEM_TABLE_COUNTERS [z2b (counter_u8 kind)].

(** ** Names and expressions *)

Definition bytes_eqb (a b : bytes) : bool := bool_decide (a = b).

Definition validate_name (name : bytes) (kind : string) : cres unit :=
  if zlen name =? 0 then Err (CInvalidInput (kind +:+ " name must not be empty"))
  else if 255 <? zlen name then Err (CInvalidInput (kind +:+ " name exceeds 255 bytes"))
  else Ok tt.

(** [str::trim] strips the characters of Unicode's [White_Space]: what it leaves is empty iff every character is one. *)
Fixpoint all_whitespace (s : bytes) : bool :=
  match s with
  | [] => true
  | c :: s =>
      if between 0x09 0x0D c || between 0x20 0x20 c then all_whitespace s
      else match s with
      | [] => false
      | d :: s =>
          if between 0xC2 0xC2 c && (between 0x85 0x85 d || between 0xA0 0xA0 d) then all_whitespace s
          else match s with
          | [] => false
          | e :: s =>
              if (between 0xE1 0xE1 c && between 0x9A 0x9A d && between 0x80 0x80 e)
                 || (between 0xE2 0xE2 c && between 0x80 0x80 d
                     && (between 0x80 0x8A e || between 0xA8 0xA9 e || between 0xAF 0xAF e))
                 || (between 0xE2 0xE2 c && between 0x81 0x81 d && between 0x9F 0x9F e)
                 || (between 0xE3 0xE3 c && between 0x80 0x80 d && between 0x80 0x80 e)
              then all_whitespace s else false
          end
      end
  end.

Definition validate_check_expression (expression : bytes) : cres unit :=
  if all_whitespace expression then Err (CInvalidInput "CHECK constraint requires a non-empty expression")
  else if MAX_CHECK_EXPRESSION_BYTES <? zlen expression then Err (CInvalidInput "a CHECK expression may be at most 4096 bytes")
  else Ok tt.

(** ** Foreign-key definitions *)

Record FkShape : Type := MkFkShape {
  sh_table_id : Z;
  sh_name : bytes;
  sh_pk_ordinals : list Z;
  sh_columns : list ColumnRow;
  sh_unique_indexes : list IndexRow
}.

Record FkDefinition : Type := MkFkDefinition {
  fd_child_ordinals : list Z;
  fd_parent_ordinals : list Z;
  fd_on_delete : FkAction;
  fd_on_update : FkAction
}.

Definition zmem (x : Z) (l : list Z) : bool := existsb (Z.eqb x) l.

(** [all] over [HashSet::insert]: no element occurs twice. *)
Fixpoint all_fresh (l seen : list Z) : bool :=
  match l with [] => true | o :: l => negb (zmem o seen) && all_fresh l (o :: seen) end.

(** Equality of two lists as [BTreeSet]s. *)
Definition same_set (a b : list Z) : bool := forallb (fun x => zmem x b) a && forallb (fun x => zmem x a) b.

Definition find_column (ordinal : Z) (columns : list ColumnRow) : option ColumnRow :=
  List.find (fun c => col_ordinal c =? ordinal) columns.

Definition opt_bytes_eqb (a b : option bytes) : bool := bool_decide (a = b).

Fixpoint check_pairs (pairs : list (Z * Z)) (child parent : FkShape) : cres unit :=
  match pairs with
  | [] => Ok tt
  | (c, p) :: pairs =>
      let? cc := ok_or (CInvalidInput "referencing column does not exist") (find_column c (sh_columns child)) in
      let? pc := ok_or (CInvalidInput "referenced column does not exist") (find_column p (sh_columns parent)) in
      if negb (col_data_type cc =? col_data_type pc) || negb (opt_bytes_eqb (col_type_params cc) (col_type_params pc)) then
        Err (CInvalidInput "referencing column and referenced column have different types")
      else check_pairs pairs child parent
  end.

(** [expect("checked above")] is the panic. *)
Fixpoint check_action (action : FkAction) (ordinals : list Z) (child : FkShape) : option (cres unit) :=
  match ordinals with
  | [] => Some (Ok tt)
  | c :: ordinals =>
      cc ← find_column c (sh_columns child);
      match action with
      | SetNull =>
          if negb (col_nullable cc) || zmem c (sh_pk_ordinals child) then
            Some (Err (CInvalidInput "SET NULL needs the column to be nullable and outside the primary key"))
          else check_action action ordinals child
      | SetDefault =>
          if negb (col_nullable cc) && bool_decide (col_default_value cc = None) then
            Some (Err (CInvalidInput "SET DEFAULT needs the column to be nullable or have a DEFAULT"))
          else check_action action ordinals child
      | _ => check_action action ordinals child
      end
  end.

Definition resolve_parent_index (parent_ordinals : list Z) (parent : FkShape) : cres (option Z) :=
  if same_set (sh_pk_ordinals parent) parent_ordinals then Ok None
  else
    match List.find (fun i => same_set (idx_column_ordinals i) parent_ordinals) (sh_unique_indexes parent) with
    | Some i => Ok (Some (idx_index_id i))
    | None => Err (CInvalidInput "the referenced columns are neither the primary key nor covered by a ready UNIQUE index")
    end.

Definition resolve_foreign_key (def : FkDefinition) (child parent : FkShape) : option (cres (option Z)) :=
  let n := zlen (fd_child_ordinals def) in
  if (n =? 0) || negb (n =? zlen (fd_parent_ordinals def)) then
    Some (Err (CInvalidInput "a foreign key needs the same, non-zero number of referencing and referenced columns"))
  else if MAX_COLUMNS_PER_INDEX <? n then Some (Err (CInvalidInput "a foreign key may cover at most 16 columns"))
  else if negb (all_fresh (fd_child_ordinals def) []) then Some (Err (CInvalidInput "a referencing column is listed twice"))
  else if negb (all_fresh (fd_parent_ordinals def) []) then Some (Err (CInvalidInput "a referenced column is listed twice"))
  else
    let! _ := Some (check_pairs (zip (fd_child_ordinals def) (fd_parent_ordinals def)) child parent) in
    let! parent_index_id := Some (resolve_parent_index (fd_parent_ordinals def) parent) in
    let! _ := check_action (fd_on_delete def) (fd_child_ordinals def) child in
    let! _ := check_action (fd_on_update def) (fd_child_ordinals def) child in
    Some (Ok parent_index_id).

(** ** The service *)

Record Service (E : Type) : Type := MkService {
  engine : E;
  fk_cache : option (list ForeignKeyRow);
  fk_generation : Z;
  check_cache : option (list ConstraintRow);
  check_generation : Z
}.
Arguments MkService {E}.
Arguments engine {E}.
Arguments fk_cache {E}.
Arguments fk_generation {E}.
Arguments check_cache {E}.
Arguments check_generation {E}.

Definition service_new {E} (engine : E) : Service E := MkService engine None 0 None 0.

Section Service.
Context {E : Type} `{KvStore E}.

Definition CM (A : Type) : Type := Service E -> Service E * option (cres A).

#[global] Instance cret : MRet CM := fun A a s => (s, Some (Ok a)).
#[global] Instance cbind : MBind CM := fun A B k c s =>
  match c s with
  | (s', Some (Ok a)) => k a s'
  | (s', Some (Err x)) => (s', Some (Err x))
  | (s', None) => (s', None)
  end.

Definition fail {A} (x : CatalogError) : CM A := fun s => (s, Some (Err x)).
Definition liftr {A} (r : cres A) : CM A := fun s => (s, Some r).
Definition liftp {A} (r : option (cres A)) : CM A := fun s => (s, r).
Definition gets {A} (f : Service E -> A) : CM A := fun s => (s, Some (Ok (f s))).
Definition modify (f : Service E -> Service E) : CM unit := fun s => (f s, Some (Ok tt)).

Definition set_engine (e : E) (s : Service E) : Service E :=
  MkService e (fk_cache s) (fk_generation s) (check_cache s) (check_generation s).

(** [impl From<EngineError> for CatalogError]. *)
Definition of_outcome {A} (r : outcome A) : option (cres A) :=
  match r with Returned a => Some (Ok a) | Failed x => Some (Err (CEngine x)) | Panicked => None end.

Definition engine_get (key : bytes) : CM (option bytes) := fun s =>
  let '(e, r) := kv_get key (engine s) in (set_engine e s, of_outcome r).
Definition engine_scan (range : Bound bytes * Bound bytes) : CM (list (result EngineError (bytes * bytes))) := fun s =>
  let '(e, r) := kv_scan range.1 range.2 (engine s) in (set_engine e s, of_outcome r).
Definition write_batch (ops : list WriteOp) : CM Z := fun s =>
  let '(e, r) := kv_write_batch ops (engine s) in (set_engine e s, of_outcome r).

(** *** Identifiers *)

Definition allocate_id (kind : CounterKind) : CM (Z * WriteOp) :=
  let key := counter_key kind in
  stored ← engine_get key;
  current ← match stored with
            | Some raw => if zlen raw =? 4 then mret (le_val raw) else fail (CInvalidInput "corrupt ID counter value")
            | None => mret 0
            end;
  next ← liftr (ok_or (CInvalidInput "ID space exhausted (u32::MAX reached)") (checked_add32 current 1));
  mret (next, WPut key (le32 next)).

(** *** Rows *)

(** [WriteOp::Put { key: catalog_key(..), value: encode_row(..) }]. *)
Definition put_row {K R} `{CatalogRow K R} (r : R) : CM WriteOp :=
  value ← liftp (Ok <$> encode_row (row_version R) (to_fields r));
  mret (WPut (catalog_key (row_table R) (pk_bytes R (row_key r))) value).

Definition delete_row (R : Type) {K} `{CatalogRow K R} (k : K) : WriteOp :=
  WDelete (catalog_key (row_table R) (pk_bytes R k)).

(** [get_database], [get_schema], [get_table] and [get_index] read one row by its key. *)
Definition get_row (R : Type) {K} `{CatalogRow K R} (k : K) : CM (option R) :=
  stored ← engine_get (catalog_key (row_table R) (pk_bytes R k));
  match stored with
  | None => mret None
  | Some value => r ← liftp (parse_value k value); mret (Some r)
  end.

(** The loop of every [list_*]: [row?], the key's and the value's decoding, and a filter. *)
Fixpoint collect_rows {A} (body : bytes -> bytes -> option (cres A)) (keep : A -> bool)
    (rows : list (result EngineError (bytes * bytes))) (out : list A) : option (cres (list A)) :=
  match rows with
  | [] => Some (Ok out)
  | row :: rows =>
      let! '(key, value) := Some (map_err CEngine row) in
      let! a := body key value in
      collect_rows body keep rows (if keep a then out ++ [a] else out)
  end.

Definition parse_row (R : Type) {K} `{CatalogRow K R} (key value : bytes) : option (cres R) :=
  let! k := Some (parse_key R key) in parse_value k value.

Definition scan_rows (R : Type) {K} `{CatalogRow K R} (keep : R -> bool) : CM (list R) :=
  rows ← engine_scan (system_table_range (row_table R));
  liftp (collect_rows (parse_row R) keep rows []).

Definition get_database (database_id : Z) : CM (option DatabaseRow) := get_row DatabaseRow database_id.
Definition list_databases : CM (list DatabaseRow) := scan_rows DatabaseRow (fun _ => true).
Definition get_schema (schema_id : Z) : CM (option SchemaRow) := get_row SchemaRow schema_id.
Definition list_schemas (database_id : Z) : CM (list SchemaRow) :=
  scan_rows SchemaRow (fun s => sch_database_id s =? database_id).
Definition get_table (table_id : Z) : CM (option TableRow) := get_row TableRow table_id.
Definition list_tables (schema_id : Z) : CM (list TableRow) := scan_rows TableRow (fun t => tbl_schema_id t =? schema_id).
Definition get_table_by_name (schema_id : Z) (name : bytes) : CM (option TableRow) :=
  tables ← list_tables schema_id; mret (List.find (fun t => bytes_eqb (tbl_name t) name) tables).
Definition get_index (index_id : Z) : CM (option IndexRow) := get_row IndexRow index_id.
Definition list_indexes (table_id : Z) : CM (list IndexRow) := scan_rows IndexRow (fun i => idx_table_id i =? table_id).
Definition list_indexes_in_state (state : IndexState) : CM (list IndexRow) :=
  scan_rows IndexRow (fun i => bool_decide (idx_state i = state)).
Definition list_constraints (table_id : Z) : CM (list ConstraintRow) :=
  scan_rows ConstraintRow (fun c => con_table_id c =? table_id).
Definition list_grants_for_principal (principal : bytes) : CM (list GrantRow) :=
  scan_rows GrantRow (fun g => bytes_eqb (gr_principal g) principal).

(** [out.sort_by_key(|c| c.ordinal)], a stable sort. *)
Fixpoint insert_by_ordinal (c : ColumnRow) (l : list ColumnRow) : list ColumnRow :=
  match l with
  | [] => [c]
  | d :: l' => if col_ordinal c <? col_ordinal d then c :: l else d :: insert_by_ordinal c l'
  end.
Definition sort_by_ordinal (l : list ColumnRow) : list ColumnRow := fold_left (fun acc c => insert_by_ordinal c acc) l [].

Definition parse_column (table_id : Z) (key value : bytes) : option (cres ColumnRow) :=
  let! ordinal := Some (column_pk_ordinal key) in parse_value (table_id, ordinal) value.

Definition get_columns (table_id : Z) : CM (list ColumnRow) :=
  rows ← engine_scan (system_table_prefix_range SYSTEM_TABLE_COLUMNS (be32 table_id));
  out ← liftp (collect_rows (parse_column table_id) (fun _ => true) rows []);
  mret (sort_by_ordinal out).

(** *** Caches *)

Definition foreign_keys : CM (list ForeignKeyRow) :=
  cached ← gets fk_cache;
  match cached with
  | Some cached => mret cached
  | None =>
      generation ← gets fk_generation;
      loaded ← scan_rows ForeignKeyRow (fun _ => true);
      now ← gets fk_generation;
      (if now =? generation
       then modify (fun s => MkService (engine s) (Some loaded) (fk_generation s) (check_cache s) (check_generation s))
       else mret tt) ;;
      mret loaded
  end.

Definition invalidate_foreign_keys : CM unit :=
  modify (fun s => MkService (engine s) None (wrapping_add64 (fk_generation s) 1) (check_cache s) (check_generation s)).

Definition check_constraints : CM (list ConstraintRow) :=
  cached ← gets check_cache;
  match cached with
  | Some cached => mret cached
  | None =>
      generation ← gets check_generation;
      loaded ← scan_rows ConstraintRow (fun c => bool_decide (con_kind c = KCheck));
      now ← gets check_generation;
      (if now =? generation
       then modify (fun s => MkService (engine s) (fk_cache s) (fk_generation s) (Some loaded) (check_generation s))
       else mret tt) ;;
      mret loaded
  end.

Definition invalidate_checks : CM unit :=
  modify (fun s => MkService (engine s) (fk_cache s) (fk_generation s) None (wrapping_add64 (check_generation s) 1)).

Definition check_constraints_for (table_id : Z) : CM (list ConstraintRow) :=
  l ← check_constraints; mret (List.filter (fun c => con_table_id c =? table_id) l).
Definition list_foreign_keys_for_child (table_id : Z) : CM (list ForeignKeyRow) :=
  l ← foreign_keys; mret (List.filter (fun fk => fk_table_id fk =? table_id) l).
Definition list_foreign_keys_for_parent (table_id : Z) : CM (list ForeignKeyRow) :=
  l ← foreign_keys; mret (List.filter (fun fk => fk_parent_table_id fk =? table_id) l).

(** *** Databases and schemas *)

Definition name_default : bytes := [x64; x65; x66; x61; x75; x6c; x74].
Definition name_public : bytes := [x70; x75; x62; x6c; x69; x63].

(** The scan's first item decides, an error item included. *)
Definition bootstrap (now_database now_schema : Z) : CM unit :=
  rows ← engine_scan (system_table_range SYSTEM_TABLE_DATABASES);
  match rows with
  | _ :: _ => mret tt
  | [] =>
      '(database_id, database_counter_op) ← allocate_id CDatabase;
      '(schema_id, schema_counter_op) ← allocate_id CSchema;
      database_op ← put_row (MkDatabase database_id name_default now_database);
      schema_op ← put_row (MkSchema schema_id database_id name_public now_schema);
      write_batch [database_counter_op; schema_counter_op; database_op; schema_op] ;;
      mret tt
  end.

Definition create_schema (now : Z) (database_id : Z) (name : bytes) : CM Z :=
  liftr (validate_name name "schema") ;;
  database ← get_database database_id;
  match database with
  | None => fail (CNotFound "database")
  | Some _ =>
      schemas ← list_schemas database_id;
      if existsb (fun s => bytes_eqb (sch_name s) name) schemas then fail (CAlreadyExists "schema")
      else
        '(schema_id, counter_op) ← allocate_id CSchema;
        schema_op ← put_row (MkSchema schema_id database_id name now);
        write_batch [counter_op; schema_op] ;;
        mret schema_id
  end.

Definition drop_schema (schema_id : Z) : CM unit :=
  schema ← get_schema schema_id;
  match schema with
  | None => fail (CNotFound "schema")
  | Some _ =>
      tables ← list_tables schema_id;
      match tables with
      | _ :: _ => fail (CInvalidInput "schema still has tables; drop them first")
      | [] => write_batch [delete_row SchemaRow schema_id] ;; mret tt
      end
  end.

(** *** Tables *)

Fixpoint check_pk (pk_ordinals : list Z) (columns : list ColumnDef) : option (cres unit) :=
  match pk_ordinals with
  | [] => Some (Ok tt)
  | ordinal :: pk_ordinals =>
      if zlen columns <=? ordinal then Some (Err (CInvalidInput "pk_ordinals references a column that does not exist"))
      else
        c ← columns !! Z.to_nat ordinal;
        if cd_nullable c then Some (Err (CInvalidInput "primary-key column must not be nullable"))
        else check_pk pk_ordinals columns
  end.

(** [seen.insert(name)] over the columns. *)
Fixpoint fresh_names (names seen : list bytes) : bool :=
  match names with [] => true | n :: names => negb (existsb (bytes_eqb n) seen) && fresh_names names (n :: seen) end.

Definition require_active_table (table_id : Z) : CM TableRow :=
  table ← get_table table_id;
  match table with
  | None => fail (CNotFound "table")
  | Some table => if bool_decide (tbl_state table = TActive) then mret table else fail (CInvalidInput "table is being dropped")
  end.

Definition fk_shape (table : TableRow) : CM FkShape :=
  columns ← get_columns (tbl_table_id table);
  indexes ← list_indexes (tbl_table_id table);
  mret (MkFkShape (tbl_table_id table) (tbl_name table) (tbl_pk_ordinals table) columns
    (List.filter (fun i => bool_decide (idx_kind i = IUnique) && bool_decide (idx_state i = IReady)) indexes)).

Definition new_column (table_id ordinal : Z) (c : ColumnDef) : ColumnRow :=
  MkColumn table_id ordinal (cd_name c) (cd_data_type c) (cd_nullable c) (cd_default_value c) 1 (cd_type_params c) None.

(** The columns with their ordinals ([enumerate], [ordinal as u16]). *)
Definition new_columns (table_id : Z) (columns : list ColumnDef) : list ColumnRow :=
  imap (fun ordinal c => new_column table_id (Z.of_nat ordinal mod 65536) c) columns.

Fixpoint put_rows {K R} `{CatalogRow K R} (rows : list R) (ops : list WriteOp) : CM (list WriteOp) :=
  match rows with
  | [] => mret ops
  | r :: rows => op ← put_row r; put_rows rows (ops ++ [op])
  end.

Definition as_u32 (z : Z) : Z := z mod 2 ^ 32.

Fixpoint table_checks (table_id first_id fk_count column_count i : Z) (checks : list NewTableCheck) (seen : list bytes)
    (ops : list WriteOp) : CM (list bytes * list WriteOp) :=
  match checks with
  | [] => mret (seen, ops)
  | check :: checks =>
      liftr (validate_name (ntc_name check) "constraint") ;;
      liftr (validate_check_expression (ntc_expression check)) ;;
      if existsb (bytes_eqb (ntc_name check)) seen then fail (CAlreadyExists "constraint")
      else if existsb (fun o => column_count <=? o) (ntc_column_ordinals check) then
        fail (CInvalidInput "a CHECK constraint names a column that does not exist")
      else
        op ← put_row (MkConstraint (as_u32 (first_id + as_u32 (fk_count + i))) table_id (ntc_name check) KCheck
               (ntc_column_ordinals check) (Some (ntc_expression check)) 1);
        table_checks table_id first_id fk_count column_count (i + 1) checks (ntc_name check :: seen) (ops ++ [op])
  end.

Fixpoint table_fks (now table_id first_id i : Z) (child_shape : FkShape) (fks : list NewTableForeignKey) (seen : list bytes)
    (ops : list WriteOp) : CM (list WriteOp) :=
  match fks with
  | [] => mret ops
  | fk :: fks =>
      liftr (validate_name (ntf_name fk) "constraint") ;;
      if existsb (bytes_eqb (ntf_name fk)) seen then fail (CAlreadyExists "constraint")
      else
        parent_shape ← match ntf_parent_table_id fk with
                       | None => mret child_shape
                       | Some id => parent ← require_active_table id; fk_shape parent
                       end;
        parent_index_id ← liftp (resolve_foreign_key
          (MkFkDefinition (ntf_child_ordinals fk) (ntf_parent_ordinals fk) (ntf_on_delete fk) (ntf_on_update fk))
          child_shape parent_shape);
        op ← put_row (MkForeignKey (as_u32 (first_id + as_u32 i)) table_id (ntf_name fk) (ntf_child_ordinals fk)
               (default table_id (ntf_parent_table_id fk)) (ntf_parent_ordinals fk) parent_index_id (ntf_on_delete fk)
               (ntf_on_update fk) now);
        table_fks now table_id first_id (i + 1) child_shape fks (ntf_name fk :: seen) (ops ++ [op])
  end.

(** Foreign keys and CHECK constraints take their ids from one counter advance. *)
Definition table_constraints (now table_id : Z) (name : bytes) (columns : list ColumnDef) (pk_ordinals : list Z)
    (foreign_keys : list NewTableForeignKey) (checks : list NewTableCheck) (ops : list WriteOp) : CM (list WriteOp) :=
  match foreign_keys, checks with
  | [], [] => mret ops
  | _, _ =>
      let child_shape := MkFkShape table_id name pk_ordinals (new_columns table_id columns) [] in
      '(first_id, _) ← allocate_id CConstraint;
      last_id ← liftr (ok_or (CInvalidInput "Constraint ID space exhausted (u32::MAX reached)")
        (checked_add32 first_id (as_u32 (as_u32 (zlen foreign_keys + zlen checks) - 1))));
      '(seen_names, ops) ← table_checks table_id first_id (zlen foreign_keys) (zlen columns) 0 checks [] ops;
      ops ← table_fks now table_id first_id 0 child_shape foreign_keys seen_names ops;
      mret (ops ++ [WPut (counter_key CConstraint) (le32 last_id)])
  end.

Definition name_pkey (name : bytes) : bytes := name ++ [x5f; x70; x6b; x65; x79].

Definition validate_table (name : bytes) (columns : list ColumnDef) (pk_ordinals : list Z) : CM unit :=
  liftr (validate_name name "table") ;;
  if zlen columns =? 0 then fail (CInvalidInput "a table must have at least one column")
  else if 65535 <? zlen columns then fail (CInvalidInput "too many columns")
  else if zlen pk_ordinals =? 0 then fail (CInvalidInput "a table must have a primary key")
  else
    liftp (check_pk pk_ordinals columns) ;;
    if fresh_names (map cd_name columns) [] then mret tt else fail (CInvalidInput "duplicate column name").

Definition create_table_with_foreign_keys (now schema_id : Z) (name : bytes) (columns : list ColumnDef)
    (pk_ordinals : list Z) (foreign_keys : list NewTableForeignKey) (checks : list NewTableCheck) : CM Z :=
  validate_table name columns pk_ordinals ;;
  schema ← get_schema schema_id;
  match schema with
  | None => fail (CNotFound "schema")
  | Some _ =>
      tables ← list_tables schema_id;
      if existsb (fun t => bytes_eqb (tbl_name t) name) tables then fail (CAlreadyExists "table")
      else
        '(table_id, table_counter_op) ← allocate_id CTable;
        '(index_id, index_counter_op) ← allocate_id CIndex;
        table_op ← put_row (MkTable table_id schema_id name pk_ordinals 1 TActive now);
        index_op ← put_row (MkIndex index_id table_id (name_pkey name) IPrimary pk_ordinals IReady now);
        ops ← put_rows (new_columns table_id columns) [table_counter_op; index_counter_op; table_op; index_op];
        ops ← table_constraints now table_id name columns pk_ordinals foreign_keys checks ops;
        write_batch ops ;;
        (match foreign_keys with [] => mret tt | _ => invalidate_foreign_keys end) ;;
        (match checks with [] => mret tt | _ => invalidate_checks end) ;;
        mret table_id
  end.

Definition create_table (now schema_id : Z) (name : bytes) (columns : list ColumnDef) (pk_ordinals : list Z) : CM Z :=
  create_table_with_foreign_keys now schema_id name columns pk_ordinals [] [].

Definition drop_table (table_id : Z) : CM unit :=
  table ← get_table table_id;
  match table with
  | None => fail (CNotFound "table")
  | Some _ =>
      fks ← foreign_keys;
      if existsb (fun fk => (fk_parent_table_id fk =? table_id) && negb (fk_table_id fk =? table_id)) fks then
        fail (CInvalidInput "table is referenced by a foreign key of another table; drop that constraint first")
      else
        let own := List.filter (fun fk => fk_table_id fk =? table_id) fks in
        columns ← get_columns table_id;
        indexes ← list_indexes table_id;
        constraints ← list_constraints table_id;
        checks ← check_constraints;
        let owns_checks := existsb (fun c => con_table_id c =? table_id) checks in
        write_batch ([delete_row TableRow table_id] ++ map (fun fk => delete_row ForeignKeyRow (fk_fk_id fk)) own
          ++ map (fun c => delete_row ColumnRow (table_id, col_ordinal c)) columns
          ++ map (fun i => delete_row IndexRow (idx_index_id i)) indexes
          ++ map (fun c => delete_row ConstraintRow (con_constraint_id c)) constraints) ;;
        (match own with [] => mret tt | _ => invalidate_foreign_keys end) ;;
        (if owns_checks : bool then invalidate_checks else mret tt)
  end.

(** *** Indexes *)

Definition create_index (now table_id : Z) (name : bytes) (kind : IndexKind) (column_ordinals : list Z) : CM Z :=
  liftr (validate_name name "index") ;;
  if bool_decide (kind = IPrimary) then fail (CInvalidInput "PRIMARY-kind indexes are created only by create_table")
  else if zlen column_ordinals =? 0 then fail (CInvalidInput "an index must cover at least one column")
  else if MAX_COLUMNS_PER_INDEX <? zlen column_ordinals then fail (CInvalidInput "an index may cover at most 16 columns")
  else
    table ← get_table table_id;
    match table with
    | None => fail (CNotFound "table")
    | Some table =>
        columns ← get_columns (tbl_table_id table);
        if existsb (fun o => zlen columns <=? o) column_ordinals then fail (CInvalidInput "column ordinal does not exist on table")
        else
          existing_indexes ← list_indexes table_id;
          if existsb (fun i => bytes_eqb (idx_name i) name) existing_indexes then fail (CAlreadyExists "index")
          else if MAX_INDEXES_PER_TABLE <=? zlen existing_indexes then
            fail (CInvalidInput "table already has 64 indexes (the maximum)")
          else
            '(index_id, counter_op) ← allocate_id CIndex;
            index_op ← put_row (MkIndex index_id table_id name kind column_ordinals IBuilding now);
            write_batch [counter_op; index_op] ;;
            mret index_id
    end.

Definition refuse_if_foreign_key_uses_index (index_id : Z) : CM unit :=
  fks ← foreign_keys;
  if existsb (fun fk => bool_decide (fk_parent_index_id fk = Some index_id)) fks then
    fail (CInvalidInput "index is the referenced key of a foreign key; drop that constraint first")
  else mret tt.

Definition require_index (index_id : Z) : CM IndexRow :=
  index ← get_index index_id;
  match index with None => fail (CNotFound "index") | Some index => mret index end.

Definition drop_index (index_id : Z) : CM unit :=
  index ← require_index index_id;
  if bool_decide (idx_kind index = IPrimary) then
    fail (CInvalidInput "the PRIMARY index cannot be dropped independently of its table")
  else
    refuse_if_foreign_key_uses_index index_id ;;
    write_batch [delete_row IndexRow index_id] ;; mret tt.

Definition with_state (i : IndexRow) (to : IndexState) : IndexRow :=
  MkIndex (idx_index_id i) (idx_table_id i) (idx_name i) (idx_kind i) (idx_column_ordinals i) to (idx_created_at i).

Definition transition_index_state (index_id : Z) (allowed_from : list IndexState) (to : IndexState) : CM IndexRow :=
  row ← require_index index_id;
  if existsb (fun st => bool_decide (st = idx_state row)) allowed_from then
    let row := with_state row to in
    op ← put_row row;
    write_batch [op] ;;
    mret row
  else fail (CInvalidInput "index cannot transition from its state").

Definition mark_index_ready (index_id : Z) : CM unit := transition_index_state index_id [IBuilding] IReady ;; mret tt.
Definition mark_index_failed (index_id : Z) : CM unit := transition_index_state index_id [IBuilding] IFailed ;; mret tt.

(** [mark_index_dropping] looks at the index and at the foreign keys without [ddl_lock]; only the transition takes it. *)
Definition mark_dropping_check (index_id : Z) : CM unit :=
  row ← require_index index_id;
  if bool_decide (idx_kind row = IPrimary) then
    fail (CInvalidInput "the PRIMARY index cannot be dropped independently of its table")
  else refuse_if_foreign_key_uses_index index_id.

Definition mark_dropping_transition (index_id : Z) : CM unit :=
  transition_index_state index_id [IBuilding; IReady; IFailed] IDropping ;; mret tt.

Definition mark_index_dropping (index_id : Z) : CM unit :=
  mark_dropping_check index_id ;;
  mark_dropping_transition index_id.

Definition remove_index_row (index_id : Z) : CM unit :=
  row ← require_index index_id;
  if bool_decide (idx_state row = IDropping) then write_batch [delete_row IndexRow index_id] ;; mret tt
  else fail (CInvalidInput "index is not Dropping before final removal").

(** *** Constraints *)

Definition create_constraint (table_id : Z) (name : bytes) (kind : ConstraintKind) (column_ordinals : list Z)
    (check_expression : option bytes) : CM Z :=
  liftr (validate_name name "constraint") ;;
  table ← get_table table_id;
  match table with
  | None => fail (CNotFound "table")
  | Some _ =>
      if bool_decide (kind = KCheck) && bytes_eqb (default [] check_expression) [] then
        fail (CInvalidInput "CHECK constraint requires a non-empty expression")
      else
        '(constraint_id, counter_op) ← allocate_id CConstraint;
        op ← put_row (MkConstraint constraint_id table_id name kind column_ordinals check_expression 1);
        write_batch [counter_op; op] ;;
        mret constraint_id
  end.

(** *** ALTER TABLE *)

Definition with_version (t : TableRow) (v : Z) : TableRow :=
  MkTable (tbl_table_id t) (tbl_schema_id t) (tbl_name t) (tbl_pk_ordinals t) v (tbl_state t) (tbl_created_at t).

(** [schema_version.saturating_add(1)]. *)
Definition bump_version (t : TableRow) : TableRow := with_version t (Z.min (tbl_schema_version t + 1) u32_max).

Definition alter_table_row_op (table : TableRow) : CM (TableRow * WriteOp) :=
  let next := bump_version table in
  op ← put_row next; mret (next, op).

Definition add_column (table_id : Z) (column : ColumnDef) (backfill_value : option bytes) : CM Z :=
  liftr (validate_name (cd_name column) "column") ;;
  table ← require_active_table table_id;
  columns ← get_columns table_id;
  if existsb (fun c => bytes_eqb (col_name c) (cd_name column)) columns then fail (CAlreadyExists "column")
  else if 65535 <=? zlen columns then fail (CInvalidInput "too many columns")
  else
    let ordinal := zlen columns mod 65536 in
    '(next_table, table_op) ← alter_table_row_op table;
    column_op ← put_row (MkColumn table_id ordinal (cd_name column) (cd_data_type column) (cd_nullable column)
                  (cd_default_value column) (tbl_schema_version next_table) (cd_type_params column) backfill_value);
    write_batch [table_op; column_op] ;;
    mret ordinal.

Definition column_for_alter (table_id ordinal : Z) : CM ColumnRow :=
  columns ← get_columns table_id;
  match find_column ordinal columns with Some c => mret c | None => fail (CNotFound "column") end.

Definition with_name (c : ColumnRow) (name : bytes) : ColumnRow :=
  MkColumn (col_table_id c) (col_ordinal c) name (col_data_type c) (col_nullable c) (col_default_value c)
    (col_added_in_schema_version c) (col_type_params c) (col_backfill_value c).
Definition with_default (c : ColumnRow) (v : option bytes) : ColumnRow :=
  MkColumn (col_table_id c) (col_ordinal c) (col_name c) (col_data_type c) (col_nullable c) v
    (col_added_in_schema_version c) (col_type_params c) (col_backfill_value c).
Definition with_nullable (c : ColumnRow) (b : bool) : ColumnRow :=
  MkColumn (col_table_id c) (col_ordinal c) (col_name c) (col_data_type c) b (col_default_value c)
    (col_added_in_schema_version c) (col_type_params c) (col_backfill_value c).

(** The batch every column change writes: the bumped table row and the new column row. *)
Definition write_column (table : TableRow) (column : ColumnRow) : CM unit :=
  '(_, table_op) ← alter_table_row_op table;
  column_op ← put_row column;
  write_batch [table_op; column_op] ;;
  mret tt.

Definition rename_column (table_id ordinal : Z) (new_name : bytes) : CM unit :=
  liftr (validate_name new_name "column") ;;
  table ← require_active_table table_id;
  column ← column_for_alter table_id ordinal;
  columns ← get_columns table_id;
  if existsb (fun c => bytes_eqb (col_name c) new_name && negb (col_ordinal c =? ordinal)) columns then
    fail (CAlreadyExists "column")
  else
    checks ← check_constraints;
    if existsb (fun c => (con_table_id c =? table_id) && zmem ordinal (con_column_ordinals c)) checks then
      fail (CInvalidInput "column is read by a CHECK constraint; drop the constraint, rename the column, and add it again")
    else write_column table (with_name column new_name).

Definition set_column_default (table_id ordinal : Z) (default_value : option bytes) : CM unit :=
  table ← require_active_table table_id;
  column ← column_for_alter table_id ordinal;
  write_column table (with_default column default_value).

Definition set_column_nullable (table_id ordinal : Z) (nullable : bool) : CM unit :=
  table ← require_active_table table_id;
  column ← column_for_alter table_id ordinal;
  if nullable && zmem ordinal (tbl_pk_ordinals table) then
    fail (CInvalidInput "column is part of the primary key and cannot be made nullable")
  else
    (if nullable then mret tt
     else
       fks ← foreign_keys;
       if existsb (fun fk => (fk_table_id fk =? table_id) && zmem ordinal (fk_child_ordinals fk)
                             && (bool_decide (fk_on_delete fk = SetNull) || bool_decide (fk_on_update fk = SetNull))) fks
       then fail (CInvalidInput "column cannot be NOT NULL: a foreign key sets it to NULL")
       else mret tt) ;;
    write_column table (with_nullable column nullable).

(** *** Foreign keys *)

Definition check_foreign_key (new : NewForeignKey) : CM (option Z) :=
  liftr (validate_name (nf_name new) "constraint") ;;
  child ← require_active_table (nf_table_id new);
  parent ← require_active_table (nf_parent_table_id new);
  child_shape ← fk_shape child;
  parent_shape ← (if tbl_table_id parent =? tbl_table_id child then mret child_shape else fk_shape parent);
  resolved ← liftp (resolve_foreign_key
    (MkFkDefinition (nf_child_ordinals new) (nf_parent_ordinals new) (nf_on_delete new) (nf_on_update new))
    child_shape parent_shape);
  own ← list_foreign_keys_for_child (tbl_table_id child);
  taken ← (if existsb (fun f => bytes_eqb (fk_name f) (nf_name new)) own then mret true
           else checks ← check_constraints;
                mret (existsb (fun c => (con_table_id c =? tbl_table_id child) && bytes_eqb (con_name c) (nf_name new)) checks));
  if taken : bool then fail (CAlreadyExists "constraint") else mret resolved.

Definition create_foreign_key (now : Z) (new : NewForeignKey) : CM Z :=
  parent_index_id ← check_foreign_key new;
  child ← require_active_table (nf_table_id new);
  '(fk_id, counter_op) ← allocate_id CConstraint;
  '(_, child_op) ← alter_table_row_op child;
  fk_op ← put_row (MkForeignKey fk_id (tbl_table_id child) (nf_name new) (nf_child_ordinals new) (nf_parent_table_id new)
            (nf_parent_ordinals new) parent_index_id (nf_on_delete new) (nf_on_update new) now);
  write_batch [counter_op; child_op; fk_op] ;;
  invalidate_foreign_keys ;;
  mret fk_id.

Definition bump_op_if_present (table_id : Z) (ops : list WriteOp) : CM (list WriteOp) :=
  table ← get_table table_id;
  match table with
  | Some table => '(_, op) ← alter_table_row_op table; mret (ops ++ [op])
  | None => mret ops
  end.

Definition drop_foreign_key (fk_id : Z) : CM unit :=
  fks ← foreign_keys;
  match List.find (fun f => fk_fk_id f =? fk_id) fks with
  | None => fail (CNotFound "foreign key")
  | Some fk =>
      ops ← bump_op_if_present (fk_table_id fk) [delete_row ForeignKeyRow fk_id];
      write_batch ops ;;
      invalidate_foreign_keys
  end.

(** *** CHECK constraints *)

Definition create_check_constraint (table_id : Z) (name : bytes) (column_ordinals : list Z) (expression : bytes) : CM Z :=
  liftr (validate_name name "constraint") ;;
  liftr (validate_check_expression expression) ;;
  table ← require_active_table table_id;
  columns ← get_columns table_id;
  if existsb (fun o => negb (existsb (fun c => col_ordinal c =? o) columns)) column_ordinals then
    fail (CInvalidInput "a CHECK constraint names a column that does not exist")
  else
    checks ← check_constraints;
    taken ← (if existsb (fun c => (con_table_id c =? table_id) && bytes_eqb (con_name c) name) checks then mret true
             else own ← list_foreign_keys_for_child table_id; mret (existsb (fun f => bytes_eqb (fk_name f) name) own));
    if taken : bool then fail (CAlreadyExists "constraint")
    else
      '(constraint_id, counter_op) ← allocate_id CConstraint;
      '(next_table, table_op) ← alter_table_row_op table;
      op ← put_row (MkConstraint constraint_id table_id name KCheck column_ordinals (Some expression)
             (tbl_schema_version next_table));
      write_batch [counter_op; table_op; op] ;;
      invalidate_checks ;;
      mret constraint_id.

Definition drop_check_constraint (constraint_id : Z) : CM unit :=
  checks ← check_constraints;
  match List.find (fun c => con_constraint_id c =? constraint_id) checks with
  | None => fail (CNotFound "constraint")
  | Some constraint =>
      ops ← bump_op_if_present (con_table_id constraint) [delete_row ConstraintRow constraint_id];
      write_batch ops ;;
      invalidate_checks
  end.

(** *** Grants *)

Definition same_grant (object_kind : ObjectKind) (object_id : Z) (privilege : Privilege) (g : GrantRow) : bool :=
  bool_decide (gr_object_kind g = object_kind) && (gr_object_id g =? object_id) && bool_decide (gr_privilege g = privilege).

Definition grant (now : Z) (principal : bytes) (object_kind : ObjectKind) (object_id : Z) (privilege : Privilege) : CM Z :=
  if zlen principal =? 0 then fail (CInvalidInput "principal must not be empty")
  else
    grants ← list_grants_for_principal principal;
    if existsb (same_grant object_kind object_id privilege) grants then fail (CAlreadyExists "grant")
    else
      '(grant_id, counter_op) ← allocate_id CGrant;
      op ← put_row (MkGrant grant_id principal object_kind object_id privilege now);
      write_batch [counter_op; op] ;;
      mret grant_id.

Definition revoke (principal : bytes) (object_kind : ObjectKind) (object_id : Z) (privilege : Privilege) : CM Z :=
  grants ← list_grants_for_principal principal;
  let matching := map gr_grant_id (List.filter (same_grant object_kind object_id privilege) grants) in
  match matching with
  | [] => mret 0
  | _ => write_batch (map (delete_row GrantRow) matching) ;; mret (zlen matching)
  end.

End Service.

End Cat.
