(* ===== verification/CatalogRep.v ===== *)
(** * The catalog as records, and its representation in the engine's map

    [Catalog] is the catalog a reader has in mind: the counters and one table of records per system table, each sorted by
    its key.  [CatOp] is one change of it.  [cat_rep m c] says that the engine's map [m] holds exactly [c] in the catalog
    namespace: the part of [m] in each system table's range is the encoding of that table's rows.  The file proves that
    reading a row, scanning a table and applying an encoded change do on the map what they do on the records. *)

From stdpp Require Import base list option strings.
From Stdlib Require Import ZArith Lia.
From Stdlib Require Import Strings.Byte.
From S2P Require Import Prelude BTree EngineError RelKey IndexKey RowCodec CatalogRows LsmEngine KvStore CatalogService.

Module Rep.
Import Rel Row Rows Kv Cat.
Import Lsm(WriteOp, WPut, WDelete).

(** ** Ranges of an ordered map *)

Section Ranges.
Context {K V : Type} `{OrdLaws K}.
Implicit Types (m : list (K * V)).

Lemma bt_get_filter (f : K -> bool) k m : f k = true -> bt_get k (List.filter (fun p => f p.1) m) = bt_get k m.
Proof.
  intros Hf. induction m as [|[k' v'] m IH]; simpl; [done|]. destruct (f k') eqn:E; simpl.
  - by destruct (cmp k k').
  - destruct (cmp k k') eqn:Ec; try done. apply cmp_eq in Ec as ->. congruence.
Qed.

Lemma filter_insert_in (f : K -> bool) k v m :
  f k = true -> bt_sorted m ->
  List.filter (fun p => f p.1) (bt_insert k v m) = bt_insert k v (List.filter (fun p => f p.1) m).
Proof.
  intros Hf Hs. induction Hs as [|[k' v'] m Hm IH Hall]; simpl; [by rewrite Hf|].
  destruct (cmp k k') eqn:Ec; simpl.
  - apply cmp_eq in Ec as ->. rewrite Hf. simpl. by rewrite cmp_refl.
  - rewrite Hf. destruct (f k'); simpl; [by rewrite Ec|].
    assert (forall q, In q (List.filter (fun p => f p.1) m) -> cmp k q.1 = Lt) as Hlt.
    { intros q [Hq _]%filter_In. rewrite List.Forall_forall in Hall. apply (cmp_lt_trans _ k'); [done|]. by apply Hall. }
    destruct (List.filter _ m) as [|[k2 v2] l]; [done|]. pose proof (Hlt (k2, v2) (or_introl eq_refl)) as H2. simpl in *. by rewrite H2.
  - destruct (f k'); simpl; [rewrite Ec|]; by rewrite IH.
Qed.

Lemma filter_insert_out (f : K -> bool) k v m :
  f k = false -> List.filter (fun p => f p.1) (bt_insert k v m) = List.filter (fun p => f p.1) m.
Proof.
  intros Hf. induction m as [|[k' v'] m IH]; simpl; [by rewrite Hf|]. destruct (cmp k k') eqn:Ec; simpl.
  - apply cmp_eq in Ec as ->. by rewrite Hf.
  - by rewrite Hf.
  - by rewrite IH.
Qed.

Lemma filter_remove_in (f : K -> bool) k m :
  f k = true -> List.filter (fun p => f p.1) (bt_remove k m) = bt_remove k (List.filter (fun p => f p.1) m).
Proof.
  intros Hf. induction m as [|[k' v'] m IH]; simpl; [done|]. destruct (cmp k k') eqn:Ec; simpl.
  - apply cmp_eq in Ec as ->. rewrite Hf. simpl. by rewrite cmp_refl.
  - destruct (f k'); simpl; [by rewrite Ec, IH|done].
  - destruct (f k'); simpl; [by rewrite Ec, IH|done].
Qed.

Lemma filter_remove_out (f : K -> bool) k m :
  f k = false -> List.filter (fun p => f p.1) (bt_remove k m) = List.filter (fun p => f p.1) m.
Proof.
  intros Hf. induction m as [|[k' v'] m IH]; simpl; [done|]. destruct (cmp k k') eqn:Ec; simpl.
  - apply cmp_eq in Ec as ->. by rewrite Hf.
  - by rewrite IH.
  - by rewrite IH.
Qed.
End Ranges.

(** An order embedding of keys carries the map operations over. *)
Section Embedding.
Context {K V K' V' : Type} `{OrdLaws K} `{OrdLaws K'} (fk : K -> K') (fv : V -> V') (ok : K -> Prop).
Hypothesis Hcmp : forall a b, ok a -> ok b -> cmp (fk a) (fk b) = cmp a b.
Let f (p : K * V) : K' * V' := (fk p.1, fv p.2).

Lemma bt_get_map k m : ok k -> Forall (fun p => ok p.1) m -> bt_get (fk k) (map f m) = fv <$> bt_get k m.
Proof.
  intros Hk. induction 1 as [|[k' v'] m Hk' Hm IH]; simpl; [done|]. rewrite Hcmp by done. by destruct (cmp k k').
Qed.

Lemma bt_insert_map k v m : ok k -> Forall (fun p => ok p.1) m -> bt_insert (fk k) (fv v) (map f m) = map f (bt_insert k v m).
Proof.
  intros Hk. induction 1 as [|[k' v'] m Hk' Hm IH]; simpl; [done|]. rewrite Hcmp by done.
  destruct (cmp k k'); simpl; [done|done|by rewrite IH].
Qed.

Lemma bt_remove_map k m : ok k -> Forall (fun p => ok p.1) m -> bt_remove (fk k) (map f m) = map f (bt_remove k m).
Proof.
  intros Hk. induction 1 as [|[k' v'] m Hk' Hm IH]; simpl; [done|]. rewrite Hcmp by done.
  destruct (cmp k k'); simpl; [done|by rewrite IH..].
Qed.
End Embedding.

(** ** The catalog *)

Definition rows_of {K R} (t : list (K * R)) : list R := map snd t.

Record Catalog : Type := MkCatalog {
  c_counters : CounterKind -> Z;
  c_databases : list (Z * DatabaseRow);
  c_schemas : list (Z * SchemaRow);
  c_tables : list (Z * TableRow);
  c_columns : list ((Z * Z) * ColumnRow);
  c_indexes : list (Z * IndexRow);
  c_constraints : list (Z * ConstraintRow);
  c_fks : list (Z * ForeignKeyRow);
  c_grants : list (Z * GrantRow)
}.

Definition catalog_empty : Catalog := MkCatalog (fun _ => 0) [] [] [] [] [] [] [] [].

Inductive CatOp : Type :=
| SetCounter (kind : CounterKind) (n : Z)
| PutDatabase (r : DatabaseRow)
| PutSchema (r : SchemaRow)
| DelSchema (id : Z)
| PutTable (r : TableRow)
| DelTable (id : Z)
| PutColumn (r : ColumnRow)
| DelColumn (k : Z * Z)
| PutIndex (r : IndexRow)
| DelIndex (id : Z)
| PutConstraint (r : ConstraintRow)
| DelConstraint (id : Z)
| PutFk (r : ForeignKeyRow)
| DelFk (id : Z)
| PutGrant (r : GrantRow)
| DelGrant (id : Z).

#[global] Instance counter_kind_eq_dec : EqDecision CounterKind.
Proof. solve_decision. Defined.

Definition set_counter (c : CounterKind -> Z) (kind : CounterKind) (n : Z) : CounterKind -> Z :=
  fun k => if decide (k = kind) then n else c k.

Definition apply_cat (c : Catalog) (op : CatOp) : Catalog :=
  let 'MkCatalog cs ds ss ts cols idx cns fks gs := c in
  match op with
  | SetCounter kind n => MkCatalog (set_counter cs kind n) ds ss ts cols idx cns fks gs
  | PutDatabase r => MkCatalog cs (bt_insert (row_key r) r ds) ss ts cols idx cns fks gs
  | PutSchema r => MkCatalog cs ds (bt_insert (row_key r) r ss) ts cols idx cns fks gs
  | DelSchema id => MkCatalog cs ds (bt_remove id ss) ts cols idx cns fks gs
  | PutTable r => MkCatalog cs ds ss (bt_insert (row_key r) r ts) cols idx cns fks gs
  | DelTable id => MkCatalog cs ds ss (bt_remove id ts) cols idx cns fks gs
  | PutColumn r => MkCatalog cs ds ss ts (bt_insert (row_key r) r cols) idx cns fks gs
  | DelColumn k => MkCatalog cs ds ss ts (bt_remove k cols) idx cns fks gs
  | PutIndex r => MkCatalog cs ds ss ts cols (bt_insert (row_key r) r idx) cns fks gs
  | DelIndex id => MkCatalog cs ds ss ts cols (bt_remove id idx) cns fks gs
  | PutConstraint r => MkCatalog cs ds ss ts cols idx (bt_insert (row_key r) r cns) fks gs
  | DelConstraint id => MkCatalog cs ds ss ts cols idx (bt_remove id cns) fks gs
  | PutFk r => MkCatalog cs ds ss ts cols idx cns (bt_insert (row_key r) r fks) gs
  | DelFk id => MkCatalog cs ds ss ts cols idx cns (bt_remove id fks) gs
  | PutGrant r => MkCatalog cs ds ss ts cols idx cns fks (bt_insert (row_key r) r gs)
  | DelGrant id => MkCatalog cs ds ss ts cols idx cns fks (bt_remove id gs)
  end.

Definition apply_cats (ops : list CatOp) (c : Catalog) : Catalog := fold_left apply_cat ops c.

(** ** Encodings *)

Definition row_value {K R} `{CatalogRow K R} (r : R) : bytes := default [] (encode_row (row_version R) (to_fields r)).
Definition row_physical_key (R : Type) {K} `{CatalogRow K R} (k : K) : bytes := catalog_key (row_table R) (pk_bytes R k).

Definition put_bytes {K R} `{CatalogRow K R} (r : R) : WriteOp := WPut (row_physical_key R (row_key r)) (row_value r).

Definition op_bytes (op : CatOp) : WriteOp :=
  match op with
  | SetCounter kind n => WPut (counter_key kind) (le32 n)
  | PutDatabase r => put_bytes r
  | PutSchema r => put_bytes r
  | DelSchema id => delete_row SchemaRow id
  | PutTable r => put_bytes r
  | DelTable id => delete_row TableRow id
  | PutColumn r => put_bytes r
  | DelColumn k => delete_row ColumnRow k
  | PutIndex r => put_bytes r
  | DelIndex id => delete_row IndexRow id
  | PutConstraint r => put_bytes r
  | DelConstraint id => delete_row ConstraintRow id
  | PutFk r => put_bytes r
  | DelFk id => delete_row ForeignKeyRow id
  | PutGrant r => put_bytes r
  | DelGrant id => delete_row GrantRow id
  end.

Definition op_ok (op : CatOp) : Prop :=
  match op with
  | SetCounter _ n => is_u32 n
  | PutDatabase r => row_ok r
  | PutSchema r => row_ok r
  | PutTable r => row_ok r
  | PutColumn r => row_ok r
  | PutIndex r => row_ok r
  | PutConstraint r => row_ok r
  | PutFk r => row_ok r
  | PutGrant r => row_ok r
  | DelColumn k => key_ok ColumnRow k
  | DelSchema id | DelTable id | DelIndex id | DelConstraint id | DelFk id | DelGrant id => is_u32 id
  end.

Definition enc_row {K R} `{CatalogRow K R} (p : K * R) : bytes * bytes := (row_physical_key R p.1, row_value p.2).

Definition rows_ok {K R} `{CatalogRow K R} (rows : list (K * R)) : Prop :=
  bt_sorted rows /\ Forall (fun p => p.1 = row_key p.2 /\ row_ok p.2) rows.

(** Sorted, every row at its own key. *)
Definition keyed {K R} `{CatalogRow K R} (rows : list (K * R)) : Prop :=
  bt_sorted rows /\ Forall (fun p => p.1 = row_key p.2) rows.

Lemma rows_ok_keyed {K R} `{CatalogRow K R} (rows : list (K * R)) : rows_ok rows -> keyed rows.
Proof. intros [Hs Hr]. split; [done|]. eapply Forall_impl; [exact Hr|]. by intros p []. Qed.

Definition table_rep {K R} `{CatalogRow K R} (m : kv_map) (rows : list (K * R)) : Prop :=
  rows_ok rows /\
  kv_range (system_table_range (row_table R)).1 (system_table_range (row_table R)).2 m = map enc_row rows.

Definition counters_rep (m : kv_map) (c : CounterKind -> Z) : Prop :=
  forall kind, is_u32 (c kind) /\
    match bt_get (counter_key kind) m with Some raw => raw = le32 (c kind) | None => c kind = 0 end.

Record cat_rep (m : kv_map) (c : Catalog) : Prop := {
  rep_sorted : bt_sorted m;
  rep_counters : counters_rep m (c_counters c);
  rep_databases : table_rep m (c_databases c);
  rep_schemas : table_rep m (c_schemas c);
  rep_tables : table_rep m (c_tables c);
  rep_columns : table_rep m (c_columns c);
  rep_indexes : table_rep m (c_indexes c);
  rep_constraints : table_rep m (c_constraints c);
  rep_fks : table_rep m (c_fks c);
  rep_grants : table_rep m (c_grants c)
}.

(** ** One table *)

Definition in_table (t : Z) (k : bytes) : bool := above (system_table_range t).1 k && below (system_table_range t).2 k.

Lemma kv_range_table t m :
  kv_range (system_table_range t).1 (system_table_range t).2 m = List.filter (fun p => in_table t p.1) m.
Proof. done. Qed.

Lemma key_in_table t t' pk : is_u32 t -> 0 <= t' < u32_max -> in_table t' (catalog_key t pk) = (t =? t').
Proof.
  intros Ht Ht'. unfold in_table. rewrite table_upper by (unfold_ints; lia).
  replace (above (system_table_range t').1 (catalog_key t pk)) with (t' <=? t).
  - destruct (Z.leb_spec t' t), (Z.leb_spec t t'), (Z.eqb_spec t t'); simpl; try done; lia.
  - unfold system_table_range, checked_add32. rewrite (proj2 (Z.leb_le (t' + 1) u32_max)) by (unfold_ints; lia). cbn [fst above].
    rewrite leb_negb_ltb. unfold ltb. rewrite catalog_key_cmp by (unfold_ints; lia).
    destruct (Z.compare_spec t t'), (Z.leb_spec t' t); simpl; try done; try lia. by destruct pk.
Qed.

Section OneTable.
Context {K R : Type} `{CatalogRow K R, !OrdLaws K, !CatalogRowLaws K R}.
Implicit Types (rows : list (K * R)).

Lemma rows_keys_ok rows : rows_ok rows -> Forall (fun p => key_ok R p.1) rows.
Proof. intros [_ Hr]. eapply Forall_impl; [exact Hr|]. intros [k r] [-> Hok]. by apply row_key_ok. Qed.

Lemma physical_key_cmp (k k' : K) :
  key_ok R k -> key_ok R k' -> cmp (row_physical_key R k) (row_physical_key R k') = cmp k k'.
Proof.
  intros Hk Hk'. pose proof (row_table_u32 (R := R)). unfold row_physical_key.
  rewrite catalog_key_cmp by (unfold_ints; lia). rewrite Z.compare_refl. by apply pk_bytes_cmp.
Qed.

Lemma rep_get m rows k : table_rep m rows -> key_ok R k -> bt_get (row_physical_key R k) m = row_value <$> bt_get k rows.
Proof.
  intros [Hr Hm] Hk. pose proof (row_table_u32 (R := R)).
  rewrite <- (bt_get_filter (in_table (row_table R))).
  - rewrite <- kv_range_table, Hm.
    apply (bt_get_map (row_physical_key R) row_value (key_ok R)); [apply physical_key_cmp|done|by apply rows_keys_ok].
  - unfold row_physical_key. rewrite key_in_table by (unfold_ints; lia). apply Z.eqb_refl.
Qed.

Lemma rows_ok_insert rows r : rows_ok rows -> row_ok r -> rows_ok (bt_insert (row_key r) r rows).
Proof. intros [Hs Hr] Hok. split; [by apply bt_insert_sorted|]. by apply bt_insert_Forall. Qed.

Lemma rows_ok_remove rows k : rows_ok rows -> rows_ok (bt_remove k rows).
Proof.
  intros [Hs Hr]. split; [by apply bt_remove_sorted|]. rewrite List.Forall_forall in *. intros p Hp. by apply Hr, (bt_remove_In k).
Qed.

Lemma rep_put m rows r :
  bt_sorted m -> table_rep m rows -> row_ok r ->
  table_rep (apply_op m (put_bytes r)) (bt_insert (row_key r) r rows).
Proof.
  intros Hs [Hr Hm] Hok. split; [by apply rows_ok_insert|]. pose proof (row_table_u32 (R := R)).
  unfold put_bytes, apply_op. rewrite kv_range_table in *.
  rewrite (filter_insert_in (in_table (row_table R))); [|unfold row_physical_key; rewrite key_in_table by (unfold_ints; lia); apply Z.eqb_refl|done].
  rewrite Hm. apply (bt_insert_map (row_physical_key R) row_value (key_ok R));
    [apply physical_key_cmp|by apply row_key_ok|by apply rows_keys_ok].
Qed.

Lemma rep_delete m rows k :
  table_rep m rows -> key_ok R k -> table_rep (apply_op m (delete_row R k)) (bt_remove k rows).
Proof.
  intros [Hr Hm] Hk. split; [by apply rows_ok_remove|]. pose proof (row_table_u32 (R := R)).
  unfold delete_row, apply_op. rewrite kv_range_table in *.
  rewrite (filter_remove_in (in_table (row_table R))) by (rewrite key_in_table by (unfold_ints; lia); apply Z.eqb_refl).
  rewrite Hm. apply (bt_remove_map (row_physical_key R) row_value (key_ok R)); [apply physical_key_cmp|done|by apply rows_keys_ok].
Qed.

(** A change of another system table's key. *)
Lemma rep_other m rows op t pk :
  is_u32 t -> t <> row_table R -> (Lsm.op_kv op).1 = catalog_key t pk -> table_rep m rows -> table_rep (apply_op m op) rows.
Proof.
  intros Ht Hne Hop [Hr Hm]. split; [done|]. rewrite <- Hm. pose proof (row_table_u32 (R := R)). rewrite !kv_range_table.
  assert (in_table (row_table R) (Lsm.op_kv op).1 = false) as Hf
    by (rewrite Hop, key_in_table by (unfold_ints; lia); by apply Z.eqb_neq).
  destruct op as [k v|k]; cbn [Lsm.op_kv fst apply_op] in *;
    [by apply (filter_insert_out (in_table (row_table R)))|by apply (filter_remove_out (in_table (row_table R)))].
Qed.
End OneTable.

(** ** All tables *)

Lemma get_apply_other op k m : bt_sorted m -> (Lsm.op_kv op).1 <> k -> bt_get k (apply_op m op) = bt_get k m.
Proof.
  intros Hs Hne. destruct op as [k' v|k']; simpl in *; [rewrite bt_get_insert|rewrite bt_get_remove by done];
    (destruct (eqb k k') eqn:E; [apply eqb_eq in E; congruence|done]).
Qed.

Lemma catalog_key_inj t t' x y : is_u32 t -> is_u32 t' -> catalog_key t x = catalog_key t' y -> t = t' /\ x = y.
Proof.
  intros Ht Ht' E. assert (cmp (catalog_key t x) (catalog_key t' y) = Eq) as Hc by (by rewrite E, cmp_refl).
  rewrite catalog_key_cmp in Hc by done. destruct (Z.compare_spec t t') as [->| |]; try done. split; [done|]. by apply cmp_eq.
Qed.

Lemma counters_other m c op t pk :
  bt_sorted m -> is_u32 t -> t <> SYSTEM_TABLE_COUNTERS -> (Lsm.op_kv op).1 = catalog_key t pk ->
  counters_rep m c -> counters_rep (apply_op m op) c.
Proof.
  intros Hs Ht Hne Hop Hc kind. destruct (Hc kind) as [Hu Hg]. split; [done|].
  rewrite get_apply_other; [done|done|]. rewrite Hop. intros [E _]%catalog_key_inj; [done|done|by_eval].
Qed.

Lemma counters_set m c kind n :
  is_u32 n -> counters_rep m c -> counters_rep (apply_op m (WPut (counter_key kind) (le32 n))) (set_counter c kind n).
Proof.
  intros Hn Hc k. unfold set_counter. destruct (Hc k) as [Hu Hg]. cbn [apply_op]. rewrite bt_get_insert.
  destruct (eqb (counter_key k) (counter_key kind)) eqn:E.
  - apply eqb_eq in E. assert (k = kind) as -> by (destruct k, kind; vm_compute in E; congruence).
    by rewrite decide_True.
  - rewrite decide_False; [done|]. intros ->. by rewrite (proj2 (eqb_eq _ _) eq_refl) in E.
Qed.

#[local] Ltac other_table :=
  eapply rep_other; [| | |eassumption];
  [|  | reflexivity]; [by_eval|by_eval].

(** Applying an encoded change to the map is applying the change to the records. *)
Lemma cat_rep_op m c op : cat_rep m c -> op_ok op -> cat_rep (apply_op m (op_bytes op)) (apply_cat c op).
Proof.
  intros [H0 H1 H2 H3 H4 H5 H6 H7 H8 H9] Hop. destruct c as [cs ds ss ts cols idx cns fks gs].
  cbn [c_counters c_databases c_schemas c_tables c_columns c_indexes c_constraints c_fks c_grants] in *.
  destruct op; cbn [op_bytes op_ok apply_cat] in *;
    (split; cbn [c_counters c_databases c_schemas c_tables c_columns c_indexes c_constraints c_fks c_grants];
     [by apply apply_op_sorted| |..]);
    first [ by apply counters_set
          | by apply rep_put
          | by apply rep_delete
          | other_table
          | eapply counters_other; [done| | |reflexivity|done]; by_eval ].
Qed.

Lemma cat_rep_ops m c ops : cat_rep m c -> Forall op_ok ops -> cat_rep (apply_ops (map op_bytes ops) m) (apply_cats ops c).
Proof.
  intros Hr Hops. revert m c Hr. induction Hops as [|op ops Hop Hops IH]; intros m c Hr; simpl; [done|].
  by apply IH, cat_rep_op.
Qed.

(** ** Scans *)

Lemma collect_ok {A} (body : bytes -> bytes -> option (cres A)) (keep : A -> bool) (l : kv_map) (as_ out : list A) rest :
  Forall2 (fun p a => body p.1 p.2 = Some (Ok a)) l as_ ->
  collect_rows body keep (map Ok l ++ rest) out = collect_rows body keep rest (out ++ List.filter keep as_).
Proof.
  intros Hl. revert out. induction Hl as [|[k v] a l as_ Ha Hl IH]; intros out; simpl in *; [by rewrite app_nil_r|].
  rewrite Ha. rewrite IH. destruct (keep a); simpl; [by rewrite <- app_assoc|done].
Qed.

Section ScanTable.
Context {K R : Type} `{CatalogRow K R, !OrdLaws K, !CatalogRowLaws K R}.

Lemma value_parses (r : R) : row_ok r -> parse_value (row_key r) (row_value r) = Some (Ok r).
Proof. intros Hr. destruct (parse_value_row r Hr) as (value & Hv & Hp). unfold row_value. by rewrite Hv. Qed.

Lemma rows_parse (rows : list (K * R)) :
  rows_ok rows -> Forall2 (fun p a => parse_row R p.1 p.2 = Some (Ok a)) (map enc_row rows) (rows_of rows).
Proof.
  intros [_ Hr]. induction Hr as [|[k r] rows [Hk Hok] Hr IH]; simpl; constructor; [|done].
  simpl in *. subst k. unfold parse_row. unfold row_physical_key. rewrite parse_key_pk by by apply row_key_ok. by apply value_parses.
Qed.
End ScanTable.

Lemma Forall2_take_map {A B} (P : A -> B -> Prop) l k n : Forall2 P l k -> Forall2 P (take n l) (take n k).
Proof. apply Forall2_take. Qed.

(** *** One table's columns *)

Lemma prefix_in_table t prefix k :
  0 <= t < u32_max -> in_range k (system_table_prefix_range t prefix) = true -> in_table t k = true.
Proof.
  intros Ht. unfold in_range, in_table, system_table_prefix_range, system_table_range, checked_add32.
  rewrite (proj2 (Z.leb_le (t + 1) u32_max)) by (unfold_ints; lia).
  assert (forall x, cmp (catalog_key t x) (catalog_key (t + 1) []) = Lt) as Hup.
  { intros x. rewrite catalog_key_cmp by (unfold_ints; lia). by rewrite (proj2 (Z.compare_lt_iff t (t + 1))) by lia. }
  assert (forall x, cmp (catalog_key t []) (catalog_key t x) <> Gt) as Hlow.
  { intros x. rewrite catalog_key_cmp by (unfold_ints; lia). rewrite Z.compare_refl. by destruct x. }
  destruct (Idx.increment prefix) as [inc []]; cbn [fst snd above below]; rewrite !andb_true_iff; rewrite ?leb_le, ?ltb_lt;
    (intros [Hlo Hhi]; split; [by apply (cmp_le_trans _ (catalog_key t prefix))|]).
  - by apply (cmp_lt_trans _ (catalog_key t inc)).
  - done.
Qed.

Lemma filter_filter_incl {A} (f g : A -> bool) (l : list A) :
  (forall a, f a = true -> g a = true) -> List.filter f (List.filter g l) = List.filter f l.
Proof.
  intros Hfg. induction l as [|a l IH]; simpl; [done|]. destruct (g a) eqn:Eg; simpl; [by rewrite IH|].
  rewrite IH. destruct (f a) eqn:Ef; [|done]. by rewrite (Hfg a Ef) in Eg.
Qed.

Definition table_columns (c : Catalog) (table_id : Z) : list ColumnRow :=
  rows_of (List.filter (fun p => p.1.1 =? table_id) (c_columns c)).

Lemma column_range m c table_id :
  cat_rep m c -> is_u32 table_id ->
  kv_range (system_table_prefix_range SYSTEM_TABLE_COLUMNS (be32 table_id)).1
    (system_table_prefix_range SYSTEM_TABLE_COLUMNS (be32 table_id)).2 m
  = map enc_row (List.filter (fun p => p.1.1 =? table_id) (c_columns c)).
Proof.
  intros [_ _ _ _ _ [Hr Hm] _ _ _ _] Hid. unfold kv_range.
  rewrite <- (filter_filter_incl _ (fun p => in_table SYSTEM_TABLE_COLUMNS p.1)).
  - rewrite <- kv_range_table. change SYSTEM_TABLE_COLUMNS with (row_table ColumnRow) at 3 4. rewrite Hm.
    apply rows_keys_ok in Hr. clear Hm. induction Hr as [|[[t o] r] l [Ht Ho] Hl IH]; [done|]. cbn [map List.filter].
    cbn [enc_row row_physical_key fst snd]. simpl in Ht, Ho.
    change (above (system_table_prefix_range SYSTEM_TABLE_COLUMNS (be32 table_id)).1 ?k &&
            below (system_table_prefix_range SYSTEM_TABLE_COLUMNS (be32 table_id)).2 ?k)
      with (in_range k (system_table_prefix_range SYSTEM_TABLE_COLUMNS (be32 table_id))).
    cbn [row_physical_key row_table pk_bytes column_row fst snd]. unfold row_physical_key. cbn [row_table pk_bytes column_row fst snd].
    rewrite prefix_range_exact; [|by_eval|by_eval|unfold column_pk; rewrite length_app, !length_be_bytes; lia].
    rewrite length_be_bytes. unfold column_pk. rewrite take_app_length' by by rewrite length_be_bytes.
    destruct (Z.eqb_spec t table_id) as [->|Hne].
    + rewrite bool_decide_eq_true_2 by done. cbn [andb map]. f_equal. exact IH.
    + rewrite bool_decide_eq_false_2; [exact IH|]. intros E. apply Hne, (be_bytes_inj 4); [..|done]; unfold_ints;
        change (256 ^ Z.of_nat 4) with 4294967296; lia.
  - intros [k v] Hk. apply (prefix_in_table SYSTEM_TABLE_COLUMNS (be32 table_id)); [by unfold_ints|exact Hk].
Qed.

Lemma columns_parse c table_id :
  rows_ok (c_columns c) ->
  Forall2 (fun p a => parse_column table_id p.1 p.2 = Some (Ok a))
    (map enc_row (List.filter (fun p => p.1.1 =? table_id) (c_columns c))) (table_columns c table_id).
Proof.
  intros [_ Hr]. unfold table_columns. induction Hr as [|[k r] l [Hk Hok] Hl IH]; simpl; [constructor|].
  destruct (Z.eqb_spec k.1 table_id) as [E|]; [|done]. simpl in Hk. subst k. constructor; [|done]. simpl in *.
  unfold parse_column, row_physical_key. cbn [row_table pk_bytes column_row row_key fst snd].
  pose proof (row_key_ok r Hok) as [Ht Ho]. simpl in Ht, Ho.
  pose proof (parse_key_pk (R := ColumnRow) (row_key r) (row_key_ok r Hok)) as Hp.
  cbn [parse_key column_row row_table pk_bytes row_key fst snd] in Hp. unfold column_pk in Hp at 1.
  rewrite catalog_key_tail in Hp by done. destruct (column_pk_ordinal _) as [o|] eqn:Eo in Hp; [|done].
  injection Hp as ->. rewrite Eo, <- E. exact (value_parses r Hok).
Qed.

End Rep.
