(* ===== verification/CatalogSpec.v ===== *)
(** * What the catalog service does, on records

    [spec] is the catalog's abstract transition function: for each request, the error it is refused with or its result
    and the changes it makes, computed on [Catalog] records, with no bytes, engine or cache.  The service refines it:
    run on any engine that keeps [KvStoreLaws], a request returns what [spec] says and leaves the engine holding the
    changed catalog; an engine error leaves the old or the changed catalog, nothing in between. *)

From stdpp Require Import base list option strings.
From Stdlib Require Import ZArith Lia.
From Stdlib Require Import Strings.Byte.
From S2P Require Import Prelude BTree EngineError RelKey IndexKey RowCodec CatalogRows LsmEngine KvStore CatalogService.
From S2P Require Import CatalogRep.

Module Spec.
Import Rel Row Rows Kv Cat Rep.
Import Lsm(WriteOp, WPut, WDelete, outcome, Returned, Failed, Panicked).

(** ** Requests *)

Inductive Request : Type :=
| CreateSchema (now database_id : Z) (name : bytes)
| DropSchema (schema_id : Z)
| CreateTable (now schema_id : Z) (name : bytes) (columns : list ColumnDef) (pk_ordinals : list Z)
    (fks : list NewTableForeignKey) (checks : list NewTableCheck)
| DropTable (table_id : Z)
| CreateIndex (now table_id : Z) (name : bytes) (kind : IndexKind) (column_ordinals : list Z)
| DropIndex (index_id : Z)
| MarkIndexReady (index_id : Z)
| MarkIndexFailed (index_id : Z)
| MarkIndexDropping (index_id : Z)
| RemoveIndexRow (index_id : Z)
| CreateConstraint (table_id : Z) (name : bytes) (kind : ConstraintKind) (column_ordinals : list Z) (expr : option bytes)
| AddColumn (table_id : Z) (column : ColumnDef) (backfill_value : option bytes)
| RenameColumn (table_id ordinal : Z) (new_name : bytes)
| SetColumnDefault (table_id ordinal : Z) (default_value : option bytes)
| SetColumnNullable (table_id ordinal : Z) (nullable : bool)
| CreateForeignKey (now : Z) (new : NewForeignKey)
| DropForeignKey (fk_id : Z)
| CreateCheck (table_id : Z) (name : bytes) (column_ordinals : list Z) (expression : bytes)
| DropCheck (constraint_id : Z)
| Grant (now : Z) (principal : bytes) (object_kind : ObjectKind) (object_id : Z) (privilege : Privilege)
| Revoke (principal : bytes) (object_kind : ObjectKind) (object_id : Z) (privilege : Privilege).

Definition run {E} `{KvStore E} (r : Request) : CM (E := E) Z :=
  match r with
  | CreateSchema now database_id name => create_schema now database_id name
  | DropSchema schema_id => drop_schema schema_id ;; mret 0
  | CreateTable now schema_id name columns pk fks checks => create_table_with_foreign_keys now schema_id name columns pk fks checks
  | DropTable table_id => drop_table table_id ;; mret 0
  | CreateIndex now table_id name kind ordinals => create_index now table_id name kind ordinals
  | DropIndex index_id => drop_index index_id ;; mret 0
  | MarkIndexReady index_id => mark_index_ready index_id ;; mret 0
  | MarkIndexFailed index_id => mark_index_failed index_id ;; mret 0
  | MarkIndexDropping index_id => mark_index_dropping index_id ;; mret 0
  | RemoveIndexRow index_id => remove_index_row index_id ;; mret 0
  | CreateConstraint table_id name kind ordinals expr => create_constraint table_id name kind ordinals expr
  | AddColumn table_id column backfill => add_column table_id column backfill
  | RenameColumn table_id ordinal name => rename_column table_id ordinal name ;; mret 0
  | SetColumnDefault table_id ordinal v => set_column_default table_id ordinal v ;; mret 0
  | SetColumnNullable table_id ordinal b => set_column_nullable table_id ordinal b ;; mret 0
  | CreateForeignKey now new => create_foreign_key now new
  | DropForeignKey fk_id => drop_foreign_key fk_id ;; mret 0
  | CreateCheck table_id name ordinals expr => create_check_constraint table_id name ordinals expr
  | DropCheck constraint_id => drop_check_constraint constraint_id ;; mret 0
  | Grant now principal kind id p => grant now principal kind id p
  | Revoke principal kind id p => revoke principal kind id p
  end.

(** ** The abstract transition function *)

(** A refused request, a panic, or a result and its changes. *)
Definition verdict : Type := option (cres (Z * list CatOp)).

Definition done (a : Z) (ops : list CatOp) : verdict := Some (Ok (a, ops)).
Definition refuse {A} (x : CatalogError) : option (cres A) := Some (Err x).

Definition next_id (kind : CounterKind) (c : Catalog) : cres Z :=
  ok_or (CInvalidInput "ID space exhausted (u32::MAX reached)") (checked_add32 (c_counters c kind) 1).

Definition schemas_in (c : Catalog) (database_id : Z) : list SchemaRow :=
  List.filter (fun s => sch_database_id s =? database_id) (rows_of (c_schemas c)).
Definition tables_in (c : Catalog) (schema_id : Z) : list TableRow :=
  List.filter (fun t => tbl_schema_id t =? schema_id) (rows_of (c_tables c)).
Definition indexes_on (c : Catalog) (table_id : Z) : list IndexRow :=
  List.filter (fun i => idx_table_id i =? table_id) (rows_of (c_indexes c)).
Definition constraints_on (c : Catalog) (table_id : Z) : list ConstraintRow :=
  List.filter (fun k => con_table_id k =? table_id) (rows_of (c_constraints c)).
Definition checks_of (c : Catalog) : list ConstraintRow :=
  List.filter (fun k => bool_decide (con_kind k = KCheck)) (rows_of (c_constraints c)).
Definition fks_of (c : Catalog) (table_id : Z) : list ForeignKeyRow :=
  List.filter (fun fk => fk_table_id fk =? table_id) (rows_of (c_fks c)).
Definition grants_of (c : Catalog) (principal : bytes) : list GrantRow :=
  List.filter (fun g => bytes_eqb (gr_principal g) principal) (rows_of (c_grants c)).

Definition active_table (c : Catalog) (table_id : Z) : option (cres TableRow) :=
  match bt_get table_id (c_tables c) with
  | None => refuse (CNotFound "table")
  | Some t => if bool_decide (tbl_state t = TActive) then Some (Ok t) else refuse (CInvalidInput "table is being dropped")
  end.

Definition shape_of (c : Catalog) (t : TableRow) : FkShape :=
  MkFkShape (tbl_table_id t) (tbl_name t) (tbl_pk_ordinals t) (table_columns c (tbl_table_id t))
    (List.filter (fun i => bool_decide (idx_kind i = IUnique) && bool_decide (idx_state i = IReady))
       (indexes_on c (tbl_table_id t))).

Definition spec_create_schema (now database_id : Z) (name : bytes) (c : Catalog) : verdict :=
  let! _ := Some (validate_name name "schema") in
  match bt_get database_id (c_databases c) with
  | None => refuse (CNotFound "database")
  | Some _ =>
      if existsb (fun s => bytes_eqb (sch_name s) name) (schemas_in c database_id) then refuse (CAlreadyExists "schema")
      else
        let! id := Some (next_id CSchema c) in
        done id [SetCounter CSchema id; PutSchema (MkSchema id database_id name now)]
  end.

Definition spec_drop_schema (schema_id : Z) (c : Catalog) : verdict :=
  match bt_get schema_id (c_schemas c) with
  | None => refuse (CNotFound "schema")
  | Some _ =>
      match tables_in c schema_id with
      | _ :: _ => refuse (CInvalidInput "schema still has tables; drop them first")
      | [] => done 0 [DelSchema schema_id]
      end
  end.

Definition spec_validate_table (name : bytes) (columns : list ColumnDef) (pk_ordinals : list Z) : option (cres unit) :=
  let! _ := Some (validate_name name "table") in
  if zlen columns =? 0 then refuse (CInvalidInput "a table must have at least one column")
  else if 65535 <? zlen columns then refuse (CInvalidInput "too many columns")
  else if zlen pk_ordinals =? 0 then refuse (CInvalidInput "a table must have a primary key")
  else
    let! _ := check_pk pk_ordinals columns in
    if fresh_names (map cd_name columns) [] then Some (Ok tt) else refuse (CInvalidInput "duplicate column name").

Fixpoint spec_checks (table_id first_id fk_count column_count i : Z) (checks : list NewTableCheck) (seen : list bytes)
    (ops : list CatOp) : option (cres (list bytes * list CatOp)) :=
  match checks with
  | [] => Some (Ok (seen, ops))
  | check :: checks =>
      let! _ := Some (validate_name (ntc_name check) "constraint") in
      let! _ := Some (validate_check_expression (ntc_expression check)) in
      if existsb (bytes_eqb (ntc_name check)) seen then refuse (CAlreadyExists "constraint")
      else if existsb (fun o => column_count <=? o) (ntc_column_ordinals check) then
        refuse (CInvalidInput "a CHECK constraint names a column that does not exist")
      else
        spec_checks table_id first_id fk_count column_count (i + 1) checks (ntc_name check :: seen)
          (ops ++ [PutConstraint (MkConstraint (as_u32 (first_id + as_u32 (fk_count + i))) table_id (ntc_name check) KCheck
                     (ntc_column_ordinals check) (Some (ntc_expression check)) 1)])
  end.

Definition parent_shape (c : Catalog) (child_shape : FkShape) (parent : option Z) : option (cres FkShape) :=
  match parent with
  | None => Some (Ok child_shape)
  | Some id => let! parent := active_table c id in Some (Ok (shape_of c parent))
  end.

Fixpoint spec_fks (now table_id first_id i : Z) (child_shape : FkShape) (fks : list NewTableForeignKey) (seen : list bytes)
    (ops : list CatOp) (c : Catalog) : option (cres (list CatOp)) :=
  match fks with
  | [] => Some (Ok ops)
  | fk :: fks =>
      let! _ := Some (validate_name (ntf_name fk) "constraint") in
      if existsb (bytes_eqb (ntf_name fk)) seen then refuse (CAlreadyExists "constraint")
      else
        let! parent := parent_shape c child_shape (ntf_parent_table_id fk) in
        let! index := resolve_foreign_key
          (MkFkDefinition (ntf_child_ordinals fk) (ntf_parent_ordinals fk) (ntf_on_delete fk) (ntf_on_update fk))
          child_shape parent in
        spec_fks now table_id first_id (i + 1) child_shape fks (ntf_name fk :: seen)
          (ops ++ [PutFk (MkForeignKey (as_u32 (first_id + as_u32 i)) table_id (ntf_name fk) (ntf_child_ordinals fk)
                     (default table_id (ntf_parent_table_id fk)) (ntf_parent_ordinals fk) index (ntf_on_delete fk)
                     (ntf_on_update fk) now)]) c
  end.

Definition spec_constraints (now table_id : Z) (name : bytes) (columns : list ColumnDef) (pk_ordinals : list Z)
    (fks : list NewTableForeignKey) (checks : list NewTableCheck) (ops : list CatOp) (c : Catalog) : option (cres (list CatOp)) :=
  match fks, checks with
  | [], [] => Some (Ok ops)
  | _, _ =>
      let! first_id := Some (next_id CConstraint c) in
      let! last_id := Some (ok_or (CInvalidInput "Constraint ID space exhausted (u32::MAX reached)")
        (checked_add32 first_id (as_u32 (as_u32 (zlen fks + zlen checks) - 1)))) in
      let! '(seen, ops) := spec_checks table_id first_id (zlen fks) (zlen columns) 0 checks [] ops in
      let! ops := spec_fks now table_id first_id 0 (MkFkShape table_id name pk_ordinals (new_columns table_id columns) [])
        fks seen ops c in
      Some (Ok (ops ++ [SetCounter CConstraint last_id]))
  end.

Definition spec_create_table (now schema_id : Z) (name : bytes) (columns : list ColumnDef) (pk_ordinals : list Z)
    (fks : list NewTableForeignKey) (checks : list NewTableCheck) (c : Catalog) : verdict :=
  let! _ := spec_validate_table name columns pk_ordinals in
  match bt_get schema_id (c_schemas c) with
  | None => refuse (CNotFound "schema")
  | Some _ =>
      if existsb (fun t => bytes_eqb (tbl_name t) name) (tables_in c schema_id) then refuse (CAlreadyExists "table")
      else
        let! table_id := Some (next_id CTable c) in
        let! index_id := Some (next_id CIndex c) in
        let! ops := spec_constraints now table_id name columns pk_ordinals fks checks
          ([SetCounter CTable table_id; SetCounter CIndex index_id;
            PutTable (MkTable table_id schema_id name pk_ordinals 1 TActive now);
            PutIndex (MkIndex index_id table_id (name_pkey name) IPrimary pk_ordinals IReady now)]
           ++ map PutColumn (new_columns table_id columns)) c in
        done table_id ops
  end.

Definition spec_drop_table (table_id : Z) (c : Catalog) : verdict :=
  match bt_get table_id (c_tables c) with
  | None => refuse (CNotFound "table")
  | Some _ =>
      if existsb (fun fk => (fk_parent_table_id fk =? table_id) && negb (fk_table_id fk =? table_id)) (rows_of (c_fks c)) then
        refuse (CInvalidInput "table is referenced by a foreign key of another table; drop that constraint first")
      else
        done 0 ([DelTable table_id] ++ map (fun fk => DelFk (fk_fk_id fk)) (fks_of c table_id)
          ++ map (fun col => DelColumn (table_id, col_ordinal col)) (table_columns c table_id)
          ++ map (fun i => DelIndex (idx_index_id i)) (indexes_on c table_id)
          ++ map (fun k => DelConstraint (con_constraint_id k)) (constraints_on c table_id))
  end.

Definition spec_create_index (now table_id : Z) (name : bytes) (kind : IndexKind) (ordinals : list Z) (c : Catalog) : verdict :=
  let! _ := Some (validate_name name "index") in
  if bool_decide (kind = IPrimary) then refuse (CInvalidInput "PRIMARY-kind indexes are created only by create_table")
  else if zlen ordinals =? 0 then refuse (CInvalidInput "an index must cover at least one column")
  else if MAX_COLUMNS_PER_INDEX <? zlen ordinals then refuse (CInvalidInput "an index may cover at most 16 columns")
  else
    match bt_get table_id (c_tables c) with
    | None => refuse (CNotFound "table")
    | Some t =>
        if existsb (fun o => zlen (table_columns c (tbl_table_id t)) <=? o) ordinals then
          refuse (CInvalidInput "column ordinal does not exist on table")
        else if existsb (fun i => bytes_eqb (idx_name i) name) (indexes_on c table_id) then refuse (CAlreadyExists "index")
        else if MAX_INDEXES_PER_TABLE <=? zlen (indexes_on c table_id) then
          refuse (CInvalidInput "table already has 64 indexes (the maximum)")
        else
          let! id := Some (next_id CIndex c) in
          done id [SetCounter CIndex id; PutIndex (MkIndex id table_id name kind ordinals IBuilding now)]
    end.

Definition index_of (c : Catalog) (index_id : Z) : option (cres IndexRow) :=
  match bt_get index_id (c_indexes c) with None => refuse (CNotFound "index") | Some i => Some (Ok i) end.

Definition not_referenced (c : Catalog) (index_id : Z) : option (cres unit) :=
  if existsb (fun fk => bool_decide (fk_parent_index_id fk = Some index_id)) (rows_of (c_fks c)) then
    refuse (CInvalidInput "index is the referenced key of a foreign key; drop that constraint first")
  else Some (Ok tt).

Definition not_primary (i : IndexRow) : option (cres unit) :=
  if bool_decide (idx_kind i = IPrimary) then
    refuse (CInvalidInput "the PRIMARY index cannot be dropped independently of its table")
  else Some (Ok tt).

Definition spec_drop_index (index_id : Z) (c : Catalog) : verdict :=
  let! i := index_of c index_id in
  let! _ := not_primary i in
  let! _ := not_referenced c index_id in
  done 0 [DelIndex index_id].

Definition spec_transition (index_id : Z) (allowed_from : list IndexState) (to : IndexState) (c : Catalog) : verdict :=
  let! i := index_of c index_id in
  if existsb (fun st => bool_decide (st = idx_state i)) allowed_from then done 0 [PutIndex (with_state i to)]
  else refuse (CInvalidInput "index cannot transition from its state").

Definition spec_mark_dropping (index_id : Z) (c : Catalog) : verdict :=
  let! i := index_of c index_id in
  let! _ := not_primary i in
  let! _ := not_referenced c index_id in
  spec_transition index_id [IBuilding; IReady; IFailed] IDropping c.

Definition spec_remove_index (index_id : Z) (c : Catalog) : verdict :=
  let! i := index_of c index_id in
  if bool_decide (idx_state i = IDropping) then done 0 [DelIndex index_id]
  else refuse (CInvalidInput "index is not Dropping before final removal").

Definition spec_create_constraint (table_id : Z) (name : bytes) (kind : ConstraintKind) (ordinals : list Z)
    (expr : option bytes) (c : Catalog) : verdict :=
  let! _ := Some (validate_name name "constraint") in
  match bt_get table_id (c_tables c) with
  | None => refuse (CNotFound "table")
  | Some _ =>
      if bool_decide (kind = KCheck) && bytes_eqb (default [] expr) [] then
        refuse (CInvalidInput "CHECK constraint requires a non-empty expression")
      else
        let! id := Some (next_id CConstraint c) in
        done id [SetCounter CConstraint id; PutConstraint (MkConstraint id table_id name kind ordinals expr 1)]
  end.

Definition spec_add_column (table_id : Z) (column : ColumnDef) (backfill : option bytes) (c : Catalog) : verdict :=
  let! _ := Some (validate_name (cd_name column) "column") in
  let! t := active_table c table_id in
  let columns := table_columns c table_id in
  if existsb (fun k => bytes_eqb (col_name k) (cd_name column)) columns then refuse (CAlreadyExists "column")
  else if 65535 <=? zlen columns then refuse (CInvalidInput "too many columns")
  else
    done (zlen columns)
      [PutTable (bump_version t);
       PutColumn (MkColumn table_id (zlen columns) (cd_name column) (cd_data_type column) (cd_nullable column)
         (cd_default_value column) (tbl_schema_version (bump_version t)) (cd_type_params column) backfill)].

Definition column_of (c : Catalog) (table_id ordinal : Z) : option (cres ColumnRow) :=
  match find_column ordinal (table_columns c table_id) with Some k => Some (Ok k) | None => refuse (CNotFound "column") end.

Definition change_column (t : TableRow) (k : ColumnRow) : verdict := done 0 [PutTable (bump_version t); PutColumn k].

Definition spec_rename_column (table_id ordinal : Z) (new_name : bytes) (c : Catalog) : verdict :=
  let! _ := Some (validate_name new_name "column") in
  let! t := active_table c table_id in
  let! k := column_of c table_id ordinal in
  if existsb (fun k => bytes_eqb (col_name k) new_name && negb (col_ordinal k =? ordinal)) (table_columns c table_id) then
    refuse (CAlreadyExists "column")
  else if existsb (fun k => (con_table_id k =? table_id) && zmem ordinal (con_column_ordinals k)) (checks_of c) then
    refuse (CInvalidInput "column is read by a CHECK constraint; drop the constraint, rename the column, and add it again")
  else change_column t (with_name k new_name).

Definition spec_set_default (table_id ordinal : Z) (v : option bytes) (c : Catalog) : verdict :=
  let! t := active_table c table_id in
  let! k := column_of c table_id ordinal in
  change_column t (with_default k v).

Definition sets_null (table_id ordinal : Z) (fk : ForeignKeyRow) : bool :=
  (fk_table_id fk =? table_id) && zmem ordinal (fk_child_ordinals fk)
  && (bool_decide (fk_on_delete fk = SetNull) || bool_decide (fk_on_update fk = SetNull)).

Definition spec_set_nullable (table_id ordinal : Z) (nullable : bool) (c : Catalog) : verdict :=
  let! t := active_table c table_id in
  let! k := column_of c table_id ordinal in
  if nullable && zmem ordinal (tbl_pk_ordinals t) then
    refuse (CInvalidInput "column is part of the primary key and cannot be made nullable")
  else
    let! _ := (if nullable then Some (Ok tt)
               else if existsb (sets_null table_id ordinal) (rows_of (c_fks c)) then
                 refuse (CInvalidInput "column cannot be NOT NULL: a foreign key sets it to NULL")
               else Some (Ok tt)) in
    change_column t (with_nullable k nullable).

Definition name_taken (c : Catalog) (table_id : Z) (name : bytes) : bool :=
  existsb (fun f => bytes_eqb (fk_name f) name) (fks_of c table_id)
  || existsb (fun k => (con_table_id k =? table_id) && bytes_eqb (con_name k) name) (checks_of c).

Definition spec_check_fk (new : NewForeignKey) (c : Catalog) : option (cres (option Z)) :=
  let! _ := Some (validate_name (nf_name new) "constraint") in
  let! child := active_table c (nf_table_id new) in
  let! parent := active_table c (nf_parent_table_id new) in
  let! index := resolve_foreign_key
    (MkFkDefinition (nf_child_ordinals new) (nf_parent_ordinals new) (nf_on_delete new) (nf_on_update new))
    (shape_of c child) (shape_of c (if tbl_table_id parent =? tbl_table_id child then child else parent)) in
  if name_taken c (tbl_table_id child) (nf_name new) then refuse (CAlreadyExists "constraint") else Some (Ok index).

Definition spec_create_fk (now : Z) (new : NewForeignKey) (c : Catalog) : verdict :=
  let! index := spec_check_fk new c in
  let! child := active_table c (nf_table_id new) in
  let! id := Some (next_id CConstraint c) in
  done id [SetCounter CConstraint id; PutTable (bump_version child);
    PutFk (MkForeignKey id (tbl_table_id child) (nf_name new) (nf_child_ordinals new) (nf_parent_table_id new)
      (nf_parent_ordinals new) index (nf_on_delete new) (nf_on_update new) now)].

Definition bump_if_present (c : Catalog) (table_id : Z) : list CatOp :=
  match bt_get table_id (c_tables c) with Some t => [PutTable (bump_version t)] | None => [] end.

Definition spec_drop_fk (fk_id : Z) (c : Catalog) : verdict :=
  match List.find (fun f => fk_fk_id f =? fk_id) (rows_of (c_fks c)) with
  | None => refuse (CNotFound "foreign key")
  | Some fk => done 0 ([DelFk fk_id] ++ bump_if_present c (fk_table_id fk))
  end.

Definition spec_create_check (table_id : Z) (name : bytes) (ordinals : list Z) (expr : bytes) (c : Catalog) : verdict :=
  let! _ := Some (validate_name name "constraint") in
  let! _ := Some (validate_check_expression expr) in
  let! t := active_table c table_id in
  if existsb (fun o => negb (existsb (fun k => col_ordinal k =? o) (table_columns c table_id))) ordinals then
    refuse (CInvalidInput "a CHECK constraint names a column that does not exist")
  else if existsb (fun k => (con_table_id k =? table_id) && bytes_eqb (con_name k) name) (checks_of c)
          || existsb (fun f => bytes_eqb (fk_name f) name) (fks_of c table_id) then refuse (CAlreadyExists "constraint")
  else
    let! id := Some (next_id CConstraint c) in
    done id [SetCounter CConstraint id; PutTable (bump_version t);
      PutConstraint (MkConstraint id table_id name KCheck ordinals (Some expr) (tbl_schema_version (bump_version t)))].

Definition spec_drop_check (constraint_id : Z) (c : Catalog) : verdict :=
  match List.find (fun k => con_constraint_id k =? constraint_id) (checks_of c) with
  | None => refuse (CNotFound "constraint")
  | Some k => done 0 ([DelConstraint constraint_id] ++ bump_if_present c (con_table_id k))
  end.

Definition spec_grant (now : Z) (principal : bytes) (kind : ObjectKind) (object_id : Z) (p : Privilege) (c : Catalog) : verdict :=
  if zlen principal =? 0 then refuse (CInvalidInput "principal must not be empty")
  else if existsb (same_grant kind object_id p) (grants_of c principal) then refuse (CAlreadyExists "grant")
  else
    let! id := Some (next_id CGrant c) in
    done id [SetCounter CGrant id; PutGrant (MkGrant id principal kind object_id p now)].

Definition spec_revoke (principal : bytes) (kind : ObjectKind) (object_id : Z) (p : Privilege) (c : Catalog) : verdict :=
  let matching := map gr_grant_id (List.filter (same_grant kind object_id p) (grants_of c principal)) in
  done (zlen matching) (map DelGrant matching).

Definition spec (r : Request) : Catalog -> verdict :=
  match r with
  | CreateSchema now database_id name => spec_create_schema now database_id name
  | DropSchema schema_id => spec_drop_schema schema_id
  | CreateTable now schema_id name columns pk fks checks => spec_create_table now schema_id name columns pk fks checks
  | DropTable table_id => spec_drop_table table_id
  | CreateIndex now table_id name kind ordinals => spec_create_index now table_id name kind ordinals
  | DropIndex index_id => spec_drop_index index_id
  | MarkIndexReady index_id => spec_transition index_id [IBuilding] IReady
  | MarkIndexFailed index_id => spec_transition index_id [IBuilding] IFailed
  | MarkIndexDropping index_id => spec_mark_dropping index_id
  | RemoveIndexRow index_id => spec_remove_index index_id
  | CreateConstraint table_id name kind ordinals expr => spec_create_constraint table_id name kind ordinals expr
  | AddColumn table_id column backfill => spec_add_column table_id column backfill
  | RenameColumn table_id ordinal name => spec_rename_column table_id ordinal name
  | SetColumnDefault table_id ordinal v => spec_set_default table_id ordinal v
  | SetColumnNullable table_id ordinal b => spec_set_nullable table_id ordinal b
  | CreateForeignKey now new => spec_create_fk now new
  | DropForeignKey fk_id => spec_drop_fk fk_id
  | CreateCheck table_id name ordinals expr => spec_create_check table_id name ordinals expr
  | DropCheck constraint_id => spec_drop_check constraint_id
  | Grant now principal kind id p => spec_grant now principal kind id p
  | Revoke principal kind id p => spec_revoke principal kind id p
  end.

(** ** Well-typed requests: what Rust's types guarantee of the arguments *)

Definition blob_ok (b : bytes) : Prop := zlen b <= u32_max.

Definition column_def_ok (d : ColumnDef) : Prop :=
  text_ok (cd_name d) /\ is_u8 (cd_data_type d) /\ opt_ok blob_ok (cd_default_value d) /\ opt_ok blob_ok (cd_type_params d).
Definition table_fk_ok (f : NewTableForeignKey) : Prop :=
  text_ok (ntf_name f) /\ ordinals_ok (ntf_child_ordinals f) /\ opt_ok is_u32 (ntf_parent_table_id f) /\
  ordinals_ok (ntf_parent_ordinals f).
Definition table_check_ok (k : NewTableCheck) : Prop :=
  text_ok (ntc_name k) /\ ordinals_ok (ntc_column_ordinals k) /\ text_ok (ntc_expression k).
Definition new_fk_ok (f : NewForeignKey) : Prop :=
  is_u32 (nf_table_id f) /\ text_ok (nf_name f) /\ ordinals_ok (nf_child_ordinals f) /\ is_u32 (nf_parent_table_id f) /\
  ordinals_ok (nf_parent_ordinals f).

Definition request_ok (r : Request) : Prop :=
  match r with
  | CreateSchema now database_id name => is_signed 64 now /\ is_u32 database_id /\ text_ok name
  | CreateTable now schema_id name columns pk fks checks =>
      is_signed 64 now /\ is_u32 schema_id /\ text_ok name /\ Forall column_def_ok columns /\ ordinals_ok pk /\
      Forall table_fk_ok fks /\ Forall table_check_ok checks /\ zlen fks + zlen checks <= u32_max
  | CreateIndex now table_id name kind ordinals => is_signed 64 now /\ is_u32 table_id /\ text_ok name /\ ordinals_ok ordinals
  | CreateConstraint table_id name kind ordinals expr =>
      is_u32 table_id /\ text_ok name /\ ordinals_ok ordinals /\ opt_ok text_ok expr
  | AddColumn table_id column backfill => is_u32 table_id /\ column_def_ok column /\ opt_ok blob_ok backfill
  | RenameColumn table_id ordinal name => is_u32 table_id /\ text_ok name
  | SetColumnDefault table_id ordinal v => is_u32 table_id /\ opt_ok blob_ok v
  | SetColumnNullable table_id ordinal b => is_u32 table_id
  | CreateForeignKey now new => is_signed 64 now /\ new_fk_ok new
  | CreateCheck table_id name ordinals expr => is_u32 table_id /\ text_ok name /\ ordinals_ok ordinals /\ text_ok expr
  | Grant now principal kind id p => is_signed 64 now /\ text_ok principal /\ is_u32 id
  | Revoke principal kind id p => True
  | DropSchema id | DropTable id | DropIndex id | MarkIndexReady id | MarkIndexFailed id | MarkIndexDropping id
  | RemoveIndexRow id | DropForeignKey id | DropCheck id => is_u32 id
  end.

(** [create_constraint] records a CHECK constraint without invalidating the cache of CHECK constraints. *)
Definition keeps_caches (r : Request) : Prop :=
  match r with CreateConstraint _ _ kind _ _ => kind <> KCheck | _ => True end.

(** ** Identifiers in use *)

Definition ids_within {R} (n : Z) (rows : list (Z * R)) : Prop := Forall (fun p => 1 <= p.1 <= n) rows.

(** Every identifier in use has been allocated: it is at most its counter. *)
Record ids_ok (c : Catalog) : Prop := {
  ids_databases : ids_within (c_counters c CDatabase) (c_databases c);
  ids_schemas : ids_within (c_counters c CSchema) (c_schemas c);
  ids_tables : ids_within (c_counters c CTable) (c_tables c);
  ids_indexes : ids_within (c_counters c CIndex) (c_indexes c);
  ids_constraints : ids_within (c_counters c CConstraint) (c_constraints c);
  ids_fks : ids_within (c_counters c CConstraint) (c_fks c);
  ids_grants : ids_within (c_counters c CGrant) (c_grants c)
}.

Lemma next_id_spec kind c n : next_id kind c = Ok n -> n = c_counters c kind + 1 /\ n <= u32_max.
Proof. unfold next_id, checked_add32. case_cmp; [|done]. intros [= <-]. lia. Qed.

Lemma fresh_id {R} n (rows : list (Z * R)) : ids_within n rows -> bt_get (n + 1) rows = None.
Proof.
  intros Hr. destruct (bt_get (n + 1) rows) as [r|] eqn:E; [|done]. apply bt_get_Some_In in E.
  unfold ids_within in Hr. rewrite List.Forall_forall in Hr. specialize (Hr _ E). simpl in Hr. lia.
Qed.

(** ** The constraints an accepted table declares *)

(** The CHECK constraints of a new table, numbered after its foreign keys. *)
Fixpoint check_rows (table_id first_id fk_count i : Z) (checks : list NewTableCheck) : list ConstraintRow :=
  match checks with
  | [] => []
  | k :: checks =>
      MkConstraint (as_u32 (first_id + as_u32 (fk_count + i))) table_id (ntc_name k) KCheck (ntc_column_ordinals k)
        (Some (ntc_expression k)) 1 :: check_rows table_id first_id fk_count (i + 1) checks
  end.

(** The foreign keys of a new table: each row records the parent index its definition resolves to. *)
Fixpoint fk_rows (now table_id first_id i : Z) (child : FkShape) (fks : list NewTableForeignKey) (c : Catalog)
    (rows : list ForeignKeyRow) : Prop :=
  match fks, rows with
  | [], [] => True
  | fk :: fks, r :: rows =>
      (exists parent index, parent_shape c child (ntf_parent_table_id fk) = Some (Ok parent) /\
         resolve_foreign_key (MkFkDefinition (ntf_child_ordinals fk) (ntf_parent_ordinals fk) (ntf_on_delete fk) (ntf_on_update fk))
           child parent = Some (Ok index) /\
         r = MkForeignKey (as_u32 (first_id + as_u32 i)) table_id (ntf_name fk) (ntf_child_ordinals fk)
               (default table_id (ntf_parent_table_id fk)) (ntf_parent_ordinals fk) index (ntf_on_delete fk) (ntf_on_update fk) now) /\
      fk_rows now table_id first_id (i + 1) child fks c rows
  | _, _ => False
  end.

(** The names the loops accept: none seen before. *)
Fixpoint fresh_all (names seen : list bytes) : Prop :=
  match names with [] => True | n :: names => existsb (bytes_eqb n) seen = false /\ fresh_all names (n :: seen) end.

Lemma fresh_all_app l1 l2 seen : fresh_all l1 seen -> fresh_all l2 (rev l1 ++ seen) -> fresh_all (l1 ++ l2) seen.
Proof.
  revert seen. induction l1 as [|n l1 IH]; intros seen; simpl; [done|]. intros [? ?] H2. split; [done|]. apply IH; [done|].
  by rewrite <- app_assoc in H2.
Qed.

Lemma spec_checks_rows table_id first fk_count column_count i checks seen ops seen' ops' :
  spec_checks table_id first fk_count column_count i checks seen ops = Some (Ok (seen', ops')) ->
  ops' = ops ++ map PutConstraint (check_rows table_id first fk_count i checks) /\
  fresh_all (map ntc_name checks) seen /\ seen' = rev (map ntc_name checks) ++ seen /\
  Forall (fun k => existsb (fun o => column_count <=? o) (ntc_column_ordinals k) = false) checks.
Proof.
  revert i seen ops. induction checks as [|k checks IH]; intros i seen ops; cbn [spec_checks check_rows map fresh_all rev].
  { intros [= <- <-]. rewrite app_nil_r. by split_and!; [| |constructor..]. }
  destruct (validate_name _ _); [|done]. destruct (validate_check_expression _); [|done].
  destruct (existsb _ seen); [done|]. destruct (existsb _ (ntc_column_ordinals k)) eqn:Eo; [done|]. intros Hs.
  apply IH in Hs as (-> & Hf & -> & Ho). rewrite <- !app_assoc. split_and!; try done. by constructor.
Qed.

Lemma spec_fks_rows now table_id first i child fks seen ops c ops' :
  spec_fks now table_id first i child fks seen ops c = Some (Ok ops') ->
  exists rows, ops' = ops ++ map PutFk rows /\ fk_rows now table_id first i child fks c rows /\ fresh_all (map ntf_name fks) seen.
Proof.
  revert i seen ops. induction fks as [|fk fks IH]; intros i seen ops; cbn [spec_fks map fresh_all].
  { intros [= <-]. exists []. by rewrite app_nil_r. }
  destruct (validate_name _ _); [|done]. destruct (existsb _ seen) eqn:Es; [done|].
  destruct (parent_shape _ _ _) as [[parent|]|] eqn:Ep; [|done..].
  destruct (resolve_foreign_key _ _ _) as [[index|]|] eqn:Er; [|done..]. intros Hs.
  apply IH in Hs as (rows & -> & Hrows & Hf). rewrite <- app_assoc. eexists (_ :: rows). split; [done|].
  split; [|done]. split; [|done]. by exists parent, index.
Qed.

Lemma spec_constraints_rows now table_id name columns pk fks checks ops c ops' :
  spec_constraints now table_id name columns pk fks checks ops c = Some (Ok ops') ->
  (fks = [] /\ checks = [] /\ ops' = ops) \/
  exists first last rows, next_id CConstraint c = Ok first /\
    checked_add32 first (as_u32 (as_u32 (zlen fks + zlen checks) - 1)) = Some last /\
    0 < zlen fks + zlen checks /\
    ops' = ops ++ map PutConstraint (check_rows table_id first (zlen fks) 0 checks) ++ map PutFk rows ++ [SetCounter CConstraint last] /\
    fk_rows now table_id first 0 (MkFkShape table_id name pk (new_columns table_id columns) []) fks c rows /\
    fresh_all (map ntc_name checks ++ map ntf_name fks) [] /\
    Forall (fun k => existsb (fun o => zlen columns <=? o) (ntc_column_ordinals k) = false) checks.
Proof.
  unfold spec_constraints. intros Hs.
  assert ((fks = [] /\ checks = []) \/ 0 < zlen fks + zlen checks) as [[-> ->]|Hpos].
  { destruct fks, checks; [by left|right; simpl length; lia..]. }
  { left. by injection Hs as <-. }
  right.
  assert ((let! first_id := Some (next_id CConstraint c) in
      let! last_id := Some (ok_or (CInvalidInput "Constraint ID space exhausted (u32::MAX reached)")
        (checked_add32 first_id (as_u32 (as_u32 (zlen fks + zlen checks) - 1)))) in
      let! '(seen, ops) := spec_checks table_id first_id (zlen fks) (zlen columns) 0 checks [] ops in
      let! ops := spec_fks now table_id first_id 0 (MkFkShape table_id name pk (new_columns table_id columns) [])
        fks seen ops c in
      Some (Ok (ops ++ [SetCounter CConstraint last_id]))) = Some (Ok ops')) as Hs' by (by destruct fks, checks).
  clear Hs. destruct (next_id CConstraint c) as [first|]; [|done].
  destruct (checked_add32 first _) as [last|] eqn:El; [|done]. cbn [ok_or] in Hs'.
  destruct (spec_checks _ _ _ _ _ _ _ _) as [[[seen ops1]|]|] eqn:Ek; [|done..].
  destruct (spec_fks _ _ _ _ _ _ _ _ _) as [[ops2|]|] eqn:Ef; [|done..]. injection Hs' as <-.
  apply spec_checks_rows in Ek as (-> & Hn & -> & Ho). apply spec_fks_rows in Ef as (rows & -> & Hrows & Hn').
  exists first, last, rows. rewrite <- !app_assoc. split_and!; try done. rewrite app_nil_r in Hn'.
  apply fresh_all_app; by rewrite ?app_nil_r.
Qed.

End Spec.
