(* ===== verification/CatalogRefine.v ===== *)
(** * The catalog service refines its specification

    [st c s] relates a service state to the catalog it holds: the engine's map represents [c], and both caches, when
    filled, hold [c]'s foreign keys and CHECK constraints.  [reads_as] and [refines] say what a read and a whole request
    do from such a state; their rules follow the monad, so that each request's proof walks through its definition. *)

From stdpp Require Import base list option strings sorting.
From Stdlib Require Import ZArith Lia.
From Stdlib Require Import Strings.Byte.
From S2P Require Import Prelude BTree EngineError RelKey IndexKey RowCodec CatalogRows LsmEngine KvStore CatalogService.
From S2P Require Import CatalogRep CatalogSpec.

Module Refine.
Import Rel Row Rows Kv Cat Rep Spec.
Import Lsm(WriteOp, WPut, WDelete, outcome, Returned, Failed, Panicked).

Section Refine.
Context {E : Type} `{KvStoreLaws E view}.
Implicit Types (s : Service E) (c : Catalog).

(** ** States *)

Definition holds (s : Service E) (c : Catalog) : Prop := exists m, view (engine s) m /\ cat_rep m c.

Definition fk_coherent (c : Catalog) (s : Service E) : Prop := forall l, fk_cache s = Some l -> l = rows_of (c_fks c).
Definition check_coherent (c : Catalog) (s : Service E) : Prop := forall l, check_cache s = Some l -> l = checks_of c.

Definition st (c : Catalog) (s : Service E) : Prop := holds s c /\ fk_coherent c s /\ check_coherent c s.

(** ** Judgements *)

(** From a state that holds [c], [op] reads [r], or reports an engine error, and the state still holds [c]. *)
Definition reads_as {A} (c : Catalog) (op : CM (E := E) A) (r : option (cres A)) : Prop :=
  forall s, st c s -> exists s', st c s' /\ (op s = (s', r) \/ exists x, op s = (s', Some (Err (CEngine x)))).

(** What the caller of a request finds: the specification's verdict carried out; or an engine error, with the catalog
    as it was or with all of the request's changes. *)
Definition outcome_ok (c : Catalog) (v : verdict) (s' : Service E) (r : option (cres Z)) : Prop :=
  match r with
  | Some (Ok a) => exists ops, v = Some (Ok (a, ops)) /\ Forall op_ok ops /\ st (apply_cats ops c) s'
  | Some (Err x) =>
      (v = Some (Err x) /\ st c s') \/
      (exists e, x = CEngine e) /\
      (st c s' \/ exists a ops, v = Some (Ok (a, ops)) /\ Forall op_ok ops /\ holds s' (apply_cats ops c))
  | None => v = None /\ st c s'
  end.

Definition refines (c : Catalog) (op : CM (E := E) Z) (v : verdict) : Prop :=
  forall s, st c s -> outcome_ok c v (op s).1 (op s).2.

(** ** Rules for reads *)

Lemma reads_liftp {A} c (r : option (cres A)) : reads_as c (liftp r) r.
Proof. intros s Hs. exists s. split; [done|]. by left. Qed.

Lemma reads_ret {A} c (a : A) : reads_as c (mret a) (Some (Ok a)).
Proof. intros s Hs. exists s. split; [done|]. by left. Qed.

Lemma reads_bind {A B} c (op : CM A) r (k : A -> CM B) (f : A -> option (cres B)) :
  reads_as c op r -> (forall a, r = Some (Ok a) -> reads_as c (k a) (f a)) ->
  reads_as c (op ≫= k) (let! a := r in f a).
Proof.
  intros Hop Hk s Hs. destruct (Hop s Hs) as (s1 & Hs1 & Hr). unfold mbind, cbind.
  destruct Hr as [->|(x & ->)]; [|eauto]. destruct r as [[a|x]|]; [|eauto..]. by apply Hk.
Qed.

(** Two reads in a row, the first one returning a known value. *)
Lemma reads_then {A B} c (op : CM A) (k : A -> CM B) a r :
  reads_as c op (Some (Ok a)) -> reads_as c (k a) r -> reads_as c (op ≫= k) r.
Proof. intros Hop Hk. by apply (reads_bind c op (Some (Ok a)) k (fun _ => r)); [|intros b [= <-]]. Qed.

(** Changing the engine's own state keeps what it represents. *)
Lemma st_engine c s e m : view e m -> cat_rep m c -> fk_coherent c s -> check_coherent c s -> st c (set_engine e s).
Proof. intros Hv Hm Hf Hc. split; [by exists m|]. by split. Qed.

Lemma reads_get c k o :
  (forall m, cat_rep m c -> bt_get k m = o) -> reads_as c (engine_get k) (Some (Ok o)).
Proof.
  intros Hk s ((m & Hv & Hm) & Hf & Hc). unfold engine_get. destruct (kv_get_law k (engine s) m Hv) as [Hv' Hr].
  destruct (kv_get k (engine s)) as [e r]. simpl in *. exists (set_engine e s). split; [by apply (st_engine c s e m)|].
  destruct Hr as [->|(x & ->)]; simpl; [left|right; eauto]. by rewrite (Hk m Hm).
Qed.

Lemma reads_scan {A} c range (body : bytes -> bytes -> option (cres A)) keep l as_ :
  (forall m, cat_rep m c -> kv_range range.1 range.2 m = l) ->
  Forall2 (fun p a => body p.1 p.2 = Some (Ok a)) l as_ ->
  reads_as c (rows ← engine_scan range; liftp (collect_rows body keep rows [])) (Some (Ok (List.filter keep as_))).
Proof.
  intros Hl Hb s ((m & Hv & Hm) & Hf & Hc). unfold mbind, cbind, engine_scan.
  destruct (kv_scan_law range.1 range.2 (engine s) m Hv) as [Hv' Hr].
  destruct (kv_scan range.1 range.2 (engine s)) as [e r]. simpl in *. exists (set_engine e s).
  split; [by apply (st_engine c s e m)|]. rewrite (Hl m Hm) in Hr. destruct Hr as [->|(n & x & rest & ->)]; simpl.
  - left. unfold liftp. f_equal. rewrite <- (app_nil_r (map Ok l)). by rewrite (collect_ok _ _ _ as_).
  - right. exists x. unfold liftp. f_equal. rewrite (collect_ok _ _ _ (take n as_)); [done|]. by apply Forall2_take.
Qed.

(** Reading a system table whose rows are [sel c]. *)
Section Table.
Context {K R : Type} `{CatalogRow K R, !OrdLaws K, !CatalogRowLaws K R} (sel : Catalog -> list (K * R)).
Hypothesis Hsel : forall m c, cat_rep m c -> table_rep m (sel c).

Lemma reads_rows c keep : reads_as c (scan_rows R keep) (Some (Ok (List.filter keep (rows_of (sel c))))).
Proof.
  intros s Hs. pose proof Hs as ((m & Hv & Hm) & _).
  apply (reads_scan c (system_table_range (row_table R)) (parse_row R) keep (map enc_row (sel c)) (rows_of (sel c))); [| |done].
  - intros m' Hm'. apply (Hsel m' c Hm').
  - apply rows_parse. apply (Hsel m c Hm).
Qed.

Lemma reads_row c k : key_ok R k -> reads_as c (get_row R k) (Some (Ok (bt_get k (sel c)))).
Proof.
  intros Hk s Hs. pose proof Hs as ((m & Hv & Hm) & _).
  apply (reads_then c (engine_get (catalog_key (row_table R) (pk_bytes R k))) _ (row_value <$> bt_get k (sel c))); [| |done].
  - apply reads_get. intros m' Hm'. by apply (rep_get m' (sel c) k); [apply Hsel|].
  - destruct (bt_get k (sel c)) as [r|] eqn:Er; simpl; [|apply reads_ret].
    destruct (Hsel m c Hm) as [[_ Hr] _]. rewrite List.Forall_forall in Hr.
    destruct (Hr (k, r)) as [Hkey Hok]; [by apply bt_get_Some_In|]. simpl in Hkey. subst k.
    apply (reads_then c _ _ r); [|apply reads_ret]. rewrite value_parses by done. apply reads_liftp.
Qed.
End Table.

Lemma reads_schemas c db : reads_as c (list_schemas db) (Some (Ok (schemas_in c db))).
Proof. apply (reads_rows c_schemas). by intros ? ? []. Qed.
Lemma reads_tables c schema : reads_as c (list_tables schema) (Some (Ok (tables_in c schema))).
Proof. apply (reads_rows c_tables). by intros ? ? []. Qed.
Lemma reads_indexes c table : reads_as c (list_indexes table) (Some (Ok (indexes_on c table))).
Proof. apply (reads_rows c_indexes). by intros ? ? []. Qed.
Lemma reads_constraints c table : reads_as c (list_constraints table) (Some (Ok (constraints_on c table))).
Proof. apply (reads_rows c_constraints). by intros ? ? []. Qed.
Lemma reads_grants c principal : reads_as c (list_grants_for_principal principal) (Some (Ok (grants_of c principal))).
Proof. apply (reads_rows c_grants). by intros ? ? []. Qed.

Lemma reads_database c id : is_u32 id -> reads_as c (get_database id) (Some (Ok (bt_get id (c_databases c)))).
Proof. intros. apply (reads_row c_databases); [by intros ? ? []|done]. Qed.
Lemma reads_schema c id : is_u32 id -> reads_as c (get_schema id) (Some (Ok (bt_get id (c_schemas c)))).
Proof. intros. apply (reads_row c_schemas); [by intros ? ? []|done]. Qed.
Lemma reads_table c id : is_u32 id -> reads_as c (get_table id) (Some (Ok (bt_get id (c_tables c)))).
Proof. intros. apply (reads_row c_tables); [by intros ? ? []|done]. Qed.
Lemma reads_index c id : is_u32 id -> reads_as c (get_index id) (Some (Ok (bt_get id (c_indexes c)))).
Proof. intros. apply (reads_row c_indexes); [by intros ? ? []|done]. Qed.

(** *** Columns *)

Lemma filter_true {A} (l : list A) : List.filter (fun _ => true) l = l.
Proof. induction l as [|a l IH]; simpl; [done|by rewrite IH]. Qed.

Lemma insert_last (l : list ColumnRow) k :
  Forall (fun d => col_ordinal d <= col_ordinal k) l -> insert_by_ordinal k l = l ++ [k].
Proof. induction 1 as [|d l Hd Hl IH]; simpl; [done|]. cmp_lia. by rewrite IH. Qed.

Lemma sort_sorted (l : list ColumnRow) :
  StronglySorted (fun a b => col_ordinal a < col_ordinal b) l -> sort_by_ordinal l = l.
Proof.
  unfold sort_by_ordinal. intros Hs.
  enough (forall acc, StronglySorted (fun a b => col_ordinal a < col_ordinal b) (acc ++ l) ->
    fold_left (fun acc k => insert_by_ordinal k acc) l acc = acc ++ l) as Hall by by apply (Hall []).
  clear Hs. induction l as [|k l IH]; intros acc Hs; simpl; [by rewrite app_nil_r|].
  rewrite insert_last.
  - rewrite IH; rewrite <- app_assoc; [done|exact Hs].
  - apply List.Forall_forall. intros d Hd.
    enough (col_ordinal d < col_ordinal k) by lia. clear IH. induction acc as [|a acc IHa]; [done|].
    simpl in Hs. apply StronglySorted_inv in Hs as [Hs Ha]. destruct Hd as [<-|Hd]; [|by apply IHa].
    rewrite List.Forall_forall in Ha. apply Ha, in_or_app. right. by left.
Qed.

Lemma table_columns_sorted c id :
  rows_ok (c_columns c) -> StronglySorted (fun a b => col_ordinal a < col_ordinal b) (table_columns c id).
Proof.
  intros [Hs Hr]. unfold table_columns. unfold bt_sorted in Hs.
  induction Hs as [|[k r] l Hl IH Hall]; simpl; [constructor|]. inversion_clear Hr as [|? ? [Hk Hok] Hr'].
  simpl in Hk. destruct (Z.eqb_spec k.1 id) as [Ek|]; [|by apply IH]. simpl. constructor; [by apply IH|].
  apply List.Forall_forall. intros r' ([k' r''] & <- & [Hin Hid]%filter_In)%in_map_iff. simpl in *.
  rewrite List.Forall_forall in Hall, Hr'. specialize (Hall _ Hin). destruct (Hr' _ Hin) as [Hk' _]. simpl in *.
  unfold lt_key in Hall. simpl in Hall. subst k k'. simpl in *. rewrite cmp_pair in Hall. apply Z.eqb_eq in Hid.
  rewrite Ek, Hid in Hall. rewrite cmp_refl in Hall. by apply cmp_Z_lt.
Qed.

Lemma reads_columns c id : is_u32 id -> reads_as c (get_columns id) (Some (Ok (table_columns c id))).
Proof.
  intros Hid s Hs. pose proof Hs as ((m & Hv & Hm) & _).
  assert (rows_ok (c_columns c)) as Hr by apply (rep_columns _ _ Hm).
  assert (reads_as c
    (rows ← engine_scan (system_table_prefix_range SYSTEM_TABLE_COLUMNS (be32 id));
     liftp (collect_rows (parse_column id) (fun _ => true) rows []))
    (Some (Ok (List.filter (fun _ => true) (table_columns c id))))) as Hscan.
  { apply (reads_scan c _ _ _ (map enc_row (List.filter (fun p => p.1.1 =? id) (c_columns c))));
      [intros m' Hm'; by apply column_range|by apply columns_parse]. }
  destruct (Hscan s Hs) as (s' & Hs' & Ho). exists s'. split; [done|]. unfold get_columns, mbind, cbind in *.
  rewrite filter_true in Ho. destruct (engine_scan _ s) as [s1 [[rows|x]|]].
  - destruct Ho as [->|(x & ->)]; [left|right; eauto].
    rewrite sort_sorted by by apply table_columns_sorted. done.
  - destruct Ho as [Ho|(y & Ho)]; [done|right]. exists y. done.
  - by destruct Ho as [|[]].
Qed.

(** *** Caches *)

Lemma reads_fks c : reads_as c foreign_keys (Some (Ok (rows_of (c_fks c)))).
Proof.
  intros s Hs. unfold foreign_keys, mbind, cbind, gets. cbn [fst snd].
  destruct (fk_cache s) as [l|] eqn:Ec.
  { exists s. split; [done|]. left. destruct Hs as (_ & Hf & _). by rewrite (Hf l Ec). }
  assert (reads_as c (scan_rows ForeignKeyRow (fun _ => true)) (Some (Ok (List.filter (fun _ => true) (rows_of (c_fks c)))))) as Hscan
    by (apply (reads_rows c_fks); by intros ? ? []).
  rewrite filter_true in Hscan. destruct (Hscan s Hs) as (s1 & Hs1 & [->|(x & ->)]); [|by eauto].
  destruct (fk_generation s1 =? fk_generation s); unfold modify, mret, cret; cbn [fst snd]; [|by eauto].
  eexists. split; [|by left]. destruct Hs1 as (Hh & _ & Hc). split; [done|]. split; [by intros l [= <-]|done].
Qed.

Lemma reads_checks c : reads_as c check_constraints (Some (Ok (checks_of c))).
Proof.
  intros s Hs. unfold check_constraints, mbind, cbind, gets. cbn [fst snd].
  destruct (check_cache s) as [l|] eqn:Ec.
  { exists s. split; [done|]. left. destruct Hs as (_ & _ & Hf). by rewrite (Hf l Ec). }
  assert (reads_as c (scan_rows ConstraintRow (fun k => bool_decide (con_kind k = KCheck))) (Some (Ok (checks_of c)))) as Hscan
    by (apply (reads_rows c_constraints); by intros ? ? []).
  destruct (Hscan s Hs) as (s1 & Hs1 & [->|(x & ->)]); [|by eauto].
  destruct (check_generation s1 =? check_generation s); unfold modify, mret, cret; cbn [fst snd]; [|by eauto].
  eexists. split; [|by left]. destruct Hs1 as (Hh & Hf & _). split; [done|]. split; [done|by intros l [= <-]].
Qed.

(** *** Rows to write, identifiers *)

Lemma put_row_eq {K R} `{CatalogRow K R} (r : R) s : put_row r s = (s, Some (Ok (put_bytes r))).
Proof.
  unfold put_row, put_bytes, row_value, mbind, cbind, liftp.
  destruct (envelope_encode (Ty := CatalogValueType) (row_version R) (to_fields r)) as (bm & Henc & _).
  change (encode_row_envelope (row_version R) (to_fields r) put_field) with (encode_row (row_version R) (to_fields r)) in Henc.
  by rewrite Henc.
Qed.

Lemma reads_put {K R} `{CatalogRow K R} c (r : R) : reads_as c (put_row r) (Some (Ok (put_bytes r))).
Proof. intros s Hs. exists s. split; [done|]. left. apply put_row_eq. Qed.

Definition allocated (c : Catalog) (kind : CounterKind) : option (cres (Z * WriteOp)) :=
  let! n := Some (next_id kind c) in Some (Ok (n, op_bytes (SetCounter kind n))).

Lemma reads_allocate c kind : reads_as c (allocate_id kind) (allocated c kind).
Proof.
  intros s Hs. pose proof Hs as ((m & Hv & Hm) & _).
  assert (forall m', cat_rep m' c -> exists o, bt_get (counter_key kind) m' = o /\
    match o with Some raw => raw = le32 (c_counters c kind) | None => c_counters c kind = 0 end /\ is_u32 (c_counters c kind)) as Hget.
  { intros m' [_ Hc _ _ _ _ _ _ _ _]. destruct (Hc kind) as [Hu Hg]. eauto. }
  unfold allocate_id, mbind, cbind, engine_get.
  destruct Hs as (_ & Hf & Hc). destruct (kv_get_law (counter_key kind) (engine s) m Hv) as [Hv' Hr].
  destruct (kv_get (counter_key kind) (engine s)) as [e r]. simpl in *. exists (set_engine e s).
  split; [by apply (st_engine c s e m)|]. destruct Hr as [->|(x & ->)]; simpl; [left|right; eauto].
  destruct (Hget m Hm) as (o' & -> & Ho & Hu). unfold allocated, next_id.
  destruct o' as [raw|].
  - subst raw. rewrite length_le_bytes. simpl. rewrite le_val_32 by done. unfold liftr.
    by destruct (checked_add32 (c_counters c kind) 1).
  - rewrite Ho. done.
Qed.

(** ** Rules for requests *)

Lemma refines_bind {A} c (op : CM A) r (k : A -> CM Z) (f : A -> verdict) :
  reads_as c op r -> (forall a, r = Some (Ok a) -> refines c (k a) (f a)) -> refines c (op ≫= k) (let! a := r in f a).
Proof.
  intros Hop Hk s Hs. destruct (Hop s Hs) as (s1 & Hs1 & Hr). unfold mbind, cbind, outcome_ok.
  destruct Hr as [->|(x & ->)]; cbn [fst snd].
  - destruct r as [[a|x]|]; cbn [fst snd]; [by apply Hk|by left|done].
  - right. eauto.
Qed.

Lemma refines_check {A} c (r : cres A) (k : A -> CM Z) (f : A -> verdict) :
  (forall a, r = Ok a -> refines c (k a) (f a)) ->
  refines c (liftr r ≫= k) (match r with Ok a => f a | Err e => Some (Err e) end).
Proof.
  intros Hk. apply (refines_bind c (liftr r) (Some r) k f); [apply (reads_liftp c (Some r))|]. intros a [= ->]. by apply Hk.
Qed.

Lemma refines_then {A} c (op : CM A) (k : A -> CM Z) a v :
  reads_as c op (Some (Ok a)) -> refines c (k a) v -> refines c (op ≫= k) v.
Proof. intros Hop Hk. by apply (refines_bind c op (Some (Ok a)) k (fun _ => v)); [|intros b [= <-]]. Qed.

Lemma refines_assoc {A B} c (op : CM A) (k : A -> CM B) (k' : B -> CM Z) v :
  refines c (op ≫= fun a => k a ≫= k') v -> refines c ((op ≫= k) ≫= k') v.
Proof.
  intros Hr s Hs. specialize (Hr s Hs). unfold mbind, cbind in *. by destruct (op s) as [s1 [[a|x]|]].
Qed.

Lemma refines_allocate c kind (k : Z * WriteOp -> CM Z) (f : Z -> verdict) :
  (forall n, next_id kind c = Ok n -> refines c (k (n, op_bytes (SetCounter kind n))) (f n)) ->
  refines c (allocate_id kind ≫= k) (match next_id kind c with Ok n => f n | Err e => Some (Err e) end).
Proof.
  intros Hk s Hs. pose proof (refines_bind c (allocate_id kind) (allocated c kind) k (fun p => f p.1)) as Hb.
  unfold allocated in Hb. destruct (next_id kind c) as [n|x] eqn:En.
  - apply Hb; [|intros a [= <-]; by apply Hk|done]. pose proof (reads_allocate c kind) as Ha. unfold allocated in Ha.
    by rewrite En in Ha.
  - apply Hb; [|done|done]. pose proof (reads_allocate c kind) as Ha. unfold allocated in Ha. by rewrite En in Ha.
Qed.

Lemma refines_fail {A} c x (k : A -> CM Z) : refines c (fail x ≫= k) (refuse x).
Proof. intros s Hs. simpl. by left. Qed.

Lemma refines_fail' c x : refines c (fail x) (refuse x).
Proof. intros s Hs. simpl. by left. Qed.

Lemma refines_ret c a : refines c (mret a) (done a []).
Proof. intros s Hs. simpl. exists []. by split_and!. Qed.

(** After the write: the rest of the request brings the caches up to date with the new catalog. *)
Definition settles (c c' : Catalog) (rest : CM Z) (a : Z) : Prop :=
  forall s, holds s c' -> fk_coherent c s -> check_coherent c s -> exists s', rest s = (s', Some (Ok a)) /\ st c' s'.

Lemma refines_write c ops wops (rest : CM Z) a :
  wops = map op_bytes ops -> Forall op_ok ops -> settles c (apply_cats ops c) rest a ->
  refines c (write_batch wops ≫= fun _ => rest) (done a ops).
Proof.
  intros -> Hops Hrest s ((m & Hv & Hm) & Hf & Hc). unfold mbind, cbind, write_batch, outcome_ok.
  pose proof (cat_rep_ops m c ops Hm Hops) as Hm'.
  destruct (kv_write_law (map op_bytes ops) (engine s) m Hv) as [[Hv' (x & Hx)]|[Hv' Hr]];
    destruct (kv_write_batch (map op_bytes ops) (engine s)) as [e r]; cbn [fst snd] in *.
  - subst r. cbn. right. split; [by eexists|]. left. by apply (st_engine c s e m).
  - assert (holds (set_engine e s) (apply_cats ops c)) as Hh by (by eexists).
    destruct Hr as [(seq & ->)|(x & ->)]; cbn.
    + destruct (Hrest (set_engine e s)) as (s' & -> & Hs'); [done..|]. cbn. by exists ops.
    + right. split; [by eexists|]. right. by exists a, ops.
Qed.

Lemma settles_ret c c' a : c_fks c' = c_fks c -> checks_of c' = checks_of c -> settles c c' (mret a) a.
Proof.
  intros Ef Ec s Hh Hf Hc. exists s. split; [done|]. split; [done|]. unfold fk_coherent, check_coherent. by rewrite Ef, Ec.
Qed.

Lemma settles_fk c c' a : checks_of c' = checks_of c -> settles c c' (invalidate_foreign_keys ;; mret a) a.
Proof.
  intros Ec s Hh Hf Hc. eexists. split; [done|]. split; [exact Hh|]. split; [done|]. intros l Hl. rewrite Ec. by apply Hc.
Qed.

Lemma settles_checks c c' a : c_fks c' = c_fks c -> settles c c' (invalidate_checks ;; mret a) a.
Proof.
  intros Ef s Hh Hf Hc. eexists. split; [done|]. split; [exact Hh|]. split; [|done]. intros l Hl. rewrite Ef. by apply Hf.
Qed.

(** Two conditional invalidations in a row, as after [create_table] and [drop_table]. *)
Lemma settles_both c c' a (f g : CM unit) (bf bg : bool) :
  f = (if bf then invalidate_foreign_keys else mret tt) -> g = (if bg then invalidate_checks else mret tt) ->
  (bf = false -> c_fks c' = c_fks c) -> (bg = false -> checks_of c' = checks_of c) ->
  settles c c' (f ;; g ;; mret a) a.
Proof.
  intros -> -> Ef Ec s Hh Hf Hc.
  destruct bf, bg; cbn; eexists; (split; [done|]); (split; [exact Hh|]); (split; [|]); try done;
    intros l Hl; [rewrite Ec|rewrite Ef|rewrite Ef|rewrite Ec]; try done; first [by apply Hf|by apply Hc].
Qed.

(** Requests that touch neither cached table. *)
Definition plain (op : CatOp) : bool :=
  match op with PutFk _ | DelFk _ | PutConstraint _ | DelConstraint _ => false | _ => true end.

Lemma plain_ops c ops :
  Forall (fun op => plain op = true) ops ->
  c_fks (apply_cats ops c) = c_fks c /\ checks_of (apply_cats ops c) = checks_of c.
Proof.
  intros Hp. unfold checks_of. enough (c_fks (apply_cats ops c) = c_fks c /\ c_constraints (apply_cats ops c) = c_constraints c)
    as [? ->] by done.
  revert c. induction Hp as [|op ops Hop Hops IH]; intros c; simpl; [done|].
  destruct (IH (apply_cat c op)) as [-> ->]. by destruct c, op.
Qed.

Lemma refines_write_plain c ops wops a :
  wops = map op_bytes ops -> Forall op_ok ops -> Forall (fun op => plain op = true) ops ->
  refines c (write_batch wops ≫= fun _ => mret a) (done a ops).
Proof. intros. apply refines_write; [done..|]. destruct (plain_ops c ops) as [? ?]; [done|]. by apply settles_ret. Qed.

(** ** Requests *)

Lemma refines_rep c op v : (forall m, cat_rep m c -> refines c op v) -> refines c op v.
Proof. intros Hr s Hs. pose proof Hs as ((m & _ & Hm) & _). by apply (Hr m). Qed.

(** A row read from the catalog is well formed and sits at its own key. *)
Lemma got_row {K R} `{CatalogRow K R, !OrdLaws K} m (rows : list (K * R)) k r :
  table_rep m rows -> bt_get k rows = Some r -> row_key r = k /\ row_ok r.
Proof.
  intros [[_ Hr] _] Hg. rewrite List.Forall_forall in Hr.
  by destruct (Hr (k, r) (bt_get_Some_In _ _ _ Hg)) as [Hk ?].
Qed.

Lemma valid_utf8_app a b : valid_utf8 a = true -> valid_utf8 b = true -> valid_utf8 (a ++ b) = true.
Proof.
  intros Ha Hb. remember (length a) as n eqn:Hn. revert a Ha Hn.
  induction n as [n IH] using lt_wf_ind; intros a Ha ->.
  assert (forall l, (length l < length a)%nat -> valid_utf8 l = true -> valid_utf8 (l ++ b) = true) as Hrec
    by (intros l Hl Hv; by apply (IH (length l))).
  clear IH. destruct a as [|b0 a]; [done|]. simpl in Ha |- *. destruct (between 0 127 b0); [apply Hrec; [simpl; lia|done]|].
  destruct a as [|b1 a]; [done|]. simpl in Ha |- *. destruct (between 194 223 b0).
  { apply andb_prop in Ha as [-> Ha]. apply Hrec; [simpl; lia|done]. }
  destruct a as [|b2 a]; [done|]. simpl in Ha |- *.
  destruct (between 224 224 b0); [apply andb_prop in Ha as [-> Ha]; apply Hrec; [simpl; lia|done]|].
  destruct (between 237 237 b0); [apply andb_prop in Ha as [-> Ha]; apply Hrec; [simpl; lia|done]|].
  destruct (between 225 239 b0); [apply andb_prop in Ha as [-> Ha]; apply Hrec; [simpl; lia|done]|].
  destruct a as [|b3 a]; [done|]. simpl in Ha |- *.
  destruct (between 240 240 b0); [apply andb_prop in Ha as [-> [-> Ha]%andb_prop]; apply Hrec; [simpl; lia|done]|].
  destruct (between 241 243 b0); [apply andb_prop in Ha as [-> [-> Ha]%andb_prop]; apply Hrec; [simpl; lia|done]|].
  destruct (between 244 244 b0); [apply andb_prop in Ha as [-> [-> Ha]%andb_prop]; apply Hrec; [simpl; lia|done]|done].
Qed.

Lemma validated_name name kind : validate_name name kind = Ok tt -> 0 < zlen name <= 255.
Proof. unfold validate_name. repeat case_cmp; try done. lia. Qed.

Lemma next_id_u32 m c kind n : cat_rep m c -> next_id kind c = Ok n -> is_u32 n.
Proof. intros Hm [-> ?]%next_id_spec. destruct (rep_counters _ _ Hm kind) as [Hu _]. unfold_ints. lia. Qed.

#[local] Ltac foralls := repeat match goal with |- Forall _ _ => constructor end.
#[local] Ltac leaf :=
  first [ apply reads_liftp | apply reads_ret | apply reads_put | apply reads_fks | apply reads_checks | apply reads_schemas
        | apply reads_tables | apply reads_indexes | apply reads_constraints | apply reads_grants
        | by apply reads_database | by apply reads_schema | by apply reads_table | by apply reads_index
        | by apply reads_columns ].
#[local] Ltac step := eapply refines_then; [leaf|].
#[local] Ltac check := first [apply refines_check; intros ? ? | eapply refines_bind; [leaf|intros ? ?]].
#[local] Ltac plain_write :=
  apply refines_write_plain; [reflexivity|foralls; simpl; try done|foralls; done].

Lemma refines_create_schema c now database_id name :
  request_ok (CreateSchema now database_id name) ->
  refines c (create_schema now database_id name) (spec_create_schema now database_id name c).
Proof.
  intros (Hnow & Hdb & Hname). apply refines_rep. intros m Hm. unfold create_schema, spec_create_schema. check. step.
  destruct (bt_get database_id (c_databases c)); [|apply refines_fail']. step.
  destruct (existsb _ _); [apply refines_fail'|]. apply refines_allocate. intros n Hn. step. plain_write.
  - by apply (next_id_u32 m c CSchema).
  - split_and!; try done. by apply (next_id_u32 m c CSchema).
Qed.

Lemma refines_drop_schema c id :
  is_u32 id -> refines c (drop_schema id ;; mret 0) (spec_drop_schema id c).
Proof.
  intros Hid. unfold drop_schema, spec_drop_schema. apply refines_assoc. step.
  destruct (bt_get id (c_schemas c)); [|apply refines_fail]. apply refines_assoc. step.
  destruct (tables_in c id); [|apply refines_fail]. apply refines_assoc. plain_write.
Qed.

Lemma refines_create_index c now table_id name kind ordinals :
  request_ok (CreateIndex now table_id name kind ordinals) ->
  refines c (create_index now table_id name kind ordinals) (spec_create_index now table_id name kind ordinals c).
Proof.
  intros (Hnow & Hid & Hname & Hord). apply refines_rep. intros m Hm. unfold create_index, spec_create_index. check.
  destruct (bool_decide _); [apply refines_fail'|]. destruct (_ =? 0); [apply refines_fail'|].
  destruct (_ <? _); [apply refines_fail'|]. step.
  destruct (bt_get table_id (c_tables c)) as [t|] eqn:Et; [|apply refines_fail'].
  apply (got_row m) in Et as [Hk [Ht _]]; [|apply Hm]. simpl in Hk. step.
  destruct (existsb _ _); [apply refines_fail'|]. step. destruct (existsb _ _); [apply refines_fail'|].
  destruct (_ <=? _); [apply refines_fail'|]. apply refines_allocate. intros n Hn. step. plain_write.
  - by apply (next_id_u32 m c CIndex).
  - split_and!; try done. by apply (next_id_u32 m c CIndex).
Qed.

Lemma refines_require_index {c id} (k : IndexRow -> CM Z) (f : IndexRow -> verdict) :
  is_u32 id -> (forall i, bt_get id (c_indexes c) = Some i -> refines c (k i) (f i)) ->
  refines c (require_index id ≫= k) (let! i := index_of c id in f i).
Proof.
  intros Hid Hk. unfold require_index, index_of. apply refines_assoc. step.
  destruct (bt_get id (c_indexes c)) as [i|] eqn:Ei; [by apply Hk|apply refines_fail].
Qed.

Lemma refines_not_referenced c id (k : unit -> CM Z) v :
  refines c (k tt) v -> refines c (refuse_if_foreign_key_uses_index id ≫= k) (let! _ := not_referenced c id in v).
Proof.
  intros Hk. unfold refuse_if_foreign_key_uses_index, not_referenced. apply refines_assoc. step.
  destruct (existsb _ _); [apply refines_fail|exact Hk].
Qed.

Lemma refines_drop_index c id : is_u32 id -> refines c (drop_index id ;; mret 0) (spec_drop_index id c).
Proof.
  intros Hid. unfold drop_index, spec_drop_index. apply refines_assoc. apply refines_require_index; [done|]. intros i _.
  unfold not_primary. destruct (bool_decide _); [apply refines_fail|]. apply refines_assoc, refines_not_referenced, refines_assoc.
  plain_write.
Qed.

Lemma refines_transition {A} c id allowed to (a : A) (k : IndexRow -> CM Z) :
  is_u32 id -> (forall i, k i = mret 0) ->
  refines c (transition_index_state id allowed to ≫= k) (spec_transition id allowed to c).
Proof.
  intros Hid Hk. apply refines_rep. intros m Hm. unfold transition_index_state, spec_transition. apply refines_assoc.
  apply refines_require_index; [done|]. intros i Hi. apply (got_row m) in Hi as [Hi Hok]; [|apply Hm].
  destruct (existsb _ _); [|apply refines_fail]. apply refines_assoc. step. apply refines_assoc.
  change (fun _ : Z => mret (with_state i to) ≫= k) with (fun _ : Z => k (with_state i to)). rewrite Hk. plain_write.
Qed.

Lemma refines_mark c id allowed to :
  is_u32 id -> refines c ((transition_index_state id allowed to ;; mret tt) ;; mret 0) (spec_transition id allowed to c).
Proof. intros Hid. apply refines_assoc. by apply (refines_transition (A := unit) c id allowed to tt). Qed.

(** The part of [mark_index_dropping] that runs without the lock. *)
Lemma refines_dropping_check c id (k : unit -> CM Z) v :
  is_u32 id -> refines c (k tt) v ->
  refines c (mark_dropping_check id ≫= k) (let! i := index_of c id in let! _ := not_primary i in let! _ := not_referenced c id in v).
Proof.
  intros Hid Hk. unfold mark_dropping_check. apply refines_assoc. apply refines_require_index; [done|].
  intros i _. unfold not_primary. destruct (bool_decide _); [apply refines_fail|]. by apply refines_not_referenced.
Qed.

Lemma refines_mark_dropping c id : is_u32 id -> refines c (mark_index_dropping id ;; mret 0) (spec_mark_dropping id c).
Proof.
  intros Hid. unfold mark_index_dropping, spec_mark_dropping. apply refines_assoc. apply refines_dropping_check; [done|].
  by apply refines_mark.
Qed.

Lemma refines_remove_index c id : is_u32 id -> refines c (remove_index_row id ;; mret 0) (spec_remove_index id c).
Proof.
  intros Hid. unfold remove_index_row, spec_remove_index. apply refines_assoc. apply refines_require_index; [done|]. intros i _.
  destruct (bool_decide _); [|apply refines_fail]. apply refines_assoc. plain_write.
Qed.

(** *** Constraints and columns *)

Lemma filter_insert_fresh {R} (f : R -> bool) (id : Z) (r : R) (rows : list (Z * R)) :
  bt_get id rows = None -> f r = false ->
  List.filter f (rows_of (bt_insert id r rows)) = List.filter f (rows_of rows).
Proof.
  intros Hg Hf. induction rows as [|[k r'] rows IH]; simpl in *; [by rewrite Hf|].
  destruct (cmp id k) eqn:Ec; [done|simpl; by rewrite Hf|]. simpl. by rewrite IH.
Qed.

Lemma refines_create_constraint c table_id name kind ordinals expr :
  request_ok (CreateConstraint table_id name kind ordinals expr) -> kind <> KCheck -> ids_ok c ->
  refines c (create_constraint table_id name kind ordinals expr) (spec_create_constraint table_id name kind ordinals expr c).
Proof.
  intros (Hid & Hname & Hord & Hexpr) Hkind Hids. apply refines_rep. intros m Hm.
  unfold create_constraint, spec_create_constraint. check. step.
  destruct (bt_get table_id (c_tables c)); [|apply refines_fail']. destruct (_ && _); [apply refines_fail'|].
  apply refines_allocate. intros n Hn. step. pose proof (next_id_u32 m c CConstraint n Hm Hn) as Hu.
  apply refines_write; [reflexivity|foralls; simpl; try done; split_and!; try done; by unfold_ints|].
  apply settles_ret; [by destruct c|]. apply next_id_spec in Hn as [-> _]. pose proof (ids_constraints c Hids) as Hc.
  unfold checks_of. destruct c as [cs ds ss ts cols idx cns fks gs]. simpl in *. apply filter_insert_fresh.
  - by apply fresh_id.
  - by apply bool_decide_eq_false_2.
Qed.

Lemma active_table_spec c id t : active_table c id = Some (Ok t) -> bt_get id (c_tables c) = Some t /\ tbl_state t = TActive.
Proof.
  unfold active_table. destruct (bt_get id (c_tables c)) as [t'|]; [|done]. case_bool_decide; [|done]. by intros [= ->].
Qed.

Lemma reads_active c id : is_u32 id -> reads_as c (require_active_table id) (active_table c id).
Proof.
  intros Hid. unfold require_active_table, active_table. eapply reads_then; [by apply reads_table|].
  destruct (bt_get id (c_tables c)) as [t|]; [|apply (reads_liftp c (refuse _))].
  destruct (bool_decide _); [apply reads_ret|apply (reads_liftp c (refuse _))].
Qed.

Lemma bump_ok t : table_ok t -> table_ok (bump_version t).
Proof. intros (? & ? & ? & ? & Hv & ?). split_and!; try done; simpl; unfold_ints; lia. Qed.

Lemma reads_alter c t : reads_as c (alter_table_row_op t) (Some (Ok (bump_version t, op_bytes (PutTable (bump_version t))))).
Proof. unfold alter_table_row_op. eapply reads_then; [apply reads_put|]. apply reads_ret. Qed.

Lemma rows_row_ok {K R} `{CatalogRow K R} m (rows : list (K * R)) r : table_rep m rows -> In r (rows_of rows) -> row_ok r.
Proof.
  intros [[_ Hr] _] (p & <- & Hp)%in_map_iff. rewrite List.Forall_forall in Hr. by apply Hr.
Qed.

Lemma table_columns_In c id k : In k (table_columns c id) <-> exists key, In (key, k) (c_columns c) /\ key.1 = id.
Proof.
  unfold table_columns, rows_of. rewrite in_map_iff. split.
  - intros ([key k'] & <- & [Hin Hk]%filter_In). apply Z.eqb_eq in Hk. eauto.
  - intros (key & Hin & <-). exists (key, k). split; [done|]. apply filter_In. split; [done|]. apply Z.eqb_refl.
Qed.

Lemma table_column_spec m c id k :
  cat_rep m c -> In k (table_columns c id) -> column_row_ok k /\ col_table_id k = id /\ bt_get (id, col_ordinal k) (c_columns c) = Some k.
Proof.
  intros Hm (key & Hin & <-)%table_columns_In. destruct (rep_columns _ _ Hm) as [[Hs Hr] _].
  pose proof (bt_In_get _ _ _ Hs Hin) as Hg. rewrite List.Forall_forall in Hr. destruct (Hr _ Hin) as [Hk Hok].
  simpl in Hk, Hok. subst key. by split_and!.
Qed.

Lemma column_of_spec m c table_id ordinal k :
  cat_rep m c -> column_of c table_id ordinal = Some (Ok k) ->
  In k (table_columns c table_id) /\ col_ordinal k = ordinal /\ col_table_id k = table_id /\ column_row_ok k /\
  bt_get (table_id, ordinal) (c_columns c) = Some k.
Proof.
  intros Hm. unfold column_of, find_column. destruct (List.find _ _) as [k'|] eqn:Ef; [|done]. intros [= ->].
  apply List.find_some in Ef as [Hin Ho%Z.eqb_eq]. destruct (table_column_spec m c table_id k Hm Hin) as (Hok & Ht & Hg).
  subst ordinal. done.
Qed.

Lemma reads_column c table_id ordinal : is_u32 table_id -> reads_as c (column_for_alter table_id ordinal) (column_of c table_id ordinal).
Proof.
  intros Hid. unfold column_for_alter, column_of. eapply reads_then; [by apply reads_columns|].
  destruct (find_column _ _); [apply reads_ret|apply (reads_liftp c (refuse _))].
Qed.

Lemma refines_write_column m c t k (f : unit -> CM Z) :
  cat_rep m c -> table_ok t -> column_row_ok k -> (forall u, f u = mret 0) ->
  refines c (write_column t k ≫= f) (change_column t k).
Proof.
  intros Hm Ht Hk Hf. unfold write_column, change_column. apply refines_assoc. eapply refines_then; [apply reads_alter|].
  apply refines_assoc. step. apply refines_assoc.
  change (fun _ : Z => mret tt ≫= f) with (fun _ : Z => f tt). rewrite Hf. plain_write. by apply bump_ok.
Qed.

Lemma active_row_ok m c id t : cat_rep m c -> active_table c id = Some (Ok t) -> tbl_table_id t = id /\ table_ok t.
Proof. intros Hm [Hg _]%active_table_spec. exact (got_row m (c_tables c) id t (rep_tables _ _ Hm) Hg). Qed.

Lemma refines_add_column c table_id column backfill :
  request_ok (AddColumn table_id column backfill) ->
  refines c (add_column table_id column backfill) (spec_add_column table_id column backfill c).
Proof.
  intros (Hid & (Hn & Ht & Hd & Hp) & Hb). apply refines_rep. intros m Hm. unfold add_column, spec_add_column. check.
  eapply refines_bind; [by apply reads_active|]. intros t Hact. step.
  destruct (existsb _ _); [apply refines_fail'|]. destruct (Z.leb_spec 65535 (zlen (table_columns c table_id))); [apply refines_fail'|].
  rewrite Z.mod_small by lia. eapply refines_then; [apply reads_alter|]. step.
  destruct (active_row_ok m c table_id t Hm Hact) as [_ Hok]. plain_write; [by apply bump_ok|].
  pose proof (bump_ok t Hok) as (_ & _ & _ & _ & Hver & _).
  refine (conj (conj Hid _) (conj Hn (conj Ht (conj Hd (conj Hver (conj Hp Hb)))))). unfold is_u16. simpl. lia.
Qed.

Lemma refines_rename_column c table_id ordinal name :
  request_ok (RenameColumn table_id ordinal name) ->
  refines c (rename_column table_id ordinal name ;; mret 0) (spec_rename_column table_id ordinal name c).
Proof.
  intros (Hid & Hname). apply refines_rep. intros m Hm. unfold rename_column, spec_rename_column. apply refines_assoc. check.
  apply refines_assoc. eapply refines_bind; [by apply reads_active|]. intros t Hact.
  apply refines_assoc. eapply refines_bind; [by apply reads_column|]. intros k Hk. apply refines_assoc. step.
  destruct (existsb _ _); [apply refines_fail|]. apply refines_assoc. step. destruct (existsb _ _); [apply refines_fail|].
  apply (column_of_spec m) in Hk as (_ & _ & _ & Hok & _); [|done].
  apply (refines_write_column m); [done|apply (active_row_ok m c table_id t Hm Hact)| |done].
  unfold column_row_ok in *. simpl. tauto.
Qed.

Lemma refines_set_default c table_id ordinal v :
  request_ok (SetColumnDefault table_id ordinal v) ->
  refines c (set_column_default table_id ordinal v ;; mret 0) (spec_set_default table_id ordinal v c).
Proof.
  intros (Hid & Hv). apply refines_rep. intros m Hm. unfold set_column_default, spec_set_default.
  apply refines_assoc. eapply refines_bind; [by apply reads_active|]. intros t Hact.
  apply refines_assoc. eapply refines_bind; [by apply reads_column|]. intros k Hk.
  apply (column_of_spec m) in Hk as (_ & _ & _ & Hok & _); [|done].
  apply (refines_write_column m); [done|apply (active_row_ok m c table_id t Hm Hact)| |done].
  unfold column_row_ok in *. simpl. tauto.
Qed.

Lemma refines_set_nullable c table_id ordinal b :
  is_u32 table_id ->
  refines c (set_column_nullable table_id ordinal b ;; mret 0) (spec_set_nullable table_id ordinal b c).
Proof.
  intros Hid. apply refines_rep. intros m Hm. unfold set_column_nullable, spec_set_nullable.
  apply refines_assoc. eapply refines_bind; [by apply reads_active|]. intros t Hact.
  apply refines_assoc. eapply refines_bind; [by apply reads_column|]. intros k Hk.
  apply (column_of_spec m) in Hk as (_ & _ & _ & Hok & _); [|done].
  assert (refines c (write_column t (with_nullable k b) ≫= fun _ => mret 0) (change_column t (with_nullable k b))) as Hw.
  { apply (refines_write_column m); [done|apply (active_row_ok m c table_id t Hm Hact)| |done].
    unfold column_row_ok in *. simpl. tauto. }
  destruct (b && _); [apply refines_fail|]. apply refines_assoc. destruct b; [exact Hw|]. apply refines_assoc. step.
  change (fun fk => (fk_table_id fk =? table_id) && zmem ordinal (fk_child_ordinals fk)
    && (bool_decide (fk_on_delete fk = SetNull) || bool_decide (fk_on_update fk = SetNull))) with (sets_null table_id ordinal).
  destruct (existsb _ _); [apply refines_fail|exact Hw].
Qed.

(** *** Foreign keys, CHECK constraints, grants *)

Lemma reads_check {A B} c (r : cres A) (k : A -> CM B) (f : A -> option (cres B)) :
  (forall a, r = Ok a -> reads_as c (k a) (f a)) ->
  reads_as c (liftr r ≫= k) (match r with Ok a => f a | Err e => Some (Err e) end).
Proof.
  intros Hk. apply (reads_bind c (liftr r) (Some r) k f); [apply (reads_liftp c (Some r))|]. intros a [= ->]. by apply Hk.
Qed.

Lemma reads_fail {A} c x : reads_as (A := A) c (fail x) (refuse x).
Proof. apply (reads_liftp c (refuse x)). Qed.

Lemma reads_shape c t : is_u32 (tbl_table_id t) -> reads_as c (fk_shape t) (Some (Ok (shape_of c t))).
Proof.
  intros Ht. unfold fk_shape. eapply reads_then; [by apply reads_columns|]. eapply reads_then; [apply reads_indexes|]. apply reads_ret.
Qed.

Lemma reads_child_fks c id : reads_as c (list_foreign_keys_for_child id) (Some (Ok (fks_of c id))).
Proof. unfold list_foreign_keys_for_child. eapply reads_then; [apply reads_fks|]. apply reads_ret. Qed.

Lemma reads_check_fk m c new : cat_rep m c -> new_fk_ok new -> reads_as c (check_foreign_key new) (spec_check_fk new c).
Proof.
  intros Hm (Hid & Hname & Hc & Hpid & Hp). unfold check_foreign_key, spec_check_fk. apply reads_check. intros _ _.
  eapply reads_bind; [by apply reads_active|]. intros child Hchild. eapply reads_bind; [by apply reads_active|].
  intros parent Hparent. destruct (active_row_ok m c _ child Hm Hchild) as [_ (Hcid & _)].
  destruct (active_row_ok m c _ parent Hm Hparent) as [_ (Hpid' & _)].
  eapply reads_then; [by apply reads_shape|].
  apply (reads_then c _ _ (shape_of c (if tbl_table_id parent =? tbl_table_id child then child else parent))).
  { destruct (_ =? _); [apply reads_ret|by apply reads_shape]. }
  eapply reads_bind; [apply reads_liftp|]. intros index Hindex. eapply reads_then; [apply reads_child_fks|].
  apply (reads_then c _ _ (name_taken c (tbl_table_id child) (nf_name new))).
  - unfold name_taken. destruct (existsb _ (fks_of c _)); simpl; [apply reads_ret|].
    eapply reads_then; [apply reads_checks|]. apply reads_ret.
  - destruct (name_taken _ _ _); [apply reads_fail|apply reads_ret].
Qed.

Lemma resolved_index m c def child t i :
  cat_rep m c -> resolve_foreign_key def child (shape_of c t) = Some (Ok i) -> opt_ok is_u32 i.
Proof.
  intros Hm. unfold resolve_foreign_key. repeat (destruct (_ : bool); [done|]).
  destruct (check_pairs _ _ _); [|done]. unfold resolve_parent_index. destruct (same_set _ _).
  - repeat (destruct (check_action _ _ _) as [[]|]; [|done..]). by intros [= <-].
  - destruct (List.find _ _) as [i'|] eqn:Ef; [|done]. repeat (destruct (check_action _ _ _) as [[]|]; [|done..]).
    intros [= <-]. simpl. apply List.find_some in Ef as [[[Hin _]%filter_In _]%filter_In _].
    apply (rows_row_ok m) in Hin as (? & _); [done|apply Hm].
Qed.

Lemma refines_create_fk c now new :
  request_ok (CreateForeignKey now new) -> refines c (create_foreign_key now new) (spec_create_fk now new c).
Proof.
  intros (Hnow & Hnew). apply refines_rep. intros m Hm. unfold create_foreign_key, spec_create_fk.
  eapply refines_bind; [by apply (reads_check_fk m)|]. intros index Hindex.
  destruct Hnew as (Hid & Hname & Hc & Hpid & Hp). eapply refines_bind; [by apply reads_active|]. intros child Hchild.
  apply refines_allocate. intros n Hn. pose proof (next_id_u32 m c CConstraint n Hm Hn) as Hu.
  eapply refines_then; [apply reads_alter|]. step. destruct (active_row_ok m c _ child Hm Hchild) as [Hcid Hok].
  apply refines_write; [reflexivity| |by apply settles_fk; destruct c].
  foralls; [done|by apply bump_ok|]. simpl. unfold foreign_key_ok. simpl. rewrite Hcid.
  enough (opt_ok is_u32 index) by tauto. clear -Hm Hindex. unfold spec_check_fk in Hindex.
  destruct (validate_name _ _); [|done]. destruct (active_table _ _) as [[]|]; [|done..].
  destruct (active_table _ _) as [[]|]; [|done..].
  destruct (resolve_foreign_key _ _ _) as [[i|]|] eqn:Er; [|done..]. destruct (name_taken _ _ _); [done|]. injection Hindex as ->.
  by apply (resolved_index m) in Er.
Qed.

Lemma reads_bump m c id ops :
  cat_rep m c -> is_u32 id ->
  reads_as c (bump_op_if_present id (map op_bytes ops)) (Some (Ok (map op_bytes (ops ++ bump_if_present c id)))) /\
  Forall op_ok (bump_if_present c id).
Proof.
  intros Hm Hid. unfold bump_op_if_present, bump_if_present. split.
  - eapply reads_then; [by apply reads_table|]. destruct (bt_get id (c_tables c)) as [t|].
    + eapply reads_then; [apply reads_alter|]. rewrite map_app. apply reads_ret.
    + rewrite app_nil_r. apply reads_ret.
  - destruct (bt_get id (c_tables c)) as [t|] eqn:Et; [|constructor]. apply (got_row m) in Et as [_ Hok]; [|apply Hm].
    constructor; [by apply bump_ok|constructor].
Qed.

Lemma apply_cats_app ops ops' c : apply_cats (ops ++ ops') c = apply_cats ops' (apply_cats ops c).
Proof. apply fold_left_app. Qed.

Lemma bump_plain c c' id :
  c_fks (apply_cats (bump_if_present c id) c') = c_fks c' /\ checks_of (apply_cats (bump_if_present c id) c') = checks_of c'.
Proof. apply plain_ops. unfold bump_if_present. destruct (bt_get _ _); by repeat constructor. Qed.

Lemma refines_drop_fk c id : is_u32 id -> refines c (drop_foreign_key id ;; mret 0) (spec_drop_fk id c).
Proof.
  intros Hid. apply refines_rep. intros m Hm. unfold drop_foreign_key, spec_drop_fk. apply refines_assoc. step.
  destruct (List.find _ _) as [fk|] eqn:Ef; [|apply refines_fail]. apply List.find_some in Ef as [Hin _].
  apply (rows_row_ok m) in Hin as (_ & Hfk & _); [|apply Hm].
  destruct (reads_bump m c (fk_table_id fk) [DelFk id] Hm Hfk) as [Hread Hops].
  apply refines_assoc. eapply refines_then; [exact Hread|]. apply refines_assoc. apply refines_write; [done|by constructor|].
  apply settles_fk. rewrite apply_cats_app. destruct (bump_plain c (apply_cats [DelFk id] c) (fk_table_id fk)) as [_ ->].
  by destruct c.
Qed.

Lemma refines_create_check c table_id name ordinals expr :
  request_ok (CreateCheck table_id name ordinals expr) ->
  refines c (create_check_constraint table_id name ordinals expr) (spec_create_check table_id name ordinals expr c).
Proof.
  intros (Hid & Hname & Hord & Hexpr). apply refines_rep. intros m Hm. unfold create_check_constraint, spec_create_check.
  check. check. eapply refines_bind; [by apply reads_active|]. intros t Hact. step.
  destruct (existsb _ _); [apply refines_fail'|]. step.
  apply (refines_then c _ _ (existsb (fun k => (con_table_id k =? table_id) && bytes_eqb (con_name k) name) (checks_of c)
          || existsb (fun f => bytes_eqb (fk_name f) name) (fks_of c table_id))).
  { destruct (existsb _ (checks_of c)); simpl; [apply reads_ret|]. eapply reads_then; [apply reads_child_fks|]. apply reads_ret. }
  destruct (_ || _); [apply refines_fail'|]. apply refines_allocate. intros n Hn.
  pose proof (next_id_u32 m c CConstraint n Hm Hn) as Hu. eapply refines_then; [apply reads_alter|]. step.
  destruct (active_row_ok m c _ t Hm Hact) as [_ Hok].
  apply refines_write; [reflexivity| |by apply settles_checks; destruct c].
  pose proof (bump_ok t Hok) as Hb. foralls; [done|done|]. destruct Hb as (_ & _ & _ & _ & Hv & _).
  simpl. unfold constraint_ok. simpl in *. tauto.
Qed.

Lemma refines_drop_check c id : is_u32 id -> refines c (drop_check_constraint id ;; mret 0) (spec_drop_check id c).
Proof.
  intros Hid. apply refines_rep. intros m Hm. unfold drop_check_constraint, spec_drop_check. apply refines_assoc. step.
  destruct (List.find _ _) as [k|] eqn:Ef; [|apply refines_fail]. apply List.find_some in Ef as [[Hin _]%filter_In _].
  apply (rows_row_ok m) in Hin as (_ & Hk & _); [|apply Hm].
  destruct (reads_bump m c (con_table_id k) [DelConstraint id] Hm Hk) as [Hread Hops].
  apply refines_assoc. eapply refines_then; [exact Hread|]. apply refines_assoc. apply refines_write; [done|by constructor|].
  apply settles_checks. rewrite apply_cats_app. destruct (bump_plain c (apply_cats [DelConstraint id] c) (con_table_id k)) as [-> _].
  by destruct c.
Qed.

Lemma refines_grant c now principal kind id p :
  request_ok (Grant now principal kind id p) -> refines c (grant now principal kind id p) (spec_grant now principal kind id p c).
Proof.
  intros (Hnow & Hp & Hid). apply refines_rep. intros m Hm. unfold grant, spec_grant.
  destruct (_ =? 0); [apply refines_fail'|]. step. destruct (existsb _ _); [apply refines_fail'|].
  apply refines_allocate. intros n Hn. pose proof (next_id_u32 m c CGrant n Hm Hn) as Hu. step. plain_write.
Qed.

Lemma refines_revoke c principal kind id p : refines c (revoke principal kind id p) (spec_revoke principal kind id p c).
Proof.
  apply refines_rep. intros m Hm. unfold revoke, spec_revoke. step.
  set (matching := map gr_grant_id _).
  assert (Forall is_u32 matching) as Hu.
  { apply List.Forall_forall. intros i (g & <- & [[Hin _]%filter_In _]%filter_In)%in_map_iff.
    apply (rows_row_ok m) in Hin as (? & _); [done|apply Hm]. }
  clearbody matching. destruct matching as [|i l]; [apply refines_ret|].
  apply refines_write_plain; [by rewrite map_map|by apply Forall_map|apply Forall_map; by apply Forall_true].
Qed.

(** *** Dropping a table *)

Lemma bt_remove_filter {K V} `{OrdLaws K} (k : K) (l : list (K * V)) :
  bt_sorted l -> bt_remove k l = List.filter (fun p => negb (eqb p.1 k)) l.
Proof.
  unfold bt_sorted. induction 1 as [|[k' v] l Hl IH Hall]; simpl; [done|]. unfold eqb at 1. simpl.
  rewrite (cmp_opp k k'). destruct (cmp k k') eqn:Ec; simpl.
  - apply cmp_eq in Ec as ->. clear IH. induction Hall as [|[k2 v2] l Hk Hall IH]; simpl; [done|].
    unfold lt_key in Hk. simpl in Hk. unfold eqb at 1. simpl. rewrite (cmp_opp k' k2), Hk. simpl. f_equal. apply IH.
    by apply StronglySorted_inv in Hl as [].
  - by rewrite IH.
  - by rewrite IH.
Qed.

Definition remove_all {K V} `{Ord K} (ks : list K) (l : list (K * V)) : list (K * V) := fold_left (fun l k => bt_remove k l) ks l.

Lemma remove_all_filter {K V} `{OrdLaws K} (ks : list K) (l : list (K * V)) :
  bt_sorted l -> remove_all ks l = List.filter (fun p => negb (existsb (eqb p.1) ks)) l.
Proof.
  unfold remove_all. revert l. induction ks as [|k ks IH]; intros l Hs; simpl; [by rewrite filter_true|].
  rewrite IH by by apply bt_remove_sorted. rewrite bt_remove_filter by done.
  induction l as [|p l IHl]; simpl; [done|]. apply StronglySorted_inv in Hs as [Hs _].
  destruct (eqb p.1 k); simpl; rewrite IHl by done; done.
Qed.

(** Removing the rows a filter selects, by key. *)
Lemma remove_selected {K R} `{CatalogRow K R, !OrdLaws K} (rows : list (K * R)) (f : R -> bool) (key : R -> K) :
  keyed rows -> (forall r, f r = true -> key r = row_key r) ->
  remove_all (map key (List.filter f (rows_of rows))) rows = List.filter (fun p => negb (f p.2)) rows.
Proof.
  intros [Hs Hr] Hkey. rewrite remove_all_filter by done. rewrite List.Forall_forall in Hr.
  apply filter_ext_in. intros [k r] Hin. pose proof (Hr _ Hin) as Hk. simpl in *. f_equal.
  destruct (f r) eqn:Ef.
  - apply existsb_exists. exists (key r). rewrite Hkey by done. split; [|by apply eqb_eq].
    rewrite <- (Hkey r) by done. apply in_map, filter_In. split; [|done]. apply in_map_iff. by exists (k, r).
  - apply not_true_is_false. intros (k' & (r' & <- & [Hin' Hf']%filter_In)%in_map_iff & ->%eqb_eq)%existsb_exists.
    apply in_map_iff in Hin' as ([k2 r2] & <- & Hin2). simpl in *. pose proof (Hr _ Hin2) as Hk2. simpl in *.
    rewrite Hkey in Hk by done. assert ((k2, r2) = (row_key r2, r)) as [= -> ->]; [|congruence].
    rewrite Hkey in Hin by done. apply (bt_sorted_key_inj rows); [done|done|done|done].
Qed.

Definition drop_table_result (c : Catalog) (id : Z) : Catalog :=
  MkCatalog (c_counters c) (c_databases c) (c_schemas c) (bt_remove id (c_tables c))
    (List.filter (fun p => negb (col_table_id p.2 =? id)) (c_columns c))
    (List.filter (fun p => negb (idx_table_id p.2 =? id)) (c_indexes c))
    (List.filter (fun p => negb (con_table_id p.2 =? id)) (c_constraints c))
    (List.filter (fun p => negb (fk_table_id p.2 =? id)) (c_fks c)) (c_grants c).

Definition drop_table_ops (c : Catalog) (id : Z) : list CatOp :=
  [DelTable id] ++ map (fun fk => DelFk (fk_fk_id fk)) (fks_of c id)
  ++ map (fun col => DelColumn (id, col_ordinal col)) (table_columns c id)
  ++ map (fun i => DelIndex (idx_index_id i)) (indexes_on c id)
  ++ map (fun k => DelConstraint (con_constraint_id k)) (constraints_on c id).

(** Runs of deletions of one table. *)
Lemma apply_deletes {A} (l : list A) c :
  (forall f, apply_cats (map (fun a => DelFk (f a)) l) c
    = MkCatalog (c_counters c) (c_databases c) (c_schemas c) (c_tables c) (c_columns c) (c_indexes c) (c_constraints c)
        (remove_all (map f l) (c_fks c)) (c_grants c)) /\
  (forall f, apply_cats (map (fun a => DelColumn (f a)) l) c
    = MkCatalog (c_counters c) (c_databases c) (c_schemas c) (c_tables c) (remove_all (map f l) (c_columns c)) (c_indexes c)
        (c_constraints c) (c_fks c) (c_grants c)) /\
  (forall f, apply_cats (map (fun a => DelIndex (f a)) l) c
    = MkCatalog (c_counters c) (c_databases c) (c_schemas c) (c_tables c) (c_columns c) (remove_all (map f l) (c_indexes c))
        (c_constraints c) (c_fks c) (c_grants c)) /\
  (forall f, apply_cats (map (fun a => DelConstraint (f a)) l) c
    = MkCatalog (c_counters c) (c_databases c) (c_schemas c) (c_tables c) (c_columns c) (c_indexes c)
        (remove_all (map f l) (c_constraints c)) (c_fks c) (c_grants c)).
Proof.
  split_and!; intros f; revert c; (induction l as [|a l IH]; intros c; simpl; [by destruct c|]; rewrite IH; by destruct c).
Qed.

Lemma table_columns_filter c id :
  keyed (c_columns c) -> table_columns c id = List.filter (fun k => col_table_id k =? id) (rows_of (c_columns c)).
Proof.
  intros [_ Hr]. unfold table_columns, rows_of.
  induction Hr as [|[k r] l Hk Hl IH]; simpl; [done|]. simpl in Hk. subst k. simpl.
  destruct (_ =? _); simpl; by rewrite IH.
Qed.

Lemma drop_table_effect c id :
  keyed (c_columns c) -> keyed (c_indexes c) -> keyed (c_constraints c) -> keyed (c_fks c) ->
  apply_cats (drop_table_ops c id) c = drop_table_result c id.
Proof.
  intros H5 H6 H7 H8. unfold drop_table_ops. rewrite !apply_cats_app.
  rewrite (proj1 (apply_deletes (fks_of c id) _)), (proj1 (proj2 (apply_deletes (table_columns c id) _))).
  rewrite (proj1 (proj2 (proj2 (apply_deletes (indexes_on c id) _)))), (proj2 (proj2 (proj2 (apply_deletes (constraints_on c id) _)))).
  unfold drop_table_result. rewrite table_columns_filter by done. unfold fks_of, indexes_on, constraints_on.
  destruct c as [cs ds ss ts cols idx cns fks gs]. simpl in *. f_equal.
  - apply (remove_selected cols (fun k => col_table_id k =? id) (fun k => (id, col_ordinal k))); [done|].
    intros r Et%Z.eqb_eq. simpl. by rewrite Et.
  - by apply (remove_selected idx (fun i => idx_table_id i =? id) idx_index_id).
  - by apply (remove_selected cns (fun k => con_table_id k =? id) con_constraint_id).
  - by apply (remove_selected fks (fun k => fk_table_id k =? id) fk_fk_id).
Qed.

Lemma drop_table_ops_ok m c id : cat_rep m c -> is_u32 id -> Forall op_ok (drop_table_ops c id).
Proof.
  intros Hm Hid. unfold drop_table_ops. constructor; [done|]. rewrite !Forall_app, !Forall_map.
  split_and!; apply List.Forall_forall; intros r Hr; simpl.
  - apply filter_In in Hr as [Hr _]. by apply (rows_row_ok m) in Hr as (? & _); [|apply Hm].
  - destruct (table_column_spec m c id r Hm Hr) as [([_ ?] & _) _]. done.
  - apply filter_In in Hr as [Hr _]. by apply (rows_row_ok m) in Hr as (? & _); [|apply Hm].
  - apply filter_In in Hr as [Hr _]. by apply (rows_row_ok m) in Hr as (? & _); [|apply Hm].
Qed.

Lemma refines_drop_table c id : is_u32 id -> refines c (drop_table id ;; mret 0) (spec_drop_table id c).
Proof.
  intros Hid. apply refines_rep. intros m Hm. unfold drop_table, spec_drop_table. apply refines_assoc. step.
  destruct (bt_get id (c_tables c)); [|apply refines_fail]. apply refines_assoc. step.
  destruct (existsb _ _); [apply refines_fail|]. fold (fks_of c id). do 4 (apply refines_assoc; step). apply refines_assoc.
  fold (drop_table_ops c id). apply refines_write.
  - unfold drop_table_ops. rewrite !map_app, !map_map. done.
  - by apply (drop_table_ops_ok m).
  - rewrite drop_table_effect by (apply rows_ok_keyed, Hm). intros s Hh Hf Hc.
    destruct (settles_both c (drop_table_result c id) 0
      (match fks_of c id with [] => mret tt | _ :: _ => invalidate_foreign_keys end)
      (if existsb (fun k => con_table_id k =? id) (checks_of c) then invalidate_checks else mret tt)
      (match fks_of c id with [] => false | _ :: _ => true end)
      (existsb (fun k => con_table_id k =? id) (checks_of c))) with s as (s' & Hrun & Hst); try done.
    + by destruct (fks_of c id).
    + intros Hno. destruct (fks_of c id) as [|fk l] eqn:Efk; [|done]. simpl. unfold fks_of in Efk.
      clear -Efk. induction (c_fks c) as [|[k r] l IH]; simpl in *; [done|]. destruct (_ =? _); [done|]. simpl. by rewrite IH.
    + intros Hno. unfold checks_of in *. simpl. clear -Hno. induction (c_constraints c) as [|[k r] l IH]; simpl in *; [done|].
      destruct (con_table_id r =? id) eqn:Et; simpl in *.
      * destruct (bool_decide (con_kind r = KCheck)); simpl in *; [by rewrite Et in Hno|by apply IH].
      * destruct (bool_decide (con_kind r = KCheck)); simpl in *; [rewrite Et in Hno; simpl in Hno; f_equal|]; by apply IH.
    + exists s'. split; [|done]. rewrite <- Hrun. unfold mbind, cbind. destruct (fks_of c id); simpl;
        by destruct (existsb _ (checks_of c)).
Qed.

(** *** Creating a table *)

(** A read whose value is [g] of what the specification computes. *)
Definition map_ok {A B} (g : A -> B) (r : option (cres A)) : option (cres B) := let! a := r in Some (Ok (g a)).

Lemma refines_map {A B} c (op : CM B) (g : A -> B) r (k : B -> CM Z) (f : A -> verdict) :
  reads_as c op (map_ok g r) -> (forall a, r = Some (Ok a) -> refines c (k (g a)) (f a)) ->
  refines c (op ≫= k) (let! a := r in f a).
Proof.
  intros Hop Hk s Hs. destruct (Hop s Hs) as (s1 & Hs1 & Hr). unfold mbind, cbind, outcome_ok.
  destruct Hr as [->|(x & ->)]; cbn [fst snd].
  - destruct r as [[a|x]|]; cbn [fst snd map_ok]; [by apply Hk|by left|done].
  - right. eauto.
Qed.

Lemma reads_map {A B D} c (op : CM B) (g : A -> B) r (k : B -> CM D) (f : A -> option (cres D)) :
  reads_as c op (map_ok g r) -> (forall a, r = Some (Ok a) -> reads_as c (k (g a)) (f a)) ->
  reads_as c (op ≫= k) (let! a := r in f a).
Proof.
  intros Hop Hk s Hs. destruct (Hop s Hs) as (s1 & Hs1 & Hr). unfold mbind, cbind.
  destruct Hr as [->|(x & ->)]; [|eauto]. destruct r as [[a|x]|]; cbn [map_ok]; [by apply Hk|eauto..].
Qed.

Lemma map_ok_bind {A B D} (g : B -> D) (r : option (cres A)) (f : A -> option (cres B)) :
  map_ok g (let! a := r in f a) = (let! a := r in map_ok g (f a)).
Proof. by destruct r as [[]|]. Qed.

Lemma reads_check_map {A B D} c (r : cres A) (g : B -> D) (k : A -> CM D) (f : A -> option (cres B)) :
  (forall a, r = Ok a -> reads_as c (k a) (map_ok g (f a))) ->
  reads_as c (liftr r ≫= k) (map_ok g (match r with Ok a => f a | Err e => Some (Err e) end)).
Proof.
  intros Hk. pose proof (reads_check c r k (fun a => map_ok g (f a)) Hk) as Hr. by destruct r.
Qed.

Lemma reads_put_rows {K R} `{CatalogRow K R} c (rows : list R) wops :
  reads_as c (put_rows rows wops) (Some (Ok (wops ++ map put_bytes rows))).
Proof.
  revert wops. induction rows as [|r rows IH]; intros wops; simpl; [rewrite app_nil_r; apply reads_ret|].
  eapply reads_then; [apply reads_put|]. specialize (IH (wops ++ [put_bytes r])). rewrite <- app_assoc in IH. exact IH.
Qed.

Lemma reads_allocate_map {B D} c kind (g : B -> D) (k : Z * WriteOp -> CM D) (f : Z -> option (cres B)) :
  (forall n, next_id kind c = Ok n -> reads_as c (k (n, op_bytes (SetCounter kind n))) (map_ok g (f n))) ->
  reads_as c (allocate_id kind ≫= k) (map_ok g (match next_id kind c with Ok n => f n | Err e => Some (Err e) end)).
Proof.
  intros Hk. pose proof (reads_bind c (allocate_id kind) _ k (fun p => map_ok g (f p.1)) (reads_allocate c kind)) as Hb.
  unfold allocated in Hb. destruct (next_id kind c) as [n|x]; apply Hb; [intros a [= <-]; by apply Hk|done].
Qed.

Definition encoded (p : list bytes * list CatOp) : list bytes * list WriteOp := (p.1, map op_bytes p.2).

Lemma reads_table_checks c table_id first_id fk_count column_count i checks seen ops :
  reads_as c (table_checks table_id first_id fk_count column_count i checks seen (map op_bytes ops))
    (map_ok encoded (spec_checks table_id first_id fk_count column_count i checks seen ops)).
Proof.
  revert i seen ops. induction checks as [|k checks IH]; intros i seen ops; cbn [table_checks spec_checks]; [apply reads_ret|].
  apply reads_check_map. intros _ _. apply reads_check_map. intros _ _.
  destruct (existsb _ seen); [apply reads_fail|]. destruct (existsb _ _); [apply reads_fail|].
  eapply reads_then; [apply reads_put|]. specialize (IH (i + 1) (ntc_name k :: seen)).
  match goal with |- reads_as _ _ (map_ok _ (spec_checks _ _ _ _ _ _ _ ?o)) => specialize (IH o) end.
  rewrite map_app in IH. exact IH.
Qed.

Lemma reads_parent m c child_shape parent :
  cat_rep m c -> opt_ok is_u32 parent ->
  reads_as c (match parent with None => mret child_shape | Some id => parent ← require_active_table id; fk_shape parent end)
    (parent_shape c child_shape parent).
Proof.
  intros Hm Hp. destruct parent as [id|]; simpl in *; [|apply reads_ret].
  eapply reads_bind; [by apply reads_active|]. intros t Ht. apply reads_shape. by apply (active_row_ok m c id t Hm Ht).
Qed.

Lemma reads_table_fks m c now table_id first_id i child_shape fks seen ops :
  cat_rep m c -> Forall table_fk_ok fks ->
  reads_as c (table_fks now table_id first_id i child_shape fks seen (map op_bytes ops))
    (map_ok (map op_bytes) (spec_fks now table_id first_id i child_shape fks seen ops c)).
Proof.
  intros Hm Hfks. revert i seen ops. induction Hfks as [|fk fks Hfk Hfks IH]; intros i seen ops; cbn [table_fks spec_fks];
    [apply reads_ret|].
  apply reads_check_map. intros _ _. destruct (existsb _ seen); [apply reads_fail|].
  rewrite map_ok_bind. eapply reads_bind; [apply (reads_parent m); [done|apply Hfk]|]. intros parent _.
  rewrite map_ok_bind. eapply reads_bind; [apply reads_liftp|]. intros index _.
  eapply reads_then; [apply reads_put|]. specialize (IH (i + 1) (ntf_name fk :: seen)).
  match goal with |- reads_as _ _ (map_ok _ (spec_fks _ _ _ _ _ _ _ ?o _)) => specialize (IH o) end.
  rewrite map_app in IH. exact IH.
Qed.

Lemma reads_table_constraints m c now table_id name columns pk fks checks ops :
  cat_rep m c -> Forall table_fk_ok fks ->
  reads_as c (table_constraints now table_id name columns pk fks checks (map op_bytes ops))
    (map_ok (map op_bytes) (spec_constraints now table_id name columns pk fks checks ops c)).
Proof.
  intros Hm Hfks. unfold table_constraints, spec_constraints.
  enough (forall shape, reads_as c
    ('(first_id, _) ← allocate_id CConstraint;
      last_id ← liftr (ok_or (CInvalidInput "Constraint ID space exhausted (u32::MAX reached)")
        (checked_add32 first_id (as_u32 (as_u32 (zlen fks + zlen checks) - 1))));
      '(seen_names, ops) ← table_checks table_id first_id (zlen fks) (zlen columns) 0 checks [] (map op_bytes ops);
      ops ← table_fks now table_id first_id 0 shape fks seen_names ops;
      mret (ops ++ [WPut (counter_key CConstraint) (le32 last_id)]))
    (map_ok (map op_bytes)
      (let! first_id := Some (next_id CConstraint c) in
       let! last_id := Some (ok_or (CInvalidInput "Constraint ID space exhausted (u32::MAX reached)")
         (checked_add32 first_id (as_u32 (as_u32 (zlen fks + zlen checks) - 1)))) in
       let! '(seen, ops) := spec_checks table_id first_id (zlen fks) (zlen columns) 0 checks [] ops in
       let! ops := spec_fks now table_id first_id 0 shape fks seen ops c in
       Some (Ok (ops ++ [SetCounter CConstraint last_id]))))) as Hall.
  { destruct fks, checks; [apply reads_ret|apply Hall..]. }
  intros shape. apply reads_allocate_map. intros first _. cbv beta iota. apply reads_check_map. intros last _.
  rewrite map_ok_bind. eapply reads_map; [apply reads_table_checks|]. intros [seen ops1] _. cbn [encoded fst snd].
  rewrite map_ok_bind. eapply reads_map; [by apply (reads_table_fks m)|]. intros ops2 _. cbn [map_ok].
  rewrite map_app. apply reads_ret.
Qed.

Lemma as_u32_range z : is_u32 (as_u32 z).
Proof. unfold as_u32. unfold_ints. pose proof (Z.mod_pos_bound z (2 ^ 32)). lia. Qed.

Lemma check_rows_ok table_id first fk_count i checks :
  is_u32 table_id -> Forall table_check_ok checks ->
  Forall op_ok (map PutConstraint (check_rows table_id first fk_count i checks)).
Proof.
  intros Hid Hc. revert i. induction Hc as [|k checks (Hn & Ho & Hx) Hc IH]; intros i; simpl; constructor; [|apply IH].
  simpl. unfold constraint_ok. simpl. pose proof (as_u32_range (first + as_u32 (fk_count + i))).
  assert (is_u32 1) by by unfold_ints. tauto.
Qed.

Lemma parent_shape_indexes m c child parent shape :
  cat_rep m c -> parent_shape c child parent = Some (Ok shape) -> shape = child \/ exists t, shape = shape_of c t.
Proof.
  intros Hm. destruct parent as [id|]; simpl; [|intros [= <-]; by left].
  destruct (active_table c id) as [[t|]|]; [|done..]. intros [= <-]. eauto.
Qed.

Lemma resolve_no_indexes def child parent i :
  sh_unique_indexes parent = [] -> resolve_foreign_key def child parent = Some (Ok i) -> i = None.
Proof.
  intros Hp. unfold resolve_foreign_key. repeat (destruct (_ : bool); [done|]).
  destruct (check_pairs _ _ _); [|done]. unfold resolve_parent_index. rewrite Hp. destruct (same_set _ _); [|done].
  repeat (destruct (check_action _ _ _) as [[]|]; [|done..]). by intros [= <-].
Qed.

Lemma fk_rows_ok m c now table_id first i child fks rows :
  cat_rep m c -> is_u32 table_id -> is_signed 64 now -> sh_unique_indexes child = [] -> Forall table_fk_ok fks ->
  fk_rows now table_id first i child fks c rows -> Forall op_ok (map PutFk rows).
Proof.
  intros Hm Hid Hnow Hchild Hfks. revert i rows. induction Hfks as [|fk fks (Hn & Hc & Hp & Ho) Hfks IH]; intros i [|r rows];
    simpl; try done. intros [(parent & index & Hparent & Hres & ->) Hrows]. constructor; [|by apply (IH (i + 1))].
  simpl. unfold foreign_key_ok. simpl. pose proof (as_u32_range (first + as_u32 i)) as Hu.
  assert (opt_ok is_u32 index) as Hi.
  { destruct (parent_shape_indexes m c child _ parent Hm Hparent) as [->|(t & ->)]; [|by apply (resolved_index m) in Hres].
    by apply resolve_no_indexes in Hres as ->. }
  assert (is_u32 (default table_id (ntf_parent_table_id fk))) as Hd by by destruct (ntf_parent_table_id fk).
  tauto.
Qed.

Lemma new_columns_ok table_id columns :
  is_u32 table_id -> Forall column_def_ok columns -> Forall op_ok (map PutColumn (new_columns table_id columns)).
Proof.
  intros Hid Hc. apply Forall_map. unfold new_columns. apply Forall_lookup_2. intros j k Hk. rewrite list_lookup_imap in Hk.
  apply fmap_Some in Hk as (d & Hd & ->).
  rewrite Forall_lookup in Hc. destruct (Hc j d Hd) as (Hn & Ht & Hv & Hp). simpl. unfold column_row_ok. simpl.
  assert (is_u16 (Z.of_nat j mod 65536)) by (unfold is_u16; pose proof (Z.mod_pos_bound (Z.of_nat j) 65536); lia).
  assert (is_u32 1) by by unfold_ints. tauto.
Qed.

Lemma reads_validate_table c name columns pk : reads_as c (validate_table name columns pk) (spec_validate_table name columns pk).
Proof.
  unfold validate_table, spec_validate_table. apply reads_check. intros _ _. do 3 (destruct (_ : bool); [apply reads_fail|]).
  eapply reads_bind; [apply reads_liftp|]. intros _ _. destruct (fresh_names _ _); [apply reads_ret|apply reads_fail].
Qed.

(** What the new table's rows leave alone: foreign keys when it declares none, CHECK constraints when it declares none. *)
Lemma puts_effect (ks : list ConstraintRow) (fks : list ForeignKeyRow) n c :
  let c' := apply_cats (map PutConstraint ks ++ map PutFk fks ++ [SetCounter CConstraint n]) c in
  (fks = [] -> c_fks c' = c_fks c) /\ (ks = [] -> checks_of c' = checks_of c).
Proof.
  intros c'. subst c'. split; intros ->; simpl; rewrite ?app_nil_l, apply_cats_app.
  - transitivity (c_fks (apply_cats (map PutConstraint ks) c)); [by destruct (apply_cats _ c)|].
    revert c. induction ks as [|k ks IH]; intros c; simpl; [done|]. rewrite IH. by destruct c.
  - transitivity (checks_of (apply_cats (map PutFk fks) c)); [by destruct (apply_cats _ c)|].
    revert c. induction fks as [|k fks IH]; intros c; simpl; [done|]. rewrite IH. by destruct c.
Qed.

Lemma name_pkey_ok name : text_ok name -> zlen name <= 255 -> text_ok (name_pkey name).
Proof.
  intros [Hv _] Hl. split; [by apply valid_utf8_app|]. unfold name_pkey. rewrite zlen_app. unfold u32_max.
  change (zlen [x5f; x70; x6b; x65; x79]) with 5. lia.
Qed.

Definition table_ops (now schema_id table_id index_id : Z) (name : bytes) (columns : list ColumnDef) (pk : list Z) : list CatOp :=
  [SetCounter CTable table_id; SetCounter CIndex index_id; PutTable (MkTable table_id schema_id name pk 1 TActive now);
   PutIndex (MkIndex index_id table_id (name_pkey name) IPrimary pk IReady now)]
  ++ map PutColumn (new_columns table_id columns).

Lemma table_ops_ok now schema_id table_id index_id name columns pk :
  is_u32 table_id -> is_u32 index_id -> is_u32 schema_id -> is_signed 64 now -> text_ok name -> zlen name <= 255 ->
  ordinals_ok pk -> Forall column_def_ok columns ->
  Forall op_ok (table_ops now schema_id table_id index_id name columns pk).
Proof.
  intros. pose proof (name_pkey_ok name). assert (is_u32 1) by by unfold_ints. apply Forall_app. split; [|by apply new_columns_ok].
  foralls; simpl; [done|done|unfold table_ok; simpl; tauto|unfold index_ok; simpl; tauto].
Qed.

Lemma table_ops_plain now schema_id table_id index_id name columns pk :
  Forall (fun op => plain op = true) (table_ops now schema_id table_id index_id name columns pk).
Proof. apply Forall_app. split; [by repeat constructor|]. apply Forall_map, Forall_true. done. Qed.

(** The rows an accepted table writes are well formed, and touch the cached tables only where it declares constraints. *)
Lemma constraints_effect m c now table_id name columns pk fks checks ops ops' :
  cat_rep m c -> is_u32 table_id -> is_signed 64 now -> Forall table_fk_ok fks -> Forall table_check_ok checks ->
  Forall op_ok ops -> Forall (fun op => plain op = true) ops ->
  spec_constraints now table_id name columns pk fks checks ops c = Some (Ok ops') ->
  Forall op_ok ops' /\ (fks = [] -> c_fks (apply_cats ops' c) = c_fks c) /\
  (checks = [] -> checks_of (apply_cats ops' c) = checks_of c).
Proof.
  intros Hm Hid Hnow Hfks Hchecks Hops Hplain Hs. destruct (plain_ops c ops Hplain) as [Ef Ek].
  apply spec_constraints_rows in Hs as [(-> & -> & ->)|(first & last & rows & Hfirst & Hlast & _ & -> & Hrows & _)]; [done|].
  rewrite apply_cats_app. destruct (puts_effect (check_rows table_id first (zlen fks) 0 checks) rows last (apply_cats ops c)) as [Hf Hk].
  assert (is_u32 last) as Hl.
  { apply (next_id_u32 m c CConstraint first Hm) in Hfirst. pose proof (as_u32_range (as_u32 (zlen fks + zlen checks) - 1)).
    revert Hlast. unfold checked_add32. case_cmp; [|done]. intros [= <-]. unfold_ints. lia. }
  split_and!.
  - rewrite !Forall_app. split_and!;
      [done|by apply check_rows_ok|by refine (fk_rows_ok _ _ _ _ _ _ _ _ _ Hm Hid Hnow _ Hfks Hrows)|foralls; exact Hl].
  - intros ->. rewrite Hf; [done|]. by destruct rows.
  - intros ->. by rewrite Hk.
Qed.

Lemma refines_create_table c now schema_id name columns pk fks checks :
  request_ok (CreateTable now schema_id name columns pk fks checks) ->
  refines c (create_table_with_foreign_keys now schema_id name columns pk fks checks)
    (spec_create_table now schema_id name columns pk fks checks c).
Proof.
  intros (Hnow & Hid & Hname & Hcols & Hpk & Hfks & Hchecks & _). apply refines_rep. intros m Hm.
  unfold create_table_with_foreign_keys, spec_create_table. eapply refines_bind; [apply reads_validate_table|]. intros [] Hval.
  assert (zlen name <= 255) as Hlen.
  { unfold spec_validate_table in Hval. destruct (validate_name name "table") as [[]|] eqn:Ev; [|done].
    apply validated_name in Ev. lia. }
  step. destruct (bt_get schema_id (c_schemas c)); [|apply refines_fail']. step. destruct (existsb _ _); [apply refines_fail'|].
  apply refines_allocate. intros table_id Ht. apply refines_allocate. intros index_id Hi.
  apply (next_id_u32 m c CTable table_id Hm) in Ht. apply (next_id_u32 m c CIndex index_id Hm) in Hi. step. step.
  fold (table_ops now schema_id table_id index_id name columns pk). set (ops := table_ops _ _ _ _ _ _ _).
  eapply (refines_then _ _ _ (map op_bytes ops)).
  { unfold ops, table_ops. rewrite map_app, map_map. apply (reads_put_rows c (new_columns table_id columns)). }
  assert (Forall op_ok ops) as Hops by by apply table_ops_ok.
  assert (Forall (fun op => plain op = true) ops) as Hplain by apply table_ops_plain.
  eapply refines_map; [by apply (reads_table_constraints m)|]. intros ops' Hops'.
  apply (constraints_effect m) in Hops' as (Hok & Hf & Hk); try done. apply refines_write; [done..|].
  apply (settles_both c _ table_id _ _ (match fks with [] => false | _ => true end) (match checks with [] => false | _ => true end)).
  - by destruct fks.
  - by destruct checks.
  - destruct fks; [intros _; by apply Hf|done].
  - destruct checks; [intros _; by apply Hk|done].
Qed.

(** ** Every request *)

Theorem run_refines r c :
  request_ok r -> keeps_caches r -> ids_ok c -> refines c (run r) (spec r c).
Proof.
  intros Hr Hk Hc. destruct r; simpl run; simpl spec.
  - by apply refines_create_schema.
  - by apply refines_drop_schema.
  - by apply refines_create_table.
  - by apply refines_drop_table.
  - by apply refines_create_index.
  - by apply refines_drop_index.
  - by apply refines_mark.
  - by apply refines_mark.
  - by apply refines_mark_dropping.
  - by apply refines_remove_index.
  - by apply refines_create_constraint.
  - by apply refines_add_column.
  - by apply refines_rename_column.
  - by apply refines_set_default.
  - by apply refines_set_nullable.
  - by apply refines_create_fk.
  - by apply refines_drop_fk.
  - by apply refines_create_check.
  - by apply refines_drop_check.
  - by apply refines_grant.
  - by apply refines_revoke.
Qed.

End Refine.

(** C6: the catalog service refines its specification.  Take any engine that keeps the engine's laws, a service whose
    engine holds the catalog [c] and whose caches are empty or hold [c]'s foreign keys and CHECK constraints, and run any
    of the catalog's requests with well-typed arguments, without another thread in between, except [create_constraint] with
    the kind CHECK (which leaves the cache of CHECK constraints stale).  Then what the caller gets is what [spec] computes
    on the records of [c]: the same result, the same refusal, the same panic.  On success the engine holds exactly the
    catalog [spec] describes, one batch having changed it, and both caches agree with it.  On a refusal nothing changed.  On
    an engine error the engine holds the old catalog or, when the error came after the batch was applied, the whole new one;
    the caches are not promised to agree with it then. *)
Theorem service_refines_catalog {E : Type} {view} `{KvStoreLaws E view} (r : Request) (c : Catalog) (s : Service E) :
  request_ok r -> keeps_caches r -> ids_ok c -> st (view := view) c s ->
  outcome_ok (view := view) c (spec r c) (run r s).1 (run r s).2.
Proof. intros Hr Hk Hc Hs. by apply (run_refines r c Hr Hk Hc). Qed.

(** A database with one schema, in a map. *)
Definition demo_ops : list CatOp :=
  [SetCounter CDatabase 1; SetCounter CSchema 1; PutDatabase (MkDatabase 1 name_default 0); PutSchema (MkSchema 1 1 name_public 0)].
Definition demo_catalog : Catalog := apply_cats demo_ops catalog_empty.
Definition demo_service : Service MapStore := service_new (MkMapStore (apply_ops (map op_bytes demo_ops) []) 0 []).

(** [CREATE TABLE t (a NOT NULL PRIMARY KEY, b REFERENCES t (a), CHECK (b))] *)
Definition demo_request : Request :=
  CreateTable 7 1 [x74] [MkColumnDef [x61] 1 false None None; MkColumnDef [x62] 1 true None None] [0]
    [MkNewTableForeignKey [x66] [1] None [0] SetNull NoAction] [MkNewTableCheck [x6b] [1] [x62]].

Lemma cat_rep_empty : cat_rep [] catalog_empty.
Proof.
  split; [apply SSorted_nil|intros kind; split; [by unfold_ints|done]|..];
    (split; [split; [apply SSorted_nil|apply List.Forall_nil]|done]).
Qed.

Lemma demo_st : st (view := map_view) demo_catalog demo_service.
Proof.
  split; [|by split]. eexists. split; [split; [reflexivity|apply apply_ops_sorted; constructor]|].
  apply cat_rep_ops; [apply cat_rep_empty|]. by repeat constructor.
Qed.

Lemma service_refines_catalog_witness :
  (run demo_request demo_service).2 = Some (Ok 1) /\
  outcome_ok (view := map_view) demo_catalog (spec demo_request demo_catalog)
    (run demo_request demo_service).1 (run demo_request demo_service).2.
Proof.
  split; [vm_compute; reflexivity|]. apply service_refines_catalog.
  - repeat (split || constructor); vm_compute; congruence.
  - exact I.
  - repeat constructor; vm_compute; congruence.
  - exact demo_st.
Defined.

End Refine.
