(* ===== verification/CatalogInv.v ===== *)
(** * The catalog stays well formed

    [wf c] collects what the rest of the database relies on: every row sits at its key and names rows that exist, ids are
    never reused, a table's columns are numbered 0, 1, .., its primary-key columns exist and are NOT NULL, names are unique
    where they must be, an index covers existing columns, and a foreign key's columns, types and referenced key are what
    [resolve_foreign_key] demanded when it was declared.  The file proves that every request that [Spec.spec] accepts keeps
    [wf]; [CatalogRuns] lifts it through the refinement to the orderly runs of the service. *)

From stdpp Require Import base list option strings sorting relations.
From Stdlib Require Import ZArith Lia.
From Stdlib Require Import Strings.Byte.
From S2P Require Import Prelude BTree EngineError RelKey IndexKey RowCodec CatalogRows LsmEngine KvStore CatalogService.
From S2P Require Import CatalogRep CatalogSpec CatalogRefine.

Module Inv.
Import Rel Row Rows Kv Cat Rep Spec Refine.
Import Lsm(WriteOp, WPut, WDelete, outcome, Returned, Failed, Panicked).

(** ** Clauses

    Each clause is about the tables it reads, so that a request that leaves those alone keeps it by itself. *)

Section Clauses.
Context (ds : list (Z * DatabaseRow)) (ss : list (Z * SchemaRow)) (ts : list (Z * TableRow)) (cols : list ((Z * Z) * ColumnRow))
  (idx : list (Z * IndexRow)) (cns : list (Z * ConstraintRow)) (fks : list (Z * ForeignKeyRow)) (gs : list (Z * GrantRow)).

(** No two rows of a table share what [key] selects. *)
Definition unique_by {K R A} `{Ord K} (key : R -> A) (rows : list (K * R)) : Prop :=
  forall i j a b, bt_get i rows = Some a -> bt_get j rows = Some b -> key a = key b -> i = j.

(** Every row's [ref] is the key of a row of [target]. *)
Definition refers {K R K' R'} `{Ord K} `{Ord K'} (ref : R -> K') (rows : list (K * R)) (target : list (K' * R')) : Prop :=
  forall i r, bt_get i rows = Some r -> is_Some (bt_get (ref r) target).

Definition columns_dense : Prop :=
  forall id t, bt_get id ts = Some t -> exists n, 1 <= n /\ forall o, is_Some (bt_get (id, o) cols) <-> 0 <= o < n.

Definition pk_ok : Prop :=
  forall id t, bt_get id ts = Some t -> tbl_pk_ordinals t <> [] /\
    forall o, In o (tbl_pk_ordinals t) -> exists k, bt_get (id, o) cols = Some k /\ col_nullable k = false.

Definition index_columns : Prop :=
  forall id i, bt_get id idx = Some i -> forall o, In o (idx_column_ordinals i) -> is_Some (bt_get (idx_table_id i, o) cols).

Definition index_count : Prop :=
  forall id, zlen (List.filter (fun i => idx_table_id i =? id) (rows_of idx)) <= MAX_INDEXES_PER_TABLE.

Definition col_type (k : ColumnRow) : Z * option bytes := (col_data_type k, col_type_params k).

(** Referencing and referenced columns exist and have the same type, pair by pair. *)
Definition fk_columns : Prop :=
  forall id f, bt_get id fks = Some f ->
    length (fk_child_ordinals f) = length (fk_parent_ordinals f) /\ fk_child_ordinals f <> [] /\
    forall a b, In (a, b) (zip (fk_child_ordinals f) (fk_parent_ordinals f)) ->
      exists ka kb, bt_get (fk_table_id f, a) cols = Some ka /\ bt_get (fk_parent_table_id f, b) cols = Some kb /\
        col_type ka = col_type kb.

(** The referenced columns are the parent's primary key, or exactly those of a ready UNIQUE index of the parent. *)
Definition fk_key : Prop :=
  forall id f, bt_get id fks = Some f ->
    match fk_parent_index_id f with
    | None => exists t, bt_get (fk_parent_table_id f) ts = Some t /\ same_set (tbl_pk_ordinals t) (fk_parent_ordinals f) = true
    | Some i => exists ix, bt_get i idx = Some ix /\ idx_table_id ix = fk_parent_table_id f /\ idx_kind ix = IUnique /\
        idx_state ix = IReady /\ same_set (idx_column_ordinals ix) (fk_parent_ordinals f) = true
    end.

(** The columns a foreign key may set to NULL are nullable. *)
Definition fk_nulls : Prop :=
  forall id f, bt_get id fks = Some f -> fk_on_delete f = SetNull \/ fk_on_update f = SetNull ->
    forall a, In a (fk_child_ordinals f) -> exists k, bt_get (fk_table_id f, a) cols = Some k /\ col_nullable k = true.

End Clauses.

Definition grant_key (g : GrantRow) : bytes * ObjectKind * Z * Privilege := (gr_principal g, gr_object_kind g, gr_object_id g, gr_privilege g).

Record wf (c : Catalog) : Prop := {
  wf_databases : keyed (c_databases c);
  wf_schemas : keyed (c_schemas c);
  wf_tables : keyed (c_tables c);
  wf_columns : keyed (c_columns c);
  wf_indexes : keyed (c_indexes c);
  wf_constraints : keyed (c_constraints c);
  wf_fks : keyed (c_fks c);
  wf_grants : keyed (c_grants c);
  wf_counters : forall kind, 0 <= c_counters c kind;
  wf_ids : ids_ok c;
  wf_schema_database : refers sch_database_id (c_schemas c) (c_databases c);
  wf_table_schema : refers tbl_schema_id (c_tables c) (c_schemas c);
  wf_column_table : refers col_table_id (c_columns c) (c_tables c);
  wf_index_table : refers idx_table_id (c_indexes c) (c_tables c);
  wf_constraint_table : refers con_table_id (c_constraints c) (c_tables c);
  wf_fk_table : refers fk_table_id (c_fks c) (c_tables c);
  wf_fk_parent : refers fk_parent_table_id (c_fks c) (c_tables c);
  wf_schema_names : unique_by (fun s => (sch_database_id s, sch_name s)) (c_schemas c);
  wf_table_names : unique_by (fun t => (tbl_schema_id t, tbl_name t)) (c_tables c);
  wf_column_names : unique_by (fun k => (col_table_id k, col_name k)) (c_columns c);
  wf_index_names : unique_by (fun i => (idx_table_id i, idx_name i)) (c_indexes c);
  wf_fk_names : unique_by (fun f => (fk_table_id f, fk_name f)) (c_fks c);
  wf_grant_keys : unique_by grant_key (c_grants c);
  wf_dense : columns_dense (c_tables c) (c_columns c);
  wf_pk : pk_ok (c_tables c) (c_columns c);
  wf_index_columns : index_columns (c_columns c) (c_indexes c);
  wf_index_count : index_count (c_indexes c);
  wf_fk_columns : fk_columns (c_columns c) (c_fks c);
  wf_fk_key : fk_key (c_tables c) (c_indexes c) (c_fks c);
  wf_fk_nulls : fk_nulls (c_columns c) (c_fks c)
}.

(** ** One table *)

Create HintDb catalog.

Section Table.
Context {K R : Type} `{CatalogRow K R, !OrdLaws K}.
Implicit Types (rows : list (K * R)).

Lemma keyed_insert rows k r : keyed rows -> k = row_key r -> keyed (bt_insert k r rows).
Proof. intros [Hs Hr] ->. split; [by apply bt_insert_sorted|]. by apply bt_insert_Forall. Qed.

Lemma keyed_remove rows k : keyed rows -> keyed (bt_remove k rows).
Proof.
  intros [Hs Hr]. split; [by apply bt_remove_sorted|]. rewrite List.Forall_forall in *. intros p Hp. by apply Hr, (bt_remove_In k).
Qed.

Lemma keyed_filter rows f : keyed rows -> keyed (List.filter f rows).
Proof.
  intros [Hs Hr]. split; [by apply StronglySorted_filter|]. rewrite List.Forall_forall in *. intros p [Hp _]%filter_In. by apply Hr.
Qed.

Lemma keyed_key rows k r : keyed rows -> bt_get k rows = Some r -> row_key r = k.
Proof. intros [_ Hr] Hg%bt_get_Some_In. rewrite List.Forall_forall in Hr. by apply Hr in Hg. Qed.

Lemma keyed_In rows r : keyed rows -> In r (rows_of rows) <-> exists k, bt_get k rows = Some r.
Proof.
  intros [Hs _]. unfold rows_of. rewrite in_map_iff. split.
  - intros ([k r'] & <- & Hin). exists k. by apply bt_In_get.
  - intros (k & Hg%bt_get_Some_In). by exists (k, r).
Qed.

Lemma get_filter rows f k r : keyed rows -> bt_get k (List.filter f rows) = Some r <-> bt_get k rows = Some r /\ f (k, r) = true.
Proof.
  intros [Hs _]. split.
  - intros [Hin Hf]%bt_get_Some_In%filter_In. split; [by apply bt_In_get|done].
  - intros [Hg Hf]. apply bt_In_get; [by apply StronglySorted_filter|]. apply filter_In. split; [by apply bt_get_Some_In|done].
Qed.

Lemma get_insert_same rows k r : bt_get k (bt_insert k r rows) = Some r.
Proof. by rewrite bt_get_insert, (proj2 (eqb_eq k k) eq_refl). Qed.

Lemma get_insert_cases rows k r k' r' :
  bt_get k' (bt_insert k r rows) = Some r' -> (k' = k /\ r' = r) \/ (k' <> k /\ bt_get k' rows = Some r').
Proof.
  rewrite bt_get_insert. destruct (eqb k' k) eqn:E.
  - apply eqb_eq in E as ->. intros [= ->]. by left.
  - intros Hg. right. split; [|done]. intros ->. by rewrite (proj2 (eqb_eq k k) eq_refl) in E.
Qed.

Lemma get_insert_other rows k r k' : k' <> k -> bt_get k' (bt_insert k r rows) = bt_get k' rows.
Proof. intros Hne. rewrite bt_get_insert. destruct (eqb k' k) eqn:E; [by apply eqb_eq in E|done]. Qed.

Lemma get_insert_some rows k r k' : is_Some (bt_get k' rows) -> is_Some (bt_get k' (bt_insert k r rows)).
Proof. rewrite bt_get_insert. by destruct (eqb k' k). Qed.

Lemma get_remove_some rows k k' r : keyed rows -> bt_get k' (bt_remove k rows) = Some r -> k' <> k /\ bt_get k' rows = Some r.
Proof.
  intros [Hs _]. rewrite bt_get_remove by done. destruct (eqb k' k) eqn:E; [done|]. intros Hg. split; [|done].
  intros ->. by rewrite (proj2 (eqb_eq k k) eq_refl) in E.
Qed.

Lemma get_remove_other rows k k' : keyed rows -> k' <> k -> bt_get k' (bt_remove k rows) = bt_get k' rows.
Proof. intros [Hs _] Hne. rewrite bt_get_remove by done. destruct (eqb k' k) eqn:E; [by apply eqb_eq in E|done]. Qed.

(** *** Uniqueness *)

Lemma unique_insert {A} (key : R -> A) rows k r :
  unique_by key rows -> (forall j b, bt_get j rows = Some b -> key b = key r -> j = k) -> unique_by key (bt_insert k r rows).
Proof.
  intros Hu Hnew i j a b [[-> ->]|[Hi Ha]]%get_insert_cases [[-> ->]|[Hj Hb]]%get_insert_cases Hk; [done|..].
  - symmetry. by apply (Hnew j b).
  - by apply (Hnew i a).
  - by apply (Hu i j a b).
Qed.

(** A table with fewer rows keeps what holds of each of its rows. *)
Definition sub_table (rows' rows : list (K * R)) : Prop := forall k r, bt_get k rows' = Some r -> bt_get k rows = Some r.

Lemma sub_remove rows k : keyed rows -> sub_table (bt_remove k rows) rows.
Proof. intros Hk k' r Hg. by apply get_remove_some in Hg as [_ ?]. Qed.

Lemma sub_filter rows f : keyed rows -> sub_table (List.filter f rows) rows.
Proof. intros Hk k r Hg. by apply get_filter in Hg as [? _]. Qed.

Lemma unique_sub {A} (key : R -> A) rows rows' : sub_table rows' rows -> unique_by key rows -> unique_by key rows'.
Proof. intros Hs Hu i j a b Ha Hb. by apply (Hu i j a b); apply Hs. Qed.

(** *** References *)

Lemma refers_insert {K' R'} `{Ord K'} (ref : R -> K') rows (target : list (K' * R')) k r :
  refers ref rows target -> is_Some (bt_get (ref r) target) -> refers ref (bt_insert k r rows) target.
Proof. intros Hr Hnew i r' [[-> ->]|[_ Hg]]%get_insert_cases; [done|by apply (Hr i)]. Qed.

Lemma refers_sub {K' R'} `{Ord K'} (ref : R -> K') rows rows' (target : list (K' * R')) :
  sub_table rows' rows -> refers ref rows target -> refers ref rows' target.
Proof. intros Hs Hr i r Hg. by apply (Hr i), Hs. Qed.

Lemma refers_grow {K' R'} `{Ord K'} (ref : R' -> K) (source : list (K' * R')) rows k r :
  refers ref source rows -> refers ref source (bt_insert k r rows).
Proof. intros Hr i r' Hg. by apply get_insert_some, (Hr i). Qed.

(** *** Counting *)

Definition count (f : R -> bool) (rows : list (K * R)) : Z := zlen (List.filter f (rows_of rows)).

Lemma count_cons f k r rows : count f ((k, r) :: rows) = (if f r then 1 else 0) + count f rows.
Proof. unfold count. simpl. destruct (f r); [by rewrite zlen_cons|lia]. Qed.

(** The number of rows [f] selects at key [k]. *)
Definition at_key (f : R -> bool) (k : K) (rows : list (K * R)) : Z :=
  match bt_get k rows with Some r => if f r then 1 else 0 | None => 0 end.

Lemma get_below k k' v (m : list (K * R)) : bt_sorted ((k', v) :: m) -> cmp k k' = Lt -> bt_get k m = None.
Proof.
  intros [_ Hall]%StronglySorted_inv Hlt. destruct (bt_get k m) as [r|] eqn:Eg; [|done]. apply bt_get_Some_In in Eg.
  rewrite List.Forall_forall in Hall. specialize (Hall _ Eg). unfold lt_key in Hall. simpl in Hall.
  rewrite (cmp_opp k k'), Hlt in Hall. done.
Qed.

Lemma count_insert f rows k r :
  bt_sorted rows -> count f (bt_insert k r rows) = count f rows + (if f r then 1 else 0) - at_key f k rows.
Proof.
  unfold at_key. induction rows as [|[k' v] rows IH]; intros Hs; simpl.
  { rewrite count_cons. lia. }
  destruct (cmp k k') eqn:Ec; rewrite ?count_cons; [lia| |].
  - rewrite (get_below k k' v) by done. lia.
  - rewrite IH; [lia|]. by apply StronglySorted_inv in Hs as [].
Qed.

Lemma count_remove f rows k : count f (bt_remove k rows) <= count f rows.
Proof.
  induction rows as [|[k' v] rows IH]; simpl; [done|]. destruct (cmp k k'); rewrite ?count_cons; [destruct (f v); lia|lia..].
Qed.

Lemma count_zero f rows : keyed rows -> (forall k r, bt_get k rows = Some r -> f r = false) -> count f rows = 0.
Proof.
  intros Hk Hf. unfold count. enough (List.filter f (rows_of rows) = []) as -> by done.
  assert (forall r, In r (rows_of rows) -> f r = false) as Hall by (intros r (k & Hg)%keyed_In; [by apply (Hf k)|done]).
  clear -Hall. induction (rows_of rows) as [|r l IH]; simpl; [done|]. rewrite Hall by by left. apply IH. intros r' Hr'. apply Hall. by right.
Qed.

Lemma count_filter f rows g : count f (List.filter g rows) <= count f rows.
Proof. induction rows as [|[k v] rows IH]; simpl; [done|]. destruct (g _); rewrite ?count_cons; [lia|destruct (f v); lia]. Qed.
End Table.

(** ** Tables that agree on what a clause reads

    Bumping a schema version, renaming a column or moving an index to another state changes rows in fields most clauses do
    not read.  [same_by f] says that two tables have the same keys and, key by key, the same [f]; the clauses respect it. *)

Definition same_by {K R A} `{Ord K} (f : R -> A) : relation (list (K * R)) :=
  fun rows rows' => forall k, f <$> bt_get k rows = f <$> bt_get k rows'.

#[global] Instance same_by_equivalence {K R A} `{Ord K} (f : R -> A) : Equivalence (same_by (K := K) f).
Proof. split; [by intros rows k|by intros r1 r2 Hs k|intros r1 r2 r3 H1 H2 k; by rewrite H1]. Qed.

Definition tcore (t : TableRow) : Z * bytes * list Z := (tbl_schema_id t, tbl_name t, tbl_pk_ordinals t).
Definition ccore (k : ColumnRow) : Z * (Z * option bytes) := (col_table_id k, col_type k).
Definition icore (i : IndexRow) : Z * bytes * IndexKind * list Z := (idx_table_id i, idx_name i, idx_kind i, idx_column_ordinals i).

Section SameBy.
Context {K R A : Type} `{OrdLaws K} (f : R -> A).
Implicit Types (rows : list (K * R)).

Lemma same_get rows rows' k r : same_by f rows rows' -> bt_get k rows = Some r -> exists r', bt_get k rows' = Some r' /\ f r' = f r.
Proof. intros Hs Hg. specialize (Hs k). rewrite Hg in Hs. destruct (bt_get k rows') as [r'|]; [|done]. injection Hs as Hs. eauto. Qed.

Lemma same_some rows rows' k : same_by f rows rows' -> is_Some (bt_get k rows) <-> is_Some (bt_get k rows').
Proof. intros Hs. specialize (Hs k). destruct (bt_get k rows), (bt_get k rows'); try done; by split; intros []. Qed.

Lemma same_insert rows k r r0 : bt_get k rows = Some r0 -> f r = f r0 -> same_by f rows (bt_insert k r rows).
Proof.
  intros Hg Hf k'. rewrite bt_get_insert. destruct (eqb k' k) eqn:E; [|done]. apply eqb_eq in E as ->. rewrite Hg. simpl. by rewrite Hf.
Qed.

Lemma refers_same_source {K' R'} `{Ord K'} (ref : R -> K') rows rows' (target : list (K' * R')) :
  (forall r r', f r = f r' -> ref r = ref r') -> same_by f rows rows' -> refers ref rows target -> refers ref rows' target.
Proof.
  intros Hf Hs Hr i r Hg. destruct (same_get rows' rows i r) as (r' & Hg' & Er); [done|done|].
  rewrite <- (Hf r' r) by done. by apply (Hr i).
Qed.

Lemma refers_same_target {K' R'} `{Ord K'} (ref : R' -> K) (source : list (K' * R')) rows rows' :
  same_by f rows rows' -> refers ref source rows -> refers ref source rows'.
Proof. intros Hs Hr i r Hg. apply (same_some rows rows'); [done|]. by apply (Hr i). Qed.

Lemma unique_same {B} (key : R -> B) rows rows' :
  (forall r r', f r = f r' -> key r = key r') -> same_by f rows rows' -> unique_by key rows -> unique_by key rows'.
Proof.
  intros Hf Hs Hu i j a b Ha Hb Hk. destruct (same_get rows' rows i a) as (a' & Ha' & Ea); [done|done|].
  destruct (same_get rows' rows j b) as (b' & Hb' & Eb); [done|done|].
  apply (Hu i j a' b'); [done|done|]. by rewrite (Hf _ _ Ea), (Hf _ _ Eb).
Qed.

Lemma ids_same {n} (rows rows' : list (Z * R)) :
  bt_sorted rows' -> same_by f rows rows' -> ids_within n rows -> ids_within n rows'.
Proof.
  intros Hsort Hs Hi. unfold ids_within in *. rewrite List.Forall_forall in *. intros [k r] Hin%bt_In_get; [|done].
  destruct (bt_get k rows) as [r'|] eqn:Eg; [|by specialize (Hs k); rewrite Hin, Eg in Hs].
  apply bt_get_Some_In in Eg. exact (Hi _ Eg).
Qed.
End SameBy.

#[global] Instance columns_dense_proper : Proper (same_by tcore ==> same_by ccore ==> iff) columns_dense.
Proof.
  assert (forall ts ts' cols cols', same_by tcore ts ts' -> same_by ccore cols cols' -> columns_dense ts cols -> columns_dense ts' cols')
    as Himpl; [|intros ts ts' Ht cols cols' Hc; split; by apply Himpl].
  intros ts ts' cols cols' Ht Hc Hd id t Hg. destruct (same_get tcore ts' ts id t) as (t' & Hg' & _); [done|done|].
  destruct (Hd id t' Hg') as (n & Hn & Hall). exists n. split; [done|]. intros o. rewrite <- Hall. by rewrite (same_some ccore cols cols').
Qed.

#[global] Instance pk_ok_proper : Proper (same_by tcore ==> eq ==> iff) pk_ok.
Proof.
  assert (forall ts ts' cols, same_by tcore ts ts' -> pk_ok ts cols -> pk_ok ts' cols) as Himpl;
    [|intros ts ts' Ht cols ? <-; split; by apply Himpl].
  intros ts ts' cols Ht Hp id t Hg. destruct (same_get tcore ts' ts id t) as (t' & Hg' & Et); [done|done|].
  injection Et as _ _ Et. rewrite <- Et. by apply (Hp id).
Qed.

#[global] Instance index_columns_proper : Proper (same_by ccore ==> same_by icore ==> iff) index_columns.
Proof.
  assert (forall cols cols' idx idx', same_by ccore cols cols' -> same_by icore idx idx' -> index_columns cols idx -> index_columns cols' idx')
    as Himpl; [|intros cols cols' Hc idx idx' Hi; split; by apply Himpl].
  intros cols cols' idx idx' Hc Hi Hx id i Hg o Ho. destruct (same_get icore idx' idx id i) as (i' & Hg' & Ei); [done|done|].
  injection Ei as Et _ _ Eo. rewrite <- Et. rewrite <- Eo in Ho. apply (same_some ccore cols cols'); [done|]. by apply (Hx id i').
Qed.

#[global] Instance fk_columns_proper : Proper (same_by ccore ==> eq ==> iff) fk_columns.
Proof.
  assert (forall cols cols' fks, same_by ccore cols cols' -> fk_columns cols fks -> fk_columns cols' fks) as Himpl;
    [|intros cols cols' Hc fks ? <-; split; by apply Himpl].
  intros cols cols' fks Hc Hf id f Hg. destruct (Hf id f Hg) as (Hl & Hne & Hall). split_and!; [done|done|]. intros a b Hab.
  destruct (Hall a b Hab) as (ka & kb & Ha & Hb & Et).
  destruct (same_get ccore cols cols' _ ka Hc Ha) as (ka' & Ha' & Ea). destruct (same_get ccore cols cols' _ kb Hc Hb) as (kb' & Hb' & Eb).
  unfold ccore in Ea, Eb. exists ka', kb'. split_and!; congruence.
Qed.

#[global] Instance fk_key_proper : Proper (same_by tcore ==> eq ==> eq ==> iff) fk_key.
Proof.
  assert (forall ts ts' idx fks, same_by tcore ts ts' -> fk_key ts idx fks -> fk_key ts' idx fks) as Himpl;
    [|intros ts ts' Ht idx ? <- fks ? <-; split; by apply Himpl].
  intros ts ts' idx fks Ht Hf id f Hg. specialize (Hf id f Hg). destruct (fk_parent_index_id f); [done|].
  destruct Hf as (t & Hg' & Hs). destruct (same_get tcore ts ts' _ t Ht Hg') as (t' & Hg2 & Et). exists t'. split; [done|].
  injection Et as _ _ ->. done.
Qed.

(** ** Ids *)

Lemma ids_insert {R} n n' (rows : list (Z * R)) k r :
  ids_within n rows -> n <= n' -> 1 <= k <= n' -> ids_within n' (bt_insert k r rows).
Proof.
  unfold ids_within. intros Hi Hn Hk. apply bt_insert_Forall; [done|]. eapply Forall_impl; [exact Hi|]. simpl. intros p. lia.
Qed.

Lemma ids_get {R} n (rows : list (Z * R)) k r : ids_within n rows -> bt_get k rows = Some r -> 1 <= k <= n.
Proof. unfold ids_within. rewrite List.Forall_forall. intros Hi Hg%bt_get_Some_In. exact (Hi _ Hg). Qed.

Lemma ids_replace {R} n (rows : list (Z * R)) k r r0 :
  ids_within n rows -> bt_get k rows = Some r0 -> ids_within n (bt_insert k r rows).
Proof. intros Hi Hg. apply (ids_insert n); [done|done|]. by apply (ids_get n rows k r0). Qed.

Lemma ids_mono {R} n n' (rows : list (Z * R)) : ids_within n rows -> n <= n' -> ids_within n' rows.
Proof. unfold ids_within. intros Hi Hn. eapply Forall_impl; [exact Hi|]. simpl. intros p. lia. Qed.

Lemma ids_remove {R} n (rows : list (Z * R)) k : ids_within n rows -> ids_within n (bt_remove k rows).
Proof. unfold ids_within. rewrite !List.Forall_forall. intros Hi p Hp. by apply Hi, (bt_remove_In k). Qed.

Lemma ids_filter {R} n (rows : list (Z * R)) f : ids_within n rows -> ids_within n (List.filter f rows).
Proof. unfold ids_within. rewrite !List.Forall_forall. intros Hi p [Hp _]%filter_In. by apply Hi. Qed.

Lemma set_counter_same cs kind n : set_counter cs kind n kind = n.
Proof. unfold set_counter. by rewrite decide_True. Qed.

Lemma counters_nonneg cs kind n : (forall k, 0 <= cs k) -> 0 <= n -> forall k, 0 <= set_counter cs kind n k.
Proof. intros Hc Hn k. unfold set_counter. by case_decide. Qed.

#[export] Hint Resolve ids_insert ids_mono ids_remove ids_filter counters_nonneg : catalog.
#[export] Hint Extern 2 (_ <= _) => lia : catalog.
#[export] Hint Extern 2 (_ <= _ <= _) => lia : catalog.
#[export] Hint Extern 1 (keyed (bt_insert _ _ _)) => apply keyed_insert; [|reflexivity] : catalog.
#[export] Hint Extern 1 (keyed (bt_remove _ _)) => apply keyed_remove : catalog.
#[export] Hint Extern 1 (keyed (List.filter _ _)) => apply keyed_filter : catalog.
#[export] Hint Extern 1 (refers _ (bt_insert _ _ _) _) => apply refers_insert : catalog.
#[export] Hint Extern 2 (refers _ _ (bt_insert _ _ _)) => apply refers_grow : catalog.
#[export] Hint Extern 1 (refers _ (bt_remove ?k ?rows) _) => apply (refers_sub _ rows); [by apply sub_remove|] : catalog.
#[export] Hint Extern 1 (unique_by _ (bt_remove ?k ?rows)) => apply (unique_sub _ rows); [by apply sub_remove|] : catalog.

(** ** What an accepted request checked *)

Lemma existsb_none {A} (f : A -> bool) l : existsb f l = false <-> forall x, In x l -> f x = false.
Proof.
  split.
  - intros Hn x Hx. apply not_true_is_false. intros Hf. enough (existsb f l = true) by congruence. apply existsb_exists. eauto.
  - intros Hn. apply not_true_is_false. intros (x & Hx & Hf)%existsb_exists. by rewrite Hn in Hf.
Qed.

Lemma no_clash {K R} `{CatalogRow K R, !OrdLaws K} (rows : list (K * R)) f g :
  keyed rows -> existsb g (List.filter f (rows_of rows)) = false ->
  forall k r, bt_get k rows = Some r -> f r = true -> g r = true -> False.
Proof.
  intros Hk Hn k r Hg Hf Hgr. rewrite existsb_none in Hn. rewrite Hn in Hgr; [done|]. apply filter_In. split; [|done].
  apply keyed_In; eauto.
Qed.

Lemma bytes_eqb_refl b : bytes_eqb b b = true.
Proof. by apply bool_decide_eq_true_2. Qed.

(** Walks down the checks of an accepted request. *)
Ltac accepted H :=
  repeat match type of H with
  | refuse _ = _ => discriminate H
  | Some (Err _) = _ => discriminate H
  | None = _ => discriminate H
  | (match ?x with _ => _ end) = _ => let E := fresh "Hchk" in destruct x eqn:E; [try discriminate H|try discriminate H..]
  | (if ?b then _ else _) = _ => let E := fresh "Hchk" in destruct b eqn:E; [try discriminate H|try discriminate H]
  end;
  unfold done in H; injection H as <- <-.

(** The invariant of the changed catalog, clause by clause; clauses about unchanged tables hold already. *)
Ltac by_clause H c :=
  repeat match goal with Hn : next_id ?k c = Ok ?n |- _ =>
    apply next_id_spec in Hn as [-> Hn]; pose proof (wf_counters c H k) end;
  destruct c as [cs ds ss ts cols idx cns fks gs]; destruct H; simpl in *; split; simpl;
  lazymatch goal with
  | Hi : ids_ok _ |- ids_ok _ =>
      destruct Hi; split; simpl in *; rewrite ?set_counter_same; first [assumption|by eauto with catalog|idtac]
  | _ => first [assumption|by eauto with catalog|idtac]
  end.

(** [name] is free: no row that [f] selects has it. *)
Ltac no_duplicate H := apply unique_insert; [assumption|intros j b Hj [= ? ?]; exfalso; eapply H; [exact Hj|..]].

Lemma wf_create_schema now database_id name c a ops :
  wf c -> spec_create_schema now database_id name c = Some (Ok (a, ops)) -> wf (apply_cats ops c).
Proof.
  intros Hwf Hs. unfold spec_create_schema in Hs. accepted Hs.
  pose proof (no_clash (c_schemas c) _ _ (wf_schemas c Hwf) Hchk1) as Hfree. simpl in Hfree. by_clause Hwf c.
  no_duplicate Hfree; [lia|by apply bool_decide_eq_true_2].
Qed.

Lemma none_selected {K R} `{CatalogRow K R, !OrdLaws K} (rows : list (K * R)) f k r :
  keyed rows -> List.filter f (rows_of rows) = [] -> bt_get k rows = Some r -> f r = false.
Proof.
  intros Hk Hn Hg. destruct (f r) eqn:Ef; [|done]. enough (In r (List.filter f (rows_of rows))) as Hin by by rewrite Hn in Hin.
  apply filter_In. split; [|done]. apply keyed_In; eauto.
Qed.

Lemma wf_drop_schema id c a ops : wf c -> spec_drop_schema id c = Some (Ok (a, ops)) -> wf (apply_cats ops c).
Proof.
  intros Hwf Hs. unfold spec_drop_schema in Hs. accepted Hs.
  assert (forall k t, bt_get k (c_tables c) = Some t -> tbl_schema_id t <> id) as Hno.
  { intros k t Hg. apply (none_selected _ _ k t (wf_tables c Hwf)) in Hchk0; [by apply Z.eqb_neq in Hchk0|done]. }
  by_clause Hwf c. intros i t Hg. rewrite get_remove_other; [by apply (wf_table_schema0 i)|done|by apply (Hno i)].
Qed.

(** *** The number of columns *)

Lemma ordinals_nodup (cols : list ((Z * Z) * ColumnRow)) id :
  keyed cols -> NoDup (map col_ordinal (rows_of (List.filter (fun p => p.1.1 =? id) cols))).
Proof.
  intros [Hs Hk]. unfold bt_sorted in Hs. induction Hs as [|[k r] l Hl IH Hall]; simpl; [constructor|].
  inversion_clear Hk as [|? ? Hkr Hkl]. simpl in Hkr. destruct (Z.eqb_spec k.1 id) as [Ek|]; [|by apply IH].
  simpl. constructor; [|by apply IH]. rewrite list_elem_of_In, in_map_iff.
  intros (r' & Eo & ([k' r''] & E & [Hin Hid%Z.eqb_eq]%filter_In)%in_map_iff). simpl in *. subst r''.
  rewrite List.Forall_forall in Hall, Hkl. specialize (Hall _ Hin). specialize (Hkl _ Hin). simpl in Hkl. unfold lt_key in Hall.
  simpl in Hall. rewrite Hkr, Hkl in Hall. simpl in Hall. rewrite Eo in Hall.
  rewrite Hkr in Ek. rewrite Hkl in Hid. simpl in *. rewrite Ek, Hid in Hall. by rewrite cmp_refl in Hall.
Qed.

Lemma column_in c id k : keyed (c_columns c) -> In k (table_columns c id) <-> bt_get (id, col_ordinal k) (c_columns c) = Some k.
Proof.
  intros Hk. rewrite table_columns_In. split.
  - intros ([i o] & Hin & Ei). simpl in Ei. subst i. destruct Hk as [Hs Hk]. rewrite List.Forall_forall in Hk. pose proof (Hk _ Hin) as E.
    simpl in E. injection E as _ ->. by apply bt_In_get.
  - intros Hg%bt_get_Some_In. eexists. by split; [exact Hg|].
Qed.

Lemma column_count c id t :
  wf c -> bt_get id (c_tables c) = Some t ->
  1 <= zlen (table_columns c id) /\ forall o, is_Some (bt_get (id, o) (c_columns c)) <-> 0 <= o < zlen (table_columns c id).
Proof.
  intros Hwf Ht. destruct (wf_dense c Hwf id t Ht) as (n & Hn & Hall). pose proof (wf_columns c Hwf) as Hk.
  enough (zlen (table_columns c id) = n) as -> by done.
  assert (Permutation (map col_ordinal (table_columns c id)) (seqZ 0 n)) as Hp.
  { apply NoDup_Permutation; [by apply ordinals_nodup|apply NoDup_seqZ|]. intros o.
    rewrite elem_of_seqZ, list_elem_of_In, in_map_iff, Z.add_0_l, <- Hall. split.
    - intros (k & <- & Hin%column_in); [by eexists|done].
    - intros (k & Hg). pose proof (keyed_key _ _ _ Hk Hg) as E. injection E as Ei Eo. exists k. split; [done|].
      apply column_in; [done|]. by rewrite Eo. }
  apply Permutation_length in Hp. rewrite length_map, length_seqZ in Hp. lia.
Qed.

(** *** Indexes *)

(** A foreign key names an index that is kept as it was. *)
Lemma fk_key_indexes ts idx idx' fks :
  (forall id f i ix, bt_get id fks = Some f -> fk_parent_index_id f = Some i -> bt_get i idx = Some ix ->
     idx_kind ix = IUnique -> idx_state ix = IReady -> bt_get i idx' = Some ix) ->
  fk_key ts idx fks -> fk_key ts idx' fks.
Proof.
  intros Hkeep Hf id f Hg. specialize (Hf id f Hg). destruct (fk_parent_index_id f) as [i|] eqn:Ei; [|done].
  destruct Hf as (ix & Hix & ? & ? & ? & ?). exists ix. split_and!; try done. by apply (Hkeep id f i ix).
Qed.

Lemma index_count_insert idx k i :
  keyed idx -> index_count idx ->
  match bt_get k idx with
  | Some i0 => idx_table_id i0 = idx_table_id i
  | None => count (fun j => idx_table_id j =? idx_table_id i) idx < MAX_INDEXES_PER_TABLE
  end -> index_count (bt_insert k i idx).
Proof.
  intros [Hs _] Hc Hk id. specialize (Hc id). pose proof (count_insert (fun j => idx_table_id j =? id) idx k i Hs) as Hi.
  unfold count in *. rewrite Hi. unfold at_key. destruct (bt_get k idx) as [i0|].
  - rewrite Hk. lia.
  - destruct (Z.eqb_spec (idx_table_id i) id) as [E|]; [rewrite E in Hk|]; lia.
Qed.

Lemma index_count_remove idx k : index_count idx -> index_count (bt_remove k idx).
Proof. intros Hc id. specialize (Hc id). pose proof (count_remove (fun j => idx_table_id j =? id) idx k). unfold count in *. lia. Qed.

Lemma wf_create_index now table_id name kind ordinals c a ops :
  wf c -> request_ok (CreateIndex now table_id name kind ordinals) ->
  spec_create_index now table_id name kind ordinals c = Some (Ok (a, ops)) -> wf (apply_cats ops c).
Proof.
  intros Hwf (_ & _ & _ & Hord & _) Hs. unfold spec_create_index in Hs. accepted Hs. rename Hchk3 into Ht.
  pose proof (keyed_key _ _ _ (wf_tables c Hwf) Ht) as Eid. simpl in Eid. rewrite Eid in Hchk4.
  pose proof (no_clash (c_indexes c) _ _ (wf_indexes c Hwf) Hchk5) as Hfree. simpl in Hfree.
  destruct (column_count c table_id t Hwf Ht) as [_ Hcols]. rewrite existsb_none in Hchk4.
  assert (forall o, In o ordinals -> is_Some (bt_get (table_id, o) (c_columns c))) as Hex.
  { intros o Ho. apply Hcols. specialize (Hchk4 o Ho). rewrite List.Forall_forall in Hord. specialize (Hord o Ho).
    unfold is_u16 in Hord. simpl in Hchk4. lia. }
  pose proof (fresh_id _ _ (ids_indexes c (wf_ids c Hwf))) as Hnew. by_clause Hwf c.
  - no_duplicate Hfree; [lia|by apply bool_decide_eq_true_2].
  - intros id i [[-> ->]|[_ Hg]]%get_insert_cases o Ho; [by apply Hex|by apply (wf_index_columns0 id)].
  - apply index_count_insert; [done..|]. rewrite Hnew. unfold indexes_on in Hchk6. simpl in *. unfold count. lia.
  - apply (fk_key_indexes ts idx); [|done]. intros id f i ix _ _ Hix _ _. rewrite get_insert_other; [done|congruence].
Qed.

Lemma not_referenced_spec c id i f :
  wf c -> not_referenced c id = Some (Ok tt) -> bt_get i (c_fks c) = Some f -> fk_parent_index_id f <> Some id.
Proof.
  intros Hwf. unfold not_referenced. destruct (existsb _ _) eqn:Ee; [done|]. intros _ Hg Hf. rewrite existsb_none in Ee.
  assert (In f (rows_of (c_fks c))) as Hin by (apply keyed_In; [apply Hwf|eauto]). specialize (Ee f Hin). simpl in Ee.
  by apply bool_decide_eq_false in Ee.
Qed.

(** An index no foreign key relies on can go. *)
Lemma wf_remove_index c id :
  wf c -> (forall i f, bt_get i (c_fks c) = Some f -> fk_parent_index_id f <> Some id) -> wf (apply_cats [DelIndex id] c).
Proof.
  intros Hwf Hfree. by_clause Hwf c.
  - intros i ix [_ Hg]%get_remove_some; [|done]. by apply (wf_index_columns0 i).
  - by apply index_count_remove.
  - apply (fk_key_indexes ts idx); [|done]. intros i f j ix Hf Hj Hix _ _. rewrite get_remove_other; [done|done|].
    intros ->. by apply (Hfree i f).
Qed.

Lemma wf_drop_index id c a ops : wf c -> spec_drop_index id c = Some (Ok (a, ops)) -> wf (apply_cats ops c).
Proof.
  intros Hwf Hs. unfold spec_drop_index in Hs. destruct (index_of c id) as [[ix|]|]; [|done..].
  destruct (not_primary ix) as [[[]|]|]; [|done..]. destruct (not_referenced c id) as [[[]|]|] eqn:En; [|done..].
  injection Hs as <- <-. apply wf_remove_index; [done|]. intros i f. by apply not_referenced_spec.
Qed.

Lemma index_of_spec c id i : index_of c id = Some (Ok i) -> bt_get id (c_indexes c) = Some i.
Proof. unfold index_of. destruct (bt_get _ _); [|done]. by intros [= ->]. Qed.

(** A foreign key's index is ready. *)
Lemma referenced_ready c i f id ix :
  wf c -> bt_get i (c_fks c) = Some f -> fk_parent_index_id f = Some id -> bt_get id (c_indexes c) = Some ix -> idx_state ix = IReady.
Proof. intros Hwf Hf Hi Hix. pose proof (wf_fk_key c Hwf i f Hf) as Hk. rewrite Hi in Hk. destruct Hk as (? & ? & ? & ? & ? & ?). congruence. Qed.

Lemma wf_remove_index_row id c a ops : wf c -> spec_remove_index id c = Some (Ok (a, ops)) -> wf (apply_cats ops c).
Proof.
  intros Hwf Hs. unfold spec_remove_index in Hs. destruct (index_of c id) as [[ix|]|] eqn:Ei; [|done..].
  apply index_of_spec in Ei. case_bool_decide as Est; [|done]. injection Hs as <- <-. apply wf_remove_index; [done|].
  intros i f Hf Hr. pose proof (referenced_ready c i f id ix Hwf Hf Hr Ei). congruence.
Qed.

Lemma wf_move_index c id ix to :
  wf c -> bt_get id (c_indexes c) = Some ix ->
  (forall i f, bt_get i (c_fks c) = Some f -> fk_parent_index_id f <> Some id) -> wf (apply_cats [PutIndex (with_state ix to)] c).
Proof.
  intros Hwf Hix Hfree. pose proof (keyed_key _ _ _ (wf_indexes c Hwf) Hix) as Eid. simpl in Eid.
  assert (same_by icore (c_indexes c) (bt_insert id (with_state ix to) (c_indexes c))) as Hsame by by apply (same_insert _ _ _ _ ix).
  by_clause Hwf c; rewrite ?Eid.
  - by apply (ids_replace _ _ _ _ ix).
  - by apply (refers_same_source icore _ idx); [intros r r' [=]|..].
  - by apply (unique_same icore _ idx); [intros r r' [=]; congruence|..].
  - by rewrite <- Hsame.
  - apply index_count_insert; [done..|]. by rewrite Hix.
  - apply (fk_key_indexes ts idx); [|done]. intros i f j jx Hf Hj Hjx _ _. rewrite get_insert_other; [done|].
    intros ->. by apply (Hfree i f).
Qed.

Lemma wf_transition id allowed to c a ops :
  wf c -> (existsb (fun st => bool_decide (st = IReady)) allowed = false \/
    forall i f, bt_get i (c_fks c) = Some f -> fk_parent_index_id f <> Some id) ->
  spec_transition id allowed to c = Some (Ok (a, ops)) -> wf (apply_cats ops c).
Proof.
  intros Hwf Hfree Hs. unfold spec_transition in Hs. destruct (index_of c id) as [[ix|]|] eqn:Ei; [|done..].
  apply index_of_spec in Ei. destruct (existsb (fun st => bool_decide (st = idx_state ix)) allowed) eqn:Ea; [|done].
  injection Hs as <- <-. apply (wf_move_index c id); [done..|].
  destruct Hfree as [Hno|]; [|done]. intros i f Hf Hr. pose proof (referenced_ready c i f id ix Hwf Hf Hr Ei) as Er.
  by rewrite Er, Hno in Ea.
Qed.

Lemma wf_mark_dropping id c a ops : wf c -> spec_mark_dropping id c = Some (Ok (a, ops)) -> wf (apply_cats ops c).
Proof.
  intros Hwf Hs. unfold spec_mark_dropping in Hs. destruct (index_of c id) as [[ix|]|]; [|done..].
  destruct (not_primary ix) as [[[]|]|]; [|done..]. destruct (not_referenced c id) as [[[]|]|] eqn:En; [|done..].
  apply wf_transition in Hs; [done|done|]. right. intros i f. by apply not_referenced_spec.
Qed.

(** *** Schema versions and columns *)

Lemma wf_bump c id t : wf c -> bt_get id (c_tables c) = Some t -> wf (apply_cats [PutTable (bump_version t)] c).
Proof.
  intros Hwf Ht. pose proof (keyed_key _ _ _ (wf_tables c Hwf) Ht) as Eid. simpl in Eid.
  assert (same_by tcore (c_tables c) (bt_insert id (bump_version t) (c_tables c))) as Hsame by by apply (same_insert _ _ _ _ t).
  by_clause Hwf c; rewrite ?Eid.
  - by apply (ids_replace _ _ _ _ t).
  - by apply (refers_same_source tcore _ ts); [intros r r' [=]|..].
  - by apply (unique_same tcore _ ts); [intros r r' [=]; congruence|..].
  - by rewrite <- Hsame.
  - by rewrite <- Hsame.
  - by rewrite <- Hsame.
Qed.

(** Columns only added: what is said about existing columns still holds. *)
Section Grow.
Context (cols cols' : list ((Z * Z) * ColumnRow)).
Hypothesis Hgrow : forall key k, bt_get key cols = Some k -> bt_get key cols' = Some k.

Lemma pk_grow ts : pk_ok ts cols -> pk_ok ts cols'.
Proof.
  intros Hp id t Ht. destruct (Hp id t Ht) as [Hne Hall]. split; [done|]. intros o Ho.
  destruct (Hall o Ho) as (k & Hk & Hn). eauto.
Qed.

Lemma index_columns_grow idx : index_columns cols idx -> index_columns cols' idx.
Proof. intros Hx id i Hi o Ho. destruct (Hx id i Hi o Ho) as [k Hk]. eexists. by apply Hgrow. Qed.

Lemma fk_columns_grow fks : fk_columns cols fks -> fk_columns cols' fks.
Proof.
  intros Hf id f Hg. destruct (Hf id f Hg) as (? & ? & Hall). split_and!; [done|done|]. intros a b Hab.
  destruct (Hall a b Hab) as (ka & kb & Ha & Hb & Et). exists ka, kb. split_and!; [by apply Hgrow|by apply Hgrow|done].
Qed.

Lemma fk_nulls_grow fks : fk_nulls cols fks -> fk_nulls cols' fks.
Proof. intros Hf id f Hg Hs a Ha. destruct (Hf id f Hg Hs a Ha) as (k & Hk & Hn). eauto. Qed.
End Grow.

Lemma active_spec c id t : active_table c id = Some (Ok t) -> bt_get id (c_tables c) = Some t.
Proof. by intros [? _]%active_table_spec. Qed.

Lemma wf_append_column c id t k :
  wf c -> bt_get id (c_tables c) = Some t -> col_table_id k = id -> col_ordinal k = zlen (table_columns c id) ->
  existsb (fun d => bytes_eqb (col_name d) (col_name k)) (table_columns c id) = false -> wf (apply_cats [PutColumn k] c).
Proof.
  intros Hwf Ht Eid Eo Hname. destruct (column_count c id t Hwf Ht) as [Hpos Hall]. rewrite existsb_none in Hname.
  assert (bt_get (id, col_ordinal k) (c_columns c) = None) as Hfresh.
  { apply eq_None_not_Some. rewrite Hall. lia. }
  assert (forall d, bt_get (id, col_ordinal d) (c_columns c) = Some d -> col_name d <> col_name k) as Hnames.
  { intros d Hd%column_in E; [|apply Hwf]. specialize (Hname d Hd). simpl in Hname. by rewrite E, bytes_eqb_refl in Hname. }
  assert (forall key d, bt_get key (c_columns c) = Some d -> bt_get key (bt_insert (id, col_ordinal k) k (c_columns c)) = Some d) as Hgrow.
  { intros key d Hd. rewrite get_insert_other; [done|]. congruence. }
  set (n := zlen (table_columns c id)) in *. clearbody n. by_clause Hwf c; rewrite ?Eid.
  - apply refers_insert; [done|]. rewrite Eid. by eexists.
  - apply unique_insert; [done|]. intros [i o] d Hd [= Et En]. pose proof (keyed_key _ _ _ wf_columns0 Hd) as Ek.
    injection Ek as Ei Eo'. exfalso. apply (Hnames d); [|done]. by rewrite <- Eid, <- Et, Ei, Eo'.
  - intros i t' Ht'. destruct (decide (i = id)) as [->|Hne].
    + exists (n + 1). split; [lia|]. intros o. rewrite bt_get_insert, Eo. destruct (eqb (id, o) (id, n)) eqn:Ee.
      * apply eqb_eq in Ee as [= ->]. split; [lia|by eexists].
      * rewrite Hall. split; [lia|]. intros Ho. destruct (decide (o = n)) as [->|]; [|lia].
        by rewrite (proj2 (eqb_eq (id, n) (id, n)) eq_refl) in Ee.
    + destruct (wf_dense0 i t' Ht') as (n' & Hn' & Hd). exists n'. split; [done|]. intros o. rewrite get_insert_other; [done|congruence].
  - by apply (pk_grow cols).
  - by apply (index_columns_grow cols).
  - by apply (fk_columns_grow cols).
  - by apply (fk_nulls_grow cols).
Qed.

Lemma wf_add_column table_id column backfill c a ops :
  wf c -> spec_add_column table_id column backfill c = Some (Ok (a, ops)) -> wf (apply_cats ops c).
Proof.
  intros Hwf Hs. unfold spec_add_column in Hs. destruct (validate_name _ _); [|done].
  destruct (active_table c table_id) as [[t|]|] eqn:Et; [|done..]. apply active_spec in Et.
  destruct (existsb _ _) eqn:Ename; [done|]. destruct (_ <=? _); [done|]. injection Hs as <- <-.
  match goal with |- wf (apply_cats [?p; ?q] c) => change [p; q] with ([p] ++ [q]) end. rewrite apply_cats_app.
  apply (wf_append_column _ table_id (bump_version t)); [by apply (wf_bump c table_id)| |done|by destruct c|by destruct c].
  destruct c. simpl in *. pose proof (keyed_key _ _ _ (wf_tables _ Hwf) Et) as Eid. simpl in Eid. rewrite Eid. apply get_insert_same.
Qed.

(** Changing the name, default or nullability of a column. *)
Lemma wf_set_column c id o k k' :
  wf c -> bt_get (id, o) (c_columns c) = Some k -> (col_table_id k', col_ordinal k') = (col_table_id k, col_ordinal k) ->
  col_type k' = col_type k ->
  (forall o' d, bt_get (id, o') (c_columns c) = Some d -> col_name d = col_name k' -> o' = o) ->
  (col_nullable k' = true -> forall t, bt_get id (c_tables c) = Some t -> ~ In o (tbl_pk_ordinals t)) \/ col_nullable k' = col_nullable k ->
  (col_nullable k' = false -> forall i f, bt_get i (c_fks c) = Some f -> fk_table_id f = id -> In o (fk_child_ordinals f) ->
     fk_on_delete f = SetNull \/ fk_on_update f = SetNull -> False) \/ col_nullable k' = col_nullable k ->
  wf (apply_cats [PutColumn k'] c).
Proof.
  intros Hwf Hk Ekey Ety Hname Hpk Hnull. pose proof (keyed_key _ _ _ (wf_columns c Hwf) Hk) as Eid. simpl in Eid.
  rewrite Eid in Ekey. pose proof Ekey as [= Et' Eo'].
  assert (same_by ccore (c_columns c) (bt_insert (id, o) k' (c_columns c))) as Hsame.
  { apply (same_insert _ _ _ _ k); [done|]. unfold ccore. rewrite Ety. injection Eid as -> _. by rewrite Et'. }
  by_clause Hwf c; rewrite ?Ekey.
  - apply (refers_same_source ccore _ cols); [intros r r' [=]; done|done..].
  - apply unique_insert; [done|]. intros [i o'] d Hd [= Ei En]. pose proof (keyed_key _ _ _ wf_columns0 Hd) as Ed.
    injection Ed as Edi Edo. assert (i = id) as -> by congruence. f_equal. by apply (Hname o' d).
  - by rewrite <- Hsame.
  - intros i t Ht. destruct (wf_pk0 i t Ht) as [Hne Hall]. split; [done|]. intros o' Ho'. destruct (Hall o' Ho') as (d & Hd & Hn).
    destruct (decide ((i, o') = (id, o))) as [[= -> ->]|Hne']; [|exists d; by rewrite get_insert_other].
    exists k'. rewrite get_insert_same. split; [done|]. assert (d = k) as -> by congruence.
    destruct Hpk as [Hpk| ->]; [|done]. destruct (col_nullable k') eqn:En; [|done]. by exfalso; apply (Hpk eq_refl t).
  - by rewrite <- Hsame.
  - by rewrite <- Hsame.
  - intros i f Hf Hsn a Ha. destruct (wf_fk_nulls0 i f Hf Hsn a Ha) as (d & Hd & Hn).
    destruct (decide ((fk_table_id f, a) = (id, o))) as [[= Ef ->]|Hne']; [|exists d; by rewrite get_insert_other].
    rewrite Ef in *. exists k'. rewrite get_insert_same. split; [done|]. assert (d = k) as -> by congruence.
    destruct Hnull as [Hnull| ->]; [|done]. destruct (col_nullable k') eqn:En; [done|]. by exfalso; apply (Hnull eq_refl i f).
Qed.

Lemma column_of_get c table_id ordinal k :
  wf c -> column_of c table_id ordinal = Some (Ok k) -> bt_get (table_id, ordinal) (c_columns c) = Some k.
Proof.
  intros Hwf. unfold column_of, find_column. destruct (List.find _ _) as [k'|] eqn:Ef; [|done]. intros [= ->].
  apply List.find_some in Ef as [Hin Ho%Z.eqb_eq]. subst ordinal. by apply column_in; [apply Hwf|].
Qed.

(** The batch of every column change. *)
Lemma wf_change_column c id t o k k' a ops :
  wf c -> bt_get id (c_tables c) = Some t -> bt_get (id, o) (c_columns c) = Some k ->
  change_column t k' = Some (Ok (a, ops)) ->
  (wf (apply_cats [PutTable (bump_version t)] c) -> wf (apply_cats [PutColumn k'] (apply_cats [PutTable (bump_version t)] c))) ->
  wf (apply_cats ops c).
Proof.
  intros Hwf Ht Hk Hs Hstep. injection Hs as <- <-.
  match goal with |- wf (apply_cats [?p; ?q] c) => change [p; q] with ([p] ++ [q]) end. rewrite apply_cats_app.
  apply Hstep. by apply (wf_bump c id).
Qed.

Lemma same_name_same_column c id o o' d k :
  wf c -> bt_get (id, o) (c_columns c) = Some k -> bt_get (id, o') (c_columns c) = Some d -> col_name d = col_name k -> o' = o.
Proof.
  intros Hwf Hk Hd E. pose proof (keyed_key _ _ _ (wf_columns c Hwf) Hk) as [= Ek _].
  pose proof (keyed_key _ _ _ (wf_columns c Hwf) Hd) as [= Ed _].
  pose proof (wf_column_names c Hwf (id, o') (id, o) d k Hd Hk) as Hu. simpl in Hu. rewrite Ek, Ed, E in Hu. specialize (Hu eq_refl). congruence.
Qed.

Lemma wf_rename_column table_id ordinal name c a ops :
  wf c -> spec_rename_column table_id ordinal name c = Some (Ok (a, ops)) -> wf (apply_cats ops c).
Proof.
  intros Hwf Hs. unfold spec_rename_column in Hs. destruct (validate_name _ _); [|done].
  destruct (active_table c table_id) as [[t|]|] eqn:Et; [|done..]. apply active_spec in Et.
  destruct (column_of _ _ _) as [[k|]|] eqn:Ek; [|done..]. apply column_of_get in Ek; [|done].
  destruct (existsb _ (table_columns _ _)) eqn:Ename; [done|]. destruct (existsb _ (checks_of c)); [done|]. rewrite existsb_none in Ename.
  apply (wf_change_column c table_id t ordinal k) in Hs; try done. intros Hwf'.
  assert (c_columns (apply_cats [PutTable (bump_version t)] c) = c_columns c) as Ec by by destruct c.
  apply (wf_set_column _ table_id ordinal k); rewrite ?Ec; try done; [|by right|by right].
  intros o' d Hd Hn. pose proof (keyed_key _ _ _ (wf_columns c Hwf) Hd) as [= Ei Eo].
  assert (In d (table_columns c table_id)) as Hin by (apply column_in; [apply Hwf|by rewrite Eo]).
  specialize (Ename d Hin). simpl in Ename, Hn. rewrite Hn, bytes_eqb_refl in Ename. simpl in Ename.
  apply negb_false_iff, Z.eqb_eq in Ename. congruence.
Qed.

Lemma wf_set_default table_id ordinal v c a ops :
  wf c -> spec_set_default table_id ordinal v c = Some (Ok (a, ops)) -> wf (apply_cats ops c).
Proof.
  intros Hwf Hs. unfold spec_set_default in Hs. destruct (active_table c table_id) as [[t|]|] eqn:Et; [|done..].
  apply active_spec in Et. destruct (column_of _ _ _) as [[k|]|] eqn:Ek; [|done..]. apply column_of_get in Ek; [|done].
  apply (wf_change_column c table_id t ordinal k) in Hs; try done. intros Hwf'.
  assert (c_columns (apply_cats [PutTable (bump_version t)] c) = c_columns c) as Ec by by destruct c.
  apply (wf_set_column _ table_id ordinal k); rewrite ?Ec; try done; [|by right|by right].
  intros o' d Hd Hn. by apply (same_name_same_column c table_id ordinal o' d k).
Qed.

Lemma zmem_In x l : zmem x l = true <-> In x l.
Proof. unfold zmem. rewrite existsb_exists. split; [by intros (y & ? & ->%Z.eqb_eq)|]. intros Hx. exists x. by rewrite Z.eqb_refl. Qed.

Lemma wf_set_nullable table_id ordinal b c a ops :
  wf c -> spec_set_nullable table_id ordinal b c = Some (Ok (a, ops)) -> wf (apply_cats ops c).
Proof.
  intros Hwf Hs. unfold spec_set_nullable in Hs. destruct (active_table c table_id) as [[t|]|] eqn:Et; [|done..].
  apply active_spec in Et. destruct (column_of _ _ _) as [[k|]|] eqn:Ek; [|done..]. apply column_of_get in Ek; [|done].
  destruct (b && zmem ordinal (tbl_pk_ordinals t)) eqn:Epk; [done|].
  assert (change_column t (with_nullable k b) = Some (Ok (a, ops)) /\
    (b = false -> existsb (sets_null table_id ordinal) (rows_of (c_fks c)) = false)) as [Hch Hnull].
  { destruct b; [done|]. destruct (existsb _ _); [done|]. done. }
  clear Hs. apply (wf_change_column c table_id t ordinal k) in Hch; try done. intros Hwf'.
  assert (c_columns (apply_cats [PutTable (bump_version t)] c) = c_columns c) as Ec by by destruct c.
  assert (c_fks (apply_cats [PutTable (bump_version t)] c) = c_fks c) as Ef by by destruct c.
  apply (wf_set_column _ table_id ordinal k); rewrite ?Ec, ?Ef; try done.
  - intros o' d Hd Hn. by apply (same_name_same_column c table_id ordinal o' d k).
  - left. simpl. intros -> t' Ht'. destruct c as [cs ds ss ts cols idx cns fks gs]. simpl in *.
    pose proof (keyed_key _ _ _ (wf_tables _ Hwf) Et) as Eid. simpl in Eid. rewrite Eid, get_insert_same in Ht'. injection Ht' as <-.
    simpl. rewrite <- zmem_In. by rewrite Epk.
  - left. simpl. intros -> i f Hf Eid Ho Hsn. specialize (Hnull eq_refl). rewrite existsb_none in Hnull.
    assert (In f (rows_of (c_fks c))) as Hin by (apply keyed_In; [apply Hwf|eauto]). specialize (Hnull f Hin).
    unfold sets_null in Hnull. rewrite Eid, Z.eqb_refl, (proj2 (zmem_In _ _) Ho) in Hnull. simpl in Hnull.
    apply orb_false_iff in Hnull as [H1%bool_decide_eq_false H2%bool_decide_eq_false]. tauto.
Qed.

(** *** Single changes: counters, constraints, foreign keys, grants *)

Lemma wf_set_counter c kind n : wf c -> c_counters c kind <= n -> wf (apply_cats [SetCounter kind n] c).
Proof.
  intros Hwf Hn. pose proof (wf_counters c Hwf kind) as Hpos. by_clause Hwf c;
    unfold set_counter; case_decide; subst; eauto with catalog.
Qed.

Lemma counter_set c kind n : c_counters (apply_cats [SetCounter kind n] c) kind = n.
Proof. destruct c. apply set_counter_same. Qed.

Lemma counters_bump c t : c_counters (apply_cats [PutTable (bump_version t)] c) = c_counters c.
Proof. by destruct c. Qed.

Lemma wf_put_constraint c r :
  wf c -> 1 <= con_constraint_id r <= c_counters c CConstraint -> is_Some (bt_get (con_table_id r) (c_tables c)) ->
  wf (apply_cats [PutConstraint r] c).
Proof. intros Hwf Hid Ht. by_clause Hwf c. Qed.

Lemma wf_del_constraint c id : wf c -> wf (apply_cats [DelConstraint id] c).
Proof. intros Hwf. by_clause Hwf c. Qed.

(** What [resolve_foreign_key] established for one foreign key. *)
Definition fk_sound (ts : list (Z * TableRow)) (cols : list ((Z * Z) * ColumnRow)) (idx : list (Z * IndexRow)) (f : ForeignKeyRow) : Prop :=
  fk_columns cols [(fk_fk_id f, f)] /\ fk_key ts idx [(fk_fk_id f, f)] /\ fk_nulls cols [(fk_fk_id f, f)].

Lemma get_single {V} (k : Z) (v : V) : bt_get k [(k, v)] = Some v.
Proof. simpl. by rewrite (cmp_refl k). Qed.

Lemma wf_put_fk c f :
  wf c -> 1 <= fk_fk_id f <= c_counters c CConstraint ->
  is_Some (bt_get (fk_table_id f) (c_tables c)) -> is_Some (bt_get (fk_parent_table_id f) (c_tables c)) ->
  (forall i g, bt_get i (c_fks c) = Some g -> fk_table_id g = fk_table_id f -> fk_name g = fk_name f -> i = fk_fk_id f) ->
  fk_sound (c_tables c) (c_columns c) (c_indexes c) f -> wf (apply_cats [PutFk f] c).
Proof.
  intros Hwf Hid Ht Hp Hname (H1 & H2 & H3). by_clause Hwf c.
  - apply unique_insert; [done|]. intros j g Hj [= ? ?]. by apply (Hname j g).
  - intros i g [[-> ->]|[_ Hg]]%get_insert_cases; [apply (H1 (fk_fk_id f)), get_single|by apply (wf_fk_columns0 i)].
  - intros i g [[-> ->]|[_ Hg]]%get_insert_cases; [apply (H2 (fk_fk_id f)), get_single|by apply (wf_fk_key0 i)].
  - intros i g [[-> ->]|[_ Hg]]%get_insert_cases; [apply (H3 (fk_fk_id f)), get_single|by apply (wf_fk_nulls0 i)].
Qed.

(** The clauses of the foreign keys that stay. *)
Section SubFks.
Context (fks fks' : list (Z * ForeignKeyRow)).
Hypothesis Hsub : sub_table fks' fks.
Lemma fk_columns_sub cols : fk_columns cols fks -> fk_columns cols fks'.
Proof. intros Hf i f Hg. apply (Hf i). by apply Hsub. Qed.
Lemma fk_key_sub ts idx : fk_key ts idx fks -> fk_key ts idx fks'.
Proof. intros Hf i f Hg. apply (Hf i). by apply Hsub. Qed.
Lemma fk_nulls_sub cols : fk_nulls cols fks -> fk_nulls cols fks'.
Proof. intros Hf i f Hg. apply (Hf i). by apply Hsub. Qed.
End SubFks.

Lemma wf_del_fk c id : wf c -> wf (apply_cats [DelFk id] c).
Proof.
  intros Hwf. by_clause Hwf c.
  - by apply (fk_columns_sub fks); [apply sub_remove|].
  - by apply (fk_key_sub fks); [apply sub_remove|].
  - by apply (fk_nulls_sub fks); [apply sub_remove|].
Qed.

Lemma wf_del_grants c ids : wf c -> wf (apply_cats (map DelGrant ids) c).
Proof.
  revert c. induction ids as [|id ids IH]; intros c Hwf; simpl; [done|]. apply IH.
  change (wf (apply_cats [DelGrant id] c)). by_clause Hwf c.
Qed.

Lemma wf_bump_present c c' id : wf c' -> c_tables c = c_tables c' -> wf (apply_cats (bump_if_present c id) c').
Proof. intros Hwf E. unfold bump_if_present. rewrite E. destruct (bt_get id (c_tables c')) as [t|] eqn:Et; [by apply (wf_bump c' id)|done]. Qed.

Lemma wf_create_constraint table_id name kind ordinals expr c a ops :
  wf c -> spec_create_constraint table_id name kind ordinals expr c = Some (Ok (a, ops)) -> wf (apply_cats ops c).
Proof.
  intros Hwf Hs. unfold spec_create_constraint in Hs. accepted Hs. apply next_id_spec in Hchk2 as [-> _].
  match goal with |- wf (apply_cats [?p; ?q] c) => change [p; q] with ([p] ++ [q]) end. rewrite apply_cats_app.
  pose proof (wf_counters c Hwf CConstraint) as Hpos.
  apply wf_put_constraint; [apply wf_set_counter; [done|lia]|rewrite counter_set; simpl; lia|destruct c; by eexists].
Qed.

Lemma wf_create_check table_id name ordinals expr c a ops :
  wf c -> spec_create_check table_id name ordinals expr c = Some (Ok (a, ops)) -> wf (apply_cats ops c).
Proof.
  intros Hwf Hs. unfold spec_create_check in Hs. destruct (validate_name _ _); [|done].
  destruct (validate_check_expression _); [|done]. destruct (active_table c table_id) as [[t|]|] eqn:Et; [|done..].
  apply active_spec in Et. accepted Hs. apply next_id_spec in Hchk1 as [-> _]. pose proof (wf_counters c Hwf CConstraint) as Hpos.
  pose proof (keyed_key _ _ _ (wf_tables c Hwf) Et) as Eid. simpl in Eid.
  match goal with |- wf (apply_cats [?p; ?q; ?r] c) => change [p; q; r] with ([p] ++ [q] ++ [r]) end. rewrite !apply_cats_app.
  apply wf_put_constraint.
  - apply (wf_bump _ table_id); [apply wf_set_counter; [done|lia]|by destruct c].
  - rewrite (counters_bump _ t), counter_set. simpl. lia.
  - destruct c. simpl in *. apply get_insert_some. by eexists.
Qed.

Lemma wf_drop_check id c a ops : wf c -> spec_drop_check id c = Some (Ok (a, ops)) -> wf (apply_cats ops c).
Proof.
  intros Hwf Hs. unfold spec_drop_check in Hs. accepted Hs. change (wf (apply_cats ([DelConstraint id] ++ bump_if_present c (con_table_id c0)) c)).
  rewrite apply_cats_app. apply wf_bump_present; [by apply wf_del_constraint|by destruct c].
Qed.

Lemma wf_drop_fk id c a ops : wf c -> spec_drop_fk id c = Some (Ok (a, ops)) -> wf (apply_cats ops c).
Proof.
  intros Hwf Hs. unfold spec_drop_fk in Hs. accepted Hs. change (wf (apply_cats ([DelFk id] ++ bump_if_present c (fk_table_id f)) c)).
  rewrite apply_cats_app. apply wf_bump_present; [by apply wf_del_fk|by destruct c].
Qed.

Lemma wf_grant now principal kind id p c a ops :
  wf c -> spec_grant now principal kind id p c = Some (Ok (a, ops)) -> wf (apply_cats ops c).
Proof.
  intros Hwf Hs. unfold spec_grant in Hs. accepted Hs. pose proof (no_clash (c_grants c) _ _ (wf_grants c Hwf) Hchk0) as Hfree.
  simpl in Hfree. by_clause Hwf c. apply unique_insert; [done|]. intros j b Hj [= E1 E2 E3 E4]. exfalso.
  apply (Hfree j b Hj); [by apply bool_decide_eq_true_2|]. unfold same_grant. rewrite E2, E3, E4. rewrite Z.eqb_refl.
  by rewrite !bool_decide_eq_true_2.
Qed.

(** *** Declaring a foreign key *)

(** A shape describes table [id] of the catalog. *)
Record shape_matches (ts : list (Z * TableRow)) (cols : list ((Z * Z) * ColumnRow)) (idx : list (Z * IndexRow)) (id : Z) (sh : FkShape) : Prop := {
  shape_columns : forall o k, find_column o (sh_columns sh) = Some k -> bt_get (id, o) cols = Some k;
  shape_pk : exists t, bt_get id ts = Some t /\ tbl_pk_ordinals t = sh_pk_ordinals sh;
  shape_indexes : forall i, In i (sh_unique_indexes sh) ->
    bt_get (idx_index_id i) idx = Some i /\ idx_table_id i = id /\ idx_kind i = IUnique /\ idx_state i = IReady
}.

Lemma shape_of_matches c id t :
  wf c -> bt_get id (c_tables c) = Some t -> shape_matches (c_tables c) (c_columns c) (c_indexes c) id (shape_of c t).
Proof.
  intros Hwf Ht. pose proof (keyed_key _ _ _ (wf_tables c Hwf) Ht) as Eid. simpl in Eid. split; simpl.
  - intros o k Hk. rewrite Eid in Hk. apply (column_of_get c id o k Hwf). unfold column_of. by rewrite Hk.
  - by exists t.
  - intros i [[Hin Et%Z.eqb_eq]%filter_In Hu]%filter_In. apply andb_prop in Hu as [Hu%bool_decide_eq_true Hr%bool_decide_eq_true].
    apply keyed_In in Hin as (j & Hj); [|apply Hwf]. pose proof (keyed_key _ _ _ (wf_indexes c Hwf) Hj) as Ej. simpl in Ej.
    split_and!; congruence.
Qed.

Lemma shape_matches_grow ts cols idx ts' cols' idx' id sh :
  (forall t, bt_get id ts = Some t -> bt_get id ts' = Some t) ->
  (forall key k, bt_get key cols = Some k -> bt_get key cols' = Some k) ->
  (forall i ix, bt_get i idx = Some ix -> bt_get i idx' = Some ix) ->
  shape_matches ts cols idx id sh -> shape_matches ts' cols' idx' id sh.
Proof.
  intros Ht Hc Hi [H1 (t & H2 & H2') H3]. split; [by eauto|by eauto|]. intros i Hin. destruct (H3 i Hin) as (? & ? & ? & ?). split_and!; auto.
Qed.

Lemma check_pairs_sound pairs child parent :
  check_pairs pairs child parent = Ok tt ->
  forall a b, In (a, b) pairs -> exists ka kb, find_column a (sh_columns child) = Some ka /\
    find_column b (sh_columns parent) = Some kb /\ col_type ka = col_type kb.
Proof.
  induction pairs as [|[x y] pairs IH]; simpl; [done|]. destruct (find_column x _) as [kx|] eqn:Ex; simpl; [|done].
  destruct (find_column y _) as [ky|] eqn:Ey; simpl; [|done]. destruct (_ || _) eqn:Ety; [done|]. intros Hc a b [[= <- <-]|Hin]; [|by apply IH].
  apply orb_false_iff in Ety as [E1%negb_false_iff E2%negb_false_iff]. exists kx, ky. split_and!; [done..|].
  apply Z.eqb_eq in E1. apply bool_decide_eq_true in E2. unfold col_type. congruence.
Qed.

Lemma check_action_sound ordinals child :
  check_action SetNull ordinals child = Some (Ok tt) ->
  forall a, In a ordinals -> exists k, find_column a (sh_columns child) = Some k /\ col_nullable k = true.
Proof.
  induction ordinals as [|x ordinals IH]; simpl; [done|]. destruct (find_column x _) as [k|] eqn:Ex; simpl; [|done].
  destruct (_ || _) eqn:Ek; [done|]. intros Hc a [<-|Hin]; [|by apply IH]. exists k. split; [done|].
  apply orb_false_iff in Ek as [Ek%negb_false_iff _]. done.
Qed.

Lemma resolve_parts def child parent index :
  resolve_foreign_key def child parent = Some (Ok index) ->
  length (fd_child_ordinals def) = length (fd_parent_ordinals def) /\ fd_child_ordinals def <> [] /\
  check_pairs (zip (fd_child_ordinals def) (fd_parent_ordinals def)) child parent = Ok tt /\
  resolve_parent_index (fd_parent_ordinals def) parent = Ok index /\
  check_action (fd_on_delete def) (fd_child_ordinals def) child = Some (Ok tt) /\
  check_action (fd_on_update def) (fd_child_ordinals def) child = Some (Ok tt).
Proof.
  unfold resolve_foreign_key. destruct (_ || _) eqn:En; [done|]. destruct (_ <? _); [done|].
  do 2 (destruct (all_fresh _ _); simpl negb; cbv iota; [|done]). destruct (check_pairs _ _ _) as [[]|]; [|done].
  destruct (resolve_parent_index _ _) as [i|]; [|done].
  destruct (check_action (fd_on_delete def) _ _) as [[[]|]|]; [|done..].
  destruct (check_action (fd_on_update def) _ _) as [[[]|]|]; [|done..].
  intros [= ->]. apply orb_false_iff in En as [E1 E2%negb_false_iff%Z.eqb_eq]. split_and!; try done; [lia|].
  intros E. by rewrite E in E1.
Qed.

Lemma resolve_sound ts cols idx f child parent :
  shape_matches ts cols idx (fk_table_id f) child -> shape_matches ts cols idx (fk_parent_table_id f) parent ->
  resolve_foreign_key (MkFkDefinition (fk_child_ordinals f) (fk_parent_ordinals f) (fk_on_delete f) (fk_on_update f)) child parent
    = Some (Ok (fk_parent_index_id f)) ->
  fk_sound ts cols idx f.
Proof.
  intros Hc Hp (Hlen & Hne & Hpairs & Hkey & Hdel & Hupd)%resolve_parts. simpl in *.
  assert (forall i g, bt_get i [(fk_fk_id f, f)] = Some g -> g = f) as Hone by (intros i g; simpl; by destruct (cmp i _); intros [= <-]).
  split_and!; intros i g ->%Hone.
  - split_and!; [done|done|]. intros a b Hab. destruct (check_pairs_sound _ _ _ Hpairs a b Hab) as (ka & kb & Ha & Hb & Et).
    exists ka, kb. split_and!; [by apply (shape_columns _ _ _ _ _ Hc)|by apply (shape_columns _ _ _ _ _ Hp)|done].
  - unfold resolve_parent_index in Hkey. destruct (same_set _ _) eqn:Es.
    + injection Hkey as <-. destruct (shape_pk _ _ _ _ _ Hp) as (t & Ht & Epk). exists t. by rewrite Epk.
    + destruct (List.find _ _) as [ix|] eqn:Ef; [|done]. injection Hkey as <-. apply List.find_some in Ef as [Hin Hs].
      destruct (shape_indexes _ _ _ _ _ Hp ix Hin) as (? & ? & ? & ?). by exists ix.
  - intros Hsn a Ha.
    assert (exists k, find_column a (sh_columns child) = Some k /\ col_nullable k = true) as (k & Hk & Hn).
    { destruct Hsn as [E|E]; [rewrite E in Hdel|rewrite E in Hupd]; by eapply check_action_sound. }
    exists k. split; [|done]. by apply (shape_columns _ _ _ _ _ Hc).
Qed.

#[global] Instance fk_sound_proper : Proper (same_by tcore ==> eq ==> eq ==> eq ==> iff) fk_sound.
Proof. intros ts ts' Ht cols ? <- idx ? <- f ? <-. unfold fk_sound. by rewrite Ht. Qed.

(** What [check_foreign_key] found. *)
Lemma spec_check_fk_spec new c index child :
  wf c -> spec_check_fk new c = Some (Ok index) -> active_table c (nf_table_id new) = Some (Ok child) ->
  exists parent, bt_get (nf_parent_table_id new) (c_tables c) = Some parent /\ name_taken c (tbl_table_id child) (nf_name new) = false /\
    resolve_foreign_key (MkFkDefinition (nf_child_ordinals new) (nf_parent_ordinals new) (nf_on_delete new) (nf_on_update new))
      (shape_of c child) (shape_of c parent) = Some (Ok index).
Proof.
  intros Hwf Hs Hc. unfold spec_check_fk in Hs. rewrite Hc in Hs. destruct (validate_name _ _); [|done].
  destruct (active_table c (nf_parent_table_id new)) as [[parent|]|] eqn:Ep; [|done..].
  destruct (resolve_foreign_key _ _ _) as [[ix|]|] eqn:Er; [|done..].
  destruct (name_taken _ _ _) eqn:En; [done|]. injection Hs as ->. apply active_spec in Hc. apply active_spec in Ep. exists parent.
  split_and!; [done|done|]. destruct (Z.eqb_spec (tbl_table_id parent) (tbl_table_id child)) as [E|]; [|done].
  pose proof (keyed_key _ _ _ (wf_tables c Hwf) Hc) as E1. pose proof (keyed_key _ _ _ (wf_tables c Hwf) Ep) as E2. simpl in E1, E2.
  assert (parent = child) as -> by congruence. done.
Qed.

Lemma wf_create_fk now new c a ops : wf c -> spec_create_fk now new c = Some (Ok (a, ops)) -> wf (apply_cats ops c).
Proof.
  intros Hwf Hs. unfold spec_create_fk in Hs. destruct (spec_check_fk new c) as [[index|]|] eqn:Ech; [|done..].
  destruct (active_table c (nf_table_id new)) as [[child|]|] eqn:Ea; [|done..].
  destruct (spec_check_fk_spec new c index child Hwf Ech Ea) as (parent & Hparent & Hname & Hres).
  apply active_spec in Ea. pose proof (keyed_key _ _ _ (wf_tables c Hwf) Ea) as Eid. simpl in Eid. rewrite Eid in *.
  accepted Hs. apply next_id_spec in Hchk as [-> _]. pose proof (wf_counters c Hwf CConstraint) as Hpos.
  match goal with |- wf (apply_cats [?p; ?q; ?r] c) => change [p; q; r] with ([p] ++ [q] ++ [r]) end. rewrite !apply_cats_app.
  assert (forall f, same_by tcore (c_tables c) (c_tables (apply_cats [PutTable (bump_version child)] (apply_cats [SetCounter CConstraint f] c))))
    as Hsame by (intros f; destruct c; simpl in *; rewrite Eid; by apply (same_insert _ _ _ _ child)).
  apply wf_put_fk; simpl fk_fk_id; simpl fk_table_id; simpl fk_parent_table_id; simpl fk_name.
  - apply (wf_bump _ (nf_table_id new)); [apply wf_set_counter; [done|lia]|by destruct c].
  - rewrite counters_bump, counter_set. lia.
  - apply (same_some tcore (c_tables c)); [apply Hsame|by eexists].
  - apply (same_some tcore (c_tables c)); [apply Hsame|by eexists].
  - intros i g Hg Et En. exfalso. apply orb_false_iff in Hname as [Hname _]. assert (bt_get i (c_fks c) = Some g) as Hg' by by destruct c.
    apply (no_clash (c_fks c) _ _ (wf_fks c Hwf) Hname i g Hg'); [by apply Z.eqb_eq|]. rewrite En. apply bytes_eqb_refl.
  - rewrite <- Hsame. replace (c_columns _) with (c_columns c) by by destruct c. replace (c_indexes _) with (c_indexes c) by by destruct c.
    apply (resolve_sound _ _ _ _ (shape_of c child) (shape_of c parent)); [by apply shape_of_matches..|done].
Qed.

(** *** Dropping a table *)

Lemma get_filter_kept {K R} `{CatalogRow K R, !OrdLaws K} (rows : list (K * R)) f k :
  keyed rows -> (forall r, row_key r = k -> f (k, r) = true) -> bt_get k (List.filter f rows) = bt_get k rows.
Proof.
  intros Hk Hf. destruct (bt_get k rows) as [r|] eqn:Eg.
  - apply get_filter; [done|]. split; [done|]. apply Hf. by apply (keyed_key rows).
  - destruct (bt_get k (List.filter f rows)) as [r|] eqn:Ef; [|done]. apply get_filter in Ef as [? _]; [congruence|done].
Qed.

(** Rows of other tables than [id] still refer to a table. *)
Lemma refers_others {K R} `{CatalogRow K R, !OrdLaws K} (ref : R -> Z) (rows : list (K * R)) (ts : list (Z * TableRow)) id :
  keyed rows -> keyed ts -> refers ref rows ts -> refers ref (List.filter (fun p => negb (ref p.2 =? id)) rows) (bt_remove id ts).
Proof.
  intros Hk Ht Hr i r Hg. apply get_filter in Hg as [Hg Hne]; [|done]. simpl in Hne. apply negb_true_iff, Z.eqb_neq in Hne.
  rewrite get_remove_other by done. by apply (Hr i).
Qed.

Section DropTable.
Context (c : Catalog) (id : Z) (Hwf : wf c).
Let ts' := bt_remove id (c_tables c).
Let cols' := List.filter (fun p => negb (col_table_id p.2 =? id)) (c_columns c).
Let idx' := List.filter (fun p => negb (idx_table_id p.2 =? id)) (c_indexes c).
Let fks' := List.filter (fun p => negb (fk_table_id p.2 =? id)) (c_fks c).
Hypothesis Hfree : forall i f, bt_get i (c_fks c) = Some f -> fk_parent_table_id f = id -> fk_table_id f = id.

Lemma drop_tables i t : bt_get i ts' = Some t -> i <> id /\ bt_get i (c_tables c) = Some t.
Proof. apply get_remove_some, Hwf. Qed.

Lemma drop_columns i o : i <> id -> bt_get (i, o) cols' = bt_get (i, o) (c_columns c).
Proof.
  intros Hi. apply get_filter_kept; [apply Hwf|]. intros r [= Et _]. simpl. rewrite Et. by apply negb_true_iff, Z.eqb_neq.
Qed.

Lemma drop_fks i f : bt_get i fks' = Some f -> bt_get i (c_fks c) = Some f /\ fk_table_id f <> id /\ fk_parent_table_id f <> id.
Proof.
  intros Hg. apply get_filter in Hg as [Hg Hne]; [|apply Hwf]. simpl in Hne. apply negb_true_iff, Z.eqb_neq in Hne.
  split_and!; [done|done|]. intros E. by apply Hne, (Hfree i f).
Qed.

Lemma drop_dense : columns_dense ts' cols'.
Proof.
  intros i t [Hi Ht]%drop_tables. destruct (wf_dense c Hwf i t Ht) as (n & Hn & Hall). exists n. split; [done|].
  intros o. by rewrite drop_columns.
Qed.

Lemma drop_pk : pk_ok ts' cols'.
Proof.
  intros i t [Hi Ht]%drop_tables. destruct (wf_pk c Hwf i t Ht) as [Hne Hall]. split; [done|]. intros o. rewrite drop_columns by done. apply Hall.
Qed.

Lemma drop_index_columns : index_columns cols' idx'.
Proof.
  intros i ix Hg o Ho. apply get_filter in Hg as [Hg Hne]; [|apply Hwf]. simpl in Hne. apply negb_true_iff, Z.eqb_neq in Hne.
  rewrite drop_columns by done. by apply (wf_index_columns c Hwf i).
Qed.

Lemma drop_fk_columns : fk_columns cols' fks'.
Proof.
  intros i f (Hg & Hc & Hp)%drop_fks. destruct (wf_fk_columns c Hwf i f Hg) as (? & ? & Hall). split_and!; [done|done|].
  intros a b. rewrite !drop_columns by done. apply Hall.
Qed.

Lemma drop_fk_nulls : fk_nulls cols' fks'.
Proof. intros i f (Hg & Hc & Hp)%drop_fks Hs a. rewrite drop_columns by done. by apply (wf_fk_nulls c Hwf i f). Qed.

Lemma drop_fk_key : fk_key ts' idx' fks'.
Proof.
  intros i f (Hg & Hc & Hp)%drop_fks. pose proof (wf_fk_key c Hwf i f Hg) as Hk. destruct (fk_parent_index_id f) as [j|].
  - destruct Hk as (ix & Hix & Et & Hr). exists ix. split; [|done]. apply get_filter; [apply Hwf|]. split; [done|]. simpl.
    rewrite Et. by apply negb_true_iff, Z.eqb_neq.
  - destruct Hk as (t & Ht & Hs). exists t. split; [|done]. unfold ts'. rewrite get_remove_other; [done|apply Hwf|done].
Qed.

Lemma wf_drop_result : wf (drop_table_result c id).
Proof.
  pose proof drop_dense. pose proof drop_pk. pose proof drop_index_columns. pose proof drop_fk_columns. pose proof drop_fk_nulls.
  pose proof drop_fk_key. pose proof (wf_ids c Hwf) as Hids.
  assert (refers fk_parent_table_id fks' ts') as Hpar.
  { intros i f (Hg & Hc & Hp)%drop_fks. unfold ts'. rewrite get_remove_other; [by apply (wf_fk_parent c Hwf i)|apply Hwf|done]. }
  destruct Hwf. split; simpl; auto with catalog; try by apply refers_others.
  - destruct Hids. split; simpl; auto with catalog.
  - by apply (unique_sub _ (c_columns c)); [apply sub_filter|].
  - by apply (unique_sub _ (c_indexes c)); [apply sub_filter|].
  - by apply (unique_sub _ (c_fks c)); [apply sub_filter|].
  - intros i. specialize (wf_index_count0 i). pose proof (count_filter (fun j => idx_table_id j =? i) (c_indexes c)
      (fun p => negb (idx_table_id p.2 =? id))). unfold count in *. lia.
Qed.
End DropTable.

Lemma wf_drop_table id c a ops : wf c -> spec_drop_table id c = Some (Ok (a, ops)) -> wf (apply_cats ops c).
Proof.
  intros Hwf Hs. unfold spec_drop_table in Hs. destruct (bt_get id (c_tables c)); [|done].
  destruct (existsb _ _) eqn:Ee; [done|]. injection Hs as <- <-. rewrite existsb_none in Ee.
  change (wf (apply_cats (drop_table_ops c id) c)). rewrite drop_table_effect by apply Hwf. apply wf_drop_result; [done|].
  intros i f Hg Hp. assert (In f (rows_of (c_fks c))) as Hin by (apply keyed_In; [apply Hwf|eauto]). specialize (Ee f Hin). simpl in Ee.
  rewrite Hp, Z.eqb_refl in Ee. simpl in Ee. by apply negb_false_iff, Z.eqb_eq in Ee.
Qed.

(** *** Creating a table *)

Definition insert_all {K R} `{CatalogRow K R} (rows : list R) (m : list (K * R)) : list (K * R) :=
  fold_left (fun m r => bt_insert (row_key r) r m) rows m.

Lemma insert_all_keyed {K R} `{CatalogRow K R, !OrdLaws K} (rows : list R) m : keyed m -> keyed (insert_all rows m).
Proof. revert m. induction rows as [|r rows IH]; intros m Hm; simpl; [done|]. apply IH. by apply keyed_insert. Qed.

Lemma get_insert_all {K R} `{CatalogRow K R, !OrdLaws K} (rows : list R) m k r :
  NoDup (map row_key rows) ->
  bt_get k (insert_all rows m) = Some r <->
  (In r rows /\ row_key r = k) \/ ((forall r', In r' rows -> row_key r' <> k) /\ bt_get k m = Some r).
Proof.
  revert m. induction rows as [|r0 rows IH]; intros m Hnd; simpl.
  { split; [by right|]. by intros [[[] _]|[_ ?]]. }
  inversion_clear Hnd as [|? ? Hni Hnd']. rewrite (IH (bt_insert (row_key r0) r0 m) Hnd'). clear IH.
  assert (forall r', In r' rows -> row_key r' <> row_key r0) as Hne.
  { intros r' Hr' E. apply Hni. rewrite list_elem_of_In, <- E. by apply in_map. }
  split.
  - intros [[Hin Hk]|[Hno [[-> ->]|[Hk Hg]]%get_insert_cases]].
    + left. split; [by right|done].
    + left. split; [by left|done].
    + right. split; [|done]. intros r' [<-|Hr']; [done|by apply Hno].
  - intros [[[->|Hin] Hk]|[Hno Hg]].
    + right. split; [by rewrite <- Hk|]. rewrite <- Hk. apply get_insert_same.
    + by left.
    + right. split; [by intros r' Hr'; apply Hno; right|]. rewrite get_insert_other; [done|]. intros ->. apply (Hno r0); [by left|done].
Qed.

(** The columns of a new table. *)
Section NewColumns.
Context (T : Z) (columns : list ColumnDef) (Hlen : zlen columns <= 65535).
Let rows := new_columns T columns.

Lemma new_columns_lookup j : rows !! j = new_column T (Z.of_nat j) <$> columns !! j.
Proof.
  unfold rows, new_columns. rewrite list_lookup_imap. destruct (columns !! j) as [d|] eqn:Ej; simpl; [|done].
  apply lookup_lt_Some in Ej. by rewrite Z.mod_small by lia.
Qed.

Lemma new_columns_In k : In k rows <-> exists j d, columns !! j = Some d /\ k = new_column T (Z.of_nat j) d.
Proof.
  rewrite <- list_elem_of_In, list_elem_of_lookup. setoid_rewrite new_columns_lookup. split.
  - intros (j & (d & ? & ->)%fmap_Some). eauto.
  - intros (j & d & Hj & ->). exists j. by rewrite Hj.
Qed.

Lemma new_columns_nodup : NoDup (map row_key rows).
Proof.
  apply NoDup_alt. intros i j key Hi Hj. rewrite list_lookup_fmap in Hi, Hj.
  apply fmap_Some in Hi as (k & Hk & ->). apply fmap_Some in Hj as (k' & Hk' & E).
  rewrite new_columns_lookup in Hk, Hk'. apply fmap_Some in Hk as (d & _ & ->). apply fmap_Some in Hk' as (d' & _ & ->).
  injection E as E. lia.
Qed.

Lemma get_new_column (cols : list ((Z * Z) * ColumnRow)) i o k :
  (forall o', bt_get (T, o') cols = None) ->
  bt_get (i, o) (insert_all rows cols) = Some k <->
  (i = T /\ 0 <= o /\ exists d, columns !! Z.to_nat o = Some d /\ k = new_column T o d) \/ (i <> T /\ bt_get (i, o) cols = Some k).
Proof.
  intros Hfresh. rewrite get_insert_all by apply new_columns_nodup. rewrite new_columns_In. split.
  - intros [[(j & d & Hj & ->) [= <- <-]]|[Hno Hg]].
    + left. split_and!; [done|lia|]. exists d. by rewrite Nat2Z.id.
    + right. split; [|done]. intros ->. by rewrite Hfresh in Hg.
  - intros [(-> & Ho & d & Hd & ->)|[Hi Hg]].
    + left. split; [|done]. exists (Z.to_nat o), d. by rewrite Z2Nat.id.
    + right. split; [|done]. intros r' (j & d & _ & ->)%new_columns_In [= -> _]. done.
Qed.
End NewColumns.

Lemma check_pk_sound pk columns :
  check_pk pk columns = Some (Ok tt) -> Forall is_u16 pk ->
  forall o, In o pk -> 0 <= o < zlen columns /\ exists d, columns !! Z.to_nat o = Some d /\ cd_nullable d = false.
Proof.
  intros Hc Hu. induction Hu as [|x pk Hx Hpk IH]; simpl in Hc; [done|]. destruct (Z.leb_spec (zlen columns) x); [done|].
  destruct (columns !! Z.to_nat x) as [d|] eqn:Ed; [|done]. simpl in Hc. destruct (cd_nullable d) eqn:En; [done|].
  intros o [<-|Ho]; [|by apply IH]. unfold is_u16 in Hx. split; [lia|eauto].
Qed.

Lemma fresh_names_nodup names seen :
  fresh_names names seen = true -> NoDup names /\ forall n, In n names -> ~ In n seen.
Proof.
  revert seen. induction names as [|n names IH]; intros seen; simpl; [by split; [constructor|]|].
  intros [Hn%negb_true_iff [Hnd Hout]%IH]%andb_prop. split.
  - constructor; [|done]. rewrite list_elem_of_In. intros Hin. apply (Hout n Hin). by left.
  - intros n' [<-|Hin] Hs; [|apply (Hout n' Hin); by right]. rewrite existsb_none in Hn. specialize (Hn n Hs). by rewrite bytes_eqb_refl in Hn.
Qed.

(** The counter of a new table's constraints is written last; it could as well be written first. *)
Lemma counter_first ks fs n c :
  apply_cats (map PutConstraint ks ++ map PutFk fs ++ [SetCounter CConstraint n]) c =
  apply_cats (map PutFk fs) (apply_cats (map PutConstraint ks) (apply_cats [SetCounter CConstraint n] c)).
Proof.
  rewrite !apply_cats_app.
  assert (forall c, apply_cats [SetCounter CConstraint n] (apply_cats (map PutFk fs) c)
    = apply_cats (map PutFk fs) (apply_cats [SetCounter CConstraint n] c)) as Hf.
  { clear. induction fs as [|f fs IH]; intros c; [done|]. etrans; [exact (IH (apply_cat c (PutFk f)))|]. by destruct c. }
  rewrite Hf. f_equal. revert c. induction ks as [|k ks IH]; intros c; [done|].
  etrans; [exact (IH (apply_cat c (PutConstraint k)))|]. by destruct c.
Qed.

Lemma wf_put_constraints rows c :
  wf c -> Forall (fun r => 1 <= con_constraint_id r <= c_counters c CConstraint /\ is_Some (bt_get (con_table_id r) (c_tables c))) rows ->
  wf (apply_cats (map PutConstraint rows) c).
Proof.
  revert c. induction rows as [|r rows IH]; intros c Hwf Hr; [done|]. inversion_clear Hr as [|? ? [Hid Ht] Hr']. apply IH.
  - by apply wf_put_constraint.
  - by destruct c.
Qed.

Lemma put_constraints_frame rows c :
  let c' := apply_cats (map PutConstraint rows) c in
  c_counters c' = c_counters c /\ c_tables c' = c_tables c /\ c_columns c' = c_columns c /\ c_indexes c' = c_indexes c /\ c_fks c' = c_fks c.
Proof.
  revert c. induction rows as [|r rows IH]; intros c; [done|]. destruct (IH (apply_cat c (PutConstraint r))) as (H1 & H2 & H3 & H4 & H5).
  simpl in *. rewrite H1, H2, H3, H4, H5. by destruct c.
Qed.

Lemma wf_put_fks T rows c :
  wf c -> is_Some (bt_get T (c_tables c)) -> NoDup (map fk_name rows) ->
  (forall i f, bt_get i (c_fks c) = Some f -> fk_table_id f = T -> ~ In (fk_name f) (map fk_name rows)) ->
  Forall (fun f => fk_table_id f = T /\ 1 <= fk_fk_id f <= c_counters c CConstraint /\
    is_Some (bt_get (fk_parent_table_id f) (c_tables c)) /\ fk_sound (c_tables c) (c_columns c) (c_indexes c) f) rows ->
  wf (apply_cats (map PutFk rows) c).
Proof.
  revert c. induction rows as [|f rows IH]; intros c Hwf HT Hnd Hnew Hr; [done|].
  apply Forall_cons in Hr as [(Et & Hid & Hp & Hs) Hr']. apply NoDup_cons in Hnd as [Hni Hnd'].
  change (wf (apply_cats (map PutFk rows) (apply_cats [PutFk f] c))). apply IH.
  - apply wf_put_fk; try done; [by rewrite Et|]. intros i g Hg Eg En. exfalso. apply (Hnew i g); [done|congruence|]. rewrite En. by left.
  - by destruct c.
  - done.
  - intros i g Hg Eg Hin. assert (bt_get i (bt_insert (fk_fk_id f) f (c_fks c)) = Some g) as [[-> ->]|[_ Hg']]%get_insert_cases by by destruct c.
    + by apply Hni, list_elem_of_In.
    + apply (Hnew i g Hg' Eg). by right.
  - by destruct c.
Qed.

Lemma fresh_all_nodup names seen : fresh_all names seen -> NoDup names /\ forall n, In n names -> ~ In n seen.
Proof.
  intros Hf. apply fresh_names_nodup. revert seen Hf. induction names as [|n names IH]; intros seen; simpl; [done|].
  intros [-> Hf]. simpl. by apply IH.
Qed.

(** Ids taken from one counter advance: [first], [first + 1], .. [last], no wrap-around. *)
Lemma constraint_ids first total last :
  1 <= first -> 0 < total <= u32_max -> checked_add32 first (as_u32 (as_u32 total - 1)) = Some last ->
  last = first + total - 1 /\ forall j, 0 <= j < total -> as_u32 (first + as_u32 j) = first + j.
Proof.
  unfold u32_max, checked_add32, as_u32. intros Hf Ht. rewrite (Z.mod_small total) by lia. rewrite (Z.mod_small (total - 1)) by lia.
  case_cmp; [|done]. intros [= <-]. split; [lia|]. intros j Hj. rewrite (Z.mod_small j) by lia. apply Z.mod_small. unfold u32_max in *. lia.
Qed.

Lemma validate_table_spec name columns pk :
  spec_validate_table name columns pk = Some (Ok tt) -> Forall is_u16 pk ->
  0 < zlen columns <= 65535 /\ NoDup (map cd_name columns) /\ pk <> [] /\
  forall o, In o pk -> 0 <= o < zlen columns /\ exists d, columns !! Z.to_nat o = Some d /\ cd_nullable d = false.
Proof.
  unfold spec_validate_table. intros Hs Hu. destruct (validate_name _ _); [|done]. destruct (Z.eqb_spec (zlen columns) 0); [done|].
  destruct (Z.ltb_spec 65535 (zlen columns)); [done|]. destruct (Z.eqb_spec (zlen pk) 0); [done|].
  destruct (check_pk pk columns) as [[[]|]|] eqn:Epk; [|done..]. destruct (fresh_names _ _) eqn:En; [|done].
  apply fresh_names_nodup in En as [Hnd _]. split_and!; [lia|lia|done|by intros ->|by apply check_pk_sound].
Qed.

Lemma check_rows_ids T first fk_count i checks bound :
  (forall j, fk_count + i <= j < fk_count + i + zlen checks -> 1 <= as_u32 (first + as_u32 j) <= bound) ->
  Forall (fun r => 1 <= con_constraint_id r <= bound /\ con_table_id r = T) (check_rows T first fk_count i checks).
Proof.
  revert i. induction checks as [|k checks IH]; intros i Hj; cbn [check_rows]; constructor.
  - cbn [con_constraint_id con_table_id]. split; [|done]. apply Hj. rewrite zlen_cons. lia.
  - apply IH. intros j Hr. apply Hj. rewrite zlen_cons. lia.
Qed.

Lemma fk_rows_spec now T first i child fks c rows bound :
  fk_rows now T first i child fks c rows ->
  (forall j, i <= j < i + zlen fks -> 1 <= as_u32 (first + as_u32 j) <= bound) ->
  map fk_name rows = map ntf_name fks /\
  Forall (fun f => fk_table_id f = T /\ 1 <= fk_fk_id f <= bound /\ exists parent sh, fk_parent_table_id f = default T parent /\
    parent_shape c child parent = Some (Ok sh) /\
    resolve_foreign_key (MkFkDefinition (fk_child_ordinals f) (fk_parent_ordinals f) (fk_on_delete f) (fk_on_update f)) child sh
      = Some (Ok (fk_parent_index_id f))) rows.
Proof.
  revert i rows. induction fks as [|fk fks IH]; intros i [|r rows]; cbn [fk_rows map]; try done.
  intros [(sh & index & Hsh & Hres & ->) Hrows] Hj. destruct (IH (i + 1) rows Hrows) as [En Hall].
  { intros j Hr. apply Hj. rewrite zlen_cons. lia. }
  split; [by rewrite En|]. constructor; [|done]. split_and!; [done|apply Hj; rewrite zlen_cons; lia..|].
  by exists (ntf_parent_table_id fk), sh.
Qed.

Lemma put_columns_effect rows c :
  apply_cats (map PutColumn rows) c =
  MkCatalog (c_counters c) (c_databases c) (c_schemas c) (c_tables c) (insert_all rows (c_columns c)) (c_indexes c) (c_constraints c)
    (c_fks c) (c_grants c).
Proof. revert c. induction rows as [|r rows IH]; intros c; simpl; [by destruct c|]. rewrite IH. by destruct c. Qed.

Section NewTable.
Context (c : Catalog) (Hwf : wf c) (now schema_id : Z) (name : bytes) (columns : list ColumnDef) (pk : list Z).
Let T := c_counters c CTable + 1.
Let I := c_counters c CIndex + 1.
Let t := MkTable T schema_id name pk 1 TActive now.
Let ix := MkIndex I T (name_pkey name) IPrimary pk IReady now.
Hypothesis Hlen : 0 < zlen columns <= 65535.
Hypothesis Hpk : pk <> [] /\ forall o, In o pk -> 0 <= o < zlen columns /\ exists d, columns !! Z.to_nat o = Some d /\ cd_nullable d = false.
Hypothesis Hnames : NoDup (map cd_name columns).
Hypothesis Hschema : is_Some (bt_get schema_id (c_schemas c)).
Hypothesis Hfree : forall i t', bt_get i (c_tables c) = Some t' -> tbl_schema_id t' = schema_id -> tbl_name t' <> name.

Definition with_table : Catalog := apply_cats (table_ops now schema_id T I name columns pk) c.

Lemma new_table_fresh : bt_get T (c_tables c) = None.
Proof. apply (fresh_id (c_counters c CTable)). apply ids_tables, Hwf. Qed.

Lemma new_index_fresh : bt_get I (c_indexes c) = None.
Proof. apply (fresh_id (c_counters c CIndex)). apply ids_indexes, Hwf. Qed.

(** Nothing in the catalog names the new table yet. *)
Lemma nothing_on_T {K R} `{Ord K} (ref : R -> Z) (rows : list (K * R)) i r :
  refers ref rows (c_tables c) -> bt_get i rows = Some r -> ref r <> T.
Proof. intros Hr Hg E. destruct (Hr i r Hg) as [t' Ht']. rewrite E in Ht'. by rewrite new_table_fresh in Ht'. Qed.

Lemma no_columns_on_T o : bt_get (T, o) (c_columns c) = None.
Proof.
  destruct (bt_get (T, o) (c_columns c)) as [k|] eqn:Eg; [|done]. pose proof (keyed_key _ _ _ (wf_columns c Hwf) Eg) as [= Et _].
  by apply (nothing_on_T col_table_id _ _ _ (wf_column_table c Hwf)) in Eg.
Qed.

Lemma with_table_eq :
  with_table = MkCatalog (set_counter (set_counter (c_counters c) CTable T) CIndex I) (c_databases c) (c_schemas c)
    (bt_insert T t (c_tables c)) (insert_all (new_columns T columns) (c_columns c)) (bt_insert I ix (c_indexes c)) (c_constraints c)
    (c_fks c) (c_grants c).
Proof. unfold with_table, table_ops. rewrite apply_cats_app, put_columns_effect. by destruct c. Qed.

Lemma tables_kept i t' : bt_get i (c_tables c) = Some t' -> bt_get i (bt_insert T t (c_tables c)) = Some t'.
Proof. intros Hg. rewrite get_insert_other; [done|]. intros ->. by rewrite new_table_fresh in Hg. Qed.

Lemma columns_kept key k : bt_get key (c_columns c) = Some k -> bt_get key (insert_all (new_columns T columns) (c_columns c)) = Some k.
Proof.
  intros Hg. destruct key as [i o]. apply get_new_column; [lia|apply no_columns_on_T|]. right. split; [|done].
  intros ->. by rewrite no_columns_on_T in Hg.
Qed.

Lemma indexes_kept i ix' : bt_get i (c_indexes c) = Some ix' -> bt_get i (bt_insert I ix (c_indexes c)) = Some ix'.
Proof. intros Hg. rewrite get_insert_other; [done|]. intros ->. by rewrite new_index_fresh in Hg. Qed.

Let cols' := insert_all (new_columns T columns) (c_columns c).

Lemma new_column_get i o k :
  bt_get (i, o) cols' = Some k <->
  (i = T /\ 0 <= o /\ exists d, columns !! Z.to_nat o = Some d /\ k = new_column T o d) \/ (i <> T /\ bt_get (i, o) (c_columns c) = Some k).
Proof. apply get_new_column; [lia|apply no_columns_on_T]. Qed.

Lemma new_dense : columns_dense (bt_insert T t (c_tables c)) cols'.
Proof.
  intros i t' [[-> ->]|[Hi Ht]]%get_insert_cases.
  - exists (zlen columns). split; [lia|]. intros o. split.
    + intros (k & [(_ & Ho & d & Hd & _)|[Hne _]]%new_column_get); [|done]. apply lookup_lt_Some in Hd. lia.
    + intros Ho. destruct (lookup_lt_is_Some_2 columns (Z.to_nat o)) as [d Hd]; [lia|].
      exists (new_column T o d). apply new_column_get. left. split_and!; [done|lia|eauto].
  - destruct (wf_dense c Hwf i t' Ht) as (n & Hn & Hall). exists n. split; [done|]. intros o. rewrite <- Hall. split.
    + intros (k & [(-> & _)|[_ Hk]]%new_column_get); [done|]. by exists k.
    + intros (k & Hk). exists k. apply new_column_get. by right.
Qed.

Lemma new_pk_columns o : In o pk -> exists d, bt_get (T, o) cols' = Some (new_column T o d) /\ cd_nullable d = false.
Proof.
  intros Ho. destruct (proj2 Hpk o Ho) as (Hr & d & Hd & Hn). exists d. split; [|done]. apply new_column_get. left. split_and!; [done|lia|eauto].
Qed.

Lemma new_pk : pk_ok (bt_insert T t (c_tables c)) cols'.
Proof.
  intros i t' [[-> ->]|[Hi Ht]]%get_insert_cases.
  - split; [apply Hpk|]. intros o Ho. destruct (new_pk_columns o Ho) as (d & Hd & Hn). eauto.
  - apply (pk_grow (c_columns c) cols' columns_kept _ (wf_pk c Hwf) i t' Ht).
Qed.

Lemma new_column_names : unique_by (fun k => (col_table_id k, col_name k)) cols'.
Proof.
  assert (forall i o k, bt_get (i, o) cols' = Some k -> col_table_id k = i) as Htid.
  { intros i o k Hk. assert (keyed cols') as Hkey by apply insert_all_keyed, Hwf. by pose proof (keyed_key _ _ _ Hkey Hk) as [= ? _]. }
  intros [i o] [j p] a b Ha Hb [= Et En]. pose proof (Htid _ _ _ Ha) as Ei. pose proof (Htid _ _ _ Hb) as Ej.
  assert (i = j) as <- by congruence.
  apply new_column_get in Ha as [(-> & Ho & d & Hd & ->)|[Hi Ha]]; apply new_column_get in Hb as [(Ej' & Hp & d' & Hd' & ->)|[Hj Hb]]; try done.
  - simpl in En. f_equal. enough (Z.to_nat o = Z.to_nat p) by lia. rewrite NoDup_alt in Hnames.
    apply (Hnames _ _ (cd_name d)); rewrite list_lookup_fmap; [by rewrite Hd|by rewrite Hd', En].
  - by apply (wf_column_names c Hwf (i, o) (i, p) a b); [done|done|f_equal].
Qed.

Lemma wf_with_table : wf with_table.
Proof.
  pose proof new_dense as Hdense. pose proof new_pk as Hpk'. pose proof new_column_names as Hcn.
  pose proof (wf_counters c Hwf CTable) as Hct. pose proof (wf_counters c Hwf CIndex) as Hci.
  assert (index_count (bt_insert I ix (c_indexes c))) as Hcount.
  { apply index_count_insert; [apply Hwf|apply Hwf|]. rewrite new_index_fresh. rewrite count_zero; [done|apply Hwf|].
    intros k r Hg. apply Z.eqb_neq. by apply (nothing_on_T idx_table_id _ _ _ (wf_index_table c Hwf) Hg). }
  assert (index_columns cols' (bt_insert I ix (c_indexes c))) as Hic.
  { intros i j [[-> ->]|[_ Hg]]%get_insert_cases o Ho.
    - destruct (new_pk_columns o Ho) as (d & Hd & _). by eexists.
    - by apply (index_columns_grow (c_columns c) cols' columns_kept _ (wf_index_columns c Hwf) i j). }
  assert (refers col_table_id cols' (bt_insert T t (c_tables c))) as Hct'.
  { intros [i o] k [(-> & _ & d & _ & ->)|[Hi Hk]]%new_column_get; [by rewrite get_insert_same|].
    by apply get_insert_some, (wf_column_table c Hwf (i, o)). }
  assert (unique_by (fun i => (idx_table_id i, idx_name i)) (bt_insert I ix (c_indexes c))) as Hin.
  { apply unique_insert; [apply Hwf|]. intros j b Hj [= Et _]. by apply (nothing_on_T idx_table_id _ _ _ (wf_index_table c Hwf)) in Hj. }
  assert (unique_by (fun t => (tbl_schema_id t, tbl_name t)) (bt_insert T t (c_tables c))) as Htn.
  { apply unique_insert; [apply Hwf|]. intros j b Hj [= Es En]. by destruct (Hfree j b Hj Es). }
  assert (fk_key (bt_insert T t (c_tables c)) (bt_insert I ix (c_indexes c)) (c_fks c)) as Hfk.
  { intros i f Hg. pose proof (wf_fk_key c Hwf i f Hg) as Hk. destruct (fk_parent_index_id f) as [j|].
    - destruct Hk as (jx & Hjx & Hr). exists jx. split; [by apply indexes_kept|done].
    - destruct Hk as (t' & Ht' & Hr). exists t'. split; [by apply tables_kept|done]. }
  assert (keyed cols') as Hkc by apply insert_all_keyed, Hwf.
  pose proof (fk_columns_grow (c_columns c) cols' columns_kept _ (wf_fk_columns c Hwf)).
  pose proof (fk_nulls_grow (c_columns c) cols' columns_kept _ (wf_fk_nulls c Hwf)).
  rewrite with_table_eq. fold cols'. pose proof (wf_ids c Hwf) as Hids. destruct Hwf. split; simpl; auto with catalog.
  - destruct Hids. split; simpl; try assumption.
    + change (set_counter _ _ _ CTable) with T. apply (ids_insert (c_counters c CTable)); [done|unfold T; lia..].
    + change (set_counter _ _ _ CIndex) with I. apply (ids_insert (c_counters c CIndex)); [done|unfold I; lia..].
  - apply refers_insert; [by apply refers_grow|]. simpl. by rewrite get_insert_same.
Qed.

(** The shape the new table's foreign keys are checked against. *)
Lemma new_shape_matches :
  shape_matches (c_tables with_table) (c_columns with_table) (c_indexes with_table) T (MkFkShape T name pk (new_columns T columns) []).
Proof.
  rewrite with_table_eq. split; simpl; [|exists t; by rewrite get_insert_same|done].
  intros o k Hf. apply List.find_some in Hf as [Hin Ho%Z.eqb_eq]. apply new_columns_In in Hin as (j & d & Hj & ->); [|lia].
  simpl in Ho. apply new_column_get. left. split_and!; [done|lia|]. exists d. by rewrite <- Ho, Nat2Z.id.
Qed.

Lemma parent_shape_matches parent sh :
  parent_shape c (MkFkShape T name pk (new_columns T columns) []) parent = Some (Ok sh) ->
  shape_matches (c_tables with_table) (c_columns with_table) (c_indexes with_table) (default T parent) sh.
Proof.
  destruct parent as [id|]; simpl; [|intros [= <-]; apply new_shape_matches].
  destruct (active_table c id) as [[t'|]|] eqn:Ea; [|done..]. intros [= <-]. apply active_spec in Ea.
  apply (shape_matches_grow (c_tables c) (c_columns c) (c_indexes c)); [..|by apply shape_of_matches]; rewrite with_table_eq; simpl.
  - intros t2. apply tables_kept.
  - apply columns_kept.
  - apply indexes_kept.
Qed.

Lemma no_fks_on_T i f : bt_get i (c_fks with_table) = Some f -> fk_table_id f <> T.
Proof. rewrite with_table_eq. simpl. apply (nothing_on_T fk_table_id _ _ _ (wf_fk_table c Hwf)). Qed.

Lemma new_table_present : is_Some (bt_get T (c_tables with_table)).
Proof. rewrite with_table_eq. simpl. by rewrite get_insert_same. Qed.
(** The constraints it declares: ids from one counter advance, foreign keys checked against the shape it has. *)
Lemma wf_with_constraints fks checks last rows :
  let first := c_counters c CConstraint + 1 in
  0 < zlen fks + zlen checks -> zlen fks + zlen checks <= u32_max ->
  checked_add32 first (as_u32 (as_u32 (zlen fks + zlen checks) - 1)) = Some last ->
  fk_rows now T first 0 (MkFkShape T name pk (new_columns T columns) []) fks c rows ->
  fresh_all (map ntc_name checks ++ map ntf_name fks) [] ->
  wf (apply_cats (map PutConstraint (check_rows T first (zlen fks) 0 checks) ++ map PutFk rows ++ [SetCounter CConstraint last]) with_table).
Proof.
  intros first Htot Htotal Hlast Hrows Hfresh. rewrite counter_first. pose proof (wf_counters c Hwf CConstraint) as Hpos.
  destruct (constraint_ids first (zlen fks + zlen checks) last) as [-> Hids]; [lia|done|done|].
  set (total := zlen fks + zlen checks) in *. set (c2 := apply_cats [SetCounter _ _] with_table). set (ks := check_rows _ _ _ _ _).
  assert (c_counters with_table CConstraint = c_counters c CConstraint) as Ecnt by by rewrite with_table_eq.
  assert (wf c2) as Hwf2 by (apply wf_set_counter; [apply wf_with_table|lia]).
  destruct (fk_rows_spec _ _ _ _ _ _ _ _ (first + total - 1) Hrows) as [Enames Hall]; [intros j Hj; rewrite Hids; lia|].
  assert (c_counters c2 CConstraint = first + total - 1) as Ec2 by apply counter_set.
  assert (c_tables c2 = c_tables with_table /\ c_columns c2 = c_columns with_table /\ c_indexes c2 = c_indexes with_table /\
    c_fks c2 = c_fks with_table) as (Et2 & Eco2 & Ei2 & Ef2) by (unfold c2; by destruct with_table).
  destruct (put_constraints_frame ks c2) as (Ec3 & Et3 & Eco3 & Ei3 & Ef3).
  apply fresh_all_nodup in Hfresh as [Hnd _]. apply NoDup_app in Hnd as (_ & _ & Hnd). apply (wf_put_fks T).
  - apply wf_put_constraints; [done|]. unfold ks. eapply Forall_impl.
    + apply (check_rows_ids T first (zlen fks) 0 checks (first + total - 1)). intros j Hj. rewrite Hids; lia.
    + simpl. intros r [Hid Er]. rewrite Ec2, Et2, Er. split; [done|apply new_table_present].
  - rewrite Et3, Et2. apply new_table_present.
  - by rewrite Enames.
  - intros i f Hf Et. exfalso. rewrite Ef3, Ef2 in Hf. revert Et. by eapply no_fks_on_T.
  - rewrite Ec3, Et3, Eco3, Ei3, Ec2, Et2, Eco2, Ei2. eapply Forall_impl; [exact Hall|]. simpl.
    intros f (Et & Hid & parent & sh & Ep & Hsh & Hres). pose proof (parent_shape_matches parent sh Hsh) as Hm.
    split_and!; [done|lia|lia| |].
    + rewrite Ep. destruct (shape_pk _ _ _ _ _ Hm) as (t' & Ht' & _). by exists t'.
    + eapply resolve_sound; [|rewrite Ep; exact Hm|exact Hres]. rewrite Et. apply new_shape_matches.
Qed.
End NewTable.

Lemma wf_create_table now schema_id name columns pk fks checks c a ops :
  wf c -> request_ok (CreateTable now schema_id name columns pk fks checks) ->
  spec_create_table now schema_id name columns pk fks checks c = Some (Ok (a, ops)) -> wf (apply_cats ops c).
Proof.
  intros Hwf (_ & _ & _ & _ & [Hu16 _] & _ & _ & Htotal) Hs. unfold spec_create_table in Hs.
  destruct (spec_validate_table _ _ _) as [[[]|]|] eqn:Ev; [|done..].
  destruct (validate_table_spec name columns pk Ev Hu16) as (Hlen & Hnames & Hpk).
  destruct (bt_get schema_id (c_schemas c)) as [sch|] eqn:Esch; [|done]. destruct (existsb _ _) eqn:Ename; [done|].
  assert (forall i t', bt_get i (c_tables c) = Some t' -> tbl_schema_id t' = schema_id -> tbl_name t' <> name) as Hfree.
  { intros i t' Ht' Es En. apply (no_clash (c_tables c) _ _ (wf_tables c Hwf) Ename i t' Ht'); [by apply Z.eqb_eq|].
    rewrite En. apply bytes_eqb_refl. }
  destruct (next_id CTable c) as [T|] eqn:ET; [|done]. destruct (next_id CIndex c) as [I|] eqn:EI; [|done].
  apply next_id_spec in ET as [-> _]. apply next_id_spec in EI as [-> _].
  destruct (spec_constraints _ _ _ _ _ _ _ _ _) as [[ops'|]|] eqn:Ec; [|done..]. injection Hs as <- <-.
  assert (is_Some (bt_get schema_id (c_schemas c))) as Hsch by by eexists.
  apply spec_constraints_rows in Ec as [(_ & _ & ->)|(first & last & rows & Hfirst & Hlast & Htot & -> & Hrows & Hfresh & _)];
    [by apply wf_with_table|].
  apply next_id_spec in Hfirst as [-> _].
  match goal with |- wf (apply_cats (?l ++ ?rest) c) => change l with
    (table_ops now schema_id (c_counters c CTable + 1) (c_counters c CIndex + 1) name columns pk) end.
  rewrite apply_cats_app. by apply wf_with_constraints.
Qed.

(** *** Every request *)

Theorem wf_spec r c a ops : wf c -> request_ok r -> spec r c = Some (Ok (a, ops)) -> wf (apply_cats ops c).
Proof.
  intros Hwf Hr Hs. destruct r; simpl spec in Hs.
  - by eapply wf_create_schema.
  - by eapply wf_drop_schema.
  - by eapply wf_create_table.
  - by eapply wf_drop_table.
  - by eapply wf_create_index.
  - by eapply wf_drop_index.
  - apply (wf_transition _ _ _ c a ops Hwf) in Hs; [done|by left].
  - apply (wf_transition _ _ _ c a ops Hwf) in Hs; [done|by left].
  - by eapply wf_mark_dropping.
  - by eapply wf_remove_index_row.
  - by eapply wf_create_constraint.
  - by eapply wf_add_column.
  - by eapply wf_rename_column.
  - by eapply wf_set_default.
  - by eapply wf_set_nullable.
  - by eapply wf_create_fk.
  - by eapply wf_drop_fk.
  - by eapply wf_create_check.
  - by eapply wf_drop_check.
  - by eapply wf_grant.
  - injection Hs as <- <-. by apply wf_del_grants.
Qed.

End Inv.
