(* ===== verification/CatalogRuns.v ===== *)
(** * Runs of the catalog service

    The service never panics, whatever it is asked; it starts from an empty engine with [bootstrap]; and from there every
    orderly run of requests keeps the catalog well formed, each step being one of the specification's.  [srv_step] has every
    step a thread can take, [orderly_step] those the theorem covers; the file ends with what happens in the others: a
    transition of [mark_index_dropping] that comes after a foreign key on its index, and the places where the service's
    caches disagree with the engine; and with what [bootstrap] does on a failing scan. *)

From stdpp Require Import base list option strings sorting relations.
From Stdlib Require Import ZArith Lia.
From Stdlib Require Import Strings.Byte.
From S2P Require Import Prelude BTree EngineError RelKey IndexKey RowCodec CatalogRows LsmEngine KvStore CatalogService.
From S2P Require Import CatalogRep CatalogSpec CatalogRefine CatalogInv.

Module Runs.
Import Rel Row Rows Kv Cat Rep Spec Refine Inv.
Import Lsm(WriteOp, WPut, WDelete, outcome, Returned, Failed, Panicked).

(** ** No panic *)

Lemma check_pk_total pk columns : zlen columns <> 0 -> is_Some (check_pk pk columns).
Proof.
  intros Hne. induction pk as [|o pk IH]; simpl; [done|]. destruct (Z.leb_spec (zlen columns) o); [done|].
  destruct (lookup_lt_is_Some_2 columns (Z.to_nat o)) as [d ->]; [lia|]. simpl. by destruct (cd_nullable d).
Qed.

(** The columns [check_action] expects were found by [check_pairs]. *)
Lemma check_action_total action ordinals child :
  (forall o, In o ordinals -> is_Some (find_column o (sh_columns child))) -> is_Some (check_action action ordinals child).
Proof.
  induction ordinals as [|o ordinals IH]; intros Hall; simpl; [done|]. destruct (Hall o) as [k ->]; [by left|]. simpl.
  assert (is_Some (check_action action ordinals child)) as Hrest by (apply IH; intros o' Ho'; apply Hall; by right).
  destruct action; try done; by destruct (_ : bool).
Qed.

Lemma In_zip_l {A B} (l : list A) (k : list B) a : length l = length k -> In a l -> exists b, In (a, b) (zip l k).
Proof.
  revert k. induction l as [|x l IH]; intros [|y k]; simpl; try done. intros [= Hl] [<-|Hin]; [by exists y; left|].
  destruct (IH k Hl Hin) as [b Hb]. exists b. by right.
Qed.

Lemma resolve_total def child parent : is_Some (resolve_foreign_key def child parent).
Proof.
  unfold resolve_foreign_key. destruct (_ || _) eqn:En; [done|]. destruct (_ <? _); [done|].
  do 2 (destruct (all_fresh _ _); simpl negb; cbv iota; [|done]).
  destruct (check_pairs _ _ _) as [[]|] eqn:Ep; [|done]. destruct (resolve_parent_index _ _); [|done].
  assert (forall o, In o (fd_child_ordinals def) -> is_Some (find_column o (sh_columns child))) as Hall.
  { apply orb_false_iff in En as [_ E2%negb_false_iff%Z.eqb_eq]. intros o Ho.
    destruct (In_zip_l (fd_child_ordinals def) (fd_parent_ordinals def) o) as [b Hb]; [lia|done|].
    destruct (check_pairs_sound _ _ _ Ep o b Hb) as (ka & _ & -> & _). done. }
  destruct (check_action_total (fd_on_delete def) _ _ Hall) as [[[]|] ->]; [|done].
  by destruct (check_action_total (fd_on_update def) _ _ Hall) as [[[]|] ->].
Qed.

Lemma active_total c id : is_Some (active_table c id).
Proof. unfold active_table. destruct (bt_get _ _); [|done]. by destruct (bool_decide _). Qed.

Lemma column_of_total c id o : is_Some (column_of c id o).
Proof. unfold column_of. by destruct (find_column _ _). Qed.

(** Destructs the scrutinee of a verdict that cannot be a panic. *)
Ltac total H := let E := fresh in destruct H as [[?|?] E]; rewrite E; [|done].
Ltac verdict :=
  repeat first
  [ done
  | match goal with |- is_Some (match validate_name ?a ?b with _ => _ end) => destruct (validate_name a b) end
  | match goal with |- is_Some (match validate_check_expression ?a with _ => _ end) => destruct (validate_check_expression a) end
  | match goal with |- is_Some (match next_id ?k ?c with _ => _ end) => destruct (next_id k c) end
  | match goal with |- context [active_table ?c ?id] => total (active_total c id) end
  | match goal with |- context [column_of ?c ?id ?o] => total (column_of_total c id o) end
  | match goal with |- context [resolve_foreign_key ?d ?x ?y] => total (resolve_total d x y) end
  | match goal with |- is_Some (match bt_get ?k ?m with _ => _ end) => destruct (bt_get k m) end
  | match goal with |- is_Some (match List.find ?f ?m with _ => _ end) => destruct (List.find f m) end
  | match goal with |- is_Some (if ?b then _ else _) => destruct b end ].

Lemma spec_checks_total table_id first fk_count n i checks seen ops :
  is_Some (spec_checks table_id first fk_count n i checks seen ops).
Proof. revert i seen ops. induction checks as [|k checks IH]; intros i seen ops; simpl; verdict. Qed.

Lemma parent_shape_total c child parent : is_Some (parent_shape c child parent).
Proof. destruct parent; simpl; verdict. Qed.

Lemma spec_fks_total now table_id first i child fks seen ops c : is_Some (spec_fks now table_id first i child fks seen ops c).
Proof.
  revert i seen ops. induction fks as [|fk fks IH]; intros i seen ops; simpl; verdict.
  total (parent_shape_total c child (ntf_parent_table_id fk)). verdict.
Qed.

Lemma spec_constraints_total now table_id name columns pk fks checks ops c :
  is_Some (spec_constraints now table_id name columns pk fks checks ops c).
Proof.
  unfold spec_constraints. destruct fks as [|fk fks], checks as [|k checks]; [done|..];
    (destruct (next_id _ _); [|done]; destruct (ok_or _ _); [|done];
     match goal with |- context [spec_checks ?a ?b ?d ?e ?f ?g ?h ?i] => destruct (spec_checks_total a b d e f g h i) as [[[seen ops1]|] ->]; [|done] end;
     match goal with |- context [spec_fks ?a ?b ?d ?e ?f ?g ?h ?i ?j] => by destruct (spec_fks_total a b d e f g h i j) as [[] ->] end).
Qed.

Lemma validate_table_total name columns pk : is_Some (spec_validate_table name columns pk).
Proof.
  unfold spec_validate_table. destruct (validate_name _ _); [|done]. destruct (Z.eqb_spec (zlen columns) 0); [done|].
  do 2 (destruct (_ : bool); [done|]). total (check_pk_total pk columns ltac:(done)). verdict.
Qed.

Lemma index_of_total c id : is_Some (index_of c id).
Proof. unfold index_of. verdict. Qed.

Lemma not_referenced_total c id : is_Some (not_referenced c id).
Proof. unfold not_referenced. verdict. Qed.

Lemma transition_total id allowed to c : is_Some (spec_transition id allowed to c).
Proof. unfold spec_transition. total (index_of_total c id). verdict. Qed.

Lemma check_fk_total new c : is_Some (spec_check_fk new c).
Proof. unfold spec_check_fk. verdict. Qed.

(** The specification has a verdict for every request. *)
Theorem spec_total r c : is_Some (spec r c).
Proof.
  destruct r; cbn [spec].
  - unfold spec_create_schema. verdict.
  - unfold spec_drop_schema. verdict.
  - unfold spec_create_table. total (validate_table_total name columns pk_ordinals). verdict.
    match goal with |- context [spec_constraints ?a ?b ?d ?e ?f ?g ?h ?i ?j] => total (spec_constraints_total a b d e f g h i j) end. verdict.
  - unfold spec_drop_table. verdict.
  - unfold spec_create_index. verdict.
  - unfold spec_drop_index, not_primary. total (index_of_total c index_id). destruct (bool_decide _); [done|].
    total (not_referenced_total c index_id). verdict.
  - apply transition_total.
  - apply transition_total.
  - unfold spec_mark_dropping, not_primary. total (index_of_total c index_id). destruct (bool_decide _); [done|].
    total (not_referenced_total c index_id). apply transition_total.
  - unfold spec_remove_index. total (index_of_total c index_id). verdict.
  - unfold spec_create_constraint. verdict.
  - unfold spec_add_column. verdict.
  - unfold spec_rename_column. verdict.
  - unfold spec_set_default. verdict.
  - unfold spec_set_nullable. verdict. destruct nullable; [done|]. by destruct (existsb _ _).
  - unfold spec_create_fk. total (check_fk_total new c). verdict.
  - unfold spec_drop_fk. verdict.
  - unfold spec_create_check. verdict.
  - unfold spec_drop_check. verdict.
  - unfold spec_grant. verdict.
  - done.
Qed.

(** ** Bootstrap *)

Definition boot_ops (now_database now_schema : Z) (c : Catalog) : list CatOp :=
  let d := c_counters c CDatabase + 1 in
  let s := c_counters c CSchema + 1 in
  [SetCounter CDatabase d; SetCounter CSchema s; PutDatabase (MkDatabase d name_default now_database);
   PutSchema (MkSchema s d name_public now_schema)].

(** The database and schema every catalog starts with, when there is no database yet and two ids are left. *)
Definition spec_bootstrap (now_database now_schema : Z) (c : Catalog) : verdict :=
  match c_databases c with
  | _ :: _ => done 0 []
  | [] =>
      let! _ := Some (next_id CDatabase c) in
      let! _ := Some (next_id CSchema c) in
      done 0 (boot_ops now_database now_schema c)
  end.

Lemma bootstrap_total now_database now_schema c : spec_bootstrap now_database now_schema c <> None.
Proof.
  unfold spec_bootstrap. destruct (c_databases c); [|done]. destruct (next_id CDatabase c); [|done]. by destruct (next_id CSchema c).
Qed.

Lemma wf_bootstrap now_database now_schema c a ops :
  wf c -> spec_bootstrap now_database now_schema c = Some (Ok (a, ops)) -> wf (apply_cats ops c).
Proof.
  intros Hwf Hs. unfold spec_bootstrap in Hs. destruct (c_databases c) as [|d ds] eqn:Ed; [|by injection Hs as <- <-].
  assert (forall i s, bt_get i (c_schemas c) = Some s -> False) as Hnone.
  { intros i s Hg. destruct (wf_schema_database c Hwf i s Hg) as [d Hd]. by rewrite Ed in Hd. }
  destruct (next_id CDatabase c) eqn:E1; [|done]. destruct (next_id CSchema c) eqn:E2; [|done]. injection Hs as <- <-.
  pose proof (wf_counters c Hwf CDatabase). pose proof (wf_counters c Hwf CSchema).
  apply next_id_spec in E1 as [_ _]. apply next_id_spec in E2 as [_ _]. by_clause Hwf c; subst ds.
  - change (set_counter _ _ _ CDatabase) with (cs CDatabase + 1). apply (ids_insert (cs CDatabase)); [done|lia..].
  - apply refers_insert; [by intros i s Hg; destruct (Hnone i s)|]. simpl. by rewrite (cmp_refl (cs CDatabase + 1)).
  - apply unique_insert; [done|]. intros j b Hj. by destruct (Hnone j b).
Qed.

(** ** Steps of the specification *)

Inductive cat_step : Catalog -> Catalog -> Prop :=
| Cat_request r c a ops : request_ok r -> spec r c = Some (Ok (a, ops)) -> cat_step c (apply_cats ops c)
| Cat_bootstrap n1 n2 c a ops : spec_bootstrap n1 n2 c = Some (Ok (a, ops)) -> cat_step c (apply_cats ops c).

Lemma wf_cat_step c c' : cat_step c c' -> wf c -> wf c'.
Proof. intros [r c1 a ops Hr Hs|n1 n2 c1 a ops Hs] Hwf; [by eapply wf_spec|by eapply wf_bootstrap]. Qed.

Lemma wf_empty : wf catalog_empty.
Proof.
  split; try done; try (split; [apply SSorted_nil|apply List.Forall_nil]).
  split; apply List.Forall_nil.
Qed.

Section Runs.
Context {E : Type} `{KvStoreLaws E view}.
Implicit Types (s : Service E) (c : Catalog).

Definition boot_write (n1 n2 : Z) : CM (E := E) unit :=
  '(database_id, database_counter_op) ← allocate_id CDatabase;
  '(schema_id, schema_counter_op) ← allocate_id CSchema;
  database_op ← put_row (MkDatabase database_id name_default n1);
  schema_op ← put_row (MkSchema schema_id database_id name_public n2);
  write_batch [database_counter_op; schema_counter_op; database_op; schema_op] ;; mret tt.

Lemma refines_boot_write n1 n2 c :
  is_signed 64 n1 -> is_signed 64 n2 -> c_databases c = [] ->
  refines (view := view) c (boot_write n1 n2 ;; mret 0) (spec_bootstrap n1 n2 c).
Proof.
  intros H1 H2 Hdb. apply refines_rep. intros m Hm. unfold boot_write, spec_bootstrap. rewrite Hdb. apply refines_assoc.
  apply refines_allocate. intros d Hd. apply refines_assoc, refines_allocate. intros sid Hsid.
  pose proof (next_id_u32 m c CDatabase d Hm Hd) as Hud. pose proof (next_id_u32 m c CSchema sid Hm Hsid) as Hus.
  apply next_id_spec in Hd as [-> _]. apply next_id_spec in Hsid as [-> _].
  apply refines_assoc. eapply refines_then; [apply reads_put|]. apply refines_assoc. eapply refines_then; [apply reads_put|].
  apply refines_assoc. apply refines_write_plain; [reflexivity| |by repeat constructor].
  repeat (apply List.Forall_cons; [done|]). apply List.Forall_nil.
Qed.

Definition boot_scan (s : Service E) : E * outcome (list (result EngineError (bytes * bytes))) :=
  kv_scan (system_table_range SYSTEM_TABLE_DATABASES).1 (system_table_range SYSTEM_TABLE_DATABASES).2 (engine s).

Lemma bootstrap_eq n1 n2 s rows :
  (boot_scan s).2 = Returned rows ->
  (bootstrap n1 n2 ;; mret 0) s =
  match rows with
  | [] => (boot_write n1 n2 ;; mret 0) (set_engine (boot_scan s).1 s)
  | _ :: _ => (set_engine (boot_scan s).1 s, Some (Ok 0))
  end.
Proof.
  unfold boot_scan. intros Hr. unfold mbind at 1, cbind at 1, bootstrap, engine_scan. unfold mbind at 1, cbind at 1.
  destruct (kv_scan _ _ _) as [e r]. simpl in Hr. subst r. simpl. by destruct rows.
Qed.

(** [bootstrap] does what the specification says, unless its scan of the databases fails: then it reports success. *)
Lemma bootstrap_outcome n1 n2 c s :
  is_signed 64 n1 -> is_signed 64 n2 -> st (view := view) c s ->
  let r := (bootstrap n1 n2 ;; mret 0) s in
  outcome_ok (view := view) c (spec_bootstrap n1 n2 c) r.1 r.2 \/ (r.2 = Some (Ok 0) /\ st (view := view) c r.1).
Proof.
  intros H1 H2 Hs. pose proof Hs as ((m & Hv & Hm) & Hf & Hc). destruct (rep_databases _ _ Hm) as [_ Hl].
  change (row_table DatabaseRow) with SYSTEM_TABLE_DATABASES in Hl.
  destruct (kv_scan_law (system_table_range SYSTEM_TABLE_DATABASES).1 (system_table_range SYSTEM_TABLE_DATABASES).2 (engine s) m Hv) as [Hv' Hr].
  rewrite Hl in Hr. fold (boot_scan s) in *. assert (st (view := view) c (set_engine (boot_scan s).1 s)) as Hst by by apply (st_engine c s _ m).
  cbv zeta. destruct Hr as [Hr|(n & x & rest & Hr)]; rewrite (bootstrap_eq _ _ _ _ Hr).
  - left. destruct (c_databases c) as [|d ds] eqn:Ed; [by apply refines_boot_write|]. simpl.
    exists []. unfold spec_bootstrap. rewrite Ed. by split_and!.
  - right. destruct (map Ok (take n _)); by simpl.
Qed.

(** ** Steps of the service *)

Definition engine_failed {A} (r : option (cres A)) : Prop := exists x, r = Some (Err (CEngine x)).

(** What one thread does to the service without another one in between: a request under [ddl_lock], a bootstrap, and the two
    halves of [mark_index_dropping], of which only the second takes the lock. *)
Inductive Event : Type :=
| Locked (r : Request)
| Boot (now_database now_schema : Z)
| DropCheck (index_id : Z)
| DropMark (index_id : Z).

Definition perform (ev : Event) : CM (E := E) Z :=
  match ev with
  | Locked r => run r
  | Boot n1 n2 => bootstrap n1 n2 ;; mret 0
  | DropCheck id => mark_dropping_check id ;; mret 0
  | DropMark id => mark_dropping_transition id ;; mret 0
  end.

(** Every step: an event, whatever it answers; or a new service on the same engine. *)
Inductive srv_step : Service E -> Service E -> Prop :=
| Srv_event ev s : srv_step s (perform ev s).1
| Srv_renewed s : srv_step s (service_new (engine s)).

(** The index, if there is one, is not a primary one and no foreign key refers to it. *)
Definition droppable (c : Catalog) (id : Z) : Prop :=
  forall i, index_of c id = Some (Ok i) -> not_primary i = Some (Ok tt) /\ not_referenced c id = Some (Ok tt).

(** What the theorems ask of an event: well-typed arguments; no [create_constraint] with the kind CHECK, which leaves a
    cache stale; [mark_index_dropping] in its two halves, the second one while what the first one checked still holds. *)
Definition event_ok (ev : Event) (s : Service E) : Prop :=
  match ev with
  | Locked r => request_ok r /\ keeps_caches r /\ (forall id, r <> MarkIndexDropping id)
  | Boot n1 n2 => is_signed 64 n1 /\ is_signed 64 n2
  | DropCheck id => is_u32 id
  | DropMark id => is_u32 id /\ forall c, holds (view := view) s c -> droppable c id
  end.

(** A step of an orderly run: such an event, followed by a new service on the same engine when the engine failed in it; or
    a new service at any time. *)
Inductive orderly_step : Service E -> Service E -> Prop :=
| Ord_answered ev s : event_ok ev s -> ~ engine_failed (perform ev s).2 -> orderly_step s (perform ev s).1
| Ord_failed ev s : event_ok ev s -> engine_failed (perform ev s).2 -> orderly_step s (service_new (engine (perform ev s).1))
| Ord_renewed s : orderly_step s (service_new (engine s)).

Lemma orderly_step_srv s s' : orderly_step s s' -> rtc srv_step s s'.
Proof.
  intros [ev s0 _ _|ev s0 _ _|s0].
  - apply rtc_once, Srv_event.
  - eapply rtc_l; [apply (Srv_event ev)|]. apply rtc_once, Srv_renewed.
  - apply rtc_once, Srv_renewed.
Qed.

(** What a step owes: a catalog the new state agrees with, which is the old one or one specified step away. *)
Definition advanced (c : Catalog) (s' : Service E) : Prop := exists c', (c' = c \/ cat_step c c') /\ st (view := view) c' s'.

Lemma reopen_st c s : holds (view := view) s c -> st (view := view) c (service_new (engine s)).
Proof. intros Hh. by split. Qed.

Lemma outcome_advanced c v s' r :
  outcome_ok (view := view) c v s' r ->
  (forall a ops, v = Some (Ok (a, ops)) -> apply_cats ops c = c \/ cat_step c (apply_cats ops c)) -> v <> None ->
  (~ engine_failed r -> advanced c s') /\ (engine_failed r -> advanced c (service_new (engine s'))).
Proof.
  intros Ho Hstep Hv. destruct r as [[a|x]|]; simpl in Ho.
  - destruct Ho as (ops & Ev & _ & Hs). split; [intros _; exists (apply_cats ops c); eauto|by intros (? & ?)].
  - split.
    + intros Hx. destruct Ho as [[_ Hs]|[(e & ->) _]]; [exists c; eauto|]. destruct Hx. by eexists.
    + intros _. destruct Ho as [[_ [Hs _]]|[_ [[Hs _]|(a & ops & Ev & _ & Hh)]]].
      * exists c. split; [by left|by apply reopen_st].
      * exists c. split; [by left|by apply reopen_st].
      * exists (apply_cats ops c). split; [eauto|by apply reopen_st].
  - by destruct Ho.
Qed.

(** What an event owes the specification. *)
Definition event_spec (ev : Event) (c : Catalog) : verdict :=
  match ev with
  | Locked r => spec r c
  | Boot n1 n2 => spec_bootstrap n1 n2 c
  | DropCheck id => let! i := index_of c id in let! _ := not_primary i in let! _ := not_referenced c id in done 0 []
  | DropMark id => spec_mark_dropping id c
  end.

Lemma droppable_spec c id : droppable c id -> spec_mark_dropping id c = spec_transition id [IBuilding; IReady; IFailed] IDropping c.
Proof.
  intros Hd. unfold spec_mark_dropping, spec_transition at 2. unfold droppable in Hd.
  destruct (index_of c id) as [[i|x]|] eqn:Ei; [|done..]. destruct (Hd i eq_refl) as [-> ->].
  unfold spec_transition. by rewrite Ei.
Qed.

Lemma event_outcome ev c s :
  st (view := view) c s -> wf c -> event_ok ev s ->
  outcome_ok (view := view) c (event_spec ev c) (perform ev s).1 (perform ev s).2 \/
  ((perform ev s).2 = Some (Ok 0) /\ st (view := view) c (perform ev s).1).
Proof.
  intros Hs Hwf Hev. destruct ev as [r|n1 n2|id|id]; cbn [event_ok event_spec perform] in *.
  - destruct Hev as (Hr & Hk & _). left. by apply run_refines; [..|apply Hwf|].
  - destruct Hev as [H1 H2]. by apply bootstrap_outcome.
  - left. revert s Hs. apply refines_dropping_check; [done|]. apply refines_ret.
  - destruct Hev as [Hid Hd]. left. rewrite droppable_spec by by apply Hd, Hs. revert s Hs Hd. intros s Hs _. revert s Hs.
    by apply refines_mark.
Qed.

Lemma event_cat_step ev c s a ops :
  event_ok ev s -> event_spec ev c = Some (Ok (a, ops)) -> apply_cats ops c = c \/ cat_step c (apply_cats ops c).
Proof.
  destruct ev as [r|n1 n2|id|id]; cbn [event_ok event_spec]; intros Hev Hv.
  - right. eapply Cat_request; [apply Hev|done].
  - right. by eapply Cat_bootstrap.
  - left. destruct (index_of c id) as [[i|]|]; [|done..]. destruct (not_primary i) as [[]|]; [|done..].
    destruct (not_referenced c id) as [[]|]; [|done..]. by injection Hv as <- <-.
  - right. apply (Cat_request (MarkIndexDropping id) c a ops); [apply Hev|done].
Qed.

Lemma event_total ev c : event_spec ev c <> None.
Proof.
  destruct ev as [r|n1 n2|id|id]; cbn [event_spec].
  - by destruct (spec_total r c) as [? ->].
  - apply bootstrap_total.
  - unfold index_of. destruct (bt_get id (c_indexes c)) as [i|]; [|done]. unfold not_primary. destruct (bool_decide _); [done|].
    unfold not_referenced. by destruct (existsb _ _).
  - by destruct (spec_total (MarkIndexDropping id) c) as [? Hv]; cbn [spec] in Hv; rewrite Hv.
Qed.

Lemma orderly_step_advanced c s s' : st (view := view) c s -> wf c -> orderly_step s s' -> advanced c s'.
Proof.
  intros Hs Hwf Hstep.
  assert (forall ev, event_ok ev s ->
    (~ engine_failed (perform ev s).2 -> advanced c (perform ev s).1) /\
    (engine_failed (perform ev s).2 -> advanced c (service_new (engine (perform ev s).1)))) as Hall.
  { intros ev Hev. destruct (event_outcome ev c s Hs Hwf Hev) as [Ho|[Ho Hst]].
    - eapply outcome_advanced; [exact Ho| |apply event_total]. intros a ops Hv. by eapply event_cat_step.
    - rewrite Ho. split; [intros _; exists c; eauto|by intros [x ?]]. }
  destruct Hstep as [ev s Hev Hans|ev s Hev Hfail|s]; [by apply Hall..|]. exists c. split; [by left|]. apply reopen_st, Hs.
Qed.

Lemma orderly_steps c s s' :
  rtc orderly_step s s' -> st (view := view) c s -> wf c -> exists c', rtc cat_step c c' /\ wf c' /\ st (view := view) c' s'.
Proof.
  intros Hsteps. revert c. induction Hsteps as [s|s s1 s' Hstep Hsteps IH]; intros c Hs Hwf.
  { exists c. by split_and!. }
  destruct (orderly_step_advanced c s s1 Hs Hwf Hstep) as (c1 & Hc1 & Hs1).
  assert (wf c1) as Hwf1 by (destruct Hc1 as [->|Hc]; [done|by eapply wf_cat_step]).
  destruct (IH c1 Hs1 Hwf1) as (c' & Hcs & Hwf' & Hs'). exists c'. split_and!; [|done..].
  destruct Hc1 as [->|Hc]; [done|by eapply rtc_l].
Qed.

End Runs.

(** C7: the catalog's invariant over every orderly run.  Start the service on any engine with the engine's laws whose
    catalog namespace is empty, and let its threads go through any sequence of bootstraps, requests, and the two halves of
    [mark_index_dropping], with other requests between the halves.  An orderly run is one in which a request or bootstrap
    that fails in the engine is followed by a new service on the same running engine (which may also replace the service
    at any time), no request is a [create_constraint] with the kind CHECK, and the transition of [mark_index_dropping] runs
    while no foreign key refers to the index, as its check found.  The engine then holds a catalog that the specification
    reaches step by step and that is well formed: every reference resolves, ids are never reused, columns are numbered
    without gaps, primary-key columns exist and are NOT NULL, names are unique, and every foreign key still has matching
    columns and a referenced unique key that is ready.  And no such request makes the service panic. *)
Theorem catalog_always_wf {E : Type} {view} `{KvStoreLaws E view} (s0 s : Service E) :
  st (view := view) catalog_empty s0 -> rtc (orderly_step (view := view)) s0 s ->
  exists c, rtc cat_step catalog_empty c /\ wf c /\ st (view := view) c s /\
    forall r, request_ok r -> keeps_caches r -> (run r s).2 <> None.
Proof.
  intros Hs Hsteps. destruct (orderly_steps catalog_empty s0 s Hsteps Hs wf_empty) as (c & Hcs & Hwf & Hst). exists c.
  split_and!; [done..|]. intros r Hr Hk Hn. pose proof (run_refines r c Hr Hk (wf_ids c Hwf) s Hst) as Ho. unfold outcome_ok in Ho.
  rewrite Hn in Ho. destruct Ho as [Ho _]. by destruct (spec_total r c) as [v Hv]; rewrite Hv in Ho.
Qed.

(** A fresh engine whose second write reports an error after it took effect. *)
Definition fresh_service : Service MapStore := service_new (MkMapStore [] 0 [WDone; WKept (CapacityExceeded 1 0)]).
Definition booted : Service MapStore := ((bootstrap 3 4 ;; mret 0) fresh_service).1.

Lemma catalog_always_wf_witness :
  exists c, rtc cat_step catalog_empty c /\ wf c /\
    st (view := map_view) c (service_new (engine (run demo_request booted).1)) /\
    forall r, request_ok r -> keeps_caches r -> (run r (service_new (engine (run demo_request booted).1))).2 <> None.
Proof.
  apply (catalog_always_wf fresh_service).
  - split; [|by split]. exists []. split; [|apply cat_rep_empty]. split; [reflexivity|apply SSorted_nil].
  - eapply rtc_l; [apply (Ord_answered (Boot 3 4))|eapply rtc_l; [apply (Ord_failed (Locked demo_request))|apply rtc_refl]].
    + split; vm_compute; split; congruence.
    + intros [x Hx]. vm_compute in Hx. congruence.
    + split; [repeat (split || constructor); vm_compute; congruence|]. split; [exact I|discriminate].
    + eexists. vm_compute. reflexivity.
Defined.

(** ** Where the locks, the caches and the guards fall short *)

(** C40: the check of [mark_index_dropping] runs without [ddl_lock].  Take any service state whose engine holds a well-formed
    catalog in which a foreign key refers to an index: one declared after the check passed and before the transition takes
    the lock.  If the transition is answered without error, the engine holds a catalog in which that foreign key is stored
    as before and the index it refers to is [Dropping], so that the catalog is no longer well formed. *)
Theorem late_drop_mark_breaks_key {E : Type} {view} `{KvStoreLaws E view} (s : Service E) c fk_id f id :
  is_u32 id -> wf c -> st (view := view) c s -> bt_get fk_id (c_fks c) = Some f -> fk_parent_index_id f = Some id ->
  (perform (DropMark id) s).2 = Some (Ok 0) ->
  exists c' i, st (view := view) c' (perform (DropMark id) s).1 /\ bt_get fk_id (c_fks c') = Some f /\
    bt_get id (c_indexes c') = Some i /\ idx_state i = IDropping /\ ~ wf c'.
Proof.
  intros Hid Hwf Hst Hf Hp Hans. pose proof (refines_mark c id [IBuilding; IReady; IFailed] IDropping Hid s Hst) as Ho.
  cbn [perform] in *. unfold mark_dropping_transition in *. rewrite Hans in Ho. unfold outcome_ok in Ho. destruct Ho as (ops & Hv & _ & Hst').
  pose proof (wf_fk_key c Hwf fk_id f Hf) as Hk. rewrite Hp in Hk. destruct Hk as (ix & Hix & _ & _ & Hready & _).
  unfold spec_transition, index_of in Hv. rewrite Hix in Hv. cbn in Hv. rewrite Hready in Hv. cbn in Hv. injection Hv as <-.
  set (c' := apply_cats [PutIndex (with_state ix IDropping)] c) in *.
  assert (idx_index_id ix = id) as Hkey by exact (keyed_key _ id ix (wf_indexes c Hwf) Hix).
  assert (bt_get id (c_indexes c') = Some (with_state ix IDropping)) as Hi'.
  { unfold c'. destruct c. cbn. rewrite bt_get_insert, Hkey. by rewrite (proj2 (eqb_eq id id) eq_refl). }
  assert (c_fks c' = c_fks c) as Hfk by by destruct c.
  exists c', (with_state ix IDropping). split_and!; [done|by rewrite Hfk|done|done|].
  intros Hwf'. pose proof (wf_fk_key c' Hwf' fk_id f) as Hk'. rewrite Hfk, Hp in Hk'.
  destruct (Hk' Hf) as (ix' & Hix' & _ & _ & Hr' & _). rewrite Hi' in Hix'. injection Hix' as <-. done.
Qed.

(** Runs a list of requests, whatever each one answers. *)
Definition run_all {E} `{KvStore E} (rs : list Request) (s : Service E) : Service E := fold_left (fun s r => (run r s).1) rs s.

Definition two_columns (default_b : option bytes) : list ColumnDef :=
  [MkColumnDef [x61] 1 false None None; MkColumnDef [x62] 1 false default_b None].
Definition parent_request : Request := CreateTable 5 1 [x70] (two_columns None) [0] [] [].
Definition child_request (on_delete : FkAction) (default_b : option bytes) : Request :=
  CreateTable 6 1 [x63] (two_columns default_b) [0] [MkNewTableForeignKey [x66] [1] (Some 1) [0] on_delete NoAction] [].

(** The catalog after requests that the specification accepts. *)
Fixpoint spec_all (rs : list Request) (c : Catalog) : option Catalog :=
  match rs with
  | [] => Some c
  | r :: rs => match spec r c with Some (Ok (_, ops)) => spec_all rs (apply_cats ops c) | _ => None end
  end.

Fixpoint all_answered {E} `{KvStore E} (rs : list Request) (s : Service E) : bool :=
  match rs with
  | [] => true
  | r :: rs => match run r s with (s, Some (Ok _)) => all_answered rs s | _ => false end
  end.

Lemma follows_all {E : Type} {view} `{KvStoreLaws E view} rs c (s : Service E) c' :
  st (view := view) c s -> wf c -> Forall (fun r => request_ok r /\ keeps_caches r) rs -> all_answered rs s = true ->
  spec_all rs c = Some c' -> st (view := view) c' (run_all rs s) /\ wf c'.
Proof.
  revert c s. induction rs as [|r rs IH]; intros c s Hs Hwf Hok Hans Hc; [by injection Hc as <-|].
  inversion_clear Hok as [|? ? [Hr Hk] Hok']. cbn [spec_all all_answered] in *.
  pose proof (run_refines r c Hr Hk (wf_ids c Hwf) s Hs) as Ho. unfold run_all. cbn [fold_left].
  destruct (run r s) as [s1 [[a|]|]]; [|done..]. cbn [fst snd] in *. destruct Ho as (ops & Hv & _ & Hs1). rewrite Hv in Hc.
  apply (IH (apply_cats ops c) s1 Hs1); [by eapply wf_spec|done..].
Qed.

(** A parent with a ready UNIQUE index on its second column, and a child that refers to it. *)
Definition keyed_requests : list Request :=
  [parent_request; CreateIndex 7 1 [x75] IUnique [1]; MarkIndexReady 2;
   CreateTable 8 1 [x63] (two_columns None) [0] [MkNewTableForeignKey [x66] [1] (Some 1) [1] Cascade NoAction] []].

Lemma demo_catalog_wf : wf demo_catalog.
Proof. apply (wf_bootstrap 0 0 catalog_empty 0 (boot_ops 0 0 catalog_empty)); [apply wf_empty|reflexivity]. Qed.

Lemma late_drop_mark_breaks_key_witness :
  exists c' f i, st (view := map_view) c' (perform (DropMark 2) (run_all keyed_requests demo_service)).1 /\
    bt_get 1 (c_fks c') = Some f /\ bt_get 2 (c_indexes c') = Some i /\ idx_state i = IDropping /\ ~ wf c'.
Proof.
  destruct (spec_all keyed_requests demo_catalog) as [c|] eqn:Ec; [|vm_compute in Ec; discriminate].
  destruct (follows_all keyed_requests demo_catalog demo_service c demo_st demo_catalog_wf) as [Hst Hwf].
  - repeat (apply List.Forall_cons; [split; [repeat (split || constructor); vm_compute; congruence|exact I]|]). apply List.Forall_nil.
  - vm_compute. reflexivity.
  - exact Ec.
  - destruct (bt_get 1 (c_fks c)) as [f|] eqn:Ef; [|vm_compute in Ec; injection Ec as <-; vm_compute in Ef; discriminate].
    destruct (late_drop_mark_breaks_key (run_all keyed_requests demo_service) c 1 f 2) as (c' & i & H1 & H2 & H3 & H4 & H5).
    + vm_compute; split; congruence.
    + exact Hwf.
    + exact Hst.
    + exact Ef.
    + vm_compute in Ec. injection Ec as <-. vm_compute in Ef. injection Ef as <-. reflexivity.
    + vm_compute. reflexivity.
    + exists c', f, i. split_and!; assumption.
Defined.

(** The engine reports an error for the fourth write after applying it, as it does when the memtable that became full
    cannot be frozen. *)
Definition stale_start : Service MapStore :=
  service_new (MkMapStore [] 0 [WDone; WDone; WDone; WKept (CapacityExceeded 5 4)]).
Definition stale_service : Service MapStore :=
  run_all [parent_request; SetColumnNullable 1 1 false; child_request Cascade None] ((bootstrap 3 4 ;; mret 0) stale_start).1.

(** An engine error after the batch was applied leaves the service's foreign-key cache stale: the new table's foreign
    key is in the engine but not in the cache, so the service agrees to drop the table it references.  What remains is a
    foreign key whose parent table does not exist, as a service reopened on that engine sees. *)
Example stale_cache_drops_referenced_table :
  let s := (run (DropTable 1) stale_service).1 in
  (run (child_request Cascade None) (run_all [parent_request; SetColumnNullable 1 1 false]
     ((bootstrap 3 4 ;; mret 0) stale_start).1)).2 = Some (Err (CEngine (CapacityExceeded 5 4))) /\
  (run (DropTable 1) stale_service).2 = Some (Ok 0) /\
  (get_table 1 (service_new (engine s))).2 = Some (Ok None) /\
  option_map (fun r => match r with Ok l => map fk_parent_table_id l | Err _ => [] end)
    (foreign_keys (service_new (engine s))).2 = Some [1].
Proof. vm_compute. split_and!; reflexivity. Qed.

(** [create_constraint] with the kind CHECK does not invalidate the cache of CHECK constraints: the service keeps
    answering from the cache it had, a reopened one sees the constraint. *)
Example create_constraint_stale_checks :
  let s0 := run_all [parent_request; RenameColumn 1 1 [x7a]] ((bootstrap 3 4 ;; mret 0) (service_new (MkMapStore [] 0 []))).1 in
  let s := (run (CreateConstraint 1 [x6b] KCheck [1] (Some [x7a])) s0).1 in
  (run (CreateConstraint 1 [x6b] KCheck [1] (Some [x7a])) s0).2 = Some (Ok 1) /\
  (check_constraints s).2 = Some (Ok []) /\
  (check_constraints (service_new (engine s))).2 = Some (Ok [MkConstraint 1 1 [x6b] KCheck [1] (Some [x7a]) 1]).
Proof. vm_compute. split_and!; reflexivity. Qed.

(** A foreign key with SET DEFAULT is accepted only if its columns are nullable or have a DEFAULT, but the DEFAULT can be
    dropped afterwards; declaring the same foreign key again is then refused. *)
Example set_default_guard_lost :
  let s0 := run_all [parent_request; child_request SetDefault (Some [x00])]
    ((bootstrap 3 4 ;; mret 0) (service_new (MkMapStore [] 0 []))).1 in
  let s := (run (SetColumnDefault 2 1 None) s0).1 in
  (run (SetColumnDefault 2 1 None) s0).2 = Some (Ok 0) /\
  option_map (fun r => match r with Ok l => map fk_on_delete l | Err _ => [] end) (foreign_keys s).2 = Some [SetDefault] /\
  (run (CreateForeignKey 9 (MkNewForeignKey 2 [x67] [1] 1 [0] SetDefault NoAction)) s).2
    = Some (Err (CInvalidInput "SET DEFAULT needs the column to be nullable or have a DEFAULT")).
Proof. vm_compute. split_and!; reflexivity. Qed.

(** A scan error is taken for an existing database: [bootstrap] reports success and writes nothing. *)
Theorem bootstrap_hides_scan_error {E : Type} `{KvStore E} (n1 n2 : Z) (s : Service E) e rest :
  (boot_scan s).2 = Returned (Err e :: rest) -> (bootstrap n1 n2 ;; mret 0) s = (set_engine (boot_scan s).1 s, Some (Ok 0)).
Proof. intros Hr. by rewrite (bootstrap_eq _ _ _ _ Hr). Qed.

End Runs.
