(* ===== verification/LsmStore.v ===== *)
(** * The LSM engine as the store under the catalog

    [KvStore] states what the catalog relies on; this file discharges it with the engine of [LsmEngine]: [get], [range]
    drained to its end, and [write_batch], over any engine state that satisfies the invariant of [LsmReads].  The group
    commit pool that the engine writes through is the environment: [wal_answer n] is its answer to the [n]-th batch (it may
    refuse it, or log it and fail to confirm it), of which the laws ask only that acknowledged sequence numbers increase.
    [background] are the engine's own disciplined steps between two calls (the flush thread, compaction cycles, snapshots);
    they leave the map the catalog sees as it is. *)

From stdpp Require Import base list option strings sorting relations.
From Stdlib Require Import ZArith Lia.
From Stdlib Require Import Strings.Byte.
From S2P Require Import Prelude BTree EngineError Checksum WalFormat MemTable SsFormat Versions SsTable Compaction LsmTrack LsmEngine.
From S2P Require Import LsmReads LsmScan KvStore.

Module Store.
Import Sst Track Lsm Reads Scan Kv.

(** [ghost] is auxiliary: it records what the proofs of [LsmReads] track, and no operation reads it. *)
Record LsmStore : Type := MkLsmStore {
  lsm : Engine;
  ghost : Ghost;
  wal_answer : nat -> WalAnswer;
  turn : nat
}.

Definition with_lsm (e : Engine) (s : LsmStore) : LsmStore := MkLsmStore e (ghost s) (wal_answer s) (turn s).

(** The log of applied versions after [ops]: extended exactly when the batch went into the WAL and was acknowledged. *)
Definition ghost_after (e e' : Engine) (answer : WalAnswer) (ops : list WriteOp) (g : Ghost) : Ghost :=
  match answer with
  | Acknowledged pos =>
      if Nat.eqb (length (wal_log e')) (length (wal_log e)) then g else add_log (batch_items (position_seq pos) ops) g
  | _ => g
  end.

Section Store.
Context `{Crc32c, Xxh64}.

#[global] Instance lsm_store : KvStore LsmStore := {|
  kv_get key s := let '(e, r) := get key (lsm s) in (with_lsm e s, r);
  kv_scan lo hi s :=
    match (it ← range (scan_fuel (lsm s)) lo hi (lsm s); scan_drain (scan_fuel (lsm s)) it) with
    | Some (rows, stats) => (with_lsm (set_read_stats stats (lsm s)) s, Returned rows)
    | None => (s, Panicked)
    end;
  kv_write_batch ops s :=
    let answer := wal_answer s (turn s) in
    let '(e, r) := write_batch answer ops (lsm s) in
    (MkLsmStore e (ghost_after (lsm s) e answer ops (ghost s)) (wal_answer s) (S (turn s)), r)
|}.

(** Sequence numbers still to be acknowledged are above everything durable, and increase. *)
Definition wal_ok (s : LsmStore) : Prop :=
  (forall n pos, (turn s <= n)%nat -> wal_answer s n = Acknowledged pos -> durable_through (lsm s) < position_seq pos <= u64_max) /\
  (forall n n' pos pos', (turn s <= n < n')%nat -> wal_answer s n = Acknowledged pos -> wal_answer s n' = Acknowledged pos' ->
     position_seq pos < position_seq pos').

(** The map a reader of the latest state sees. *)
Definition lsm_view (s : LsmStore) (m : kv_map) : Prop :=
  inv (lsm s) (ghost s) /\ is_u64 (durable_through (lsm s)) /\ wal_ok s /\ bt_sorted m /\
  forall k, bt_get k m = value_of (newest (log (ghost s)) k u64_max).

(** ** Batches on the map and in the log *)

Fixpoint last_write (ops : list WriteOp) (k : bytes) : option (option bytes) :=
  match ops with
  | [] => None
  | op :: ops =>
      match last_write ops k with
      | Some v => Some v
      | None => if eqb k (op_kv op).1 then Some (op_kv op).2 else None
      end
  end.

Lemma get_apply_ops ops m k :
  bt_sorted m -> bt_get k (apply_ops ops m) = match last_write ops k with Some v => v | None => bt_get k m end.
Proof.
  revert m. induction ops as [|op ops IH]; intros m Hm; [done|]. cbn [last_write].
  change (apply_ops (op :: ops) m) with (apply_ops ops (apply_op m op)). rewrite IH by by apply apply_op_sorted.
  destruct (last_write ops k); [done|]. destruct op as [key v|key]; simpl.
  - rewrite bt_get_insert. by destruct (eqb k key).
  - rewrite bt_get_remove by done. by destruct (eqb k key).
Qed.

Definition written (v : option bytes) : RecordValue := match v with Some b => RPut b | None => RTombstone end.

Lemma newest_batch seq ops k as_of :
  seq <= as_of -> newest (batch_items seq ops) k as_of = (fun v => (seq, written v)) <$> last_write ops k.
Proof.
  intros Hs. induction ops as [|op ops IH]; [done|]. cbn [batch_items last_write].
  assert (newest (op_item seq op :: batch_items seq ops) k as_of =
    better (if eqb k (op_kv op).1 then Some (seq, written (op_kv op).2) else None) (newest (batch_items seq ops) k as_of)) as Hcons.
  { rewrite newest_cons. f_equal. unfold pick. destruct op as [key v|key]; simpl;
      (rewrite (proj2 (Z.leb_le seq as_of) Hs), andb_true_r, andb_true_r); unfold eqb; rewrite (cmp_opp k key); by destruct (cmp k key). }
  destruct (existsb _ _) eqn:Ee; [|rewrite Hcons]; rewrite IH.
  - destruct (last_write ops k) as [v|] eqn:El; [done|]. destruct (eqb k (op_kv op).1) eqn:Ek; [|done]. exfalso.
    apply eqb_eq in Ek as ->. apply existsb_key in Ee as (i & Hi & Hk). simpl in IH. rewrite newest_None in IH.
    destruct i as [[ik sq] iv]. simpl in Hk. subst ik. destruct (batch_items_spec _ _ _ Hi) as [Es _]. simpl in Es. subst sq.
    specialize (IH _ _ Hi). lia.
  - destruct (last_write ops k) as [v|] eqn:El; simpl; [|by destruct (eqb k _)]. destruct (eqb k (op_kv op).1) eqn:Ek; [|done]. exfalso.
    apply eqb_eq in Ek as ->. simpl in IH. apply newest_Some in IH as (Hin & _ & _).
    enough (existsb (fun i => eqb i.1.1 (op_kv op).1) (batch_items seq ops) = true) by congruence. apply existsb_key. eauto.
Qed.

(** ** The laws *)

Lemma log_below e g i : inv e g -> In i (log g) -> i.1.2 <= durable_through e.
Proof. intros He Hi. by apply (in_seq _ _ He). Qed.

(** A sequence number above everything durable is fresh, and no frozen source is ahead of it. *)
Lemma frozen_before_new e g key seq : inv e g -> durable_through e < seq -> frozen_before e key seq.
Proof.
  intros He Hlt. pose proof (in_tables _ _ He) as (recss & [Hrep _ _ Hlog _ _]). split.
  - intros m s v Hm Hin. enough (s <= durable_through e) by lia. apply (log_below e g (key, s, of_memtable_value v) He), Hlog.
    unfold sources, mem_sources. simpl. rewrite concat_app, !in_app_iff. right. left. apply in_concat. exists (flush_items m.2).
    split; [by apply in_map_iff; exists m|]. unfold flush_items. apply in_map_iff. by exists ((key, s), v).
  - intros t recs s v Ht Hr Hin. enough (s <= durable_through e) by lia. apply (log_below e g (key, s, v) He), Hlog.
    unfold sources. rewrite concat_app, in_app_iff. right. apply in_concat. exists recs. split; [|done].
    clear -Hrep Ht Hr. induction Hrep as [|t' recs' ts rs Hr' Hrs IH]; [done|]. destruct Ht as [->|Ht]; [|right; by apply IH].
    left. by apply (represents_fun t).
Qed.

Lemma view_write s m e' pos ops :
  lsm_view s m -> wal_answer s (turn s) = Acknowledged pos -> inv e' (add_log (batch_items (position_seq pos) ops) (ghost s)) ->
  durable_through e' = Z.max (durable_through (lsm s)) (position_seq pos) ->
  lsm_view (MkLsmStore e' (add_log (batch_items (position_seq pos) ops) (ghost s)) (wal_answer s) (S (turn s))) (apply_ops ops m).
Proof.
  intros (He & _ & [Hw1 Hw2] & Hm & Hmap) Ha He' Hd. destruct (Hw1 (turn s) pos (le_n _) Ha) as [Hlt Hmax].
  pose proof (in_floor _ _ He) as Hfl. split_and!; [done|..]; simpl.
  - unfold is_u64. rewrite Hd. lia.
  - split; simpl.
    + intros n pos' Hn Hp. destruct (Hw1 n pos' ltac:(lia) Hp). pose proof (Hw2 (turn s) n pos pos' ltac:(lia) Ha Hp). lia.
    + intros n n' p p' Hn. apply Hw2. lia.
  - by apply apply_ops_sorted.
  - intros k. rewrite get_apply_ops, newest_app, newest_batch by done. destruct (last_write ops k) as [v|]; simpl.
    + assert (better (newest (log (ghost s)) k u64_max) (Some (position_seq pos, written v)) = Some (position_seq pos, written v)) as ->.
      { destruct (newest (log (ghost s)) k u64_max) as [[s' v']|] eqn:En; [|done]. simpl. apply newest_Some in En as (Hin & _ & _).
        pose proof (log_below _ _ _ He Hin) as Hle. simpl in Hle. by rewrite (proj2 (Z.ltb_lt _ _)) by lia. }
      by destruct v.
    + by rewrite better_None_r.
Qed.

Lemma view_stats s m c : lsm_view s m -> lsm_view (with_lsm (set_read_stats c (lsm s)) s) m.
Proof. intros (He & Hd & Hw & Hm). split_and!; [by apply (inv_frame (lsm s))|done..|apply Hm|apply Hm]. Qed.

Lemma view_floor s m : lsm_view s m -> floor (ghost s) <= u64_max.
Proof. intros (He & Hd & _). pose proof (in_floor _ _ He). unfold is_u64 in Hd. lia. Qed.

Lemma kv_range_sorted lo hi (m : kv_map) : bt_sorted m -> bt_sorted (kv_range lo hi m).
Proof. apply StronglySorted_filter. Qed.

(** A scan's rows are the map's. *)
Lemma scan_rows_eq s m lo hi out :
  lsm_view s m -> StronglySorted (fun a b => cmp a.1 b.1 = Lt) out ->
  (forall k v, In (k, v) out <-> above lo k && below hi k = true /\ value_of (newest (log (ghost s)) k u64_max) = Some v) ->
  out = kv_range lo hi m.
Proof.
  intros (_ & _ & _ & Hm & Hmap) Hs Hin.
  apply (sorted_unique (fun a b => cmp a.1 b.1 = Lt)); [| |done|by apply kv_range_sorted|].
  - intros x. by rewrite cmp_refl.
  - intros x y Hxy Hyx. by apply (cmp_lt_asym _ _ Hxy).
  - intros [k v]. rewrite Hin, <- Hmap. unfold kv_range. rewrite filter_In. simpl. split.
    + intros [Hb Hg]. split; [by apply bt_get_Some_In|done].
    + intros [Hg Hb]. split; [done|by apply bt_In_get].
Qed.

#[global] Instance lsm_store_laws : KvStoreLaws LsmStore lsm_view.
Proof.
  split.
  - by intros s m (_ & _ & _ & Hm & _).
  - intros key s m Hv. pose proof Hv as (He & _ & _ & _ & Hmap). simpl. unfold get.
    destruct (inv_read (lsm s) (ghost s) key u64_max He) as (c & ->); [by apply (view_floor s m)|].
    simpl. split; [by apply view_stats|]. left. by rewrite Hmap.
  - intros lo hi s m Hv. pose proof Hv as (He & _). simpl.
    destruct (range_scan_inv (lsm s) (ghost s) lo hi u64_max He) as (out & Hs & Hin & Hscan); [by apply (view_floor s m)|].
    destruct (Hscan (scan_fuel (lsm s)) (le_n _)) as (it & st & Hr & Hdr). unfold range. rewrite Hr. cbn [mbind option_bind].
    rewrite Hdr. simpl. split; [by apply view_stats|]. left. do 2 f_equal. by apply (scan_rows_eq s).
  - intros ops s m Hv. pose proof Hv as (He & Hd & Hw & Hm & Hmap). simpl.
    pose proof (write_batch_inv (lsm s) (ghost s) (wal_answer s (turn s)) ops He) as Hwb.
    destruct (write_batch (wal_answer s (turn s)) ops (lsm s)) as [e' r]. simpl.
    assert (forall e g, durable_through e = durable_through (lsm s) -> wal_ok (MkLsmStore e g (wal_answer s) (S (turn s)))) as Hnext.
    { intros e g Ee. destruct Hw as [Hw1 Hw2]. split; simpl; rewrite ?Ee; [intros n pos Hn; apply Hw1; lia|intros n n' p p' Hn; apply Hw2; lia]. }
    destruct Hwb as [(_ & -> & x & ->)|[(_ & pos & x & Ha & -> & -> & Hi)|(_ & pos & Ha & Hlog & Hdur & Hr & Hi)]].
    + intros pos Ha. destruct (proj1 Hw (turn s) pos (le_n _) Ha) as [Hlt Hmax]. pose proof (in_floor _ _ He). split_and!.
      * unfold is_u64. lia.
      * intros i Hi. pose proof (log_below _ _ _ He Hi). lia.
      * apply List.Forall_forall. intros op _. by apply (frozen_before_new _ (ghost s)).
    + left. split; [|eauto].
      replace (ghost_after _ _ _ _ _) with (ghost s) by (unfold ghost_after; rewrite Nat.eqb_refl; by destruct (wal_answer s (turn s))).
      split_and!; [done|done|by apply Hnext|done|done].
    + left. split; [|eauto]. rewrite Ha. cbn [ghost_after]. split_and!; [done|done|by apply Hnext|done|done].
    + right. replace (ghost_after _ _ _ _ _) with (add_log (batch_items (position_seq pos) ops) (ghost s)).
      { split; [by apply view_write|]. destruct Hr as [->|(n & mx & ->)]; eauto. }
      unfold ghost_after. rewrite Ha, Hlog, length_app. simpl. by rewrite (proj2 (Nat.eqb_neq _ _)) by lia.
Qed.

(** ** Background work *)

(** The engine's own steps between two calls: the flush thread's, those of a compaction cycle, snapshots read, registered
    and dropped, reads by others, and sequence numbers of other records becoming durable, below those the pool has yet to
    acknowledge.  Each step keeps the discipline of [LsmReads]. *)
Definition background (s s' : LsmStore) : Prop :=
  (exists a, step (lsm s) (ghost s) a (lsm s') (ghost s') /\ disciplined a (lsm s) (ghost s)) /\
  log (ghost s') = log (ghost s) /\
  wal_answer s' = wal_answer s /\ turn s' = turn s /\ wal_ok s' /\ is_u64 (durable_through (lsm s')).

Lemma background_view s s' m : background s s' -> lsm_view s m -> lsm_view s' m.
Proof.
  intros ((a & Hstep & Hdis) & Hlog & _ & _ & Hw & Hd) (He & _ & _ & Hm & Hmap). split_and!; [by eapply inv_step|done..|].
  intros k. by rewrite Hlog.
Qed.

(** The two halves of [snapshot]. *)
Definition snapshot_taken (s : LsmStore) : LsmStore :=
  MkLsmStore (lsm s) (set_taken (durable_through (lsm s) :: taken (ghost s)) (ghost s)) (wal_answer s) (turn s).
Definition snapshot_live (seq : Z) (s : LsmStore) : LsmStore :=
  MkLsmStore (snapshot_register seq (lsm s)).1 (set_taken (remove_one seq (taken (ghost s))) (ghost s)) (wal_answer s) (turn s).

Lemma background_snapshot s :
  wal_ok s -> is_u64 (durable_through (lsm s)) ->
  background s (snapshot_taken s) /\ background (snapshot_taken s) (snapshot_live (durable_through (lsm s)) (snapshot_taken s)).
Proof.
  intros Hw Hd. split.
  - split_and!; [|done..]. exists ASnapshotRead. split; [apply step_snapshot_read|done].
  - split_and!; [|done..]. exists (ASnapshotRegister (durable_through (lsm s))). split; [|done].
    apply step_snapshot_register. by left.
Qed.

Lemma new_view cfg answers :
  config_ok cfg -> wal_ok (MkLsmStore (engine_new cfg) ghost_new answers 0) -> lsm_view (MkLsmStore (engine_new cfg) ghost_new answers 0) [].
Proof. intros Hc Hw. split_and!; [by apply inv_new|done|done|apply SSorted_nil|done]. Qed.

End Store.
End Store.
