(* ===== verification/CatalogLsm.v ===== *)
(** * The catalog on the LSM engine

    The composition: the catalog service of [CatalogService] running on the engine of [LsmEngine] through the interface of
    [KvStore], with the engine's flush thread and compactor working between any two requests.  The catalog's theorems were
    proved against the interface, the engine's against its own state; together they say what a running database built from
    both keeps.  A new service here is [CatalogService::new] on the engine that is running; what a restart of the engine
    itself finds is [LsmRecover]'s. *)

From stdpp Require Import base list option strings sorting relations.
From Stdlib Require Import ZArith Lia.
From Stdlib Require Import Strings.Byte.
From S2P Require Import Prelude BTree EngineError Checksum MemTable SsTable LsmEngine LsmReads LsmScan KvStore LsmStore.
From S2P Require Import RelKey RowCodec CatalogRows CatalogService CatalogRep CatalogSpec CatalogRefine CatalogInv CatalogRuns.

Module OnLsm.
Import Rel Row Rows Kv Store Cat Rep Spec Refine Inv Runs.
Import Reads(config_ok, ghost_new).
Import Lsm(LsmConfig, engine_new, WalAnswer, Acknowledged, Refused, Position, position_seq, durable_through, lsm_config_default).

Section System.
Context `{Crc32c, Xxh64}.

(** An orderly step of the service, or a disciplined one of the engine's own. *)
Inductive sys_step : Service LsmStore -> Service LsmStore -> Prop :=
| Sys_service s s' : orderly_step (view := lsm_view) s s' -> sys_step s s'
| Sys_background s e : background (engine s) e -> sys_step s (set_engine e s).

Lemma background_st c s e : background (engine s) e -> st (view := lsm_view) c s -> st (view := lsm_view) c (set_engine e s).
Proof. intros Hb ((m & Hv & Hm) & Hc). split; [|done]. exists m. split; [by eapply background_view|done]. Qed.

(** A reader takes a snapshot: two steps. *)
Lemma sys_snapshot s :
  wal_ok (engine s) -> is_u64 (durable_through (lsm (engine s))) ->
  let s1 := set_engine (snapshot_taken (engine s)) s in
  sys_step s s1 /\ sys_step s1 (set_engine (snapshot_live (durable_through (lsm (engine s))) (snapshot_taken (engine s))) s1).
Proof.
  intros Hw Hd s1. destruct (background_snapshot (engine s) Hw Hd) as [H1 H2]. split; [by apply Sys_background|].
  by apply (Sys_background s1).
Qed.

Lemma sys_steps c s s' :
  rtc sys_step s s' -> st (view := lsm_view) c s -> wf c ->
  exists c', rtc cat_step c c' /\ wf c' /\ st (view := lsm_view) c' s'.
Proof.
  intros Hsteps. revert c. induction Hsteps as [s|s s1 s' Hstep Hsteps IH]; intros c Hs Hwf; [exists c; by split_and!|].
  assert (advanced (view := lsm_view) c s1) as (c1 & Hc1 & Hs1).
  { destruct Hstep as [s s1 Hstep|s e Hb]; [by apply (orderly_step_advanced c s)|]. exists c. split; [by left|by apply background_st]. }
  assert (wf c1) as Hwf1 by (destruct Hc1 as [->|Hc]; [done|by eapply wf_cat_step]).
  destruct (IH c1 Hs1 Hwf1) as (c' & Hcs & Hwf' & Hs'). exists c'. split_and!; [|done..].
  destruct Hc1 as [->|Hc]; [done|by eapply rtc_l].
Qed.

(** C5: the running database.  Start the catalog service on a new LSM engine whose group-commit pool acknowledges increasing
    sequence numbers, and may refuse batches or fail to confirm them, and interleave in any order: bootstraps, requests, the
    two halves of [mark_index_dropping], new services on the same engine, and between them the engine's own flush,
    compaction, snapshot and read steps.  The run is orderly: an engine error in a request is followed by a new service, no
    request is a [create_constraint] with the kind CHECK, no foreign key is put on an index between the halves of
    [mark_index_dropping]; and the engine's steps keep the discipline of [LsmReads] (no table installed during a compaction
    cycle, no snapshot registered below a cycle's floor).  In every state reached, the bytes the engine returns for the
    catalog namespace decode to a well-formed catalog reached by specified steps only; the next request (CHECK through
    [create_constraint] excepted) is answered as the specification says on that catalog, leaves the catalog it says, and does
    not panic. *)
Theorem catalog_on_lsm cfg answers s :
  config_ok cfg -> wal_ok (MkLsmStore (engine_new cfg) ghost_new answers 0) ->
  rtc sys_step (service_new (MkLsmStore (engine_new cfg) ghost_new answers 0)) s ->
  exists c, rtc cat_step catalog_empty c /\ wf c /\ st (view := lsm_view) c s /\
    forall r, request_ok r -> keeps_caches r ->
      outcome_ok (view := lsm_view) c (spec r c) (run r s).1 (run r s).2 /\ (run r s).2 <> None.
Proof.
  intros Hc Hw Hsteps.
  assert (st (view := lsm_view) catalog_empty (service_new (MkLsmStore (engine_new cfg) ghost_new answers 0))) as Hs.
  { split; [|by split]. exists []. split; [by apply new_view|apply cat_rep_empty]. }
  destruct (sys_steps catalog_empty _ s Hsteps Hs wf_empty) as (c & Hcs & Hwf & Hst). exists c. split_and!; [done..|].
  intros r Hr Hk. pose proof (run_refines r c Hr Hk (wf_ids c Hwf) s Hst) as Ho. split; [done|]. intros Hn. unfold outcome_ok in Ho.
  rewrite Hn in Ho. destruct Ho as [Ho _]. by destruct (spec_total r c) as [v Hv]; rewrite Hv in Ho.
Qed.
End System.

(** A pool that grants the sequence numbers 1, 2, .. 100, and a run: bootstrap, a table with a foreign key and a CHECK, and
    a snapshot taken by a reader. *)
Definition demo_answers (n : nat) : WalAnswer :=
  if (n <? 100)%nat then Acknowledged (Position 0 0 (Z.of_nat n + 1)) else Refused (WalUnavailable "closed").
Definition lsm_start : Service LsmStore := service_new (MkLsmStore (engine_new lsm_config_default) ghost_new demo_answers 0).
Definition lsm_booted : Service LsmStore := ((bootstrap 3 4 ;; mret 0) lsm_start).1.
Definition lsm_table : Service LsmStore := (run demo_request lsm_booted).1.
Definition lsm_taken : Service LsmStore := set_engine (snapshot_taken (engine lsm_table)) lsm_table.
Definition lsm_snapshot : Service LsmStore :=
  set_engine (snapshot_live (durable_through (lsm (engine lsm_table))) (snapshot_taken (engine lsm_table))) lsm_taken.

Lemma demo_wal_ok e : durable_through e <= Z.of_nat 2 -> wal_ok (MkLsmStore e (ghost (engine lsm_table)) demo_answers 2).
Proof.
  intros Hd. split; simpl.
  - intros n pos Hn. unfold demo_answers. destruct (Nat.ltb_spec n 100); [|done]. intros [= <-]. simpl. unfold u64_max. lia.
  - intros n n' pos pos' Hn. unfold demo_answers. destruct (Nat.ltb_spec n 100); [|done]. destruct (Nat.ltb_spec n' 100); [|done].
    intros [= <-] [= <-]. simpl. lia.
Qed.

Lemma demo_table_ok : wal_ok (engine lsm_table).
Proof.
  replace (engine lsm_table) with (MkLsmStore (lsm (engine lsm_table)) (ghost (engine lsm_table)) demo_answers 2);
    [|vm_compute; reflexivity].
  apply demo_wal_ok. vm_compute. congruence.
Qed.

Lemma demo_durable : is_u64 (durable_through (lsm (engine lsm_table))).
Proof. vm_compute. split; congruence. Qed.

Lemma catalog_on_lsm_witness :
  (run demo_request lsm_booted).2 = Some (Ok 1) /\
  exists c, rtc cat_step catalog_empty c /\ wf c /\ st (view := lsm_view) c lsm_snapshot /\
    forall r, request_ok r -> keeps_caches r ->
      outcome_ok (view := lsm_view) c (spec r c) (run r lsm_snapshot).1 (run r lsm_snapshot).2 /\ (run r lsm_snapshot).2 <> None.
Proof.
  split; [vm_compute; reflexivity|]. apply (catalog_on_lsm lsm_config_default demo_answers).
  - vm_compute. repeat split; congruence.
  - split; simpl.
    + intros n pos Hn. unfold demo_answers. destruct (Nat.ltb_spec n 100); [|done]. intros [= <-]. simpl. unfold u64_max. lia.
    + intros n n' pos pos' Hn. unfold demo_answers. destruct (Nat.ltb_spec n 100); [|done]. destruct (Nat.ltb_spec n' 100); [|done].
      intros [= <-] [= <-]. simpl. lia.
  - apply (rtc_l _ _ lsm_booted); [|apply (rtc_l _ _ lsm_table); [|apply (rtc_l _ _ lsm_taken); [|apply (rtc_l _ _ lsm_snapshot); [|apply rtc_refl]]]].
    + apply Sys_service, (Ord_answered (Boot 3 4)); [split; vm_compute; split; congruence|]. intros [x Hx]. vm_compute in Hx. congruence.
    + apply Sys_service, (Ord_answered (Locked demo_request)).
      * split; [repeat (split || constructor); vm_compute; congruence|]. split; [exact I|discriminate].
      * intros [x Hx]. vm_compute in Hx. congruence.
    + exact (proj1 (sys_snapshot lsm_table demo_table_ok demo_durable)).
    + exact (proj2 (sys_snapshot lsm_table demo_table_ok demo_durable)).
Defined.

End OnLsm.
